(* ===== verification/_CoqProject ===== *)
-Q . S2P
Prelude.v
Json.v
Core.v
Pattern.v
Tokenizer.v
Semantic.v
Rules.v
Redact.v
Tokens.v
Chain.v
ChainSpec.v
Actions.v
Ledger.v
LedgerSpec.v
Threads.v
ThreadsSpec.v
ThreadsKeep.v
ThreadsAlone.v
ThreadsRest.v
Files.v
Wire.v
Engine.v
EngineSpec.v
RuleThreads.v
RuleThreadsSpec.v
Auth.v
Cluster.v
ClusterSpec.v
Listing.v
ListingSpec.v
Platform.v
Ipc.v
IpcSpec.v
Limits.v
Client.v
ClientSpec.v
Daemon.v
DaemonSpec.v
