(* ===== verification/Prelude.v ===== *)
(** * fusion-guard verification

    ** The program

    fusion-guard is a daemon that decides whether an agent may run a command or send a text.
    It scans the content with rules, turns the hits into a verdict, removes sensitive data,
    keeps verdicts that need a human decision until they are confirmed, and records everything
    in hash chains that can be verified later.  Its crates, from the bottom up:

    - fg-core: risk levels, actions, stages, content types, verdicts, errors.
    - fg-rules: the rule engine (lib.rs), the shell tokenizer (tokenizer.rs) and the
      tree-sitter scanners for Python, JavaScript, TypeScript and Rust (semantic.rs).
    - fg-redact: patterns for sensitive data, irreversible and reversible redaction.
    - fg-store: the master key and the tokens (token_store.rs), pending actions
      (action_store.rs), the audit chain, the chains of TCC events and of rule mutations, the
      dead-letter file, the rule table, tenant bindings (lib.rs), the shared secret
      (secret_store.rs).
    - fg-audit-engine: evaluation, redaction, reveal, confirmation, audit events and rule
      changes, on top of the three crates above.
    - fg-ipc: the JSON-RPC server and its authorizer; fg-peercred: peer credentials.
    - fg-cluster, fg-tcc, fg-es and their bridges, fg-pyo3, fg-bin: consumers and platform code.

    ** The files of this development

    - [Prelude]: the result type and its monad, byte strings and slices that panic off a
      character boundary, [Iterator::max_by], the tactics and hint databases.
    - [Json]: values and documents of the crate serde_json, its maps and the decoding rules of
      derived types; the text of a document is the class [JsonText] with the laws
      [JsonTextLaws], which a toy instance shows can hold.
    - [Core]: fg-core/src/lib.rs; [str::trim] on UTF-8 text.
    - [Pattern]: the crate regex as the class [RegexEngine], with its documented laws
      [RegexLaws]; UTF-8 characters.
    - [Tokenizer]: fg-rules/src/tokenizer.rs.  The class [ShellEnv] stands for the crate
      shell-words, the redirection expression, the variable HOME and the Unicode tables of
      [str::to_lowercase].  [command_line_safe] is
      the policy the tokenizer is compared with.
    - [Semantic]: fg-rules/src/semantic.rs; the class [Grammars] stands for the parsers, whose
      trees are the type [Node].
    - [Rules]: fg-rules/src/lib.rs.  [Inner] is the state behind the engine's lock.
    - [Redact]: fg-redact/src/lib.rs.
    - [Tokens]: fg-store/src/token_store.rs.  The class [Crypto] stands for HKDF, HMAC and
      AES-GCM; [CryptoLaws] says that decryption undoes encryption, [HmacLaws] that a digest
      has 32 bytes.
    - [Chain] and [ChainSpec]: the audit chain of fg-store/src/lib.rs: payload encoding,
      append, verification with its checkpoint, rotation into archives.
    - [Actions]: fg-store/src/action_store.rs.
    - [Ledger] and [LedgerSpec]: the rest of fg-store/src/lib.rs: [Store] is the whole
      database with the queue and the dead-letter file; TCC events, rule mutations, rule
      table, tenant bindings, asynchronous appends, dead letters, and the verification of all
      chains.
    - [Threads]: the operations of the store cut into the steps that its locks, SQL statements
      and file accesses make atomic, and the machine that interleaves them; [ThreadsSpec] and
      [ThreadsKeep] are its invariants under a discipline ([calm], [lossless]), [ThreadsAlone]
      relates it to [Ledger] and shows what happens outside the discipline, [ThreadsRest] shows
      that it neither deadlocks nor runs for ever.
    - [Files]: the paths and permissions of the store's files; SQLite is the class
      [SqliteFiles].
    - [Engine] and [EngineSpec]: fg-audit-engine/src/lib.rs.
    - [RuleThreads] and [RuleThreadsSpec]: evaluations and rule changes of the same file as
      concurrent requests, under the lock of the rules and the orchestration lock.
    - [Wire]: the derived JSON forms of rules, verdicts and records.  From them come codecs
      that discharge what [Chain], [Actions] and [Ledger] ask of theirs.
    - [Auth]: fg-ipc/src/authorizer.rs, fg-peercred/src/lib.rs (the result of the system call
      is an argument) and fg-store/src/secret_store.rs.
    - [Cluster] and [ClusterSpec]: fg-cluster (key.rs, lib.rs, verify.rs, client.rs).
    - [Listing] and [ListingSpec]: of fg-store/src/lib.rs the queries with filters and cursors,
      archive files and their expiry, the schema migration.
    - [Platform]: fg-tcc, fg-es and the functions of the bridges.
    - [Ipc] and [IpcSpec]: fg-ipc/src/lib.rs, from the bytes of a connection through lines,
      parameters, authorisation, permits and the 24 handlers to the bytes of the answers.
      [World] is what one request meets of clocks, faults and environment, [Sched] what the
      runtime does with it.
    - [Limits]: the semaphores of the same file as a state machine over all connections.
    - [Client] and [ClientSpec]: fg-pyo3/src/lib.rs; the socket is the class [Transport], which
      [ClientSpec] instantiates by the server of [Ipc].
    - [Daemon] and [DaemonSpec]: fg-bin/src/main.rs with [AuditStore::open], [IpcServer::new]
      and the start of [IpcServer::serve]; [Disk] is what survives the process.

    ** How the code is modelled

    A Rust [str] is the sequence of its UTF-8 bytes, and every index is a byte index.  A slice
    that Rust refuses at run time is the error [Panic].  A panic is a value, so a theorem that
    says a function returns [Ok] says that it does not panic.  [is_char_boundary] looks at the
    byte at the index only, which is enough for valid UTF-8, where index 0 is a boundary.

    A table of SQLite with a text key is a [gmap]; a table that is read in the order of its
    rowid is a list.  A transaction is a function from the state before to the state after and
    a result.  A statement that fails is an argument of the functions whose control flow
    depends on it ([Fault], [ArchiveOutcome], [put_fault]), and of every step of a thread of the
    store, whose statement may fail with an error or be taken for an empty answer ([Failure],
    [step_raised], [step_swallowed]); the other statements do not fail.
    Clocks, random identifiers, nonces and the results of writing files are arguments.  An
    epoch is a [Z] that wraps at 2^64.

    Most files take an operation as one step and state invariants for every sequence of
    operations.  Where the code gives up its locks within an operation, [Threads] and
    [RuleThreads] cut it there: a task says where a thread is, [holds_writer], [holds_reader]
    and [holds_orch] which guards it keeps to its next step, and an event of the machine starts
    a task, runs one step of one of them or ends the process.  A run is a list of events, so a
    theorem about all runs is about all interleavings; [ThreadsAlone] and [RuleThreadsSpec]
    show that a task nobody interrupts does what the definition in one step does.

    A handler is a function from the engine to the engine and a result.  A time-out does not
    stop it, as in the code, where the blocking task runs on; only its answer is replaced.
    The step relation [effect] of [IpcSpec] lists the changes a request can make, with the
    right each of them needs; every handler is shown to be a sequence of them, so a property
    of connections is proved by induction over the steps.

    Recursion is structural except where a byte list is consumed by several bytes at a step
    ([strip_while], [split_ws_go], [utf8_go], [lossy_go]); there the fuel is the length of the
    list, and every step consumes at least one byte.  The fuel of [conn_loop] is one more than
    the length of the stream, and the theorem on lines in [IpcSpec] shows that it is
    enough; the theorem on pages in [ListingSpec] does the same for the number of pages.  The
    number of steps a task takes alone ([alone], [finish]) occurs in specifications only, where
    it is shown to exist.  No other definition has fuel.

    ** What is shown

    - Rules: the verdict is the greatest hit in the order of action, risk and stage, whatever
      the order of the hits; along every sequence of changes the compiled expressions stay
      aligned with the rules and the epoch counts the changes; stage 1 reports exactly the
      rules that match.
    - Tokenizer and scanners: the tokenizer accepts exactly the command lines of the policy,
      does not panic on single-byte first characters, and loses nothing when it splits; the
      tree walk finds exactly the dangerous calls; aliases are resolved; grammars are tried
      in the documented priority.
    - Redaction: exact, complete and free of panics; reversible redaction can be undone; the
      check digits of cards and identity numbers detect every wrong digit.
    - Tokens and keys: a token is revealed to its tenant for its whole lifetime, through key
      rotations; a lost master key is never replaced under existing data.
    - Audit chain: verification succeeds exactly on genuine chains; two verified tables with
      the same end agree row by row unless HMAC collides; the signed encoding is injective.
    - Store: every history of operations leaves all four chains clean; no queued event is
      lost; dead letters come back; rules load only if all of them parse.
    - Threads of the store: every interleaving within the discipline leaves the chains clean
      and loses no event, also when statements fail; each operation refines its sequential
      definition; without new calls every schedule ends, with all calls returned and the queue
      empty; outside the discipline there are false alarms and losses, each shown on a run.
    - Threads of the engine: rule changes are serialized with everything around them; an
      evaluation is one of the rules of a single moment.
    - Files: databases, dead letters and archives are private to the owner.
    - Actions and engine: at most one decision per action and none at L4; an evaluation blocks
      exactly when a hit blocks and stores what it must before it answers; a hint only raises
      the risk; a reveal depends on the tenant's own tokens only; rule changes survive a
      restart.
    - Authentication: which callers reach which methods; what the comparison of secrets
      accepts; a release build that starts has a secret.
    - Server: whatever bytes come in, only root changes rules, a stranger changes and learns
      nothing, a caller cannot decide for or read of tenants it is not bound to, and no action
      is confirmed twice; each line is answered once and in order; a verdict is on record
      before it is answered; errors come from a fixed list; verdicts fit their types.  The
      permits of the semaphores are conserved.
    - Client: a call is one run of the method it names, or two when the first fails; Python
      sees the verdict of the engine.
    - Cluster: a segment is accepted exactly when its records are genuine and linked; its last
      record pins a strict segment down; the canonical text determines the members; a relayed
      confirmation verifies.
    - Listing, archives, schema: following the cursors yields every selected row once; a
      rotation keeps each row in the table or in a readable archive; expiry removes exactly the
      old archives; the migration is idempotent.
    - Daemon: what a process that started has, what a stop and a restart keep, and that a ping
      is answered.

    Behaviours that differ from what comments or documents say are proved as lemmas on
    concrete inputs, next to the theorems of their component.

    ** What is not modelled, and why

    Log statements, pragmas of SQLite, the foreign functions behind the bridges and the
    system call that reads peer credentials: effects outside the program's state.  Mutexes
    poisoned by a panic, which the code recovers; of the threads of the store the read of
    the checkpoint within an insertion and of the last row within a confirmation when they
    fail unseen.  In fg-store helpers only the tests use; in fg-bin argument parsing, the
    runtime, the delivery of signals and the layout of the printed answer to a ping; in
    fg-pyo3 the constants of the build.  The crates the program calls (regex, shell-words,
    tree-sitter, serde_json's text, RustCrypto, hex, chrono, reqwest, rusqlite beyond
    tables) are classes with their documented laws. *)
From Stdlib Require Export Ascii.
From stdpp Require Export base tactics list gmap strings sorting.
From Stdlib Require Export ZArith Lia.

#[global] Set Default Proof Using "Type".
Declare Scope guard_scope.
Delimit Scope guard_scope with guard.

(** ** Fallible computations

    Rust's [Result<A, E>].  A panic of safe Rust code (slice out of bounds,
    slice off a character boundary) is the error [Panic] of the type [panic]. *)
Inductive result (E A : Type) : Type :=
| Ok (a : A)
| Err (e : E).
Arguments Ok {E A} a.
Arguments Err {E A} e.

Inductive panic : Type := Panic.

#[global] Instance result_ret (E : Type) : MRet (result E) := fun _ a => Ok a.
#[global] Instance result_bind (E : Type) : MBind (result E) :=
  fun _ _ f m => match m with Ok a => f a | Err e => Err e end.

Definition map_err {E F A} (f : E -> F) (m : result E A) : result F A :=
  match m with Ok a => Ok a | Err e => Err (f e) end.
Definition ok_or {E A} (e : E) (o : option A) : result E A :=
  match o with Some a => Ok a | None => Err e end.
Definition result_ok {E A} (m : result E A) : option A :=
  match m with Ok a => Some a | Err _ => None end.

(** ** Unsigned 64-bit arithmetic

    [x += 1] on a [u64] in a release build (no overflow checks are configured
    in the workspace's release profile). *)
Definition u64_add (a b : Z) : Z := ((a + b) mod 2 ^ 64)%Z.
Definition u64_fits (a : Z) : Prop := (0 <= a < 2 ^ 64)%Z.

Lemma u64_add_small a b : u64_fits (a + b) -> u64_add a b = (a + b)%Z.
Proof. intros H. apply Z.mod_small, H. Qed.

(** ** Byte strings

    A Rust [str] is its UTF-8 byte sequence; a Rocq [string] is a sequence of
    8-bit characters.  Every index of the model is a byte index, as in Rust. *)
Definition bytes (s : string) : list ascii := String.list_ascii_of_string s.
Definition of_bytes (l : list ascii) : string := String.string_of_list_ascii l.

Lemma bytes_of_bytes l : bytes (of_bytes l) = l.
Proof. apply String.list_ascii_of_string_of_list_ascii. Qed.
Lemma of_bytes_bytes s : of_bytes (bytes s) = s.
Proof. apply String.string_of_list_ascii_of_string. Qed.
Lemma bytes_inj s1 s2 : bytes s1 = bytes s2 -> s1 = s2.
Proof. intros H. by rewrite <- (of_bytes_bytes s1), H, of_bytes_bytes. Qed.
Lemma bytes_app s1 s2 : bytes (s1 +:+ s2) = bytes s1 ++ bytes s2.
Proof.
  induction s1 as [|c s1 IH]; [done|].
  change (c :: bytes (s1 +:+ s2) = c :: bytes s1 ++ bytes s2). by rewrite IH.
Qed.
Lemma of_bytes_app l1 l2 : of_bytes (l1 ++ l2) = of_bytes l1 +:+ of_bytes l2.
Proof. apply bytes_inj. by rewrite bytes_app, !bytes_of_bytes. Qed.
Lemma length_bytes s : length (bytes s) = String.length s.
Proof. unfold bytes. induction s; cbn; auto. Qed.

Definition str_take (n : nat) (s : string) : string := of_bytes (take n (bytes s)).
Definition str_drop (n : nat) (s : string) : string := of_bytes (drop n (bytes s)).
Definition str_slice (i j : nat) (s : string) : string :=
  of_bytes (take (j - i) (drop i (bytes s))).
Definition str_rev (s : string) : string := of_bytes (reverse (bytes s)).
Definition str_empty (s : string) : bool :=
  match s with EmptyString => true | _ => false end.

Fixpoint str_has (c : ascii) (s : string) : bool :=
  match s with
  | EmptyString => false
  | String a s' => Ascii.eqb a c || str_has c s'
  end.

Definition starts_with (p s : string) : bool := String.prefix p s.
Definition ends_with (p s : string) : bool := String.prefix (str_rev p) (str_rev s).
Fixpoint str_contains (needle s : string) : bool :=
  String.prefix needle s ||
  match s with EmptyString => false | String _ s' => str_contains needle s' end.
Definition strip_prefix (p s : string) : option string :=
  if String.prefix p s then Some (str_drop (String.length p) s) else None.
(** [str::find(char)]: byte index of the first occurrence. *)
Fixpoint str_find (c : ascii) (s : string) : option nat :=
  match s with
  | EmptyString => None
  | String a s' => if Ascii.eqb a c then Some 0 else S <$> str_find c s'
  end.
(** [slice.contains(&x)] on a slice of strings. *)
Definition mem_str (x : string) (l : list string) : bool :=
  existsb (String.eqb x) l.
Fixpoint str_concat (sep : string) (l : list string) : string :=
  match l with
  | [] => ""
  | [x] => x
  | x :: l' => x +:+ sep +:+ str_concat sep l'
  end.
(** [str::split(char)] *)
Fixpoint str_split (sep : ascii) (s : string) : list string :=
  match s with
  | EmptyString => [""]
  | String a s' =>
      if Ascii.eqb a sep then "" :: str_split sep s'
      else match str_split sep s' with
           | [] => [String a ""]
           | w :: ws => String a w :: ws
           end
  end.

Lemma mem_str_In x l : mem_str x l = true <-> In x l.
Proof.
  unfold mem_str. rewrite existsb_exists. split.
  - intros (y & Hy & E). apply String.eqb_eq in E. by subst.
  - intros H. exists x. split; [done|]. apply String.eqb_refl.
Qed.

Lemma str_app_cons c p t : String c p +:+ t = String c (p +:+ t).
Proof. done. Qed.
Lemma str_app_nil p : p +:+ "" = p.
Proof. apply bytes_inj. rewrite bytes_app. apply app_nil_r. Qed.
Lemma str_app_assoc p q r : p +:+ (q +:+ r) = (p +:+ q) +:+ r.
Proof. apply bytes_inj. rewrite !bytes_app. apply app_assoc. Qed.

Lemma prefix_app p s : String.prefix p s = true <-> exists t, s = p +:+ t.
Proof.
  revert s. induction p as [|c p IH]; intros s.
  - split; [by exists s|]. by destruct s.
  - destruct s as [|d s]; cbn.
    + split; [done | intros (t & E); by rewrite str_app_cons in E].
    + destruct (Ascii.ascii_dec c d) as [->|Hne].
      * rewrite IH. split; intros (t & E); exists t; rewrite str_app_cons in *;
          [by rewrite E | by injection E].
      * split; [done|]. intros (t & E). rewrite str_app_cons in E.
        injection E. congruence.
Qed.

Lemma strip_prefix_spec p s t : strip_prefix p s = Some t <-> s = p +:+ t.
Proof.
  unfold strip_prefix. destruct (String.prefix p s) eqn:E.
  - apply prefix_app in E as (u & ->). unfold str_drop.
    rewrite bytes_app, <- length_bytes, drop_app_length, of_bytes_bytes.
    split; [by intros [= ->]|]. intros H.
    apply (f_equal bytes) in H. rewrite !bytes_app in H.
    apply app_inv_head, bytes_inj in H. by subst.
  - split; [done|]. intros ->.
    rewrite (proj2 (prefix_app p _)) in E; [done | by eexists].
Qed.

(** *** Slicing at byte indices

    [&s[n..]] and [&s[..n]] panic when [n] is past the end or inside the
    encoding of a character, i.e. when the byte at [n] is a continuation byte. *)
Definition is_continuation (a : ascii) : bool :=
  Nat.leb 128 (nat_of_ascii a) && Nat.ltb (nat_of_ascii a) 192.
Definition is_char_boundary (n : nat) (s : string) : bool :=
  match bytes s !! n with
  | Some a => negb (is_continuation a)
  | None => Nat.eqb n (String.length s)
  end.
Definition slice_from (n : nat) (s : string) : result panic string :=
  if is_char_boundary n s then Ok (str_drop n s) else Err Panic.
Definition slice_to (n : nat) (s : string) : result panic string :=
  if is_char_boundary n s then Ok (str_take n s) else Err Panic.

(** ** Iterator and slice functions of the Rust standard library *)

(** [Iterator::max_by]: the last of the maximal elements. *)
Definition keep_max {A} (cmp : A -> A -> comparison) (m y : A) : A :=
  match cmp m y with Gt => m | _ => y end.
Definition max_by {A} (cmp : A -> A -> comparison) (l : list A) : option A :=
  match l with
  | [] => None
  | x :: l' => Some (fold_left (keep_max cmp) l' x)
  end.
Definition by_key {A} (key : A -> nat) (a b : A) : comparison :=
  Nat.compare (key a) (key b).

Section MaxBy.
Context {A : Type} (key : A -> nat).

Lemma keep_max_in m y : keep_max (by_key key) m y = m \/ keep_max (by_key key) m y = y.
Proof. unfold keep_max. case_match; auto. Qed.
Lemma keep_max_key m y : key (keep_max (by_key key) m y) = Nat.max (key m) (key y).
Proof.
  unfold keep_max, by_key.
  destruct (Nat.compare_spec (key m) (key y)); lia.
Qed.

Lemma fold_max_in l x : In (fold_left (keep_max (by_key key)) l x) (x :: l).
Proof.
  revert x. induction l as [|y l IH]; intros x; [by left|]. cbn [fold_left].
  destruct (IH (keep_max (by_key key) x y)) as [E|?]; [|by right; right].
  rewrite <- E. destruct (keep_max_in x y) as [->| ->]; cbn; auto.
Qed.

Lemma fold_max_ge l x z : In z (x :: l) ->
  key z <= key (fold_left (keep_max (by_key key)) l x).
Proof.
  revert x z. induction l as [|y l IH]; intros x z; [by intros [->|[]]|].
  cbn [fold_left]. intros Hz.
  assert (key (keep_max (by_key key) x y) <=
          key (fold_left (keep_max (by_key key)) l (keep_max (by_key key) x y)))
    by (apply IH; by left).
  rewrite keep_max_key in H.
  destruct Hz as [<-|[<-|Hz]]; [lia|lia|]. apply IH. by right.
Qed.

Lemma max_by_spec l m : max_by (by_key key) l = Some m ->
  In m l /\ (forall z, In z l -> key z <= key m).
Proof.
  destruct l as [|x l]; [done|]. intros [= <-]. split.
  - apply fold_max_in.
  - intros z. apply fold_max_ge.
Qed.
End MaxBy.

Lemma max_by_ext {A} (c1 c2 : A -> A -> comparison) l :
  (forall a b, c1 a b = c2 a b) -> max_by c1 l = max_by c2 l.
Proof.
  intros H. destruct l as [|x l]; [done|]. cbn. f_equal. revert x.
  induction l as [|y l IH]; intros x; [done|]. cbn. unfold keep_max at 2 4. rewrite H. apply IH.
Qed.

(** A [for] loop that returns at the first element on which [f] does. *)
Fixpoint first_some {A B} (f : A -> option B) (l : list A) : option B :=
  match l with
  | [] => None
  | a :: l' => match f a with Some b => Some b | None => first_some f l' end
  end.

Lemma first_some_none {A B} (f : A -> option B) l :
  first_some f l = None <-> (forall a, In a l -> f a = None).
Proof.
  induction l as [|a l IH]; cbn; [by split|].
  destruct (f a) eqn:E.
  - split; [done|]. intros H. rewrite (H a) in E; [done|by left].
  - rewrite IH. split; [intros H b [<-|?]; auto | auto].
Qed.

Lemma existsb_false {A} (f : A -> bool) l :
  existsb f l = false <-> (forall a, In a l -> f a = false).
Proof.
  rewrite <- not_true_iff_false, existsb_exists. split.
  - intros H a Ha. apply not_true_iff_false. intros E. apply H. eauto.
  - intros H (a & Ha & E). by rewrite (H a Ha) in E.
Qed.

Lemma mem_str_not_In x l : mem_str x l = false <-> ~ In x l.
Proof. by rewrite <- mem_str_In, not_true_iff_false. Qed.

Lemma delete_insert_list {A} (i : nat) (x : A) (l : list A) : delete i (<[i := x]> l) = delete i l.
Proof. revert i. induction l as [|y l IH]; intros [|i]; [done..|]. cbn. f_equal. apply IH. Qed.

(** Sums over a list one element of which changes. *)
Lemma sum_perm {A} (f : A -> nat) l1 l2 : l1 ≡ₚ l2 -> sum_list_with f l1 = sum_list_with f l2.
Proof. induction 1; cbn; lia. Qed.
Lemma sum_delete {A} (f : A -> nat) l i p : l !! i = Some p ->
  sum_list_with f l = f p + sum_list_with f (delete i l).
Proof. intros Hi. by rewrite (sum_perm f _ _ (delete_Permutation _ _ _ Hi)). Qed.
Lemma sum_insert {A} (f : A -> nat) l i p q : l !! i = Some p ->
  sum_list_with f (<[i := q]> l) + f p = sum_list_with f l + f q.
Proof.
  intros Hi. rewrite (sum_delete f l i p Hi).
  rewrite (sum_delete f (<[i := q]> l) i q) by (rewrite list_lookup_insert_eq; [done|by eapply lookup_lt_Some]).
  rewrite delete_insert_list. lia.
Qed.
Lemma sum_le {A} (f1 f2 : A -> nat) l : (forall p, f1 p <= f2 p) -> sum_list_with f1 l <= sum_list_with f2 l.
Proof. intros Hf. induction l as [|p l IH]; cbn; [done|]. specialize (Hf p). lia. Qed.

(** ** Tactics and hints of the development *)

(** Split every match and [if] of the goal, clearing the impossible cases. *)
Ltac split_matches :=
  repeat (case_match || case_decide); simplify_eq/=; auto.
(** Turn boolean tests in the context into propositions. *)
Ltac boolp :=
  repeat match goal with
  | H : (_ && _)%bool = true |- _ => apply andb_true_iff in H as [? ?]
  | H : (_ || _)%bool = false |- _ => apply orb_false_iff in H as [? ?]
  | H : negb _ = true |- _ => apply negb_true_iff in H
  | H : negb _ = false |- _ => apply negb_false_iff in H
  | H : String.eqb _ _ = true |- _ => apply String.eqb_eq in H
  | H : String.eqb _ _ = false |- _ => apply String.eqb_neq in H
  | H : Nat.eqb _ _ = true |- _ => apply Nat.eqb_eq in H
  | H : Nat.eqb _ _ = false |- _ => apply Nat.eqb_neq in H
  | H : Z.eqb _ _ = true |- _ => apply Z.eqb_eq in H
  | H : Z.eqb _ _ = false |- _ => apply Z.eqb_neq in H
  | H : Z.ltb _ _ = true |- _ => apply Z.ltb_lt in H
  | H : Z.ltb _ _ = false |- _ => apply Z.ltb_ge in H
  | H : Z.leb _ _ = true |- _ => apply Z.leb_le in H
  | H : Z.leb _ _ = false |- _ => apply Z.leb_gt in H
  | H : Nat.ltb _ _ = true |- _ => apply Nat.ltb_lt in H
  | H : Nat.ltb _ _ = false |- _ => apply Nat.ltb_ge in H
  | H : Nat.leb _ _ = true |- _ => apply Nat.leb_le in H
  | H : Nat.leb _ _ = false |- _ => apply Nat.leb_gt in H
  end.

(** Put the boolean facts of the context into the goal. *)
Ltac rewrite_bool :=
  repeat match goal with H : ?b = ?c |- context [?b] => is_constructor c; rewrite H end;
  cbn [negb andb orb].

Create HintDb guard.
Create Rewrite HintDb guard_str.
#[export] Hint Rewrite bytes_of_bytes of_bytes_bytes bytes_app : guard_str.
#[export] Hint Resolve u64_add_small : guard.

(** ** Elements of a list of which at most one satisfies a test *)
Definition at_most_one {A} (p : A -> bool) (l : list A) : bool :=
  Nat.leb (length (filter (fun x => p x = true) l)) 1.
Definition exclusive {A} (p : A -> bool) (l : list A) : Prop :=
  forall i j a b, i <> j -> l !! i = Some a -> l !! j = Some b -> p a && p b = false.
Lemma at_most_one_exclusive {A} (p : A -> bool) ts : at_most_one p ts = true -> exclusive p ts.
Proof.
  unfold at_most_one. rewrite Nat.leb_le. intros Hl.
  assert (Hlt : forall i j a b, i < j -> ts !! i = Some a -> ts !! j = Some b -> p a && p b = false).
  { intros i j a b Hij Hi Hj. destruct (p a) eqn:Ha, (p b) eqn:Hb; try done. exfalso.
    apply list_elem_of_split_length in Hi as (l1 & l2 & -> & Hn).
    rewrite lookup_app_r in Hj by lia. destruct (j - length l1) as [|k] eqn:Ek; [lia|].
    cbn in Hj. apply list_elem_of_lookup_2, list_elem_of_split in Hj as (l3 & l4 & ->).
    rewrite filter_app, filter_cons_True, filter_app, filter_cons_True in Hl by done.
    rewrite length_app in Hl. cbn in Hl. rewrite length_app in Hl. cbn in Hl. lia. }
  intros i j a b Hij Hi Hj. destruct (decide (i < j)); [by eapply Hlt|].
  rewrite andb_comm. eapply Hlt; [|done..]. lia.
Qed.
Lemma exclusive_insert {A} (p : A -> bool) l i x : exclusive p l ->
  (forall j u, i <> j -> l !! j = Some u -> p x && p u = false) -> exclusive p (<[i := x]> l).
Proof.
  intros Hex Hone a b u v Hab Ha Hb.
  apply list_lookup_insert_Some in Ha as [(-> & -> & _)|[Hia Ha]], Hb as [(-> & -> & _)|[Hib Hb]];
    [done|by apply (Hone b)|rewrite andb_comm; apply (Hone a); by auto|by eapply (Hex a b)].
Qed.
