(* ===== verification/Json.v ===== *)
(** * JSON documents and values (the crate serde_json)

    The type [Value] of serde_json, its accessors, the insertion into its maps and the
    decoding rules of derived structs and enums, as serde documents them.  The text of a
    document is the class [JsonText].  A [Value] whose objects list their entries in the
    order of the text, duplicates included, is a document; [normalize] makes the value that
    serde_json builds from it: a map keeps the last entry of a key and iterates in key order. *)
From stdpp Require Import countable.
From S2P Require Import Prelude.

(** [serde_json::Number]; a float is its IEEE bits. *)
Inductive Number : Type := PosInt (n : Z) | NegInt (n : Z) | Float (bits : Z).
#[global] Instance Number_eq_dec : EqDecision Number.
Proof. solve_decision. Defined.

Unset Elimination Schemes.
Inductive Value : Type :=
| Null
| Bool (b : bool)
| Num (n : Number)
| Str (s : string)
| Arr (l : list Value)
| Obj (es : list (string * Value)).
Set Elimination Schemes.

(** Induction with the hypothesis for every element and every entry. *)
Definition value_induction (P : Value -> Prop) (Hnull : P Null) (Hbool : forall b, P (Bool b))
    (Hnum : forall n, P (Num n)) (Hstr : forall s, P (Str s))
    (Harr : forall l, Forall P l -> P (Arr l))
    (Hobj : forall es, Forall (fun e => P e.2) es -> P (Obj es)) : forall v, P v :=
  fix F v :=
    match v with
    | Null => Hnull
    | Bool b => Hbool b
    | Num n => Hnum n
    | Str s => Hstr s
    | Arr l =>
        Harr l ((fix G (l : list Value) : Forall P l :=
                   match l with
                   | [] => @List.Forall_nil _ P
                   | x :: l' => @List.Forall_cons _ P x l' (F x) (G l')
                   end) l)
    | Obj es =>
        Hobj es ((fix G (es : list (string * Value)) : Forall (fun e => P e.2) es :=
                    match es with
                    | [] => @List.Forall_nil _ _
                    | e :: es' => @List.Forall_cons _ (fun e => P e.2) e es' (F e.2) (G es')
                    end) es)
    end.

Module Json.

(** *** Accessors *)

Definition as_str (v : Value) : option string := match v with Str s => Some s | _ => None end.
Definition as_bool (v : Value) : option bool := match v with Bool b => Some b | _ => None end.
Definition as_u64 (v : Value) : option Z := match v with Num (PosInt n) => Some n | _ => None end.
Definition as_i64 (v : Value) : option Z :=
  match v with
  | Num (PosInt n) => if Z.ltb n (2 ^ 63) then Some n else None
  | Num (NegInt n) => Some n
  | _ => None
  end.
Fixpoint lookup_key (k : string) (es : list (string * Value)) : option Value :=
  match es with
  | [] => None
  | (k', v) :: es' => if String.eqb k k' then Some v else lookup_key k es'
  end.
(** [Value::get] with a key and with an index *)
Definition get (k : string) (v : Value) : option Value :=
  match v with Obj es => lookup_key k es | _ => None end.
Definition get_index (i : nat) (v : Value) : option Value :=
  match v with Arr l => l !! i | _ => None end.

(** *** Maps *)

(** [Map::insert] on the entries in key order. *)
Fixpoint map_insert (k : string) (v : Value) (es : list (string * Value))
  : list (string * Value) :=
  match es with
  | [] => [(k, v)]
  | (k', v') :: es' =>
      match String.compare k k' with
      | Lt => (k, v) :: (k', v') :: es'
      | Eq => (k, v) :: es'
      | Gt => (k', v') :: map_insert k v es'
      end
  end.
Definition map_of (es : list (string * Value)) : list (string * Value) :=
  foldl (fun m e => map_insert e.1 e.2 m) [] es.
(** [Map::remove] *)
Definition map_remove (k : string) (es : list (string * Value)) : list (string * Value) :=
  List.filter (fun e => negb (String.eqb k e.1)) es.
(** What the macro [json!] and the derived [to_value] build from their fields. *)
Definition obj (es : list (string * Value)) : Value := Obj (map_of es).
(** The value of a document. *)
Fixpoint normalize (v : Value) : Value :=
  match v with
  | Arr l => Arr (List.map normalize l)
  | Obj es => obj (List.map (fun e => (e.1, normalize e.2)) es)
  | _ => v
  end.

(** Numbers of the Rust types *)
Definition u64_value (n : Z) : Value := Num (PosInt n).
Definition usize_value (n : nat) : Value := Num (PosInt (Z.of_nat n)).
Definition i64_value (n : Z) : Value := Num (if Z.ltb n 0 then NegInt n else PosInt n).
Definition opt_value {A} (f : A -> Value) (o : option A) : Value :=
  match o with Some a => f a | None => Null end.

(** *** Decoding *)

(** What a derived struct finds for one of its fields: nothing in a map, nothing in a
    sequence that is too short, or a value. *)
Inductive Field : Type := Missing | Short | Found (v : Value).

Definition count_key (k : string) (es : list (string * Value)) : nat :=
  length (List.filter (fun e => String.eqb k e.1) es).
Fixpoint seq_fields (names : list string) (l : list Value) : list Field :=
  match names, l with
  | [], _ => []
  | _ :: ns, [] => Short :: seq_fields ns []
  | _ :: ns, v :: l' => Found v :: seq_fields ns l'
  end.
(** The fields of a derived struct: by name from an object (a repeated field is an error,
    others are ignored), by position from an array (which must not be longer). *)
Definition struct_fields (names : list string) (v : Value) : option (list Field) :=
  match v with
  | Obj es =>
      if existsb (fun n => Nat.ltb 1 (count_key n es)) names then None
      else Some (List.map (fun n => match lookup_key n es with Some v => Found v | None => Missing end)
                   names)
  | Arr l => if Nat.ltb (length names) (length l) then None else Some (seq_fields names l)
  | _ => None
  end.
(** A field without default, an [Option] field, and a field with [serde(default)]. *)
Definition req {A} (f : Value -> option A) (x : Field) : option A :=
  match x with Found v => f v | _ => None end.
Definition of_option {A} (f : Value -> option A) (v : Value) : option (option A) :=
  match v with Null => Some None | _ => Some <$> f v end.
Definition opt {A} (f : Value -> option A) (x : Field) : option (option A) :=
  match x with Found v => of_option f v | Missing => Some None | Short => None end.
Definition dflt {A} (d : A) (f : Value -> option A) (x : Field) : option A :=
  match x with Found v => f v | _ => Some d end.
(** A unit variant: its name, or an object with that one key and null. *)
Definition variant (v : Value) : option string :=
  match v with
  | Str s => Some s
  | Obj [(k, Null)] => Some k
  | _ => None
  end.
Fixpoint of_array {A} (f : Value -> option A) (l : list Value) : option (list A) :=
  match l with
  | [] => Some []
  | v :: l' => a ← f v; r ← of_array f l'; Some (a :: r)
  end.
Definition of_vec {A} (f : Value -> option A) (v : Value) : option (list A) :=
  match v with Arr l => of_array f l | _ => None end.
Definition u32_of (v : Value) : option Z :=
  n ← as_u64 v; if Z.ltb n (2 ^ 32) then Some n else None.

(** *** Normal forms *)

(** Keys strictly increasing: the maps serde_json builds. *)
Fixpoint keys_sorted (es : list (string * Value)) : bool :=
  match es with
  | [] => true
  | e1 :: es' =>
      match es' with
      | [] => true
      | e2 :: _ => match String.compare e1.1 e2.1 with Lt => keys_sorted es' | _ => false end
      end
  end.
Fixpoint normal (v : Value) : bool :=
  match v with
  | Arr l => forallb normal l
  | Obj es => keys_sorted es && forallb (fun e => normal e.2) es
  | _ => true
  end.
(** Documents serde_json prints and reads back unchanged: integers of 64 bits, no floats,
    nesting within the recursion limit of its parser. *)
Definition number_ok (n : Number) : bool :=
  match n with
  | PosInt n => Z.leb 0 n && Z.ltb n (2 ^ 64)
  | NegInt n => Z.leb (- 2 ^ 63) n && Z.ltb n 0
  | Float _ => false
  end.
Fixpoint printable (depth : nat) (v : Value) {struct v} : bool :=
  match v with
  | Num n => number_ok n
  | Arr l => match depth with 0 => false | S d => forallb (printable d) l end
  | Obj es => match depth with 0 => false | S d => forallb (fun e => printable d e.2) es end
  | _ => true
  end.
Definition DEPTH_LIMIT : nat := 127.

End Json.

(** [serde_json::to_string] of a document, whose entries are printed in their order, and
    [from_str] up to the document. *)
Class JsonText : Type := {
  json_text : Value -> string;
  json_parse : string -> option Value
}.
(** What is printed is read back, and a printed document is one line that is not empty. *)
Class JsonTextLaws `{JsonText} : Prop := {
  json_roundtrip v : Json.printable Json.DEPTH_LIMIT v = true -> json_parse (json_text v) = Some v;
  json_one_line v : str_has (ascii_of_nat 10) (json_text v) = false;
  json_nonempty v : json_text v <> ""
}.

(** ** Facts *)
Module JsonFacts.
Import Json.

(** *** The order of keys *)

Lemma compare_refl s : String.compare s s = Eq.
Proof.
  pose proof (String.compare_antisym s s) as E. destruct (String.compare s s); cbn in E; congruence.
Qed.
Lemma ascii_compare_refl a : Ascii.compare a a = Eq.
Proof. unfold Ascii.compare. apply N.compare_refl. Qed.
Lemma compare_lt_trans s1 s2 s3 :
  String.compare s1 s2 = Lt -> String.compare s2 s3 = Lt -> String.compare s1 s3 = Lt.
Proof.
  revert s2 s3. induction s1 as [|a s1 IH]; intros [|b s2] [|c s3]; cbn; try done.
  destruct (Ascii.compare a b) eqn:E1, (Ascii.compare b c) eqn:E2; try done; intros H1 H2;
    try apply Ascii.compare_eq_iff in E1 as ->; try apply Ascii.compare_eq_iff in E2 as ->.
  - rewrite ascii_compare_refl. eauto.
  - by rewrite E2.
  - by rewrite E1.
  - unfold Ascii.compare in *. rewrite N.compare_lt_iff in E1, E2.
    by rewrite (proj2 (N.compare_lt_iff _ _)) by lia.
Qed.
Lemma compare_lt_gt s1 s2 : String.compare s1 s2 = Lt <-> String.compare s2 s1 = Gt.
Proof. rewrite (String.compare_antisym s1 s2). destruct (String.compare s2 s1); cbn; done. Qed.
Lemma compare_lt_neq s1 s2 : String.compare s1 s2 = Lt -> s1 <> s2.
Proof. intros E ->. by rewrite compare_refl in E. Qed.

(** *** Maps *)

Lemma lookup_map_insert k k' v es :
  lookup_key k (map_insert k' v es) = if String.eqb k k' then Some v else lookup_key k es.
Proof.
  induction es as [|[k2 v2] es IH]; cbn [map_insert lookup_key]; [by destruct (String.eqb k k')|].
  destruct (String.compare k' k2) eqn:E; cbn [lookup_key].
  - apply String.compare_eq_iff in E as ->. by destruct (String.eqb k k2).
  - done.
  - rewrite IH. destruct (String.eqb_spec k k2) as [->|]; [|done].
    destruct (String.eqb_spec k2 k') as [->|]; [|done]. by rewrite compare_refl in E.
Qed.
Lemma lookup_map_remove k k' es :
  lookup_key k (map_remove k' es) = if String.eqb k k' then None else lookup_key k es.
Proof.
  unfold map_remove. induction es as [|[k2 v2] es IH]; cbn; [by destruct (String.eqb k k')|].
  destruct (String.eqb_spec k' k2) as [->|Hne]; cbn; rewrite IH; [by destruct (String.eqb k k2)|].
  destruct (String.eqb_spec k k2) as [->|]; [|done]. by rewrite (proj2 (String.eqb_neq k2 k')) by congruence.
Qed.

Lemma keys_sorted_cons e es : keys_sorted (e :: es) = true <->
  keys_sorted es = true /\ forall e', In e' es -> String.compare e.1 e'.1 = Lt.
Proof.
  revert e. induction es as [|e2 es IH]; intros e; [by cbn; split|].
  change (keys_sorted (e :: e2 :: es)) with
    (match String.compare e.1 e2.1 with Lt => keys_sorted (e2 :: es) | _ => false end).
  split.
  - destruct (String.compare e.1 e2.1) eqn:E; [done| |done]. intros H. split; [done|].
    intros e' [<-|Hin]; [done|]. apply (compare_lt_trans _ _ _ E). by apply IH.
  - intros [Hs Hlt]. by rewrite (Hlt e2) by (by left).
Qed.
Lemma in_map_insert e k v es : In e (map_insert k v es) -> e = (k, v) \/ In e es.
Proof.
  induction es as [|[k2 v2] es IH]; cbn; [by intros [<-|[]]; left|].
  destruct (String.compare k k2); cbn; intuition.
Qed.
Lemma map_insert_sorted k v es : keys_sorted es = true -> keys_sorted (map_insert k v es) = true.
Proof.
  induction es as [|[k2 v2] es IH]; [done|]. intros Hs. apply keys_sorted_cons in Hs as [Hs Hlt].
  cbn [map_insert]. destruct (String.compare k k2) eqn:E; apply keys_sorted_cons; cbn [fst].
  - apply String.compare_eq_iff in E as ->. done.
  - split; [by apply keys_sorted_cons|]. intros e' [<-|Hin]; [done|].
    apply (compare_lt_trans _ _ _ E). by apply (Hlt e').
  - split; [auto|]. intros e' [->|Hin]%in_map_insert; [by apply compare_lt_gt in E|by apply Hlt].
Qed.
Lemma lookup_none_lt k es : (forall e, In e es -> String.compare k e.1 = Lt) -> lookup_key k es = None.
Proof.
  induction es as [|[k2 v2] es IH]; intros Hlt; [done|]. cbn.
  rewrite (proj2 (String.eqb_neq k k2)) by (apply compare_lt_neq, (Hlt (k2, v2)); by left).
  apply IH. intros e He. apply Hlt. by right.
Qed.

(** Maps with the same entries are equal. *)
Lemma sorted_lookup_eq es1 es2 : keys_sorted es1 = true -> keys_sorted es2 = true ->
  (forall k, lookup_key k es1 = lookup_key k es2) -> es1 = es2.
Proof.
  revert es2. induction es1 as [|[k1 v1] es1 IH]; intros [|[k2 v2] es2] H1 H2 Heq; [done| | |].
  - specialize (Heq k2). cbn in Heq. by rewrite String.eqb_refl in Heq.
  - specialize (Heq k1). cbn in Heq. by rewrite String.eqb_refl in Heq.
  - apply keys_sorted_cons in H1 as [H1 L1]. apply keys_sorted_cons in H2 as [H2 L2]. cbn [fst] in *.
    pose proof (lookup_none_lt k1 es1 L1) as N1. pose proof (lookup_none_lt k2 es2 L2) as N2.
    destruct (String.compare k1 k2) eqn:E.
    + apply String.compare_eq_iff in E as ->. pose proof (Heq k2) as Hk. cbn in Hk.
      rewrite String.eqb_refl in Hk. injection Hk as ->. f_equal. apply IH; [done..|].
      intros k. specialize (Heq k). cbn in Heq.
      destruct (String.eqb_spec k k2) as [Ek|Ek]; [|done]. rewrite Ek. congruence.
    + specialize (Heq k1). cbn in Heq. rewrite String.eqb_refl in Heq.
      rewrite (proj2 (String.eqb_neq k1 k2)), lookup_none_lt in Heq; [done| |by apply compare_lt_neq].
      intros e He. by apply (compare_lt_trans _ _ _ E), L2.
    + apply compare_lt_gt in E. specialize (Heq k2). cbn in Heq. rewrite String.eqb_refl in Heq.
      rewrite (proj2 (String.eqb_neq k2 k1)), lookup_none_lt in Heq; [done| |by apply compare_lt_neq].
      intros e He. by apply (compare_lt_trans _ _ _ E), L1.
Qed.

(** *** Maps from entry lists *)

Lemma map_of_snoc es e : map_of (es ++ [e]) = map_insert e.1 e.2 (map_of es).
Proof. unfold map_of. by rewrite foldl_app. Qed.
Lemma map_of_sorted es : keys_sorted (map_of es) = true.
Proof.
  induction es as [|e es IH] using rev_ind; [done|]. rewrite map_of_snoc. by apply map_insert_sorted.
Qed.
Lemma lookup_key_app k es1 es2 : lookup_key k (es1 ++ es2) =
  match lookup_key k es1 with Some v => Some v | None => lookup_key k es2 end.
Proof. induction es1 as [|[k1 v1] es1 IH]; cbn; [done|]. by destruct (String.eqb k k1). Qed.
(** The last entry of a key wins. *)
Lemma lookup_map_of k es : lookup_key k (map_of es) = lookup_key k (reverse es).
Proof.
  induction es as [|[k' v] es IH] using rev_ind; [done|].
  rewrite map_of_snoc, lookup_map_insert, reverse_snoc. cbn. by rewrite IH.
Qed.
Lemma lookup_key_In k v es : lookup_key k es = Some v -> In (k, v) es.
Proof.
  induction es as [|[k1 v1] es IH]; cbn; [done|].
  destruct (String.eqb_spec k k1) as [->|]; [intros [= ->]; by left|auto].
Qed.
Lemma lookup_key_None k es : lookup_key k es = None <-> ~ In k (es.*1).
Proof.
  induction es as [|[k1 v1] es IH]; cbn; [by split; [intros _ []|]|].
  destruct (String.eqb_spec k k1) as [->|Hne].
  - split; [done|]. intros H. exfalso. apply H. by left.
  - rewrite IH. intuition.
Qed.
Lemma lookup_key_NoDup k v es : NoDup (es.*1) -> In (k, v) es -> lookup_key k es = Some v.
Proof.
  induction es as [|[k1 v1] es IH]; cbn; [done|]. intros [Hni Hnd]%NoDup_cons [[= -> ->]|Hin].
  - by rewrite String.eqb_refl.
  - destruct (String.eqb_spec k k1) as [->|]; [|auto]. exfalso. apply Hni.
    apply list_elem_of_fmap. exists (k1, v). split; [done|]. by apply list_elem_of_In.
Qed.
Lemma lookup_key_perm k es1 es2 : NoDup (es1.*1) -> es1 ≡ₚ es2 -> lookup_key k es1 = lookup_key k es2.
Proof.
  intros Hnd Hp. assert (Hnd2 : NoDup (es2.*1)) by (by rewrite <- Hp).
  destruct (lookup_key k es1) as [v|] eqn:E1.
  - apply lookup_key_In in E1. symmetry. apply lookup_key_NoDup; [done|].
    by eapply Permutation_in.
  - symmetry. apply lookup_key_None. rewrite lookup_key_None in E1. contradict E1.
    eapply Permutation_in; [|done]. by apply Permutation_map.
Qed.
(** The map does not depend on the order of distinct entries. *)
Lemma map_of_perm es1 es2 : NoDup (es1.*1) -> es1 ≡ₚ es2 -> map_of es1 = map_of es2.
Proof.
  intros Hnd Hp. apply sorted_lookup_eq; [apply map_of_sorted..|]. intros k. rewrite !lookup_map_of.
  apply lookup_key_perm; [by rewrite reverse_Permutation|]. by rewrite !reverse_Permutation.
Qed.
Lemma keys_sorted_NoDup es : keys_sorted es = true -> NoDup (es.*1).
Proof.
  induction es as [|e es IH]; [constructor|]. intros [Hs Hlt]%keys_sorted_cons. cbn. constructor; [|auto].
  intros (e' & E & Hin)%list_elem_of_fmap. apply list_elem_of_In, Hlt in Hin. rewrite E in Hin.
  by apply compare_lt_neq in Hin.
Qed.
Lemma map_of_id es : keys_sorted es = true -> map_of es = es.
Proof.
  intros Hs. apply sorted_lookup_eq; [apply map_of_sorted|done|]. intros k. rewrite lookup_map_of.
  symmetry. apply lookup_key_perm; [by apply keys_sorted_NoDup|]. by rewrite reverse_Permutation.
Qed.
Lemma lookup_map_of_NoDup k v es : NoDup (es.*1) -> In (k, v) es -> lookup_key k (map_of es) = Some v.
Proof.
  intros Hnd Hin. rewrite lookup_map_of. apply lookup_key_NoDup; [by rewrite reverse_Permutation|].
  by apply list_elem_of_In, elem_of_reverse, list_elem_of_In.
Qed.

Lemma get_obj k es : NoDup (es.*1) -> get k (obj es) = get k (Obj es).
Proof.
  intros Hnd. cbn. rewrite lookup_map_of. symmetry. apply lookup_key_perm; [done|].
  by rewrite reverse_Permutation.
Qed.

(** *** Normal forms *)

Lemma in_map_of e es : In e (map_of es) -> In e es.
Proof.
  induction es as [|x es IH] using rev_ind; [done|]. rewrite map_of_snoc.
  intros [->|Hin]%in_map_insert; apply in_or_app; [right; left; by destruct x|left; auto].
Qed.
Lemma forallb_map_of (p : string * Value -> bool) es :
  forallb p es = true -> forallb p (map_of es) = true.
Proof. rewrite !forallb_forall. intros H e He%in_map_of. auto. Qed.
Lemma normal_obj es : forallb (fun e => normal e.2) es = true -> normal (obj es) = true.
Proof.
  intros H. unfold obj. cbn [normal]. rewrite map_of_sorted. cbn [andb].
  by apply (forallb_map_of (fun e => normal e.2)).
Qed.
Lemma printable_obj d es :
  forallb (fun e => printable d e.2) es = true -> printable (S d) (obj es) = true.
Proof. apply (forallb_map_of (fun e => printable d e.2)). Qed.
Lemma normalize_normal v : normal v = true -> normalize v = v.
Proof.
  induction v as [| | | |l IH|es IH] using value_induction; try done; cbn.
  - intros H. f_equal. induction IH as [|x l Hx _ IHl]; [done|]. cbn in *. boolp.
    by rewrite Hx, IHl.
  - intros [Hs Hn]%andb_true_iff.
    assert (List.map (fun e => (e.1, normalize e.2)) es = es) as ->.
    { clear Hs. induction IH as [|[k x] es Hx _ IHl]; [done|]. cbn in *. boolp. by rewrite Hx, IHl. }
    unfold obj. by rewrite map_of_id.
Qed.
Lemma normal_normalize v : normal (normalize v) = true.
Proof.
  induction v as [| | | |l IH|es IH] using value_induction; try done; cbn [normalize].
  - cbn. induction IH as [|x l Hx _ IHl]; cbn; [done|]. by rewrite Hx.
  - apply normal_obj. induction IH as [|[k x] es Hx _ IHl]; cbn in *; [done|]. by rewrite Hx.
Qed.
Lemma normalize_idemp v : normalize (normalize v) = normalize v.
Proof. apply normalize_normal, normal_normalize. Qed.

(** A value that was printed is read back as the same value. *)
Lemma parse_print `{JsonTextLaws} v : printable DEPTH_LIMIT v = true -> normal v = true ->
  normalize <$> json_parse (json_text v) = Some v.
Proof. intros Hp Hn. rewrite json_roundtrip by done. cbn. by rewrite normalize_normal. Qed.

Lemma number_ok_u64 n : u64_fits n -> number_ok (PosInt n) = true.
Proof. intros [H1 H2]. cbn. rewrite (proj2 (Z.leb_le _ _) H1). by apply Z.ltb_lt in H2. Qed.

End JsonFacts.

(** ** A text of documents for the examples

    A document is its code in the sense of [Countable], written in binary. *)
Module JsonToy.
Import Json.

Definition leaf : Type := string + nat * Z.
Definition num_leaf (n : Number) : leaf :=
  match n with PosInt n => inr (0, n) | NegInt n => inr (1, n) | Float b => inr (2, b) end.
Definition leaf_num (l : leaf) : option Number :=
  match l with
  | inr (0, n) => Some (PosInt n)
  | inr (1, n) => Some (NegInt n)
  | inr (2, n) => Some (Float n)
  | _ => None
  end.
Fixpoint to_tree (v : Value) : gen_tree leaf :=
  match v with
  | Null => GenNode 0 []
  | Bool b => GenNode (if b then 1 else 2) []
  | Num n => GenNode 3 [GenLeaf (num_leaf n)]
  | Str s => GenNode 4 [GenLeaf (inl s)]
  | Arr l => GenNode 5 (List.map to_tree l)
  | Obj es => GenNode 6 (List.map (fun e => GenNode 7 [GenLeaf (inl e.1); to_tree e.2]) es)
  end.
Fixpoint opt_list {A} (l : list (option A)) : option (list A) :=
  match l with [] => Some [] | o :: l' => a ← o; r ← opt_list l'; Some (a :: r) end.
Fixpoint of_tree (t : gen_tree leaf) : option Value :=
  match t with
  | GenNode 0 [] => Some Null
  | GenNode 1 [] => Some (Bool true)
  | GenNode 2 [] => Some (Bool false)
  | GenNode 3 [GenLeaf l] => Num <$> leaf_num l
  | GenNode 4 [GenLeaf (inl s)] => Some (Str s)
  | GenNode 5 ts => Arr <$> opt_list (List.map of_tree ts)
  | GenNode 6 ts =>
      Obj <$> opt_list (List.map (fun t => match t with
                                  | GenNode 7 [GenLeaf (inl k); x] => pair k <$> of_tree x
                                  | _ => None end) ts)
  | _ => None
  end.
Lemma of_to_tree v : of_tree (to_tree v) = Some v.
Proof.
  induction v as [|[]|[]| |l IH|es IH] using value_induction; try done; cbn.
  - assert (opt_list (List.map of_tree (List.map to_tree l)) = Some l) as ->; [|done].
    induction IH as [|x l Hx _ IHl]; [done|]. cbn. rewrite Hx. cbn.
    by rewrite IHl.
  - match goal with |- Obj <$> ?x = _ => assert (x = Some es) as ->; [|done] end.
    induction IH as [|[k x] es Hx _ IHl]; [done|]. cbn in *. rewrite Hx. cbn.
    by rewrite IHl.
Qed.

Fixpoint bits_text (p : positive) : string :=
  match p with
  | xH => ""
  | xO p => String "0" (bits_text p)
  | xI p => String "1" (bits_text p)
  end.
Fixpoint text_bits (s : string) : option positive :=
  match s with
  | EmptyString => Some xH
  | String c s =>
      p ← text_bits s;
      if Ascii.eqb c "0" then Some (xO p) else if Ascii.eqb c "1" then Some (xI p) else None
  end.
Lemma text_bits_text p : text_bits (bits_text p) = Some p.
Proof. induction p as [p IH|p IH|]; cbn; [by rewrite IH|by rewrite IH|done]. Qed.

Definition toy_text : JsonText := {|
  json_text v := String "j" (bits_text (encode (to_tree v)));
  json_parse s := match s with
                  | String _ s' => p ← text_bits s'; t ← decode p; of_tree t
                  | EmptyString => None
                  end
|}.
Lemma toy_text_laws : @JsonTextLaws toy_text.
Proof.
  split; intros v; cbn [json_text json_parse toy_text].
  - intros _. rewrite text_bits_text. cbn [mbind option_bind]. rewrite decode_encode. apply of_to_tree.
  - cbn. induction (encode (to_tree v)); done.
  - done.
Qed.

End JsonToy.
