(* ===== verification/Core.v ===== *)
(** * Core types (crate fg-core)

    The risk levels, actions, stages, content types, the verdict record and the
    error type shared by every crate, with the orders the crate implements. *)
From S2P Require Import Prelude.

(** [RiskLevel] with its explicit discriminants ([#[repr(u8)]]). *)
Inductive RiskLevel : Type := L1 | L2 | L3 | L4.
Definition rank (r : RiskLevel) : nat :=
  match r with L1 => 0 | L2 => 1 | L3 => 2 | L4 => 3 end.
Definition risk_cmp (a b : RiskLevel) : comparison := Nat.compare (rank a) (rank b).
Definition risk_gtb (a b : RiskLevel) : bool :=
  match risk_cmp a b with Gt => true | _ => false end.

Inductive SafetyAction : Type := Allow | Preview | Redact | Block.
Definition severity (a : SafetyAction) : nat :=
  match a with Allow => 0 | Preview => 1 | Redact => 2 | Block => 3 end.
Definition action_cmp (a b : SafetyAction) : comparison :=
  Nat.compare (severity a) (severity b).

Inductive CheckStage : Type := Regex | Ast | Semantic.
Inductive RuleScope : Type := Command | Content | Network | Filesystem.
Inductive ContentType : Type := Shell | Code | Json | Yaml | Text.

#[global] Instance RiskLevel_eq_dec : EqDecision RiskLevel.
Proof. solve_decision. Defined.
#[global] Instance SafetyAction_eq_dec : EqDecision SafetyAction.
Proof. solve_decision. Defined.
#[global] Instance CheckStage_eq_dec : EqDecision CheckStage.
Proof. solve_decision. Defined.
#[global] Instance RuleScope_eq_dec : EqDecision RuleScope.
Proof. solve_decision. Defined.
#[global] Instance ContentType_eq_dec : EqDecision ContentType.
Proof. solve_decision. Defined.

Definition run_tokenizer (t : ContentType) : bool := bool_decide (t = Shell).
Definition run_semantic (t : ContentType) : bool := bool_decide (t = Code).

(** *** White space

    [char::is_whitespace] on UTF-8 text: one of the 25 characters with the
    Unicode property White_Space, recognised by its encoding at the front of a
    byte list; the result is the rest of the list. *)
Definition byte_eqb (a : ascii) (n : nat) : bool := Nat.eqb (nat_of_ascii a) n.
Definition in_range (a : ascii) (lo hi : nat) : bool :=
  Nat.leb lo (nat_of_ascii a) && Nat.leb (nat_of_ascii a) hi.
Definition ws_front (l : list ascii) : option (list ascii) :=
  match l with
  | a :: l1 =>
      if in_range a 9 13 || byte_eqb a 32 then Some l1
      else match l1 with
      | b :: l2 =>
          if byte_eqb a 194 && (byte_eqb b 133 || byte_eqb b 160) then Some l2
          else match l2 with
          | c :: l3 =>
              if (byte_eqb a 225 && byte_eqb b 154 && byte_eqb c 128)
                 || (byte_eqb a 226 && byte_eqb b 128
                     && (in_range c 128 138 || byte_eqb c 168 || byte_eqb c 169 || byte_eqb c 175))
                 || (byte_eqb a 226 && byte_eqb b 129 && byte_eqb c 159)
                 || (byte_eqb a 227 && byte_eqb b 128 && byte_eqb c 128)
              then Some l3 else None
          | [] => None
          end
      | [] => None
      end
  | [] => None
  end.
(** The same at the back: the list is reversed, so the last byte comes first. *)
Definition ws_back (l : list ascii) : option (list ascii) :=
  match l with
  | a :: l1 =>
      if in_range a 9 13 || byte_eqb a 32 then Some l1
      else match l1 with
      | b :: l2 =>
          match ws_front [b; a], l2 with
          | Some [], _ => Some l2
          | _, c :: l3 => match ws_front [c; b; a] with Some [] => Some l3 | _ => None end
          | _, [] => None
          end
      | [] => None
      end
  | [] => None
  end.
(** Strip while the recogniser succeeds; the fuel is the number of bytes. *)
Fixpoint strip_while (f : list ascii -> option (list ascii)) (fuel : nat) (l : list ascii)
  : list ascii :=
  match fuel with
  | 0 => l
  | S fuel' => match f l with Some l' => strip_while f fuel' l' | None => l end
  end.
(** [str::trim] *)
Definition trim (s : string) : string :=
  let l := bytes s in
  let front := strip_while ws_front (length l) l in
  of_bytes (reverse (strip_while ws_back (length front) (reverse front))).

Definition ascii_lower (a : ascii) : ascii :=
  if in_range a 65 90 then ascii_of_nat (nat_of_ascii a + 32) else a.
(** [str::to_ascii_lowercase] *)
Definition to_ascii_lowercase (s : string) : string := of_bytes (ascii_lower <$> bytes s).

(** [ContentType::parse] *)
Definition content_type_parse (s : string) : ContentType :=
  let t := to_ascii_lowercase (trim s) in
  if String.eqb t "code" then Code
  else if String.eqb t "json" then Json
  else if String.eqb t "yaml" then Yaml
  else if String.eqb t "text" then Text
  else Shell.

(** [GuardVerdict]; [action_id] is the UUID in its textual form. *)
Record GuardVerdict : Type := mkVerdict {
  action : SafetyAction;
  risk_level : RiskLevel;
  reason : string;
  stage : CheckStage;
  requires_approval : bool;
  redacted_content : option string;
  seatbelt_required : bool;
  action_id : option string;
  verdict_epoch : Z;
  verdict_ttl_secs : Z;
  inferred_category : string;
  category_hint : option string
}.

#[global] Instance GuardVerdict_eq_dec : EqDecision GuardVerdict.
Proof. solve_decision. Defined.

(** [GuardError]; the payloads of [Io] and [Serde] are their messages. *)
Inductive GuardError : Type :=
| Engine (msg : string)
| Unauthorized (msg : string)
| RateLimited
| StaleEpoch (caller guard : Z)
| Io (msg : string)
| Serde (msg : string)
| InvalidParams
| MethodNotFound
| InvalidRequest
| Forbidden.

(** ** Facts about the orders *)
Lemma rank_inj a b : rank a = rank b -> a = b.
Proof. destruct a, b; by cbn. Qed.
Lemma severity_inj a b : severity a = severity b -> a = b.
Proof. destruct a, b; by cbn. Qed.
Lemma rank_bound r : rank r <= 3.
Proof. destruct r; cbn; lia. Qed.
Lemma severity_bound a : severity a <= 3.
Proof. destruct a; cbn; lia. Qed.
Lemma risk_gtb_rank a b : risk_gtb a b = true <-> rank b < rank a.
Proof.
  unfold risk_gtb, risk_cmp.
  destruct (Nat.compare_spec (rank a) (rank b)); split; (done || lia).
Qed.
#[export] Hint Resolve rank_inj severity_inj rank_bound severity_bound : guard.

(** ** Facts about trimming *)
Lemma ws_front_length l l' : ws_front l = Some l' -> length l' < length l.
Proof. unfold ws_front. intros H. repeat case_match; simplify_eq/=; lia. Qed.
Lemma ws_back_length l l' : ws_back l = Some l' -> length l' < length l.
Proof. unfold ws_back. intros H. repeat case_match; simplify_eq/=; lia. Qed.

(** The fuel of [trim] is enough: what is left has no white space in front. *)
Lemma strip_while_done f n l :
  (forall l1 l2, f l1 = Some l2 -> length l2 < length l1) ->
  length l <= n -> f (strip_while f n l) = None.
Proof.
  intros Hf. revert l. induction n as [|n IH]; intros l Hl; cbn.
  - destruct l; [|cbn in Hl; lia]. destruct (f []) as [l2|] eqn:E; [|done].
    apply Hf in E. cbn in E. lia.
  - destruct (f l) as [l'|] eqn:E; [|done]. apply IH. apply Hf in E. lia.
Qed.

Lemma content_type_parse_known t :
  content_type_parse (match t with
    | Shell => "shell" | Code => "code" | Json => "json" | Yaml => "yaml" | Text => "text" end) = t.
Proof. destruct t; vm_compute; reflexivity. Qed.
