(* ===== verification/Pattern.v ===== *)
(** * Regular expressions and UTF-8 slices

    The crate [regex] as the class [RegexEngine], what the guard relies on of its
    documentation as the class [RegexLaws], and the slicing operations of [str]
    that panic off a character boundary, with their lemmas. *)
From S2P Require Import Prelude.

(** A byte range; the groups of a match ([Captures]), group 0 first. *)
Definition span : Type := nat * nat.
Definition Captures : Type := list (option span).
Definition cap_get (i : nat) (c : Captures) : option span := mjoin (c !! i).

Class RegexEngine : Type := {
  regex : Type;
  (** [Regex::new]; the error is the text of its [Display] *)
  regex_new : string -> result string regex;
  (** [Regex::find]: the matched text *)
  regex_find : regex -> string -> option string;
  (** [Regex::captures_iter]: the matches from left to right *)
  captures_iter : regex -> string -> list Captures
}.

(** [&s[i..j]] and [String::replace_range] *)
Definition slice (i j : nat) (s : string) : result panic string :=
  if Nat.leb i j && is_char_boundary i s && is_char_boundary j s
  then Ok (str_slice i j s) else Err Panic.
Definition replace_range (i j : nat) (r s : string) : result panic string :=
  if Nat.leb i j && is_char_boundary i s && is_char_boundary j s
  then Ok (str_take i s +:+ r +:+ str_drop j s) else Err Panic.

(** The range [(i, j)] of [s] is one a [&str] slice can have. *)
Definition span_ok (s : string) (p : span) : Prop :=
  p.1 <= p.2 /\ p.2 <= String.length s /\
  is_char_boundary p.1 s = true /\ is_char_boundary p.2 s = true.

(** Documented behaviour of [captures_iter]: every match has a group 0, and every
    group is a range of the haystack, on character boundaries, inside group 0. *)
Class RegexLaws `{RegexEngine} : Prop := {
  captures_group0 re s c : In c (captures_iter re s) ->
    exists m, cap_get 0 c = Some m /\ span_ok s m;
  captures_group re s c i m g : In c (captures_iter re s) ->
    cap_get 0 c = Some m -> cap_get i c = Some g ->
    span_ok s g /\ m.1 <= g.1 /\ g.2 <= m.2
}.

(** The characters of a UTF-8 byte list: a byte that is not a continuation byte
    starts a character. *)
Fixpoint utf8_chars (l : list ascii) : list (list ascii) :=
  match l with
  | [] => []
  | a :: l' =>
      match l' with
      | b :: _ =>
          if is_continuation b then
            match utf8_chars l' with
            | g :: gs => (a :: g) :: gs
            | [] => [[a]]
            end
          else [a] :: utf8_chars l'
      | [] => [[a]]
      end
  end.

Lemma utf8_chars_concat l : mjoin (utf8_chars l) = l.
Proof.
  induction l as [|a l IH]; [done|]. destruct l as [|b l]; [done|].
  change (utf8_chars (a :: b :: l)) with
    (if is_continuation b then
       match utf8_chars (b :: l) with g :: gs => (a :: g) :: gs | [] => [[a]] end
     else [a] :: utf8_chars (b :: l)).
  destruct (is_continuation b); [|by rewrite <- IH at 2].
  destruct (utf8_chars (b :: l)) as [|g gs]; [done|]. cbn in *. by rewrite IH.
Qed.

(** *** Lemmas on boundaries *)

Lemma is_char_boundary_spec n s : is_char_boundary n s = true <->
  n <= String.length s /\ forall a, bytes s !! n = Some a -> is_continuation a = false.
Proof.
  unfold is_char_boundary. rewrite <- length_bytes.
  destruct (bytes s !! n) as [a|] eqn:E.
  - apply lookup_lt_Some in E as Hlt. rewrite negb_true_iff. split.
    + intros Ha. split; [lia|]. intros b [= <-]. done.
    + intros [_ Hb]. by apply Hb.
  - apply lookup_ge_None in E. rewrite Nat.eqb_eq. split; [intros ->; split; [lia|done]|lia].
Qed.

Lemma slice_ok s p : span_ok s p -> slice p.1 p.2 s = Ok (str_slice p.1 p.2 s).
Proof.
  intros (H1 & _ & H3 & H4). unfold slice.
  rewrite (proj2 (Nat.leb_le _ _) H1), H3, H4. done.
Qed.
Lemma length_str_slice i j s : j <= String.length s -> String.length (str_slice i j s) = j - i.
Proof.
  intros Hj. unfold str_slice. rewrite <- length_bytes, bytes_of_bytes.
  rewrite length_take, length_drop, length_bytes. lia.
Qed.
