(* ===== verification/Tokenizer.v ===== *)
(** * Stage 2: the shell tokenizer (fg-rules/src/tokenizer.rs)

    The command scanner: sensitive paths, the binary whitelist, the features of
    the shell that are refused outright, the splitting of a command line into
    segments and the checks on the argument vector of each segment.  The crates
    [shell_words] and [regex], the process environment and the Unicode case
    table are the operations of the class [ShellEnv]. *)
From S2P Require Import Prelude Core.

Class ShellEnv : Type := {
  (** [std::env::var("HOME")] *)
  env_home : option string;
  (** [shell_words::split]; the error is the text of its [Display] *)
  shell_split : string -> result string (list string);
  (** group 1 of every match of the redirection regex, in order *)
  redirect_captures : string -> list string;
  (** [str::to_lowercase] *)
  to_lowercase : string -> string
}.

Module Tokenizer.

Definition SENSITIVE_PATHS : list string :=
  ["~/.ssh"; "~/.aws"; "~/.gnupg"; "~/.docker"; "~/.kube"; "~/.netrc"; "~/.npmrc";
   "~/.config/gcloud"; "~/.password-store"; "~/.config"; "~/.fusion"; "/etc"; "/System";
   "/Library"; "/usr"; "/dev"; "/var/root"; "/private/etc"; "/root"].

Definition WHITELIST : list string :=
  ["python"; "python3"; "python3.11"; "python3.12"; "python3.13"; "python3.14"; "node";
   "npm"; "npx"; "bun"; "yarn"; "pnpm"; "deno"; "pytest"; "pip"; "pip3"; "uv"; "poetry";
   "ruff"; "mypy"; "black"; "cargo"; "rustc"; "rustup"; "cargo-nextest"; "swift"; "swiftc";
   "go"; "tsc"; "git"; "ls"; "cat"; "echo"; "grep"; "find"; "mkdir"; "touch"; "pwd";
   "which"; "file"; "head"; "tail"; "wc"; "sort"; "uniq"; "stat"; "du"; "df"; "sed"; "awk";
   "tr"; "cut"; "tee"; "diff"; "cmp"; "rg"; "fd"; "bat"; "exa"; "jq"; "gh"; "make"; "cmake";
   "true"; "false"; "test"; "rmdir"; "mv"; "cp"; "cd"].

Definition CRED_SUFFIXES : list string :=
  [".pem"; ".key"; ".p12"; ".pfx"; ".keystore"; ".htpasswd"].

Definition DESTRUCTIVE_BINARIES : list string :=
  ["rm"; "dd"; "mkfs"; "mkfs.ext4"; "mkfs.apfs"; "diskutil"; "shred"; "wipefs"; "fdisk";
   "parted"].

Definition INTERPRETER_BINARIES : list string :=
  ["python"; "python3"; "python3.11"; "python3.12"; "python3.13"; "python3.14"; "node";
   "bun"; "deno"; "ruby"; "perl"; "lua"; "osascript"].

Definition INTERPRETER_CODE_FLAGS : list string := ["-c"; "-e"; "-x"; "--eval"; "--command"].
Definition INTERPRETER_CODE_SUBCMD : list string := ["eval"; "run"; "exec"].

Record TokenHit : Type := mkTokenHit {
  binary : string;
  hit_reason : string;
  hit_stage : CheckStage;
  sensitive_target : bool
}.

Definition SQ : ascii := "'".
Definition DQ : ascii := ascii_of_nat 34.
Definition LF : ascii := ascii_of_nat 10.
Definition CR : ascii := ascii_of_nat 13.
Definition BACKSLASH : ascii := ascii_of_nat 92.

(** [basename]: the last component of [rsplit('/')], or the path itself. *)
Definition basename (path : string) : string :=
  match last (str_split "/" path) with
  | Some s => if str_empty s then path else s
  | None => path
  end.

(** [split_chain]: quote-aware split on [&&], [||], [;], [|], newline and
    carriage return.  [cur] is the current segment, last byte first. *)
Fixpoint split_chain_go (in_single in_double : bool) (cur : list ascii) (s : string)
  : list string :=
  match s with
  | EmptyString => match cur with [] => [] | _ => [of_bytes (reverse cur)] end
  | String ch rest =>
      if in_single then split_chain_go (negb (Ascii.eqb ch SQ)) in_double (ch :: cur) rest
      else if in_double then split_chain_go false (negb (Ascii.eqb ch DQ)) (ch :: cur) rest
      else if Ascii.eqb ch SQ then split_chain_go true false (ch :: cur) rest
      else if Ascii.eqb ch DQ then split_chain_go false true (ch :: cur) rest
      else
        let single :=
          if Ascii.eqb ch ";" || Ascii.eqb ch LF || Ascii.eqb ch CR || Ascii.eqb ch "|"
          then of_bytes (reverse cur) :: split_chain_go false false [] rest
          else split_chain_go false false (ch :: cur) rest in
        match rest with
        | String c2 rest2 =>
            if (Ascii.eqb ch "&" && Ascii.eqb c2 "&") || (Ascii.eqb ch "|" && Ascii.eqb c2 "|")
            then of_bytes (reverse cur) :: split_chain_go false false [] rest2
            else single
        | EmptyString => single
        end
  end.
Definition split_chain (command : string) : list string :=
  split_chain_go false false [] command.

(** [check_shell_substitution] *)
Definition check_shell_substitution (command : string) : option string :=
  if str_contains "$(" command || str_has "`" command
  then Some "禁止命令替换 $(...)/反引号"
  else if str_contains "<(" command || str_contains "<<<" command
  then Some "禁止进程替换 <(...)/<<<"
  else None.

(** [check_unmodeled_shell_features].  The slices [&command[1..]] of the brace
    and bracket arms start at byte 1 of the whole command, and panic when that
    is not a character boundary. *)
Definition brace_arm (command : string) : result panic bool :=
  rest ← slice_from 1 command;
  mret (match str_find "}" rest with
        | Some close =>
            let inner := str_take close rest in
            str_has "," inner || str_contains ".." inner
        | None => false
        end).
Definition bracket_arm (command : string) : result panic bool :=
  rest ← slice_from 1 command; mret (str_has "]" rest).

Fixpoint check_unmodeled_go (command : string) (in_single in_double : bool) (s : string)
  : result panic (option string) :=
  match s with
  | EmptyString => Ok None
  | String ch rest =>
      if in_single then check_unmodeled_go command (negb (Ascii.eqb ch SQ)) in_double rest
      else if in_double then check_unmodeled_go command false (negb (Ascii.eqb ch DQ)) rest
      else
        let continue := check_unmodeled_go command false false rest in
        let peek (c : ascii) :=
          match rest with String c2 _ => Ascii.eqb c2 c | EmptyString => false end in
        if Ascii.eqb ch SQ then check_unmodeled_go command true false rest
        else if Ascii.eqb ch DQ then check_unmodeled_go command false true rest
        else if Ascii.eqb ch "{" then
          b ← brace_arm command;
          if (b : bool)
          then mret (Some "禁止 brace 展开 {a,b}/{n..m} (shell_words 未建模, A1 fail-closed)")
          else continue
        else if Ascii.eqb ch "<" && peek "<"%char then
          mret (Some "禁止 heredoc <<EOF (shell_words 未建模, A1 fail-closed)")
        else if Ascii.eqb ch "|" && peek "&"%char then
          mret (Some "禁止 |& 管道 (shell_words 未建模, A1 fail-closed)")
        else if Ascii.eqb ch ">" && peek "&"%char then
          mret (Some "禁止 >&N fd 重定向 (shell_words 未建模, A1 fail-closed)")
        else if Ascii.eqb ch "<" && peek "&"%char then
          mret (Some "禁止 <&N fd 重定向 (shell_words 未建模, A1 fail-closed)")
        else if Ascii.eqb ch "<" && peek ">"%char then
          mret (Some "禁止 <> 读写打开 (shell_words 未建模, A1 fail-closed)")
        else if Ascii.eqb ch BACKSLASH && peek LF then
          mret (Some "禁止反斜杠续行 (shell_words 未建模, A1 fail-closed)")
        else if Ascii.eqb ch "*" || Ascii.eqb ch "?" then
          mret (Some ("禁止 glob '" +:+ String ch "' (shell_words 未建模, A1 fail-closed)"))
        else if Ascii.eqb ch "[" then
          b ← bracket_arm command;
          if (b : bool)
          then mret (Some "禁止 glob [...] (shell_words 未建模, A1 fail-closed)")
          else continue
        else if Ascii.eqb ch "~" then
          mret (Some "禁止 tilde 展开 ~ (shell_words 未建模, A1 fail-closed)")
        else continue
  end.
Definition check_unmodeled_shell_features (command : string) : result panic (option string) :=
  check_unmodeled_go command false false command.

(** [check_interpreter]: a code flag anywhere, or a code subcommand followed by
    another argument. *)
Fixpoint check_interpreter (bin : string) (args : list string) : option string :=
  match args with
  | [] => None
  | a :: rest =>
      if mem_str a INTERPRETER_CODE_FLAGS
      then Some (bin +:+ " " +:+ a +:+ " 内联代码执行 (任意 RCE, 递归不可解析 → 绝对 Block)")
      else if mem_str a INTERPRETER_CODE_SUBCMD && negb (bool_decide (rest = []))
      then Some (bin +:+ " " +:+ a +:+ " <script> 任意代码执行 → 绝对 Block")
      else check_interpreter bin rest
  end.

(** [parse_mv_cp_dest], one pass over the arguments with the loop's four
    variables; [positionals] is kept in order. *)
Fixpoint mv_cp_loop (args : list string) (explicit_dest : option string)
    (positionals : list string) (only_positional skip_value : bool)
  : option string * list string :=
  match args with
  | [] => (explicit_dest, positionals)
  | a :: rest =>
      if skip_value then mv_cp_loop rest explicit_dest positionals only_positional false
      else if only_positional
      then mv_cp_loop rest explicit_dest (positionals ++ [a]) true false
      else if String.eqb a "--" then mv_cp_loop rest explicit_dest positionals true false
      else if String.eqb a "-t" then
        match rest with
        | d :: _ => mv_cp_loop rest (Some d) positionals false true
        | [] => mv_cp_loop rest explicit_dest positionals false false
        end
      else match strip_prefix "--target-directory=" a with
      | Some val => mv_cp_loop rest (Some val) positionals false false
      | None =>
          if String.eqb a "--target-directory" then
            match rest with
            | d :: _ => mv_cp_loop rest (Some d) positionals false true
            | [] => mv_cp_loop rest explicit_dest positionals false false
            end
          else if starts_with "-" a && Nat.ltb 1 (String.length a)
          then mv_cp_loop rest explicit_dest positionals false false
          else mv_cp_loop rest explicit_dest (positionals ++ [a]) false false
      end
  end.
Definition parse_mv_cp_dest (args : list string) : option string :=
  match mv_cp_loop args None [] false false with
  | (Some d, _) => Some d
  | (None, positionals) => if Nat.leb 2 (length positionals) then last positionals else None
  end.

(** [std::path]: the components of a path, and its final normal component. *)
Definition path_parts (path : string) : list string :=
  List.filter (fun c => negb (str_empty c || String.eqb c ".")) (str_split "/" path).
Definition has_parent_dir (path : string) : bool := mem_str ".." (path_parts path).
Definition file_name (path : string) : option string :=
  match last (path_parts path) with
  | Some c => if String.eqb c ".." then None else Some c
  | None => None
  end.

(** [while idx < words.len() && words[idx].contains('=') && ...]: the words from
    the first one that is not an environment assignment. *)
Fixpoint skip_assignments (words : list string) : list string :=
  match words with
  | w :: ws => if str_has "=" w && negb (starts_with "=" w) then skip_assignments ws else words
  | [] => []
  end.

Section WithEnv.
Context `{ShellEnv}.

(** [expand_tilde] *)
Definition expand_tilde (path : string) : string :=
  if String.eqb path "~" then default "~" env_home
  else match strip_prefix "~/" path with
  | Some rest => default "" env_home +:+ "/" +:+ rest
  | None => path
  end.

(** [is_sensitive_path] *)
Definition is_sensitive_path (path : string) : bool :=
  if negb (starts_with "/" path) && negb (starts_with "~" path) then false
  else
    let expanded := expand_tilde path in
    existsb (fun sens =>
      let sens_exp := expand_tilde sens in
      String.eqb expanded sens_exp || starts_with (sens_exp +:+ "/") expanded) SENSITIVE_PATHS.

(** [is_sensitive_filename] *)
Definition is_sensitive_filename (path : string) : bool :=
  let fname := default "" (to_lowercase <$> file_name path) in
  if str_empty fname then false
  else if String.eqb fname "id_rsa" || starts_with "id_rsa." fname || starts_with "id_rsa_" fname
  then negb (ends_with ".pub" fname)
  else existsb (fun s => ends_with s fname) CRED_SUFFIXES.

(** [check_redirect_target] *)
Definition check_redirect_target (segment : string) : option string :=
  match List.find is_sensitive_path (redirect_captures segment) with
  | Some target => Some ("重定向目标位于敏感路径: " +:+ target)
  | None => None
  end.

(** [check_destructive] *)
Definition check_dd (args : list string) : option string :=
  first_some (fun a =>
    match strip_prefix "of=" a with
    | Some target =>
        if is_sensitive_path target || starts_with "/dev/" target
        then Some ("dd of=" +:+ target +:+ " 磁盘/敏感设备写入 → 绝对 Block")
        else None
    | None => None
    end) args.
Definition check_destructive (bin : string) (args : list string) : option string :=
  if String.eqb bin "dd" then check_dd args
  else if String.eqb bin "rm" then
    let combined := str_concat " " args in
    let has_recursive := str_contains "-r" combined || str_contains "--recursive" combined in
    let has_force := str_contains "-f" combined || str_contains "--force" combined in
    if has_recursive && has_force
    then Some "rm 递归+强制 (-rf/-fr/--recursive --force 变体) → 绝对 Block"
    else if has_recursive then Some "rm 递归删除 (-r/--recursive) → 绝对 Block"
    else None
  else if mem_str bin ["mkfs"; "diskutil"; "shred"; "wipefs"; "fdisk"; "parted"]
  then Some (bin +:+ " 磁盘/分区破坏性操作 → 绝对 Block")
  else None.

(** [check_argv], one helper per group of binaries. *)
Definition check_path_args (bin : string) (args : list string) : option string :=
  first_some (fun a =>
    if starts_with "-" a then None
    else if is_sensitive_path a then Some (bin +:+ " 敏感路径: " +:+ a)
    else None) args.
Definition check_read_args (bin : string) (args : list string) : option string :=
  first_some (fun a =>
    if starts_with "-" a then None
    else if is_sensitive_path a
    then Some (bin +:+ " 读源位于敏感路径: " +:+ a +:+ " (禁止读取私钥/系统文件)")
    else if is_sensitive_filename a
    then Some (bin +:+ " 读源为凭据文件 (敏感文件名模式): " +:+ a)
    else if has_parent_dir a
    then Some (bin +:+ " 路径含 .. 组件, 拒绝逃逸嫌疑: " +:+ a)
    else None) args.
Definition check_git_args (args : list string) : option string :=
  first_some (fun a =>
    if String.eqb a "config" then Some "禁止 git config 持久配置后门"
    else if String.eqb a "-c" then Some "禁止 git -c 临时配置注入"
    else if starts_with "alias." a || starts_with "core." a
    then Some "禁止 git config alias/core 持久后门"
    else None) args.
Definition check_argv (bin : string) (args : list string) : option string :=
  if mem_str bin ["mv"; "cp"] then
    match parse_mv_cp_dest args with
    | Some dest =>
        if is_sensitive_path dest then Some (bin +:+ " 目的地位于敏感路径: " +:+ dest) else None
    | None => None
    end
  else if String.eqb bin "sed" then
    if existsb (fun a => String.eqb a "-i" || starts_with "-i" a) args
    then Some "禁止 sed -i 原地编辑" else None
  else if String.eqb bin "find" then
    if existsb (fun a => mem_str a ["-exec"; "-execdir"; "-ok"; "-delete"]) args
    then Some "禁止 find -exec/-execdir/-ok/-delete 任意命令执行" else None
  else if mem_str bin ["tee"; "chmod"; "cd"] then check_path_args bin args
  else if mem_str bin ["cat"; "grep"; "head"; "tail"; "less"; "more"; "bat"; "rg"]
  then check_read_args bin args
  else if String.eqb bin "git" then check_git_args args
  else None.

(** [check_segment] *)
Definition check_segment (segment : string) : option TokenHit :=
  match check_redirect_target segment with
  | Some reason => Some (mkTokenHit "" reason Ast true)
  | None =>
  match shell_split segment with
  | Err e => Some (mkTokenHit "" ("命令分词失败: " +:+ e) Ast false)
  | Ok words =>
  match skip_assignments words with
  | [] => None
  | bin :: args =>
      let bb := basename bin in
      if mem_str bb DESTRUCTIVE_BINARIES then
        match check_destructive bb args with
        | Some reason => Some (mkTokenHit bb reason Ast true)
        | None => Some (mkTokenHit bb ("破坏性命令: " +:+ bb) Ast true)
        end
      else if negb (mem_str bb WHITELIST) then
        Some (mkTokenHit bb
          ("二进制程序不在白名单: " +:+ bin +:+ " (fail-closed 绝对 Block)") Ast true)
      else
        match (if mem_str bb INTERPRETER_BINARIES then check_interpreter bb args else None) with
        | Some reason => Some (mkTokenHit bb reason Ast true)
        | None =>
            match check_argv bb args with
            | Some reason => Some (mkTokenHit bb reason Ast true)
            | None => None
            end
        end
  end end end.

(** [tokenize_check] *)
Definition check_segments (segs : list string) : list TokenHit :=
  omap (fun segment =>
    let seg := trim segment in
    if str_empty seg then None else check_segment seg) segs.
Definition tokenize_check (content : string) : result panic (list TokenHit) :=
  let trimmed := trim content in
  if str_empty trimmed then mret []
  else match check_shell_substitution trimmed with
  | Some reason => mret [mkTokenHit "" reason Ast false]
  | None =>
      feature ← check_unmodeled_shell_features trimmed;
      match feature with
      | Some reason => mret [mkTokenHit "" reason Ast true]
      | None => mret (check_segments (split_chain trimmed))
      end
  end.

(** ** Specification: what a clean command line looks like *)

(** Every argument that is not an option satisfies [ok]. *)
Definition operands_ok (ok : string -> bool) (args : list string) : Prop :=
  forall a, In a args -> starts_with "-" a = false -> ok a = true.

Definition readable (a : string) : bool :=
  negb (is_sensitive_path a) && negb (is_sensitive_filename a) && negb (has_parent_dir a).

(** The arguments the policy accepts for a whitelisted binary. *)
Definition argv_safe (bin : string) (args : list string) : Prop :=
  if mem_str bin ["mv"; "cp"]
  then forall d, parse_mv_cp_dest args = Some d -> is_sensitive_path d = false
  else if String.eqb bin "sed" then forall a, In a args -> starts_with "-i" a = false
  else if String.eqb bin "find"
  then forall a, In a args -> ~ In a ["-exec"; "-execdir"; "-ok"; "-delete"]
  else if mem_str bin ["tee"; "chmod"; "cd"]
  then operands_ok (fun a => negb (is_sensitive_path a)) args
  else if mem_str bin ["cat"; "grep"; "head"; "tail"; "less"; "more"; "bat"; "rg"]
  then operands_ok readable args
  else if String.eqb bin "git"
  then forall a, In a args -> a <> "config" /\ a <> "-c" /\
         starts_with "alias." a = false /\ starts_with "core." a = false
  else True.

(** No inline code: no code flag, no code subcommand with a script after it. *)
Definition no_inline_code (args : list string) : Prop :=
  forall l a r, args = l ++ a :: r ->
    ~ In a INTERPRETER_CODE_FLAGS /\ (In a INTERPRETER_CODE_SUBCMD -> r = []).

Definition command_safe (bin : string) (args : list string) : Prop :=
  In (basename bin) WHITELIST /\ ~ In (basename bin) DESTRUCTIVE_BINARIES /\
  (In (basename bin) INTERPRETER_BINARIES -> no_inline_code args) /\
  argv_safe (basename bin) args.

Definition segment_safe (seg : string) : Prop :=
  (forall t, In t (redirect_captures seg) -> is_sensitive_path t = false) /\
  exists words, shell_split seg = Ok words /\
    (skip_assignments words = [] \/
     exists bin args, skip_assignments words = bin :: args /\ command_safe bin args).

Definition command_line_safe (command : string) : Prop :=
  command = "" \/
  (check_shell_substitution command = None /\
   check_unmodeled_shell_features command = Ok None /\
   forall seg, In seg (split_chain command) -> trim seg = "" \/ segment_safe (trim seg)).

(** ** The checks implement the specification *)

Lemma check_redirect_target_none seg :
  check_redirect_target seg = None <->
  (forall t, In t (redirect_captures seg) -> is_sensitive_path t = false).
Proof.
  unfold check_redirect_target. destruct (List.find _ _) as [t|] eqn:E.
  - apply find_some in E as [Hin Ht]. split; [done|]. intros Hf.
    rewrite (Hf _ Hin) in Ht. done.
  - split; [|done]. intros _. apply (find_none _ _ E).
Qed.

Lemma check_path_args_none bin args :
  check_path_args bin args = None <->
  operands_ok (fun a => negb (is_sensitive_path a)) args.
Proof.
  unfold check_path_args, operands_ok. rewrite first_some_none.
  split; intros Hf a Ha; specialize (Hf a Ha);
    destruct (starts_with "-" a), (is_sensitive_path a); try done; by specialize (Hf eq_refl).
Qed.

Lemma check_read_args_none bin args :
  check_read_args bin args = None <-> operands_ok readable args.
Proof.
  unfold check_read_args, operands_ok, readable. rewrite first_some_none.
  split; intros Hf a Ha; specialize (Hf a Ha);
    destruct (starts_with "-" a), (is_sensitive_path a), (is_sensitive_filename a),
      (has_parent_dir a); try done; by specialize (Hf eq_refl).
Qed.

Lemma check_git_args_none args :
  check_git_args args = None <->
  (forall a, In a args -> a <> "config" /\ a <> "-c" /\
     starts_with "alias." a = false /\ starts_with "core." a = false).
Proof.
  unfold check_git_args. rewrite first_some_none.
  split; intros Hf a Ha; specialize (Hf a Ha);
    destruct (String.eqb_spec a "config"), (String.eqb_spec a "-c"),
      (starts_with "alias." a), (starts_with "core." a); try done;
    by destruct Hf as (? & ? & ? & ?).
Qed.

Lemma check_mv_cp_none bin args :
  match parse_mv_cp_dest args with
  | Some dest =>
      if is_sensitive_path dest then Some (bin +:+ " 目的地位于敏感路径: " +:+ dest) else None
  | None => None
  end = None <-> (forall d, parse_mv_cp_dest args = Some d -> is_sensitive_path d = false).
Proof.
  destruct (parse_mv_cp_dest args) as [d|]; [|done].
  destruct (is_sensitive_path d) eqn:E; split; try done.
  - intros Hf. by rewrite Hf in E.
  - by intros _ ? [= <-].
Qed.

Lemma if_existsb_none {A} (f : A -> bool) l (r : string) :
  (if existsb f l then Some r else None) = None <-> (forall a, In a l -> f a = false).
Proof. rewrite <- existsb_false. destruct (existsb f l); by split. Qed.

Lemma check_argv_none bin args : check_argv bin args = None <-> argv_safe bin args.
Proof.
  unfold check_argv, argv_safe.
  destruct (mem_str bin ["mv"; "cp"]); [apply check_mv_cp_none|].
  destruct (String.eqb bin "sed").
  { rewrite if_existsb_none. split; intros Hf a Ha; specialize (Hf a Ha).
    - by boolp.
    - rewrite Hf. destruct (String.eqb_spec a "-i"); [by subst | done]. }
  destruct (String.eqb bin "find").
  { rewrite if_existsb_none. split; intros Hf a Ha; specialize (Hf a Ha);
      by apply mem_str_not_In. }
  destruct (mem_str bin ["tee"; "chmod"; "cd"]); [apply check_path_args_none|].
  destruct (mem_str bin _); [apply check_read_args_none|].
  destruct (String.eqb bin "git"); [apply check_git_args_none|done].
Qed.

Lemma no_inline_code_cons a args :
  no_inline_code (a :: args) <->
  (~ In a INTERPRETER_CODE_FLAGS /\ (In a INTERPRETER_CODE_SUBCMD -> args = [])) /\
  no_inline_code args.
Proof.
  split.
  - intros Hf. split; [by apply (Hf [] a args)|].
    intros l b r ->. by apply (Hf (a :: l) b r).
  - intros [Ha Hf] [|c l] b r [= -> ->]; [done | by eapply Hf].
Qed.

Lemma check_interpreter_none bin args :
  check_interpreter bin args = None <-> no_inline_code args.
Proof.
  induction args as [|a args IH].
  { split; [|done]. intros _ [|? l] ? ? E; by inversion E. }
  rewrite no_inline_code_cons, <- IH. cbn [check_interpreter].
  destruct (mem_str a INTERPRETER_CODE_FLAGS) eqn:E1.
  { apply mem_str_In in E1. split; [done | tauto]. }
  apply mem_str_not_In in E1.
  destruct (mem_str a INTERPRETER_CODE_SUBCMD) eqn:E2; cbn [andb].
  - apply mem_str_In in E2. case_bool_decide; cbn [negb]; [tauto|].
    split; [done | intros [[_ Hx] _]; by apply Hx in E2].
  - apply mem_str_not_In in E2. tauto.
Qed.

(** The verdict on one parsed command. *)
Lemma check_segment_command seg words bin args :
  check_redirect_target seg = None -> shell_split seg = Ok words ->
  skip_assignments words = bin :: args ->
  check_segment seg = None <-> command_safe bin args.
Proof.
  intros Er Es Ew. unfold check_segment, command_safe. rewrite Er, Es, Ew. cbv zeta.
  destruct (mem_str (basename bin) DESTRUCTIVE_BINARIES) eqn:E1.
  { apply mem_str_In in E1. destruct (check_destructive _ _); split; try done; tauto. }
  apply mem_str_not_In in E1.
  destruct (mem_str (basename bin) WHITELIST) eqn:E2; cbn [negb].
  2: { apply mem_str_not_In in E2. split; [done | tauto]. }
  apply mem_str_In in E2. rewrite <- check_argv_none.
  rewrite <- (check_interpreter_none (basename bin) args), <- (mem_str_In _ INTERPRETER_BINARIES).
  destruct (mem_str (basename bin) INTERPRETER_BINARIES);
    destruct (check_interpreter _ _), (check_argv _ _); split; try done; try tauto;
    intros (_ & _ & Hx & ?); try done; by specialize (Hx eq_refl).
Qed.

Lemma check_segment_none seg : check_segment seg = None <-> segment_safe seg.
Proof.
  unfold segment_safe. rewrite <- check_redirect_target_none.
  destruct (check_redirect_target seg) as [r|] eqn:Er.
  { unfold check_segment. rewrite Er. split; [done | by intros [? _]]. }
  destruct (shell_split seg) as [words|e] eqn:Es.
  2: { unfold check_segment. rewrite Er, Es. split; [done | by intros (_ & ? & ? & _)]. }
  destruct (skip_assignments words) as [|bin args] eqn:Ew.
  { unfold check_segment. rewrite Er, Es, Ew. split; [|done]. intros _. split; eauto. }
  rewrite (check_segment_command _ _ _ _ Er Es Ew). split.
  - intros Hc. split; [done|]. exists words. split; [done|]. right. eauto.
  - intros (_ & w & [= <-] & [Hn|(b & a & Hb & Hc)]); congruence.
Qed.

Lemma check_segments_nil segs :
  check_segments segs = [] <->
  (forall seg, In seg segs -> trim seg = "" \/ segment_safe (trim seg)).
Proof.
  unfold check_segments. induction segs as [|s segs IH]; [by split|].
  cbn [In]. simpl. destruct (str_empty (trim s)) eqn:Et.
  - rewrite IH. split; [|auto]. intros Hf seg [<-|?]; [|auto].
    left. by destruct (trim s).
  - assert (trim s <> "") by (intros E; by rewrite E in Et).
    destruct (check_segment (trim s)) as [h|] eqn:Eh.
    + split; [done|]. intros Hf. destruct (Hf s) as [Hs|Hs]; [by left|done|].
      apply check_segment_none in Hs. congruence.
    + apply check_segment_none in Eh. rewrite IH.
      split; [intros Hf seg [<-|?]; auto | auto].
Qed.


(** ** Hits below L4, panics, sensitive paths *)

Lemma check_segment_low seg h :
  check_segment seg = Some h -> sensitive_target h = false ->
  exists e, shell_split seg = Err e /\ h = mkTokenHit "" ("命令分词失败: " +:+ e) Ast false.
Proof.
  unfold check_segment. intros Hc Hl. repeat case_match; simplify_eq; try done; eauto.
Qed.

(** A hit that is not marked as sensitive (an L3 hit, which a human may
    still approve) comes from a substitution in the command line or from a
    segment that does not parse; every destructive binary, every binary outside
    the whitelist and every unmodelled feature is marked (L4, no confirm path). *)
Theorem tokenize_check_low_hits content hits h :
  tokenize_check content = Ok hits -> In h hits -> sensitive_target h = false ->
  is_Some (check_shell_substitution (trim content)) \/
  exists seg e, In seg (split_chain (trim content)) /\ shell_split (trim seg) = Err e.
Proof.
  unfold tokenize_check. intros Ht Hin Hl.
  destruct (str_empty (trim content)); [by injection Ht as <-|].
  destruct (check_shell_substitution _); [by left; eexists|].
  destruct (check_unmodeled_shell_features _) as [[r|]|]; [| |done]; injection Ht as <-.
  { by destruct Hin as [<-|[]]. }
  right. apply list_elem_of_In in Hin. unfold check_segments in Hin.
  apply list_elem_of_omap in Hin as (seg & Hseg & Hs).
  destruct (str_empty (trim seg)); [done|].
  destruct (check_segment_low _ _ Hs Hl) as (e & He & _).
  exists seg, e. split; [by apply list_elem_of_In | done].
Qed.

Lemma check_unmodeled_total command sq dq s :
  is_char_boundary 1 command = true ->
  exists o, check_unmodeled_go command sq dq s = Ok o.
Proof.
  intros Hb. revert sq dq. induction s as [|ch rest IH]; intros sq dq; cbn [check_unmodeled_go];
    [by eexists|].
  unfold brace_arm, bracket_arm, slice_from. rewrite Hb. cbn.
  repeat case_match; eauto.
Qed.


Lemma is_sensitive_path_spec path :
  is_sensitive_path path = true <->
  (starts_with "/" path = true \/ starts_with "~" path = true) /\
  exists sens, In sens SENSITIVE_PATHS /\
    (expand_tilde path = expand_tilde sens \/
     exists rest, expand_tilde path = expand_tilde sens +:+ "/" +:+ rest).
Proof.
  unfold is_sensitive_path. cbv zeta.
  destruct (starts_with "/" path) eqn:E1, (starts_with "~" path) eqn:E2; cbn [negb andb];
    try (split; [done | by intros [[?|?] _]]).
  all: rewrite existsb_exists; split.
  all: intros Hx; try destruct Hx as [_ Hx]; try (split; [auto|]);
    destruct Hx as (sens & Hin & Hs); exists sens; split; auto.
  all: try (apply orb_true_iff in Hs as [Hs|Hs];
       [left; by apply String.eqb_eq
       |right; apply prefix_app in Hs as (t & ->); exists t; by rewrite str_app_assoc]).
  all: apply orb_true_iff; destruct Hs as [->|(t & ->)];
       [left; apply String.eqb_refl | right; apply prefix_app; exists t; by rewrite str_app_assoc].
Qed.

Lemma expand_tilde_descend p q :
  p <> "~" -> expand_tilde (p +:+ "/" +:+ q) = expand_tilde p +:+ "/" +:+ q.
Proof.
  intros Hp. unfold expand_tilde.
  destruct (String.eqb_spec p "~") as [->|_]; [done|].
  destruct (String.eqb_spec (p +:+ "/" +:+ q) "~") as [E|_].
  { exfalso. apply (f_equal bytes) in E. rewrite !bytes_app in E.
    apply (f_equal length) in E as El. rewrite !length_app in El. cbn in El.
    destruct (bytes p); cbn in *; [done | lia]. }
  destruct (strip_prefix "~/" p) as [r|] eqn:E1.
  - apply strip_prefix_spec in E1 as ->.
    rewrite (proj2 (strip_prefix_spec "~/" _ (r +:+ "/" +:+ q))).
    + by rewrite !str_app_assoc.
    + by rewrite !str_app_assoc.
  - destruct (strip_prefix "~/" (p +:+ "/" +:+ q)) as [t|] eqn:E2; [|done].
    apply strip_prefix_spec in E2. exfalso.
    destruct p as [|c1 [|c2 p]]; rewrite ?str_app_cons in E2; cbn in E2.
    + by injection E2.
    + injection E2 as -> _. by destruct Hp.
    + injection E2 as -> -> _.
      change (strip_prefix "~/" ("~/" +:+ p) = None) in E1.
      by rewrite (proj2 (strip_prefix_spec "~/" _ p) eq_refl) in E1.
Qed.

Lemma expand_tilde_sensitive_slash sens :
  env_home = None -> In sens SENSITIVE_PATHS -> exists t, expand_tilde sens = "/" +:+ t.
Proof.
  intros Hh Hin. unfold expand_tilde. rewrite Hh.
  repeat (destruct Hin as [<-|Hin]; [eexists; vm_compute; reflexivity|]). done.
Qed.

(** An accepted path either expands componentwise or is the home directory. *)
Lemma expand_tilde_below p q sens :
  In sens SENSITIVE_PATHS ->
  (expand_tilde p = expand_tilde sens \/
   exists rest, expand_tilde p = expand_tilde sens +:+ "/" +:+ rest) ->
  expand_tilde (p +:+ "/" +:+ q) = expand_tilde p +:+ "/" +:+ q.
Proof.
  intros Hin He. destruct (decide (p = "~")) as [->|Hp]; [|by apply expand_tilde_descend].
  destruct env_home as [h|] eqn:Hh.
  - change ("~" +:+ "/" +:+ q) with ("~/" +:+ q). unfold expand_tilde.
    rewrite (proj2 (strip_prefix_spec "~/" _ q) eq_refl), Hh.
    destruct (String.eqb_spec ("~/" +:+ q) "~") as [E|_]; [by destruct q|]. done.
  - destruct (expand_tilde_sensitive_slash sens Hh Hin) as (t & Ht). exfalso.
    unfold expand_tilde in He at 1 3. rewrite Hh in He. cbn [String.eqb Ascii.eqb] in He.
    rewrite Ht in He. destruct He as [He|(r & He)]; cbn in He; by injection He.
Qed.

(** Sensitivity of a path is inherited by everything below it. *)
Theorem is_sensitive_path_descend p q :
  is_sensitive_path p = true -> is_sensitive_path (p +:+ "/" +:+ q) = true.
Proof.
  rewrite !is_sensitive_path_spec. intros [Hs (sens & Hin & He)]. split.
  { destruct Hs as [Hs|Hs]; [left|right]; apply prefix_app in Hs as (t & ->);
      apply prefix_app; eexists; by rewrite <- str_app_assoc. }
  exists sens. split; [done|]. right. rewrite (expand_tilde_below p q sens) by done.
  destruct He as [->|(r & ->)]; [by exists q|].
  exists (r +:+ "/" +:+ q). by rewrite !str_app_assoc.
Qed.

End WithEnv.
(** ** Splitting loses nothing but separators *)

Definition SEPARATORS : list string :=
  ["&&"; "||"; ";"; "|"; String LF ""; String CR ""].

(** Segments and separators put back in their order. *)
Fixpoint weave (segs seps : list string) : string :=
  match segs, seps with
  | [], _ => ""
  | s :: _, [] => s
  | s :: segs', p :: seps' => s +:+ p +:+ weave segs' seps'
  end.

(** [segs] and [seps] rebuild [s]; only the last segment may lack a separator. *)
Definition splits_into (s : string) (segs seps : list string) : Prop :=
  s = weave segs seps /\ Forall (fun p => In p SEPARATORS) seps /\
  length seps <= length segs <= S (length seps).

Lemma of_bytes_snoc cur ch s :
  of_bytes (reverse (ch :: cur)) +:+ s = of_bytes (reverse cur) +:+ String ch s.
Proof.
  rewrite reverse_cons, of_bytes_app, <- str_app_assoc. f_equal.
Qed.

Lemma splits_into_cons cur p rest s segs seps :
  In p SEPARATORS -> s = p +:+ rest -> splits_into rest segs seps ->
  splits_into (of_bytes (reverse cur) +:+ s) (of_bytes (reverse cur) :: segs) (p :: seps).
Proof.
  intros Hp -> (-> & Hs & Hl). split_and!; cbn [weave length]; [done|by constructor|lia|lia].
Qed.

Lemma split_chain_go_weave n s sq dq cur :
  String.length s <= n ->
  exists seps, splits_into (of_bytes (reverse cur) +:+ s) (split_chain_go sq dq cur s) seps.
Proof.
  revert s sq dq cur. induction n as [|n IH]; intros s sq dq cur Hn.
  all: destruct s as [|ch rest]; cbn [split_chain_go String.length] in *; try lia.
  1,2: exists []; rewrite str_app_nil; destruct cur as [|c cur];
       [split_and!; [done|constructor|cbn; lia|cbn; lia]
       |split_and!; [done|constructor|cbn; lia|cbn; lia]].
  assert (Hpush : forall sq dq,
    exists seps, splits_into (of_bytes (reverse cur) +:+ String ch rest)
      (split_chain_go sq dq (ch :: cur) rest) seps).
  { intros sq' dq'. rewrite <- of_bytes_snoc. apply IH. lia. }
  destruct sq; [apply Hpush|]. destruct dq; [apply Hpush|].
  destruct (Ascii.eqb ch SQ); [apply Hpush|]. destruct (Ascii.eqb ch DQ); [apply Hpush|].
  assert (Hsplit : forall p rest', In p SEPARATORS -> String ch rest = p +:+ rest' ->
      String.length rest' <= n ->
      exists seps, splits_into (of_bytes (reverse cur) +:+ String ch rest)
        (of_bytes (reverse cur) :: split_chain_go false false [] rest') seps).
  { intros p rest' Hp He Hlen. destruct (IH rest' false false []) as (seps & Hs); [done|].
    exists (p :: seps). by apply splits_into_cons with (rest := rest'). }
  assert (Hsingle : exists seps, splits_into (of_bytes (reverse cur) +:+ String ch rest)
     (if Ascii.eqb ch ";" || Ascii.eqb ch LF || Ascii.eqb ch CR || Ascii.eqb ch "|"
      then of_bytes (reverse cur) :: split_chain_go false false [] rest
      else split_chain_go false false (ch :: cur) rest) seps).
  { destruct (Ascii.eqb ch ";" || _ || _ || _) eqn:E; [|apply Hpush].
    apply (Hsplit (String ch "")); [|done|lia].
    repeat (apply orb_true_iff in E as [E|E]); apply Ascii.eqb_eq in E as ->; cbn; tauto. }
  destruct rest as [|c2 rest2]; [apply Hsingle|].
  destruct (_ || _) eqn:E in |- *; [|apply Hsingle].
  apply (Hsplit (String ch (String c2 ""))); [|done|cbn in Hn; lia].
  apply orb_true_iff in E as [E|E]; apply andb_true_iff in E as [E1 E2];
    apply Ascii.eqb_eq in E1 as ->; apply Ascii.eqb_eq in E2 as ->; cbn; tauto.
Qed.

(** Splitting a command line loses nothing: the segments, put back with one
    separator between two of them, are the command line, so every byte that is
    not a separator is in a segment that is checked. *)
Theorem split_chain_lossless command :
  exists seps, splits_into command (split_chain command) seps.
Proof. apply (split_chain_go_weave (String.length command) command false false []). lia. Qed.

(** ** The destination of [mv] and [cp] *)

Definition is_operand (a : string) : Prop := starts_with "-" a = false.

Lemma operand_not a b : is_operand a -> starts_with "-" b = true -> String.eqb a b = false.
Proof. intros Ha Hb. apply String.eqb_neq. intros ->. by rewrite Ha in Hb. Qed.

Lemma operand_strip a p : is_operand a -> starts_with "-" p = true -> strip_prefix p a = None.
Proof.
  intros Ha Hp. destruct (strip_prefix p a) as [t|] eqn:E; [|done]. exfalso.
  apply strip_prefix_spec in E as ->. apply prefix_app in Hp as (u & ->).
  unfold is_operand, starts_with in Ha. rewrite <- str_app_assoc in Ha.
  by rewrite (proj2 (prefix_app _ _)) in Ha by eauto.
Qed.

Lemma mv_cp_loop_operands args rest ed pos :
  Forall is_operand args ->
  mv_cp_loop (args ++ rest) ed pos false false = mv_cp_loop rest ed (pos ++ args) false false.
Proof.
  intros Ha. revert pos. induction Ha as [|a args Ha _ IH]; intros pos; [by rewrite app_nil_r|].
  cbn [app mv_cp_loop].
  rewrite !(operand_not a) by done. rewrite (operand_strip a) by done.
  unfold is_operand in Ha. rewrite Ha. cbn [andb]. by rewrite IH, <- app_assoc.
Qed.

Lemma mv_cp_loop_only args ed pos :
  mv_cp_loop args ed pos true false = (ed, pos ++ args).
Proof.
  revert pos. induction args as [|a args IH]; intros pos; cbn; [by rewrite app_nil_r|].
  by rewrite IH, <- app_assoc.
Qed.

(** The destination the policy checks is the one GNU [mv]/[cp] writes to:
    the last operand when there is no option; the operand of [-t] or
    [--target-directory], also in its [=] form and after operands; and after
    [--] every argument is an operand. *)
Theorem parse_mv_cp_dest_spec srcs d :
  Forall is_operand srcs -> is_operand d -> srcs <> [] ->
  parse_mv_cp_dest (srcs ++ [d]) = Some d /\
  parse_mv_cp_dest ("-t" :: d :: srcs) = Some d /\
  parse_mv_cp_dest (srcs ++ ["-t"; d]) = Some d /\
  parse_mv_cp_dest (srcs ++ ["--target-directory"; d]) = Some d /\
  parse_mv_cp_dest (srcs ++ ["--target-directory=" +:+ d]) = Some d /\
  (forall s e, parse_mv_cp_dest ("--" :: s :: srcs ++ [e]) = Some e).
Proof.
  intros Hs Hd Hne. unfold parse_mv_cp_dest.
  assert (Hlen : 1 <= length srcs) by (destruct srcs; [done | cbn; lia]).
  assert (Hlast : forall (l : list string) e, 1 <= length l ->
    (if Nat.leb 2 (length (l ++ [e])) then last (l ++ [e]) else None) = Some e).
  { intros l e ?. rewrite last_snoc, length_app.
    destruct (Nat.leb_spec 2 (length l + length [e])); [done | cbn in *; lia]. }
  split_and!.
  - rewrite <- (app_nil_r (srcs ++ [d])), mv_cp_loop_operands
      by (apply Forall_app; split; [done | by constructor]).
    cbn [mv_cp_loop app]. by apply Hlast.
  - cbn [mv_cp_loop]. change (String.eqb "-t" "--") with false.
    change (String.eqb "-t" "-t") with true. cbv iota.
    by rewrite <- (app_nil_r srcs), mv_cp_loop_operands by done.
  - by rewrite mv_cp_loop_operands by done.
  - by rewrite mv_cp_loop_operands by done.
  - rewrite mv_cp_loop_operands by done. cbn [mv_cp_loop].
    change ("--target-directory=" +:+ d) with ("--target-directory=" +:+ d).
    rewrite (proj2 (strip_prefix_spec "--target-directory=" _ d) eq_refl). done.
  - intros s e. change (("--" :: s :: srcs ++ [e])) with ("--" :: (s :: srcs) ++ [e]).
    cbn [mv_cp_loop]. change (String.eqb "--" "--") with true. cbv iota.
    rewrite mv_cp_loop_only. cbn [app]. apply (Hlast (s :: srcs)). cbn; lia.
Qed.

(** ** Concrete runs *)

(** A small environment: words separated by single blanks, no redirection. *)
Definition sample_env : ShellEnv := {|
  env_home := Some "/Users/me";
  shell_split := fun s => Ok (List.filter (fun w => negb (str_empty w)) (str_split " " s));
  redirect_captures := fun _ => [];
  to_lowercase := to_ascii_lowercase
|}.

Example clean_example : tokenize_check (H := sample_env) "ls src && cat README.md" = Ok [].
Proof. vm_compute. reflexivity. Qed.

Example destructive_example :
  (fun r => match r with Ok [h] => Some (binary h, sensitive_target h) | _ => None end)
    (tokenize_check (H := sample_env) "FOO=bar /bin/rm -r build") = Some ("rm", true).
Proof. vm_compute. reflexivity. Qed.

Lemma tokenize_check_low_hits_witness :
  exists h, In h [mkTokenHit "" "禁止命令替换 $(...)/反引号" Ast false] /\
    (is_Some (check_shell_substitution (trim "echo $(id)")) \/
     exists seg e, In seg (split_chain (trim "echo $(id)")) /\
       shell_split (ShellEnv := sample_env) (trim seg) = Err e).
Proof.
  eexists. split; [left; reflexivity|].
  apply (tokenize_check_low_hits (H := sample_env) "echo $(id)"
           [mkTokenHit "" "禁止命令替换 $(...)/反引号" Ast false]
           (mkTokenHit "" "禁止命令替换 $(...)/反引号" Ast false));
    [vm_compute; reflexivity | by left | reflexivity].
Defined.


Lemma is_sensitive_path_descend_witness :
  is_sensitive_path (H := sample_env) ("~/.ssh" +:+ "/" +:+ "id_rsa") = true.
Proof. apply is_sensitive_path_descend. vm_compute. reflexivity. Defined.

Lemma parse_mv_cp_dest_spec_witness : parse_mv_cp_dest ["a"; "b"; "/etc"] = Some "/etc".
Proof.
  apply (parse_mv_cp_dest_spec ["a"; "b"] "/etc");
    [repeat constructor | reflexivity | discriminate].
Defined.

(** ** Behaviour that differs from the comments *)

(** The brace arm looks at the command from byte 1 and not from the brace, so an
    earlier closing brace hides a later expansion. *)
Theorem brace_expansion_missed :
  check_unmodeled_shell_features "echo } {a,b}" = Ok None /\
  exists r, check_unmodeled_shell_features "echo {a,b}" = Ok (Some r).
Proof. split; [vm_compute; reflexivity | eexists; vm_compute; reflexivity]. Qed.

(** The same slice panics when the first character takes more than one byte. *)
Theorem brace_slice_panics : check_unmodeled_shell_features "é {" = Err Panic.
Proof. vm_compute. reflexivity. Qed.

(** A backslash before a quote does not escape it here, and a single ampersand
    is no separator: in both cases the second command is not a segment. *)
Theorem second_command_not_split :
  split_chain "echo \' ; nc evil" = ["echo \' ; nc evil"] /\
  split_chain "ls & nc evil" = ["ls & nc evil"] /\
  tokenize_check (H := sample_env) "ls & nc evil" = Ok [].
Proof. split_and!; vm_compute; reflexivity. Qed.

End Tokenizer.
