(* ===== verification/Semantic.v ===== *)
(** * Stage 3: the semantic stage (fg-rules/src/semantic.rs)

    The code scanner: the tables of dangerous calls, the walkers over a syntax
    tree (the generic one and the Python one with its alias table), the input
    cap, the choice of the grammars to try and the priority between their
    answers.  The tree-sitter parsers are the operations of the class
    [Grammars]. *)
From stdpp Require Import pretty.
From S2P Require Import Prelude Core.

Module Semantic.

Record SemanticHit : Type := mkSemanticHit {
  language : string;
  callee : string;
  risk : RiskLevel;
  sem_reason : string;
  sem_stage : CheckStage
}.

End Semantic.
Import Semantic.

(** *** Syntax trees

    A node of a tree-sitter tree as the walkers see it: its kind, its text
    ([utf8_text], [None] for an [Err]), the field it fills in its parent, whether
    it is a named node, and its children. *)
Inductive Node : Type :=
  mkNode (kind : string) (text : option string) (field : option string) (named : bool)
         (children : list Node).

(** The four grammars: the root of the tree and [has_error] of the root;
    [None] when the language cannot be set or the parser gives no tree. *)
Class Grammars : Type := {
  parse_python : string -> option (Node * bool);
  parse_javascript : string -> option (Node * bool);
  parse_typescript : string -> option (Node * bool);
  parse_rust : string -> option (Node * bool)
}.

Module Scanners.

Definition node_kind (n : Node) : string := let 'mkNode k _ _ _ _ := n in k.
Definition node_text (n : Node) : option string := let 'mkNode _ t _ _ _ := n in t.
Definition node_field (n : Node) : option string := let 'mkNode _ _ f _ _ := n in f.
Definition node_named (n : Node) : bool := let 'mkNode _ _ _ b _ := n in b.
Definition node_children (n : Node) : list Node := let 'mkNode _ _ _ _ c := n in c.

(** [child_by_field_name] and [named_child(0)] *)
Definition child_by_field_name (f : string) (n : Node) : option Node :=
  List.find (fun c => bool_decide (node_field c = Some f)) (node_children n).
Definition named_child0 (n : Node) : option Node := List.find node_named (node_children n).

(** *** Tables of dangerous calls *)

Definition PY_DANGER_L4 : list string :=
  ["os.system"; "os.popen"; "os.exec"; "os.execv"; "os.execvp"; "os.execve";
   "subprocess.call"; "subprocess.run"; "subprocess.Popen"; "subprocess.check_call";
   "subprocess.check_output"; "commands.getoutput"; "popen2.popen2"].
Definition PY_DANGER_L3 : list string :=
  ["eval"; "exec"; "compile"; "__import__"; "pickle.loads"; "pickle.load"; "marshal.loads";
   "shelve.open"; "ctypes.CDLL"; "ctypes.cdll.LoadLibrary"].
Definition JS_DANGER_L4 : list string :=
  ["exec"; "execSync"; "spawn"; "spawnSync"; "execFile"; "execFileSync"].
Definition JS_DANGER_L3 : list string := ["eval"; "Function"; "setTimeout"; "setInterval"].
Definition RS_DANGER_L4 : list string := ["Command::new"; "remove_dir_all"; "remove_file"].
Definition RS_DANGER_L3 : list string := ["unsafe"].
Definition PY_DANGER_MODULES : list string :=
  ["os"; "subprocess"; "ctypes"; "pickle"; "marshal"; "commands"; "popen2"].
Definition PY_DYNAMIC_DISPATCH : list string :=
  ["getattr"; "__import__"; "globals"; "locals"; "vars"; "eval"; "exec"; "compile"].

(** *** The generic walker (JavaScript, TypeScript, Rust) *)

Definition classify (callee lang : string) (danger_l4 danger_l3 : list string)
  : option SemanticHit :=
  if mem_str callee danger_l4 then
    Some (mkSemanticHit lang callee L4 (lang +:+ " 危险调用 (L4): " +:+ callee) Semantic)
  else if mem_str callee danger_l3 then
    Some (mkSemanticHit lang callee L3 (lang +:+ " 危险调用 (L3): " +:+ callee) Semantic)
  else None.

Definition is_call (n : Node) : bool :=
  String.eqb (node_kind n) "call_expression" || String.eqb (node_kind n) "call".
Definition callee_text (c : Node) : string := trim (default "" (node_text c)).

(** The callee of a call: the field [function], or the first named child. *)
Definition callee_node (n : Node) : option Node :=
  match child_by_field_name "function" n with Some c => Some c | None => named_child0 n end.
(** The hit of one node in [recurse_walk]. *)
Definition call_hit (lang : string) (l4 l3 : list string) (n : Node) : list SemanticHit :=
  if is_call n then
    match callee_node n with
    | Some c =>
        let callee := callee_text c in
        if str_empty callee then []
        else match classify callee lang l4 l3 with Some h => [h] | None => [] end
    | None => []
    end
  else [].

(** [walk_calls] and [recurse_walk]: the cursor visits the node, its subtree,
    then its next sibling; the cursor of the root has no sibling. *)
Fixpoint recurse_walk (lang : string) (l4 l3 : list string) (n : Node)
    (out : list SemanticHit) : list SemanticHit :=
  let out := out ++ call_hit lang l4 l3 n in
  match n with
  | mkNode _ _ _ _ cs => foldl (fun o c => recurse_walk lang l4 l3 c o) out cs
  end.
Definition walk_calls (root : Node) (lang : string) (l4 l3 : list string) : list SemanticHit :=
  recurse_walk lang l4 l3 root [].

(** *** The Python walker *)

(** [split_whitespace]; the fuel is the number of bytes. *)
Fixpoint split_ws_go (fuel : nat) (l acc : list ascii) : list string :=
  let flush := match acc with [] => [] | _ => [of_bytes (reverse acc)] end in
  match fuel, l with
  | _, [] | 0, _ => flush
  | S fuel', a :: l' =>
      match ws_front l with
      | Some r => flush ++ split_ws_go fuel' r []
      | None => split_ws_go fuel' l' (a :: acc)
      end
  end.
Definition split_whitespace (s : string) : list string :=
  split_ws_go (String.length s) (bytes s) [].
(** [splitn(2, needle)] when it gives two parts. *)
Fixpoint split_once (needle s : string) : option (string * string) :=
  match strip_prefix needle s with
  | Some rest => Some ("", rest)
  | None => match s with
            | EmptyString => None
            | String a s' => prod_map (String a) id <$> split_once needle s'
            end
  end.

(** The walkers' state: the alias table and the hits so far. *)
Definition PyState : Type := gmap string string * list SemanticHit.

Definition bind_name (segs : list string) (dflt : string) : string :=
  match segs with
  | _ :: s1 :: s2 :: _ => if String.eqb s1 "as" then s2 else dflt
  | _ => dflt
  end.

(** One item of [from module import ...] and of [import ...]. *)
Definition import_from_item (module : string) (st : PyState) (item : string) : PyState :=
  match split_whitespace (trim item) with
  | [] => st
  | (imported :: _) as segs =>
      let b := bind_name segs imported in
      let real := if String.eqb imported "*" then "" else module +:+ "." +:+ imported in
      if negb (str_empty b) && negb (str_empty real) then (<[b := real]> st.1, st.2) else st
  end.
Definition import_item (st : PyState) (item : string) : PyState :=
  match split_whitespace (trim item) with
  | [] => st
  | (dotted :: _) as segs =>
      let top := default dotted (head (str_split "." dotted)) in
      let b := bind_name segs top in
      let out := if mem_str top PY_DANGER_MODULES then
                   st.2 ++ [mkSemanticHit "python" ("import " +:+ dotted) L3
                              ("python 导入危险模块 " +:+ top +:+ " (C5)") Semantic]
                 else st.2 in
      if negb (str_empty b) then (<[b := dotted]> st.1, out) else (st.1, out)
  end.

(** [parse_import_text] *)
Definition parse_import_text (text : string) (is_from : bool) (st : PyState) : PyState :=
  let text := trim text in
  if is_from then
    match split_once "import" (trim (default text (strip_prefix "from" text))) with
    | None => st
    | Some (p0, p1) =>
        let module := trim p0 in
        let names := trim p1 in
        let out := if mem_str module PY_DANGER_MODULES then
                     st.2 ++ [mkSemanticHit "python" ("from " +:+ module +:+ " import") L3
                                ("python 从危险模块 " +:+ module +:+ " 导入 (C5)") Semantic]
                   else st.2 in
        foldl (import_from_item module) (st.1, out) (str_split "," names)
    end
  else
    foldl import_item st (str_split "," (trim (default text (strip_prefix "import" text)))).

(** [resolve_alias] *)
Definition resolve_alias (callee : string) (aliases : gmap string string) : string :=
  let first := default callee (head (str_split "." callee)) in
  match aliases !! first with
  | Some real =>
      if String.eqb first callee then real
      else real +:+ str_drop (String.length first) callee
  | None => callee
  end.

(** [classify_python]; [danger_match] is [mem_str]. *)
Definition classify_python (callee : string) (st : PyState) : PyState :=
  let push h := (st.1, st.2 ++ [h]) in
  if mem_str callee PY_DYNAMIC_DISPATCH then
    push (mkSemanticHit "python" callee L3 ("python 动态调度/反射调用 (C5): " +:+ callee) Semantic)
  else
    let resolved := resolve_alias callee st.1 in
    if mem_str resolved PY_DANGER_L4 then
      push (mkSemanticHit "python" resolved L4
              ("python 危险调用 (L4, 别名解析): " +:+ resolved) Semantic)
    else if mem_str resolved PY_DANGER_L3 then
      push (mkSemanticHit "python" resolved L3
              ("python 危险调用 (L3, 别名解析): " +:+ resolved) Semantic)
    else st.

(** [collect_import_statement] and [collect_import_from], given the text of the node *)
Definition collect_import_statement (text : string) (st : PyState) : PyState :=
  parse_import_text text false st.
Definition collect_import_from (text : string) (st : PyState) : PyState :=
  parse_import_text text true st.
(** What [walk_python_node] does at one node. *)
Definition visit_python (n : Node) (st : PyState) : PyState :=
  let text := default "" (node_text n) in
  let st := if String.eqb (node_kind n) "import_statement"
            then collect_import_statement text st else st in
  let st := if String.eqb (node_kind n) "import_from_statement"
            then collect_import_from text st else st in
  if is_call n then
    match child_by_field_name "function" n with
    | Some c => let callee := callee_text c in
                if str_empty callee then st else classify_python callee st
    | None => st
    end
  else st.
Fixpoint walk_python_node (n : Node) (st : PyState) : PyState :=
  let st := visit_python n st in
  match n with
  | mkNode _ _ _ _ cs => foldl (fun s c => walk_python_node c s) st cs
  end.
Definition walk_python (root : Node) : list SemanticHit := (walk_python_node root (∅, [])).2.

(** *** The scanners: hits and [had_error] *)

Definition scan_with (parse : option (Node * bool)) (walk : Node -> list SemanticHit)
  : list SemanticHit * bool :=
  match parse with
  | None => ([], true)
  | Some (root, had_error) => (walk root, had_error)
  end.

Section Scan.
Context `{Grammars}.
Definition scan_python (code : string) := scan_with (parse_python code) walk_python.
Definition scan_javascript (code : string) :=
  scan_with (parse_javascript code) (fun r => walk_calls r "javascript" JS_DANGER_L4 JS_DANGER_L3).
Definition scan_typescript (code : string) :=
  scan_with (parse_typescript code) (fun r => walk_calls r "typescript" JS_DANGER_L4 JS_DANGER_L3).
Definition scan_rust (code : string) :=
  scan_with (parse_rust code) (fun r => walk_calls r "rust" RS_DANGER_L4 RS_DANGER_L3).
End Scan.
End Scanners.
Import Scanners.

Module SemanticCheck.

Definition SEMANTIC_INPUT_CAP : Z := 256 * 1024.

(** [content.chars().take(n).collect()]: the bytes up to the start of
    character number [n]. *)
Fixpoint chars_take (n : nat) (l : list ascii) : list ascii :=
  match l with
  | [] => []
  | a :: l' =>
      if is_continuation a then a :: chars_take n l'
      else match n with 0 => [] | S n' => a :: chars_take n' l' end
  end.

(** [guess_grammars] *)
Definition guess_grammars (content : string) : list string :=
  let head := of_bytes (chars_take 2048 (bytes content)) in
  let has n := str_contains n head in
  let rust := has "fn " || has "::" || has "let mut" || has "pub fn" || has "impl "
              || has "extern " || (has "use " && has "::") in
  let python := has (String (ascii_of_nat 10) "def ") || starts_with "def " head
                || has "import " || has "elif " || has "lambda "
                || str_contains "__name__" content in
  let jsts := has "require(" || has "console." || has "=>"
              || (has "const " && has "require") || has "module.exports" in
  let ts := jsts && (has ": string" || has ": number" || has "interface ") in
  let out := (if ts then ["ts"] else []) ++ (if rust then ["rust"] else [])
             ++ (if python then ["python"] else [])
             ++ (if jsts && negb ts then ["js"] else []) in
  match out with [] => ["python"; "js"; "ts"; "rust"] | _ => out end.

Section WithScanners.
Context `{Grammars}.

(** [scan_by_lang] *)
Definition scan_by_lang (lang code : string) : list SemanticHit * bool :=
  if String.eqb lang "python" then scan_python code
  else if String.eqb lang "js" then scan_javascript code
  else if String.eqb lang "ts" then scan_typescript code
  else if String.eqb lang "rust" then scan_rust code
  else ([], true).

Definition too_large_hit (len : nat) : SemanticHit :=
  mkSemanticHit "unknown" "<input-too-large>" L2
    ("语义扫描输入超上限 (" +:+ pretty len +:+ ">" +:+ pretty SEMANTIC_INPUT_CAP
     +:+ ", 降级跳过, regex/tokenizer 仍扫)") Semantic.
Definition parse_error_hit : SemanticHit :=
  mkSemanticHit "unknown" "<parse-error>" L2
    "源含解析错误, 语义扫描可能不完整 (C4)" Semantic.

(** The loop over the candidate grammars: [inl] is an early return. *)
Fixpoint scan_loop (langs : list string) (code : string)
    (err_hit : option (list SemanticHit)) (any_clean_empty : bool)
  : list SemanticHit + (option (list SemanticHit) * bool) :=
  match langs with
  | [] => inr (err_hit, any_clean_empty)
  | lang :: langs' =>
      let '(hits, had_error) := scan_by_lang lang code in
      if negb had_error then
        match hits with
        | [] => scan_loop langs' code err_hit true
        | _ => inl hits
        end
      else
        match hits, err_hit with
        | _ :: _, None => scan_loop langs' code (Some hits) any_clean_empty
        | _, _ => scan_loop langs' code err_hit any_clean_empty
        end
  end.

(** [semantic_check] *)
Definition semantic_check (content : string) : list SemanticHit :=
  let trimmed := trim content in
  if str_empty trimmed then []
  else if Z.ltb SEMANTIC_INPUT_CAP (Z.of_nat (String.length trimmed))
  then [too_large_hit (String.length trimmed)]
  else match scan_loop (guess_grammars trimmed) trimmed None false with
  | inl hits => hits
  | inr (_, true) => []
  | inr (Some hits, false) => hits
  | inr (None, false) => [parse_error_hit]
  end.

End WithScanners.
End SemanticCheck.

(** ** Properties of the semantic stage *)
Module SemanticSpec.
Import Scanners SemanticCheck.

(** The nodes of a tree in the order in which the walkers visit them. *)
Fixpoint preorder (n : Node) : list Node :=
  n :: match n with mkNode _ _ _ _ cs => flat_map preorder cs end.

(** Induction on trees with the hypothesis for every child. *)
Section NodeInd.
Context (P : Node -> Prop).
Context (step : forall k t f b cs, Forall P cs -> P (mkNode k t f b cs)).
Fixpoint Node_rect_list (n : Node) : P n :=
  match n with
  | mkNode k t f b cs =>
      step k t f b cs
        ((fix go (l : list Node) : Forall P l :=
            match l with
            | [] => Forall_nil_2 P
            | c :: l' => Forall_cons_2 P c l' (Node_rect_list c) (go l')
            end) cs)
  end.
End NodeInd.

Lemma recurse_walk_preorder lang l4 l3 n out :
  recurse_walk lang l4 l3 n out = out ++ flat_map (call_hit lang l4 l3) (preorder n).
Proof.
  revert n out. refine (Node_rect_list _ _). intros k t f b cs IH out. cbn [recurse_walk preorder flat_map].
  generalize (call_hit lang l4 l3 (mkNode k t f b cs)) as h. intros h. rewrite app_assoc.
  generalize (out ++ h) as acc. clear out h.
  induction IH as [|c cs Hc _ IHcs]; intros acc; cbn; [by rewrite app_nil_r|].
  by rewrite IHcs, Hc, <- app_assoc, flat_map_app.
Qed.

Lemma walk_python_foldl n st :
  walk_python_node n st = foldl (fun s m => visit_python m s) st (preorder n).
Proof.
  revert n st. refine (Node_rect_list _ _). intros k t f b cs IH st. cbn [walk_python_node preorder foldl].
  generalize (visit_python (mkNode k t f b cs) st) as s. clear st.
  induction IH as [|c cs Hc _ IHcs]; intros s; cbn; [done|].
  by rewrite foldl_app, IHcs, Hc.
Qed.

(** The Python walker never drops a hit. *)
Lemma foldl_hits_mono {A} (f : PyState -> A -> PyState) l st :
  (forall s a, incl s.2 (f s a).2) -> incl st.2 (foldl f st l).2.
Proof.
  intros Hf. revert st. induction l as [|a l IH]; intros st; cbn; [apply incl_refl|].
  eapply incl_tran; [apply (Hf st a)|apply IH].
Qed.
Lemma import_item_mono st item : incl st.2 (import_item st item).2.
Proof. unfold import_item. repeat case_match; cbn; auto using incl_refl, incl_appl. Qed.
Lemma import_from_item_mono m st item : incl st.2 (import_from_item m st item).2.
Proof. unfold import_from_item. repeat case_match; cbn; auto using incl_refl. Qed.
Lemma parse_import_text_mono text b st : incl st.2 (parse_import_text text b st).2.
Proof.
  unfold parse_import_text. destruct b; [|apply foldl_hits_mono, import_item_mono].
  destruct (split_once _ _) as [[p0 p1]|]; [|apply incl_refl].
  eapply incl_tran; [|apply foldl_hits_mono, import_from_item_mono].
  cbn. case_match; auto using incl_refl, incl_appl.
Qed.
Lemma classify_python_mono c st : incl st.2 (classify_python c st).2.
Proof. unfold classify_python. repeat case_match; cbn; auto using incl_refl, incl_appl. Qed.
Lemma incl_if (b : bool) (st s1 s2 : PyState) :
  incl st.2 s1.2 -> incl s1.2 s2.2 -> incl st.2 (if b then s2 else s1).2.
Proof. destruct b; [apply incl_tran|auto]. Qed.
Lemma visit_python_mono n st : incl st.2 (visit_python n st).2.
Proof.
  unfold visit_python. cbv zeta.
  apply incl_if; [apply incl_if; [apply incl_if; [apply incl_refl|]|]|].
  1, 2: apply parse_import_text_mono.
  repeat case_match; auto using incl_refl, classify_python_mono.
Qed.

Lemma str_split_nodot a : str_has "." a = false -> str_split "." a = [a].
Proof.
  induction a as [|c a IH]; intros Ha; [done|]. cbn in *.
  apply orb_false_iff in Ha as [-> Ha]. by rewrite (IH Ha).
Qed.
Lemma str_split_head a f : str_has "." a = false ->
  head (str_split "." (a +:+ "." +:+ f)) = Some a.
Proof.
  induction a as [|c a IH]; intros Ha; [done|]. cbn [str_has] in Ha.
  apply orb_false_iff in Ha as [Hc Ha]. rewrite str_app_cons. cbn [str_split].
  rewrite Hc. specialize (IH Ha). destruct (str_split "." (a +:+ "." +:+ f)); [done|].
  cbn in *. congruence.
Qed.
Lemma str_drop_app a s : str_drop (String.length a) (a +:+ s) = s.
Proof.
  unfold str_drop. by rewrite bytes_app, <- length_bytes, drop_app_length, of_bytes_bytes.
Qed.

(** The reference for the priority between the answers of the grammars. *)
Definition clean_hit (r : list SemanticHit * bool) : bool :=
  negb r.2 && negb (bool_decide (r.1 = [])).
Definition clean_empty (r : list SemanticHit * bool) : bool :=
  negb r.2 && bool_decide (r.1 = []).
Definition error_hit (r : list SemanticHit * bool) : bool :=
  r.2 && negb (bool_decide (r.1 = [])).
Definition by_priority (rs : list (list SemanticHit * bool)) : list SemanticHit :=
  match List.find clean_hit rs with
  | Some r => r.1
  | None =>
      if existsb clean_empty rs then []
      else match List.find error_hit rs with Some r => r.1 | None => [parse_error_hit] end
  end.

Lemma scan_loop_spec `{Grammars} langs code e a :
  match scan_loop langs code e a with
  | inl hits => List.find clean_hit ((fun l => scan_by_lang l code) <$> langs) = Some (hits, false)
  | inr (e', a') =>
      let rs := (fun l => scan_by_lang l code) <$> langs in
      List.find clean_hit rs = None /\ a' = a || existsb clean_empty rs
      /\ e' = match e with Some _ => e | None => fst <$> List.find error_hit rs end
  end.
Proof.
  revert e a. induction langs as [|l langs IH]; intros e a; cbn.
  { by rewrite orb_false_r; destruct e. }
  destruct (scan_by_lang l code) as [[|h hits] []]; unfold clean_hit, clean_empty, error_hit in *; cbn;
    [|specialize (IH e true)|destruct e as [e0|]|done].
  - specialize (IH e a). by destruct e.
  - destruct (scan_loop _ _ _ _) as [|[e' a']]; [done|]. destruct IH as (? & -> & ?).
    by rewrite orb_true_r.
  - apply (IH (Some e0) a).
  - apply (IH (Some (h :: hits)) a).
Qed.

(** The semantic stage answers by the documented priority: the hits of the
    first candidate grammar that parses without error and finds a dangerous call;
    otherwise nothing when some grammar parses without error; otherwise the hits
    of the first grammar that finds one in a tree with errors; otherwise one L2
    hit that reports the parse error.  Empty input has no hit and input over the
    cap has exactly the L2 hit that reports it. *)
Theorem semantic_check_priority `{Grammars} content :
  let t := trim content in
  semantic_check content =
    if str_empty t then []
    else if Z.ltb SEMANTIC_INPUT_CAP (Z.of_nat (String.length t)) then [too_large_hit (String.length t)]
    else by_priority ((fun l => scan_by_lang l t) <$> guess_grammars t).
Proof.
  cbn. unfold semantic_check. case_match; [done|]. case_match; [done|].
  pose proof (scan_loop_spec (guess_grammars (trim content)) (trim content) None false) as Hs.
  unfold by_priority. destruct (scan_loop _ _ _ _) as [hits|[e a]].
  - by rewrite Hs.
  - destruct Hs as (-> & -> & ->). cbn [orb]. destruct (existsb _ _), (List.find error_hit _); reflexivity.
Qed.

Lemma classify_spec name lang l4 l3 h :
  classify name lang l4 l3 = Some h ->
  language h = lang /\ callee h = name /\
  (risk h = L4 /\ In name l4 \/ risk h = L3 /\ ~ In name l4 /\ In name l3).
Proof.
  unfold classify. rewrite <- !mem_str_In.
  destruct (mem_str name l4), (mem_str name l3); intros [= <-]; cbn; intuition congruence.
Qed.
Lemma classify_none callee lang l4 l3 :
  classify callee lang l4 l3 = None <-> ~ In callee l4 /\ ~ In callee l3.
Proof. unfold classify. rewrite <- !mem_str_not_In. repeat case_match; intuition congruence. Qed.

(** The generic walker (JavaScript, TypeScript, Rust) reports every call of
    the tree, at any depth, whose callee text is in a danger table, and nothing
    else; the hit names that callee and has risk L4 when the callee is in the
    first table and L3 when it is only in the second. *)
Theorem walk_calls_spec root lang l4 l3 :
  (forall n c, In n (preorder root) -> is_call n = true -> callee_node n = Some c ->
     callee_text c <> "" -> In (callee_text c) (l4 ++ l3) ->
     exists h, In h (walk_calls root lang l4 l3) /\ callee h = callee_text c) /\
  (forall h, In h (walk_calls root lang l4 l3) ->
     exists n c, In n (preorder root) /\ is_call n = true /\ callee_node n = Some c /\
       callee h = callee_text c /\
       (risk h = L4 /\ In (callee_text c) l4 \/
        risk h = L3 /\ ~ In (callee_text c) l4 /\ In (callee_text c) l3)).
Proof.
  unfold walk_calls. rewrite recurse_walk_preorder. cbn [app]. split.
  - intros n c Hn Hcall Hc Hne Hin.
    destruct (classify (callee_text c) lang l4 l3) as [h|] eqn:E.
    + exists h. split; [|apply classify_spec in E; tauto]. apply in_flat_map. exists n. split; [done|].
      unfold call_hit. rewrite Hcall, Hc, E. destruct (callee_text c); [done|by left].
    + apply classify_none in E. apply in_app_or in Hin. tauto.
  - intros h (n & Hn & Hh)%in_flat_map. unfold call_hit in Hh.
    destruct (is_call n) eqn:Hcall; [|done]. destruct (callee_node n) as [c|] eqn:Hc; [|done].
    destruct (str_empty _); [done|]. destruct (classify _ _ _ _) eqn:E; [|done].
    destruct Hh as [->|[]]. apply classify_spec in E as (_ & E1 & E2). by exists n, c.
Qed.
Lemma walk_calls_spec_witness :
  exists h, In h (walk_calls (mkNode "program" None None true
      [mkNode "call_expression" None None true
         [mkNode "identifier" (Some " eval ") (Some "function") true []]])
    "javascript" JS_DANGER_L4 JS_DANGER_L3) /\ callee h = "eval".
Proof.
  destruct (walk_calls_spec (mkNode "program" None None true
      [mkNode "call_expression" None None true
         [mkNode "identifier" (Some " eval ") (Some "function") true []]])
    "javascript" JS_DANGER_L4 JS_DANGER_L3) as [Hex _].
  destruct (Hex (mkNode "call_expression" None None true
         [mkNode "identifier" (Some " eval ") (Some "function") true []])
    (mkNode "identifier" (Some " eval ") (Some "function") true [])) as (h & Hh & E);
    [right; by left | reflexivity | reflexivity | done | do 6 right; by left |].
  exists h. split; [exact Hh|exact E].
Defined.

(** A Python call through an alias is resolved before the tables are
    consulted: when [a] is bound to the module path [m] and [m.f] is in the L4
    table, the call [a.f] is reported as [m.f] at L4. *)
Theorem alias_call_detected (a m f : string) (st : PyState)
  (Hdot : str_has "." a = false) (Hbind : st.1 !! a = Some m)
  (Hl4 : In (m +:+ "." +:+ f) PY_DANGER_L4) :
  exists why, (classify_python (a +:+ "." +:+ f) st).2
    = st.2 ++ [mkSemanticHit "python" (m +:+ "." +:+ f) L4 why Semantic].
Proof.
  unfold classify_python.
  rewrite (proj2 (mem_str_not_In _ PY_DYNAMIC_DISPATCH)).
  2: { intros Hin. assert (Hs : str_has "." (a +:+ "." +:+ f) = true).
       { clear. induction a as [|c a IH]; [done|]. rewrite str_app_cons. cbn.
         rewrite IH. apply orb_true_r. }
       cbn [In PY_DYNAMIC_DISPATCH] in Hin.
       repeat destruct Hin as [Hin|Hin]; try (by rewrite <- Hin in Hs). done. }
  assert (Hr : resolve_alias (a +:+ "." +:+ f) st.1 = m +:+ "." +:+ f).
  { unfold resolve_alias. rewrite str_split_head by done. cbn [from_option]. unfold id. rewrite Hbind.
    destruct (String.eqb_spec a (a +:+ "." +:+ f)) as [E|_]; [|by rewrite str_drop_app].
    apply (f_equal (fun s => length (bytes s))) in E. rewrite !bytes_app, !length_app in E.
    cbn in E. lia. }
  rewrite Hr. rewrite (proj2 (mem_str_In _ _) Hl4). cbn. by eexists.
Qed.
Lemma alias_call_detected_witness :
  exists why, (classify_python "o.system" (<["o" := "os"]> ∅, [])).2
    = [mkSemanticHit "python" "os.system" L4 why Semantic].
Proof.
  destruct (alias_call_detected "o" "os" "system" (<["o" := "os"]> ∅, [])) as [why E];
    [reflexivity|reflexivity|by left|]. exists why. exact E.
Defined.

(** The alias table an import statement leaves. *)
Lemma import_as_binds :
  (parse_import_text "import os as o, sys" false (∅, [])).1 = {[ "o" := "os"; "sys" := "sys" ]} /\
  (parse_import_text "from os import system as s" true (∅, [])).1 = {[ "s" := "os.system" ]}.
Proof. vm_compute. done. Qed.
(** Whatever the alias table, every call of a reflection primitive
    ([getattr], [__import__], [eval], ...) anywhere in a Python tree is reported
    at L3: no import can rename the detection away. *)
Theorem python_dynamic_dispatch_found (root n c : Node)
  (Hn : In n (preorder root)) (Hcall : is_call n = true)
  (Hfun : child_by_field_name "function" n = Some c)
  (Hdyn : In (callee_text c) PY_DYNAMIC_DISPATCH) :
  exists h, In h (walk_python root) /\ callee h = callee_text c /\ risk h = L3.
Proof.
  unfold walk_python. rewrite walk_python_foldl.
  apply in_split in Hn as (l1 & l2 & ->). rewrite foldl_app. cbn [foldl].
  generalize (foldl (fun s m => visit_python m s) (∅, []) l1) as st. intros st.
  eexists. split; [eapply (foldl_hits_mono (fun s m => visit_python m s))|].
  { intros s a. apply visit_python_mono. }
  { unfold visit_python. rewrite Hcall, Hfun.
    assert (str_empty (callee_text c) = false) as ->
      by (destruct (callee_text c); [cbn in Hdyn; intuition discriminate|done]).
    unfold classify_python. rewrite (proj2 (mem_str_In _ _) Hdyn). cbn [snd].
    apply in_or_app. right. by left. }
  done.
Qed.

(** Sample tree of a Python module: [import os as o] then [getattr(o, "x")]. *)
Definition sample_py : Node :=
  mkNode "module" None None true
    [mkNode "import_statement" (Some "import os as o") None true [];
     mkNode "call" None None true
       [mkNode "identifier" (Some "getattr") (Some "function") true []]].
Lemma python_dynamic_dispatch_found_witness :
  exists h, In h (walk_python sample_py) /\ callee h = "getattr" /\ risk h = L3.
Proof.
  apply (python_dynamic_dispatch_found sample_py
    (mkNode "call" None None true [mkNode "identifier" (Some "getattr") (Some "function") true []])
    (mkNode "identifier" (Some "getattr") (Some "function") true []));
    [right; right; by left | reflexivity | reflexivity | by left].
Defined.

(** [import os.path] binds the name [os] to the path [os.path], so the call
    [os.system] that follows is looked up as [os.path.system] and is in no table:
    only the import itself is reported, at L3. *)
Theorem dotted_import_hides_call :
  walk_python (mkNode "module" None None true
    [mkNode "import_statement" (Some "import os.path") None true [];
     mkNode "call" None None true [mkNode "attribute" (Some "os.system") (Some "function") true []]])
  = [mkSemanticHit "python" "import os.path" L3 "python 导入危险模块 os (C5)" Semantic]
  /\ exists why, walk_python (mkNode "module" None None true
    [mkNode "import_statement" (Some "import os") None true [];
     mkNode "call" None None true [mkNode "attribute" (Some "os.system") (Some "function") true []]])
  = [mkSemanticHit "python" "import os" L3 "python 导入危险模块 os (C5)" Semantic;
     mkSemanticHit "python" "os.system" L4 why Semantic].
Proof. split; [vm_compute; reflexivity|]. eexists. vm_compute. reflexivity. Qed.

(** The JavaScript tables hold bare names and are matched on the whole callee
    text, so a member call such as [child_process.exec] or [fetch] has no hit. *)
Theorem js_member_call_missed :
  walk_calls (mkNode "call_expression" None None true
    [mkNode "member_expression" (Some "child_process.exec") (Some "function") true []])
    "javascript" JS_DANGER_L4 JS_DANGER_L3 = []
  /\ walk_calls (mkNode "call_expression" None None true
    [mkNode "identifier" (Some "fetch") (Some "function") true []])
    "javascript" JS_DANGER_L4 JS_DANGER_L3 = [].
Proof. by split; vm_compute. Qed.

End SemanticSpec.
