(* ===== verification/Rules.v ===== *)
(** * The rule engine (fg-rules/src/lib.rs)

    The rule set with its compiled expressions and epoch, the mutations, the
    evaluation of content through the three stages, category inference and the
    synthesis of a verdict from the hits.  The crate [regex] is the class
    [RegexEngine]. *)
From S2P Require Import Prelude Core Pattern Tokenizer Semantic.

Module Rules.
Import Tokenizer.

Record GuardRule : Type := mkRule {
  name : string;
  pattern : string;
  r_stage : CheckStage;
  r_action : SafetyAction;
  r_risk : RiskLevel;
  r_reason : string;
  scope : RuleScope
}.

Record RuleHit : Type := mkHit {
  rule : GuardRule;
  matched_text : string;
  h_stage : CheckStage
}.

Record RuleSet : Type := mkRuleSet {
  rs_epoch : Z;
  rs_rules : list GuardRule
}.

Inductive RuleError : Type :=
| RegexError (msg : string)
| NotFound (n : string)
| Duplicate (n : string).

#[global] Instance GuardRule_eq_dec : EqDecision GuardRule.
Proof. solve_decision. Defined.

(** *** Verdict synthesis *)

Definition stage_rank (s : CheckStage) : nat :=
  match s with Regex => 3 | Ast => 2 | Semantic => 1 end.

(** Comparison of the tuples [(severity, rank)] and [(severity, rank, stage)]. *)
Definition then_cmp (a b : comparison) : comparison := match a with Eq => b | _ => a end.
Definition hit_cmp2 (a b : RuleHit) : comparison :=
  then_cmp (Nat.compare (severity (r_action (rule a))) (severity (r_action (rule b))))
           (Nat.compare (rank (r_risk (rule a))) (rank (r_risk (rule b)))).
Definition hit_cmp3 (a b : RuleHit) : comparison :=
  then_cmp (hit_cmp2 a b) (Nat.compare (stage_rank (h_stage a)) (stage_rank (h_stage b))).

(** [verdict_from_hits] *)
Definition verdict_from_hits (hits : list RuleHit) (epoch : Z) : GuardVerdict :=
  match max_by hit_cmp3 hits with
  | Some h =>
      let seatbelt := bool_decide (r_risk (rule h) = L3) || bool_decide (r_risk (rule h) = L4)
                      || bool_decide (r_action (rule h) = Block) in
      mkVerdict (r_action (rule h)) (r_risk (rule h)) (r_reason (rule h)) (h_stage h)
        (bool_decide (r_risk (rule h) = L3)) None seatbelt None epoch 30 (name (rule h)) None
  | None =>
      mkVerdict Allow L1 "no rule hit" Regex false None false None epoch 30 "clean" None
  end.

(** [RuleEngine::infer_category_from_hits] *)
Definition infer_category_from_hits (hits : list RuleHit) : string :=
  match hits with
  | [] => "clean"
  | _ =>
      match max_by hit_cmp2 hits with
      | None => "clean"
      | Some top =>
          match scope (rule top) with
          | Network => "network"
          | Filesystem =>
              if bool_decide (r_action (rule top) = Block) && bool_decide (r_risk (rule top) = L4)
              then "file_write" else "file_read"
          | Content => "semantic:" +:+ name (rule top)
          | Command =>
              if starts_with "ast:" (name (rule top)) then pattern (rule top) else "shell_exec"
          end
      end
  end.

(** [default_ruleset] *)
Definition default_ruleset : RuleSet :=
  mkRuleSet 1
    [mkRule "rm-rf" "\brm\s+-rf\b" Regex Block L4 "destructive recursive delete" Command].

Section WithRegex.
Context `{RegexEngine}.

(** [Inner], the state behind the engine's lock. *)
Record Inner : Type := mkInner {
  rules : list GuardRule;
  compiled : list (option regex);
  epoch : Z
}.

Definition compile (p : string) : result RuleError regex := map_err RegexError (regex_new p).

(** [RuleEngine::new] *)
Fixpoint compile_all (rs : list GuardRule) : result RuleError (list (option regex)) :=
  match rs with
  | [] => mret []
  | r :: rs' => re ← compile (pattern r); res ← compile_all rs'; mret (Some re :: res)
  end.
Definition engine_new (ruleset : RuleSet) : result RuleError Inner :=
  cs ← compile_all (rs_rules ruleset);
  mret (mkInner (rs_rules ruleset) cs (rs_epoch ruleset)).

(** [RuleEngine::list] *)
Definition engine_list (g : Inner) : RuleSet := mkRuleSet (epoch g) (rules g).

(** [RuleEngine::add]: the new state and the result. *)
Definition add (r : GuardRule) (g : Inner) : Inner * result RuleError Z :=
  match compile (pattern r) with
  | Err e => (g, Err e)
  | Ok re =>
      if existsb (fun x => String.eqb (name x) (name r)) (rules g)
      then (g, Err (Duplicate (name r)))
      else let e := u64_add (epoch g) 1 in
           (mkInner (rules g ++ [r]) (compiled g ++ [Some re]) e, Ok e)
  end.

(** [iter().position(|r| r.name == name)] *)
Fixpoint position (n : string) (rs : list GuardRule) : option nat :=
  match rs with
  | [] => None
  | r :: rs' => if String.eqb (name r) n then Some 0 else S <$> position n rs'
  end.

(** [RuleEngine::update] *)
Definition update (n : string) (r : GuardRule) (g : Inner) : Inner * result RuleError Z :=
  match compile (pattern r) with
  | Err e => (g, Err e)
  | Ok re =>
      match position n (rules g) with
      | None => (g, Err (NotFound n))
      | Some idx =>
          let e := u64_add (epoch g) 1 in
          (mkInner (<[idx := r]> (rules g)) (<[idx := Some re]> (compiled g)) e, Ok e)
      end
  end.

(** [RuleEngine::remove]; [Vec::remove] is stdpp's [delete] on lists. *)
Definition remove (n : string) (g : Inner) : Inner * result RuleError Z :=
  match position n (rules g) with
  | None => (g, Err (NotFound n))
  | Some idx =>
      let e := u64_add (epoch g) 1 in
      (mkInner (delete idx (rules g)) (delete idx (compiled g)) e, Ok e)
  end.

(** [RuleEngine::check_epoch] *)
Definition check_epoch (caller_epoch : Z) (g : Inner) : result GuardError () :=
  if negb (Z.eqb caller_epoch 0) && negb (Z.eqb caller_epoch (epoch g))
  then Err (StaleEpoch caller_epoch (epoch g)) else Ok ().

(** [RuleEngine::evaluate]: stage 1. *)
Definition eval_rule (content : string) (rc : GuardRule * option regex) : option RuleHit :=
  let '(r, c) := rc in
  if negb (bool_decide (r_stage r = Regex)) then None
  else re ← c; m ← regex_find re content; Some (mkHit r m Regex).
Definition evaluate (content : string) (g : Inner) : list RuleHit :=
  omap (eval_rule content) (zip (rules g) (compiled g)).

(** The hits of stages 2 and 3 as rule hits. *)
Definition ast_hit (tok : TokenHit) : RuleHit :=
  let risk := if sensitive_target tok then L4 else L3 in
  mkHit (mkRule ("ast:" +:+ binary tok) (binary tok) Ast Block risk (hit_reason tok) Command)
        (binary tok) Ast.
Definition semantic_hit (sh : Semantic.SemanticHit) : RuleHit :=
  let n := "semantic:" +:+ Semantic.language sh +:+ ":" +:+ Semantic.callee sh in
  mkHit (mkRule n (Semantic.callee sh) Semantic Block (Semantic.risk sh)
           (Semantic.sem_reason sh) Content)
        (Semantic.callee sh) Semantic.

(** [RuleEngine::evaluate_full_typed] *)
Definition evaluate_full_typed `{ShellEnv, Grammars} (content : string) (ct : ContentType)
    (g : Inner) : result panic (list RuleHit) :=
  toks ← (if run_tokenizer ct then tokenize_check content else mret []);
  let sems := if run_semantic ct then SemanticCheck.semantic_check content else [] in
  mret (evaluate content g ++ (ast_hit <$> toks) ++ (semantic_hit <$> sems)).

(** [RuleEngine::infer_category] *)
Definition category_of_words `{ShellEnv} (words : list string) : option string :=
  match skip_assignments words with
  | [] => None
  | bin :: _ =>
      let b := basename bin in
      if mem_str b ["rm"; "sh"; "bash"; "zsh"; "dd"; "diskutil"; "mkfs"; "chmod"; "chown";
                    "kill"; "killall"] then Some "shell_exec"
      else if mem_str b ["curl"; "wget"; "scp"; "rsync"; "nc"; "ssh"; "ftp"; "sftp"]
      then Some "network"
      else if existsb (fun '(w, next) =>
                (String.eqb w ">" || String.eqb w ">>") && is_sensitive_path next)
              (zip words (tail words))
      then Some "file_write" else None
  end.
Definition infer_category `{ShellEnv} (content : string) : string :=
  let trimmed := trim content in
  if str_empty trimmed then "unknown"
  else default "read" (first_some (fun seg =>
         match shell_split seg with
         | Err _ => None
         | Ok words => category_of_words words
         end) (split_chain trimmed)).

End WithRegex.
End Rules.

(** ** Properties of the rule engine *)
Module RulesSpec.
Import Tokenizer Rules.

(** The three keys of a hit in one number: the comparison of the tuples is the
    comparison of the scores. *)
Definition score2 (h : RuleHit) : nat := severity (r_action (rule h)) * 4 + rank (r_risk (rule h)).
Definition score3 (h : RuleHit) : nat := score2 h * 4 + stage_rank (h_stage h).

Lemma stage_rank_bound s : stage_rank s <= 3.
Proof. destruct s; cbn; lia. Qed.
Lemma stage_rank_inj s t : stage_rank s = stage_rank t -> s = t.
Proof. destruct s, t; by cbn. Qed.
Lemma then_cmp_score a b c d : c <= 3 -> d <= 3 ->
  then_cmp (Nat.compare a b) (Nat.compare c d) = Nat.compare (a * 4 + c) (b * 4 + d).
Proof.
  intros Hc Hd. destruct (Nat.compare_spec a b) as [->|?|?]; cbn [then_cmp]; symmetry.
  - destruct (Nat.compare_spec c d) as [->|?|?];
      [apply Nat.compare_eq_iff|apply Nat.compare_lt_iff|apply Nat.compare_gt_iff]; lia.
  - apply Nat.compare_lt_iff. lia.
  - apply Nat.compare_gt_iff. lia.
Qed.
Lemma hit_cmp2_score a b : hit_cmp2 a b = by_key score2 a b.
Proof. apply then_cmp_score; auto with guard. Qed.
Lemma hit_cmp3_score a b : hit_cmp3 a b = by_key score3 a b.
Proof. unfold hit_cmp3. rewrite hit_cmp2_score. apply then_cmp_score; apply stage_rank_bound. Qed.

Lemma score3_inj a b : score3 a = score3 b ->
  r_action (rule a) = r_action (rule b) /\ r_risk (rule a) = r_risk (rule b) /\
  h_stage a = h_stage b.
Proof.
  unfold score3, score2. intros E.
  pose proof (severity_bound (r_action (rule a))). pose proof (severity_bound (r_action (rule b))).
  pose proof (rank_bound (r_risk (rule a))). pose proof (rank_bound (r_risk (rule b))).
  pose proof (stage_rank_bound (h_stage a)). pose proof (stage_rank_bound (h_stage b)).
  split; [apply severity_inj|split; [apply rank_inj|apply stage_rank_inj]]; lia.
Qed.

Lemma top_hit_spec hits m : max_by hit_cmp3 hits = Some m ->
  In m hits /\ forall h, In h hits -> score3 h <= score3 m.
Proof. rewrite (max_by_ext _ _ _ hit_cmp3_score). apply max_by_spec. Qed.
Lemma top_hit_exists hits : hits <> [] -> exists m, max_by hit_cmp3 hits = Some m.
Proof. destruct hits; [done|]. intros _. by eexists. Qed.

(** The fields of a verdict that come from a hit. *)
Definition verdict_of (h : RuleHit) (epoch : Z) : GuardVerdict :=
  mkVerdict (r_action (rule h)) (r_risk (rule h)) (r_reason (rule h)) (h_stage h)
    (bool_decide (r_risk (rule h) = L3)) None
    (bool_decide (r_risk (rule h) = L3) || bool_decide (r_risk (rule h) = L4)
     || bool_decide (r_action (rule h) = Block)) None epoch 30 (name (rule h)) None.

(** The verdict of a non-empty list of hits is the verdict of one of its hits,
    and no hit of the list is above that one in the lexicographic order of
    action severity, then risk rank, then stage (regex above AST above semantic). *)
Theorem verdict_from_hits_lexmax hits epoch (Hne : hits <> []) :
  exists m, In m hits /\ verdict_from_hits hits epoch = verdict_of m epoch /\
    forall h, In h hits ->
      severity (r_action (rule h)) < severity (r_action (rule m)) \/
      r_action (rule h) = r_action (rule m) /\
      (rank (r_risk (rule h)) < rank (r_risk (rule m)) \/
       r_risk (rule h) = r_risk (rule m) /\ stage_rank (h_stage h) <= stage_rank (h_stage m)).
Proof.
  destruct (top_hit_exists hits Hne) as [m Hm]. exists m.
  destruct (top_hit_spec _ _ Hm) as [Hin Hmax]. split; [done|]. split.
  { unfold verdict_from_hits. by rewrite Hm. }
  intros h Hh. specialize (Hmax h Hh). unfold score3, score2 in Hmax.
  pose proof (stage_rank_bound (h_stage h)). pose proof (stage_rank_bound (h_stage m)).
  pose proof (rank_bound (r_risk (rule h))). pose proof (rank_bound (r_risk (rule m))).
  destruct (lt_eq_lt_dec (severity (r_action (rule h))) (severity (r_action (rule m))))
    as [[?|E]|?]; [by left| |lia].
  right. split; [by apply severity_inj|].
  destruct (lt_eq_lt_dec (rank (r_risk (rule h))) (rank (r_risk (rule m)))) as [[?|E']|?];
    [by left| |lia].
  right. split; [by apply rank_inj|lia].
Qed.
Definition sample_hit (a : SafetyAction) (r : RiskLevel) : RuleHit :=
  mkHit (mkRule "r" "p" Regex a r "why" Command) "m" Regex.
Lemma verdict_from_hits_lexmax_witness :
  exists m, In m [sample_hit Redact L4; sample_hit Block L2] /\
    verdict_from_hits [sample_hit Redact L4; sample_hit Block L2] 7 = verdict_of m 7.
Proof.
  destruct (verdict_from_hits_lexmax [sample_hit Redact L4; sample_hit Block L2] 7)
    as (m & Hm & Hv & _); [done|]. by exists m.
Defined.

(** The decision does not depend on the order of the hits: two lists with the
    same hits give the same action, risk, stage, approval and seatbelt flags. *)
Theorem verdict_from_hits_perm hits1 hits2 epoch (Hp : hits1 ≡ₚ hits2) :
  let v1 := verdict_from_hits hits1 epoch in
  let v2 := verdict_from_hits hits2 epoch in
  action v1 = action v2 /\ risk_level v1 = risk_level v2 /\ stage v1 = stage v2 /\
  requires_approval v1 = requires_approval v2 /\ seatbelt_required v1 = seatbelt_required v2.
Proof.
  cbv zeta. unfold verdict_from_hits. destruct (max_by hit_cmp3 hits1) as [m1|] eqn:E1.
  - destruct (top_hit_exists hits2) as [m2 E2].
    { intros ->. symmetry in Hp. apply Permutation_nil in Hp. by subst. }
    rewrite E2. destruct (top_hit_spec _ _ E1) as [Hi1 Hm1], (top_hit_spec _ _ E2) as [Hi2 Hm2].
    destruct (score3_inj m1 m2) as (-> & -> & ->); [|done].
    apply Nat.le_antisymm; [apply Hm2; by rewrite <- Hp|apply Hm1; by rewrite Hp].
  - destruct hits1; [|done]. apply Permutation_nil in Hp. by subst.
Qed.
Lemma verdict_from_hits_perm_witness :
  action (verdict_from_hits [sample_hit Redact L4; sample_hit Block L2] 7) = Block /\
  action (verdict_from_hits [sample_hit Redact L4; sample_hit Block L2] 7)
  = action (verdict_from_hits [sample_hit Block L2; sample_hit Redact L4] 7).
Proof.
  split; [reflexivity|].
  apply (verdict_from_hits_perm [sample_hit Redact L4; sample_hit Block L2]
           [sample_hit Block L2; sample_hit Redact L4] 7). constructor.
Defined.

Lemma block_dominates hits epoch h : In h hits -> r_action (rule h) = Block ->
  let v := verdict_from_hits hits epoch in
  action v = Block /\ seatbelt_required v = true /\ rank (r_risk (rule h)) <= rank (risk_level v) /\
  requires_approval v = bool_decide (risk_level v = L3).
Proof.
  intros Hh Hb. destruct (top_hit_exists hits) as [m Hm]; [by intros ->|].
  cbv zeta. unfold verdict_from_hits. rewrite Hm. cbn.
  destruct (top_hit_spec _ _ Hm) as [_ Hmax]. specialize (Hmax h Hh).
  unfold score3, score2 in Hmax. rewrite Hb in Hmax. cbn [severity] in Hmax.
  pose proof (stage_rank_bound (h_stage h)). pose proof (stage_rank_bound (h_stage m)).
  pose proof (rank_bound (r_risk (rule h))). pose proof (rank_bound (r_risk (rule m))).
  assert (E : r_action (rule m) = Block).
  { apply severity_inj. pose proof (severity_bound (r_action (rule m))). cbn [severity]. lia. }
  rewrite E in *. rewrite (bool_decide_true (Block = Block)), orb_true_r by done.
  cbn [severity] in Hmax. repeat split; lia.
Qed.

Section EngineSpec.
Context `{RegexEngine}.

(** The compiled expression at an index is the one of the rule at that index. *)
Definition aligned (r : GuardRule) (c : option regex) : Prop :=
  exists re, c = Some re /\ regex_new (pattern r) = Ok re.
Definition engine_wf (g : Inner) : Prop := Forall2 aligned (rules g) (compiled g).

Inductive mutation : Type :=
| MAdd (r : GuardRule)
| MUpdate (n : string) (r : GuardRule)
| MRemove (n : string).
Definition apply_mutation (m : mutation) (g : Inner) : Inner * result RuleError Z :=
  match m with
  | MAdd r => add r g
  | MUpdate n r => update n r g
  | MRemove n => remove n g
  end.
(** The states an engine goes through, with the number of mutations that
    succeeded. *)
Inductive reachable (rs : RuleSet) : nat -> Inner -> Prop :=
| reach_new g : engine_new rs = Ok g -> reachable rs 0 g
| reach_ok k g m e : reachable rs k g -> (apply_mutation m g).2 = Ok e ->
    reachable rs (S k) (apply_mutation m g).1
| reach_err k g m e : reachable rs k g -> (apply_mutation m g).2 = Err e ->
    reachable rs k (apply_mutation m g).1.

Lemma compile_ok p re : compile p = Ok re <-> regex_new p = Ok re.
Proof. unfold compile. destruct (regex_new p); cbn; split; congruence. Qed.

Lemma compile_all_aligned rs cs : compile_all rs = Ok cs -> Forall2 aligned rs cs.
Proof.
  revert cs. induction rs as [|r rs IH]; cbn; intros cs E; [by injection E as <-|].
  destruct (compile (pattern r)) as [re|] eqn:Hc; [|done]. cbn in E.
  destruct (compile_all rs) as [cs'|]; [|done]. injection E as <-.
  constructor; [|by apply IH]. exists re. split; [done|by apply compile_ok].
Qed.
Lemma Forall2_delete_idx {A B} (P : A -> B -> Prop) i la lb :
  Forall2 P la lb -> Forall2 P (delete i la) (delete i lb).
Proof.
  intros HF. revert i. induction HF as [|a b la lb Hab HF IH]; intros [|i]; cbn; try constructor; auto.
Qed.

(** Every mutation keeps the alignment, counts one epoch when it succeeds and
    changes nothing when it fails. *)
Lemma apply_mutation_step m g : engine_wf g ->
  engine_wf (apply_mutation m g).1 /\
  match (apply_mutation m g).2 with
  | Ok e => e = u64_add (epoch g) 1 /\ epoch (apply_mutation m g).1 = e
  | Err _ => (apply_mutation m g).1 = g
  end.
Proof.
  unfold engine_wf. intros Hwf. destruct m as [r|n r|n]; cbn; unfold add, update, remove.
  - destruct (compile (pattern r)) as [re|] eqn:Hc; [|done]. case_match; [done|]. cbn.
    split; [|done]. apply Forall2_app; [done|]. constructor; [|done].
    exists re. split; [done|by apply compile_ok].
  - destruct (compile (pattern r)) as [re|] eqn:Hc; [|done]. case_match; [|done]. cbn.
    split; [|done]. apply Forall2_insert; [done|]. exists re. split; [done|by apply compile_ok].
  - case_match; [|done]. cbn. split; [|done]. by apply Forall2_delete_idx.
Qed.

Lemma reachable_wf rs k g : reachable rs k g -> engine_wf g.
Proof.
  induction 1 as [g E|k g m e _ IH _|k g m e _ IH _]; [|by apply apply_mutation_step..].
  unfold engine_new in E. cbn in E. destruct (compile_all (rs_rules rs)) eqn:Hc; [|done].
  injection E as <-. by apply compile_all_aligned.
Qed.

(** [C23] Along every sequence of rule mutations, successful or not, the compiled
    expression at each index is the compilation of the rule at that index (so
    deleting and replacing rules never misaligns the two vectors), and the epoch
    counts the successful mutations modulo 2^64: a failed one changes nothing. *)
Theorem reachable_invariant rs k g (Hfits : u64_fits (rs_epoch rs)) (Hr : reachable rs k g) :
  engine_wf g /\ epoch g = ((rs_epoch rs + Z.of_nat k) mod 2 ^ 64)%Z.
Proof.
  split; [by eapply reachable_wf|].
  induction Hr as [g E|k g m e Hr IH Hok|k g m e Hr IH Herr].
  - unfold engine_new in E. cbn in E. destruct (compile_all (rs_rules rs)); [|done].
    injection E as <-. cbn. rewrite Z.add_0_r, Z.mod_small; [done|exact Hfits].
  - pose proof (apply_mutation_step m g (reachable_wf _ _ _ Hr)) as [_ Hs]. rewrite Hok in Hs.
    destruct Hs as [-> ->]. rewrite IH. unfold u64_add. rewrite Zplus_mod_idemp_l.
    f_equal. lia.
  - pose proof (apply_mutation_step m g (reachable_wf _ _ _ Hr)) as [_ Hs]. rewrite Herr in Hs.
    by rewrite Hs.
Qed.

Lemma evaluate_in content g h : engine_wf g ->
  In h (evaluate content g) <->
  exists r re m, In r (rules g) /\ r_stage r = Regex /\ regex_new (pattern r) = Ok re /\
    regex_find re content = Some m /\ h = mkHit r m Regex.
Proof.
  unfold engine_wf, evaluate. generalize (compiled g) as cs. generalize (rules g) as rs.
  induction 1 as [|r c rs cs (re & -> & Hre) HF IH].
  { split; [intros []|intros (?&?&?&[]&_)]. }
  assert (Hone : forall h', eval_rule content (r, Some re) = Some h' <->
    exists m, r_stage r = Regex /\ regex_find re content = Some m /\ h' = mkHit r m Regex).
  { intros h'. unfold eval_rule. case_bool_decide as Hst; cbn.
    - destruct (regex_find re content); cbn; split;
        [intros [= <-]; eauto|intros (?&?&[= <-]& ->); done|done|intros (?&?&?&?); done].
    - split; [done|intros (?&?&_); done]. }
  change (omap (eval_rule content) ((r, Some re) :: zip rs cs)) with
    (match eval_rule content (r, Some re) with
     | Some h => h :: omap (eval_rule content) (zip rs cs)
     | None => omap (eval_rule content) (zip rs cs) end).
  assert (Hsplit : In h (match eval_rule content (r, Some re) with
     | Some h => h :: omap (eval_rule content) (zip rs cs)
     | None => omap (eval_rule content) (zip rs cs) end) <->
     eval_rule content (r, Some re) = Some h \/ In h (omap (eval_rule content) (zip rs cs))).
  { destruct (eval_rule _ _); cbn; split; intros [?|?] || intros ?; auto; simplify_eq; auto. }
  rewrite Hsplit, Hone, IH. split.
  - intros [(m&?&?&?)|(r'&re'&m&?&?)]; [exists r, re, m|exists r', re', m]; cbn; tauto.
  - intros (r'&re'&m&[<-|?]&?&Hr'&?&?); [left; exists m|right; exists r', re', m; tauto].
    rewrite Hre in Hr'. injection Hr' as <-. tauto.
Qed.

Lemma position_lookup n rs i : position n rs = Some i ->
  exists r, rs !! i = Some r /\ name r = n.
Proof.
  revert i. induction rs as [|r rs IH]; [done|]. cbn. intros i.
  destruct (String.eqb_spec (name r) n) as [E|]; [intros [= <-]; by exists r|].
  destruct (position n rs) as [j|]; [|done]. intros [= <-]. by apply IH.
Qed.
Lemma NoDup_delete_idx {A} i (l : list A) : NoDup l -> NoDup (delete i l).
Proof. intros Hn. eapply sublist_NoDup; [exact Hn|apply sublist_delete]. Qed.
Lemma in_insert {A} (i : nat) (x y : A) (l : list A) : y ∈ <[i := x]> l -> y = x \/ y ∈ l.
Proof.
  revert i. induction l as [|z l IH]; intros [|i]; cbn; [by auto..| |];
    rewrite !elem_of_cons; [tauto|]. intros [?|?%IH]; tauto.
Qed.
Lemma NoDup_insert_fresh {A} (i : nat) (x : A) (l : list A) : NoDup l -> ~ In x l -> NoDup (<[i := x]> l).
Proof.
  revert i. induction l as [|y l IH]; intros i Hnd Hx; [done|].
  apply NoDup_cons in Hnd as [Hy Hnd]. destruct i as [|i]; cbn; apply NoDup_cons.
  - split; [|done]. rewrite list_elem_of_In. intros ?. apply Hx. by right.
  - split; [|apply IH; [done|intros ?; apply Hx; by right]].
    intros [->|?]%in_insert; [|done]. apply Hx. by left.
Qed.
End EngineSpec.

(** A sample engine: an expression is its literal text, and a lone parenthesis
    does not compile. *)
#[local] Instance sample_regex : RegexEngine := {|
  regex := string;
  regex_new p := if String.eqb p "(" then Err "unclosed group" else Ok p;
  regex_find re content := if str_contains re content then Some re else None;
  captures_iter _ _ := []
|}.
#[local] Instance sample_grammars : Grammars := {|
  parse_python _ := None; parse_javascript _ := None;
  parse_typescript _ := None; parse_rust _ := None
|}.
Definition sample_rule (n p : string) (a : SafetyAction) (r : RiskLevel) : GuardRule :=
  mkRule n p Regex a r "why" Command.
Definition sample_engine : Inner :=
  mkInner [sample_rule "a" "rm -rf" Block L4; sample_rule "b" "curl" Preview L2]
    [Some "rm -rf"; Some "curl"] 1.
Definition sample_set : RuleSet := engine_list sample_engine.

Lemma reachable_invariant_witness :
  epoch (remove "a" sample_engine).1 = 2%Z /\ engine_wf (remove "a" sample_engine).1 /\
  epoch (remove "a" sample_engine).1 = ((1 + Z.of_nat 1) mod 2 ^ 64)%Z.
Proof.
  split; [reflexivity|].
  apply (reachable_invariant sample_set 1 (apply_mutation (MRemove "a") sample_engine).1).
  - unfold u64_fits. cbn. lia.
  - eapply reach_ok; [apply reach_new; reflexivity|reflexivity].
Defined.

(** On any engine reached by a sequence of mutations, stage 1 reports exactly
    the rules of stage [Regex] whose own pattern matches the content, each with
    the text its pattern matched; rules of other stages are never run. *)
Theorem evaluate_reachable `{RegexEngine} rs k g content h (Hr : reachable rs k g) :
  In h (evaluate content g) <->
  exists r re m, In r (rules g) /\ r_stage r = Regex /\ regex_new (pattern r) = Ok re /\
    regex_find re content = Some m /\ h = mkHit r m Regex.
Proof. by eapply evaluate_in, reachable_wf. Qed.
Lemma evaluate_reachable_witness :
  In (mkHit (sample_rule "b" "curl" Preview L2) "curl" Regex)
     (evaluate "curl x" (remove "a" sample_engine).1).
Proof.
  apply (evaluate_reachable sample_set 1 (apply_mutation (MRemove "a") sample_engine).1).
  - eapply reach_ok; [apply reach_new; reflexivity|reflexivity].
  - exists (sample_rule "b" "curl" Preview L2), "curl", "curl". repeat split. by left.
Defined.

(** One blocking hit, wherever it is in the list, blocks: the verdict is Block
    with the seatbelt required and a risk not below the hit's; approval is asked
    exactly at L3, so a blocking hit at L4 can never be approved. *)
Theorem block_hit_blocks hits epoch h (Hh : In h hits) (Hb : r_action (rule h) = Block) :
  let v := verdict_from_hits hits epoch in
  action v = Block /\ seatbelt_required v = true /\
  rank (r_risk (rule h)) <= rank (risk_level v) /\
  (requires_approval v = true <-> risk_level v = L3) /\
  (r_risk (rule h) = L4 -> risk_level v = L4 /\ requires_approval v = false).
Proof.
  cbv zeta. pose proof (block_dominates hits epoch h Hh Hb) as (Ha & Hs & Hr & ->).
  repeat split; [done|done|done|apply bool_decide_eq_true|apply bool_decide_eq_true| |];
    rewrite H in Hr; destruct (risk_level _); cbn in Hr; (done || lia).
Qed.
Lemma block_hit_blocks_witness :
  risk_level (verdict_from_hits [sample_hit Block L4; sample_hit Block L3] 1) = L4 /\
  requires_approval (verdict_from_hits [sample_hit Block L4; sample_hit Block L3] 1) = false.
Proof.
  apply (block_hit_blocks [sample_hit Block L4; sample_hit Block L3] 1 (sample_hit Block L4));
    [by left|reflexivity|reflexivity].
Defined.

(** The content type selects the stages: the regex hits are always in front,
    AST hits are there only for shell content (one per tokenizer hit) and semantic
    hits only for code (one per scanner hit). *)
Theorem evaluate_full_typed_stages `{RegexEngine, ShellEnv, Grammars} content ct g hits
  (Hok : evaluate_full_typed content ct g = Ok hits) :
  (forall h, h_stage h = Regex -> In h hits <-> In h (evaluate content g)) /\
  (forall h, In h hits -> h_stage h = Ast ->
     ct = Shell /\ exists toks t, tokenize_check content = Ok toks /\ In t toks /\ h = ast_hit t) /\
  (forall h, In h hits -> h_stage h = Semantic ->
     ct = Code /\ exists s, In s (SemanticCheck.semantic_check content) /\ h = semantic_hit s).
Proof.
  assert (Hreg : forall h, In h (evaluate content g) -> h_stage h = Regex).
  { intros h. unfold evaluate. rewrite <- list_elem_of_In, list_elem_of_omap.
    intros ([r c] & _ & E). unfold eval_rule in E. case_match; [done|].
    destruct c; [|done]. cbn in E. destruct (regex_find _ _); [|done]. by injection E as <-. }
  unfold evaluate_full_typed in Hok. cbn in Hok.
  destruct (if run_tokenizer ct then _ else _) as [toks|] eqn:Ht; [|done].
  cbn in Hok. injection Hok as <-. unfold run_tokenizer, run_semantic in *.
  repeat setoid_rewrite in_app_iff.
  unfold fmap, list_fmap. repeat setoid_rewrite in_map_iff.
  split; [|split; intros h Hh Hst].
  - intros h Hst. split; [|by left]. intros [Hh|[(t & <- & _)|(s & <- & _)]]; done.
  - destruct Hh as [Hh|[(t & <- & Hin)|(s & <- & _)]]; [by rewrite Hreg in Hst| |done].
    case_bool_decide; [|by injection Ht as <-]. split; [done|]. by exists toks, t.
  - destruct Hh as [Hh|[(t & <- & _)|(s & <- & Hin)]]; [by rewrite Hreg in Hst|done|].
    case_bool_decide; [|done]. split; [done|]. by exists s.
Qed.
Lemma evaluate_full_typed_stages_witness :
  exists hits, evaluate_full_typed (H0 := sample_env) "nc evil" Shell sample_engine = Ok hits /\
    exists h, In h hits /\ h_stage h = Ast /\
    exists toks t, tokenize_check (H := sample_env) "nc evil" = Ok toks /\ In t toks /\ h = ast_hit t.
Proof.
  eexists. split; [vm_compute; reflexivity|].
  eexists. split; [by left|]. split; [reflexivity|].
  match goal with |- exists toks t, _ /\ _ /\ ?h = _ =>
    destruct (evaluate_full_typed_stages (H0 := sample_env) "nc evil" Shell sample_engine [h])
      as (_ & Hast & _); [vm_compute; reflexivity|];
    apply (Hast h); [by left|reflexivity] end.
Defined.

(** Shell content on which the tokenizer reports a hit is blocked whatever the
    rules are, at L4 when the hit names a sensitive target and at L3 or above
    otherwise; rule mutations cannot switch this stage off. *)
Theorem shell_token_hit_blocks `{RegexEngine, ShellEnv, Grammars} content g toks t
  (Hok : tokenize_check content = Ok toks) (Ht : In t toks) :
  exists hits, evaluate_full_typed content Shell g = Ok hits /\
    let v := verdict_from_hits hits (epoch g) in
    action v = Block /\ seatbelt_required v = true /\
    (if sensitive_target t then 3 else 2) <= rank (risk_level v).
Proof.
  eexists. split.
  { unfold evaluate_full_typed. cbn. rewrite Hok. cbn. reflexivity. }
  destruct (block_dominates (evaluate content g ++ (ast_hit <$> toks) ++ (semantic_hit <$> []))
              (epoch g) (ast_hit t)) as (? & ? & Hr & _); [|done|].
  - apply in_or_app. right. apply in_or_app. left. by apply in_map.
  - repeat split; [done|done|]. etrans; [|exact Hr]. cbn. by destruct (sensitive_target t).
Qed.
Lemma shell_token_hit_blocks_witness :
  exists hits, evaluate_full_typed (H0 := sample_env) "rm -r ~/.ssh" Shell sample_engine = Ok hits /\
    action (verdict_from_hits hits 1) = Block /\
    3 <= rank (risk_level (verdict_from_hits hits 1)).
Proof.
  destruct (tokenize_check (H := sample_env) "rm -r ~/.ssh") as [[|t toks]|] eqn:E;
    [exfalso; revert E; vm_compute; discriminate| |exfalso; revert E; vm_compute; discriminate].
  destruct (shell_token_hit_blocks (H0 := sample_env) "rm -r ~/.ssh" sample_engine (t :: toks) t)
    as (hits & Hh & Hv & _ & Hr); [exact E|by left|].
  exists hits. split; [exact Hh|]. split; [exact Hv|].
  assert (sensitive_target t = true) as Hs by (revert E; vm_compute; intros [= <- _]; reflexivity).
  rewrite Hs in Hr. exact Hr.
Defined.

(** The verdict's risk is the risk of the hit with the most severe action, not
    the maximum of the risks: with a Redact rule at L4 and a Block rule at L2 both
    hit, the verdict is L2. *)
Theorem verdict_risk_not_max :
  exists hits, (exists h, In h hits /\ r_risk (rule h) = L4) /\
    risk_level (verdict_from_hits hits 1) = L2 /\
    action (verdict_from_hits hits 1) = Block.
Proof.
  exists [sample_hit Redact L4; sample_hit Block L2].
  split; [eexists; split; [by left|done]|done].
Qed.

Definition names_unique `{RegexEngine} (g : Inner) : Prop := NoDup (name <$> rules g).

(** Adding keeps rule names unique and so does removing; an update keeps them
    unique when the new name is the old one or is not in use. *)
Lemma names_unique_preserved `{RegexEngine} g m (Hu : names_unique g)
  (Hnew : match m with
          | MUpdate n r => name r = n \/ ~ In (name r) (name <$> rules g)
          | _ => True
          end) :
  names_unique (apply_mutation m g).1.
Proof.
  unfold names_unique in *. destruct m as [r|n r|n]; cbn; unfold add, update, remove.
  - case_match; [|done]. destruct (existsb _ _) eqn:E; [done|]. cbn.
    rewrite fmap_app, NoDup_app. split; [done|]. split; [|apply NoDup_singleton].
    intros x (y & -> & Hy)%list_elem_of_fmap Hx. apply list_elem_of_singleton in Hx.
    rewrite existsb_false in E. specialize (E y). apply list_elem_of_In in Hy.
    specialize (E Hy). by rewrite Hx, String.eqb_refl in E.
  - case_match; [|done]. destruct (position n (rules g)) as [idx|] eqn:E; [|done]. cbn.
    rewrite list_fmap_insert. apply position_lookup in E as (x & Hx & Hn).
    destruct Hnew as [Hn'|Hnew].
    + rewrite list_insert_id; [done|]. rewrite list_lookup_fmap, Hx. cbn. by rewrite Hn, Hn'.
    + by apply NoDup_insert_fresh.
  - case_match; [|done]. cbn. rewrite list_fmap_delete. by apply NoDup_delete_idx.
Qed.

(** An update to a name another rule already has is accepted and leaves two
    rules of that name, which [add] refuses. *)
Theorem update_can_duplicate :
  exists g e, update "a" (sample_rule "b" "x" Block L4) sample_engine = (g, Ok e) /\
    ~ names_unique g.
Proof.
  do 2 eexists. split; [reflexivity|]. unfold names_unique. cbn.
  intros Hnd. apply NoDup_cons in Hnd as [Hn _]. apply Hn. left.
Qed.
End RulesSpec.
