(* ===== verification/Redact.v ===== *)
(** * Redaction (fg-redact/src/lib.rs)

    The table of sensitive patterns, their validators (Luhn, GB 11643, IPv4,
    boundaries), the collection of non-overlapping spans and the rewriting of the
    content, irreversible and reversible.  Panics of slicing are values of the
    model, so that their absence is a theorem. *)
From Stdlib Require Import Zify ZifyNat.
From S2P Require Import Prelude Core Pattern.

Module Redact.

Definition DQ : string := String (ascii_of_nat 34) "".

Definition CREDENTIAL_PATTERNS : list string :=
  ["private_key"; "jwt"; "oauth_bearer"; "api_key"; "conn_string"; "password"; "secret_kv";
   "env_kv"; "netrc"; "aws_secret"].

Inductive ValidatorTag : Type := TagNone | Ipv4 | AwsSecret | Luhn | Phone | IdCard.

(** [ValidatorFn] *)
Definition ValidatorFn : Type := string -> nat -> nat -> result panic bool.

(** *** Validators *)

Definition is_ascii_digit (a : ascii) : bool := in_range a 48 57.
Definition is_ascii_alphanumeric (a : ascii) : bool :=
  in_range a 48 57 || in_range a 65 90 || in_range a 97 122.

(** [bytes[i]] *)
Definition byte_at (i : nat) (s : string) : result panic ascii :=
  ok_or Panic (bytes s !! i).
(** The two boundary tests every validator starts with: the byte before and the
    byte after the span are not in the class [p]. *)
Definition bounded_by (p : ascii -> bool) (content : string) (start finish : nat)
  : result panic bool :=
  before ← (if Nat.ltb 0 start then b ← byte_at (start - 1) content; mret (p b) else mret false);
  if before : bool then mret false
  else after ← (if Nat.ltb finish (String.length content)
                then b ← byte_at finish content; mret (p b) else mret false);
       mret (negb after).

(** The ASCII digit of a character. *)
Definition char_digit (c : list ascii) : option nat :=
  match c with
  | [a] => if is_ascii_digit a then Some (nat_of_ascii a - 48) else None
  | _ => None
  end.

(** The loop of [valid_luhn] over the digits from the last one. *)
Fixpoint luhn_loop (rev_digits : list nat) (double : bool) (sum : nat) : nat :=
  match rev_digits with
  | [] => sum
  | d :: ds =>
      let x := if double then d * 2 else d in
      let x := if Nat.ltb 9 x then x - 9 else x in
      luhn_loop ds (negb double) (sum + x)
  end.
Definition luhn_ok (digits : list nat) : bool :=
  if Nat.ltb (length digits) 13 || Nat.ltb 19 (length digits) then false
  else Nat.eqb (luhn_loop (reverse digits) false 0 mod 10) 0.
Definition valid_luhn : ValidatorFn := fun content start finish =>
  ok ← bounded_by is_ascii_digit content start finish;
  if negb ok then mret false
  else s ← slice start finish content;
       mret (luhn_ok (omap char_digit (utf8_chars (bytes s)))).

Definition WEIGHTS : list nat := [7; 9; 10; 5; 8; 4; 2; 1; 6; 3; 7; 9; 10; 5; 8; 4; 2].
Definition CHECK : list ascii := ["1"; "0"; "X"; "9"; "8"; "7"; "6"; "5"; "4"; "3"; "2"]%char.
(** The loop over the first 17 characters; [None] is the early [return false]. *)
Fixpoint id_sum (cs : list (list ascii)) (ws : list nat) (sum : nat) : option nat :=
  match cs, ws with
  | c :: cs', w :: ws' => d ← char_digit c; id_sum cs' ws' (sum + d * w)
  | _, _ => Some sum
  end.
Definition id_last (c : list ascii) : option ascii :=
  match c with
  | [a] => if is_ascii_digit a then Some a
           else if Ascii.eqb a "X" || Ascii.eqb a "x" then Some "X"%char else None
  | _ => None
  end.
Definition id_card_ok (chars : list (list ascii)) : bool :=
  if negb (Nat.eqb (length chars) 18) then false
  else match id_sum (take 17 chars) WEIGHTS 0 with
  | None => false
  | Some sum =>
      match chars !! 17, CHECK !! (sum mod 11) with
      | Some last, Some expected =>
          match id_last last with Some actual => Ascii.eqb actual expected | None => false end
      | _, _ => false
      end
  end.
Definition valid_id_card : ValidatorFn := fun content start finish =>
  ok ← bounded_by is_ascii_digit content start finish;
  if negb ok then mret false
  else s ← slice start finish content; mret (id_card_ok (utf8_chars (bytes s))).

Definition is_base64 (b : ascii) : bool :=
  is_ascii_alphanumeric b || Ascii.eqb b "/" || Ascii.eqb b "+" || Ascii.eqb b "=".
Definition aws_secret_ok (s : string) : bool :=
  if negb (Nat.eqb (String.length s) 40) then false
  else Nat.leb 6 (length (remove_dups (bytes s))).
Definition valid_aws_secret : ValidatorFn := fun content start finish =>
  ok ← bounded_by is_base64 content start finish;
  if negb ok then mret false
  else s ← slice start finish content; mret (aws_secret_ok s).

Definition valid_phone : ValidatorFn := bounded_by is_ascii_digit.

(** [parse::<u8>()]: an optional plus sign, then digits, of value at most 255. *)
Fixpoint digits_value (s : string) (acc : nat) : option nat :=
  match s with
  | EmptyString => Some acc
  | String a s' =>
      if is_ascii_digit a then digits_value s' (acc * 10 + (nat_of_ascii a - 48)) else None
  end.
Definition parse_u8 (s : string) : option nat :=
  let digits := default s (strip_prefix "+" s) in
  if str_empty digits then None
  else v ← digits_value digits 0; if Nat.leb v 255 then Some v else None.
Definition valid_ipv4 : ValidatorFn := fun content start finish =>
  ok ← bounded_by (fun b => is_ascii_digit b || Ascii.eqb b ".") content start finish;
  if negb ok then mret false
  else s ← slice start finish content;
       mret (forallb (fun seg => bool_decide (is_Some (parse_u8 seg))) (str_split "." s)).

(** *** The pattern table *)

(** The table of [Redactor::new]: name, expression, validator and its tag, in order of
    priority. *)
Definition defs : list (string * string * option ValidatorFn * ValidatorTag) :=
  [("private_key", "-----BEGIN [A-Z ]+PRIVATE KEY-----[\s\S]*?-----END [A-Z ]+PRIVATE KEY-----|ssh-(?:rsa|ed25519|ecdsa) [A-Za-z0-9+/=]+|" +:+ DQ +:+ "(?:d|p|q|k|n)" +:+ DQ +:+ ":\s*" +:+ DQ +:+ "[^" +:+ DQ +:+ "]+" +:+ DQ,
    None, TagNone);
   ("jwt", "eyJ[A-Za-z0-9_-]+\.eyJ[A-Za-z0-9_-]+\.[A-Za-z0-9_-]+",
    None, TagNone);
   ("oauth_bearer", "(?i)bearer\s+([A-Za-z0-9_\-\.=~:/+]+)",
    None, TagNone);
   ("api_key", "(?i)(sk-[A-Za-z0-9]{20,}|sk-ant-[A-Za-z0-9_-]{20,}|AKIA[0-9A-Z]{16}|AIza[0-9A-Za-z_-]{35}|gh[pousr]_[A-Za-z0-9]{36}|glpat-[A-Za-z0-9_-]{20}|xox[baprs]-[A-Za-z0-9-]{10,}|sk_live_[A-Za-z0-9]{24,}|sk_test_[A-Za-z0-9]{24,}|ya29\.[A-Za-z0-9_\-]{20,}|api[_-]?key\s*[:=]\s*(\S+))",
    None, TagNone);
   ("conn_string", "(?i)(?:postgres(?:ql)?|mongodb(?:\+srv)?|redis|mysql|amqp|ftp|sftp)://[^/\s:@]+:([^@/\s]+)@",
    None, TagNone);
   ("password", "(?i)(?:password|passwd|pwd)\s*[" +:+ DQ +:+ "']?\s*[:=]\s*[" +:+ DQ +:+ "']?([^\s" +:+ DQ +:+ "']+)",
    None, TagNone);
   ("secret_kv", "(?i)(?:secret|token|access[_-]?token)[" +:+ DQ +:+ "']?\s*[:=]\s*[" +:+ DQ +:+ "']?([^\s" +:+ DQ +:+ "']{6,})",
    None, TagNone);
   ("env_kv", "(?m)^[A-Z][A-Z0-9_]{2,}=(\S+)",
    None, TagNone);
   ("netrc", "(?i)password\s+(\S+)",
    None, TagNone);
   ("email", "[a-zA-Z0-9._%+-]+@[a-zA-Z0-9.-]+\.[a-zA-Z]{2,}",
    None, TagNone);
   ("ipv4", "\b(?:[0-9]{1,3}\.){3}[0-9]{1,3}\b",
    Some valid_ipv4, Ipv4);
   ("aws_secret", "[A-Za-z0-9/+=]{40}",
    Some valid_aws_secret, AwsSecret);
   ("id_number", "\d{17}[\dXx]",
    Some valid_id_card, IdCard);
   ("credit_card", "\d{13,19}",
    Some valid_luhn, Luhn);
   ("phone", "(?:\+86|0086)?1[3-9]\d{9}",
    Some valid_phone, Phone)].

Section WithRegex.
Context `{RegexEngine}.

Record PatternDef : Type := mkPattern {
  p_name : string;
  p_re : regex;
  p_validator : option ValidatorFn;
  validator_tag : ValidatorTag;
  pattern_str : string
}.
(** [Redactor]: its patterns. *)
Definition Redactor : Type := list PatternDef.

(** [Redactor::new]; the error is the message of the regex error. *)
Fixpoint build_patterns (ds : list (string * string * option ValidatorFn * ValidatorTag))
  : result string Redactor :=
  match ds with
  | [] => mret []
  | (n, pat, v, tag) :: ds' =>
      re ← regex_new pat;
      ps ← build_patterns ds';
      mret (mkPattern n re v tag pat :: ps)
  end.
Definition redactor_new : result string Redactor := build_patterns defs.

(** [pattern_defs] *)
Definition pattern_defs (rd : Redactor) : list (string * string * ValidatorTag) :=
  (fun pd => (p_name pd, pattern_str pd, validator_tag pd)) <$> rd.

Record AcceptedMatch : Type := mkAccepted {
  m_start : nat;
  m_end : nat;
  name_tag : string;
  value : string
}.

(** [last4] *)
Definition last4 (s : string) : string :=
  let chars := utf8_chars (bytes s) in
  let n := length chars in
  if Nat.leb n 4 then s else of_bytes (mjoin (drop (n - 4) chars)).

(** Text of a group of a match. *)
Definition group_text (content : string) (g : span) : string := str_slice g.1 g.2 content.
(** Group 1 when it is there and not empty. *)
Definition value_group (content : string) (c : Captures) : option span :=
  match cap_get 1 c with
  | Some v => if str_empty (group_text content v) then None else Some v
  | None => None
  end.

(** [split_value] *)
Definition split_value (content : string) (c : Captures) : result panic (string * string) :=
  let full := match cap_get 0 c with Some m => group_text content m | None => "" end in
  if str_empty full then mret ("", "")
  else match value_group content c, cap_get 0 c with
  | Some v, Some m =>
      prefix ← slice_to (v.1 - m.1) full;
      mret (prefix, group_text content v)
  | _, _ => mret ("", full)
  end.

(** The candidate of one match: the span that would be redacted and its value;
    [None] when the loop goes on with the next match. *)
Definition candidate (content : string) (pd : PatternDef) (c : Captures)
  : result panic (option AcceptedMatch) :=
  match cap_get 0 c with
  | None => mret None
  | Some m =>
      pv ← split_value content c;
      let '(s, e) := default m (value_group content c) in
      if Nat.leb e s then mret None
      else
        ok ← (match p_validator pd with Some check => check content s e | None => mret true end);
        mret (if ok : bool then Some (mkAccepted s e (p_name pd) pv.2) else None)
  end.
Definition overlaps (a b : AcceptedMatch) : bool :=
  Nat.ltb (m_start b) (m_end a) && Nat.ltb (m_start a) (m_end b).

(** [collect_spans_filtered]: the loop over the matches of a pattern, then the
    loop over the patterns. *)
Fixpoint collect_captures (content : string) (pd : PatternDef) (cs : list Captures)
    (accepted : list AcceptedMatch) : result panic (list AcceptedMatch) :=
  match cs with
  | [] => mret accepted
  | c :: cs' =>
      cand ← candidate content pd c;
      collect_captures content pd cs'
        (match cand with
         | None => accepted
         | Some m => if existsb (fun a => overlaps a m) accepted then accepted
                     else accepted ++ [m]
         end)
  end.
Fixpoint collect_patterns (content : string) (pred : string -> bool) (pds : list PatternDef)
    (accepted : list AcceptedMatch) : result panic (list AcceptedMatch) :=
  match pds with
  | [] => mret accepted
  | pd :: pds' =>
      if negb (pred (p_name pd)) then collect_patterns content pred pds' accepted
      else acc ← collect_captures content pd (captures_iter (p_re pd) content) accepted;
           collect_patterns content pred pds' acc
  end.
Definition collect_spans_filtered (rd : Redactor) (content : string) (pred : string -> bool) :=
  collect_patterns content pred rd [].
Definition collect_spans (rd : Redactor) (content : string) :=
  collect_spans_filtered rd content (fun _ => true).

(** [sort_by_key(|m| Reverse(m.start))] and [sort_by_key(|m| m.start)] *)
Definition start_desc (a b : AcceptedMatch) : Prop := m_start b <= m_start a.
Definition start_asc (a b : AcceptedMatch) : Prop := m_start a <= m_start b.
#[global] Instance start_desc_dec : RelDecision start_desc.
Proof. intros a b. apply le_dec. Defined.
#[global] Instance start_asc_dec : RelDecision start_asc.
Proof. intros a b. apply le_dec. Defined.

(** The rewriting loop: [out.replace_range(m.start..m.end, &repl)]. *)
Fixpoint rewrite_all (repl : AcceptedMatch -> string) (ordered : list AcceptedMatch)
    (out : string) : result panic string :=
  match ordered with
  | [] => mret out
  | m :: ms => out' ← replace_range (m_start m) (m_end m) (repl m) out;
               rewrite_all repl ms out'
  end.
Definition tag_repl (m : AcceptedMatch) : string := "[REDACTED:" +:+ name_tag m +:+ "]".
Definition last4_repl (m : AcceptedMatch) : string :=
  "[REDACTED:" +:+ name_tag m +:+ "#" +:+ last4 (value m) +:+ "]".

(** [redact], [redact_with_patterns], [redact_credentials], [redact_counted],
    [redact_irreversible] *)
Definition redact (rd : Redactor) (content : string) : result panic string :=
  spans ← collect_spans rd content;
  match spans with
  | [] => mret content
  | _ => rewrite_all tag_repl (merge_sort start_desc spans) content
  end.
Definition redact_with_patterns (rd : Redactor) (content : string) (names : list string)
  : result panic string :=
  spans ← collect_spans_filtered rd content (fun n => mem_str n names);
  match spans with
  | [] => mret content
  | _ => rewrite_all tag_repl (merge_sort start_desc spans) content
  end.
Definition redact_credentials (rd : Redactor) (content : string) : result panic string :=
  redact_with_patterns rd content CREDENTIAL_PATTERNS.
Definition redact_counted (rd : Redactor) (content : string) : result panic (string * nat) :=
  spans ← collect_spans rd content;
  let total := length spans in
  match spans with
  | [] => mret (content, 0)
  | _ => out ← rewrite_all tag_repl (merge_sort start_desc spans) content; mret (out, total)
  end.
Definition redact_irreversible (rd : Redactor) (content : string) : result panic string :=
  spans ← collect_spans rd content;
  match spans with
  | [] => mret content
  | _ => rewrite_all last4_repl (merge_sort start_desc spans) content
  end.

Record ReversibleMatch : Type := mkReversible {
  placeholder : string;
  token_id : string;
  original : string
}.

(** [redact_reversible]; [fresh] are the identifiers [Uuid::new_v4().simple()]
    returns, in order. *)
Definition placeholder_of (m : AcceptedMatch) (token_id : string) : string :=
  "[REDACTED:" +:+ name_tag m +:+ "#" +:+ token_id +:+ "]".
Definition reversible_of (fresh : nat -> string) (i : nat) (m : AcceptedMatch)
  : ReversibleMatch :=
  let token_id := "tok_" +:+ fresh i in
  mkReversible (placeholder_of m token_id) token_id (value m).
(** The sort key of an index, [by_pos[i].start]; every index sorted is in range. *)
Definition start_at (by_pos : list AcceptedMatch) (i : nat) : nat :=
  from_option m_start 0 (by_pos !! i).
Definition idx_desc (by_pos : list AcceptedMatch) (i j : nat) : Prop :=
  start_at by_pos j <= start_at by_pos i.
#[global] Instance idx_desc_dec by_pos : RelDecision (idx_desc by_pos).
Proof. intros i j. apply le_dec. Defined.
Fixpoint rewrite_indexed (by_pos : list AcceptedMatch) (matches : list ReversibleMatch)
    (idx : list nat) (out : string) : result panic string :=
  match idx with
  | [] => mret out
  | i :: idx' =>
      m ← ok_or Panic (by_pos !! i);
      r ← ok_or Panic (matches !! i);
      out' ← replace_range (m_start m) (m_end m) (placeholder_of m (token_id r)) out;
      rewrite_indexed by_pos matches idx' out'
  end.
Definition redact_reversible (fresh : nat -> string) (rd : Redactor) (content : string)
  : result panic (string * list ReversibleMatch) :=
  spans ← collect_spans rd content;
  match spans with
  | [] => mret (content, [])
  | _ =>
      let by_pos := merge_sort start_asc spans in
      let matches := imap (reversible_of fresh) by_pos in
      let idx := merge_sort (idx_desc by_pos) (seq 0 (length by_pos)) in
      out ← rewrite_indexed by_pos matches idx content;
      mret (out, matches)
  end.

(** [has_sensitive]: [any] over the patterns and their matches. *)
Definition sensitive_capture (content : string) (pd : PatternDef) (c : Captures)
  : result panic bool :=
  match cap_get 0 c with
  | None => mret false
  | Some m =>
      let '(s, e) := default m (value_group content c) in
      if Nat.leb e s then mret false
      else match p_validator pd with Some check => check content s e | None => mret true end
  end.
Fixpoint any_m {A} (f : A -> result panic bool) (l : list A) : result panic bool :=
  match l with
  | [] => mret false
  | a :: l' => b ← f a; if b : bool then mret true else any_m f l'
  end.
Definition has_sensitive (rd : Redactor) (content : string) : result panic bool :=
  any_m (fun pd => any_m (sensitive_capture content pd) (captures_iter (p_re pd) content)) rd.

(** [extract_placeholders]; the [expect] on the static expression is a panic. *)
Definition PLACEHOLDER_RE : string := "\[REDACTED:([a-z_]+)#(tok_[0-9a-f]+)\]".
Definition extract_placeholders (content : string) : result panic (list (string * string)) :=
  re ← map_err (fun _ => Panic) (regex_new PLACEHOLDER_RE);
  mret (omap (fun c =>
          k ← cap_get 1 c; t ← cap_get 2 c;
          Some (group_text content k, group_text content t))
        (captures_iter re content)).

End WithRegex.
End Redact.

(** ** Properties of redaction *)
Module RedactSpec.
Import Redact.

(** *** Strongly sorted lists *)

Lemma reverse_in {A} (x : A) l : x ∈ reverse l -> x ∈ l.
Proof. intros Hx%elem_of_reverse. by rewrite reverse_involutive in Hx. Qed.
Lemma SS_reverse {A} (R : relation A) l : StronglySorted R l -> StronglySorted (flip R) (reverse l).
Proof.
  induction 1 as [|a l Hs IH Hf]; [constructor|]. rewrite reverse_cons.
  apply StronglySorted_app_2; [|done|by repeat constructor].
  intros x y Hx ->%list_elem_of_singleton. rewrite Forall_forall in Hf.
  apply Hf. by apply reverse_in.
Qed.
Lemma SS_perm_sym {A} (R : relation A) l k : (forall a b, R a b -> R b a) ->
  l ≡ₚ k -> StronglySorted R l -> StronglySorted R k.
Proof.
  intros Hsym. induction 1 as [|x l k Hp IH|x y l|l1 l2 l3 _ IH1 _ IH2]; auto.
  - rewrite !StronglySorted_cons. intros [Hf Hs]. split; [by rewrite <- Hp|auto].
  - rewrite !StronglySorted_cons, !Forall_cons. intros [[? ?] [? ?]]. auto.
Qed.
Lemma SS_conj {A} (R S : relation A) l :
  StronglySorted R l -> StronglySorted S l -> StronglySorted (fun a b => R a b /\ S a b) l.
Proof.
  induction l as [|a l IH]; [constructor|]. rewrite !StronglySorted_cons.
  intros [HR HRl] [HS HSl]. split; [by apply Forall_and|auto].
Qed.
Lemma SS_impl_in {A} (R S : relation A) l :
  (forall a b, a ∈ l -> b ∈ l -> R a b -> S a b) -> StronglySorted R l -> StronglySorted S l.
Proof.
  intros Himp Hs. induction Hs as [|a l Hs IH Hf]; constructor.
  - apply IH. intros x y Hx Hy. apply Himp; by right.
  - rewrite Forall_forall in *. intros x Hx. apply Himp; [by left|by right|auto].
Qed.

(** *** The reference: the content rebuilt from left to right *)

(** [pos] is where the last span ended; [ms] are the spans to come, in order. *)
Fixpoint rebuild_go (repl : AcceptedMatch -> string) (pos : nat) (ms : list AcceptedMatch)
    (l : list ascii) : list ascii :=
  match ms with
  | [] => drop pos l
  | m :: ms' => take (m_start m - pos) (drop pos l) ++ bytes (repl m)
                ++ rebuild_go repl (m_end m) ms' l
  end.
Definition rebuild (repl : AcceptedMatch -> string) (ms : list AcceptedMatch) (s : string)
  : string := of_bytes (rebuild_go repl 0 ms (bytes s)).

(** A span of [content] that can be replaced, with the text it covers. *)
Definition good (content : string) (m : AcceptedMatch) : Prop :=
  span_ok content (m_start m, m_end m) /\ m_start m < m_end m /\
  value m = str_slice (m_start m) (m_end m) content.
Definition before (a b : AcceptedMatch) : Prop := m_end a <= m_start b.
Definition disjoint_spans (a b : AcceptedMatch) : Prop := overlaps a b = false.

(** The replacement texts all start with a bracket, so that a span ending where
    another starts stays on a character boundary. *)
Definition repl_ok (repl : AcceptedMatch -> string) : Prop :=
  forall m, exists s, repl m = String "[" s.

Lemma disjoint_sym a b : disjoint_spans a b -> disjoint_spans b a.
Proof.
  unfold disjoint_spans, overlaps. rewrite !andb_false_iff, !Nat.ltb_ge. tauto.
Qed.
Lemma before_of_disjoint content a b : good content a -> good content b ->
  disjoint_spans a b -> m_start a <= m_start b -> before a b.
Proof.
  intros (_ & Ha & _) (_ & Hb & _). unfold disjoint_spans, overlaps, before.
  rewrite andb_false_iff, !Nat.ltb_ge. lia.
Qed.

(** What the fold from the last span to the first produces. *)
Lemma rewrite_all_app repl l1 l2 out :
  rewrite_all repl (l1 ++ l2) out = (out' ← rewrite_all repl l1 out; rewrite_all repl l2 out').
Proof.
  revert out. induction l1 as [|m l1 IH]; intros out; [done|]. cbn.
  destruct (replace_range _ _ _ _); cbn; [apply IH|done].
Qed.

Lemma boundary_by_drop n (s : string) : n <= String.length s ->
  (forall a l, drop n (bytes s) = a :: l -> is_continuation a = false) ->
  is_char_boundary n s = true.
Proof.
  intros Hn Hd. apply is_char_boundary_spec. split; [done|]. intros a Ha.
  apply (Hd a (drop (S n) (bytes s))). by apply drop_S.
Qed.
Lemma boundary_drop n s a l : is_char_boundary n s = true ->
  drop n (bytes s) = a :: l -> is_continuation a = false.
Proof.
  intros [_ Hb]%is_char_boundary_spec Hd. apply Hb.
  by rewrite <- (Nat.add_0_r n), <- lookup_drop, Hd.
Qed.

Lemma rebuild_head repl pos ms content a l : repl_ok repl ->
  is_char_boundary pos content = true -> Forall (fun m => pos <= m_start m) ms ->
  rebuild_go repl pos ms (bytes content) = a :: l -> is_continuation a = false.
Proof.
  intros Hrepl Hb Hge. destruct ms as [|m ms]; cbn; [by apply boundary_drop|].
  apply Forall_cons in Hge as [Hm _]. destruct (Hrepl m) as [r ->].
  destruct (m_start m - pos); cbn; [by intros [= <- _]|].
  destruct (drop pos (bytes content)) as [|b k] eqn:E; cbn; [by intros [= <- _]|].
  intros [= <- _]. by eapply boundary_drop.
Qed.

Section Rewriting.
Context (content : string) (repl : AcceptedMatch -> string) (Hrepl : repl_ok repl).
#[local] Set Default Proof Using "All".

Lemma rewrite_all_reverse ms pos : pos <= String.length content ->
  Forall (good content) ms -> StronglySorted before ms -> Forall (fun m => pos <= m_start m) ms ->
  exists out, rewrite_all repl (reverse ms) content = Ok out /\
    take pos (bytes out) = take pos (bytes content) /\ pos <= String.length out /\
    drop pos (bytes out) = rebuild_go repl pos ms (bytes content).
Proof.
  revert pos. induction ms as [|m ms IH]; intros pos Hpos Hg Hs Hge.
  { exists content. done. }
  apply Forall_cons in Hg as [Hm Hg]. apply StronglySorted_cons in Hs as [Hbf Hs].
  apply Forall_cons in Hge as [Hpm _]. destruct Hm as ((H1 & H2 & H3 & H4) & Hlt & _). cbn [fst snd] in H1, H2, H3, H4.
  destruct (IH (m_end m)) as (out & Hout & Ht & Hl & Hd); [done..|].
  rewrite reverse_cons, rewrite_all_app, Hout. cbn.
  assert (Hs' : is_char_boundary (m_start m) out = true).
  { apply is_char_boundary_spec. split; [lia|]. intros a Ha.
    apply is_char_boundary_spec in H3 as [_ H3]. apply H3.
    rewrite <- (lookup_take_lt _ (m_end m)) by lia. rewrite <- Ht.
    by rewrite lookup_take_lt by lia. }
  assert (He' : is_char_boundary (m_end m) out = true).
  { apply boundary_by_drop; [done|]. intros a l. rewrite Hd. by apply rebuild_head. }
  unfold replace_range. rewrite (proj2 (Nat.leb_le _ _)), Hs', He' by lia. cbn.
  assert (Hts : take (m_start m) (bytes out) = take (m_start m) (bytes content)).
  { rewrite <- (Nat.min_l (m_start m) (m_end m)) by lia. by rewrite <- !take_take, Ht. }
  eexists. split; [done|]. unfold str_take, str_drop.
  rewrite !bytes_app, !bytes_of_bytes, Hts, Hd, <- length_bytes.
  rewrite <- length_bytes in *. 
  assert (Hlen : length (take (m_start m) (bytes content)) = m_start m)
    by (rewrite length_take; lia).
  split; [|split].
  - rewrite take_app_le by lia. by rewrite take_take, Nat.min_l by lia.
  - rewrite !bytes_app, !bytes_of_bytes, length_app, Hlen. lia.
  - rewrite drop_app_le by lia. f_equal. rewrite skipn_firstn_comm. done.
Qed.
End Rewriting.

(** *** Validators never panic on a span of the content *)

Definition total_validator (v : ValidatorFn) : Prop :=
  forall content s e, span_ok content (s, e) -> s < e -> exists b, v content s e = Ok b.

Lemma byte_at_ok i s : i < String.length s -> exists a, byte_at i s = Ok a.
Proof.
  rewrite <- length_bytes. intros [a Ha]%lookup_lt_is_Some. exists a.
  unfold byte_at. by rewrite Ha.
Qed.
Lemma bounded_by_total p : total_validator (bounded_by p).
Proof.
  intros content s e (H1 & H2 & _ & _) Hlt. cbn [fst snd] in *. unfold bounded_by.
  assert (Hb : exists b, (if Nat.ltb 0 s then b ← byte_at (s - 1) content; mret (p b)
                          else mret false) = Ok b).
  { destruct (Nat.ltb_spec 0 s); [|by eexists].
    destruct (byte_at_ok (s - 1) content) as [a ->]; [lia|]. eexists. reflexivity. }
  destruct Hb as [b ->]. cbn [mbind result_bind]. destruct b; [by eexists|].
  destruct (Nat.ltb_spec e (String.length content)); [|eexists; reflexivity].
  destruct (byte_at_ok e content) as [a ->]; [lia|]. eexists. reflexivity.
Qed.
Lemma sliced_validator_total p (k : string -> bool) : total_validator (fun content s e =>
  ok ← bounded_by p content s e;
  if negb ok then mret false else t ← slice s e content; mret (k t)).
Proof.
  intros content s e Hok Hlt. destruct (bounded_by_total p content s e Hok Hlt) as [b ->]. cbn.
  destruct b; [|by eexists]. cbn.
  pose proof (slice_ok content (s, e) Hok) as Hs. cbn [fst snd] in Hs. rewrite Hs.
  eexists. reflexivity.
Qed.
#[local] Hint Resolve bounded_by_total sliced_validator_total : guard.

Section WithLaws.
Context `{RegexLaws}.

Definition redactor_wf (rd : Redactor) : Prop :=
  forall pd v, In pd rd -> p_validator pd = Some v -> total_validator v.

Lemma build_patterns_wf ds rd : build_patterns ds = Ok rd ->
  Forall (fun d => forall v, d.1.2 = Some v -> total_validator v) ds -> redactor_wf rd.
Proof.
  revert rd. induction ds as [|[[[n pat] v] tag] ds IH]; cbn; intros rd E Hf;
    [injection E as <-; intros ? ? []|].
  destruct (regex_new pat); [|done]. cbn in E. destruct (build_patterns ds) as [ps|]; [|done].
  injection E as <-. apply Forall_cons in Hf as [Hv Hf].
  intros pd w [<-|Hin] Hw; [by apply Hv|by eapply IH].
Qed.
Lemma redactor_new_wf rd : redactor_new = Ok rd -> redactor_wf rd.
Proof.
  intros E. eapply build_patterns_wf; [exact E|].
  repeat constructor; cbn; intros v [= <-].
  - exact (sliced_validator_total _ _).
  - exact (sliced_validator_total _ aws_secret_ok).
  - exact (sliced_validator_total _ (fun s => id_card_ok (utf8_chars (bytes s)))).
  - exact (sliced_validator_total _ (fun s => luhn_ok (omap char_digit (utf8_chars (bytes s))))).
  - apply bounded_by_total.
Qed.

Lemma str_slice_empty i j s : j <= String.length s -> i <= j ->
  str_empty (str_slice i j s) = true <-> j <= i.
Proof.
  intros Hj Hij. pose proof (length_str_slice i j s Hj) as Hl.
  destruct (str_slice i j s); cbn in *; split; (done || lia).
Qed.

#[local] Set Default Proof Using "All".
(** The span a match proposes. *)
Lemma value_group_ok re content c m : In c (captures_iter re content) ->
  cap_get 0 c = Some m -> span_ok content (default m (value_group content c)).
Proof.
  intros Hc Hm. destruct (captures_group0 re content c Hc) as (m' & Hm' & Hok).
  rewrite Hm in Hm'. injection Hm' as <-. unfold value_group.
  destruct (cap_get 1 c) as [g|] eqn:Hg; [|done]. case_match; [done|].
  by destruct (captures_group re content c 1 m g Hc Hm Hg) as [? _].
Qed.

Lemma split_value_ok re content c m : In c (captures_iter re content) ->
  cap_get 0 c = Some m -> let g := default m (value_group content c) in
  exists p v, split_value content c = Ok (p, v) /\
    (g.1 < g.2 -> v = str_slice g.1 g.2 content).
Proof.
  intros Hc Hm. destruct (captures_group0 re content c Hc) as (m' & Hm' & Hok).
  rewrite Hm in Hm'. injection Hm' as <-. unfold split_value. rewrite Hm.
  destruct (str_empty (group_text content m)) eqn:Hemp.
  { do 2 eexists. split; [done|]. unfold value_group. destruct Hok as (? & ? & _ & _).
    apply str_slice_empty in Hemp; [|lia..].
    destruct (cap_get 1 c) as [g|] eqn:Hg; [case_match|]; cbn; [lia| |lia].
    destruct (captures_group re content c 1 m _ Hc Hm Hg) as (_ & ? & ?). lia. }
  destruct (value_group content c) as [g|] eqn:Hv; cbn; [|by do 2 eexists].
  unfold value_group in Hv. destruct (cap_get 1 c) as [g'|] eqn:Hg; [|done].
  case_match; [done|]. injection Hv as ->.
  destruct (captures_group re content c 1 m _ Hc Hm Hg) as ((? & ? & Hb & ?) & ? & ?).
  destruct Hok as (? & ? & ? & ?).
  unfold slice_to. rewrite (proj2 (is_char_boundary_spec _ _)); [by do 2 eexists|].
  unfold group_text. rewrite length_str_slice by lia. split; [lia|]. intros a.
  unfold str_slice. rewrite bytes_of_bytes. intros Ha.
  apply is_char_boundary_spec in Hb as [_ Hb]. apply Hb.
  rewrite lookup_take in Ha. case_decide; [|done]. rewrite lookup_drop in Ha.
  rewrite <- Ha. f_equal. lia.
Qed.

(** A candidate that passes its validator: what the loop would accept. *)
Lemma candidate_ok re content pd c : In c (captures_iter re content) ->
  (forall v, p_validator pd = Some v -> total_validator v) ->
  exists o, candidate content pd c = Ok o /\
    (forall m, o = Some m -> good content m /\ name_tag m = p_name pd) /\
    sensitive_capture content pd c = Ok (match o with Some _ => true | None => false end).
Proof.
  intros Hc Hv. unfold candidate, sensitive_capture.
  destruct (captures_group0 re content c Hc) as (m & Hm & _). rewrite Hm.
  destruct (split_value_ok re content c m Hc Hm) as (p & v & -> & Hval).
  pose proof (value_group_ok re content c m Hc Hm) as Hok. cbn.
  destruct (default m (value_group content c)) as [s e]. cbn in Hval.
  destruct (Nat.leb_spec e s); [by eexists|].
  assert (exists b, match p_validator pd with
                    | Some check => check content s e
                    | None => mret true
                    end = Ok b) as [b ->].
  { destruct (p_validator pd) as [check|]; [by apply (Hv check)|by eexists]. }
  cbn. eexists. split; [done|]. destruct b; (split; [|done]); [|done].
  intros m' [= <-]. split; [|done]. split; [done|]. split; [done|]. cbn. auto.
Qed.

(** *** What is collected *)

Definition spans_wf (content : string) (acc : list AcceptedMatch) : Prop :=
  Forall (good content) acc /\ StronglySorted disjoint_spans acc.
Definition covered (acc : list AcceptedMatch) (m : AcceptedMatch) : Prop :=
  exists a, In a acc /\ overlaps a m = true.
(** [m] is proposed by a match of a selected pattern and passes its validator. *)
Definition is_candidate (rd : Redactor) (pred : string -> bool) (content : string)
    (m : AcceptedMatch) : Prop :=
  exists pd c, In pd rd /\ pred (p_name pd) = true /\
    In c (captures_iter (p_re pd) content) /\ candidate content pd c = Ok (Some m).

Lemma good_overlaps_self content m : good content m -> overlaps m m = true.
Proof.
  intros (_ & Hlt & _). unfold overlaps. apply andb_true_iff. split; by apply Nat.ltb_lt.
Qed.
Lemma covered_app acc t m : covered acc m -> covered (acc ++ t) m.
Proof. intros (a & Ha & Ho). exists a. split; [apply in_or_app; auto|done]. Qed.

(** Accepting one candidate. *)
Definition accept_one (acc : list AcceptedMatch) (o : option AcceptedMatch)
  : list AcceptedMatch :=
  match o with
  | None => acc
  | Some m => if existsb (fun a => overlaps a m) acc then acc else acc ++ [m]
  end.
Lemma accept_one_spec content acc o : spans_wf content acc ->
  (forall m, o = Some m -> good content m) ->
  spans_wf content (accept_one acc o) /\
  (exists t, accept_one acc o = acc ++ t /\ forall m, In m t -> o = Some m) /\
  (forall m, o = Some m -> covered (accept_one acc o) m).
Proof.
  intros [Hg Hd] Ho. destruct o as [m|]; cbn.
  2: { split; [done|]. split; [exists []; by rewrite app_nil_r|done]. }
  specialize (Ho m eq_refl). destruct (existsb _ acc) eqn:E.
  - split; [done|]. split; [exists []; by rewrite app_nil_r|]. intros m' [= <-].
    apply existsb_exists in E as (a & Ha & Hov). by exists a.
  - split; [|split].
    + split; [by apply Forall_app_2; [|constructor]|].
      apply StronglySorted_app_2; [|done|by repeat constructor].
      intros a b Ha%list_elem_of_In ->%list_elem_of_singleton.
      rewrite existsb_false in E. by apply E.
    + exists [m]. split; [done|]. by intros m' [->|[]].
    + intros m' [= <-]. exists m. split; [apply in_or_app; right; by left|].
      by eapply good_overlaps_self.
Qed.

Lemma collect_captures_spec content pd cs acc :
  (forall c, In c cs -> In c (captures_iter (p_re pd) content)) ->
  (forall v, p_validator pd = Some v -> total_validator v) -> spans_wf content acc ->
  exists t, collect_captures content pd cs acc = Ok (acc ++ t) /\ spans_wf content (acc ++ t) /\
    (forall m, In m t -> exists c, In c cs /\ candidate content pd c = Ok (Some m)) /\
    (forall c m, In c cs -> candidate content pd c = Ok (Some m) -> covered (acc ++ t) m).
Proof.
  intros Hcs Hv. revert acc. induction cs as [|c cs IH]; intros acc Hwf.
  { exists []. rewrite app_nil_r. split; [done|]. split; [done|]. split; [intros m []|intros c m []]. }
  cbn [collect_captures].
  destruct (candidate_ok (p_re pd) content pd c) as (o & Ho & Hgood & _); [by apply Hcs; left|done|].
  rewrite Ho. cbn [mbind result_bind]. fold (accept_one acc o).
  destruct (accept_one_spec content acc o Hwf) as (Hwf' & (t1 & Ht1 & Hin1) & Hcov);
    [intros m Hm; by apply Hgood|].
  destruct (IH (fun c' Hc' => Hcs c' (or_intror Hc')) _ Hwf') as (t2 & Ht2 & Hwf2 & Hin2 & Hcov2).
  rewrite Ht1, <- app_assoc in *. exists (t1 ++ t2). split; [done|]. split; [done|]. split.
  - intros m [Hm|Hm]%in_app_or.
    + exists c. split; [by left|]. by rewrite Ho, (Hin1 m Hm).
    + destruct (Hin2 m Hm) as (c' & ? & ?). exists c'. split; [by right|done].
  - intros c' m [<-|Hc'] Hm; [|by eapply Hcov2]. rewrite Ho in Hm. injection Hm as ->.
    rewrite app_assoc. apply covered_app. by apply Hcov.
Qed.

Lemma collect_patterns_spec content pred pds acc : redactor_wf pds -> spans_wf content acc ->
  exists t, collect_patterns content pred pds acc = Ok (acc ++ t) /\ spans_wf content (acc ++ t) /\
    (forall m, In m t -> is_candidate pds pred content m) /\
    (forall m, is_candidate pds pred content m -> covered (acc ++ t) m).
Proof.
  revert acc. induction pds as [|pd pds IH]; intros acc Hrd Hwf.
  { exists []. rewrite app_nil_r. split; [done|]. split; [done|]. split; [intros m []|].
    by intros m (? & ? & [] & _). }
  assert (Hrd' : redactor_wf pds) by (intros p v Hp; apply Hrd; by right).
  cbn [collect_patterns]. destruct (pred (p_name pd)) eqn:Hp; cbn [negb].
  - destruct (collect_captures_spec content pd (captures_iter (p_re pd) content) acc)
      as (t1 & -> & Hwf1 & Hin1 & Hcov1); [done|intros v; apply Hrd; by left|done|].
    cbn [mbind result_bind].
    destruct (IH _ Hrd' Hwf1) as (t2 & -> & Hwf2 & Hin2 & Hcov2). rewrite <- app_assoc in *.
    exists (t1 ++ t2). split; [done|]. split; [done|]. split.
    + intros m [(c & ? & ?)%Hin1|(q & c & ? & ?)%Hin2]%in_app_or;
        [exists pd, c; cbn; tauto|exists q, c; cbn; tauto].
    + intros m (q & c & [<-|Hq] & Hpq & Hc & Hm); [|apply Hcov2; by exists q, c].
      rewrite app_assoc. apply covered_app. by eapply Hcov1.
  - destruct (IH acc Hrd' Hwf) as (t & -> & Hwf' & Hin & Hcov).
    exists t. split; [done|]. split; [done|]. split.
    + intros m (q & c & ? & ?)%Hin. exists q, c. cbn. tauto.
    + intros m (q & c & [<-|Hq] & Hpq & Hc & Hm); [by rewrite Hp in Hpq|].
      apply Hcov. by exists q, c.
Qed.

Lemma collect_spec rd content pred : redactor_wf rd ->
  exists spans, collect_spans_filtered rd content pred = Ok spans /\ spans_wf content spans /\
    (forall m, In m spans -> is_candidate rd pred content m) /\
    (forall m, is_candidate rd pred content m -> covered spans m).
Proof.
  intros Hrd. destruct (collect_patterns_spec content pred rd []) as (t & ? & ? & ? & ?);
    [done|split; constructor|]. by exists t.
Qed.

Lemma is_candidate_tag rd pred content m : redactor_wf rd -> is_candidate rd pred content m ->
  pred (name_tag m) = true /\ In (name_tag m) (p_name <$> rd).
Proof.
  intros Hrd (pd & c & Hpd & Hp & Hc & Hm).
  destruct (candidate_ok (p_re pd) content pd c Hc) as (o & Ho & Hgood & _); [intros v; by apply Hrd|].
  rewrite Hm in Ho. injection Ho as <-. destruct (Hgood m eq_refl) as [_ ->].
  split; [done|]. by apply in_map.
Qed.

(** *** Rewriting the collected spans *)

Lemma sorted_before R `{!RelDecision R, !Transitive R, !Total R} content spans :
  spans_wf content spans ->
  StronglySorted R (merge_sort R spans) /\ StronglySorted disjoint_spans (merge_sort R spans) /\
  Forall (good content) (merge_sort R spans).
Proof using.
  intros [Hg Hd]. split; [by apply StronglySorted_merge_sort|]. split.
  - eapply SS_perm_sym; [apply disjoint_sym|symmetry; apply merge_sort_Permutation|done].
  - by rewrite merge_sort_Permutation.
Qed.

#[local] Instance start_asc_trans : Transitive start_asc.
Proof using. intros a b c. unfold start_asc. lia. Qed.
#[local] Instance start_asc_total : Total start_asc.
Proof using. intros a b. unfold start_asc. lia. Qed.
#[local] Instance start_desc_trans : Transitive start_desc.
Proof using. intros a b c. unfold start_desc. lia. Qed.
#[local] Instance start_desc_total : Total start_desc.
Proof using. intros a b. unfold start_desc. lia. Qed.

Lemma before_antisym content a b : good content a -> good content b -> before a b -> before b a ->
  a = b.
Proof using. intros (_ & ? & _) (_ & ? & _). unfold before. lia. Qed.

Lemma asc_before content spans : spans_wf content spans ->
  StronglySorted before (merge_sort start_asc spans).
Proof using.
  intros Hwf. destruct (sorted_before start_asc content spans Hwf) as (Hs & Hd & Hg).
  eapply SS_impl_in; [|exact (SS_conj _ _ _ Hs Hd)]. rewrite Forall_forall in Hg.
  intros a b Ha Hb [Hab Hdis]. eapply before_of_disjoint; eauto.
Qed.
Lemma desc_is_reverse content spans : spans_wf content spans ->
  merge_sort start_desc spans = reverse (merge_sort start_asc spans).
Proof using.
  intros Hwf. destruct (sorted_before start_desc content spans Hwf) as (Hs & Hd & Hg).
  destruct (sorted_before start_asc content spans Hwf) as (_ & _ & Hg').
  rewrite Forall_forall in Hg, Hg'.
  apply (StronglySorted_unique_strong (flip before)).
  - intros a b Ha Hb%reverse_in H1 H2.
    apply (before_antisym content); [by apply Hg| |exact H2|exact H1].
    by apply Hg'.
  - eapply SS_impl_in; [|exact (SS_conj _ _ _ Hs Hd)].
    intros a b Ha Hb [Hab Hdis]. unfold flip.
    apply (before_of_disjoint content); [by apply Hg|by apply Hg|by apply disjoint_sym|done].
  - apply SS_reverse. by eapply asc_before.
  - by rewrite reverse_Permutation, !merge_sort_Permutation.
Qed.

Lemma rewrite_sorted repl content spans : repl_ok repl -> spans_wf content spans ->
  rewrite_all repl (merge_sort start_desc spans) content
  = Ok (rebuild repl (merge_sort start_asc spans) content).
Proof using.
  intros Hrepl Hwf. rewrite (desc_is_reverse content) by done.
  destruct (sorted_before start_asc content spans Hwf) as (_ & _ & Hg).
  destruct (rewrite_all_reverse content repl Hrepl (merge_sort start_asc spans) 0)
    as (out & -> & _ & _ & Hd); [lia|done|by eapply asc_before|apply Forall_true; lia|].
  unfold rebuild. rewrite <- Hd. by rewrite drop_0, of_bytes_bytes.
Qed.

Lemma rebuild_value_go content ms pos : pos <= String.length content ->
  Forall (good content) ms -> StronglySorted before ms -> Forall (fun m => pos <= m_start m) ms ->
  rebuild_go value pos ms (bytes content) = drop pos (bytes content).
Proof using.
  revert pos. induction ms as [|m ms IH]; intros pos Hpos Hg Hs Hge; [done|]. cbn.
  apply Forall_cons in Hg as [((H1 & H2 & _ & _) & Hlt & Hv) Hg].
  apply StronglySorted_cons in Hs as [Hbf Hs]. apply Forall_cons in Hge as [Hpm _].
  cbn [fst snd] in *. rewrite IH by done. rewrite Hv. unfold str_slice. rewrite bytes_of_bytes.
  assert (E : drop (m_end m) (bytes content)
              = drop (m_end m - m_start m) (drop (m_start m) (bytes content)))
    by (rewrite drop_drop; f_equal; lia).
  rewrite E, take_drop.
  assert (E' : drop (m_start m) (bytes content)
               = drop (m_start m - pos) (drop pos (bytes content)))
    by (rewrite drop_drop; f_equal; lia).
  by rewrite E', take_drop.
Qed.
(** Putting the values back gives the content. *)
Lemma rebuild_value content spans : spans_wf content spans ->
  rebuild value (merge_sort start_asc spans) content = content.
Proof using.
  intros Hwf. destruct (sorted_before start_asc content spans Hwf) as (_ & _ & Hg).
  unfold rebuild. rewrite rebuild_value_go; [by rewrite drop_0, of_bytes_bytes|lia|done| |].
  - by eapply asc_before.
  - apply Forall_true. lia.
Qed.

Lemma tag_repl_ok : repl_ok tag_repl.
Proof using. intros m. by eexists. Qed.
Lemma last4_repl_ok : repl_ok last4_repl.
Proof using. intros m. by eexists. Qed.
Lemma rebuild_nil repl content : rebuild repl (merge_sort start_asc []) content = content.
Proof using. unfold rebuild. cbn. by rewrite drop_0, of_bytes_bytes. Qed.

(** *** Sensitivity test against collection *)

Lemma any_m_spec {A} (f : A -> result panic bool) l :
  (forall a, In a l -> exists b, f a = Ok b) ->
  exists b, any_m f l = Ok b /\ (b = true <-> exists a, In a l /\ f a = Ok true).
Proof using.
  induction l as [|a l IH]; intros Hf; cbn.
  { exists false. split; [done|]. split; [done|intros (? & [] & _)]. }
  destruct (Hf a) as [b Hb]; [by left|]. rewrite Hb. cbn. destruct b.
  { exists true. split; [done|]. split; [|done]. intros _. exists a. split; [by left|done]. }
  destruct IH as (b & -> & Hb'); [intros x Hx; apply Hf; by right|]. exists b. split; [done|].
  rewrite Hb'. split; intros (x & Hx & E); [exists x; split; [by right|done]|].
  destruct Hx as [<-|Hx]; [congruence|by exists x].
Qed.

Lemma has_sensitive_candidate rd content : redactor_wf rd ->
  exists b, has_sensitive rd content = Ok b /\
    (b = true <-> exists m, is_candidate rd (fun _ => true) content m).
Proof.
  intros Hrd. unfold has_sensitive.
  assert (Hin : forall pd, In pd rd -> exists b,
    any_m (sensitive_capture content pd) (captures_iter (p_re pd) content) = Ok b /\
    (b = true <-> exists c m, In c (captures_iter (p_re pd) content) /\
                              candidate content pd c = Ok (Some m))).
  { intros pd Hpd. assert (Hc : forall c, In c (captures_iter (p_re pd) content) ->
      exists o, candidate content pd c = Ok o /\
        sensitive_capture content pd c = Ok (match o with Some _ => true | None => false end)).
    { intros c Hc. destruct (candidate_ok (p_re pd) content pd c Hc) as (o & ? & _ & ?);
        [intros v; by apply Hrd|by exists o]. }
    destruct (any_m_spec (sensitive_capture content pd) (captures_iter (p_re pd) content))
      as (b & Hb & Hiff).
    { intros c Hin. destruct (Hc c Hin) as (o & _ & ?). by eexists. }
    exists b. split; [done|]. rewrite Hiff. split.
    - intros (c & Hin & Hs). destruct (Hc c Hin) as ([m|] & Ho & Ho'); [by exists c, m|congruence].
    - intros (c & m & Hin & Hm). exists c. split; [done|].
      destruct (Hc c Hin) as (o & Ho & Ho'). rewrite Hm in Ho. injection Ho as <-. done. }
  destruct (any_m_spec (fun pd => any_m (sensitive_capture content pd)
              (captures_iter (p_re pd) content)) rd) as (b & Hb & Hiff).
  { intros pd Hpd. destruct (Hin pd Hpd) as (b & ? & _). by exists b. }
  exists b. split; [done|]. rewrite Hiff. split.
  - intros (pd & Hpd & E). destruct (Hin pd Hpd) as (b' & E' & Hb'). rewrite E in E'.
    injection E' as <-. destruct Hb' as [Hb' _]. destruct (Hb' eq_refl) as (c & m & ? & ?).
    by exists m, pd, c.
  - intros (m & pd & c & Hpd & _ & Hc & Hm). exists pd. split; [done|].
    destruct (Hin pd Hpd) as (b' & E' & Hb'). rewrite E'. f_equal. apply Hb'. by exists c, m.
Qed.

(** *** The reversible loop *)

Lemma rewrite_indexed_app by_pos ms l1 l2 out :
  rewrite_indexed by_pos ms (l1 ++ l2) out
  = (out' ← rewrite_indexed by_pos ms l1 out; rewrite_indexed by_pos ms l2 out').
Proof using.
  revert out. induction l1 as [|i l1 IH]; intros out; [done|]. cbn.
  destruct (by_pos !! i); cbn; [|done]. destruct (ms !! i); cbn; [|done].
  destruct (replace_range _ _ _ _); cbn; [apply IH|done].
Qed.

(** The token of a span: the identifier drawn at its position in text order. *)
Definition token_at (fresh : nat -> string) (by_pos : list AcceptedMatch) (m : AcceptedMatch)
  : string := "tok_" +:+ fresh (length (filter (fun a => m_start a < m_start m) by_pos)).
Definition placeholder_repl fresh by_pos (m : AcceptedMatch) : string :=
  placeholder_of m (token_at fresh by_pos m).

Lemma filter_all_false {A} (P : A -> Prop) `{!forall x, Decision (P x)} l :
  Forall (fun x => ~ P x) l -> filter P l = [].
Proof using.
  induction 1 as [|x l Hx _ IH]; [done|]. by rewrite filter_cons_False.
Qed.
Lemma rank_in_order by_pos content i m : Forall (good content) by_pos ->
  StronglySorted before by_pos -> by_pos !! i = Some m ->
  length (filter (fun a => m_start a < m_start m) by_pos) = i.
Proof using.
  revert i. induction by_pos as [|a by_pos IH]; intros i Hg Hs Hi; [done|].
  apply Forall_cons in Hg as [Ha Hg]. apply StronglySorted_cons in Hs as [Hbf Hs].
  destruct i as [|i]; cbn in Hi.
  - injection Hi as ->. rewrite filter_cons_False by lia.
    rewrite filter_all_false; [done|].
    rewrite Forall_forall in Hbf |- *. intros b Hb. specialize (Hbf b Hb).
    destruct Ha as (_ & ? & _). unfold before in Hbf. lia.
  - rewrite filter_cons_True; [cbn; f_equal; by apply IH|].
    rewrite Forall_forall in Hbf. specialize (Hbf m (list_elem_of_lookup_2 _ _ _ Hi)).
    destruct Ha as (_ & ? & _). unfold before in Hbf. lia.
Qed.

Lemma omap_lookup_seq {A} (pre l : list A) :
  omap (fun i => (pre ++ l) !! i) (seq (length pre) (length l)) = l.
Proof using.
  revert pre. induction l as [|a l IH]; intros pre; [done|]. cbn [length seq].
  assert (E : (pre ++ a :: l) !! length pre = Some a) by (by rewrite list_lookup_middle).
  cbn [omap list_omap]. rewrite E. f_equal.
  specialize (IH (pre ++ [a])). rewrite <- app_assoc, length_app in IH. cbn in IH.
  by rewrite Nat.add_1_r in IH.
Qed.

Lemma idx_sorted content by_pos : Forall (good content) by_pos -> StronglySorted before by_pos ->
  merge_sort (idx_desc by_pos) (seq 0 (length by_pos)) = reverse (seq 0 (length by_pos)).
Proof using.
  intros Hg Hs.
  assert (Hmono : forall i j, i < j -> j < length by_pos -> start_at by_pos i < start_at by_pos j).
  { intros i j Hij Hj. destruct (lookup_lt_is_Some_2 by_pos i) as [a Ha]; [lia|].
    destruct (lookup_lt_is_Some_2 by_pos j) as [b Hb]; [lia|].
    unfold start_at. rewrite Ha, Hb. cbn.
    rewrite <- (take_drop (S i) by_pos) in Hs.
    assert (before a b).
    { eapply StronglySorted_app_1_elem_of; [exact Hs| |].
      - apply list_elem_of_lookup_2 with i. rewrite lookup_take. by case_decide; [|lia].
      - apply list_elem_of_lookup_2 with (j - S i). rewrite lookup_drop, <- Hb. f_equal. lia. }
    rewrite Forall_lookup in Hg. destruct (Hg i a Ha) as (_ & ? & _). unfold before in *. lia. }
  assert (Hinr : forall i, i ∈ seq 0 (length by_pos) -> i < length by_pos)
    by (intros i Hi%elem_of_seq; lia).
  apply (StronglySorted_unique_strong (idx_desc by_pos)).
  - intros i j Hi Hj Hij Hji. rewrite merge_sort_Permutation in Hi. apply reverse_in in Hj.
    apply Hinr in Hi, Hj. unfold idx_desc in *.
    destruct (lt_eq_lt_dec i j) as [[Hl|]|Hl]; [|done|]; apply Hmono in Hl; lia.
  - apply StronglySorted_merge_sort; [intros i j k|intros i j]; unfold idx_desc; lia.
  - apply (SS_impl_in (flip lt)).
    + intros i j Hi%reverse_in Hj%reverse_in Hlt. apply Hinr in Hi, Hj.
      unfold flip, idx_desc in *. apply Nat.lt_le_incl, Hmono; lia.
    + apply SS_reverse. clear. generalize 0 as k. induction (length by_pos) as [|n IH]; intros k;
        constructor; [apply IH|]. apply Forall_forall. intros x Hx%elem_of_seq. lia.
  - by rewrite reverse_Permutation, merge_sort_Permutation.
Qed.

Lemma rewrite_indexed_all fresh content by_pos idx out : Forall (good content) by_pos ->
  StronglySorted before by_pos -> Forall (fun i => i < length by_pos) idx ->
  rewrite_indexed by_pos (imap (reversible_of fresh) by_pos) idx out
  = rewrite_all (placeholder_repl fresh by_pos) (omap (fun i => by_pos !! i) idx) out.
Proof using.
  intros Hg Hs Hidx. revert out. induction Hidx as [|i idx Hi _ IH]; intros out; [done|].
  destruct (lookup_lt_is_Some_2 by_pos i Hi) as [m Hm].
  cbn [rewrite_indexed omap list_omap]. rewrite list_lookup_imap, Hm.
  cbn [ok_or mbind result_bind fmap option_fmap option_map rewrite_all].
  assert (E : placeholder_repl fresh by_pos m
              = placeholder_of m (token_id (reversible_of fresh i m))).
  { unfold placeholder_repl, token_at. by rewrite (rank_in_order by_pos content i m). }
  rewrite E. destruct (replace_range _ _ _ _); cbn; [apply IH|done].
Qed.

Lemma reversible_rebuild fresh content spans : spans_wf content spans ->
  let by_pos := merge_sort start_asc spans in
  rewrite_indexed by_pos (imap (reversible_of fresh) by_pos)
    (merge_sort (idx_desc by_pos) (seq 0 (length by_pos))) content
  = Ok (rebuild (placeholder_repl fresh by_pos) by_pos content).
Proof using.
  intros Hwf by_pos. destruct (sorted_before start_asc content spans Hwf) as (_ & _ & Hg).
  pose proof (asc_before content spans Hwf) as Hs. fold by_pos in Hg, Hs.
  rewrite (idx_sorted content), (rewrite_indexed_all fresh content) by
    (done || (apply Forall_forall; intros i Hi%reverse_in%elem_of_seq; lia)).
  assert (E : omap (fun i => by_pos !! i) (reverse (seq 0 (length by_pos))) = reverse by_pos).
  { pose proof (omap_lookup_seq [] by_pos) as Ho. cbn [app length] in Ho.
    transitivity (reverse (omap (fun i => by_pos !! i) (seq 0 (length by_pos)))); [|by rewrite Ho].
    clear. induction (seq 0 (length by_pos)) as [|i l IH]; [done|].
    rewrite reverse_cons, omap_app, IH. cbn [omap list_omap].
    destruct (by_pos !! i); [by rewrite reverse_cons|by rewrite app_nil_r]. }
  rewrite E. rewrite <- (rewrite_sorted _ content spans); [|intros m; by eexists|done].
  by rewrite (desc_is_reverse content).
Qed.

End WithLaws.

(** *** Theorems *)

(** [C9] Redaction never panics and is exact: the spans collected are pairwise
    disjoint, non-empty ranges of the content on character boundaries, each carrying
    the text it covers, and the loop of replacements from the last span to the first
    gives the content rebuilt from left to right with each span replaced by its
    label and every other byte kept; the same holds for the counting variant and for
    the one that keeps the last four characters. *)
Theorem redact_exact `{RegexLaws} rd content (Hnew : redactor_new = Ok rd) :
  exists spans, collect_spans rd content = Ok spans /\ spans_wf content spans /\
    let by_pos := merge_sort start_asc spans in
    redact rd content = Ok (rebuild tag_repl by_pos content) /\
    redact_counted rd content = Ok (rebuild tag_repl by_pos content, length spans) /\
    redact_irreversible rd content = Ok (rebuild last4_repl by_pos content).
Proof.
  destruct (collect_spec rd content (fun _ => true) (redactor_new_wf rd Hnew))
    as (spans & Hc & Hwf & _ & _).
  exists spans. split; [done|]. split; [done|]. cbv zeta.
  unfold redact, redact_counted, redact_irreversible, collect_spans. rewrite Hc. cbn [mbind result_bind].
  rewrite (rewrite_sorted tag_repl), (rewrite_sorted last4_repl) by
    (done || apply tag_repl_ok || apply last4_repl_ok).
  destruct spans as [|m ms]; [by rewrite !rebuild_nil|done].
Qed.

(** [C22] Nothing that a pattern matches and its validator accepts escapes: every such
    candidate overlaps a collected span (so some of it is replaced), and every
    collected span is such a candidate, labelled with its pattern's name. *)
Theorem collect_complete `{RegexLaws} rd content (Hnew : redactor_new = Ok rd) :
  exists spans, collect_spans rd content = Ok spans /\
    (forall m, is_candidate rd (fun _ => true) content m -> covered spans m) /\
    (forall m, In m spans -> is_candidate rd (fun _ => true) content m /\
                             In (name_tag m) (p_name <$> rd)).
Proof.
  pose proof (redactor_new_wf rd Hnew) as Hrd.
  destruct (collect_spec rd content (fun _ => true) Hrd) as (spans & Hc & _ & Hin & Hcov).
  exists spans. split; [done|]. split; [done|]. intros m Hm. split; [by apply Hin|].
  by eapply is_candidate_tag, Hin.
Qed.

(** The single-pass count agrees with the separate sensitivity test: the content
    is sensitive exactly when the number of spans is positive. *)
Theorem counted_iff_sensitive `{RegexLaws} rd content (Hnew : redactor_new = Ok rd) :
  exists out n b, redact_counted rd content = Ok (out, n) /\ has_sensitive rd content = Ok b /\
    (b = true <-> 0 < n).
Proof.
  pose proof (redactor_new_wf rd Hnew) as Hrd.
  destruct (collect_spec rd content (fun _ => true) Hrd) as (spans & Hc & Hwf & Hin & Hcov).
  destruct (has_sensitive_candidate rd content Hrd) as (b & Hb & Hiff).
  do 2 eexists. exists b. split; [|split; [done|]].
  - unfold redact_counted, collect_spans. rewrite Hc. cbn [mbind result_bind].
    pose proof (rewrite_sorted tag_repl content spans tag_repl_ok Hwf) as Hr.
    rewrite Hr. instantiate (1 := length spans).
    instantiate (1 := rebuild tag_repl (merge_sort start_asc spans) content).
    destruct spans; [by rewrite rebuild_nil|done].
  - rewrite Hiff. split.
    + intros (m & (a & Ha & _)%Hcov). destruct spans; [done|cbn; lia].
    + destruct spans as [|m ms]; [cbn; lia|]. intros _. exists m. apply Hin. by left.
Qed.

(** [C38] Reversible redaction: the output is the content with each span replaced by a
    placeholder that carries the token drawn for it in text order, the list returned
    pairs each token with the text it stands for, and putting those texts back in
    place of the spans gives the content again. *)
Theorem redact_reversible_roundtrip `{RegexLaws} fresh rd content (Hnew : redactor_new = Ok rd) :
  exists by_pos,
    redact_reversible fresh rd content
    = Ok (rebuild (placeholder_repl fresh by_pos) by_pos content,
          imap (reversible_of fresh) by_pos) /\
    Forall (good content) by_pos /\ StronglySorted before by_pos /\
    original <$> imap (reversible_of fresh) by_pos = value <$> by_pos /\
    rebuild value by_pos content = content.
Proof.
  destruct (collect_spec rd content (fun _ => true) (redactor_new_wf rd Hnew))
    as (spans & Hc & Hwf & _ & _).
  exists (merge_sort start_asc spans). split.
  - unfold redact_reversible, collect_spans. rewrite Hc. cbn [mbind result_bind].
    rewrite reversible_rebuild by done. cbn [mbind result_bind].
    destruct spans as [|m ms]; [by rewrite rebuild_nil|done].
  - split; [by rewrite merge_sort_Permutation; apply Hwf|]. split; [by eapply asc_before|]. split.
    + apply list_eq. intros i.
      rewrite !list_lookup_fmap, list_lookup_imap. by destruct (_ !! i).
    + by apply rebuild_value.
Qed.

(** The credential subset never touches personal data: every span it replaces has
    the label of a credential pattern, so none is labelled as an e-mail address, an IP
    address, a card, a phone or an identity number. *)
Theorem redact_credentials_scope `{RegexLaws} rd content (Hnew : redactor_new = Ok rd) :
  exists spans, redact_credentials rd content
      = Ok (rebuild tag_repl (merge_sort start_asc spans) content) /\
    spans_wf content spans /\
    Forall (fun m => In (name_tag m) CREDENTIAL_PATTERNS /\
                     ~ In (name_tag m) ["email"; "ipv4"; "credit_card"; "phone"; "id_number"])
      spans.
Proof.
  pose proof (redactor_new_wf rd Hnew) as Hrd.
  destruct (collect_spec rd content (fun n => mem_str n CREDENTIAL_PATTERNS) Hrd)
    as (spans & Hc & Hwf & Hin & _).
  exists spans. split; [|split; [done|]].
  - unfold redact_credentials, redact_with_patterns. rewrite Hc. cbn [mbind result_bind].
    pose proof (rewrite_sorted tag_repl content spans tag_repl_ok Hwf) as Hr.
    rewrite Hr. destruct spans; [by rewrite rebuild_nil|done].
  - apply Forall_forall. intros m Hm%list_elem_of_In%Hin.
    apply is_candidate_tag in Hm as [Hm _]; [|done]. apply mem_str_In in Hm. split; [done|].
    revert Hm. cbn. intuition congruence.
Qed.

(** *** Check digits *)

(** Let [lia] reason on remainders. *)
#[local] Ltac Zify.zify_post_hook ::= Z.to_euclidean_division_equations.

Definition luhn_term (double : bool) (d : nat) : nat :=
  let x := if double then d * 2 else d in if Nat.ltb 9 x then x - 9 else x.
Lemma luhn_loop_cons d l b s : luhn_loop (d :: l) b s = luhn_loop l (negb b) (s + luhn_term b d).
Proof. done. Qed.
Lemma luhn_loop_app l1 l2 b s :
  luhn_loop (l1 ++ l2) b s = luhn_loop l2 (Nat.iter (length l1) negb b) (luhn_loop l1 b s).
Proof.
  revert b s. induction l1 as [|d l1 IH]; intros b s; [done|].
  cbn [app luhn_loop length]. rewrite IH, Nat.iter_succ_r. done.
Qed.
Lemma luhn_loop_acc l b s : luhn_loop l b s = luhn_loop l b 0 + s.
Proof.
  revert b s. induction l as [|d l IH]; intros b s; [done|]. cbn [luhn_loop].
  rewrite IH, (IH _ (0 + _)). lia.
Qed.
Lemma luhn_term_inj b d d' : d <= 9 -> d' <= 9 ->
  luhn_term b d mod 10 = luhn_term b d' mod 10 -> d = d'.
Proof.
  intros Hd Hd'. unfold luhn_term. destruct b; cbv beta iota zeta.
  - destruct (Nat.ltb_spec 9 (d * 2)), (Nat.ltb_spec 9 (d' * 2)); lia.
  - destruct (Nat.ltb_spec 9 d), (Nat.ltb_spec 9 d'); lia.
Qed.

(** The card check detects every single wrong digit: a number accepted by the
    Luhn test is rejected after any one digit is replaced by another. *)
Theorem luhn_single_error (l1 l2 : list nat) (d d' : nat)
  (Hd : d <= 9) (Hd' : d' <= 9) (Hne : d <> d') (Hok : luhn_ok (l1 ++ d :: l2) = true) :
  luhn_ok (l1 ++ d' :: l2) = false.
Proof.
  unfold luhn_ok in *. rewrite !length_app in *. cbn [length] in *.
  destruct (_ || _); [done|]. apply Nat.eqb_eq in Hok. apply Nat.eqb_neq. intros Hok'.
  rewrite !reverse_app, !reverse_cons, <- !app_assoc, !luhn_loop_app in *.
  rewrite !luhn_loop_cons, luhn_loop_acc in Hok, Hok'. cbn [luhn_loop length] in *.
  apply Hne, (luhn_term_inj (Nat.iter (length (reverse l2)) negb false)); [done|done|].
  lia.
Qed.
Lemma luhn_single_error_witness :
  luhn_ok [4;1;1;1;1;1;1;1;1;1;1;1;1;1;1;1] = true /\
  luhn_ok [4;1;1;1;1;1;1;1;1;1;1;7;1;1;1;1] = false.
Proof.
  split; [reflexivity|].
  apply (luhn_single_error [4;1;1;1;1;1;1;1;1;1;1] [1;1;1;1] 1 7); [lia|lia|lia|reflexivity].
Defined.

Lemma id_sum_acc cs ws s k : id_sum cs ws (s + k) = Nat.add k <$> id_sum cs ws s.
Proof.
  revert ws s. induction cs as [|c cs IH]; intros [|w ws] s; cbn; try (f_equal; lia).
  destruct (char_digit c) as [d|]; [|done]. cbn. rewrite <- IH. f_equal. lia.
Qed.
Lemma id_sum_change l1 c c' r ws s d d' sum : length l1 < length ws ->
  char_digit c = Some d -> char_digit c' = Some d' -> id_sum (l1 ++ c :: r) ws s = Some sum ->
  exists w sum', In w ws /\ id_sum (l1 ++ c' :: r) ws s = Some sum' /\
    sum + d' * w = sum' + d * w.
Proof.
  intros Hl Hc Hc'. revert ws s Hl. induction l1 as [|x l1 IH]; intros [|w ws] s Hl; cbn in *; [lia| |lia|].
  - rewrite Hc, Hc'. cbn. intros E. exists w.
    destruct (id_sum r ws s) as [t|] eqn:Et.
    + rewrite !id_sum_acc, Et in *. cbn in *. injection E as <-. eexists. split; [by left|].
      split; [done|]. lia.
    + by rewrite id_sum_acc, Et in E.
  - destruct (char_digit x) as [dx|]; [|done]. cbn. intros E.
    destruct (IH ws _ (proj2 (Nat.succ_lt_mono _ _) Hl) E) as (w' & sum' & ? & ? & ?).
    exists w', sum'. split; [by right|done].
Qed.
Lemma weights_inj w d d' k k' : In w WEIGHTS -> d <= 9 -> d' <= 9 -> k + d' * w = k' + d * w ->
  k mod 11 = k' mod 11 -> d = d'.
Proof.
  unfold WEIGHTS. intros Hw Hd Hd'. cbn in Hw.
  repeat destruct Hw as [<-|Hw]; [lia..|done].
Qed.
Lemma check_inj i j : i < 11 -> j < 11 -> CHECK !! i = CHECK !! j -> i = j.
Proof.
  intros Hi Hj. do 11 (destruct i as [|i]; [do 11 (destruct j as [|j]; [done|]); lia|]). lia.
Qed.
Lemma char_digit_le c d : char_digit c = Some d -> d <= 9.
Proof.
  unfold char_digit, is_ascii_digit, in_range. destruct c as [|a [|]]; [done| |done].
  destruct (Nat.leb_spec 48 (nat_of_ascii a)), (Nat.leb_spec (nat_of_ascii a) 57); cbn; try done.
  intros [= <-]. lia.
Qed.
Lemma id_last_digit c d : char_digit c = Some d -> id_last c = Some (ascii_of_nat (d + 48)).
Proof.
  unfold char_digit, id_last, is_ascii_digit, in_range. destruct c as [|a [|]]; [done| |done].
  destruct (Nat.leb_spec 48 (nat_of_ascii a)); [|done].
  destruct (_ <=? 57); [|done]. cbn. intros [= <-].
  by rewrite Nat.sub_add, ascii_nat_embedding by lia.
Qed.
Lemma id_card_ok_inv cs : id_card_ok cs = true ->
  exists sum last a, length cs = 18 /\ id_sum (take 17 cs) WEIGHTS 0 = Some sum /\
    cs !! 17 = Some last /\ id_last last = Some a /\ CHECK !! (sum mod 11) = Some a.
Proof.
  unfold id_card_ok. destruct (Nat.eqb_spec (length cs) 18) as [Hlen|]; [|done]. cbn [negb].
  destruct (id_sum _ _ _) as [sum|]; [|done]. destruct (cs !! 17) as [last|]; [|done].
  destruct (CHECK !! _) as [e|] eqn:E; [|done]. destruct (id_last last) as [a|] eqn:Ea; [|done].
  intros ->%Ascii.eqb_eq. by exists sum, last, e.
Qed.

(** The identity-number check detects every single wrong digit, whether in the
    seventeen weighted places or in the check place. *)
Theorem id_card_single_error (l1 l2 : list (list ascii)) (c c' : list ascii) (d d' : nat)
  (Hc : char_digit c = Some d) (Hc' : char_digit c' = Some d') (Hne : d <> d')
  (Hok : id_card_ok (l1 ++ c :: l2) = true) :
  id_card_ok (l1 ++ c' :: l2) = false.
Proof.
  apply not_true_is_false. intros Hok'.
  destruct (id_card_ok_inv _ Hok) as (sum & last & a & Hlen & Hsum & Hlast & Ha & Hck).
  destruct (id_card_ok_inv _ Hok') as (sum' & last' & a' & _ & Hsum' & Hlast' & Ha' & Hck').
  pose proof (char_digit_le _ _ Hc). pose proof (char_digit_le _ _ Hc').
  rewrite length_app in Hlen. cbn [length] in Hlen.
  destruct (decide (length l1 = 17)) as [E|E].
  - rewrite take_app_length' in Hsum, Hsum' by done.
    rewrite <- E, list_lookup_middle in Hlast, Hlast' by done. injection Hlast as <-. injection Hlast' as <-.
    rewrite (id_last_digit _ _ Hc) in Ha. rewrite (id_last_digit _ _ Hc') in Ha'.
    rewrite Hsum in Hsum'. injection Hsum' as <-. rewrite Hck in Hck'. injection Hck' as <-.
    rewrite <- Ha' in Ha. injection Ha as Ha. apply Hne.
    apply (f_equal nat_of_ascii) in Ha. rewrite !nat_ascii_embedding in Ha by lia. lia.
  - assert (Ht : forall x, take 17 (l1 ++ x :: l2) = l1 ++ x :: take (16 - length l1) l2).
    { intros x. rewrite take_app. rewrite (take_ge l1) by lia.
      replace (17 - length l1) with (S (16 - length l1)) by lia. done. }
    rewrite Ht in Hsum, Hsum'.
    destruct (id_sum_change l1 c c' (take (16 - length l1) l2) WEIGHTS 0 d d' sum) as (w & s2 & Hw & Hs2 & Heq);
      [cbn; lia|done|done|done|]. rewrite Hsum' in Hs2. injection Hs2 as <-.
    assert (last = last') as ->.
    { rewrite lookup_app_r in Hlast, Hlast' by lia.
      destruct (17 - length l1) as [|k] eqn:Ek; [lia|]. cbn in *. congruence. }
    apply Hne, (weights_inj w d d' sum sum'); [done|done|done|done|].
    apply check_inj; [apply Nat.mod_upper_bound; lia..|]. congruence.
Qed.
Definition sample_id : list (list ascii) := utf8_chars (bytes "110101199003077651").
Lemma id_card_single_error_witness :
  id_card_ok sample_id = true /\ id_card_ok (<[3 := ["7"%char]]> sample_id) = false.
Proof.
  split; [reflexivity|].
  apply (id_card_single_error (take 3 sample_id) (drop 4 sample_id) ["1"%char] ["7"%char] 1 7);
    [reflexivity|reflexivity|lia|reflexivity].
Defined.

(** *** A concrete engine

    The expressions of phone and identity numbers match one sample number each and
    every other expression matches its own text; a match is the first occurrence. *)
Fixpoint find_sub (needle s : string) : option nat :=
  if String.prefix needle s then Some 0
  else match s with EmptyString => None | String _ s' => S <$> find_sub needle s' end.
Definition span_okb (s : string) (p : span) : bool :=
  Nat.leb p.1 p.2 && Nat.leb p.2 (String.length s) && is_char_boundary p.1 s
  && is_char_boundary p.2 s.
Definition sample_literal (p : string) : string :=
  if String.eqb p "(?:\+86|0086)?1[3-9]\d{9}" then "13800138000"
  else if String.eqb p "\d{17}[\dXx]" then "110101199003077651" else p.
#[local] Instance sample_re : RegexEngine := {|
  regex := string;
  regex_new p := Ok (sample_literal p);
  regex_find re s := i ← find_sub re s; Some re;
  captures_iter re s :=
    match find_sub re s with
    | Some i => if span_okb s (i, i + String.length re) then [[Some (i, i + String.length re)]]
                else []
    | None => []
    end
|}.
#[local] Instance sample_laws : RegexLaws.
Proof.
  assert (Hspec : forall re s c, In c (captures_iter re s) ->
    exists p, c = [Some p] /\ span_ok s p).
  { intros re s c. cbn. destruct (find_sub re s) as [i|]; [|done].
    destruct (span_okb s _) eqn:E; [|done]. intros [<-|[]]. eexists. split; [done|].
    unfold span_okb in E. boolp. done. }
  split.
  - intros re s c (p & -> & ?)%Hspec. by exists p.
  - intros re s c i m g (p & -> & Hp)%Hspec [= ->] Hg. destruct i as [|i]; [|done].
    injection Hg as <-. done.
Qed.
Definition sample_redactor : Redactor :=
  match redactor_new with Ok rd => rd | Err _ => [] end.
Definition sample_text : string := "tel 13800138000, id 110101199003077651.".

Lemma redact_exact_witness :
  redact sample_redactor sample_text = Ok "tel [REDACTED:phone], id [REDACTED:id_number]." /\
  exists spans, collect_spans sample_redactor sample_text = Ok spans /\
    spans_wf sample_text spans /\
    redact sample_redactor sample_text
    = Ok (rebuild tag_repl (merge_sort start_asc spans) sample_text).
Proof.
  split; [vm_compute; reflexivity|].
  destruct (redact_exact sample_redactor sample_text) as (spans & Hc & Hwf & Hr & _);
    [reflexivity|]. exists spans. split; [exact Hc|]. split; [exact Hwf|exact Hr].
Defined.
Lemma collect_complete_witness :
  exists spans, collect_spans sample_redactor sample_text = Ok spans /\ length spans = 2 /\
    forall m, is_candidate sample_redactor (fun _ => true) sample_text m -> covered spans m.
Proof.
  destruct (collect_complete sample_redactor sample_text) as (spans & Hc & Hcov & _); [reflexivity|].
  exists spans. split; [exact Hc|]. split; [|exact Hcov].
  revert Hc. vm_compute. intros [= <-]. reflexivity.
Defined.
Lemma counted_iff_sensitive_witness :
  exists out n b, redact_counted sample_redactor sample_text = Ok (out, n) /\
    has_sensitive sample_redactor sample_text = Ok b /\ (b = true <-> 0 < n).
Proof. apply (counted_iff_sensitive sample_redactor sample_text). reflexivity. Defined.
Lemma redact_reversible_roundtrip_witness :
  exists by_pos out ms, redact_reversible (fun i => if Nat.eqb i 0 then "aa" else "bb")
      sample_redactor sample_text = Ok (out, ms) /\
    out = "tel [REDACTED:phone#tok_aa], id [REDACTED:id_number#tok_bb]." /\
    original <$> ms = value <$> by_pos /\ rebuild value by_pos sample_text = sample_text.
Proof.
  destruct (redact_reversible_roundtrip (fun i => if Nat.eqb i 0 then "aa" else "bb")
    sample_redactor sample_text) as (by_pos & Hr & _ & _ & Ho & Hv); [reflexivity|].
  exists by_pos. do 2 eexists. split; [exact Hr|]. split; [|split; [exact Ho|exact Hv]].
  revert Hr. vm_compute. congruence.
Defined.
Lemma redact_credentials_scope_witness :
  exists spans, redact_credentials sample_redactor sample_text
      = Ok (rebuild tag_repl (merge_sort start_asc spans) sample_text) /\
    spans_wf sample_text spans.
Proof.
  destruct (redact_credentials_scope sample_redactor sample_text) as (spans & Hr & Hwf & _);
    [reflexivity|]. exists spans. split; [exact Hr|exact Hwf].
Defined.
End RedactSpec.
