(* ===== verification/Tokens.v ===== *)
(** * Keys and reversible tokens (fg-store/src/token_store.rs)

    Key derivation and its anchors, the token table with its tenants, lifetimes and
    in-flight flags, key rotation, and where the master key comes from at start-up.
    HKDF, HMAC-SHA256 and AES-GCM are the class [Crypto]. *)
From stdpp Require Import pretty.
From S2P Require Import Prelude Core Pattern.

Class Crypto : Type := {
  (** HKDF-Expand of a 32-byte key: master, info, derived key *)
  hkdf : string -> string -> string;
  (** HMAC-SHA256: key, message, digest *)
  hmac : string -> string -> string;
  (** AES-256-GCM: key, nonce, text *)
  aes_encrypt : string -> string -> string -> result string string;
  aes_decrypt : string -> string -> string -> result string string
}.
(** Decryption under the same key and nonce undoes encryption. *)
Class CryptoLaws `{Crypto} : Prop := {
  aes_roundtrip k n pt ct : aes_encrypt k n pt = Ok ct -> aes_decrypt k n ct = Ok pt
}.

(** A digest of HMAC-SHA256 has 32 bytes. *)
Class HmacLaws `{Crypto} : Prop := {
  hmac_length k m : String.length (hmac k m) = 32
}.

Module Tokens.

Definition KEY_LEN : nat := 32.
Definition TOKEN_TTL_SECS : Z := 300.
Definition CHAIN_INFO_PREFIX : string := "fusion-guard/audit-chain-hmac/v".
Definition TOKEN_INFO_PREFIX : string := "fusion-guard/token-aes-gcm/v".
Definition KEY_ANCHOR_MSG : string := "fusion-guard/key-anchor/v1".

Inductive TokenError : Type :=
| Keychain (msg : string)
| Encrypt (msg : string)
| Decrypt (msg : string)
| TNotFound (id : string)
| Expired (id : string)
| Sqlite (msg : string)
| KeyInit (msg : string).

(** [{:02x}] of every byte. *)
Definition hex_digit (n : nat) : ascii :=
  ascii_of_nat (if Nat.ltb n 10 then 48 + n else 87 + n).
Fixpoint hex_encode (s : string) : string :=
  match s with
  | EmptyString => EmptyString
  | String a s' =>
      let n := nat_of_ascii a in
      String (hex_digit (n / 16)) (String (hex_digit (n mod 16)) (hex_encode s'))
  end.

(** [String::from_utf8]: the well-formed byte sequences of Unicode (table 3-7). *)
Definition cont (a : ascii) : bool := in_range a 128 191.
Fixpoint utf8_go (fuel : nat) (l : list ascii) : bool :=
  match fuel with
  | 0 => match l with [] => true | _ => false end
  | S fuel' =>
      match l with
      | [] => true
      | a :: l1 =>
          if in_range a 0 127 then utf8_go fuel' l1
          else match l1 with
          | [] => false
          | b :: l2 =>
              if in_range a 194 223 then cont b && utf8_go fuel' l2
              else match l2 with
              | [] => false
              | c :: l3 =>
                  if in_range a 224 239 then
                    (if byte_eqb a 224 then in_range b 160 191
                     else if byte_eqb a 237 then in_range b 128 159 else cont b)
                    && cont c && utf8_go fuel' l3
                  else match l3 with
                  | [] => false
                  | d :: l4 =>
                      in_range a 240 244 &&
                      (if byte_eqb a 240 then in_range b 144 191
                       else if byte_eqb a 244 then in_range b 128 143 else cont b)
                      && cont c && cont d && utf8_go fuel' l4
                  end
              end
          end
      end
  end.
Definition utf8_valid (s : string) : bool := utf8_go (String.length s) (bytes s).

Record TokenRow : Type := mkToken {
  ciphertext : string;
  nonce : string;
  created_ts : Z;
  in_flight : bool;
  ttl_secs : Z;
  t_tenant : string;
  t_key_version : Z
}.
(** A row of [key_versions]: the creation time and the anchor. *)
Definition KeyVersion : Type := Z * option string.

(** [TokenStore]: the two tables of token.db, the master key and the counter. *)
Record TokenStore : Type := mkStore {
  tokens : gmap string TokenRow;
  key_versions : gmap Z KeyVersion;
  key : string;
  current_version : Z
}.

Section WithCrypto.
Context `{Crypto}.

Definition hkdf_expand (master info_prefix : string) (version : Z) : string :=
  hkdf master (info_prefix +:+ pretty version).
Definition derive_chain_key (master : string) (version : Z) : string :=
  hkdf_expand master CHAIN_INFO_PREFIX version.
Definition derive_token_key (master : string) (version : Z) : string :=
  hkdf_expand master TOKEN_INFO_PREFIX version.
Definition key_anchor_for_version (master : string) (version : Z) : string :=
  hex_encode (hmac (derive_chain_key master version) KEY_ANCHOR_MSG).

(** [put_tenant]; the nonce and the clock are arguments. *)
Definition put_tenant (rnd : string) (now : Z) (token_id plaintext tenant_id : string)
    (st : TokenStore) : TokenStore * result TokenError () :=
  let cv := current_version st in
  match aes_encrypt (derive_token_key (key st) cv) rnd plaintext with
  | Err e => (st, Err (Encrypt e))
  | Ok ct =>
      (mkStore (<[token_id := mkToken ct rnd now false TOKEN_TTL_SECS tenant_id cv]> (tokens st))
         (key_versions st) (key st) (current_version st), Ok ())
  end.

Definition with_tokens (f : gmap string TokenRow -> gmap string TokenRow) (st : TokenStore)
  : TokenStore := mkStore (f (tokens st)) (key_versions st) (key st) (current_version st).

(** [DELETE FROM tokens WHERE token_id = ?1 AND in_flight = 0] *)
Definition delete_idle (token_id : string) (m : gmap string TokenRow) : gmap string TokenRow :=
  match m !! token_id with
  | Some r => if in_flight r then m else delete token_id m
  | None => m
  end.

(** [get_tenant] *)
Definition get_tenant (now : Z) (token_id tenant_id : string) (st : TokenStore)
  : TokenStore * result TokenError string :=
  match tokens st !! token_id with
  | None => (st, Err (TNotFound token_id))
  | Some r =>
      if negb (String.eqb (t_tenant r) tenant_id) then (st, Err (TNotFound token_id))
      else if Z.ltb (created_ts r + ttl_secs r) now then
        (with_tokens (delete_idle token_id) st, Err (Expired token_id))
      else
        (st, match aes_decrypt (derive_token_key (key st) (t_key_version r)) (nonce r)
                     (ciphertext r) with
             | Err e => Err (Decrypt e)
             | Ok pt => if utf8_valid pt then Ok pt else Err (Decrypt "invalid utf-8")
             end)
  end.

Definition set_flight (b : bool) (r : TokenRow) : TokenRow :=
  mkToken (ciphertext r) (nonce r) (created_ts r) b (ttl_secs r) (t_tenant r) (t_key_version r).
(** [set_in_flight] *)
Definition set_in_flight (token_id : string) (b : bool) (st : TokenStore) : TokenStore :=
  with_tokens (alter (set_flight b) token_id) st.

(** [evict_expired]: the new state and the number of rows deleted. *)
Definition evictable (now : Z) (r : TokenRow) : bool :=
  Z.ltb (created_ts r + ttl_secs r) now && negb (in_flight r).
Definition evict_expired (now : Z) (st : TokenStore) : TokenStore * nat :=
  (with_tokens (filter (fun kr => evictable now kr.2 = false)) st,
   size (filter (fun kr => evictable now kr.2 = true) (tokens st))).

(** [rotate_key] *)
Definition rotate_key (now : Z) (st : TokenStore) : TokenStore * Z :=
  let v := (current_version st + 1)%Z in
  (mkStore (tokens st)
     (<[v := (now, Some (key_anchor_for_version (key st) v))]> (key_versions st)) (key st) v, v).

(** [key_anchor] *)
Definition key_anchor (version : Z) (st : TokenStore) : option string :=
  kv ← key_versions st !! version; snd kv.

(** [backfill_key_anchors] *)
Definition backfill_key_anchors (master : string) (kvs : gmap Z KeyVersion) : gmap Z KeyVersion :=
  map_imap (fun v kv => Some (match kv.2 with
                              | Some _ => kv
                              | None => (kv.1, Some (key_anchor_for_version master v))
                              end)) kvs.

(** [max_key_version]: [MAX(version)], or 1 for an empty table. *)
Definition max_key_version (kvs : gmap Z KeyVersion) : Z :=
  match (map_to_list kvs).*1 with [] => 1 | v :: vs => foldl Z.max v vs end.

(** *** The master key at start-up *)

Inductive KeySource : Type := EnvDebug | EnvInsecure | KeychainRequired.
Definition resolve_key_source (is_debug allow_env_flag env_present : bool) : KeySource :=
  if env_present && (is_debug || allow_env_flag) then
    if is_debug then EnvDebug else EnvInsecure
  else KeychainRequired.

(** The process environment, the Keychain (macOS) and the random source. *)
Record KeyEnv : Type := mkKeyEnv {
  is_debug : bool;
  allow_env_key : option string;
  env_token_key : option string;
  is_macos : bool;
  keychain_entry : option string;
  keychain_store : string -> result string ();
  random_key : string
}.

Definition allow_env_flag_set (e : KeyEnv) : bool :=
  match allow_env_key e with
  | Some v => String.eqb v "1" || String.eqb (to_ascii_lowercase v) "true"
  | None => false
  end.

(** [u8::from_str_radix(s, 16)] on at most two characters: an optional plus sign and
    hexadecimal digits. *)
Definition hex_val (a : ascii) : option nat :=
  if in_range a 48 57 then Some (nat_of_ascii a - 48)
  else if in_range a 97 102 then Some (nat_of_ascii a - 87)
  else if in_range a 65 70 then Some (nat_of_ascii a - 55)
  else None.
Definition from_hex2 (l : list ascii) : option nat :=
  match l with
  | [a; b] =>
      lo ← hex_val b;
      if Ascii.eqb a "+" then Some lo else hi ← hex_val a; Some (hi * 16 + lo)
  | _ => None
  end.
(** [hex_decode]: pairs of bytes; a lone last byte makes [get] fail. *)
Fixpoint hex_decode (l : list ascii) : result TokenError (list ascii) :=
  match l with
  | [] => mret []
  | [_] => Err (Keychain "hex decode")
  | a :: b :: l' =>
      n ← ok_or (Keychain "hex decode") (from_hex2 [a; b]);
      ns ← hex_decode l';
      mret (ascii_of_nat n :: ns)
  end.
Definition decode_env_key (e : KeyEnv) : result TokenError string :=
  hex ← ok_or (KeyInit "FUSION_GUARD_TOKEN_KEY env unset") (env_token_key e);
  bs ← hex_decode (bytes hex);
  if negb (Nat.eqb (length bs) KEY_LEN) then Err (KeyInit "FUSION_GUARD_TOKEN_KEY not 32 bytes")
  else mret (of_bytes bs).

(** [load_keychain_or_err], both platforms. *)
Definition load_keychain_or_err (e : KeyEnv) (allow_mint : bool) : result TokenError string :=
  if negb (is_macos e) then Err (KeyInit "non-macOS requires FUSION_GUARD_TOKEN_KEY env")
  else match keychain_entry e with
  | Some k => if Nat.eqb (String.length k) KEY_LEN then Ok k
              else Err (KeyInit "keychain key not 32 bytes")
  | None =>
      if negb allow_mint then Err (KeyInit "master key lost")
      else match keychain_store e (random_key e) with
           | Err m => Err (Keychain m)
           | Ok _ => Ok (random_key e)
           end
  end.
(** [load_or_create_key] *)
Definition load_or_create_key (e : KeyEnv) (allow_mint : bool) : result TokenError string :=
  match resolve_key_source (is_debug e) (allow_env_flag_set e)
          (bool_decide (is_Some (env_token_key e))) with
  | EnvDebug | EnvInsecure => decode_env_key e
  | KeychainRequired => load_keychain_or_err e allow_mint
  end.

(** [token_db_is_virgin] *)
Definition token_db_is_virgin (toks : gmap string TokenRow) (kvs : gmap Z KeyVersion) : bool :=
  bool_decide (toks = ∅) &&
  bool_decide (filter (fun kv : Z * KeyVersion => (1 < kv.1 \/ 0 < kv.2.1)%Z) kvs = ∅).

(** [open_checked] on the tables found on disk (empty when there are none); the seed
    row is inserted when version 1 is missing. *)
Definition open_checked (e : KeyEnv) (toks : gmap string TokenRow) (kvs : gmap Z KeyVersion)
    (allow_mint : bool) : result TokenError TokenStore :=
  let allow_mint := allow_mint && token_db_is_virgin toks kvs in
  let kvs := match kvs !! 1%Z with Some _ => kvs | None => <[1%Z := (0%Z, None)]> kvs end in
  k ← load_or_create_key e allow_mint;
  let kvs := backfill_key_anchors k kvs in
  mret (mkStore toks kvs k (max_key_version kvs)).

End WithCrypto.
End Tokens.

(** ** Properties of keys and tokens *)
Module TokensSpec.
Import Tokens.

Section WithCrypto.
Context `{Crypto}.

(** The operations of the store, with the clock each one reads. *)
Inductive token_op : Type :=
| OpPut (rnd : string) (now : Z) (id pt tenant : string)
| OpGet (now : Z) (id tenant : string)
| OpFlight (id : string) (b : bool)
| OpEvict (now : Z)
| OpRotate (now : Z).
Definition run_op (o : token_op) (st : TokenStore) : TokenStore :=
  match o with
  | OpPut rnd now id pt tenant => (put_tenant rnd now id pt tenant st).1
  | OpGet now id tenant => (get_tenant now id tenant st).1
  | OpFlight id b => set_in_flight id b st
  | OpEvict now => (evict_expired now st).1
  | OpRotate now => (rotate_key now st).1
  end.
(** Nothing overwrites the token [id], and every clock read is at most [limit]. *)
Definition op_within (id : string) (limit : Z) (o : token_op) : Prop :=
  match o with
  | OpPut _ _ id' _ _ => id' <> id
  | OpGet now _ _ | OpEvict now => (now <= limit)%Z
  | _ => True
  end.

(** The store holds the token: its row decrypts to [pt]. *)
Definition holds (id pt tenant : string) (t0 : Z) (st : TokenStore) : Prop :=
  exists r, tokens st !! id = Some r /\ t_tenant r = tenant /\ created_ts r = t0 /\
    ttl_secs r = TOKEN_TTL_SECS /\
    aes_decrypt (derive_token_key (key st) (t_key_version r)) (nonce r) (ciphertext r) = Ok pt.

Lemma delete_idle_ne id id' m : id <> id' -> delete_idle id m !! id' = m !! id'.
Proof. intros Hne. unfold delete_idle. repeat case_match; by rewrite ?lookup_delete_ne. Qed.

Lemma run_op_holds id pt tenant t0 o st : holds id pt tenant t0 st ->
  op_within id (t0 + TOKEN_TTL_SECS) o -> holds id pt tenant t0 (run_op o st).
Proof.
  intros (r & Hr & Ht & Hc & Httl & Hd) Ho. destruct o as [rnd now id' pt' t'|now id' t'|id' b|now|now]; cbn in *.
  - unfold put_tenant. destruct (aes_encrypt _ _ _); cbn; [|by exists r].
    exists r. cbn. by rewrite lookup_insert_ne.
  - unfold get_tenant. destruct (tokens st !! id') as [r'|] eqn:E'; [|by exists r].
    destruct (negb _); [by exists r|].
    destruct (Z.ltb_spec (created_ts r' + ttl_secs r') now); [|by exists r].
    exists r. cbn. split; [|done]. destruct (decide (id' = id)) as [->|Hne].
    + rewrite Hr in E'. injection E' as <-. lia.
    + by rewrite delete_idle_ne.
  - unfold set_in_flight. destruct (decide (id' = id)) as [->|Hne].
    + exists (set_flight b r). cbn. by rewrite lookup_alter_eq, Hr.
    + exists r. cbn. by rewrite lookup_alter_ne.
  - exists r. cbn. split; [|done]. apply map_lookup_filter_Some. split; [done|].
    unfold evictable. cbn. destruct (Z.ltb_spec (created_ts r + ttl_secs r) now); [lia|done].
  - by exists r.
Qed.
End WithCrypto.

(** [C14] A stored token can be revealed by its tenant for its whole lifetime, whatever
    happens in between: other tokens stored, reveals, evictions, in-flight marks and any
    number of key rotations (the row keeps the version it was encrypted under). *)
Theorem token_roundtrip `{CryptoLaws} rnd now id pt tenant st st1 ops later
  (Hput : put_tenant rnd now id pt tenant st = (st1, Ok ()))
  (Hutf8 : utf8_valid pt = true)
  (Hops : Forall (op_within id (now + TOKEN_TTL_SECS)) ops)
  (Hlater : (later <= now + TOKEN_TTL_SECS)%Z) :
  (get_tenant later id tenant (foldl (fun s o => run_op o s) st1 ops)).2 = Ok pt.
Proof.
  assert (Hh : holds id pt tenant now st1).
  { unfold put_tenant in Hput. destruct (aes_encrypt _ _ _) as [ct|] eqn:E; [|done].
    injection Hput as <-. eexists. cbn. rewrite lookup_insert_eq. repeat split.
    by apply aes_roundtrip. }
  clear Hput. revert st1 Hh. induction Hops as [|o ops Ho _ IH]; intros st1 Hh.
  - destruct Hh as (r & Hr & Ht & Hc & Httl & Hd). cbn. unfold get_tenant.
    rewrite Hr, Ht, String.eqb_refl, Hc, Httl, Hd, Hutf8. cbn.
    destruct (Z.ltb_spec (now + TOKEN_TTL_SECS) later); [lia|done].
  - apply IH. by apply run_op_holds.
Qed.

(** A toy cipher for the examples: the ciphertext carries the key, the nonce and the
    text, and decryption checks the first two. *)
Definition toy_seal (k n pt : string) : string := k +:+ n +:+ pt.
#[local] Instance toy_crypto : Crypto := {|
  hkdf m i := m +:+ i;
  hmac k m := k +:+ "|" +:+ m;
  aes_encrypt k n pt := Ok (toy_seal k n pt);
  aes_decrypt k n ct := match strip_prefix (k +:+ n) ct with
                        | Some pt => Ok pt
                        | None => Err "aead::Error"
                        end
|}.
#[local] Instance toy_laws : CryptoLaws.
Proof.
  split. intros k n pt ct [= <-]. unfold toy_seal. cbn.
  rewrite (proj2 (strip_prefix_spec _ _ pt)); [done|]. by rewrite str_app_assoc.
Qed.
Definition toy_store : TokenStore := mkStore ∅ {[ 1%Z := (0%Z, None) ]} "master" 1.
Lemma token_roundtrip_witness :
  (get_tenant 1300 "tok_a" "acme"
     (foldl (fun s o => run_op o s) (put_tenant "n1" 1000 "tok_a" "hunter2" "acme" toy_store).1
        [OpRotate 1100; OpPut "n2" 1100 "tok_b" "x" "acme"; OpEvict 1299])).2 = Ok "hunter2".
Proof.
  apply (token_roundtrip "n1" 1000 "tok_a" "hunter2" "acme" toy_store
           (put_tenant "n1" 1000 "tok_a" "hunter2" "acme" toy_store).1);
    [reflexivity|reflexivity|repeat constructor; cbn; (done || lia)|unfold TOKEN_TTL_SECS; lia].
Defined.

(** Tenants are isolated: a token stored for one tenant is not found by any other,
    whether or not it has expired, and the attempt changes nothing. *)
Theorem token_tenant_isolation `{Crypto} now id tenant st r
  (Hr : tokens st !! id = Some r) (Hne : t_tenant r <> tenant) :
  get_tenant now id tenant st = (st, Err (TNotFound id)).
Proof.
  unfold get_tenant. rewrite Hr. by rewrite (proj2 (String.eqb_neq _ _) Hne).
Qed.
Lemma token_tenant_isolation_witness :
  get_tenant 1001 "tok_a" "other" (put_tenant "n1" 1000 "tok_a" "pw" "acme" toy_store).1
  = ((put_tenant "n1" 1000 "tok_a" "pw" "acme" toy_store).1, Err (TNotFound "tok_a")).
Proof. eapply token_tenant_isolation; [reflexivity|done]. Defined.

(** Eviction removes exactly the expired tokens that are not in flight, leaves every
    other row as it is, and returns how many it removed. *)
Theorem evict_expired_exact `{Crypto} now st :
  let '(st', n) := evict_expired now st in
  (forall id r, tokens st' !! id = Some r <->
     tokens st !! id = Some r /\ ((now <= created_ts r + ttl_secs r)%Z \/ in_flight r = true)) /\
  n + size (tokens st') = size (tokens st).
Proof.
  cbn. split.
  - intros id r. rewrite map_lookup_filter_Some. unfold evictable. cbn.
    destruct (Z.ltb_spec (created_ts r + ttl_secs r) now), (in_flight r); cbn;
      split; intros [? Hx]; (split; [done|]); (done || auto with lia).
  - rewrite (Nat.add_comm (size _)), <- map_size_disj_union.
    + f_equal.
      rewrite <- (map_filter_union_complement (fun kr => evictable now kr.2 = false) (tokens st)) at 3.
      f_equal. apply map_filter_ext. intros i x _. cbn. by destruct (evictable now x).
    + apply map_disjoint_spec. intros i x y Hx Hy.
      apply map_lookup_filter_Some in Hx as [Hx1 Hx2], Hy as [Hy1 Hy2]. cbn in *. congruence.
Qed.

(** The master key is never replaced under existing data: when the database already
    has tokens, a rotated key version or audit rows ([allow_mint] false) and the key is in
    neither an accepted environment variable nor the Keychain, opening fails; and whenever
    opening succeeds without an accepted environment key on such a database, the key is
    the one of the Keychain. *)
Theorem key_loss_refused `{Crypto} e toks kvs allow_mint
  (Hdata : allow_mint = false \/ toks <> ∅ \/ exists v kv, kvs !! v = Some kv /\ (1 < v)%Z)
  (Henv : resolve_key_source (is_debug e) (allow_env_flag_set e)
            (bool_decide (is_Some (env_token_key e))) = KeychainRequired) :
  (keychain_entry e = None -> exists m, open_checked e toks kvs allow_mint = Err (KeyInit m)) /\
  (forall st, open_checked e toks kvs allow_mint = Ok st ->
     keychain_entry e = Some (key st) /\ String.length (key st) = KEY_LEN).
Proof.
  assert (Hm : allow_mint && token_db_is_virgin toks kvs = false).
  { unfold token_db_is_virgin. destruct Hdata as [->|[Ht|(v & kv & Hv & Hlt)]]; [done| |].
    - by rewrite (bool_decide_false (toks = ∅)), andb_false_r.
    - rewrite (bool_decide_false (filter _ kvs = ∅)), !andb_false_r; [done|]. intros E.
      apply (f_equal (fun m => m !! v)) in E. rewrite lookup_empty in E.
      rewrite (proj2 (map_lookup_filter_Some _ kvs v kv)) in E; [done|]. split; [exact Hv|]. cbn. auto. }
  unfold open_checked, load_or_create_key. rewrite Hm, Henv. unfold load_keychain_or_err.
  destruct (is_macos e); cbn [negb]; [|cbn; split; [by eexists|done]].
  destruct (keychain_entry e) as [k|]; cbn [negb].
  - split; [done|]. intros st. destruct (Nat.eqb_spec (String.length k) KEY_LEN); [|done].
    cbn. intros [= <-]. done.
  - cbn. split; [by eexists|done].
Qed.
Definition lost_env : KeyEnv := mkKeyEnv false None None true None (fun _ => Ok ()) "fresh".
Lemma key_loss_refused_witness :
  exists m, open_checked lost_env ∅ {[ 2%Z := (7%Z, None) ]} true = Err (KeyInit m).
Proof.
  destruct (key_loss_refused lost_env ∅ {[ 2%Z := (7%Z, None) ]} true) as [Hno _];
    [right; right; exists 2%Z, (7%Z, None); split; [reflexivity|lia]|reflexivity|].
  exact (Hno eq_refl).
Defined.

(** Opening fills in the missing anchors and never rewrites one: a version whose
    anchor was written under another master key keeps it, so that it can still be told
    apart from tampering. *)
Theorem backfill_keeps_anchors `{Crypto} master kvs v :
  backfill_key_anchors master kvs !! v
  = match kvs !! v with
    | Some (t, Some a) => Some (t, Some a)
    | Some (t, None) => Some (t, Some (key_anchor_for_version master v))
    | None => None
    end.
Proof.
  unfold backfill_key_anchors, KeyVersion in *. rewrite map_lookup_imap.
  destruct (kvs !! v) as [[t [a|]]|]; reflexivity.
Qed.

(** A rotation moves to the next version, leaves the tokens and the older versions
    alone, and records the anchor of the new one under the current master key. *)
Theorem rotate_key_spec `{Crypto} now st st' v (Hrot : rotate_key now st = (st', v)) :
  v = (current_version st + 1)%Z /\ current_version st' = v /\ tokens st' = tokens st /\
  key st' = key st /\ key_anchor v st' = Some (key_anchor_for_version (key st) v) /\
  forall w, w <> v -> key_anchor w st' = key_anchor w st.
Proof.
  injection Hrot as <- <-. repeat split.
  - unfold key_anchor. cbn. by rewrite lookup_insert_eq.
  - intros w Hw. unfold key_anchor. cbn. by rewrite lookup_insert_ne.
Qed.
Lemma rotate_key_spec_witness :
  key_anchor 2 (rotate_key 5 toy_store).1 = Some (key_anchor_for_version "master" 2).
Proof.
  destruct (rotate_key_spec 5 toy_store (rotate_key 5 toy_store).1 2) as (_ & _ & _ & _ & Ha & _);
    [reflexivity|exact Ha].
Defined.
End TokensSpec.
