(* ===== verification/Chain.v ===== *)
(** * The audit chain (fg-store/src/lib.rs)

    Audit events, their length-prefixed encoding and HMAC, the table
    [audit_events] with its checkpoint, insertion, rotation into the archive and
    the full and incremental verification. *)
From stdpp Require Import pretty.
From S2P Require Import Prelude Core Pattern Tokens.

(** Parsing of the two typed columns of a row: the canonical text of the UUID or
    of the RFC 3339 time a text denotes. *)
Class RowCodec : Type := {
  parse_uuid : string -> option string;
  parse_ts : string -> option string
}.

Module Chain.
Import Tokens.

Definition GENESIS_PREV_HASH : string :=
  "0000000000000000000000000000000000000000000000000000000000000000".
Definition NIL_UUID : string := "00000000-0000-0000-0000-000000000000".

(** [AuditEvent]; the UUID and the time are their canonical texts. *)
Record AuditEvent : Type := mkEvent {
  audit_id : string;
  ts : string;
  event_type : string;
  tenant_id : string;
  requester : string;
  ev_action : string;
  ev_category : string;
  verdict_json : string;
  approved_by : option string;
  ev_seatbelt : bool;
  outcome : string;
  prev_hash : string;
  event_hash : string
}.

(** *** Encoding *)

(** [(len as u32).to_be_bytes()] *)
Definition be32 (n : N) : string :=
  let b (k : N) := ascii_of_N ((n / 2 ^ k) mod 256) in
  String (b 24%N) (String (b 16%N) (String (b 8%N) (String (b 0%N) ""))).
(** [length_prefixed] *)
Fixpoint length_prefixed (fields : list string) : string :=
  match fields with
  | [] => ""
  | f :: fs => be32 (N.of_nat (String.length f)) +:+ f +:+ length_prefixed fs
  end.
Definition event_fields (ev : AuditEvent) : list string :=
  [audit_id ev; ts ev; event_type ev; tenant_id ev; requester ev; ev_action ev; ev_category ev;
   verdict_json ev; default "" (approved_by ev); (if ev_seatbelt ev then "1" else "0");
   outcome ev].
(** [AuditEvent::payload_bytes] *)
Definition payload_bytes (ev : AuditEvent) : string := length_prefixed (event_fields ev).

(** *** The table and its checkpoint *)

(** A row of [audit_events]: the event as text, the integer of the seatbelt column,
    the key version and the rowid. *)
Record AuditRow : Type := mkRow {
  r_event : AuditEvent;
  r_seatbelt : Z;
  r_key_version : Z;
  r_rowid : Z
}.
(** The row [main] of [chain_checkpoint], and the value read from it. *)
Record CpRow : Type := mkCpRow {
  cp_vid : option string;
  cp_vhash : option string;
  cp_aid : option string;
  cp_ahash : option string
}.
Record Checkpoint : Type := mkCheckpoint {
  last_verified_audit_id : string;
  last_verified_hash : string;
  last_archived_audit_id : option string;
  last_archived_hash : option string
}.
(** The tables of audit.db that the audit chain uses; rows in rowid order. *)
Record AuditDb : Type := mkDb {
  audit_rows : list AuditRow;
  checkpoint : option CpRow
}.

(** [read_checkpoint] *)
Definition read_checkpoint (db : AuditDb) : option Checkpoint :=
  match checkpoint db with
  | None => None
  | Some c =>
      match cp_vid c, cp_vhash c with
      | Some (String _ _ as id), Some hash => Some (mkCheckpoint id hash (cp_aid c) (cp_ahash c))
      | _, _ =>
          match cp_ahash c with
          | Some (String _ _) =>
              Some (mkCheckpoint "" (default "" (cp_vid c)) (cp_aid c) (cp_ahash c))
          | _ => None
          end
      end
  end.
(** [write_checkpoint] *)
Definition write_checkpoint (cp : Checkpoint) (db : AuditDb) : AuditDb :=
  mkDb (audit_rows db)
    (Some (mkCpRow (Some (last_verified_audit_id cp)) (Some (last_verified_hash cp))
             (last_archived_audit_id cp) (last_archived_hash cp))).

(** A string that is present and not empty. *)
Definition non_empty (o : option string) : option string :=
  match o with Some (String _ _ as s) => Some s | _ => None end.

Inductive SqlError : Type :=
| UniqueViolation (id : string)
| Conversion (msg : string).

Section WithParams.
Context `{Crypto, RowCodec}.

(** [compute_event_hmac] *)
Definition compute_event_hmac (master : string) (key_version : Z) (payload prev : string)
  : string := hex_encode (hmac (derive_chain_key master key_version) (prev +:+ payload)).

(** The hash the next row links to: the one of the last row, else the end of the
    archived segment, else genesis. *)
Definition tail_hash (db : AuditDb) : string :=
  match non_empty ((fun r => event_hash (r_event r)) <$> last (audit_rows db)) with
  | Some h => h
  | None =>
      match read_checkpoint db with
      | Some c => default GENESIS_PREV_HASH (non_empty (last_archived_hash c))
      | None => GENESIS_PREV_HASH
      end
  end.
Definition next_rowid (rows : list AuditRow) : Z :=
  match last rows with Some r => r_rowid r + 1 | None => 1 end.

Definition link_event (ev : AuditEvent) (prev hash : string) : AuditEvent :=
  mkEvent (audit_id ev) (ts ev) (event_type ev) (tenant_id ev) (requester ev) (ev_action ev)
    (ev_category ev) (verdict_json ev) (approved_by ev) (ev_seatbelt ev) (outcome ev) prev hash.

(** [insert_audit_event_tx]: the row linked to the last one, refused when the primary key is
    taken; [insert_audit_event] makes a transaction of it, undone when it is refused. *)
Definition insert_audit_event_tx (ev : AuditEvent) (master : string) (key_version : Z)
    (db : AuditDb) : result SqlError AuditDb :=
  if existsb (fun r => String.eqb (audit_id (r_event r)) (audit_id ev)) (audit_rows db)
  then Err (UniqueViolation (audit_id ev))
  else
    let prev := tail_hash db in
    let hash := compute_event_hmac master key_version (payload_bytes ev) prev in
    Ok (mkDb (audit_rows db ++
                [mkRow (link_event ev prev hash) (if ev_seatbelt ev then 1 else 0) key_version
                   (next_rowid (audit_rows db))])
          (checkpoint db)).
Definition insert_audit_event (ev : AuditEvent) (master : string) (key_version : Z)
    (db : AuditDb) : result SqlError AuditDb :=
  insert_audit_event_tx ev master key_version db.

(** [row_to_event]; a time that does not parse is read as the current time. *)
Definition row_to_event (now : string) (r : AuditRow) : AuditEvent :=
  let e := r_event r in
  mkEvent (default NIL_UUID (parse_uuid (audit_id e))) (default now (parse_ts (ts e)))
    (event_type e) (tenant_id e) (requester e) (ev_action e) (ev_category e) (verdict_json e)
    (approved_by e) (negb (Z.eqb (r_seatbelt r) 0)) (outcome e) (prev_hash e) (event_hash e).

(** *** Verification *)

Inductive BreakKind : Type := Tamper | KeyLoss | MissingAnchor.
(** [classify_break]; the lookup of the anchor does not fail in the model. *)
Definition classify_break (tokens : TokenStore) (key_version : Z) : BreakKind :=
  match key_anchor key_version tokens with
  | Some stored =>
      if String.eqb (key_anchor_for_version (key tokens) key_version) stored
      then Tamper else KeyLoss
  | None => MissingAnchor
  end.

Record ChainVerification : Type := mkVerification {
  total_rows : nat;
  unhashed_rows : nat;
  verified_links : nat;
  broken_links : nat;
  tampered : bool;
  first_broken_at : option nat;
  key_version_unknown_rows : nat
}.

(** The variables of the verification loop. *)
Record VState : Type := mkVState {
  v_expected : string;
  v_last_hash : string;
  v_last_id : string;
  v_index : nat;
  v_unhashed : nat;
  v_verified : nat;
  v_broken : nat;
  v_tampered : bool;
  v_first : option nat;
  v_key_loss : nat
}.
Definition in_scope (tenant : option string) (t : string) : bool :=
  match tenant with None => true | Some x => String.eqb t x end.

(** Counting a broken row: [unhashed] and the effect on [tampered] and on the key-loss
    counter are given. *)
Definition count_broken (unhashed : nat) (tamper : bool) (loss : nat) (s : VState) : VState :=
  mkVState (v_expected s) (v_last_hash s) (v_last_id s) (v_index s) (v_unhashed s + unhashed)
    (v_verified s) (S (v_broken s)) (v_tampered s || tamper)
    (match v_first s with None => Some (v_index s) | f => f end) (v_key_loss s + loss).
Definition count_verified (s : VState) : VState :=
  mkVState (v_expected s) (v_last_hash s) (v_last_id s) (v_index s) (v_unhashed s)
    (S (v_verified s)) (v_broken s) (v_tampered s) (v_first s) (v_key_loss s).
Definition advance (expected : string) (ev : AuditEvent) (s : VState) : VState :=
  mkVState expected (event_hash ev) (audit_id ev) (S (v_index s)) (v_unhashed s) (v_verified s)
    (v_broken s) (v_tampered s) (v_first s) (v_key_loss s).

(** One iteration of the loop of [verify_chain]. *)
Definition verify_row (tokens : TokenStore) (tenant : option string) (now : string)
    (s : VState) (r : AuditRow) : VState :=
  let ev := row_to_event now r in
  let scoped := in_scope tenant (tenant_id ev) in
  if str_empty (event_hash ev) then
    advance (v_expected s) ev (if scoped then count_broken 1 true 0 s else s)
  else
    let s' :=
      if negb (String.eqb (prev_hash ev) (v_expected s)) then
        (if scoped then count_broken 0 true 0 s else s)
      else if negb (String.eqb (compute_event_hmac (key tokens) (r_key_version r)
                                  (payload_bytes ev) (v_expected s)) (event_hash ev)) then
        (if scoped then
           match classify_break tokens (r_key_version r) with
           | KeyLoss => count_broken 0 false 1 s
           | Tamper | MissingAnchor => count_broken 0 true 0 s
           end
         else s)
      else if scoped then count_verified s else s in
    advance (event_hash ev) ev s'.

(** Where the scan starts: [Some (anchor, expected)] for an incremental one. *)
Definition rowid_of_audit (id : string) (rows : list AuditRow) : option AuditRow :=
  List.find (fun r => String.eqb (audit_id (r_event r)) id) rows.
Definition scan_anchor (db : AuditDb) : option (Z * string) :=
  c ← read_checkpoint db;
  if str_empty (last_verified_audit_id c) then
    h ← non_empty (last_archived_hash c); Some (0%Z, h)
  else
    r ← rowid_of_audit (last_verified_audit_id c) (audit_rows db);
    h ← non_empty (Some (event_hash (r_event r)));
    if String.eqb h (last_verified_hash c) then Some (r_rowid r, last_verified_hash c) else None.

Definition count_scope (tenant : option string) (rows : list AuditRow) : nat :=
  length (filter (fun r => in_scope tenant (tenant_id (r_event r)) = true) rows).

(** [verify_chain]: the database with its new checkpoint, and the report. *)
Definition verify_chain (tokens : TokenStore) (tenant : option string) (now : string)
    (db : AuditDb) : AuditDb * ChainVerification :=
  let cp := read_checkpoint db in
  let start := scan_anchor db in
  let expected := match start with Some (_, h) => h | None => GENESIS_PREV_HASH end in
  let rows := match start with
              | Some (a, _) => filter (fun r => (a < r_rowid r)%Z) (audit_rows db)
              | None => audit_rows db
              end in
  let total := count_scope tenant (audit_rows db) in
  let s0 := mkVState expected expected
              (match cp with Some c => last_verified_audit_id c | None => "" end)
              0 0 0 0 false None 0 in
  let s := foldl (verify_row tokens tenant now) s0 rows in
  let db' :=
    if negb (v_tampered s) && (negb (bool_decide (rows = [])) || bool_decide (cp = None))
    then write_checkpoint
           (mkCheckpoint (v_last_id s) (v_last_hash s)
              (c ← cp; last_archived_audit_id c) (c ← cp; last_archived_hash c)) db
    else db in
  (db', mkVerification total (v_unhashed s) (v_verified s) (v_broken s) (v_tampered s)
          (v_first s) (v_key_loss s)).

(** *** Rotation *)

Definition ROTATE_BYTES : Z := 100 * 1024 * 1024.
(** What writing the archive file comes to: it cannot be opened, the write fails after
    it was opened, or the lines are written. *)
Inductive ArchiveOutcome : Type := OpenFailed | WriteFailed | Written.

(** The checkpoint after rotation: anchored at the first row left, or at the end of the
    archived segment when none is left. *)
Definition rotated_checkpoint (left : list AuditRow) (tail_id tail_hash : string) : Checkpoint :=
  match left with
  | r :: _ => mkCheckpoint (audit_id (r_event r)) (event_hash (r_event r))
                (Some tail_id) (Some tail_hash)
  | [] => mkCheckpoint "" "" (Some tail_id) (Some tail_hash)
  end.
(** [rotate_old_rows]: [cutoff] is the text of the time thirty days ago, [db_bytes] the
    size of the database file; the result has the rows written to the archive file.  The
    [VACUUM] that follows is [renumbered] of the specification. *)
Definition rotate_old_rows (cutoff now : string) (db_bytes : Z) (out : ArchiveOutcome)
    (db : AuditDb) : AuditDb * list AuditRow :=
  let aged := length (filter (fun r => String.ltb (ts (r_event r)) cutoff = true)
                        (audit_rows db)) in
  if Nat.eqb aged 0 && Z.ltb db_bytes ROTATE_BYTES then (db, [])
  else
    let limit := if Nat.ltb 0 aged then aged else N.to_nat 50000 in
    match take limit (audit_rows db) with
    | [] => (db, [])
    | (first :: rest) as to_archive =>
        match out with
        | OpenFailed => (db, [])
        | _ =>
            let tail := List.last rest first in
            let left := filter (fun r => ~ (r_rowid first <= r_rowid r <= r_rowid tail)%Z)
                          (audit_rows db) in
            (write_checkpoint
               (rotated_checkpoint left (audit_id (row_to_event now tail))
                  (event_hash (row_to_event now tail)))
               (mkDb left (checkpoint db)),
             match out with Written => to_archive | _ => [] end)
        end
    end.

End WithParams.
End Chain.
