(* ===== verification/ChainSpec.v ===== *)
(** * Properties of the audit chain

    Injectivity of the encoding, what a clean verification means, binding of the
    chain by its last hash, and that every history of insertions, verifications,
    rotations and vacuums verifies clean. *)
From S2P Require Import Prelude Core Pattern Tokens Chain.


Module ChainSpec.
Import Tokens Chain.

(** ** The encoding is injective *)

Lemma be32_length n : String.length (be32 n) = 4.
Proof. done. Qed.
Lemma be32_inj m n : (m < 2 ^ 32)%N -> (n < 2 ^ 32)%N -> be32 m = be32 n -> m = n.
Proof.
  unfold be32. intros Hm Hn [= H3 H2 H1 H0].
  assert (Hb : forall a b, (a < 256)%N -> (b < 256)%N -> ascii_of_N a = ascii_of_N b -> a = b).
  { intros a b Ha Hb E. rewrite <- (N_ascii_embedding a), <- (N_ascii_embedding b) by done.
    by rewrite E. }
  apply Hb in H0, H1, H2, H3; [|apply N.mod_lt; done..].
  assert (Hd : forall a b, (a / 256 = b / 256 -> a mod 256 = b mod 256 -> a = b)%N).
  { intros a b Hq Hr. rewrite (N.div_mod a 256), (N.div_mod b 256) by done. congruence. }
  change (2 ^ 0)%N with 1%N in H0. change (2 ^ 8)%N with 256%N in H1.
  change (2 ^ 16)%N with (256 * 256)%N in H2. change (2 ^ 24)%N with (256 * 256 * 256)%N in H3.
  change (2 ^ 32)%N with (256 * 256 * 256 * 256)%N in *.
  assert (Hdd : forall x, (x / (256 * 256) = x / 256 / 256 /\
                           x / (256 * 256 * 256) = x / 256 / 256 / 256)%N)
    by (intros x; by rewrite !N.Div0.div_div).
  rewrite !N.div_1_r in H0. rewrite !(proj1 (Hdd _)) in H2. rewrite !(proj2 (Hdd _)) in H3.
  assert (Hsm : forall x, (x < 256 * 256 * 256 * 256 -> x / 256 / 256 / 256 < 256)%N).
  { intros x Hx. do 3 apply N.Div0.div_lt_upper_bound. exact Hx. }
  rewrite !N.mod_small in H3 by auto.
  apply Hd; [apply Hd; [by apply Hd|exact H1]|exact H0].
Qed.

Lemma str_app_inj_length s1 s2 t1 t2 : String.length s1 = String.length s2 ->
  s1 +:+ t1 = s2 +:+ t2 -> s1 = s2 /\ t1 = t2.
Proof.
  intros Hl E. apply (f_equal bytes) in E. rewrite !bytes_app in E.
  apply app_inj_1 in E as [E1 E2]; [|by rewrite !length_bytes].
  split; by apply bytes_inj.
Qed.

Definition small_field (f : string) : Prop := (N.of_nat (String.length f) < 2 ^ 32)%N.
Lemma length_prefixed_inj fs gs : length fs = length gs -> Forall small_field fs ->
  Forall small_field gs -> length_prefixed fs = length_prefixed gs -> fs = gs.
Proof.
  revert gs. induction fs as [|f fs IH]; intros [|g gs] Hl Hf Hg E; try done.
  apply Forall_cons in Hf as [Hf Hfs], Hg as [Hg Hgs]. cbn in E.
  apply str_app_inj_length in E as [E1 E2]; [|done].
  apply be32_inj in E1; [|done..]. apply Nat2N.inj in E1.
  apply str_app_inj_length in E2 as [-> E2]; [|done].
  f_equal. apply IH; [by injection Hl|done..].
Qed.

(** [C39] The encoding that is signed loses nothing of an event but the difference between
    an absent approver and an empty one: two events with fields under four gigabytes and
    the same payload agree on all eleven fields, whatever bytes the fields contain. *)
Theorem payload_injective (e1 e2 : AuditEvent)
  (H1 : Forall small_field (event_fields e1)) (H2 : Forall small_field (event_fields e2))
  (E : payload_bytes e1 = payload_bytes e2) :
  link_event e1 "" "" = link_event e2 "" "" \/
  (approved_by e1 <> approved_by e2 /\
   default "" (approved_by e1) = "" /\ default "" (approved_by e2) = "").
Proof.
  apply length_prefixed_inj in E; [|done..]. unfold event_fields in E.
  injection E as Ea Et Ey En Er Ec Eg Ev Eb Es Eo.
  assert (Hs : ev_seatbelt e1 = ev_seatbelt e2)
    by (destruct (ev_seatbelt e1), (ev_seatbelt e2); done).
  unfold link_event. rewrite Ea, Et, Ey, En, Er, Ec, Eg, Ev, Eo, Hs.
  destruct (approved_by e1) as [a1|], (approved_by e2) as [a2|]; cbn in Eb; subst; auto;
    right; by split.
Qed.
Definition sample_event (id who : string) : AuditEvent :=
  mkEvent id "2026-01-01T00:00:00+00:00" "evaluate" "default" who "ls" "read" "{}" None false
    "allowed" "" "".
Lemma payload_injective_witness :
  exists e, payload_bytes e = payload_bytes (sample_event "a" "bc") /\
    (link_event e "" "" = link_event (sample_event "a" "bc") "" "" \/
     approved_by e <> None).
Proof.
  exists (sample_event "a" "bc"). split; [reflexivity|].
  destruct (payload_injective (sample_event "a" "bc") (sample_event "a" "bc"))
    as [E|(E & _)]; [repeat constructor|repeat constructor|reflexivity|left; exact E|].
  left. reflexivity.
Defined.

(** Two different events with the same signed payload: one never approved, the
    other approved by the empty name. *)
Theorem payload_approver_ambiguous :
  exists e1 e2, approved_by e1 <> approved_by e2 /\ payload_bytes e1 = payload_bytes e2.
Proof.
  exists (sample_event "a" "b"),
    (mkEvent "a" "2026-01-01T00:00:00+00:00" "evaluate" "default" "b" "ls" "read" "{}" (Some "")
       false "allowed" "" "").
  by split.
Qed.

(** ** What a clean verification means *)
Section Verification.
Context `{Crypto, RowCodec}.

(** The rows are linked from [expected]: every hash is there, every row points to the
    one before it and its hash is the HMAC of its content. *)
Fixpoint linked (master now expected : string) (rows : list AuditRow) : Prop :=
  match rows with
  | [] => True
  | r :: rs =>
      let ev := row_to_event now r in
      event_hash ev <> "" /\ prev_hash ev = expected /\
      compute_event_hmac master (r_key_version r) (payload_bytes ev) expected = event_hash ev /\
      linked master now (event_hash ev) rs
  end.
Definition tail_of (expected : string) (rows : list AuditRow) : string :=
  match last rows with Some r => event_hash (r_event r) | None => expected end.

Lemma tail_of_cons e r rows : tail_of e (r :: rows) = tail_of (event_hash (r_event r)) rows.
Proof.
  unfold tail_of. destruct rows as [|r' rows]; [done|]. rewrite last_cons_cons.
  destruct (last (r' :: rows)) eqn:E; [done|]. by apply last_None in E.
Qed.

Lemma linked_app master now e l1 l2 :
  linked master now e (l1 ++ l2) <->
  linked master now e l1 /\ linked master now (tail_of e l1) l2.
Proof.
  revert e. induction l1 as [|r l1 IH]; intros e; cbn [app linked].
  { cbn. tauto. }
  rewrite IH, tail_of_cons. cbn. tauto.
Qed.

(** What the loop leaves in its counters and its tail. *)
Definition v_counts (s : VState) : nat * nat * nat * bool * option nat * nat :=
  (v_unhashed s, v_verified s, v_broken s, v_tampered s, v_first s, v_key_loss s).

Lemma verify_row_linked tokens tenant now s r rs :
  linked (key tokens) now (v_expected s) (r :: rs) ->
  let s' := verify_row tokens tenant now s r in
  v_expected s' = event_hash (r_event r) /\ v_last_hash s' = event_hash (r_event r) /\
  v_last_id s' = audit_id (row_to_event now r) /\
  v_counts s' = (v_unhashed s,
    v_verified s + (if in_scope tenant (tenant_id (r_event r)) then 1 else 0),
    v_broken s, v_tampered s, v_first s, v_key_loss s).
Proof.
  cbn [linked]. intros (Hne & Hp & Hh & _). unfold verify_row. cbv zeta.
  assert (str_empty (event_hash (row_to_event now r)) = false) as ->
    by (by destruct (event_hash (row_to_event now r))).
  rewrite Hp, String.eqb_refl. cbn [negb]. rewrite Hh, String.eqb_refl. cbn [negb].
  change (tenant_id (row_to_event now r)) with (tenant_id (r_event r)).
  destruct (in_scope _ _); cbn; unfold v_counts; cbn; repeat split;
    rewrite ?Nat.add_0_r, ?Nat.add_1_r; done.
Qed.

Lemma verify_fold_linked tokens tenant now rows s :
  linked (key tokens) now (v_expected s) rows ->
  let s' := foldl (verify_row tokens tenant now) s rows in
  v_counts s' = (v_unhashed s, v_verified s + count_scope tenant rows, v_broken s,
                 v_tampered s, v_first s, v_key_loss s) /\
  v_last_hash s' = (match last rows with Some r => event_hash (r_event r) | None => v_last_hash s end) /\
  v_last_id s' = (match last rows with Some r => audit_id (row_to_event now r) | None => v_last_id s end).
Proof.
  revert s. induction rows as [|r rows IH]; intros s Hl; cbn [foldl].
  { cbn. unfold v_counts. by rewrite Nat.add_0_r. }
  destruct (verify_row_linked tokens tenant now s r rows Hl) as (He & Hh & Hi & Hc).
  destruct Hl as (_ & _ & _ & Hl). unfold v_counts in Hc. injection Hc as C1 C2 C3 C4 C5 C6.
  destruct (IH (verify_row tokens tenant now s r)) as (Hc & Hh' & Hi'); [by rewrite He|].
  cbv zeta in *. rewrite Hc, Hh', Hi', C1, C2, C3, C4, C5, C6, Hh, Hi.
  assert (Hn : count_scope tenant (r :: rows)
               = (if in_scope tenant (tenant_id (r_event r)) then 1 else 0) + count_scope tenant rows).
  { unfold count_scope. rewrite filter_cons. by destruct (in_scope _ _). }
  rewrite Hn, Nat.add_assoc. destruct rows as [|r' rows]; [done|]. rewrite last_cons_cons.
  destruct (last (r' :: rows)) eqn:E; [done|]. by apply last_None in E.
Qed.

(** Nothing in the loop lowers a counter. *)
Lemma verify_row_mono tokens tenant now s r :
  v_broken s <= v_broken (verify_row tokens tenant now s r) /\
  (v_tampered s = true -> v_tampered (verify_row tokens tenant now s r) = true).
Proof.
  unfold verify_row. cbv zeta. repeat case_match; cbn; split; try lia;
    intros ->; rewrite ?orb_true_l; done.
Qed.
Lemma verify_fold_mono tokens tenant now rows s :
  v_broken s <= v_broken (foldl (verify_row tokens tenant now) s rows) /\
  (v_tampered s = true -> v_tampered (foldl (verify_row tokens tenant now) s rows) = true).
Proof.
  revert s. induction rows as [|r rows IH]; intros s; cbn [foldl]; [done|].
  destruct (verify_row_mono tokens tenant now s r) as [? ?].
  destruct (IH (verify_row tokens tenant now s r)) as [? ?]. split; [lia|auto].
Qed.

(** The anchors of the versions in use are not those of another master key. *)
Definition anchors_genuine (tokens : TokenStore) (rows : list AuditRow) : Prop :=
  Forall (fun r => match key_anchor (r_key_version r) tokens with
                   | Some a => a = key_anchor_for_version (key tokens) (r_key_version r)
                   | None => True
                   end) rows.

(** A row that is not linked is counted as broken, and as tampered when its anchor is
    genuine. *)
Lemma verify_row_bad tokens now s r :
  ~ linked (key tokens) now (v_expected s) [r] ->
  v_broken s < v_broken (verify_row tokens None now s r) /\
  (anchors_genuine tokens [r] -> v_tampered (verify_row tokens None now s r) = true).
Proof.
  intros Hbad. unfold verify_row. cbv zeta. cbn [in_scope].
  destruct (str_empty (event_hash (row_to_event now r))) eqn:Ee;
    [cbn; split; [lia|by rewrite orb_true_r]|].
  destruct (String.eqb_spec (prev_hash (row_to_event now r)) (v_expected s)) as [Ep|]; cbn [negb];
    [|cbn; split; [lia|by rewrite orb_true_r]].
  destruct (String.eqb_spec (compute_event_hmac (key tokens) (r_key_version r)
    (payload_bytes (row_to_event now r)) (v_expected s)) (event_hash (row_to_event now r)))
    as [Eh|]; cbn [negb].
  - exfalso. apply Hbad. cbn. repeat split; [|done|done]. intros E.
    change (event_hash (row_to_event now r)) with (event_hash (r_event r)) in Ee. by rewrite E in Ee.
  - unfold classify_break, anchors_genuine. rewrite Forall_singleton.
    destruct (key_anchor _ _) as [a|]; [|cbn; split; [lia|by rewrite orb_true_r]].
    destruct (String.eqb_spec (key_anchor_for_version (key tokens) (r_key_version r)) a);
      cbn; split; [lia|by rewrite orb_true_r|lia|congruence].
Qed.

Lemma verify_row_expected tokens tenant now s r :
  v_expected (verify_row tokens tenant now s r)
  = if str_empty (event_hash (r_event r)) then v_expected s else event_hash (r_event r).
Proof.
  unfold verify_row. cbv zeta.
  change (event_hash (row_to_event now r)) with (event_hash (r_event r)).
  by destruct (str_empty _).
Qed.

Lemma linked_dec master now e r : Decision (linked master now e [r]).
Proof.
  cbn. destruct (decide (event_hash (r_event r) = "")) as [?|?]; [right; tauto|].
  destruct (decide (prev_hash (r_event r) = e)) as [?|?]; [|right; tauto].
  destruct (decide (compute_event_hmac master (r_key_version r)
    (payload_bytes (row_to_event now r)) e = event_hash (r_event r))) as [?|?]; [left|right]; tauto.
Qed.

Lemma verify_fold_bad tokens now rows s :
  ~ linked (key tokens) now (v_expected s) rows ->
  v_broken s < v_broken (foldl (verify_row tokens None now) s rows) /\
  (anchors_genuine tokens rows ->
   v_tampered (foldl (verify_row tokens None now) s rows) = true).
Proof.
  revert s. induction rows as [|r rows IH]; intros s Hbad; [by destruct Hbad|]. cbn [foldl].
  destruct (linked_dec (key tokens) now (v_expected s) r) as [Hr|Hr].
  - destruct (IH (verify_row tokens None now s r)) as [Hb Ht].
    { rewrite verify_row_expected. intros Hl. apply Hbad.
      change (r :: rows) with ([r] ++ rows). apply linked_app. split; [done|].
      rewrite tail_of_cons. unfold tail_of. cbn. destruct Hr as (Hne & _).
      change (event_hash (row_to_event now r)) with (event_hash (r_event r)) in Hne.
      by destruct (event_hash (r_event r)). }
    destruct (verify_row_mono tokens None now s r). split; [lia|].
    intros Hg. apply Ht. by apply Forall_cons in Hg as [_ Hg].
  - destruct (verify_row_bad tokens now s r Hr) as [Hb Ht].
    destruct (verify_fold_mono tokens None now rows (verify_row tokens None now s r)) as [? Hm].
    split; [lia|]. intros Hg. apply Hm, Ht. apply Forall_cons in Hg as [Hg _]. by constructor.
Qed.

Lemma verify_fold_linked_or tokens now rows s :
  linked (key tokens) now (v_expected s) rows \/ ~ linked (key tokens) now (v_expected s) rows.
Proof.
  generalize (v_expected s) as e. induction rows as [|r rows IH]; intros e; [by left|].
  destruct (linked_dec (key tokens) now e r) as [Hr|Hr].
  - destruct (IH (event_hash (r_event r))) as [Hl|Hl]; [left|right]; cbn in *; tauto.
  - right. cbn in *. tauto.
Qed.
End Verification.

Lemma count_scope_none rows : count_scope None rows = length rows.
Proof.
  unfold count_scope. f_equal. induction rows as [|r rows IH]; [done|].
  rewrite filter_cons_True by done. by rewrite IH.
Qed.

Lemma verify_full_eq `{Crypto, RowCodec} tokens now db : scan_anchor db = None ->
  (verify_chain tokens None now db).2 =
  let s := foldl (verify_row tokens None now)
             (mkVState GENESIS_PREV_HASH GENESIS_PREV_HASH
                (match read_checkpoint db with
                 | Some c => last_verified_audit_id c
                 | None => ""
                 end) 0 0 0 0 false None 0) (audit_rows db) in
  mkVerification (length (audit_rows db)) (v_unhashed s) (v_verified s) (v_broken s)
    (v_tampered s) (v_first s) (v_key_loss s).
Proof. intros Hs. unfold verify_chain. rewrite Hs, count_scope_none. done. Qed.

Lemma verify_full_linked `{Crypto, RowCodec} tokens now db : scan_anchor db = None ->
  broken_links (verify_chain tokens None now db).2 = 0 ->
  linked (key tokens) now GENESIS_PREV_HASH (audit_rows db).
Proof.
  intros Hs. rewrite (verify_full_eq tokens now db Hs). cbn [broken_links].
  set (s0 := mkVState _ _ _ _ _ _ _ _ _ _). intros Hb.
  destruct (verify_fold_linked_or tokens now (audit_rows db) s0) as [Hl|Hn]; [done|].
  apply verify_fold_bad in Hn as [Hn _]. lia.
Qed.

(** [C2] A full verification reports no broken link exactly when the whole table is a
    chain from genesis: every row hashed, pointing to the row before it, with the HMAC
    of its content; the report then counts every row as verified.  When the stored
    anchors are those of the current master key, tampering is reported exactly when the
    table is not such a chain. *)
Theorem verify_full_iff `{Crypto, RowCodec} tokens now db (Hs : scan_anchor db = None) :
  let rep := (verify_chain tokens None now db).2 in
  let n := length (audit_rows db) in
  (broken_links rep = 0 <-> linked (key tokens) now GENESIS_PREV_HASH (audit_rows db)) /\
  (broken_links rep = 0 -> rep = mkVerification n 0 n 0 false None 0) /\
  (anchors_genuine tokens (audit_rows db) ->
     tampered rep = true <-> ~ linked (key tokens) now GENESIS_PREV_HASH (audit_rows db)).
Proof.
  cbv zeta. pose proof (verify_full_linked tokens now db Hs) as Hbad.
  rewrite (verify_full_eq tokens now db Hs) in *. cbv zeta in *.
  set (s0 := mkVState _ _ _ _ _ _ _ _ _ _) in *.
  assert (Hlin : linked (key tokens) now GENESIS_PREV_HASH (audit_rows db) ->
    v_counts (foldl (verify_row tokens None now) s0 (audit_rows db))
    = (0, length (audit_rows db), 0, false, None, 0)).
  { intros Hl. destruct (verify_fold_linked tokens None now (audit_rows db) s0 Hl) as [-> _].
    by rewrite count_scope_none. }
  unfold v_counts in Hlin. cbn [broken_links tampered].
  cbn [broken_links] in Hbad.
  split; [|split].
  - split; [done|]. intros Hl. apply Hlin in Hl. congruence.
  - intros Hl%Hbad%Hlin. injection Hl as -> -> -> -> -> ->. done.
  - intros Hg. split.
    + intros Ht Hl. apply Hlin in Hl. congruence.
    + intros Hn. by apply (verify_fold_bad tokens now (audit_rows db) s0).
Qed.

(** ** Binding by the last hash *)

Lemma hex_digit_inj m n : m < 16 -> n < 16 -> hex_digit m = hex_digit n -> m = n.
Proof.
  unfold hex_digit. intros Hm Hn E. apply (f_equal nat_of_ascii) in E.
  destruct (Nat.ltb_spec m 10), (Nat.ltb_spec n 10);
    rewrite !nat_ascii_embedding in E by lia; lia.
Qed.
Lemma hex_encode_inj s t : hex_encode s = hex_encode t -> s = t.
Proof.
  revert t. induction s as [|a s IH]; intros [|b t]; try done. cbn [hex_encode]. intros [= H1 H2 E].
  change (hex_digit (nat_of_ascii a / 16) = hex_digit (nat_of_ascii b / 16)) in H1.
  change (hex_digit (nat_of_ascii a mod 16) = hex_digit (nat_of_ascii b mod 16)) in H2.
  pose proof (nat_ascii_bounded a). pose proof (nat_ascii_bounded b).
  apply hex_digit_inj in H1; [|apply Nat.Div0.div_lt_upper_bound; lia..].
  apply hex_digit_inj in H2; [|apply Nat.mod_upper_bound; lia..].
  f_equal; [|by apply IH]. rewrite <- (ascii_nat_embedding a), <- (ascii_nat_embedding b).
  f_equal. rewrite (Nat.div_mod (nat_of_ascii a) 16), (Nat.div_mod (nat_of_ascii b) 16) by lia.
  congruence.
Qed.
Lemma hex_encode_length s : String.length (hex_encode s) = 2 * String.length s.
Proof. induction s as [|a s IH]; [done|]. cbn [hex_encode String.length]. lia. Qed.

Section Binding.
Context `{HmacLaws} `{RowCodec}.
#[local] Set Default Proof Using "All".

(** Two different inputs of HMAC with the same digest. *)
Definition hmac_collision : Prop :=
  exists k1 m1 k2 m2, (k1, m1) <> (k2, m2) /\ hmac k1 m1 = hmac k2 m2.

Lemma event_hmac_length master kv p e : String.length (compute_event_hmac master kv p e) = 64.
Proof using H H0. unfold compute_event_hmac. by rewrite hex_encode_length, hmac_length. Qed.

Lemma linked_tail_length master now e rows : String.length e = 64 ->
  linked master now e rows -> String.length (tail_of e rows) = 64.
Proof.
  revert e. induction rows as [|r rows IH]; intros e He Hl; [done|]. rewrite tail_of_cons.
  destruct Hl as (_ & _ & Hh & Hl). apply IH; [|done].
  change (event_hash (row_to_event now r)) with (event_hash (r_event r)) in Hh.
  rewrite <- Hh. apply event_hmac_length.
Qed.

Definition same_signed (now : string) (r1 r2 : AuditRow) : Prop :=
  payload_bytes (row_to_event now r1) = payload_bytes (row_to_event now r2) /\
  prev_hash (r_event r1) = prev_hash (r_event r2) /\
  event_hash (r_event r1) = event_hash (r_event r2).

Lemma binding_step master p1 p2 k1 k2 e1 e2 : String.length e1 = 64 -> String.length e2 = 64 ->
  compute_event_hmac master k1 p1 e1 = compute_event_hmac master k2 p2 e2 ->
  (p1 = p2 /\ e1 = e2) \/ hmac_collision.
Proof.
  intros He1 He2 E%hex_encode_inj.
  destruct (decide (e1 +:+ p1 = e2 +:+ p2)) as [Em|Em].
  - left. apply str_app_inj_length in Em as [-> ->]; [done|congruence].
  - right. do 4 eexists. split; [|exact E]. intros [= _ Em']. by apply Em, bytes_inj; rewrite Em'.
Qed.

Lemma linked_binding master now e1 e2 rows1 rows2 :
  String.length e1 = 64 -> String.length e2 = 64 -> length rows1 = length rows2 ->
  linked master now e1 rows1 -> linked master now e2 rows2 ->
  tail_of e1 rows1 = tail_of e2 rows2 ->
  (Forall2 (same_signed now) rows1 rows2 /\ e1 = e2) \/ hmac_collision.
Proof.
  intros He1 He2. revert rows2. induction rows1 as [|r1 rows1 IH] using rev_ind;
    intros rows2 Hlen L1 L2 Ht.
  { destruct rows2; [|done]. left. by split. }
  destruct rows2 as [|r2 rows2 _] using rev_ind; [rewrite length_app in Hlen; cbn in Hlen; lia|].
  rewrite !length_app in Hlen. cbn in Hlen.
  apply linked_app in L1 as [L1 (_ & Hp1 & Hh1 & _)], L2 as [L2 (_ & Hp2 & Hh2 & _)].
  unfold tail_of in Ht. rewrite !last_snoc in Ht.
  destruct (binding_step master (payload_bytes (row_to_event now r1))
    (payload_bytes (row_to_event now r2)) (r_key_version r1) (r_key_version r2)
    (tail_of e1 rows1) (tail_of e2 rows2)) as [[Hp Htl]|?]; [| | | |by right].
  - by apply (linked_tail_length master now).
  - by apply (linked_tail_length master now).
  - rewrite Hh1, Hh2. exact Ht.
  - destruct (IH rows2) as [[HF ->]|?]; [lia|done|done|done| |by right].
    left. split; [|done]. apply Forall2_app; [done|]. constructor; [|constructor].
    split; [done|]. split; [|done]. cbn in Hp1, Hp2. by rewrite Hp1, Hp2.
Qed.
End Binding.

(** *** A concrete instance for the examples

    A polynomial digest of 32 bytes, and a codec that reads a text as it is. *)
Definition toy_digest (s : string) : N :=
  foldl (fun h a => (h * 257 + N_of_ascii a + 1) mod (2 ^ 61 - 1))%N 7%N (bytes s).
Definition toy_hmac (k m : string) : string :=
  let d := toy_digest (k +:+ "|" +:+ m) in
  of_bytes ((fun i => ascii_of_N (N.shiftr d (8 * N.of_nat i) mod 256)) <$> seq 0 32).
#[local] Instance toy_crypto : Crypto := {|
  hkdf m i := m +:+ i; hmac := toy_hmac;
  aes_encrypt _ _ pt := Ok pt; aes_decrypt _ _ ct := Ok ct |}.
#[local] Instance toy_hmac_laws : HmacLaws.
Proof.
  split. intros k m. cbn [hmac toy_crypto]. unfold toy_hmac.
  rewrite <- length_bytes, bytes_of_bytes. by rewrite length_fmap, length_seq.
Qed.
#[local] Instance toy_codec : RowCodec := {| parse_uuid := Some; parse_ts := Some |}.
Definition toy_tokens : TokenStore :=
  mkStore ∅ {[ 1%Z := (0%Z, Some (key_anchor_for_version "master" 1)) ]} "master" 1.
Definition ok_or_same (db : AuditDb) (r : result SqlError AuditDb) : AuditDb :=
  match r with Ok d => d | Err _ => db end.
Definition toy_insert (ev : AuditEvent) (db : AuditDb) : AuditDb :=
  ok_or_same db (insert_audit_event ev "master" 1 db).
Definition toy_db : AuditDb :=
  toy_insert (sample_event "b" "bob") (toy_insert (sample_event "a" "al") (mkDb [] None)).

Lemma verify_full_iff_witness :
  broken_links (verify_chain toy_tokens None "now" toy_db).2 = 0 /\
  linked "master" "now" GENESIS_PREV_HASH (audit_rows toy_db).
Proof.
  split; [vm_compute; reflexivity|].
  apply (verify_full_iff toy_tokens "now" toy_db); vm_compute; reflexivity.
Defined.


(** ** Honest histories verify clean *)
Section Honest.
Context `{HmacLaws} `{RowCodec} (master : string).
#[local] Set Default Proof Using "All".

(** The texts of the id and of the time are what the codec gives back. *)
Definition canonical (ev : AuditEvent) : Prop :=
  audit_id ev <> "" /\ parse_uuid (audit_id ev) = Some (audit_id ev) /\
  parse_ts (ts ev) = Some (ts ev).

(** [VACUUM] may renumber the rows, keeping their order. *)
Definition ascending (rows : list AuditRow) : Prop :=
  StronglySorted (fun a b => (r_rowid a < r_rowid b)%Z) rows /\
  Forall (fun r => (0 < r_rowid r)%Z) rows.
Definition same_but_rowid (a b : AuditRow) : Prop :=
  r_event a = r_event b /\ r_seatbelt a = r_seatbelt b /\ r_key_version a = r_key_version b.
Definition renumbered (db db' : AuditDb) : Prop :=
  Forall2 same_but_rowid (audit_rows db) (audit_rows db') /\ ascending (audit_rows db') /\
  checkpoint db' = checkpoint db.

(** The databases the program produces. *)
Inductive honest : AuditDb -> Prop :=
| honest_new : honest (mkDb [] None)
| honest_insert db ev kv db' : honest db -> canonical ev ->
    insert_audit_event ev master kv db = Ok db' -> honest db'
| honest_verify db tokens tenant now : honest db -> key tokens = master ->
    honest (verify_chain tokens tenant now db).1
| honest_rotate db cutoff now bytes out : honest db ->
    honest (rotate_old_rows cutoff now bytes out db).1
| honest_vacuum db db' : honest db -> renumbered db db' -> honest db'.

(** A row as insertion leaves it. *)
Definition row_ok (r : AuditRow) : Prop :=
  canonical (r_event r) /\ r_seatbelt r = if ev_seatbelt (r_event r) then 1%Z else 0%Z.
Lemma row_ok_event now r : row_ok r -> row_to_event now r = r_event r.
Proof.
  intros ((_ & Hu & Ht) & Hs). unfold row_to_event. rewrite Hu, Ht, Hs. cbn.
  destruct (r_event r) as [? ? ? ? ? ? ? ? ? [] ? ? ?]; done.
Qed.

(** How the checkpoint fits the table that starts at [start]. *)
Definition anchored (db : AuditDb) (start : string) : Prop :=
  match read_checkpoint db with
  | None => start = GENESIS_PREV_HASH
  | Some c =>
      if str_empty (last_verified_audit_id c) then last_archived_hash c = Some start /\ start <> ""
      else exists pre r suf, audit_rows db = pre ++ r :: suf /\
             audit_id (r_event r) = last_verified_audit_id c /\
             event_hash (r_event r) = last_verified_hash c
  end.
(** A table that is a chain from [start]. *)
Definition table_ok (start : string) (rows : list AuditRow) : Prop :=
  (forall now, linked master now start rows) /\ Forall row_ok rows /\ ascending rows /\
  NoDup ((fun r => audit_id (r_event r)) <$> rows).
Definition chain_inv (db : AuditDb) : Prop :=
  exists start, table_ok start (audit_rows db) /\ anchored db start.

Lemma linked_non_empty now e rows r : linked master now e rows -> In r rows ->
  event_hash (r_event r) <> "".
Proof.
  revert e. induction rows as [|x rows IH]; intros e; [done|].
  intros (Hne & _ & _ & Hl) [->|Hin]; [done|by eapply IH].
Qed.

Lemma ascending_app l1 l2 : ascending (l1 ++ l2) -> ascending l1 /\ ascending l2.
Proof using.
  intros [Hs Hp]. apply Forall_app in Hp as [? ?]. split; split; auto.
  - by eapply StronglySorted_app_1_l.
  - by eapply StronglySorted_app_1_r.
Qed.
Lemma ascending_split pre r suf : ascending (pre ++ r :: suf) ->
  filter (fun x => (r_rowid r < r_rowid x)%Z) (pre ++ r :: suf) = suf.
Proof using.
  intros [Hs _]. rewrite filter_app, filter_cons_False by lia.
  assert (Hpre : filter (fun x => (r_rowid r < r_rowid x)%Z) pre = []).
  { assert (HF : Forall (fun x => (r_rowid x < r_rowid r)%Z) pre).
    { apply Forall_forall. intros x Hx.
      apply (StronglySorted_app_1_elem_of _ _ _ x r Hs); [done|left]. }
    clear Hs. induction HF as [|x l Hx _ IH]; [done|]. rewrite filter_cons_False by lia. done. }
  rewrite Hpre. cbn. apply StronglySorted_app_1_r, StronglySorted_cons in Hs as [HF _].
  clear Hpre. induction HF as [|x l Hx _ IH]; [done|]. rewrite filter_cons_True by lia. by rewrite IH.
Qed.
Lemma find_unique (pre suf : list AuditRow) r :
  NoDup ((fun r => audit_id (r_event r)) <$> pre ++ r :: suf) ->
  rowid_of_audit (audit_id (r_event r)) (pre ++ r :: suf) = Some r.
Proof using.
  unfold rowid_of_audit. induction pre as [|x pre IH]; cbn; intros Hnd.
  { by rewrite String.eqb_refl. }
  apply NoDup_cons in Hnd as [Hx Hnd].
  destruct (String.eqb_spec (audit_id (r_event x)) (audit_id (r_event r))) as [E|]; [|by apply IH].
  destruct Hx. rewrite E. apply list_elem_of_fmap. exists r. split; [done|].
  apply list_elem_of_In, in_or_app. right. by left.
Qed.

(** The rows a verification scans and the hash it starts from. *)
Definition scanned (db : AuditDb) : list AuditRow :=
  match scan_anchor db with
  | Some (a, _) => filter (fun r => (a < r_rowid r)%Z) (audit_rows db)
  | None => audit_rows db
  end.
Definition scan_start (db : AuditDb) : string :=
  match scan_anchor db with Some (_, h) => h | None => GENESIS_PREV_HASH end.

Lemma filter_positive rows : ascending rows -> filter (fun r => (0 < r_rowid r)%Z) rows = rows.
Proof using.
  intros [_ HF]. induction HF as [|r rows Hr _ IH]; [done|]. by rewrite filter_cons_True, IH.
Qed.
Lemma non_empty_some s : s <> "" -> non_empty (Some s) = Some s.
Proof using. by destruct s. Qed.
Lemma str_empty_false s : s <> "" -> str_empty s = false.
Proof using. by destruct s. Qed.

Lemma scan_split db start : (forall now, linked master now start (audit_rows db)) ->
  ascending (audit_rows db) -> NoDup ((fun r => audit_id (r_event r)) <$> audit_rows db) ->
  anchored db start ->
  exists pre, audit_rows db = pre ++ scanned db /\ scan_start db = tail_of start pre /\
    (scanned db = [] -> read_checkpoint db = None -> audit_rows db = []).
Proof.
  intros Hl Ha Hnd Han. unfold anchored in Han. unfold scanned, scan_start, scan_anchor.
  destruct (read_checkpoint db) as [c|]; cbn [mbind option_bind]; [|by exists []; subst].
  destruct (str_empty (last_verified_audit_id c)) eqn:Ec.
  - destruct Han as [-> Hne]. rewrite non_empty_some by done. cbn [mbind option_bind].
    exists []. by rewrite filter_positive.
  - destruct Han as (pre & r & suf & Hrows & Hid & Hh). rewrite Hrows in *. rewrite <- Hid.
    rewrite find_unique by done. cbn [mbind option_bind]. rewrite <- Hh.
    assert (Hne : event_hash (r_event r) <> "").
    { apply (linked_non_empty "" start (pre ++ r :: suf)); [done|]. apply in_or_app. right. by left. }
    rewrite non_empty_some by done. cbn [mbind option_bind]. rewrite String.eqb_refl.
    exists (pre ++ [r]). rewrite ascending_split by done. split; [by rewrite <- app_assoc|].
    split; [|done]. unfold tail_of. by rewrite last_snoc.
Qed.

Lemma tail_hash_inv db start : (forall now, linked master now start (audit_rows db)) ->
  (audit_rows db = [] -> anchored db start) -> tail_hash db = tail_of start (audit_rows db).
Proof.
  intros Hl Han. unfold tail_hash, tail_of. destruct (last (audit_rows db)) as [r|] eqn:E.
  - cbn [fmap option_fmap option_map]. rewrite non_empty_some; [done|].
    apply (linked_non_empty "" start (audit_rows db)); [done|].
    apply list_elem_of_In. apply last_Some in E as [l ->]. apply elem_of_app. right. by left.
  - apply last_None in E. cbn. specialize (Han E). unfold anchored in Han.
    destruct (read_checkpoint db) as [c|]; [|done]. destruct (str_empty _).
    + destruct Han as [-> Hne]. by rewrite non_empty_some.
    + destruct Han as (pre & r & suf & Hrows & _). rewrite E in Hrows. by destruct pre.
Qed.

Lemma ascending_snoc rows r : ascending rows -> r_rowid r = next_rowid rows -> ascending (rows ++ [r]).
Proof using.
  intros [Hs Hp] Hr. unfold next_rowid in Hr.
  assert (HF : Forall (fun x => (r_rowid x < r_rowid r)%Z) rows /\ (0 < r_rowid r)%Z).
  { destruct (last rows) as [l|] eqn:E; [|apply last_None in E; subst rows; split; [constructor|lia]].
    apply last_Some in E as [rows' ->]. apply Forall_app in Hp as [_ Hp]. rewrite Forall_singleton in Hp.
    split; [|lia]. apply Forall_app. split; [|constructor; [lia|constructor]].
    apply Forall_forall. intros x Hx.
    pose proof (StronglySorted_app_1_elem_of _ _ _ x l Hs Hx (list_elem_of_here _ _)) as Hlt.
    cbn in Hlt. lia. }
  destruct HF as [HF Hpos]. split.
  - apply StronglySorted_app_2; [|done|by repeat constructor].
    intros x y Hx ->%list_elem_of_singleton. rewrite Forall_forall in HF. by apply HF.
  - apply Forall_app. split; [done|by repeat constructor].
Qed.

(** Rows added at the end do not move the anchor. *)
Lemma anchored_app rows l cp start : anchored (mkDb rows cp) start ->
  anchored (mkDb (rows ++ l) cp) start.
Proof using.
  unfold anchored. change (read_checkpoint (mkDb (rows ++ l) cp)) with (read_checkpoint (mkDb rows cp)).
  destruct (read_checkpoint _) as [c|]; [|done]. destruct (str_empty _); [done|].
  intros (pre & x & suf & Hrows & ?). exists pre, x, (suf ++ l).
  cbn [audit_rows] in *. by rewrite Hrows, <- app_assoc.
Qed.
Lemma insert_rows ev kv db db' : insert_audit_event ev master kv db = Ok db' ->
  exists r, audit_rows db' = audit_rows db ++ [r] /\ checkpoint db' = checkpoint db /\
    link_event (r_event r) "" "" = link_event ev "" "".
Proof using.
  unfold insert_audit_event, insert_audit_event_tx. destruct (existsb _ _); [done|]. intros [= <-]. by eexists.
Qed.
Lemma table_insert start db ev kv db' : table_ok start (audit_rows db) ->
  (audit_rows db = [] -> anchored db start) -> canonical ev ->
  insert_audit_event ev master kv db = Ok db' -> table_ok start (audit_rows db').
Proof.
  intros (Hl & Hok & Ha & Hnd) Han Hev. unfold insert_audit_event, insert_audit_event_tx.
  destruct (existsb _ _) eqn:Eid; [done|]. intros [= <-].
  pose proof (tail_hash_inv db start Hl Han) as Ht.
  set (r := mkRow _ _ _ _). cbn [audit_rows].
  assert (Hr : row_ok r) by (split; [exact Hev|done]).
  split; [|split; [|split]].
  - intros now. apply linked_app. split; [done|]. cbn [linked].
    rewrite (row_ok_event now r Hr). cbn [r_event r link_event event_hash prev_hash].
    rewrite Ht. repeat split; auto.
    intros E. apply (f_equal String.length) in E. by rewrite event_hmac_length in E.
  - apply Forall_app. split; [done|]. constructor; [exact Hr|constructor].
  - by apply ascending_snoc.
  - rewrite fmap_app. apply NoDup_app. split; [done|]. split; [|apply NoDup_singleton].
    intros x (y & -> & Hy)%list_elem_of_fmap Hx%list_elem_of_singleton.
    rewrite existsb_false in Eid. apply list_elem_of_In, Eid in Hy. cbn in Hx.
    by rewrite Hx, String.eqb_refl in Hy.
Qed.
Lemma anchored_insert start db ev kv db' : insert_audit_event ev master kv db = Ok db' ->
  anchored db start -> anchored db' start.
Proof using.
  intros (r & Hr & Hc & _)%insert_rows. destruct db, db'. cbn in *. subst. apply anchored_app.
Qed.
Lemma inv_insert db ev kv db' : chain_inv db -> canonical ev ->
  insert_audit_event ev master kv db = Ok db' -> chain_inv db'.
Proof.
  intros (start & Ht & Han) Hev Hi. exists start.
  split; [by eapply table_insert|by eapply anchored_insert].
Qed.

(** A scan of a prefix of the rows a verification of such a database is about: nothing broken,
    and the checkpoint it would write fits the table. *)
Lemma scan_ok db start tokens tenant now rows newer : table_ok start (audit_rows db) ->
  anchored db start -> key tokens = master -> scanned db = rows ++ newer ->
  let cp := read_checkpoint db in
  let s := foldl (verify_row tokens tenant now)
             (mkVState (scan_start db) (scan_start db)
                (match cp with Some c => last_verified_audit_id c | None => "" end)
                0 0 0 0 false None 0) rows in
  v_counts s = (0, count_scope tenant rows, 0, false, None, 0) /\
  (rows <> [] \/ cp = None ->
   anchored (write_checkpoint (mkCheckpoint (v_last_id s) (v_last_hash s)
     (c ← cp; last_archived_audit_id c) (c ← cp; last_archived_hash c)) db) start).
Proof.
  intros (Hl & Hok & Ha & Hnd) Han Hkey Hscan.
  destruct (scan_split db start Hl Ha Hnd Han) as (pre & Hsplit & Hstart & _). rewrite Hscan in Hsplit.
  assert (Hls : linked (key tokens) now (scan_start db) rows).
  { rewrite Hkey, Hstart. specialize (Hl now). rewrite Hsplit in Hl.
    by apply linked_app in Hl as [_ [Hl _]%linked_app]. }
  cbv zeta. set (s0 := mkVState _ _ _ _ _ _ _ _ _ _).
  destruct (verify_fold_linked tokens tenant now rows s0 Hls) as (Hc & Hh & Hi).
  set (s := foldl _ _ _) in *. split; [exact Hc|]. intros Hcase.
  destruct (last rows) as [r|] eqn:El.
  - assert (Hr : row_ok r).
    { rewrite Forall_forall in Hok. apply Hok. rewrite Hsplit. rewrite !elem_of_app. right. left.
      by apply last_Some_elem_of. }
    rewrite (row_ok_event now r Hr) in Hi. destruct Hr as [[Hne _] _].
    unfold anchored, read_checkpoint. cbn [checkpoint write_checkpoint cp_vid cp_vhash audit_rows
      last_verified_audit_id last_verified_hash]. rewrite Hi, Hh.
    destruct (audit_id (r_event r)) as [|a i] eqn:Eid; [done|]. cbn.
    apply last_Some in El as [init ->]. exists (pre ++ init), r, newer.
    by rewrite Hsplit, <- !app_assoc.
  - apply last_None in El as ->. destruct Hcase as [?|Hcp]; [done|].
    subst s s0. unfold anchored in *. rewrite Hcp in *. done.
Qed.

(** The report and the next checkpoint of a verification of such a database. *)
Lemma inv_verify db tokens tenant now : chain_inv db -> key tokens = master ->
  chain_inv (verify_chain tokens tenant now db).1 /\
  (verify_chain tokens tenant now db).2
  = mkVerification (count_scope tenant (audit_rows db)) 0 (count_scope tenant (scanned db)) 0
      false None 0.
Proof.
  intros (start & Ht & Han) Hkey.
  destruct (scan_ok db start tokens tenant now (scanned db) [] Ht Han Hkey) as [Hc Hcp];
    [by rewrite app_nil_r|].
  unfold verify_chain. fold (scanned db) (scan_start db). cbv zeta in *.
  set (s := foldl _ _ _) in *. injection Hc as -> -> -> -> -> ->. split; [|done].
  cbn [negb andb fst]. destruct (_ || _) eqn:Eb; [|by exists start].
  exists start. split; [exact Ht|]. apply Hcp. apply orb_true_iff in Eb as [Eb|Eb].
  - left. apply negb_true_iff in Eb. by apply bool_decide_eq_false in Eb.
  - right. by apply bool_decide_eq_true in Eb.
Qed.

Lemma last_default {A} (z x y : A) l : List.last (z :: l) x = List.last (z :: l) y.
Proof using. revert z. induction l as [|w l IH]; intros z; [done|]. exact (IH w). Qed.
Lemma last_of_cons {A} (x : A) l : last (x :: l) = Some (List.last l x).
Proof using.
  revert x. induction l as [|y l IH]; intros x; [done|]. rewrite last_cons_cons, IH. f_equal.
  destruct l as [|z l]; [done|]. exact (last_default z y x l).
Qed.
Lemma rowid_range first rest left : ascending ((first :: rest) ++ left) ->
  filter (fun r => ~ (r_rowid first <= r_rowid r <= r_rowid (List.last rest first))%Z)
    ((first :: rest) ++ left) = left.
Proof using.
  intros [Hs _]. set (t := List.last rest first).
  assert (Ht : t ∈ first :: rest) by (apply last_Some_elem_of, last_of_cons).
  assert (Hin : Forall (fun r => (r_rowid first <= r_rowid r <= r_rowid t)%Z) (first :: rest)).
  { apply StronglySorted_app_1_l in Hs. apply Forall_forall. intros x Hx.
    assert (Hge : forall l (y z : AuditRow),
      StronglySorted (fun a b => (r_rowid a < r_rowid b)%Z) (y :: l) -> z ∈ y :: l ->
      (r_rowid y <= r_rowid z)%Z).
    { intros l y z [Hf _]%StronglySorted_cons [->|Hz]%elem_of_cons; [lia|].
      rewrite Forall_forall in Hf. apply Hf in Hz. lia. }
    split; [by apply (Hge rest)|].
    pose proof (last_of_cons first rest) as [init Hi]%last_Some. fold t in Hi. rewrite Hi in Hs, Hx.
    apply elem_of_app in Hx as [Hx|Hx]; [|apply list_elem_of_singleton in Hx as ->; lia].
    pose proof (StronglySorted_app_1_elem_of _ _ _ x t Hs Hx (list_elem_of_here _ _)). cbn in *. lia. }
  assert (Hout : Forall (fun r => (r_rowid t < r_rowid r)%Z) left).
  { apply Forall_forall. intros x Hx. by apply (StronglySorted_app_1_elem_of _ _ _ t x Hs). }
  rewrite filter_app. clear Hs Ht.
  replace (filter _ (first :: rest)) with (@nil AuditRow).
  - cbn. induction Hout as [|x l Hx _ IH]; [done|]. rewrite filter_cons_True by lia. by rewrite IH.
  - symmetry. clearbody t. revert Hin. generalize (r_rowid first) as lo. intros lo Hin.
    induction Hin as [|x l Hx _ IH]; [done|]. rewrite filter_cons_False; [done|]. tauto.
Qed.

(** What is left of a table without its first rows, and the checkpoint for it. *)
Lemma table_drop start first rest left : table_ok start ((first :: rest) ++ left) ->
  table_ok (event_hash (r_event (List.last rest first))) left /\
  event_hash (r_event (List.last rest first)) <> "" /\ row_ok (List.last rest first).
Proof.
  intros (Hl & Hok & Ha & Hnd).
  assert (Hin : List.last rest first ∈ first :: rest) by (apply last_Some_elem_of, last_of_cons).
  assert (Hne : event_hash (r_event (List.last rest first)) <> "").
  { apply (linked_non_empty "" start ((first :: rest) ++ left)); [done|].
    apply in_or_app. left. by apply list_elem_of_In. }
  apply Forall_app in Hok as [Hok1 Hok2]. apply ascending_app in Ha as [_ Ha2].
  rewrite fmap_app in Hnd. apply NoDup_app in Hnd as (_ & _ & ?).
  split; [|split; [done|rewrite Forall_forall in Hok1; by apply Hok1]].
  split; [|done]. intros now. specialize (Hl now). apply linked_app in Hl as [_ Hl].
  unfold tail_of in Hl. by rewrite last_of_cons in Hl.
Qed.
Lemma rotated_anchored start rows cp id : table_ok start rows -> start <> "" ->
  anchored (write_checkpoint (rotated_checkpoint rows id start) (mkDb rows cp)) start.
Proof using.
  intros (_ & Hok & _) Hne. unfold anchored, read_checkpoint, rotated_checkpoint.
  destruct rows as [|r left]; cbn; [by destruct start|].
  apply Forall_cons in Hok as [[[Hid _] _] _].
  destruct (audit_id (r_event r)) as [|a i] eqn:Eid; [done|]. cbn.
  exists [], r, left. by rewrite Eid.
Qed.
Lemma inv_rotate db cutoff now bytes out : chain_inv db ->
  chain_inv (rotate_old_rows cutoff now bytes out db).1.
Proof.
  intros Hinv. unfold rotate_old_rows. cbv zeta. destruct (_ && _); [done|].
  set (n := if _ : bool then _ else _). pose proof (take_drop n (audit_rows db)) as Hsplit.
  destruct (take n (audit_rows db)) as [|first rest] eqn:Et; [done|].
  set (left := drop n (audit_rows db)) in *. clearbody left n.
  pose proof Hinv as (start & Ht & _). rewrite <- Hsplit in Ht.
  pose proof Ht as (_ & _ & Ha & _). destruct (table_drop start first rest left Ht) as (Ht' & Hne & Hok).
  rewrite <- Hsplit, rowid_range, (row_ok_event now) by done.
  destruct out; [exact Hinv|..]; eexists; (split; [exact Ht'|by apply rotated_anchored]).
Qed.

Lemma row_to_event_same now a b : same_but_rowid a b -> row_to_event now a = row_to_event now b.
Proof. intros (He & Hs & _). unfold row_to_event. by rewrite He, Hs. Qed.
Lemma linked_same now e rows rows' : Forall2 same_but_rowid rows rows' ->
  linked master now e rows -> linked master now e rows'.
Proof.
  intros HF. revert e. induction HF as [|a b rows rows' Hab _ IH]; intros e; [done|]. cbn [linked].
  rewrite (row_to_event_same now a b Hab). destruct Hab as (_ & _ & ->). naive_solver.
Qed.
Lemma table_vacuum start db db' : table_ok start (audit_rows db) -> renumbered db db' ->
  table_ok start (audit_rows db').
Proof.
  intros (Hl & Hok & Ha & Hnd) (HF & Ha' & Hcp).
  assert (Hev : (fun r => r_event r) <$> audit_rows db = (fun r => r_event r) <$> audit_rows db').
  { clear -HF. induction HF as [|a b ? ? [He _] _ IH]; [done|]. cbn. by rewrite He, IH. }
  split; [intros now; by eapply linked_same|]. split.
  { clear -HF Hok. induction HF as [|a b rows rows' (He & Hs & _) _ IH]; [constructor|].
    apply Forall_cons in Hok as [[? ?] ?]. constructor; [|by apply IH].
    split; [by rewrite <- He|by rewrite <- He, <- Hs]. }
  split; [done|].
  replace ((fun r => audit_id (r_event r)) <$> audit_rows db')
    with (audit_id <$> ((fun r => r_event r) <$> audit_rows db')) by (by rewrite <- list_fmap_compose).
  rewrite <- Hev, <- list_fmap_compose. exact Hnd.
Qed.
Lemma anchored_vacuum start db db' : anchored db start -> renumbered db db' -> anchored db' start.
Proof using.
  unfold anchored. intros Han (HF & _ & Hcp). replace (read_checkpoint db') with (read_checkpoint db)
    by (unfold read_checkpoint; by rewrite Hcp).
  destruct (read_checkpoint db) as [c|]; [|done]. destruct (str_empty _); [done|].
  destruct Han as (pre & r & suf & Hrows & Hid & Hh). rewrite Hrows in HF.
  apply Forall2_app_inv_l in HF as (pre' & l' & Hp & Hl' & ->).
  apply Forall2_cons_inv_l in Hl' as (r' & suf' & (He & _) & _ & ->).
  exists pre', r', suf'. by rewrite <- He.
Qed.
Lemma inv_vacuum db db' : chain_inv db -> renumbered db db' -> chain_inv db'.
Proof.
  intros (start & Ht & Han) Hr. exists start.
  split; [by eapply table_vacuum|by eapply anchored_vacuum].
Qed.

Lemma honest_inv db : honest db -> chain_inv db.
Proof.
  induction 1 as [|db ev kv db' _ IH Hev Hi|db tokens tenant now _ IH Hk|db c n b o _ IH|db db' _ IH Hr].
  - exists GENESIS_PREV_HASH. split; [|done]. repeat split; constructor.
  - by eapply inv_insert.
  - by apply inv_verify.
  - by apply inv_rotate.
  - by eapply inv_vacuum.
Qed.
End Honest.

(** Whatever the program does to its audit table verifies clean: after any sequence
    of insertions (under any key versions), verifications of any scope, rotations into the
    archive (whose file write may fail) and vacuums that renumber rows, a verification by
    any tenant or by all finds no broken, unhashed or tampered row, and counts exactly the
    rows of its scope. *)
Theorem honest_history_verifies `{HmacLaws, RowCodec} master db tokens tenant now
  (Hdb : honest master db) (Hkey : key tokens = master) :
  let rep := (verify_chain tokens tenant now db).2 in
  broken_links rep = 0 /\ unhashed_rows rep = 0 /\ tampered rep = false /\
  first_broken_at rep = None /\ key_version_unknown_rows rep = 0 /\
  total_rows rep = count_scope tenant (audit_rows db).
Proof.
  destruct (inv_verify master db tokens tenant now (honest_inv master db Hdb) Hkey) as [_ ->].
  done.
Qed.
Lemma honest_history_verifies_witness :
  tampered (verify_chain toy_tokens (Some "default") "now"
    (rotate_old_rows "2026-06-01" "now" 0 Written toy_db).1).2 = false.
Proof.
  apply (honest_history_verifies "master"); [|reflexivity].
  apply honest_rotate.
  apply (honest_insert "master" (toy_insert (sample_event "a" "al") (mkDb [] None))
           (sample_event "b" "bob") 1); [|by repeat split|vm_compute; reflexivity].
  apply (honest_insert "master" (mkDb [] None) (sample_event "a" "al") 1);
    [apply honest_new|by repeat split|vm_compute; reflexivity].
Defined.

Section Accounting.
Context `{Crypto, RowCodec}.
Definition accounted (tenant : option string) (rows : list AuditRow) (s0 s : VState) : Prop :=
  v_verified s + v_broken s = v_verified s0 + v_broken s0 + count_scope tenant rows /\
  v_unhashed s0 <= v_unhashed s /\ v_broken s0 <= v_broken s /\ v_key_loss s0 <= v_key_loss s /\
  v_unhashed s - v_unhashed s0 + (v_key_loss s - v_key_loss s0) <= v_broken s - v_broken s0 /\
  (v_tampered s = true <->
     v_tampered s0 = true \/ v_key_loss s - v_key_loss s0 < v_broken s - v_broken s0).
Lemma verify_row_accounted tokens tenant now s r :
  accounted tenant [r] s (verify_row tokens tenant now s r).
Proof.
  unfold accounted, verify_row, count_scope. cbv zeta. rewrite filter_cons, filter_nil.
  change (tenant_id (row_to_event now r)) with (tenant_id (r_event r)).
  assert (Ho : forall b, b || true = true <-> b = true \/ True) by (intros []; intuition).
  destruct (in_scope tenant (tenant_id (r_event r))); cbn [decide].
  - destruct (decide (true = true)); [|done]. cbn [length].
    destruct (str_empty _); [|destruct (negb _); [|destruct (negb _)]]; [| |destruct (classify_break _ _)|];
      cbn; rewrite ?orb_false_r, ?Ho; repeat split; try lia; intuition lia.
  - destruct (decide (false = true)); [done|]. cbn [length].
    destruct (str_empty _); [|destruct (negb _); [|destruct (negb _)]];
      cbn; repeat split; try lia; intuition lia.
Qed.
Lemma verify_fold_accounted tokens tenant now rows s :
  accounted tenant rows s (foldl (verify_row tokens tenant now) s rows).
Proof.
  revert s. induction rows as [|r rows IH]; intros s; cbn [foldl].
  { unfold accounted, count_scope. cbn. repeat split; try lia; intuition lia. }
  pose proof (verify_row_accounted tokens tenant now s r) as (A1 & A2 & A3 & A4 & A5 & A6).
  pose proof (IH (verify_row tokens tenant now s r)) as (B1 & B2 & B3 & B4 & B5 & B6).
  assert (Hc : count_scope tenant (r :: rows) = count_scope tenant [r] + count_scope tenant rows)
    by (unfold count_scope; change (r :: rows) with ([r] ++ rows); by rewrite filter_app, length_app).
  unfold accounted. rewrite Hc, B6, A6. repeat split; try lia; intuition lia.
Qed.
End Accounting.

(** The report accounts for every row scanned: each row of the scope is either
    verified or broken and none is counted twice, unhashed rows and rows of a lost key are
    among the broken ones, and tampering is reported exactly when some broken row is not
    explained by a lost key. *)
Theorem verify_report_accounts `{Crypto, RowCodec} tokens tenant now db :
  let rep := (verify_chain tokens tenant now db).2 in
  verified_links rep + broken_links rep = count_scope tenant (scanned db) /\
  unhashed_rows rep + key_version_unknown_rows rep <= broken_links rep /\
  (tampered rep = true <-> key_version_unknown_rows rep < broken_links rep).
Proof.
  unfold verify_chain. fold (scanned db). cbv zeta. set (s0 := mkVState _ _ _ _ _ _ _ _ _ _).
  destruct (verify_fold_accounted tokens tenant now (scanned db) s0) as (A1 & _ & _ & _ & A5 & A6).
  cbn in *. rewrite !Nat.sub_0_r in *. rewrite A6. repeat split; [lia|lia| |auto].
  intros [?|?]; [done|lia].
Qed.

(** ** What a verification does not see *)

Definition alter_row (id who : string) (db : AuditDb) : AuditDb :=
  mkDb ((fun r => if String.eqb (audit_id (r_event r)) id
                  then mkRow (mkEvent (audit_id (r_event r)) (ts (r_event r)) (event_type (r_event r))
                         (tenant_id (r_event r)) who (ev_action (r_event r)) (ev_category (r_event r))
                         (verdict_json (r_event r)) (approved_by (r_event r)) (ev_seatbelt (r_event r))
                         (outcome (r_event r)) (prev_hash (r_event r)) (event_hash (r_event r)))
                         (r_seatbelt r) (r_key_version r) (r_rowid r)
                  else r) <$> audit_rows db) (checkpoint db).

(** A verification scoped to one tenant moves the shared checkpoint past rows of the
    others without judging them: a row altered in another tenant is found by a first
    verification of all rows, but not by one that follows the scoped verification. *)
Theorem tenant_verify_hides_tamper :
  let db := alter_row "b" "mallory" toy_db in
  tampered (verify_chain toy_tokens None "now" db).2 = true /\
  let db' := (verify_chain toy_tokens (Some "acme") "now" db).1 in
  (verify_chain toy_tokens None "now" db').2 = mkVerification 2 0 0 0 false None 0.
Proof. vm_compute. done. Qed.

(** Rows before the checkpoint are not looked at again: a row altered after it was
    verified is never reported by a later verification, and the position of a break is
    counted from the checkpoint, not from the start of the table. *)
Theorem incremental_skips_verified_rows :
  let db := (verify_chain toy_tokens None "now" toy_db).1 in
  (verify_chain toy_tokens None "now" (alter_row "a" "mallory" db)).2
    = mkVerification 2 0 0 0 false None 0 /\
  let db3 := toy_insert (sample_event "c" "cat") db in
  first_broken_at (verify_chain toy_tokens None "now" (alter_row "c" "mallory" db3)).2 = Some 0.
Proof. vm_compute. done. Qed.

(** The anchors that tell key loss from tampering are themselves not authenticated:
    with the anchor of a version overwritten, an altered row of that version counts as key
    loss, nothing is reported as tampered, and the checkpoint moves past it. *)
Theorem forged_anchor_hides_tamper :
  let tok := mkStore ∅ {[ 1%Z := (0%Z, Some "forged") ]} "master" 1 in
  let db := alter_row "b" "mallory" toy_db in
  let '(db', rep) := verify_chain tok None "now" db in
  tampered rep = false /\ key_version_unknown_rows rep = 1 /\
  (verify_chain toy_tokens None "now" db').2 = mkVerification 2 0 0 0 false None 0.
Proof. vm_compute. done. Qed.

(** When the archive file is opened but the write fails, rotation still deletes the
    rows: they are in neither the table nor the file. *)
Theorem rotation_loses_rows_on_write_error :
  rotate_old_rows "2026-06-01" "now" 0 WriteFailed toy_db
  = (mkDb [] (Some (mkCpRow (Some "") (Some "") (Some "b")
                      (Some (tail_hash toy_db)))), []).
Proof. vm_compute. done. Qed.
End ChainSpec.
