(* ===== verification/Actions.v ===== *)
(** * Pending actions (fg-store/src/action_store.rs)

    Actions that wait for a human decision: storing one, the atomic confirmation that
    writes the audit row and consumes the action in one transaction, and eviction.  The
    JSON form of a verdict is the class [VerdictCodec]. *)
From S2P Require Import Prelude Core Pattern Tokens Chain ChainSpec.

Class VerdictCodec : Type := {
  (** [serde_json::to_string] and [from_str] on [GuardVerdict]; the former cannot fail on
      this type *)
  verdict_to_json : GuardVerdict -> string;
  verdict_of_json : string -> result string GuardVerdict
}.
(** The derived serialisation reads back what it wrote. *)
Class VerdictCodecLaws `{VerdictCodec} : Prop := {
  verdict_json_roundtrip v : verdict_of_json (verdict_to_json v) = Ok v
}.

Module Actions.
Import Tokens Chain.

Definition ACTION_TTL_SECS : Z := 30.

Record PendingRow : Type := mkPending {
  p_json : string;
  p_risk : Z;
  p_created : Z;
  p_consumed : Z;
  p_ttl : Z;
  p_tenant : string
}.
Abbreviation ActionTable := (gmap string PendingRow).

Inductive ActionError : Type :=
| ANotFound (id : string)
| AExpired (id : string)
| Consumed (id : string)
| AbsoluteBlock (id : string)
| CrossTenant (stored caller : string)
| RiskTampered (stored : Z) (json : string)
| AuditFailed (e : SqlError)
| ASerde (msg : string).

(** [risk_level as i64] *)
Definition risk_code (r : RiskLevel) : Z := Z.of_nat (rank r).

Section WithParams.
Context `{Crypto, RowCodec, VerdictCodec}.

(** [ActionStore::put] *)
Definition put (now : Z) (v : GuardVerdict) (tenant : string) (t : ActionTable) : ActionTable :=
  match action_id v with
  | None => t
  | Some id => <[id := mkPending (verdict_to_json v) (risk_code (risk_level v)) now 0
                         ACTION_TTL_SECS tenant]> t
  end.

(** The verdict after the decision. *)
Definition decided (approved : bool) (approved_by : string) (v : GuardVerdict) : GuardVerdict :=
  mkVerdict (if approved then Allow else Block) (risk_level v)
    ((if approved then "approved by " else "rejected by ") +:+ approved_by) (stage v) false
    (redacted_content v) (seatbelt_required v) (action_id v) (verdict_epoch v)
    (verdict_ttl_secs v) (inferred_category v) (category_hint v).
(** The audit event of the decision; [reason] of the stored verdict is the action. *)
Definition confirm_event (uuid time : string) (approved : bool) (approved_by tenant : string)
    (trigger : string) (v : GuardVerdict) : AuditEvent :=
  mkEvent uuid time "confirm" tenant approved_by trigger (inferred_category v)
    (verdict_to_json v) (Some approved_by) (seatbelt_required v)
    (if approved then "approved" else "rejected") "" "".
Definition consume (r : PendingRow) : PendingRow :=
  mkPending (p_json r) (p_risk r) (p_created r) 1 (p_ttl r) (p_tenant r).

(** [confirm_atomic]: one transaction over both databases, rolled back on every error.
    [uuid], [time] and [now] are the new id and the two readings of the clock. *)
Definition confirm_atomic (uuid time : string) (now : Z) (id : string) (approved : bool)
    (approved_by caller_tenant master : string) (key_version : Z)
    (st : ActionTable * AuditDb) : (ActionTable * AuditDb) * result ActionError GuardVerdict :=
  match st.1 !! id with
  | None => (st, Err (ANotFound id))
  | Some r =>
      match verdict_of_json (p_json r) with
      | Err e => (st, Err (ASerde e))
      | Ok v =>
          if Z.eqb (p_risk r) (risk_code L4) then (st, Err (AbsoluteBlock id))
          else if negb (Z.eqb (p_risk r) (risk_code (risk_level v)))
          then (st, Err (RiskTampered (p_risk r) (p_json r)))
          else if negb (String.eqb (p_tenant r) caller_tenant)
          then (st, Err (CrossTenant (p_tenant r) caller_tenant))
          else if negb (Z.eqb (p_consumed r) 0) then (st, Err (Consumed id))
          else if Z.ltb (p_created r + p_ttl r) now then (st, Err (AExpired id))
          else
            let v' := decided approved approved_by v in
            match insert_audit_event_tx
                    (confirm_event uuid time approved approved_by caller_tenant (reason v) v')
                    master key_version st.2 with
            | Err e => (st, Err (AuditFailed e))
            | Ok audit => ((<[id := consume r]> st.1, audit), Ok v')
            end
      end
  end.

(** [evict_expired] *)
Definition action_expired (now : Z) (r : PendingRow) : bool := Z.ltb (p_created r + p_ttl r) now.
Definition evict_expired (now : Z) (t : ActionTable) : ActionTable * nat :=
  (filter (fun kr => action_expired now kr.2 = false) t,
   size (filter (fun kr => action_expired now kr.2 = true) t)).

End WithParams.
End Actions.

(** ** Properties of confirmation *)
Module ActionsSpec.
Import Tokens Chain ChainSpec Actions.

Section WithParams.
Context `{Crypto, RowCodec, VerdictCodec}.

(** When a confirmation succeeds. *)
Lemma confirm_ok_inv uuid time now id approved by_ tenant master kv st st' v' :
  confirm_atomic uuid time now id approved by_ tenant master kv st = (st', Ok v') ->
  exists r v audit, st.1 !! id = Some r /\ verdict_of_json (p_json r) = Ok v /\
    p_risk r <> risk_code L4 /\ p_risk r = risk_code (risk_level v) /\ p_tenant r = tenant /\
    p_consumed r = 0%Z /\ (now <= p_created r + p_ttl r)%Z /\ v' = decided approved by_ v /\
    insert_audit_event_tx (confirm_event uuid time approved by_ tenant (reason v) v') master kv st.2
      = Ok audit /\
    st' = (<[id := consume r]> st.1, audit).
Proof.
  unfold confirm_atomic. intros E.
  destruct (st.1 !! id) as [r|]; [|done]. destruct (verdict_of_json (p_json r)) as [v|] eqn:E0; [|done].
  destruct (Z.eqb (p_risk r) (risk_code L4)) eqn:E1; [done|].
  destruct (negb (Z.eqb (p_risk r) _)) eqn:E2; [done|].
  destruct (negb (String.eqb (p_tenant r) _)) eqn:E3; [done|].
  destruct (negb (Z.eqb (p_consumed r) 0)) eqn:E4; [done|].
  destruct (Z.ltb _ now) eqn:E5; [done|]. cbv zeta in E.
  destruct (insert_audit_event_tx _ _ _ _) as [audit|] eqn:E6; [|done]. injection E as <- <-.
  boolp. by exists r, v, audit.
Qed.
Lemma confirm_err_same uuid time now id approved by_ tenant master kv st st' e :
  confirm_atomic uuid time now id approved by_ tenant master kv st = (st', Err e) -> st' = st.
Proof.
  unfold confirm_atomic. repeat case_match; intros E; simplify_eq; done.
Qed.

(** The operations on pending actions, with their clocks. *)
Inductive action_op : Type :=
| OpPut (now : Z) (v : GuardVerdict) (tenant : string)
| OpConfirm (uuid time : string) (now : Z) (id : string) (approved : bool) (by_ tenant : string)
    (master : string) (kv : Z)
| OpEvict (now : Z).
Definition run_op (o : action_op) (st : ActionTable * AuditDb) : ActionTable * AuditDb :=
  match o with
  | OpPut now v tenant => (put now v tenant st.1, st.2)
  | OpConfirm uuid time now id a b t m kv => (confirm_atomic uuid time now id a b t m kv st).1
  | OpEvict now => ((evict_expired now st.1).1, st.2)
  end.
Definition not_put (id : string) (o : action_op) : Prop :=
  match o with OpPut _ v _ => action_id v <> Some id | _ => True end.
Definition puts_only_l4 (id : string) (o : action_op) : Prop :=
  match o with OpPut _ v _ => action_id v = Some id -> risk_level v = L4 | _ => True end.

(** A property of rows that consuming keeps, and that holds of [id] if it is there, is kept
    by every operation that does not break it by storing a new row. *)
Definition row_all (id : string) (P : PendingRow -> Prop) (st : ActionTable * AuditDb) : Prop :=
  forall r, st.1 !! id = Some r -> P r.
Lemma run_op_row_all id P o st : (forall r, P r -> P (consume r)) ->
  (forall now v tenant, o = OpPut now v tenant -> action_id v = Some id ->
     P (mkPending (verdict_to_json v) (risk_code (risk_level v)) now 0 ACTION_TTL_SECS tenant)) ->
  row_all id P st -> row_all id P (run_op o st).
Proof.
  unfold row_all. intros Hc Hput Hst r.
  destruct o as [now v tenant|uuid time now id' a b t m kv|now]; cbn.
  - unfold put. destruct (action_id v) as [id'|] eqn:Ei; [|apply Hst].
    destruct (decide (id' = id)) as [->|Hne].
    + rewrite lookup_insert_eq. intros [= <-]. by apply (Hput now v tenant).
    + rewrite lookup_insert_ne by done. apply Hst.
  - destruct (confirm_atomic uuid time now id' a b t m kv st) as [st' [v'|e]] eqn:E; cbn.
    + apply confirm_ok_inv in E as (r0 & v & audit & Hr0 & _ & _ & _ & _ & _ & _ & _ & _ & ->). cbn.
      destruct (decide (id' = id)) as [->|Hne].
      * rewrite lookup_insert_eq. intros [= <-]. auto.
      * rewrite lookup_insert_ne by done. apply Hst.
    + apply confirm_err_same in E as ->. apply Hst.
  - rewrite map_lookup_filter_Some. intros [? _]. auto.
Qed.
Lemma run_ops_row_all id P ops st : (forall r, P r -> P (consume r)) ->
  (forall o, In o ops -> forall now v tenant, o = OpPut now v tenant -> action_id v = Some id ->
     P (mkPending (verdict_to_json v) (risk_code (risk_level v)) now 0 ACTION_TTL_SECS tenant)) ->
  row_all id P st -> row_all id P (foldl (fun s o => run_op o s) st ops).
Proof.
  intros Hc. revert st. induction ops as [|o ops IH]; intros st Hput Hst; [done|]. cbn.
  apply IH; [intros o' Ho'; apply Hput; by right|].
  apply run_op_row_all; [done| |done]. apply Hput. by left.
Qed.
End WithParams.

(** A confirmation is all or nothing, and decides exactly what was asked: on an error
    neither database changes; on success the stored action was not consumed, not expired,
    not at L4, belonged to the caller's tenant and its risk column agreed with its verdict,
    exactly one audit row for the decision is appended and the action is marked consumed,
    and the verdict is Allow when approved and Block when rejected, no longer asking for
    approval. *)
Theorem confirm_atomic_spec `{Crypto, RowCodec, VerdictCodec}
    uuid time now id approved by_ tenant master kv st st' res
  (Hrun : confirm_atomic uuid time now id approved by_ tenant master kv st = (st', res)) :
  match res with
  | Err _ => st' = st
  | Ok v' =>
      exists r v row, st.1 !! id = Some r /\ verdict_of_json (p_json r) = Ok v /\
        risk_level v <> L4 /\ p_risk r = risk_code (risk_level v) /\ p_tenant r = tenant /\
        p_consumed r = 0%Z /\ (now <= p_created r + p_ttl r)%Z /\
        st'.1 = <[id := consume r]> st.1 /\ audit_rows st'.2 = audit_rows st.2 ++ [row] /\
        checkpoint st'.2 = checkpoint st.2 /\
        event_type (r_event row) = "confirm" /\ tenant_id (r_event row) = tenant /\
        approved_by (r_event row) = Some by_ /\ ev_action (r_event row) = reason v /\
        outcome (r_event row) = (if approved then "approved" else "rejected") /\
        action v' = (if approved then Allow else Block) /\ requires_approval v' = false /\
        risk_level v' = risk_level v /\ action_id v' = action_id v
  end.
Proof.
  destruct res as [v'|e]; [|by eapply confirm_err_same].
  apply confirm_ok_inv in Hrun
    as (r & v & audit & Hr & Hv & Hl4 & Hrisk & Ht & Hc & Hn & -> & Hins & ->).
  unfold insert_audit_event_tx in Hins. destruct (existsb _ _); [done|]. injection Hins as <-.
  exists r, v. eexists. repeat split; try done.
  intros E. apply Hl4. by rewrite Hrisk, E.
Qed.

(** One decision per action: once an action is confirmed, no later confirmation of it
    succeeds, by any caller, at any time, whatever confirmations of this and other actions,
    evictions and new actions come in between (as long as the same id is not stored anew). *)
Theorem confirm_at_most_once `{Crypto, RowCodec, VerdictCodec}
    uuid time now id approved by_ tenant master kv st st' v' ops
    uuid2 time2 now2 approved2 by2 tenant2 kv2 st2 v2
  (Hfirst : confirm_atomic uuid time now id approved by_ tenant master kv st = (st', Ok v'))
  (Hops : Forall (not_put id) ops) :
  confirm_atomic uuid2 time2 now2 id approved2 by2 tenant2 master kv2
    (foldl (fun s o => run_op o s) st' ops) <> (st2, Ok v2).
Proof.
  intros Hsecond.
  assert (Hinv : row_all id (fun r => p_consumed r = 1%Z) (foldl (fun s o => run_op o s) st' ops)).
  { apply run_ops_row_all; [done| |].
    - intros o Ho now' v tenant' -> Hid. rewrite Forall_forall in Hops.
      apply list_elem_of_In, Hops in Ho. by cbn in Ho.
    - apply confirm_ok_inv in Hfirst as (r & v & audit & _ & _ & _ & _ & _ & _ & _ & _ & _ & ->).
      intros r'. cbn. rewrite lookup_insert_eq. by intros [= <-]. }
  apply confirm_ok_inv in Hsecond as (r & v & audit & Hr & _ & _ & _ & _ & Hc & _).
  apply Hinv in Hr. cbn in Hr. congruence.
Qed.

(** An action at L4 has no confirmation path: as long as only verdicts at L4 are stored
    under an id, no confirmation of it ever succeeds. *)
Theorem l4_never_confirmed `{Crypto, RowCodec, VerdictCodec} id ops audit
    uuid time now approved by_ tenant master kv st v
  (Hops : Forall (puts_only_l4 id) ops) :
  confirm_atomic uuid time now id approved by_ tenant master kv
    (foldl (fun s o => run_op o s) (∅, audit) ops) <> (st, Ok v).
Proof.
  intros Hrun.
  assert (Hinv : row_all id (fun r => p_risk r = risk_code L4)
                   (foldl (fun s o => run_op o s) (∅, audit) ops)).
  { apply run_ops_row_all; [done| |intros r; cbn; by rewrite lookup_empty].
    intros o Ho now' v' tenant' -> Hid. rewrite Forall_forall in Hops.
    apply list_elem_of_In, Hops in Ho. cbn in *. by rewrite Ho. }
  apply confirm_ok_inv in Hrun as (r & v' & a & Hr & _ & Hl4 & _). by apply Hinv in Hr.
Qed.

(** A confirmation leaves the audit chain a chain: with a new id and time in canonical
    form, the database after it is still one that verifies clean. *)
Theorem confirm_keeps_chain `{HmacLaws, RowCodec, VerdictCodec}
    uuid time now id approved by_ tenant master kv t db t' db' res
  (Hdb : honest master db)
  (Huuid : uuid <> "" /\ parse_uuid uuid = Some uuid /\ parse_ts time = Some time)
  (Hrun : confirm_atomic uuid time now id approved by_ tenant master kv (t, db) = ((t', db'), res)) :
  honest master db'.
Proof.
  destruct res as [v'|e]; [|apply confirm_err_same in Hrun; by injection Hrun as -> ->].
  apply confirm_ok_inv in Hrun as (r & v & audit & _ & _ & _ & _ & _ & _ & _ & _ & Hins & [= -> ->]).
  eapply honest_insert; [exact Hdb| |exact Hins]. exact Huuid.
Qed.

(** *** A concrete run

    The codec writes the risk and the reason of a verdict; every other field is fixed. *)
Definition toy_verdict (r : RiskLevel) (why : string) : GuardVerdict :=
  mkVerdict Block r why Regex (bool_decide (r = L3)) None true (Some "act-1") 1 30 "shell_exec" None.
#[local] Instance toy_codec_v : VerdictCodec := {|
  verdict_to_json v := (match risk_level v with L1 => "1" | L2 => "2" | L3 => "3" | L4 => "4" end)
                       +:+ reason v;
  verdict_of_json s :=
    match s with
    | String c why =>
        if Ascii.eqb c "1" then Ok (toy_verdict L1 why) else if Ascii.eqb c "2" then Ok (toy_verdict L2 why)
        else if Ascii.eqb c "3" then Ok (toy_verdict L3 why) else Ok (toy_verdict L4 why)
    | EmptyString => Err "EOF while parsing a value"
    end |}.
#[local] Existing Instances toy_crypto toy_codec toy_hmac_laws.
Definition toy_state : ActionTable * AuditDb := (put 1000 (toy_verdict L3 "rule") "acme" ∅, toy_db).
Definition toy_confirm (now : Z) (st : ActionTable * AuditDb) :=
  confirm_atomic "u1" "t1" now "act-1" true "ann" "acme" "master" 1 st.

Lemma confirm_atomic_spec_witness :
  exists v', (toy_confirm 1010 toy_state).2 = Ok v' /\ action v' = Allow /\
    exists row, audit_rows (toy_confirm 1010 toy_state).1.2 = audit_rows toy_db ++ [row] /\
      outcome (r_event row) = "approved".
Proof.
  assert (E : exists st' v', toy_confirm 1010 toy_state = (st', Ok v'))
    by (do 2 eexists; vm_compute; reflexivity).
  destruct E as (st' & v' & E). exists v'. rewrite E. split; [reflexivity|].
  destruct (confirm_atomic_spec "u1" "t1" 1010 "act-1" true "ann" "acme" "master" 1 toy_state st' (Ok v') E)
    as (r & v & row & _ & _ & _ & _ & _ & _ & _ & _ & Hrow & _ & _ & _ & _ & _ & Hout & Ha & _).
  split; [exact Ha|]. exists row. split; [exact Hrow|exact Hout].
Defined.
Lemma confirm_at_most_once_witness :
  exists e, (toy_confirm 1012 (foldl (fun s o => run_op o s) (toy_confirm 1010 toy_state).1
               [OpEvict 1011])).2 = Err e.
Proof.
  assert (E : exists st' v', toy_confirm 1010 toy_state = (st', Ok v'))
    by (do 2 eexists; vm_compute; reflexivity).
  destruct E as (st' & v' & E). rewrite E. cbn [fst].
  destruct (toy_confirm 1012 _) as [st2 [v2|e]] eqn:E2; [exfalso|by exists e].
  revert E2.
  apply (confirm_at_most_once "u1" "t1" 1010 "act-1" true "ann" "acme" "master" 1 toy_state st' v');
    [exact E|by repeat constructor].
Defined.
Lemma l4_never_confirmed_witness :
  exists e, (toy_confirm 1001 (foldl (fun s o => run_op o s) (∅, toy_db)
               [OpPut 1000 (toy_verdict L4 "rule") "acme"])).2 = Err e.
Proof.
  destruct (toy_confirm 1001 _) as [st [v|e]] eqn:E; [exfalso|by exists e]. revert E.
  apply (l4_never_confirmed "act-1"). by repeat constructor.
Defined.
Lemma confirm_keeps_chain_witness : honest "master" (toy_confirm 1010 toy_state).1.2.
Proof.
  destruct (toy_confirm 1010 toy_state) as [[t' db'] res] eqn:E.
  apply (confirm_keeps_chain "u1" "t1" 1010 "act-1" true "ann" "acme" "master" 1
           (put 1000 (toy_verdict L3 "rule") "acme" ∅) toy_db t' db' res); [|by split|exact E].
  apply (honest_insert "master" (toy_insert (sample_event "a" "al") (mkDb [] None))
           (sample_event "b" "bob") 1); [|by repeat split|vm_compute; reflexivity].
  apply (honest_insert "master" (mkDb [] None) (sample_event "a" "al") 1);
    [apply honest_new|by repeat split|vm_compute; reflexivity].
Defined.
End ActionsSpec.
