(* ===== verification/Ledger.v ===== *)
(** * The other chains and the store (fg-store/src/lib.rs)

    The chains of TCC events and of rule mutations, the dead-letter file, the persisted
    rule set, the tenant bindings, the asynchronous audit queue, and the verification of
    all chains together. *)
From stdpp Require Import pretty.
From S2P Require Import Prelude Core Pattern Rules Tokens Chain ChainSpec Actions.

(** JSON forms: [serde_json] on [GuardRule] and on a line of the dead-letter file. *)
Record DeadLine : Type := mkDead {
  d_prev : string;
  d_hmac : string;
  d_kv : Z;
  d_reason : string;
  d_event : option Chain.AuditEvent
}.
Class StoreCodec : Type := {
  rule_to_json : Rules.GuardRule -> string;
  rule_of_json : string -> option Rules.GuardRule;
  dead_to_line : DeadLine -> string;
  (** [None] when the line is not JSON; a missing or undecodable event is [None] inside *)
  dead_of_line : string -> option DeadLine
}.
Class StoreCodecLaws `{StoreCodec} : Prop := {
  rule_json_roundtrip r : rule_of_json (rule_to_json r) = Some r;
  dead_line_roundtrip d : dead_of_line (dead_to_line d) = Some d
}.

Module Ledger.
Import Tokens Chain Actions Rules.

(** *** TCC events and rule mutations *)

Record TccRow : Type := mkTcc {
  tcc_id : string;
  tcc_ts : string;
  permission : string;
  tcc_requester : string;
  tcc_result : string;
  tcc_reason : string;
  tcc_prev : string;
  tcc_hash : string;
  tcc_kv : Z
}.
Record MutationRow : Type := mkMutation {
  mutation_id : string;
  mut_ts : string;
  mut_kind : string;
  mut_name : string;
  mut_json : string;
  mut_prev : string;
  mut_hash : string;
  mut_kv : Z
}.
(** [tcc_payload_bytes] and [rule_mutation_payload_bytes] *)
Definition tcc_payload_bytes (r : TccRow) : string :=
  length_prefixed [tcc_id r; tcc_ts r; permission r; tcc_requester r; tcc_result r; tcc_reason r].
Definition rule_mutation_payload_bytes (r : MutationRow) : string :=
  length_prefixed [mutation_id r; mut_ts r; mut_kind r; mut_name r; mut_json r].

(** What the verification loops of the two tables read of a row. *)
Record Link : Type := mkLink {
  l_payload : string;
  l_prev : string;
  l_hash : string;
  l_kv : Z
}.
Definition tcc_link (r : TccRow) : Link :=
  mkLink (tcc_payload_bytes r) (tcc_prev r) (tcc_hash r) (tcc_kv r).
Definition mutation_link (r : MutationRow) : Link :=
  mkLink (rule_mutation_payload_bytes r) (mut_prev r) (mut_hash r) (mut_kv r).

(** [SubChainVerification] has the fields of [ChainVerification]. *)
Record SubState : Type := mkSub {
  s_expected : string;
  s_total : nat;
  s_unhashed : nat;
  s_verified : nat;
  s_broken : nat;
  s_tampered : bool;
  s_first : option nat;
  s_key_loss : nat
}.
Definition sub_init : SubState := mkSub GENESIS_PREV_HASH 0 0 0 0 false None 0.
Definition sub_report (s : SubState) : ChainVerification :=
  mkVerification (s_total s) (s_unhashed s) (s_verified s) (s_broken s) (s_tampered s) (s_first s)
    (s_key_loss s).
(** A broken row at the current index (the number of rows before it). *)
Definition sub_broken (expected : string) (tamper : bool) (loss : nat) (s : SubState) : SubState :=
  mkSub expected (S (s_total s)) (s_unhashed s) (s_verified s) (S (s_broken s))
    (s_tampered s || tamper)
    (match s_first s with None => Some (s_total s) | f => f end) (s_key_loss s + loss).

(** *** The store *)

Record Store : Type := mkStoreAll {
  audit : AuditDb;
  actions : ActionTable;
  toks : TokenStore;
  tcc_events : list TccRow;
  rule_mutations : list MutationRow;
  rules_table : gmap string string;
  rule_epoch : option Z;
  tenant_bindings : gset (Z * string);
  dead_letter : list string;
  low_queue : list AuditEvent;
  drain_alive : bool
}.
Definition with_audit (d : AuditDb) (s : Store) : Store :=
  mkStoreAll d (actions s) (toks s) (tcc_events s) (rule_mutations s) (rules_table s)
    (rule_epoch s) (tenant_bindings s) (dead_letter s) (low_queue s) (drain_alive s).
Definition with_actions (a : ActionTable) (s : Store) : Store :=
  mkStoreAll (audit s) a (toks s) (tcc_events s) (rule_mutations s) (rules_table s)
    (rule_epoch s) (tenant_bindings s) (dead_letter s) (low_queue s) (drain_alive s).
Definition with_toks (t : TokenStore) (s : Store) : Store :=
  mkStoreAll (audit s) (actions s) t (tcc_events s) (rule_mutations s) (rules_table s)
    (rule_epoch s) (tenant_bindings s) (dead_letter s) (low_queue s) (drain_alive s).
Definition with_tcc (l : list TccRow) (s : Store) : Store :=
  mkStoreAll (audit s) (actions s) (toks s) l (rule_mutations s) (rules_table s)
    (rule_epoch s) (tenant_bindings s) (dead_letter s) (low_queue s) (drain_alive s).
Definition with_mutations (l : list MutationRow) (s : Store) : Store :=
  mkStoreAll (audit s) (actions s) (toks s) (tcc_events s) l (rules_table s)
    (rule_epoch s) (tenant_bindings s) (dead_letter s) (low_queue s) (drain_alive s).
Definition with_rules (t : gmap string string) (s : Store) : Store :=
  mkStoreAll (audit s) (actions s) (toks s) (tcc_events s) (rule_mutations s) t
    (rule_epoch s) (tenant_bindings s) (dead_letter s) (low_queue s) (drain_alive s).
Definition with_epoch (e : option Z) (s : Store) : Store :=
  mkStoreAll (audit s) (actions s) (toks s) (tcc_events s) (rule_mutations s) (rules_table s)
    e (tenant_bindings s) (dead_letter s) (low_queue s) (drain_alive s).
Definition with_bindings (b : gset (Z * string)) (s : Store) : Store :=
  mkStoreAll (audit s) (actions s) (toks s) (tcc_events s) (rule_mutations s) (rules_table s)
    (rule_epoch s) b (dead_letter s) (low_queue s) (drain_alive s).
Definition with_dead (l : list string) (s : Store) : Store :=
  mkStoreAll (audit s) (actions s) (toks s) (tcc_events s) (rule_mutations s) (rules_table s)
    (rule_epoch s) (tenant_bindings s) l (low_queue s) (drain_alive s).
Definition with_queue (q : list AuditEvent) (s : Store) : Store :=
  mkStoreAll (audit s) (actions s) (toks s) (tcc_events s) (rule_mutations s) (rules_table s)
    (rule_epoch s) (tenant_bindings s) (dead_letter s) q (drain_alive s).

(** Which of the SQL statements of a call fails, if any: the first (the write itself) or
    the second (the row of the mutation chain). *)
Inductive Fault : Type := NoFault | FailWrite | FailChain.

Definition QUEUE_CAP : nat := N.to_nat 8192.

Section WithParams.
Context `{Crypto, RowCodec, VerdictCodec, StoreCodec}.

(** One iteration of the loops of [verify_tcc_chain] and [verify_rules_chain]. *)
Definition verify_link (tokens : TokenStore) (s : SubState) (l : Link) : SubState :=
  if str_empty (l_hash l) then
    mkSub (s_expected s) (S (s_total s)) (S (s_unhashed s)) (s_verified s) (s_broken s)
      (s_tampered s) (s_first s) (s_key_loss s)
  else if negb (String.eqb (l_prev l) (s_expected s)) then sub_broken (l_hash l) true 0 s
  else if negb (String.eqb (compute_event_hmac (key tokens) (l_kv l) (l_payload l) (l_prev l))
                  (l_hash l)) then
    match classify_break tokens (l_kv l) with
    | KeyLoss => sub_broken (l_hash l) false 1 s
    | Tamper | MissingAnchor => sub_broken (l_hash l) true 0 s
    end
  else mkSub (l_hash l) (S (s_total s)) (s_unhashed s) (S (s_verified s)) (s_broken s)
         (s_tampered s) (s_first s) (s_key_loss s).
Definition verify_links (tokens : TokenStore) (ls : list Link) : ChainVerification :=
  sub_report (foldl (verify_link tokens) sub_init ls).
Definition verify_tcc_chain (s : Store) : ChainVerification :=
  verify_links (toks s) (tcc_link <$> tcc_events s).
Definition verify_rules_chain (s : Store) : ChainVerification :=
  verify_links (toks s) (mutation_link <$> rule_mutations s).

(** The hash a new row links to. *)
Definition link_tail (o : option string) : string := default GENESIS_PREV_HASH (non_empty o).

(** [report_tcc_event] (the UUID and the time are arguments) *)
Definition report_tcc_event (uuid time perm who res why : string) (s : Store) : Store :=
  let prev := link_tail (tcc_hash <$> last (tcc_events s)) in
  let kv := current_version (toks s) in
  let r0 := mkTcc uuid time perm who res why prev "" kv in
  let h := compute_event_hmac (key (toks s)) kv (tcc_payload_bytes r0) prev in
  with_tcc (tcc_events s ++ [mkTcc uuid time perm who res why prev h kv]) s.

(** [append_rule_mutation] *)
Definition append_rule_mutation (uuid time kind nm json : string) (s : Store) : Store :=
  let prev := link_tail (mut_hash <$> last (rule_mutations s)) in
  let kv := current_version (toks s) in
  let r0 := mkMutation uuid time kind nm json prev "" kv in
  let h := compute_event_hmac (key (toks s)) kv (rule_mutation_payload_bytes r0) prev in
  with_mutations (rule_mutations s ++ [mkMutation uuid time kind nm json prev h kv]) s.

(** [save_rule], [delete_rule], [save_epoch]: two statements, no transaction. *)
Definition two_steps (f : Fault) (step1 step2 : Store -> Store) (s : Store)
  : Store * result string () :=
  match f with
  | FailWrite => (s, Err "sqlite")
  | FailChain => (step1 s, Err "sqlite")
  | NoFault => (step2 (step1 s), Ok ())
  end.
Definition save_rule (f : Fault) (uuid time : string) (r : GuardRule) (s : Store)
  : Store * result string () :=
  let j := rule_to_json r in
  two_steps f (fun s => with_rules (<[name r := j]> (rules_table s)) s)
    (append_rule_mutation uuid time "add" (name r) j) s.
Definition delete_rule (f : Fault) (uuid time nm : string) (s : Store)
  : Store * result string () :=
  two_steps f (fun s => with_rules (delete nm (rules_table s)) s)
    (append_rule_mutation uuid time "remove" nm "") s.
Definition save_epoch (f : Fault) (uuid time : string) (epoch : Z) (s : Store)
  : Store * result string () :=
  two_steps f (with_epoch (Some epoch)) (append_rule_mutation uuid time "epoch" "" (pretty epoch)) s.

(** [load_rules]: the rules in order of name; [None] when no epoch was ever saved. *)
Definition name_le (a b : string * string) : Prop := String.leb a.1 b.1 = true.
#[global] Instance name_le_dec : RelDecision name_le.
Proof. intros a b. unfold name_le. apply _. Defined.
Fixpoint parse_rules (js : list string) : result string (list GuardRule) :=
  match js with
  | [] => mret []
  | j :: js' =>
      r ← ok_or "corrupt rule json" (rule_of_json j);
      rs ← parse_rules js';
      mret (r :: rs)
  end.
Definition load_rules (s : Store) : result string (option RuleSet) :=
  rs ← parse_rules (snd <$> merge_sort name_le (map_to_list (rules_table s)));
  mret (match rule_epoch s with
        | Some e => if Z.eqb e 0 then None else Some (mkRuleSet e rs)
        | None => None
        end).

(** [bind_tenant], [unbind_tenant] and [tenants_for_uid] *)
Definition bind_tenant (uid : Z) (tenant : string) (s : Store) : Store :=
  with_bindings ({[ (uid, tenant) ]} ∪ tenant_bindings s) s.
Definition unbind_tenant (uid : Z) (tenant : string) (s : Store) : Store :=
  with_bindings (tenant_bindings s ∖ {[ (uid, tenant) ]}) s.
Definition str_le (a b : string) : Prop := String.leb a b = true.
#[global] Instance str_le_dec : RelDecision str_le.
Proof. intros a b. unfold str_le. apply _. Defined.
Definition tenants_for_uid (uid : Z) (s : Store) : list string :=
  merge_sort str_le (snd <$> filter (fun b => b.1 = uid) (elements (tenant_bindings s))).

(** *** The dead-letter file

    The file is the list of its non-empty lines. *)

(** [spool_dead_letter]; [written] is whether the file could be opened and written. *)
Definition dead_tail (s : Store) : string :=
  link_tail (l ← last (dead_letter s); d ← dead_of_line l; Some (d_hmac d)).
Definition spool_dead_letter (written : bool) (ev : AuditEvent) (why : string) (s : Store)
  : Store :=
  let prev := dead_tail s in
  let kv := current_version (toks s) in
  let h := compute_event_hmac (key (toks s)) kv (payload_bytes ev) prev in
  if written then with_dead (dead_letter s ++ [dead_to_line (mkDead prev h kv why (Some ev))]) s
  else s.

(** A line that does not count its hash as the next expected one. *)
Definition verify_dead_line (tokens : TokenStore) (s : SubState) (line : string) : SubState :=
  match dead_of_line line with
  | None => sub_broken (s_expected s) true 0 s
  | Some d =>
      if str_empty (d_hmac d) then
        mkSub (s_expected s) (S (s_total s)) (S (s_unhashed s)) (s_verified s) (s_broken s)
          (s_tampered s) (s_first s) (s_key_loss s)
      else if negb (String.eqb (d_prev d) (s_expected s)) then sub_broken (d_hmac d) true 0 s
      else match d_event d with
      | None => sub_broken (s_expected s) true 0 s
      | Some ev =>
          verify_link tokens s (mkLink (payload_bytes ev) (d_prev d) (d_hmac d) (d_kv d))
      end
  end.
(** [verify_dead_letter] *)
Definition verify_dead_letter (s : Store) : ChainVerification :=
  sub_report (foldl (verify_dead_line (toks s)) sub_init (dead_letter s)).

(** [verify_all_chains] *)
Record AllChainsVerification : Type := mkAll {
  a_audit : ChainVerification;
  a_tcc : ChainVerification;
  a_rules : ChainVerification;
  a_dead : ChainVerification;
  a_tampered : bool;
  a_key_loss : bool
}.
Definition verify_all_chains (tenant : option string) (now : string) (s : Store)
  : Store * AllChainsVerification :=
  let '(db, va) := verify_chain (toks s) tenant now (audit s) in
  let vt := verify_tcc_chain s in
  let vr := verify_rules_chain s in
  let vd := verify_dead_letter s in
  (with_audit db s,
   mkAll va vt vr vd (tampered va || tampered vt || tampered vr || tampered vd)
     (Nat.ltb 0 (key_version_unknown_rows va) || Nat.ltb 0 (key_version_unknown_rows vt)
      || Nat.ltb 0 (key_version_unknown_rows vr) || Nat.ltb 0 (key_version_unknown_rows vd))).

(** [reimport_dead_letter]: every line is checked before any is imported; the import stops
    at the first row the database refuses. *)
Fixpoint check_dead (master : string) (expected : string) (lines : list string)
  : result SqlError (list AuditEvent) :=
  match lines with
  | [] => mret []
  | line :: lines' =>
      match dead_of_line line with
      | None => Err (Conversion "dead-letter line parse failed")
      | Some d =>
          if negb (String.eqb (d_prev d) expected)
          then Err (Conversion "dead-letter prev_hmac chain broken")
          else match d_event d with
          | None => Err (Conversion "dead-letter missing event field")
          | Some ev =>
              if negb (String.eqb (compute_event_hmac master (d_kv d) (payload_bytes ev) (d_prev d))
                         (d_hmac d))
              then Err (Conversion "dead-letter hmac mismatch")
              else evs ← check_dead master (d_hmac d) lines'; mret (ev :: evs)
          end
      end
  end.
Fixpoint import_events (master : string) (kv : Z) (evs : list AuditEvent) (db : AuditDb)
  : AuditDb * result SqlError () :=
  match evs with
  | [] => (db, Ok ())
  | ev :: evs' =>
      match insert_audit_event ev master kv db with
      | Err e => (db, Err e)
      | Ok db' => import_events master kv evs' db'
      end
  end.
Definition reimport_dead_letter (s : Store) : Store * result SqlError nat :=
  match dead_letter s with
  | [] => (s, Ok 0)
  | lines =>
      match check_dead (key (toks s)) GENESIS_PREV_HASH lines with
      | Err e => (s, Err e)
      | Ok evs =>
          match import_events (key (toks s)) (current_version (toks s)) evs (audit s) with
          | (db, Err e) => (with_audit db s, Err e)
          | (db, Ok _) => (with_dead [] (with_audit db s), Ok (length evs))
          end
      end
  end.

(** *** Appending audit events *)

Definition high_risk (v : GuardVerdict) : bool :=
  bool_decide (risk_level v = L3) || bool_decide (risk_level v = L4)
  || bool_decide (action v = Block).
Definition outcome_of (a : SafetyAction) : string :=
  match a with Block => "blocked" | Allow | Preview | Redact => "allowed" end.
Definition evaluate_event (uuid time tenant : string) (v : GuardVerdict) (raw who : string)
  : AuditEvent :=
  mkEvent uuid time "evaluate" tenant who raw (inferred_category v) (verdict_to_json v) None
    (seatbelt_required v) (outcome_of (action v)) "" "".

(** What the retention check after an append sees: the cutoff text, the size of the
    database file and what writing the archive comes to. *)
Record Retention : Type := mkRetention {
  r_cutoff : string;
  r_now : string;
  r_bytes : Z;
  r_outcome : ArchiveOutcome
}.
(** [enforce_retention]; pruning expired archives only deletes files of the archive
    directory, which is not part of the state. *)
Definition enforce_retention (rt : Retention) (s : Store) : Store :=
  with_audit (rotate_old_rows (r_cutoff rt) (r_now rt) (r_bytes rt) (r_outcome rt) (audit s)).1 s.

(** [append_event]: high risk goes to the table before the call returns, low risk to the
    queue, or to the dead-letter file when the queue is full or its thread is gone. *)
Definition append_event (uuid time tenant : string) (v : GuardVerdict) (raw who : string)
    (spool_ok : bool) (rt : Retention) (s : Store) : Store * result SqlError AuditEvent :=
  let ev := evaluate_event uuid time tenant v raw who in
  if high_risk v then
    match insert_audit_event ev (key (toks s)) (current_version (toks s)) (audit s) with
    | Err e => (s, Err e)
    | Ok db => (enforce_retention rt (with_audit db s), Ok ev)
    end
  else
    let s' :=
      if negb (drain_alive s) then spool_dead_letter spool_ok ev "queue disconnected" s
      else if Nat.leb QUEUE_CAP (length (low_queue s))
      then spool_dead_letter spool_ok ev "queue full" s
      else with_queue (low_queue s ++ [ev]) s in
    (enforce_retention rt s', Ok ev).

(** One event of the drain thread. *)
Definition sql_error_text (e : SqlError) : string :=
  match e with
  | UniqueViolation _ => "UNIQUE constraint failed: audit_events.audit_id"
  | Conversion m => m
  end.
Definition drain_one (spool_ok : bool) (s : Store) : Store :=
  match low_queue s with
  | [] => s
  | ev :: q =>
      let s := with_queue q s in
      match insert_audit_event ev (key (toks s)) (current_version (toks s)) (audit s) with
      | Ok db => with_audit db s
      | Err e => spool_dead_letter spool_ok ev (sql_error_text e) s
      end
  end.

End WithParams.
End Ledger.
