(* ===== verification/LedgerSpec.v ===== *)
(** * Properties of the store's chains

    Every history of store operations verifies clean on all four chains, what a clean
    verification of a side chain means, the dead-letter round trip, and no low-risk audit
    event is dropped. *)
From S2P Require Import Prelude Core Pattern Rules Tokens Chain ChainSpec Actions Ledger.

Module LedgerSpec.
Import Tokens Chain ChainSpec Actions ActionsSpec Rules Ledger.

Section SideChains.
Context `{HmacLaws, RowCodec}.
#[local] Set Default Proof Using "All".

(** The links are a chain from [expected], every one with its hash. *)
Fixpoint links_ok (master expected : string) (ls : list Link) : Prop :=
  match ls with
  | [] => True
  | l :: ls' =>
      l_hash l <> "" /\ l_prev l = expected /\
      compute_event_hmac master (l_kv l) (l_payload l) (l_prev l) = l_hash l /\
      links_ok master (l_hash l) ls'
  end.
Definition links_tail (expected : string) (ls : list Link) : string :=
  match last ls with Some l => l_hash l | None => expected end.

Lemma links_tail_cons e l ls : links_tail e (l :: ls) = links_tail (l_hash l) ls.
Proof.
  unfold links_tail. destruct ls as [|l' ls]; [done|]. rewrite last_cons_cons.
  destruct (last (l' :: ls)) eqn:E; [done|]. by apply last_None in E.
Qed.
Lemma links_ok_snoc master e ls l : links_ok master e ls -> l_hash l <> "" ->
  l_prev l = links_tail e ls ->
  compute_event_hmac master (l_kv l) (l_payload l) (l_prev l) = l_hash l ->
  links_ok master e (ls ++ [l]).
Proof.
  revert e. induction ls as [|x ls IH]; intros e; cbn [app links_ok].
  - intros _ ? Hp ?. repeat split; auto.
  - intros (? & ? & ? & Hls) Hne Hp Hh. rewrite links_tail_cons in Hp. repeat split; auto.
Qed.

Lemma verify_link_ok tokens s l ls : links_ok (key tokens) (s_expected s) (l :: ls) ->
  verify_link tokens s l
  = mkSub (l_hash l) (S (s_total s)) (s_unhashed s) (S (s_verified s)) (s_broken s)
      (s_tampered s) (s_first s) (s_key_loss s).
Proof.
  intros (Hne & Hp & Hh & _). unfold verify_link.
  rewrite (str_empty_false _ Hne), Hp, String.eqb_refl. cbn [negb].
  rewrite Hp in Hh. by rewrite Hh, String.eqb_refl.
Qed.
Lemma verify_links_ok_go tokens ls s : links_ok (key tokens) (s_expected s) ls ->
  foldl (verify_link tokens) s ls
  = mkSub (links_tail (s_expected s) ls) (s_total s + length ls) (s_unhashed s)
      (s_verified s + length ls) (s_broken s) (s_tampered s) (s_first s) (s_key_loss s).
Proof.
  revert s. induction ls as [|l ls IH]; intros s Hl; cbn [foldl].
  { destruct s. cbn. by rewrite !Nat.add_0_r. }
  rewrite (verify_link_ok tokens s l ls Hl), links_tail_cons.
  destruct Hl as (_ & _ & _ & Hl). rewrite IH by exact Hl. cbn. f_equal; lia.
Qed.
Lemma verify_links_ok tokens ls : links_ok (key tokens) GENESIS_PREV_HASH ls ->
  verify_links tokens ls = mkVerification (length ls) 0 (length ls) 0 false None 0.
Proof.
  intros Hl. unfold verify_links. by rewrite (verify_links_ok_go tokens ls sub_init).
Qed.

Lemma hmac_not_empty master kv p e : compute_event_hmac master kv p e <> "".
Proof. intros E. apply (f_equal String.length) in E. by rewrite event_hmac_length in E. Qed.

(** The hash a new row links to is the end of the chain. *)
Lemma link_tail_links {A} (link : A -> Link) (hash : A -> string) master rows :
  (forall r, l_hash (link r) = hash r) -> links_ok master GENESIS_PREV_HASH (link <$> rows) ->
  link_tail (hash <$> last rows) = links_tail GENESIS_PREV_HASH (link <$> rows).
Proof.
  intros Hh Hok. unfold links_tail. rewrite fmap_last.
  destruct (last rows) as [r|] eqn:E; [|done].
  cbn [fmap option_fmap option_map]. unfold link_tail. rewrite Hh.
  rewrite non_empty_some; [done|]. rewrite <- Hh.
  apply last_Some in E as [l ->]. rewrite fmap_app in Hok. cbn in Hok. clear Hh.
  revert Hok. generalize GENESIS_PREV_HASH as e. induction l as [|x l IH]; intros e; cbn.
  - by intros [? _].
  - intros (_ & _ & _ & Hl). by eapply IH.
Qed.
End SideChains.

(** ** Dead letters *)
Section Dead.
Context `{HmacLaws, RowCodec, VerdictCodec, StoreCodecLaws}.
#[local] Set Default Proof Using "All".

(** A line as [spool_dead_letter] writes it: the link it carries and its event. *)
Definition dead_link (ev : AuditEvent) (d : DeadLine) : Link :=
  mkLink (payload_bytes ev) (d_prev d) (d_hmac d) (d_kv d).
Inductive dead_lines : list string -> list AuditEvent -> list Link -> Prop :=
| dead_nil : dead_lines [] [] []
| dead_cons line lines ev evs d ls : dead_of_line line = Some d -> d_event d = Some ev ->
    dead_lines lines evs ls -> dead_lines (line :: lines) (ev :: evs) (dead_link ev d :: ls).

Lemma dead_lines_snoc lines evs ls line ev d : dead_lines lines evs ls ->
  dead_of_line line = Some d -> d_event d = Some ev ->
  dead_lines (lines ++ [line]) (evs ++ [ev]) (ls ++ [dead_link ev d]).
Proof. induction 1; cbn; intros; econstructor; eauto; constructor. Qed.

Lemma verify_dead_links tokens lines evs ls s : dead_lines lines evs ls ->
  links_ok (key tokens) (s_expected s) ls ->
  foldl (verify_dead_line tokens) s lines = foldl (verify_link tokens) s ls.
Proof.
  intros Hd. revert s. induction Hd as [|line lines ev evs d ls Hp He _ IH]; intros s Hl; [done|].
  cbn [foldl]. assert (E : verify_dead_line tokens s line = verify_link tokens s (dead_link ev d)).
  { unfold verify_dead_line. rewrite Hp, He. destruct Hl as (Hne & Hprev & _). cbn in Hne, Hprev.
    by rewrite (str_empty_false _ Hne), (proj2 (String.eqb_eq _ _) Hprev). }
  rewrite E. apply IH. rewrite (verify_link_ok tokens s _ ls Hl). by destruct Hl as (_ & _ & _ & ?).
Qed.

Lemma dead_tail_links s evs ls : dead_lines (dead_letter s) evs ls ->
  links_ok (key (toks s)) GENESIS_PREV_HASH ls -> dead_tail s = links_tail GENESIS_PREV_HASH ls.
Proof.
  unfold dead_tail, links_tail. generalize (dead_letter s) as lines. intros lines Hd Hl.
  assert (Hlast : (l ← last lines; d ← dead_of_line l; Some (d_hmac d)) = l_hash <$> last ls).
  { clear Hl. induction Hd as [|line lines ev evs' d ls' Hp _ Hd IH]; [done|].
    destruct Hd; [cbn; by rewrite Hp|]. by rewrite !last_cons_cons. }
  rewrite Hlast. destruct (last ls) as [l|] eqn:E; [|done].
  cbn [fmap option_fmap option_map]. unfold link_tail.
  rewrite non_empty_some; [done|]. apply last_Some in E as [init ->]. clear Hd Hlast.
  revert Hl. generalize GENESIS_PREV_HASH as e. induction init as [|x init IH]; intros e; cbn.
  - by intros [? _].
  - intros (_ & _ & _ & Hl). by eapply IH.
Qed.

Lemma check_dead_ok master expected lines evs ls : dead_lines lines evs ls ->
  links_ok master expected ls -> check_dead master expected lines = Ok evs.
Proof.
  intros Hd. revert expected. induction Hd as [|line lines ev evs d ls Hp He _ IH]; intros e Hl; [done|].
  cbn [check_dead]. rewrite Hp, He. destruct Hl as (Hne & Hprev & Hh & Hl).
  cbn [dead_link l_prev l_hash l_kv l_payload] in Hprev, Hh.
  rewrite (proj2 (String.eqb_eq _ _) Hprev). cbn [negb]. rewrite Hh, String.eqb_refl.
  cbn [negb]. by rewrite (IH (d_hmac d) Hl).
Qed.
End Dead.

(** ** Histories of the whole store *)
Section History.
Context `{HmacLaws, RowCodec, VerdictCodec, StoreCodecLaws}.
#[local] Set Default Proof Using "All".

Inductive store_op : Type :=
| STcc (uuid time perm who res why : string)
| SSaveRule (f : Fault) (uuid time : string) (r : GuardRule)
| SDeleteRule (f : Fault) (uuid time nm : string)
| SSaveEpoch (f : Fault) (uuid time : string) (e : Z)
| SAppend (uuid time tenant : string) (v : GuardVerdict) (raw who : string) (spool_ok : bool)
    (rt : Retention)
| SDrain (spool_ok : bool)
| SReimport
| SVerify (tenant : option string) (now : string)
| SConfirm (uuid time : string) (now : Z) (id : string) (approved : bool) (by_ tenant : string)
| SPut (now : Z) (v : GuardVerdict) (tenant : string)
| SRotateKey (now : Z)
| SDrainExit.
Definition run_store (o : store_op) (s : Store) : Store :=
  match o with
  | STcc u t p w r y => report_tcc_event u t p w r y s
  | SSaveRule f u t r => (save_rule f u t r s).1
  | SDeleteRule f u t n => (delete_rule f u t n s).1
  | SSaveEpoch f u t e => (save_epoch f u t e s).1
  | SAppend u t tn v raw who ok rt => (append_event u t tn v raw who ok rt s).1
  | SDrain ok => drain_one ok s
  | SReimport => (reimport_dead_letter s).1
  | SVerify tn now => (verify_all_chains tn now s).1
  | SConfirm u t now id a b tn =>
      let '(ab, _) := confirm_atomic u t now id a b tn (key (toks s)) (current_version (toks s))
                        (actions s, audit s) in
      with_actions ab.1 (with_audit ab.2 s)
  | SPut now v tn => with_actions (put now v tn (actions s)) s
  | SRotateKey now => with_toks (rotate_key now (toks s)).1 s
  | SDrainExit =>
      mkStoreAll (audit s) (actions s) (toks s) (tcc_events s) (rule_mutations s) (rules_table s)
        (rule_epoch s) (tenant_bindings s) (dead_letter s) (low_queue s) false
  end.
(** The ids and times of new audit events are canonical. *)
Definition op_ok (o : store_op) : Prop :=
  match o with
  | SAppend u t _ _ _ _ _ _ | SConfirm u t _ _ _ _ _ =>
      u <> "" /\ parse_uuid u = Some u /\ parse_ts t = Some t
  | _ => True
  end.
Definition new_store (tk : TokenStore) : Store :=
  mkStoreAll (mkDb [] None) ∅ tk [] [] ∅ None ∅ [] [] true.

(** The lines of a dead-letter file that is a chain. *)
Definition dead_ok (master : string) (lines : list string) : Prop :=
  exists evs ls, dead_lines lines evs ls /\ links_ok master GENESIS_PREV_HASH ls /\
    Forall canonical evs.
Definition store_inv (master : string) (s : Store) : Prop :=
  key (toks s) = master /\ honest master (audit s) /\
  links_ok master GENESIS_PREV_HASH (tcc_link <$> tcc_events s) /\
  links_ok master GENESIS_PREV_HASH (mutation_link <$> rule_mutations s) /\
  Forall canonical (low_queue s) /\ dead_ok master (dead_letter s).
(** The four chains in order, whatever produced them. *)
Definition chains_inv (master : string) (s : Store) : Prop :=
  key (toks s) = master /\ chain_inv master (audit s) /\
  links_ok master GENESIS_PREV_HASH (tcc_link <$> tcc_events s) /\
  links_ok master GENESIS_PREV_HASH (mutation_link <$> rule_mutations s) /\
  dead_ok master (dead_letter s).
Definition all_clean (s : Store) (rep : AllChainsVerification) : Prop :=
  a_tampered rep = false /\ a_key_loss rep = false /\
  broken_links (a_audit rep) = 0 /\ unhashed_rows (a_audit rep) = 0 /\
  a_tcc rep = mkVerification (length (tcc_events s)) 0 (length (tcc_events s)) 0 false None 0 /\
  a_rules rep = mkVerification (length (rule_mutations s)) 0 (length (rule_mutations s)) 0
                  false None 0 /\
  a_dead rep = mkVerification (length (dead_letter s)) 0 (length (dead_letter s)) 0 false None 0.

Lemma verify_dead_ok s : dead_ok (key (toks s)) (dead_letter s) ->
  verify_dead_letter s
  = mkVerification (length (dead_letter s)) 0 (length (dead_letter s)) 0 false None 0.
Proof.
  intros (evs & ls & Hd & Hl & _). unfold verify_dead_letter.
  rewrite (verify_dead_links (toks s) _ evs ls) by done.
  fold (verify_links (toks s) ls). rewrite verify_links_ok by done.
  assert (E : length (dead_letter s) = length ls) by (clear -Hd; induction Hd; cbn; congruence).
  by rewrite E.
Qed.
Lemma chains_clean master s tenant now : chains_inv master s ->
  all_clean s (verify_all_chains tenant now s).2.
Proof.
  intros (Hk & Hc & Ht & Hm & Hd). rewrite <- Hk in *.
  destruct (inv_verify (key (toks s)) (audit s) (toks s) tenant now) as [_ Hv]; [done..|].
  unfold all_clean, verify_all_chains. destruct (verify_chain _ _ _ _) as [db va]. cbn in Hv. subst va.
  unfold verify_tcc_chain, verify_rules_chain. rewrite !verify_links_ok by done.
  rewrite verify_dead_ok, !length_fmap by done. done.
Qed.
Lemma inv_chains master s : store_inv master s -> chains_inv master s.
Proof.
  intros (? & ? & ? & ? & _ & ?). split; [done|]. split; [by apply honest_inv|done].
Qed.

Lemma inv_with_audit master db s : store_inv master s -> honest master db ->
  store_inv master (with_audit db s).
Proof. intros (? & _ & ? & ? & ? & ?) ?. by repeat split. Qed.
Lemma inv_with_rules master t s : store_inv master s -> store_inv master (with_rules t s).
Proof. intros (? & ? & ? & ? & ? & ?). by repeat split. Qed.
Lemma inv_with_epoch master e s : store_inv master s -> store_inv master (with_epoch e s).
Proof. intros (? & ? & ? & ? & ? & ?). by repeat split. Qed.
Lemma inv_with_actions master a s : store_inv master s -> store_inv master (with_actions a s).
Proof. intros (? & ? & ? & ? & ? & ?). by repeat split. Qed.

Lemma inv_mutation master u t k n j s : store_inv master s ->
  store_inv master (append_rule_mutation u t k n j s).
Proof.
  intros (Hk & ? & ? & Hm & ? & ?). unfold append_rule_mutation. split; [done|].
  split; [done|]. split; [done|]. split; [|done].
  cbn [with_mutations rule_mutations]. rewrite fmap_app. apply links_ok_snoc; [done|..]; cbn [l_hash mutation_link mut_hash].
  - apply hmac_not_empty.
  - cbn. by rewrite (link_tail_links mutation_link mut_hash master).
  - by rewrite <- Hk.
Qed.
Lemma inv_tcc master u t p w r y s : store_inv master s ->
  store_inv master (report_tcc_event u t p w r y s).
Proof.
  intros (Hk & ? & Ht & ? & ? & ?). unfold report_tcc_event. split; [done|].
  split; [done|]. split; [|done].
  cbn [with_tcc tcc_events]. rewrite fmap_app. apply links_ok_snoc; [done|..]; cbn [l_hash tcc_link tcc_hash].
  - apply hmac_not_empty.
  - cbn. by rewrite (link_tail_links tcc_link tcc_hash master).
  - by rewrite <- Hk.
Qed.
Lemma inv_two_steps master f g1 g2 s : store_inv master s ->
  (forall s, store_inv master s -> store_inv master (g1 s)) ->
  (forall s, store_inv master s -> store_inv master (g2 s)) ->
  store_inv master (two_steps f g1 g2 s).1.
Proof. intros Hs H1' H2'. destruct f; cbn; auto. Qed.

Lemma inv_spool master ok ev why s : store_inv master s -> canonical ev ->
  store_inv master (spool_dead_letter ok ev why s).
Proof.
  intros Hs Hev. unfold spool_dead_letter. destruct ok; [|exact Hs].
  destruct Hs as (Hk & ? & ? & ? & ? & evs & ls & Hd & Hl & Hc). repeat (split; [done|]).
  cbn [with_dead dead_letter].
  set (d := mkDead _ _ _ _ _). exists (evs ++ [ev]), (ls ++ [dead_link ev d]).
  split; [by apply dead_lines_snoc; [|apply dead_line_roundtrip|]|].
  split; [|apply Forall_app; split; [done|by constructor]].
  apply links_ok_snoc; [done|apply hmac_not_empty| |by rewrite <- Hk].
  cbn. apply (dead_tail_links s evs); [done|]. by rewrite Hk.
Qed.

Lemma inv_import master kv evs s : store_inv master s -> Forall canonical evs ->
  store_inv master (with_audit (import_events master kv evs (audit s)).1 s).
Proof.
  intros Hs Hc. apply inv_with_audit; [done|]. destruct Hs as (_ & Hh & _). revert Hh.
  generalize (audit s) as db. induction Hc as [|ev evs Hev _ IH]; intros db Hdb; [done|]. cbn.
  destruct (insert_audit_event ev master kv db) eqn:E; [|done].
  apply IH. by eapply honest_insert.
Qed.

Lemma inv_append master u t tn v raw who ok rt s : store_inv master s ->
  u <> "" /\ parse_uuid u = Some u /\ parse_ts t = Some t ->
  store_inv master (append_event u t tn v raw who ok rt s).1.
Proof.
  intros Hs Hu. unfold append_event. set (ev := evaluate_event u t tn v raw who).
  assert (Hev : canonical ev) by exact Hu.
  assert (Hret : forall s, store_inv master s -> store_inv master (enforce_retention rt s)).
  { intros s' Hs'. apply inv_with_audit; [done|]. apply honest_rotate. by destruct Hs' as (_ & ? & _). }
  destruct (high_risk v).
  - destruct (insert_audit_event _ _ _ _) eqn:E; [|done]. apply Hret, inv_with_audit; [done|].
    destruct Hs as (Hk & Hh & _). rewrite Hk in E. by eapply honest_insert.
  - apply Hret. destruct (negb _); [by apply inv_spool|]. destruct (Nat.leb _ _); [by apply inv_spool|].
    destruct Hs as (? & ? & ? & ? & Hq & ?). repeat (split; [done|]). split; [|done].
    apply Forall_app. split; [done|by constructor].
Qed.

Lemma inv_drain master ok s : store_inv master s -> store_inv master (drain_one ok s).
Proof.
  intros Hs. unfold drain_one. destruct (low_queue s) as [|ev q] eqn:Eq; [done|].
  assert (Hs' : store_inv master (with_queue q s) /\ canonical ev).
  { destruct Hs as (? & ? & ? & ? & Hq & ?). rewrite Eq in Hq. apply Forall_cons in Hq as [? ?].
    split; [by repeat split|done]. }
  destruct Hs' as [Hs' Hev]. destruct (insert_audit_event _ _ _ _) eqn:E.
  - apply inv_with_audit; [done|]. destruct Hs as (Hk & Hh & _). cbn in E. rewrite Hk in E.
    by eapply honest_insert.
  - by apply inv_spool.
Qed.

Lemma inv_reimport master s : store_inv master s -> store_inv master (reimport_dead_letter s).1.
Proof.
  intros Hs. unfold reimport_dead_letter. pose proof Hs as (Hk & _ & _ & _ & _ & evs & ls & Hd & Hl & Hc).
  destruct (dead_letter s) as [|line lines] eqn:Ed; [done|]. rewrite Hk.
  rewrite (check_dead_ok master GENESIS_PREV_HASH (line :: lines) evs ls Hd Hl).
  pose proof (inv_import master (current_version (toks s)) evs s Hs Hc) as Hi.
  destruct (import_events _ _ _ _) as [db [|]]; cbn in *; [|done].
  destruct Hi as (? & ? & ? & ? & ? & _). repeat (split; [done|]). exists [], []. repeat constructor.
Qed.

Lemma inv_run master o s : op_ok o -> store_inv master s -> store_inv master (run_store o s).
Proof.
  intros Ho Hs. destruct o; cbn [run_store].
  - by apply inv_tcc.
  - apply inv_two_steps; [done|intros; by apply inv_with_rules|intros; by apply inv_mutation].
  - apply inv_two_steps; [done|intros; by apply inv_with_rules|intros; by apply inv_mutation].
  - apply inv_two_steps; [done|intros; by apply inv_with_epoch|intros; by apply inv_mutation].
  - by apply inv_append.
  - by apply inv_drain.
  - by apply inv_reimport.
  - unfold verify_all_chains. pose proof Hs as (Hk & Hh & _).
    destruct (verify_chain _ _ _ _) as [db va] eqn:E. apply inv_with_audit; [done|].
    replace db with (verify_chain (toks s) tenant now (audit s)).1 by (by rewrite E).
    by apply honest_verify.
  - destruct (confirm_atomic _ _ _ _ _ _ _ _ _ _) as [[t' db'] res] eqn:E.
    apply inv_with_actions, inv_with_audit; [done|]. destruct Hs as (Hk & Hh & _).
    rewrite Hk in E. cbn [snd]. destruct res as [v'|e].
    + apply confirm_ok_inv in E as (? & ? & ? & _ & _ & _ & _ & _ & _ & _ & _ & Hins & [= -> ->]).
      eapply honest_insert; [exact Hh| |exact Hins]. exact Ho.
    + apply confirm_err_same in E. by injection E as -> ->.
  - by apply inv_with_actions.
  - destruct Hs as (? & ? & ? & ? & ? & ?). by repeat split.
  - destruct Hs as (? & ? & ? & ? & ? & ?). by repeat split.
Qed.
Lemma inv_runs master ops s : Forall op_ok ops -> store_inv master s ->
  store_inv master (foldl (fun s o => run_store o s) s ops).
Proof.
  intros Ho. revert s. induction Ho as [|o ops Ho _ IH]; intros s Hs; [done|].
  apply IH. by apply inv_run.
Qed.
Lemma inv_new tk : store_inv (key tk) (new_store tk).
Proof. repeat split; [constructor|constructor|]. exists [], []. repeat constructor. Qed.
End History.


#[local] Existing Instances toy_crypto toy_codec toy_hmac_laws toy_codec_v.
(** *** A codec for the examples

    A value is its code in the sense of [Countable], written in binary. *)
Fixpoint pos_text (p : positive) : string :=
  match p with
  | xH => ""
  | xO p => String "0" (pos_text p)
  | xI p => String "1" (pos_text p)
  end.
Fixpoint text_pos (s : string) : option positive :=
  match s with
  | EmptyString => Some xH
  | String c s =>
      p ← text_pos s;
      if Ascii.eqb c "0" then Some (xO p) else if Ascii.eqb c "1" then Some (xI p) else None
  end.
Lemma text_pos_text p : text_pos (pos_text p) = Some p.
Proof. induction p as [p IH|p IH|]; cbn; [by rewrite IH|by rewrite IH|done]. Qed.

Definition enum_of {A} (l : list A) (a : A) `{EqDecision A} : nat :=
  default 0 (fst <$> list_find (eq a) l).
Definition stages := [Regex; Ast; Core.Semantic].
Definition safety_actions := [Allow; Preview; Redact; Block].
Definition risks := [L1; L2; L3; L4].
Definition scopes := [Command; Content; Network; Filesystem].
Definition rule_parts (r : GuardRule) : list string * list nat :=
  ([name r; pattern r; r_reason r],
   [enum_of stages (r_stage r); enum_of safety_actions (r_action r); enum_of risks (r_risk r);
    enum_of scopes (scope r)]).
Definition rule_join (x : list string * list nat) : option GuardRule :=
  match x with
  | ([n; p; w], [a; b; c; d]) =>
      st ← stages !! a; ac ← safety_actions !! b; ri ← risks !! c; sc ← scopes !! d;
      Some (mkRule n p st ac ri w sc)
  | _ => None
  end.
Definition event_parts (e : AuditEvent) : list string * (option string * bool) :=
  ([audit_id e; ts e; event_type e; Chain.tenant_id e; requester e; ev_action e; ev_category e;
    verdict_json e; outcome e; Chain.prev_hash e; Chain.event_hash e], (Chain.approved_by e, ev_seatbelt e)).
Definition event_join (x : list string * (option string * bool)) : option AuditEvent :=
  match x with
  | ([a; b; c; d; e; f; g; h; i; j; k], (ap, sb)) => Some (mkEvent a b c d e f g h ap sb i j k)
  | _ => None
  end.
Definition dead_parts (d : DeadLine)
  : list string * (Z * option (list string * (option string * bool))) :=
  ([d_prev d; d_hmac d; d_reason d], (d_kv d, event_parts <$> d_event d)).
Definition dead_join (x : list string * (Z * option (list string * (option string * bool))))
  : option DeadLine :=
  match x with
  | ([p; h; w], (kv, o)) => Some (mkDead p h kv w (o ≫= event_join))
  | _ => None
  end.
Lemma rule_join_parts r : rule_join (rule_parts r) = Some r.
Proof. by destruct r as [? ? [] [] [] ? []]. Qed.
Lemma dead_join_parts d : dead_join (dead_parts d) = Some d.
Proof. by destruct d as [? ? ? ? [[]|]]. Qed.
#[local] Instance toy_store_codec : StoreCodec := {|
  rule_to_json r := pos_text (encode (rule_parts r));
  rule_of_json s := p ← text_pos s; x ← decode p; rule_join x;
  dead_to_line d := pos_text (encode (dead_parts d));
  dead_of_line s := p ← text_pos s; x ← decode p; dead_join x
|}.
#[local] Instance toy_store_laws : StoreCodecLaws.
Proof.
  split; intros x; cbn [rule_of_json rule_to_json dead_of_line dead_to_line toy_store_codec];
    rewrite text_pos_text; cbn [mbind option_bind]; rewrite decode_encode; cbn [mbind option_bind].
  - apply rule_join_parts.
  - apply dead_join_parts.
Qed.

Definition toy_rule (nm pat : string) : GuardRule := mkRule nm pat Regex Block L4 "why" Command.
Definition toy_retention : Retention := mkRetention "2026-06-01" "now" 0 Written.
Definition toy_ops : list store_op :=
  [STcc "t1" "now" "camera" "app" "denied" "why";
   SSaveRule NoFault "m1" "now" (toy_rule "r1" "rm");
   SSaveEpoch FailChain "m2" "now" 2;
   SAppend "a1" "now" "acme" (toy_verdict L4 "rule") "rm" "al" true toy_retention;
   SAppend "a2" "now" "acme" (toy_verdict L1 "rule") "ls" "al" true toy_retention;
   SDrain true].


Definition dead_state : Store :=
  spool_dead_letter true (sample_event "b" "bob") "queue full"
    (spool_dead_letter true (sample_event "a" "al") "queue full" (new_store toy_tokens)).

(** A dead-letter file that does not check out is not imported: when the reimport
    reports a broken line, link or HMAC, the store is exactly as before. *)
Theorem reimport_refuses_bad_file `{Crypto, RowCodec, VerdictCodec, StoreCodec} s s' m
  (Hrun : reimport_dead_letter s = (s', Err (Conversion m))) : s' = s.
Proof.
  unfold reimport_dead_letter in Hrun. destruct (dead_letter s) as [|line lines]; [done|].
  destruct (check_dead _ _ _) as [evs|e]; [|congruence].
  destruct (import_events _ _ _ _) as [db [|e]] eqn:E; [done|]. injection Hrun as <- ->. exfalso.
  revert E. generalize (audit s) as db0. clear. induction evs as [|ev evs IH]; intros db0; [done|]. cbn.
  unfold insert_audit_event, insert_audit_event_tx. destruct (existsb _ _); [done|]. apply IH.
Qed.

Definition bad_state : Store := with_dead ["no json"] (new_store toy_tokens).
Lemma reimport_refuses_bad_file_witness :
  (reimport_dead_letter bad_state).2 = Err (Conversion "dead-letter line parse failed") /\
  (reimport_dead_letter bad_state).1 = bad_state.
Proof.
  assert (E : reimport_dead_letter bad_state
              = ((reimport_dead_letter bad_state).1, Err (Conversion "dead-letter line parse failed")))
    by (vm_compute; reflexivity).
  split; [by rewrite E|].
  exact (reimport_refuses_bad_file bad_state _ _ E).
Defined.

(** A row of the rule table that does not parse, and a rule the table holds. *)
Definition unreadable `{StoreCodec} (s : Store) : Prop :=
  exists n j, rules_table s !! n = Some j /\ rule_of_json j = None.
Definition stored_rule `{StoreCodec} (s : Store) (r : GuardRule) : Prop :=
  exists n j, rules_table s !! n = Some j /\ rule_of_json j = Some r.
(** Rules load only when every stored rule parses: one unreadable row makes loading fail
    as a whole, and a load that succeeds with an epoch has every stored rule and no other. *)
Theorem load_rules_fail_closed `{StoreCodec} s :
  (load_rules s = Err "corrupt rule json" <-> unreadable s) /\
  (forall rs, load_rules s = Ok (Some rs) ->
     rule_epoch s = Some (rs_epoch rs) /\
     forall r, In r (rs_rules rs) <-> stored_rule s r).
Proof.
  unfold load_rules. set (js := snd <$> merge_sort name_le (map_to_list (rules_table s))).
  assert (Hjs : forall j, In j js <-> exists n, rules_table s !! n = Some j).
  { intros j. rewrite <- list_elem_of_In. unfold js. rewrite list_elem_of_fmap.
    split.
    - intros ([n j'] & -> & Hin). rewrite merge_sort_Permutation in Hin.
      apply elem_of_map_to_list in Hin. by exists n.
    - intros [n Hn]. exists (n, j). split; [done|]. rewrite merge_sort_Permutation.
      by apply elem_of_map_to_list. }
  assert (Hp : match parse_rules js with
    | Err e => e = "corrupt rule json" /\ exists j, In j js /\ rule_of_json j = None
    | Ok rs => (forall j, In j js -> rule_of_json j <> None) /\
               forall r, In r rs <-> exists j, In j js /\ rule_of_json j = Some r
    end).
  { clear Hjs. clearbody js. induction js as [|j js IH]; cbn; [split; [intros ? []|]|].
    { intros r. split; [intros []|intros (? & [] & _)]. }
    destruct (rule_of_json j) as [r|] eqn:Ej; cbn; [|split; [done|]; exists j; split; [by left|done]].
    destruct (parse_rules js) as [rs|e]; cbn.
    - destruct IH as [IH1 IH2]. split; [intros j' [<-|?]; [congruence|by apply IH1]|].
      intros r'. rewrite IH2. split.
      + intros [<-|(j' & ? & ?)]; [exists j; auto|exists j'; auto].
      + intros (j' & [<-|?] & E); [left; congruence|right; by exists j'].
    - destruct IH as (-> & j' & ? & ?). split; [done|]. exists j'. auto. }
  destruct (parse_rules js) as [rs|e]; cbn.
  - destruct Hp as [Hp1 Hp2]. split.
    + split; [done|]. intros (n & j & Hn & Hj). exfalso. apply (Hp1 j); [apply Hjs; by exists n|done].
    + intros rset E. destruct (rule_epoch s) as [ep|]; [|done].
      destruct (Z.eqb ep 0); [done|]. injection E as <-. split; [done|]. intros r. cbn. rewrite Hp2.
      split; [intros (j & (n & ?)%Hjs & ?); by exists n, j|intros (n & j & ? & ?); exists j].
      split; [apply Hjs; by exists n|done].
  - destruct Hp as (-> & j & (n & Hn)%Hjs & Hj). split; [|done]. split; [|done]. intros _. by exists n, j.
Qed.

(** ** Delivery of queued events *)
Section Delivery.
Context `{HmacLaws, RowCodec, VerdictCodec, StoreCodecLaws}.
#[local] Set Default Proof Using "All".

Lemma insert_ok_row ev master kv db db' : insert_audit_event ev master kv db = Ok db' ->
  exists r, audit_rows db' = audit_rows db ++ [r] /\ link_event (r_event r) "" "" = link_event ev "" "".
Proof using.
  unfold insert_audit_event, insert_audit_event_tx. destruct (existsb _ _); [done|]. intros [= <-]. by eexists.
Qed.
(** The event is on a line of the dead-letter file. *)
Definition spooled (ev : AuditEvent) (s : Store) : Prop :=
  exists line d, In line (dead_letter s) /\ dead_of_line line = Some d /\ d_event d = Some ev.
(** The event is a row of the audit table, or a line of the dead-letter file. *)
Definition delivered (ev : AuditEvent) (s : Store) : Prop :=
  (exists r, In r (audit_rows (audit s)) /\ link_event (r_event r) "" "" = link_event ev "" "") \/
  spooled ev s.

Lemma delivered_mono ev s s' :
  (forall r, In r (audit_rows (audit s)) -> In r (audit_rows (audit s'))) ->
  (forall l, In l (dead_letter s) -> In l (dead_letter s')) ->
  delivered ev s -> delivered ev s'.
Proof using.
  intros Hr Hl [(r & ? & ?)|(l & d & ? & ? & ?)]; [left; exists r|right; exists l, d]; auto.
Qed.
Lemma spool_keeps ev why s :
  delivered ev (spool_dead_letter true ev why s) /\ low_queue (spool_dead_letter true ev why s) = low_queue s /\
  forall e, delivered e s -> delivered e (spool_dead_letter true ev why s).
Proof.
  unfold spool_dead_letter. set (d := mkDead _ _ _ _ _). split; [|split; [done|]].
  - right. exists (dead_to_line d), d. split; [cbn; apply in_app_iff; right; by left|].
    split; [apply dead_line_roundtrip|done].
  - intros e. apply delivered_mono; [done|]. intros l Hl. cbn. apply in_app_iff. by left.
Qed.
Lemma drain_step ev q s : low_queue s = ev :: q ->
  delivered ev (drain_one true s) /\ low_queue (drain_one true s) = q /\
  forall e, delivered e s -> delivered e (drain_one true s).
Proof.
  intros Eq. unfold drain_one. rewrite Eq.
  destruct (insert_audit_event _ _ _ _) as [db|] eqn:E.
  - apply insert_ok_row in E as (r & Hr & Hl). cbn in Hr. split; [|split; [done|]].
    + left. exists r. cbn. rewrite Hr, in_app_iff. split; [right; by left|done].
    + intros e. apply delivered_mono; [|done]. intros r' Hr'. cbn. rewrite Hr, in_app_iff. by left.
  - destruct (spool_keeps ev (sql_error_text e) (with_queue q s)) as (? & ? & Hk). split; [done|].
    split; [done|]. intros e' He. by apply Hk.
Qed.
End Delivery.

(** No queued audit event is lost: draining the queue to its end empties it, and every
    event that was in it is then a row of the audit table or, where the insert failed, a
    line of the dead-letter file (given that the file can be written). *)
Theorem drain_delivers `{HmacLaws, RowCodec, VerdictCodec, StoreCodecLaws} s :
  let s' := Nat.iter (length (low_queue s)) (drain_one true) s in
  low_queue s' = [] /\ forall ev, In ev (low_queue s) \/ delivered ev s -> delivered ev s'.
Proof.
  cbv zeta. remember (low_queue s) as q eqn:Eq. revert s Eq.
  induction q as [|ev q IH]; intros s Eq; [split; [done|by intros ev [[]|]]|].
  cbn [length]. rewrite Nat.iter_succ_r.
  destruct (drain_step ev q s (eq_sym Eq)) as (Hev & Hq & Hk).
  destruct (IH (drain_one true s) (eq_sym Hq)) as [Hn Hall]. split; [done|].
  intros e [[<-|He]|He]; apply Hall; [by right|by left|right; by apply Hk].
Qed.

Definition queued_state : Store :=
  with_queue [sample_event "a" "al"; sample_event "b" "bob"]
    (with_audit (toy_insert (sample_event "b" "bob") (mkDb [] None)) (new_store toy_tokens)).
Lemma drain_delivers_witness :
  let s' := Nat.iter 2 (drain_one true) queued_state in
  low_queue s' = [] /\ length (dead_letter s') = 1 /\ delivered (sample_event "b" "bob") s'.
Proof.
  cbv zeta. destruct (drain_delivers queued_state) as [Hq Hd].
  split; [exact Hq|]. split; [vm_compute; reflexivity|].
  apply Hd. left. right. left. reflexivity.
Defined.

(** Appending never drops an event: a low-risk append succeeds and leaves the event in
    the queue or, when the queue is full or its thread is gone, in the dead-letter file; the
    queue never grows past its capacity; a high-risk append that succeeds has written its row
    to the audit table before retention runs, and one that fails leaves the store as it was. *)
Lemma append_event_durable `{HmacLaws, RowCodec, VerdictCodec, StoreCodecLaws}
    uuid time tenant v raw who rt s :
  let ev := evaluate_event uuid time tenant v raw who in
  let '(s', res) := append_event uuid time tenant v raw who true rt s in
  (high_risk v = false -> res = Ok ev /\
     (In ev (low_queue s') \/ spooled ev s')) /\
  (length (low_queue s) <= QUEUE_CAP -> length (low_queue s') <= QUEUE_CAP) /\
  (high_risk v = true ->
     match res with
     | Err _ => s' = s
     | Ok e => e = ev /\ exists db r, audit_rows db = audit_rows (audit s) ++ [r] /\
                 link_event (r_event r) "" "" = link_event ev "" "" /\
                 s' = enforce_retention rt (with_audit db s)
     end).
Proof.
  cbv zeta. unfold append_event. set (ev := evaluate_event _ _ _ _ _ _).
  destruct (high_risk v).
  { destruct (insert_audit_event _ _ _ _) as [db|] eqn:E; (split; [done|]); (split; [done|]); intros _;
      [|done]. split; [done|]. apply insert_ok_row in E as (r & ? & ?). by exists db, r. }
  assert (Hs : forall why, In (dead_to_line (mkDead (dead_tail s)
      (compute_event_hmac (key (toks s)) (current_version (toks s)) (payload_bytes ev) (dead_tail s))
      (current_version (toks s)) why (Some ev))) (dead_letter (spool_dead_letter true ev why s)))
    by (intros why; cbn; apply in_app_iff; right; by left).
  destruct (negb (drain_alive s)); [|destruct (Nat.leb _ _) eqn:Ec]; (split; [|split; [|done]]).
  - intros _. split; [done|]. right. do 2 eexists. split; [apply Hs|]. by rewrite dead_line_roundtrip.
  - done.
  - intros _. split; [done|]. right. do 2 eexists. split; [apply Hs|]. by rewrite dead_line_roundtrip.
  - done.
  - intros _. split; [done|]. left. cbn. apply in_app_iff. right. by left.
  - intros _. cbn [with_queue enforce_retention with_audit low_queue]. rewrite length_app.
    apply Nat.leb_gt in Ec. cbn [length]. lia.
Qed.

Lemma append_event_example :
  let ev := evaluate_event "e1" "now" "acme" (toy_verdict L4 "rule") "rm" "al" in
  exists s', append_event "e1" "now" "acme" (toy_verdict L4 "rule") "rm" "al" true toy_retention queued_state
      = (s', Ok ev) /\
    exists db r, audit_rows db = audit_rows (audit queued_state) ++ [r] /\
      s' = enforce_retention toy_retention (with_audit db queued_state).
Proof.
  cbv zeta.
  pose proof (append_event_durable "e1" "now" "acme" (toy_verdict L4 "rule") "rm" "al" toy_retention queued_state)
    as Hd. cbv zeta in Hd.
  destruct (append_event _ _ _ _ _ _ _ _ _) as [s' [e|e]] eqn:E.
  - destruct Hd as (_ & _ & Hd). destruct (Hd eq_refl) as (-> & db & r & Hr & _ & Hs).
    exists s'. split; [reflexivity|]. by exists db, r.
  - exfalso. apply (f_equal snd) in E. vm_compute in E. discriminate.
Defined.

(** ** What the verification of all chains does not see *)

(** The rule table itself is not compared with the chain of its mutations: a rule deleted
    from the table behind the store's back changes nothing in the report, although the
    schema's comment says the chain detects it. *)
Lemma rule_table_not_verified `{Crypto, RowCodec, VerdictCodec, StoreCodec} tenant now t s :
  (verify_all_chains tenant now (with_rules t s)).2 = (verify_all_chains tenant now s).2.
Proof.
  unfold verify_all_chains. cbn [with_rules toks audit]. by destruct (verify_chain _ _ _ _).
Qed.
(** Clearing the hash of the newest TCC row and changing the row is not reported as
    tampering. *)
Definition cleared_tcc (s : Store) : Store :=
  with_tcc ((fun r => mkTcc (tcc_id r) (tcc_ts r) (permission r) (tcc_requester r) "granted"
                        (tcc_reason r) (tcc_prev r) "" (tcc_kv r)) <$> tcc_events s) s.
Lemma cleared_hash_not_reported :
  let s := report_tcc_event "t1" "now" "camera" "app" "denied" "why" (new_store toy_tokens) in
  (verify_all_chains None "now" (cleared_tcc s)).2
  = mkAll (mkVerification 0 0 0 0 false None 0) (mkVerification 1 1 0 0 false None 0)
      (mkVerification 0 0 0 0 false None 0) (mkVerification 0 0 0 0 false None 0) false false.
Proof. vm_compute. reflexivity. Qed.
(** A reimport that meets an id already in the table has by then imported the lines before
    it; it fails, the file stays, and every later reimport fails at once. *)
Lemma reimport_stuck :
  let s0 := with_audit (toy_insert (sample_event "b" "bob") (mkDb [] None)) dead_state in
  let '(s1, r1) := reimport_dead_letter s0 in
  r1 = Err (UniqueViolation "b") /\ length (audit_rows (audit s1)) = 2 /\ dead_letter s1 = dead_letter s0 /\
  reimport_dead_letter s1 = (s1, Err (UniqueViolation "a")).
Proof. vm_compute. auto. Qed.
End LedgerSpec.
