(* ===== verification/Threads.v ===== *)
(** * Threads of the store (fg-store/src/lib.rs)

    The operations of the store as the threads of the daemon run them: a handler that appends,
    the drain thread, the retention that follows an append or comes from the monitor thread,
    verifications, confirmations, reimports.  A step is what one lock and one SQL statement, one
    transaction or one access to a file makes atomic; between two steps of a thread every other
    thread may take steps.  The mutex of the connection [audit_writer] and the one of [read_conn]
    are held where the code holds them; the drain thread writes on a connection of its own. *)
From S2P Require Import Prelude Core Pattern Rules Tokens Chain Actions Ledger.

Module Threads.
Import Tokens Chain Actions Ledger.

(** Where a thread is. *)
Inductive Task : Type :=
| Done
(* [append_event], with the key version it loaded *)
| AppendHigh (ev : AuditEvent) (kv : Z)
| AppendLow (ev : AuditEvent) (kv : Z)
(* [spool_dead_letter], and what the caller does afterwards *)
| SpoolRead (ev : AuditEvent) (why : string) (kv : Z) (next : Task)
| SpoolWrite (line : string) (next : Task)
(* the drain thread *)
| DrainWait
| DrainFill (buf : list AuditEvent)
| Drain (kv : Z) (batch : list AuditEvent)
(* [rotate_old_rows] *)
| RotCount
| RotSelect (limit : nat)
| RotFile (rows : list AuditRow)
| RotDelete (rows : list AuditRow)
| RotFirst (rows : list AuditRow)
| RotMark (cp : Checkpoint)
| RotVacuum
(* [verify_chain] *)
| VerCp (tenant : option string)
| VerRow (tenant : option string) (c : Checkpoint)
| VerHash (tenant : option string) (c : Checkpoint) (rowid : Z)
| VerRows (tenant : option string) (cp : option Checkpoint) (start : option (Z * string))
| VerCount (tenant : option string) (cp : option Checkpoint) (start : option (Z * string))
    (rows : list AuditRow)
| VerMark (cp : option Checkpoint) (report : ChainVerification)
(* [reimport_dead_letter] *)
| ReimpRead
| ReimpWait (evs : list AuditEvent)
| ReimpImport (kv : Z) (evs : list AuditEvent)
| ReimpClear
(* [confirm_atomic] and [rotate_key] *)
| Confirm (uuid time : string) (now : Z) (id : string) (approved : bool) (by_ tenant : string)
    (kv : Z)
| RotateKey (now : Z).

(** The events the drain thread takes together. *)
Definition DRAIN_BATCH : nat := N.to_nat 100.

(** The calls a thread can begin with; the drain thread is there from the start. *)
Definition initial (t : Task) : bool :=
  match t with
  | AppendHigh _ _ | AppendLow _ _ | RotCount | VerCp _ | ReimpRead
  | Confirm _ _ _ _ _ _ _ _ | RotateKey _ => true
  | _ => false
  end.
(** The guards kept from one step to the next. *)
Definition holds_writer (t : Task) : bool :=
  match t with RotFirst _ | RotMark _ | ReimpImport _ _ | ReimpClear => true | _ => false end.
Definition holds_reader (t : Task) : bool :=
  match t with
  | RotSelect _ | VerRow _ _ | VerHash _ _ _ | VerRows _ _ _ | VerCount _ _ _ _ | VerMark _ _ => true
  | _ => false
  end.

(** A statement of SQL that fails, with its error or with one the code takes for an empty answer. *)
Inductive Failure : Type :=
| Raised (e : string)
| Swallowed.

(** What a step meets outside: a failure, the clock, the size of the database file, the second that names
    an archive, what writing files comes to, and the rowids a [VACUUM] gives. *)
Record Outside : Type := mkOutside {
  o_fault : option Failure;
  o_now : string;
  o_cutoff : string;
  o_bytes : Z;
  o_second : Z;
  o_archive : ArchiveOutcome;
  o_written : bool;
  o_rowids : option (list Z)
}.

(** The archive files by the second in their name, as the rows whose lines they hold; the
    reports verifications have returned. *)
Record Shared : Type := mkShared {
  sh_store : Store;
  sh_files : gmap Z (list AuditRow);
  sh_reports : list ChainVerification
}.
Definition put_store (s : Store) (x : Shared) : Shared := mkShared s (sh_files x) (sh_reports x).
Definition put_audit (db : AuditDb) (x : Shared) : Shared := put_store (with_audit db (sh_store x)) x.

(** Rows with new rowids, in the same order. *)
Definition set_rowid (r : AuditRow) (i : Z) : AuditRow :=
  mkRow (r_event r) (r_seatbelt r) (r_key_version r) i.
Fixpoint increasing (lo : Z) (ids : list Z) : bool :=
  match ids with [] => true | i :: ids' => Z.ltb lo i && increasing i ids' end.
Definition vacuum (ids : list Z) (db : AuditDb) : option AuditDb :=
  if Nat.eqb (length ids) (length (audit_rows db)) && increasing 0 ids
  then Some (mkDb (zip_with set_rowid (audit_rows db) ids) (checkpoint db)) else None.

(** The rows of a range of rowids deleted. *)
Definition delete_range (lo hi : Z) (db : AuditDb) : AuditDb :=
  mkDb (filter (fun r => ~ (lo <= r_rowid r <= hi)%Z) (audit_rows db)) (checkpoint db).
Definition range_of (rows : list AuditRow) : Z * Z :=
  match rows with
  | [] => (0, 0)%Z
  | first :: rest => (r_rowid first, r_rowid (List.last rest first))
  end.

Section WithParams.
Context `{Crypto, RowCodec, VerdictCodec, StoreCodec}.

Definition tail_row (rows : list AuditRow) (now : string) : string * string :=
  match rows with
  | [] => ("", "")
  | first :: rest => let e := row_to_event now (List.last rest first) in (audit_id e, event_hash e)
  end.
(** The line [spool_dead_letter] composes from what it read of the file. *)
Definition dead_line (ev : AuditEvent) (why : string) (kv : Z) (s : Store) : string :=
  let prev := dead_tail s in
  dead_to_line (mkDead prev (compute_event_hmac (key (toks s)) kv (payload_bytes ev) prev) kv why (Some ev)).

(** The loop of [verify_chain] over the rows read, its report and the checkpoint to write. *)
Definition scan_rows (tokens : TokenStore) (tenant : option string) (now : string)
    (cp : option Checkpoint) (start : option (Z * string)) (rows : list AuditRow) : VState :=
  let expected := match start with Some (_, h) => h | None => GENESIS_PREV_HASH end in
  foldl (verify_row tokens tenant now)
    (mkVState expected expected (match cp with Some c => last_verified_audit_id c | None => "" end)
       0 0 0 0 false None 0) rows.
Definition scan_report (total : nat) (s : VState) : ChainVerification :=
  mkVerification total (v_unhashed s) (v_verified s) (v_broken s) (v_tampered s) (v_first s)
    (v_key_loss s).
Definition scan_checkpoint (cp : option Checkpoint) (rows : list AuditRow) (s : VState)
  : option Checkpoint :=
  if negb (v_tampered s) && (negb (bool_decide (rows = [])) || bool_decide (cp = None))
  then Some (mkCheckpoint (v_last_id s) (v_last_hash s)
               (c ← cp; last_archived_audit_id c) (c ← cp; last_archived_hash c))
  else None.

(** [append_event] up to its retention.  The version of the key comes with the call: the load
    is a relaxed one and may miss a rotation. *)
Definition step_append (writer_free : bool) (t : Task) (x : Shared) : option (Shared * Task) :=
  let s := sh_store x in
  let db := audit s in
  let master := key (toks s) in
  match t with
  | AppendHigh ev kv =>
      if negb writer_free then None
      else match insert_audit_event ev master kv db with
           | Err _ => Some (x, Done)
           | Ok db' => Some (put_audit db' x, RotCount)
           end
  | AppendLow ev kv =>
      if negb (drain_alive s) then Some (x, SpoolRead ev "queue disconnected" kv RotCount)
      else if Nat.leb QUEUE_CAP (length (low_queue s))
      then Some (x, SpoolRead ev "queue full" kv RotCount)
      else Some (put_store (with_queue (low_queue s ++ [ev]) s) x, RotCount)
  | _ => None
  end.
(** [spool_dead_letter]: the file is read, then the line appended. *)
Definition step_spool (o : Outside) (t : Task) (x : Shared) : option (Shared * Task) :=
  let s := sh_store x in
  match t with
  | SpoolRead ev why kv next => Some (x, SpoolWrite (dead_line ev why kv s) next)
  | SpoolWrite line next =>
      Some (if o_written o then put_store (with_dead (dead_letter s ++ [line]) s) x else x, next)
  | _ => None
  end.
(** The drain thread: an event awaited, more taken while there are any up to a batch, then each
    written or spooled. *)
Definition step_drain (t : Task) (x : Shared) : option (Shared * Task) :=
  let s := sh_store x in
  let db := audit s in
  let master := key (toks s) in
  match t with
  | DrainWait =>
      match low_queue s with
      | [] => None
      | ev :: q => Some (put_store (with_queue q s) x, DrainFill [ev])
      end
  | DrainFill buf =>
      match low_queue s with
      | [] => Some (x, Drain (current_version (toks s)) buf)
      | ev :: q =>
          let buf' := buf ++ [ev] in
          Some (put_store (with_queue q s) x,
                if bool_decide (DRAIN_BATCH <= length buf') then Drain (current_version (toks s)) buf'
                else DrainFill buf')
      end
  | Drain kv [] => Some (x, DrainWait)
  | Drain kv (ev :: batch) =>
      match insert_audit_event ev master kv db with
      | Ok db' => Some (put_audit db' x, Drain kv batch)
      | Err e => Some (x, SpoolRead ev (sql_error_text e) kv (Drain kv batch))
      end
  | _ => None
  end.
(** [rotate_old_rows]: the rows counted and selected under one guard of the reading connection,
    the file written under none, the rows deleted and the checkpoint written under one guard of
    the writing connection, the [VACUUM] under another. *)
Definition step_rotate (o : Outside) (writer_free reader_free : bool) (t : Task) (x : Shared)
  : option (Shared * Task) :=
  let s := sh_store x in
  let db := audit s in
  match t with
  | RotCount =>
      if negb reader_free then None
      else
        let aged := length (filter (fun r => String.ltb (ts (r_event r)) (o_cutoff o) = true)
                              (audit_rows db)) in
        Some (x, if Nat.eqb aged 0 && Z.ltb (o_bytes o) ROTATE_BYTES then Done
                 else RotSelect (if Nat.ltb 0 aged then aged else N.to_nat 50000))
  | RotSelect limit =>
      Some (x, match take limit (audit_rows db) with [] => Done | rows => RotFile rows end)
  | RotFile rows =>
      match o_archive o with
      | OpenFailed => Some (x, Done)
      | WriteFailed =>
          Some (mkShared s (<[o_second o := []]> (sh_files x)) (sh_reports x), RotDelete rows)
      | Written =>
          Some (mkShared s (<[o_second o := rows]> (sh_files x)) (sh_reports x), RotDelete rows)
      end
  | RotDelete rows =>
      if negb writer_free then None
      else Some (put_audit (delete_range (range_of rows).1 (range_of rows).2 db) x, RotFirst rows)
  | RotFirst rows =>
      let '(id, h) := tail_row rows (o_now o) in
      Some (x, RotMark (rotated_checkpoint (audit_rows db) id h))
  | RotMark cp => Some (put_audit (write_checkpoint cp db) x, RotVacuum)
  | RotVacuum =>
      if negb writer_free then None
      else match o_rowids o with
           | None => Some (x, Done)
           | Some ids => db' ← vacuum ids db; Some (put_audit db' x, Done)
           end
  | _ => None
  end.
(** [verify_chain]: all its reads under one guard of the reading connection, each a statement of
    its own; the checkpoint is written under the writing connection as well. *)
Definition step_verify (o : Outside) (writer_free reader_free : bool) (t : Task) (x : Shared)
  : option (Shared * Task) :=
  let s := sh_store x in
  let db := audit s in
  match t with
  | VerCp tenant =>
      if negb reader_free then None
      else Some (x, match read_checkpoint db with
                    | None => VerRows tenant None None
                    | Some c =>
                        if str_empty (last_verified_audit_id c)
                        then VerRows tenant (Some c) (h ← non_empty (last_archived_hash c); Some (0%Z, h))
                        else VerRow tenant c
                    end)
  | VerRow tenant c =>
      Some (x, match rowid_of_audit (last_verified_audit_id c) (audit_rows db) with
               | None => VerRows tenant (Some c) None
               | Some r => VerHash tenant c (r_rowid r)
               end)
  | VerHash tenant c rid =>
      let found := List.find (fun r => Z.eqb (r_rowid r) rid) (audit_rows db) in
      Some (x, VerRows tenant (Some c)
                 (h ← non_empty ((fun r => event_hash (r_event r)) <$> found);
                  if String.eqb h (last_verified_hash c) then Some (rid, last_verified_hash c) else None))
  | VerRows tenant cp start =>
      Some (x, VerCount tenant cp start
                 (match start with
                  | Some (a, _) => filter (fun r => (a < r_rowid r)%Z) (audit_rows db)
                  | None => audit_rows db
                  end))
  | VerCount tenant cp start rows =>
      let total := match start with
                   | Some _ => count_scope tenant (audit_rows db)
                   | None => count_scope tenant rows
                   end in
      let v := scan_rows (toks s) tenant (o_now o) cp start rows in
      Some (x, VerMark (scan_checkpoint cp rows v) (scan_report total v))
  | VerMark cp rep =>
      match cp with
      | None => Some (mkShared s (sh_files x) (rep :: sh_reports x), Done)
      | Some c =>
          if negb writer_free then None
          else Some (mkShared (with_audit (write_checkpoint c db) s) (sh_files x) (rep :: sh_reports x),
                     Done)
      end
  | _ => None
  end.
(** [reimport_dead_letter]: the file is read and checked under no guard. *)
Definition step_reimport (o : Outside) (writer_free : bool) (t : Task) (x : Shared)
  : option (Shared * Task) :=
  let s := sh_store x in
  let db := audit s in
  let master := key (toks s) in
  match t with
  | ReimpRead =>
      Some (x, match dead_letter s with
               | [] => Done
               | lines => match check_dead master GENESIS_PREV_HASH lines with
                          | Err _ => Done
                          | Ok evs => ReimpWait evs
                          end
               end)
  | ReimpWait evs =>
      if negb writer_free then None else Some (x, ReimpImport (current_version (toks s)) evs)
  | ReimpImport kv [] => Some (x, ReimpClear)
  | ReimpImport kv (ev :: evs) =>
      match insert_audit_event ev master kv db with
      | Err _ => Some (x, Done)
      | Ok db' => Some (put_audit db' x, ReimpImport kv evs)
      end
  | ReimpClear => Some (if o_written o then put_store (with_dead [] s) x else x, Done)
  | _ => None
  end.

(** One step of a thread whose statements succeed: [None] when it waits for a lock or for an event
    in the queue. *)
Definition step_sound (o : Outside) (writer_free reader_free : bool) (t : Task) (x : Shared)
  : option (Shared * Task) :=
  let s := sh_store x in
  match t with
  | Done => None
  | AppendHigh _ _ | AppendLow _ _ => step_append writer_free t x
  | SpoolRead _ _ _ _ | SpoolWrite _ _ => step_spool o t x
  | DrainWait | DrainFill _ | Drain _ _ => step_drain t x
  | RotCount | RotSelect _ | RotFile _ | RotDelete _ | RotFirst _ | RotMark _ | RotVacuum =>
      step_rotate o writer_free reader_free t x
  | VerCp _ | VerRow _ _ | VerHash _ _ _ | VerRows _ _ _ | VerCount _ _ _ _ | VerMark _ _ =>
      step_verify o writer_free reader_free t x
  | ReimpRead | ReimpWait _ | ReimpImport _ _ | ReimpClear =>
      step_reimport o writer_free t x
  | Confirm uuid time now id approved by_ tenant kv =>
      if negb writer_free then None
      else
        let '(ab, _) := confirm_atomic uuid time now id approved by_ tenant (key (toks s)) kv
                          (actions s, audit s) in
        Some (put_store (with_actions ab.1 (with_audit ab.2 s)) x, Done)
  | RotateKey now => Some (put_store (with_toks (rotate_key now (toks s)).1 s) x, Done)
  end.

(** A step whose statement fails with an error.  Most operations return it, having changed
    nothing; the drain thread spools its event; the checkpoint after a rotation or a verification
    and the [VACUUM] are given up with a warning. *)
Definition step_raised (e : string) (o : Outside) (writer_free reader_free : bool) (t : Task) (x : Shared)
  : option (Shared * Task) :=
  match t with
  | AppendHigh _ _ | RotDelete _ | RotVacuum | Confirm _ _ _ _ _ _ _ _ =>
      if negb writer_free then None else Some (x, Done)
  | RotCount => if negb reader_free then None else Some (x, Done)
  | RotSelect _ | VerRow _ _ | VerRows _ _ _ | VerCount _ _ _ _ | ReimpImport _ (_ :: _) | RotateKey _ =>
      Some (x, Done)
  | Drain kv (ev :: batch) => Some (x, SpoolRead ev e kv (Drain kv batch))
  | RotMark _ => Some (x, RotVacuum)
  | VerMark (Some _) rep =>
      if negb writer_free then None
      else Some (mkShared (sh_store x) (sh_files x) (rep :: sh_reports x), Done)
  | _ => step_sound o writer_free reader_free t x
  end.

(** The insertion whose read of the last row fails: it links to the end of the archives or to the
    genesis value. *)
Definition insert_blind (ev : AuditEvent) (master : string) (kv : Z) (db : AuditDb)
  : result SqlError AuditDb :=
  if existsb (fun r => String.eqb (audit_id (r_event r)) (audit_id ev)) (audit_rows db)
  then Err (UniqueViolation (audit_id ev))
  else
    let prev := tail_hash (mkDb [] (checkpoint db)) in
    Ok (mkDb (audit_rows db ++
                [mkRow (link_event ev prev (compute_event_hmac master kv (payload_bytes ev) prev))
                   (if ev_seatbelt ev then 1 else 0) kv (next_rowid (audit_rows db))]) (checkpoint db)).
(** A step whose read fails where the code goes on as if there were no row. *)
Definition step_swallowed (o : Outside) (writer_free reader_free : bool) (t : Task) (x : Shared)
  : option (Shared * Task) :=
  let s := sh_store x in
  let blind ev kv ok err :=
    match insert_blind ev (key (toks s)) kv (audit s) with
    | Ok db' => Some (put_audit db' x, ok)
    | Err e => Some (x, err e)
    end in
  match t with
  | AppendHigh ev kv => if negb writer_free then None else blind ev kv RotCount (fun _ => Done)
  | Drain kv (ev :: batch) =>
      blind ev kv (Drain kv batch) (fun e => SpoolRead ev (sql_error_text e) kv (Drain kv batch))
  | ReimpImport kv (ev :: evs) => blind ev kv (ReimpImport kv evs) (fun _ => Done)
  | RotFirst rows =>
      let '(id, h) := tail_row rows (o_now o) in Some (x, RotMark (rotated_checkpoint [] id h))
  | VerCp tenant => if negb reader_free then None else Some (x, VerRows tenant None None)
  | VerHash tenant c _ => Some (x, VerRows tenant (Some c) None)
  | _ => step_sound o writer_free reader_free t x
  end.

(** One step of a thread. *)
Definition step_task (o : Outside) (writer_free reader_free : bool) (t : Task) (x : Shared)
  : option (Shared * Task) :=
  match o_fault o with
  | None => step_sound o writer_free reader_free t x
  | Some (Raised e) => step_raised e o writer_free reader_free t x
  | Some Swallowed => step_swallowed o writer_free reader_free t x
  end.

(** All threads.  A crash ends them and loses the queue; the daemon starts again with its drain
    thread. *)
Record Machine : Type := mkMachine { m_shared : Shared; m_tasks : list Task }.
Inductive Event : Type :=
| Start (t : Task)
| Run (i : nat) (o : Outside)
| Crash.
Definition free (holds : Task -> bool) (i : nat) (ts : list Task) : bool :=
  forallb (fun t => negb (holds t)) (delete i ts).
Definition machine_step (e : Event) (m : Machine) : option Machine :=
  let x := m_shared m in
  match e with
  | Start t => if initial t then Some (mkMachine x (m_tasks m ++ [t])) else None
  | Run i o =>
      t ← m_tasks m !! i;
      '(x', t') ← step_task o (free holds_writer i (m_tasks m)) (free holds_reader i (m_tasks m)) t x;
      Some (mkMachine x' (<[i := t']> (m_tasks m)))
  | Crash => Some (mkMachine (put_store (with_queue [] (sh_store x)) x) [DrainWait])
  end.
Fixpoint machine_run (es : list Event) (m : Machine) : option Machine :=
  match es with [] => Some m | e :: es' => m' ← machine_step e m; machine_run es' m' end.
Definition booted (s : Store) : Machine := mkMachine (mkShared s ∅ []) [DrainWait].

End WithParams.

(** The step of a thread whose place is known. *)
Tactic Notation "cbn_step" :=
  cbn [step_sound step_append step_spool step_drain step_rotate step_verify step_reimport negb].
Tactic Notation "cbn_step" "in" hyp(E) :=
  cbn [step_sound step_append step_spool step_drain step_rotate step_verify step_reimport negb] in E.
End Threads.
