(* ===== verification/ThreadsSpec.v ===== *)
(** * Properties of the store's threads

    What the operations of the store keep to when their steps interleave: a discipline under
    which every interleaving leaves the chains in order and loses no event, the agreement of
    each operation run alone with its sequential definition, and the interleavings outside
    the discipline that break a chain or lose rows. *)
From S2P Require Import Prelude Core Pattern Rules Tokens Chain ChainSpec Actions Ledger LedgerSpec Threads.

Module ThreadsSpec.
Import Tokens Chain ChainSpec Actions ActionsSpec Ledger LedgerSpec Threads.

(** ** The discipline *)

(** A rotation from the selection of its rows to its [VACUUM], a verification from the read of
    the checkpoint to the write of the next one. *)
Definition maintains (t : Task) : bool :=
  match t with
  | RotFile _ | RotDelete _ | RotFirst _ | RotMark _ | RotVacuum
  | VerRow _ _ | VerHash _ _ _ | VerRows _ _ _ | VerCount _ _ _ _ | VerMark _ _ => true
  | _ => false
  end.
(** Between the deletion of the rotated rows and the checkpoint. *)
Definition mid_rotation (t : Task) : bool :=
  match t with RotFirst _ | RotMark _ => true | _ => false end.
(** Between the read of the dead-letter file and the write that relies on it. *)
Definition spools (t : Task) : bool :=
  match t with SpoolWrite _ _ | ReimpWait _ | ReimpImport _ _ | ReimpClear => true | _ => false end.
Definition pending_drain (t : Task) : bool :=
  match t with Drain _ (_ :: _) => true | _ => false end.

Definition calm (m : Machine) : bool :=
  at_most_one maintains (m_tasks m) && at_most_one spools (m_tasks m)
  && (negb (existsb mid_rotation (m_tasks m))
      || negb (bool_decide (audit_rows (audit (sh_store (m_shared m))) = []))
      || negb (existsb pending_drain (m_tasks m))).
(** The failures a thread can take: not that of the checkpoint after a deletion, and of the
    swallowed ones only that of the first remaining row. *)
Definition calm_fault (f : option Failure) (t : Task) : bool :=
  match f, t with
  | Some (Raised _), RotMark _ => false
  | Some Swallowed, (AppendHigh _ _ | Drain _ (_ :: _) | ReimpImport _ (_ :: _) | VerCp _ | VerHash _ _ _) =>
      false
  | _, _ => true
  end.
Definition calm_event (e : Event) (m : Machine) : bool :=
  match e with
  | Start _ => true
  | Run i o => match m_tasks m !! i with Some t => calm_fault (o_fault o) t | None => true end
  | Crash => negb (existsb mid_rotation (m_tasks m))
  end.

Lemma free_true holds i ts : free holds i ts = true ->
  forall j b, i <> j -> ts !! j = Some b -> holds b = false.
Proof.
  unfold free. rewrite forallb_forall. intros Hf j b Hij Hj.
  apply negb_true_iff, Hf, list_elem_of_In, list_elem_of_lookup.
  destruct (decide (j < i)).
  - exists j. by rewrite list_lookup_delete_lt.
  - exists (j - 1). rewrite list_lookup_delete_ge by lia. by replace (S (j - 1)) with j by lia.
Qed.
Lemma free_false holds i ts j b : i <> j -> ts !! j = Some b -> holds b = true ->
  free holds i ts = false.
Proof.
  intros Hij Hj Hb. destruct (free holds i ts) eqn:E; [|done].
  by rewrite (free_true holds i ts E j b Hij Hj) in Hb.
Qed.

Section WithParams.
Context `{HmacLaws, RowCodec, VerdictCodec, StoreCodecLaws}.
Context (master : string).
#[local] Set Default Proof Using "All".

(** A run all of whose states are calm, and all of whose events are as [ok] asks. *)
Fixpoint guarded_run (ok : Event -> Machine -> bool) (es : list Event) (m : Machine) : option Machine :=
  match es with
  | [] => if calm m then Some m else None
  | e :: es' =>
      if calm m && ok e m then m' ← machine_step e m; guarded_run ok es' m' else None
  end.
Definition calm_run : list Event -> Machine -> option Machine := guarded_run calm_event.

(** ** What a thread relies on *)

Definition clean (rep : ChainVerification) : Prop :=
  broken_links rep = 0 /\ unhashed_rows rep = 0 /\ tampered rep = false /\
  first_broken_at rep = None /\ key_version_unknown_rows rep = 0.
(** A line that links to the end of the file. *)
Definition next_line (lines : list string) (line : string) : Prop :=
  exists d ev, dead_of_line line = Some d /\ d_event d = Some ev /\ canonical ev /\
    d_prev d = link_tail (l ← last lines; d ← dead_of_line l; Some (d_hmac d)) /\
    d_hmac d = compute_event_hmac master (d_kv d) (payload_bytes ev) (d_prev d).
Definition resumes (t : Task) : Prop :=
  match t with RotCount => True | Drain _ evs => Forall canonical evs | _ => False end.

(** What holds for a thread between two of its steps, of the table that starts at [start], the
    checkpoint and the lines of the dead-letter file. *)
Definition task_ok (start : string) (db : AuditDb) (lines : list string) (t : Task) : Prop :=
  match t with
  | AppendHigh ev _ | AppendLow ev _ => canonical ev
  | SpoolRead ev _ _ next => canonical ev /\ resumes next
  | SpoolWrite line next => next_line lines line /\ resumes next
  | DrainFill evs | Drain _ evs | ReimpWait evs | ReimpImport _ evs => Forall canonical evs
  | RotFile rows | RotDelete rows =>
      rows <> [] /\ exists left, audit_rows db = rows ++ left
  | RotFirst rows =>
      exists first rest, rows = first :: rest /\ row_ok (List.last rest first) /\
        start = event_hash (r_event (List.last rest first)) /\ start <> ""
  | RotMark cp => anchored (write_checkpoint cp db) start
  | VerRow _ c => anchored db start /\ read_checkpoint db = Some c /\ last_verified_audit_id c <> ""
  | VerHash _ c rid =>
      anchored db start /\ read_checkpoint db = Some c /\ last_verified_audit_id c <> "" /\
      exists r, rowid_of_audit (last_verified_audit_id c) (audit_rows db) = Some r /\ r_rowid r = rid
  | VerRows _ cp from => anchored db start /\ cp = read_checkpoint db /\ from = scan_anchor db
  | VerCount _ cp from rows =>
      anchored db start /\ cp = read_checkpoint db /\ from = scan_anchor db /\
      exists newer, scanned db = rows ++ newer
  | VerMark cp rep =>
      clean rep /\ match cp with Some c => anchored (write_checkpoint c db) start | None => True end
  | Confirm uuid time _ _ _ _ _ _ =>
      uuid <> "" /\ parse_uuid uuid = Some uuid /\ parse_ts time = Some time
  | _ => True
  end.

(** The rest of the store only matters to the thread's neighbours through these. *)
Lemma task_ok_other start db lines start' db' t : maintains t = false ->
  task_ok start db lines t -> task_ok start' db' lines t.
Proof using. by destruct t. Qed.
Lemma task_ok_lines start db lines lines' t : spools t = false ->
  task_ok start db lines t -> task_ok start db lines' t.
Proof using. by destruct t. Qed.

(** *** An insertion disturbs nobody *)

Lemma find_app_some {A} (f : A -> bool) l1 l2 x : List.find f l1 = Some x ->
  List.find f (l1 ++ l2) = Some x.
Proof using. induction l1 as [|y l1 IH]; cbn; [done|]. destruct (f y); auto. Qed.
Lemma anchored_found db start c : anchored db start -> read_checkpoint db = Some c ->
  last_verified_audit_id c <> "" ->
  exists r, rowid_of_audit (last_verified_audit_id c) (audit_rows db) = Some r.
Proof using.
  unfold anchored. intros Han Hc Hne. rewrite Hc, str_empty_false in Han by done.
  destruct Han as (pre & r & suf & -> & Hid & _). unfold rowid_of_audit.
  destruct (List.find _ _) as [x|] eqn:E; [by exists x|].
  apply find_none with (x := r) in E; [by rewrite Hid, String.eqb_refl in E|].
  apply in_or_app. right. by left.
Qed.
Section Insert.
Context (ev : AuditEvent) (kv : Z) (db db' : AuditDb) (start : string).
Context (Hi : insert_audit_event ev master kv db = Ok db').

Lemma insert_checkpoint : read_checkpoint db' = read_checkpoint db.
Proof. apply insert_rows in Hi as (r & _ & Hc & _). unfold read_checkpoint. by rewrite Hc. Qed.
Lemma insert_anchor : anchored db start -> scan_anchor db' = scan_anchor db.
Proof.
  intros Han. unfold scan_anchor. rewrite insert_checkpoint.
  destruct (read_checkpoint db) as [c|] eqn:Ec; [|done]. cbn [mbind option_bind].
  destruct (str_empty (last_verified_audit_id c)) eqn:Ee; [done|].
  destruct (anchored_found db start c Han Ec) as [r Hr]; [by destruct (last_verified_audit_id c)|].
  apply insert_rows in Hi as (x & -> & _ & _). unfold rowid_of_audit in *.
  by rewrite Hr, (find_app_some _ _ [x] r Hr).
Qed.
Lemma insert_scanned : anchored db start -> exists newer, scanned db' = scanned db ++ newer.
Proof.
  intros Han. unfold scanned. rewrite (insert_anchor Han).
  apply insert_rows in Hi as (x & -> & _ & _).
  destruct (scan_anchor db) as [[a h]|]; [|by exists [x]]. rewrite filter_app. by eexists.
Qed.
Lemma insert_written c : anchored (write_checkpoint c db) start ->
  anchored (write_checkpoint c db') start.
Proof. apply insert_rows in Hi as (x & Hx & _ & _). unfold write_checkpoint. rewrite Hx. apply anchored_app. Qed.
Lemma task_ok_insert lines t : task_ok start db lines t -> task_ok start db' lines t.
Proof.
  pose proof insert_checkpoint as Hc. pose proof (anchored_insert master start db ev kv db' Hi) as Ha.
  assert (Hp : forall rows, (exists left, audit_rows db = rows ++ left) ->
                            exists left, audit_rows db' = rows ++ left).
  { intros rows [left Hl]. apply insert_rows in Hi as (x & -> & _ & _). rewrite Hl, <- app_assoc. by eexists. }
  destruct t; cbn [task_ok]; try done; rewrite ?Hc.
  - naive_solver.
  - naive_solver.
  - apply insert_written.
  - naive_solver.
  - intros (? & ? & ? & r & Hr & Hid). split; [by apply Ha|]. do 2 (split; [done|]). exists r.
    split; [|done]. apply insert_rows in Hi as (x & -> & _ & _). by apply find_app_some.
  - intros (Han & ? & ->). by rewrite insert_anchor; auto.
  - intros (Han & ? & -> & newer & Hn). rewrite insert_anchor by done.
    destruct (insert_scanned Han) as [l ->]. rewrite Hn, <- app_assoc. repeat split; auto. by eexists.
  - destruct cp as [c|]; [|done]. intros [? ?]. split; [done|by apply insert_written].
Qed.
End Insert.

(** ** One step *)

(** What holds around the thread that steps; [amid] says whether another thread is in the middle
    of a rotation. *)
Definition local_inv (amid : bool) (start : string) (x : Shared) (t : Task) : Prop :=
  let s := sh_store x in
  key (toks s) = master /\ table_ok master start (audit_rows (audit s)) /\
  (amid = false -> mid_rotation t = false -> anchored (audit s) start) /\
  task_ok start (audit s) (dead_letter s) t /\ Forall canonical (low_queue s) /\
  dead_ok master (dead_letter s) /\ Forall clean (sh_reports x).
(** What the others keep. *)
Definition frame (start : string) (x : Shared) (t : Task) (start' : string) (x' : Shared) : Prop :=
  let s := sh_store x in
  let s' := sh_store x' in
  tcc_events s' = tcc_events s /\ rule_mutations s' = rule_mutations s /\
  forall u, maintains t && maintains u = false -> spools t && spools u = false ->
    task_ok start (audit s) (dead_letter s) u -> task_ok start' (audit s') (dead_letter s') u.
Definition step_goal (amid : bool) (start : string) (x : Shared) (t : Task) (x' : Shared) (t' : Task)
  : Prop := exists start', local_inv amid start' x' t' /\ frame start x t start' x'.
(** What the discipline gives the thread that steps. *)
Definition allowed (amid wfree : bool) (x : Shared) (t t' : Task) : Prop :=
  amid = true -> wfree = false /\ holds_writer t = false /\ maintains t = false /\
    maintains t' = false /\ (audit_rows (audit (sh_store x)) = [] -> pending_drain t = false).

(** A step that leaves the table, the checkpoint and the dead-letter file alone. *)
Lemma step_quiet amid start x t x' t' :
  local_inv amid start x t ->
  audit (sh_store x') = audit (sh_store x) -> dead_letter (sh_store x') = dead_letter (sh_store x) ->
  tcc_events (sh_store x') = tcc_events (sh_store x) ->
  rule_mutations (sh_store x') = rule_mutations (sh_store x) ->
  key (toks (sh_store x')) = key (toks (sh_store x)) ->
  Forall canonical (low_queue (sh_store x')) -> Forall clean (sh_reports x') ->
  (amid = false -> mid_rotation t' = false -> anchored (audit (sh_store x)) start) ->
  task_ok start (audit (sh_store x)) (dead_letter (sh_store x)) t' ->
  step_goal amid start x t x' t'.
Proof using.
  intros (Hk & Ht & Han & Htk & Hq & Hd & Hr) Ea Ed Et Em Ek Hq' Hr' Han' Htk'.
  exists start. unfold local_inv, frame. rewrite Ea, Ed, Et, Em, Ek. done.
Qed.
(** A step that inserts an event. *)
Lemma step_insert amid start x t ev kv db' x' t' :
  local_inv amid start x t -> canonical ev ->
  insert_audit_event ev master kv (audit (sh_store x)) = Ok db' ->
  sh_store x' = with_actions (actions (sh_store x')) (with_audit db' (sh_store x)) ->
  sh_reports x' = sh_reports x ->
  (audit_rows (audit (sh_store x)) = [] -> anchored (audit (sh_store x)) start) ->
  mid_rotation t = false ->
  task_ok start (audit (sh_store x)) (dead_letter (sh_store x)) t' ->
  step_goal amid start x t x' t'.
Proof.
  intros (Hk & Ht & Han & Htk & Hq & Hd & Hr) Hev Hi Es Er Hemp Hmid Htk'.
  pose proof (task_ok_insert ev kv (audit (sh_store x)) db' start Hi (dead_letter (sh_store x))) as Hf.
  exists start. unfold local_inv, frame. rewrite Es, Er. cbn. split; [|by auto].
  split; [done|]. split; [by eapply table_insert|]. split; [|by auto].
  intros Ha _. eapply anchored_insert; [exact Hi|]. auto.
Qed.
(** A step of a rotation or a verification that changes the table or the checkpoint. *)
Lemma step_maintain amid start x t start' db' x' t' :
  local_inv amid start x t -> maintains t = true ->
  sh_store x' = with_audit db' (sh_store x) ->
  table_ok master start' (audit_rows db') -> Forall clean (sh_reports x') ->
  (mid_rotation t' = false -> anchored db' start') ->
  task_ok start' db' (dead_letter (sh_store x)) t' ->
  step_goal amid start x t x' t'.
Proof using.
  intros (Hk & Ht & Han & Htk & Hq & Hd & Hr) Hm Es Ht' Hr' Han' Htk'.
  exists start'. unfold local_inv, frame. rewrite Es. cbn. split; [by auto 10|].
  repeat (split; [done|]). intros u Hu _. rewrite Hm in Hu. by apply task_ok_other.
Qed.
(** A step that changes the dead-letter file. *)
Lemma step_spool amid start x t lines x' t' :
  local_inv amid start x t -> spools t = true ->
  sh_store x' = with_dead lines (sh_store x) -> sh_reports x' = sh_reports x ->
  dead_ok master lines -> mid_rotation t = false ->
  task_ok start (audit (sh_store x)) lines t' ->
  step_goal amid start x t x' t'.
Proof using.
  intros (Hk & Ht & Han & Htk & Hq & Hd & Hr) Hm Es Er Hd' Hmid Htk'.
  exists start. unfold local_inv, frame. rewrite Es, Er. cbn. split; [by auto 10|].
  repeat (split; [done|]). intros u _ Hu. rewrite Hm in Hu. by apply task_ok_lines.
Qed.

(** A thread that may write, or does maintenance, is not in the way of a rotation. *)
Lemma allowed_alone amid wfree x t t' : allowed amid wfree x t t' ->
  wfree = true \/ holds_writer t = true \/ maintains t = true \/ maintains t' = true -> amid = false.
Proof using. destruct amid; [|done]. intros Ha. destruct (Ha eq_refl) as (? & ? & ? & ? & _). intuition congruence. Qed.
Lemma local_anchored amid wfree start x t t' : local_inv amid start x t -> allowed amid wfree x t t' ->
  wfree = true \/ holds_writer t = true \/ maintains t = true \/ maintains t' = true ->
  mid_rotation t = false -> anchored (audit (sh_store x)) start.
Proof using.
  intros (_ & _ & Han & _) Hal Hc. apply Han. by eapply allowed_alone.
Qed.

Lemma next_line_ok lines line : dead_ok master lines -> next_line lines line ->
  dead_ok master (lines ++ [line]).
Proof.
  intros (evs & ls & Hd & Hl & Hc) (d & ev & Hp & He & Hev & Hprev & Hh).
  exists (evs ++ [ev]), (ls ++ [dead_link ev d]).
  split; [by apply dead_lines_snoc|]. split; [|apply Forall_app; split; [done|by constructor]].
  apply links_ok_snoc; [done|..]; cbn [dead_link l_hash l_prev l_kv l_payload]; rewrite ?Hh; auto.
  - apply hmac_not_empty.
  - rewrite Hprev. set (s := mkStoreAll (mkDb [] None) ∅ (mkStore ∅ ∅ master 0) [] [] ∅ None ∅ lines [] true).
    by apply (dead_tail_links s evs ls).
Qed.
Lemma resumes_ok start db lines t : resumes t -> task_ok start db lines t.
Proof using. by destruct t. Qed.

(** [VACUUM] renumbers. *)
Lemma increasing_sorted lo ids rows : increasing lo ids = true -> length ids = length rows ->
  let rows' := zip_with set_rowid rows ids in
  Forall2 same_but_rowid rows rows' /\
  StronglySorted (fun a b => (r_rowid a < r_rowid b)%Z) rows' /\
  Forall (fun r => (lo < r_rowid r)%Z) rows'.
Proof using.
  revert lo rows. induction ids as [|i ids IH]; intros lo [|r rows] Hi Hl; try done; cbn.
  { repeat constructor. }
  apply andb_true_iff in Hi as [Hlo%Z.ltb_lt Hi]. destruct (IH i rows Hi) as (H1' & H2' & H3'); [by injection Hl|].
  split; [constructor; [done|exact H1']|]. split; [constructor; [exact H2'|exact H3']|].
  constructor; [done|]. eapply Forall_impl; [exact H3'|]. cbn. intros. lia.
Qed.
Lemma vacuum_renumbered ids db db' : vacuum ids db = Some db' -> renumbered db db'.
Proof using.
  unfold vacuum. destruct (_ && _) eqn:E; [|done]. intros [= <-].
  apply andb_true_iff in E as [El%Nat.eqb_eq Ei].
  destruct (increasing_sorted 0 ids (audit_rows db) Ei El) as (? & ? & ?). by repeat split.
Qed.
(** The row found by id is the one found by its rowid. *)
Lemma find_rowid rows r : ascending rows -> r ∈ rows ->
  List.find (fun y => Z.eqb (r_rowid y) (r_rowid r)) rows = Some r.
Proof using.
  intros [Hs _]. induction Hs as [|y rows Hs IH HF]; [by intros ?%elem_of_nil|]. cbn.
  intros [->|Hin]%elem_of_cons; [by rewrite Z.eqb_refl|].
  rewrite Forall_forall in HF. pose proof (HF _ Hin) as Hlt. cbn in Hlt.
  destruct (Z.eqb_spec (r_rowid y) (r_rowid r)); [lia|by apply IH].
Qed.
Lemma rowid_of_audit_in id rows r : rowid_of_audit id rows = Some r -> r ∈ rows.
Proof using. intros [Hin _]%find_some. by apply list_elem_of_In. Qed.

Section Steps.
Context (amid wfree rfree : bool) (start : string) (o : Outside) (x x' : Shared).

Definition step_ok (t : Task) : Prop := forall t',
  local_inv amid start x t -> allowed amid wfree x t t' ->
  step_sound o wfree rfree t x = Some (x', t') -> step_goal amid start x t x' t'.

Lemma quiet_same t t' : local_inv amid start x t -> mid_rotation t = false ->
  task_ok start (audit (sh_store x)) (dead_letter (sh_store x)) t' -> step_goal amid start x t x t'.
Proof using.
  intros Hl Hm Ht. pose proof Hl as (_ & _ & Han & _ & Hq & _ & Hr).
  eapply step_quiet; try done. intros Ha _. by apply Han.
Qed.
Lemma quiet_queue q t t' : local_inv amid start x t -> mid_rotation t = false ->
  Forall canonical q -> task_ok start (audit (sh_store x)) (dead_letter (sh_store x)) t' ->
  step_goal amid start x t (put_store (with_queue q (sh_store x)) x) t'.
Proof using.
  intros Hl Hm Hq Ht. pose proof Hl as (_ & _ & Han & _ & _ & _ & Hr).
  eapply step_quiet; try done. intros Ha _. by apply Han.
Qed.

Lemma step_append_high ev kv : step_ok (AppendHigh ev kv).
Proof.
  intros t' Hl Hal. cbn_step. destruct wfree; [|done].
  pose proof (local_anchored _ _ _ _ _ _ Hl Hal (or_introl eq_refl) eq_refl) as Han.
  pose proof Hl as (Hk & _ & _ & Hev & _). rewrite Hk.
  destruct (insert_audit_event _ _ _ _) eqn:E; intros [= <- <-].
  - by eapply step_insert.
  - by apply quiet_same.
Qed.
Lemma step_append_low ev kv : step_ok (AppendLow ev kv).
Proof.
  intros t' Hl _. pose proof Hl as (_ & _ & _ & Hev & Hq & _). cbn_step.
  destruct (negb _); [intros [= <- <-]; by apply quiet_same|].
  destruct (Nat.leb _ _); intros [= <- <-]; [by apply quiet_same|].
  apply quiet_queue; try done. apply Forall_app. split; [done|by constructor].
Qed.
Lemma step_spooling ev why kv next line :
  step_ok (SpoolRead ev why kv next) /\ step_ok (SpoolWrite line next).
Proof.
  split; intros t' Hl _; cbn_step; intros [= <- <-].
  - pose proof Hl as (Hk & _ & _ & [Hev Hn] & _). apply quiet_same; [done..|]. split; [|done].
    eexists (mkDead _ _ _ _ (Some ev)), ev. split; [apply dead_line_roundtrip|]. cbn. rewrite Hk. done.
  - pose proof Hl as (_ & _ & _ & [Hline Hn] & _ & Hd & _). pose proof (resumes_ok start (audit (sh_store x))
      (dead_letter (sh_store x)) next Hn).
    destruct (o_written o); [|by apply quiet_same].
    eapply step_spool; [done|done|reflexivity|done|by apply next_line_ok|done|by apply resumes_ok].
Qed.
Lemma step_draining kv evs : step_ok DrainWait /\ step_ok (DrainFill evs) /\ step_ok (Drain kv evs).
Proof.
  split; [|split]; intros t' Hl Hal; pose proof Hl as (Hk & _ & Han & Htk & Hq & _); cbn_step.
  - destruct (low_queue _) as [|ev q]; [done|]. intros [= <- <-].
    apply Forall_cons in Hq as [? ?]. apply quiet_queue; try done. by constructor.
  - destruct (low_queue _) as [|ev q]; [intros [= <- <-]; by apply quiet_same|].
    apply Forall_cons in Hq as [? ?]. intros [= <- <-]. apply quiet_queue; try done.
    assert (Forall canonical (evs ++ [ev])) by (apply Forall_app; split; [done|by constructor]).
    by destruct (bool_decide _).
  - destruct evs as [|ev evs]; [intros [= <- <-]; by apply quiet_same|]. cbn in Htk.
    apply Forall_cons in Htk as [Hev Hevs]. rewrite Hk.
    destruct (insert_audit_event _ _ _ _) eqn:E; intros [= <- <-]; [|by apply quiet_same].
    eapply step_insert; try done. intros Hemp. apply Han; [|done]. destruct amid; [|done].
    by destruct (Hal eq_refl) as (_ & _ & _ & _ & Hp); apply Hp in Hemp.
Qed.

Lemma step_rot_select limit : step_ok RotCount /\ step_ok (RotSelect limit).
Proof.
  split; intros t' Hl Hal; cbn_step.
  - destruct rfree; [|done]. intros [= <- <-]. apply quiet_same; [done..|]. by destruct (_ && _).
  - intros [= <- <-]. apply quiet_same; [done..|].
    pose proof (take_drop limit (audit_rows (audit (sh_store x)))) as Hsplit.
    destruct (take limit _) as [|r rows]; [done|]. split; [done|]. by eexists.
Qed.
Lemma step_rot_file rows : step_ok (RotFile rows).
Proof.
  intros t' Hl Hal. cbn_step. pose proof Hl as (_ & _ & Han & Htk & Hq & _ & Hr).
  destruct (o_archive o); intros [= <- <-]; [by apply quiet_same|..];
    (eapply step_quiet; try done; intros Ha _; by apply Han).
Qed.
Lemma step_rot_delete rows : step_ok (RotDelete rows).
Proof.
  intros t' Hl Hal. cbn_step. destruct wfree; [|done]. intros [= <- <-].
  pose proof Hl as (_ & Ht & _ & (Hne & left & Hrows) & _ & _ & Hr).
  destruct rows as [|first rest]; [done|]. rewrite Hrows in Ht. pose proof Ht as (_ & _ & Ha & _).
  destruct (table_drop master start first rest left Ht) as (Ht' & Hne' & Hok).
  eapply step_maintain; [done|done|reflexivity| |done|done|].
  - cbn [delete_range audit_rows range_of fst snd]. rewrite Hrows, rowid_range by done. exact Ht'.
  - by exists first, rest.
Qed.
Lemma step_rot_mark rows cp : step_ok (RotFirst rows) /\ step_ok (RotMark cp) /\ step_ok RotVacuum.
Proof.
  split; [|split]; intros t' Hl Hal; pose proof Hl as (_ & Ht & Han & Htk & Hq & _ & Hr); cbn_step.
  - destruct Htk as (first & rest & -> & Hok & Hstart & Hne). cbn [tail_row].
    rewrite (row_ok_event master (o_now o)) by done. intros [= <- <-].
    eapply step_quiet; try done. cbn [task_ok]. rewrite <- Hstart.
    destruct (audit (sh_store x)) as [left c]. by apply (rotated_anchored master).
  - intros [= <- <-]. by eapply step_maintain.
  - destruct wfree; [|done]. destruct (o_rowids o) as [ids|]; [|intros [= <- <-]; by apply quiet_same].
    destruct (vacuum ids _) as [db'|] eqn:E; [|done]. cbn. intros [= <- <-].
    apply vacuum_renumbered in E. pose proof (local_anchored _ _ _ _ _ _ Hl Hal (or_introl eq_refl) eq_refl).
    eapply step_maintain; [done|done|reflexivity|by eapply table_vacuum|done|intros _; by eapply anchored_vacuum|done].
Qed.

Lemma step_ver_cp tenant : step_ok (VerCp tenant).
Proof.
  intros t' Hl Hal. cbn_step. destruct rfree; [|done]. intros [= <- <-].
  apply quiet_same; [done..|].
  assert (Hm : maintains (match read_checkpoint (audit (sh_store x)) with
    | None => VerRows tenant None None
    | Some c => if str_empty (last_verified_audit_id c)
                then VerRows tenant (Some c) (h ← non_empty (last_archived_hash c); Some (0%Z, h))
                else VerRow tenant c end) = true) by (repeat case_match; done).
  pose proof (local_anchored _ _ _ _ _ _ Hl Hal (or_intror (or_intror (or_intror Hm))) eq_refl) as Han.
  clear Hm Hal. unfold scan_anchor. destruct (read_checkpoint _) as [c|] eqn:Ec.
  - destruct (str_empty _) eqn:Ee.
    + split; [done|]. split; [done|]. unfold scan_anchor. rewrite Ec. cbn. by rewrite Ee.
    + split; [done|]. split; [done|]. by destruct (last_verified_audit_id c).
  - split; [done|]. split; [done|]. unfold scan_anchor. by rewrite Ec.
Qed.
Lemma step_ver_row tenant c rid : step_ok (VerRow tenant c) /\ step_ok (VerHash tenant c rid).
Proof.
  split; intros t' Hl Hal; pose proof Hl as (_ & Ht & _ & Htk & _); cbn_step;
    intros [= <- <-]; (apply quiet_same; [done..|]).
  - destruct Htk as (Han & Hc & Hne). destruct (rowid_of_audit _ _) as [r|] eqn:Er.
    + repeat (split; [done|]). by exists r.
    + split; [done|]. split; [done|]. unfold scan_anchor. rewrite Hc. cbn.
      by rewrite str_empty_false, Er.
  - destruct Htk as (Han & Hc & Hne & r & Hr & <-). split; [done|]. split; [done|].
    unfold scan_anchor. rewrite Hc. cbn. rewrite str_empty_false, Hr by done. cbn [mbind option_bind].
    destruct Ht as (_ & _ & Ha & _).
    apply rowid_of_audit_in in Hr. by rewrite find_rowid.
Qed.
Lemma step_ver_rows tenant cp from rows :
  step_ok (VerRows tenant cp from) /\ step_ok (VerCount tenant cp from rows).
Proof.
  split; intros t' Hl Hal; pose proof Hl as (Hk & Ht & _ & Htk & _); cbn_step;
    intros [= <- <-]; (apply quiet_same; [done..|]).
  - destruct Htk as (Han & -> & ->). repeat (split; [done|]). exists []. by rewrite app_nil_r.
  - destruct Htk as (Han & -> & -> & newer & Hs).
    destruct (scan_ok master (audit (sh_store x)) start (toks (sh_store x)) tenant (o_now o) rows newer
      Ht Han Hk Hs) as [Hc Hcp]. cbv zeta in Hc, Hcp. unfold scan_rows. fold (scan_start (audit (sh_store x))).
    set (v := foldl _ _ _) in *. unfold v_counts in Hc. injection Hc as C1 C2 C3 C4 C5 C6.
    split; [by repeat split|]. unfold scan_checkpoint. rewrite C4. cbn [negb andb].
    destruct (_ || _) eqn:Eb; [|done]. apply Hcp. apply orb_true_iff in Eb as [Eb|Eb].
    + left. apply negb_true_iff in Eb. by apply bool_decide_eq_false in Eb.
    + right. by apply bool_decide_eq_true in Eb.
Qed.
Lemma step_ver_mark cp rep : step_ok (VerMark cp rep).
Proof.
  intros t' Hl Hal. pose proof Hl as (_ & Ht & Han & [Hc Hcp] & Hq & _ & Hr). cbn_step.
  destruct cp as [c|].
  - destruct wfree; [|done]. intros [= <- <-]. eapply step_maintain; try done. by constructor.
  - intros [= <- <-]. eapply step_quiet; try done. by constructor.
Qed.

Lemma step_reimport kv evs :
  step_ok ReimpRead /\ step_ok (ReimpWait evs) /\ step_ok (ReimpImport kv evs) /\ step_ok ReimpClear.
Proof.
  split; [|split; [|split]]; intros t' Hl Hal; pose proof Hl as (Hk & _ & _ & Htk & _ & Hd & _);
    cbn_step.
  - destruct Hd as (des & ls & Hd & Hls & Hc).
    destruct (dead_letter _); [intros [= <- <-]; by apply quiet_same|].
    rewrite Hk, (check_dead_ok master GENESIS_PREV_HASH _ des ls Hd Hls).
    intros [= <- <-]. by apply quiet_same.
  - destruct wfree; [|done]. intros [= <- <-]. by apply quiet_same.
  - destruct evs as [|ev evs]; [intros [= <- <-]; by apply quiet_same|]. cbn in Htk.
    apply Forall_cons in Htk as [Hev Hevs]. rewrite Hk.
    destruct (insert_audit_event _ _ _ _) eqn:E; intros [= <- <-]; [|by apply quiet_same].
    eapply step_insert; try done. intros _.
    exact (local_anchored _ _ _ _ _ _ Hl Hal (or_intror (or_introl eq_refl)) eq_refl).
  - intros [= <- <-]. destruct (o_written o); [|by apply quiet_same].
    eapply step_spool; try done. exists [], []. repeat constructor.
Qed.
Lemma step_others uuid time now id approved by_ tenant kv :
  step_ok Done /\ step_ok (Confirm uuid time now id approved by_ tenant kv) /\ step_ok (RotateKey now).
Proof.
  split; [done|]. split; intros t' Hl Hal; pose proof Hl as (Hk & _ & Han & Htk & Hq & _ & Hr);
    cbn_step.
  - destruct wfree; [|done]. rewrite Hk.
    pose proof (local_anchored _ _ _ _ _ _ Hl Hal (or_introl eq_refl) eq_refl) as Han'.
    destruct (confirm_atomic _ _ _ _ _ _ _ _ _ _) as [[a db'] [v|e]] eqn:E; intros [= <- <-].
    + apply confirm_ok_inv in E as (? & ? & ? & _ & _ & _ & _ & _ & _ & _ & _ & Hins & [= -> ->]).
      eapply step_insert; [done| |exact Hins|reflexivity|done..]. exact Htk.
    + apply confirm_err_same in E. injection E as -> ->. by eapply step_quiet.
  - intros [= <- <-]. by eapply step_quiet.
Qed.
Lemma step_sound_ok t : step_ok t.
Proof.
  destruct t; first
    [ by apply step_append_high | by apply step_append_low
    | by apply (step_spooling ev why kv t "") | by apply (step_spooling (sample_event "" "") "" 0 t line)
    | by apply (step_draining 0 []) | by apply (step_draining 0 buf) | by apply (step_draining kv batch)
    | by apply (step_rot_select 0) | by apply (step_rot_select limit) | by apply step_rot_file
    | by apply step_rot_delete | by apply (step_rot_mark rows (mkCheckpoint "" "" None None))
    | by apply (step_rot_mark [] cp) | by apply step_ver_cp
    | by apply (step_ver_row tenant c 0) | by apply (step_ver_row tenant c rowid)
    | by apply (step_ver_rows tenant cp start0 []) | by apply (step_ver_rows tenant cp start0 rows)
    | by apply step_ver_mark | by apply (step_reimport 0 []) | by apply (step_reimport 0 evs)
    | by apply (step_reimport kv evs)
    | by apply (step_others uuid time now id approved by_ tenant kv)
    | by apply (step_others "" "" now "" false "" "" 0)
    | by apply (step_others "" "" 0 "" false "" "" 0)
    | by apply (step_rot_mark [] (mkCheckpoint "" "" None None)) ].
Qed.
Lemma step_raised_ok e t t' : local_inv amid start x t -> allowed amid wfree x t t' ->
  calm_fault (Some (Raised e)) t = true -> step_raised e o wfree rfree t x = Some (x', t') ->
  step_goal amid start x t x' t'.
Proof.
  intros Hl Hal Hf. pose proof Hl as (_ & _ & Han & Htk & Hq & _ & Hr).
  destruct t; cbn [step_raised negb]; try done; try (by apply step_sound_ok).
  all: repeat case_match; try done; try (by apply step_sound_ok); intros [= <- <-].
  all: try (by apply quiet_same).
  - subst. apply Forall_cons in Htk as [? ?]. by apply quiet_same.
  - destruct Htk as [Hc _]. eapply step_quiet; try done. by constructor.
Qed.
Lemma sentinel_anchored id db : start <> "" ->
  anchored (write_checkpoint (rotated_checkpoint [] id start) db) start.
Proof using. intros Hne. unfold anchored, read_checkpoint, rotated_checkpoint. cbn. by destruct start. Qed.
Lemma step_swallowed_ok t t' : local_inv amid start x t -> allowed amid wfree x t t' ->
  calm_fault (Some Swallowed) t = true -> step_swallowed o wfree rfree t x = Some (x', t') ->
  step_goal amid start x t x' t'.
Proof.
  intros Hl Hal Hf. pose proof Hl as (_ & _ & _ & Htk & Hq & _ & Hr).
  destruct t; cbn [step_swallowed]; try done; try (by apply step_sound_ok).
  1, 3: case_match; [by apply step_sound_ok|done].
  destruct Htk as (first & rest & -> & Hok & Hstart & Hne). cbn [tail_row].
  rewrite (row_ok_event master (o_now o)) by done. intros [= <- <-].
  eapply step_quiet; try done. cbn [task_ok]. rewrite <- Hstart. by apply sentinel_anchored.
Qed.
Lemma step_all t t' : local_inv amid start x t -> allowed amid wfree x t t' ->
  calm_fault (o_fault o) t = true -> step_task o wfree rfree t x = Some (x', t') ->
  step_goal amid start x t x' t'.
Proof.
  unfold step_task. destruct (o_fault o) as [[e|]|];
    [by apply step_raised_ok|by apply step_swallowed_ok|intros ? ? _; by apply step_sound_ok].
Qed.
End Steps.


(** A thread gets the writer only when it is free. *)
Lemma step_writer o wfree rfree start t x x' t' :
  task_ok start (audit (sh_store x)) (dead_letter (sh_store x)) t ->
  step_task o wfree rfree t x = Some (x', t') ->
  holds_writer t' = true -> holds_writer t = true \/ wfree = true.
Proof using.
  intros Ht E Hw. destruct wfree; [by right|]. left. unfold step_task, step_raised, step_swallowed in E.
  destruct (o_fault o) as [[e|]|], t; try done; cbn_step in E; try done.
  all: repeat case_match; simplify_eq/=; try done.
  all: try (destruct Ht as [_ Ht]; by destruct t').
Qed.

(** ** All threads *)

Definition machine_inv (start : string) (m : Machine) : Prop :=
  let s := sh_store (m_shared m) in
  key (toks s) = master /\ table_ok master start (audit_rows (audit s)) /\
  (existsb mid_rotation (m_tasks m) = false -> anchored (audit s) start) /\
  Forall (task_ok start (audit s) (dead_letter s)) (m_tasks m) /\ Forall canonical (low_queue s) /\
  dead_ok master (dead_letter s) /\ Forall clean (sh_reports (m_shared m)) /\
  exclusive holds_writer (m_tasks m) /\
  links_ok master GENESIS_PREV_HASH (tcc_link <$> tcc_events s) /\
  links_ok master GENESIS_PREV_HASH (mutation_link <$> rule_mutations s).
(** The ids and times of new audit events are canonical. *)
Definition event_ok (e : Event) : Prop :=
  match e with
  | Start (AppendHigh ev _) | Start (AppendLow ev _) => canonical ev
  | Start (Confirm uuid time _ _ _ _ _ _) =>
      uuid <> "" /\ parse_uuid uuid = Some uuid /\ parse_ts time = Some time
  | _ => True
  end.

Lemma existsb_delete p (ts : list Task) i t : ts !! i = Some t ->
  existsb p ts = p t || existsb p (delete i ts).
Proof using.
  revert i. induction ts as [|u ts IH]; intros [|i]; cbn; try done; [by intros [= ->]|].
  intros Hi. rewrite (IH i Hi). destruct (p u), (p t); done.
Qed.
Lemma existsb_insert p (ts : list Task) i t t' : ts !! i = Some t ->
  existsb p (<[i := t']> ts) = p t' || existsb p (delete i ts).
Proof using.
  intros Hi. rewrite (existsb_delete p _ i t') by (apply list_lookup_insert_eq; by eapply lookup_lt_Some).
  f_equal. clear Hi. revert i. induction ts as [|u ts IH]; intros [|i]; cbn; [done..|]. by rewrite IH.
Qed.
Lemma existsb_other p (ts : list Task) i : existsb p (delete i ts) = true ->
  exists j b, i <> j /\ ts !! j = Some b /\ p b = true.
Proof using.
  rewrite existsb_exists. intros (b & Hin & Hb). apply list_elem_of_In, list_elem_of_lookup in Hin as [j Hj].
  destruct (decide (j < i)).
  - rewrite list_lookup_delete_lt in Hj by done. exists j, b. by repeat split; [lia|..].
  - rewrite list_lookup_delete_ge in Hj by lia. exists (S j), b. by repeat split; [lia|..].
Qed.

(** What the discipline gives a thread, from the states before and after its step. *)
Lemma calm_allowed start m m' i t t' x' : machine_inv start m ->
  calm m = true -> m' = mkMachine x' (<[i := t']> (m_tasks m)) -> calm m' = true ->
  m_tasks m !! i = Some t ->
  allowed (existsb mid_rotation (delete i (m_tasks m))) (free holds_writer i (m_tasks m)) (m_shared m) t t'.
Proof using.
  intros (_ & _ & _ & _ & _ & _ & _ & Hex & _) Hc -> Hc' Hi (j & b & Hij & Hj & Hb)%existsb_other.
  unfold calm in Hc, Hc'. cbn [m_tasks] in Hc'.
  apply andb_true_iff in Hc as [[Hm _]%andb_true_iff Hd], Hc' as [[Hm' _]%andb_true_iff _].
  apply at_most_one_exclusive in Hm, Hm'.
  assert (Hbm : maintains b = true /\ holds_writer b = true) by (by destruct b). destruct Hbm as [Hbm Hbw].
  split; [by eapply free_false|].
  specialize (Hex i j t b Hij Hi Hj). rewrite Hbw, andb_true_r in Hex. split; [done|].
  specialize (Hm i j t b Hij Hi Hj). rewrite Hbm, andb_true_r in Hm. split; [done|].
  assert (Hlt : i < length (m_tasks m)) by (by eapply lookup_lt_Some).
  specialize (Hm' i j t' b Hij (list_lookup_insert_eq _ _ _ Hlt)).
  rewrite list_lookup_insert_ne, Hbm, andb_true_r in Hm' by done. split; [by apply Hm'|].
  intros He. rewrite bool_decide_true in Hd by done. cbn in Hd. rewrite orb_false_r in Hd.
  assert (Hmid : existsb mid_rotation (m_tasks m) = true).
  { apply existsb_exists. exists b. split; [|done]. by apply list_elem_of_In, list_elem_of_lookup_2 with j. }
  rewrite Hmid in Hd. cbn in Hd. apply negb_true_iff in Hd.
  rewrite (existsb_delete _ _ i t Hi) in Hd. by apply orb_false_iff in Hd as [? _].
Qed.

Lemma run_inv start m i o m' : machine_inv start m -> calm m = true -> calm_event (Run i o) m = true ->
  machine_step (Run i o) m = Some m' -> calm m' = true -> exists start', machine_inv start' m'.
Proof.
  intros Hm Hc Hfa Hs Hc'. cbn in Hs, Hfa. destruct (m_tasks m !! i) as [t|] eqn:Hi; [|done].
  cbn [mbind option_bind] in Hs. destruct (step_task _ _ _ _ _) as [[x' t']|] eqn:Est; [|done].
  cbn in Hs. injection Hs as <-.
  pose proof (calm_allowed start m _ i t t' x' Hm Hc eq_refl Hc' Hi) as Hal.
  destruct Hm as (Hk & Ht & Han & Htk & Hq & Hd & Hr & Hex & Htc & Hmu).
  rewrite Forall_lookup in Htk. pose proof (Htk i t Hi) as Hti.
  assert (Hw := step_writer _ _ _ start t _ _ t' Hti Est).
  edestruct step_all as (start' & Hl' & Hft & Hfm & Hf); [|exact Hal|exact Hfa|exact Est|].
  { split; [done|]. split; [done|]. split; [|done]. intros Ha Hmid. apply Han.
    by rewrite (existsb_delete _ _ i t Hi), Hmid. }
  destruct Hl' as (Hk' & Ht' & Han' & Hti' & Hq' & Hd' & Hr').
  assert (Hlt : i < length (m_tasks m)) by (by eapply lookup_lt_Some).
  unfold calm in Hc. apply andb_true_iff in Hc as [[Hm1 Hm2]%andb_true_iff _].
  apply at_most_one_exclusive in Hm1, Hm2.
  exists start'. split; [done|]. split; [done|]. cbn [m_tasks m_shared].
  split; [rewrite (existsb_insert _ _ i t) by done; intros [? ?]%orb_false_iff; by apply Han'|].
  split.
  { apply Forall_lookup. intros j u Hj. destruct (decide (i = j)) as [->|Hij].
    - rewrite list_lookup_insert_eq in Hj by done. by injection Hj as <-.
    - rewrite list_lookup_insert_ne in Hj by done. apply Hf; [by eapply Hm1|by eapply Hm2|by eapply Htk]. }
  split; [done|]. split; [done|]. split; [done|]. rewrite Hft, Hfm. split; [|done].
  assert (Hone : forall j u, i <> j -> m_tasks m !! j = Some u -> holds_writer t' && holds_writer u = false).
  { intros j u Hij Hj. destruct (holds_writer t'); [|done]. destruct (Hw eq_refl) as [Hwt|Hwt].
    - specialize (Hex i j t u Hij Hi Hj). by rewrite Hwt in Hex.
    - by rewrite (free_true _ _ _ Hwt j u Hij Hj). }
  by apply exclusive_insert.
Qed.

Lemma initial_ok start db lines t : initial t = true -> event_ok (Start t) ->
  task_ok start db lines t /\ holds_writer t = false /\ mid_rotation t = false.
Proof using. by destruct t. Qed.
Lemma start_inv start m t m' : machine_inv start m -> event_ok (Start t) ->
  machine_step (Start t) m = Some m' -> machine_inv start m'.
Proof using.
  intros (Hk & Ht & Han & Htk & Hq & Hd & Hr & Hex & Htc & Hmu) Ho Hs. cbn in Hs.
  destruct (initial t) eqn:Ei; [|done]. injection Hs as <-.
  destruct (initial_ok start (audit (sh_store (m_shared m))) (dead_letter (sh_store (m_shared m))) t Ei Ho)
    as (Hok & Hw & Hmid).
  split; [done|]. split; [done|]. cbn [m_tasks m_shared]. split.
  { rewrite existsb_app. intros [? _]%orb_false_iff. auto. }
  split; [apply Forall_app; by repeat constructor|]. do 3 (split; [done|]). split; [|done].
  intros i j a b Hij Ha Hb.
  destruct (lookup_app_Some (m_tasks m) [t] i a) as [[Ha1|[_ Ha1]] _]; [done|..];
    destruct (lookup_app_Some (m_tasks m) [t] j b) as [[Hb1|[_ Hb1]] _]; try done.
  - by eapply Hex.
  - apply list_lookup_singleton_Some in Hb1 as [_ <-]. by rewrite Hw, andb_false_r.
  - apply list_lookup_singleton_Some in Ha1 as [_ <-]. by rewrite Hw.
  - apply list_lookup_singleton_Some in Ha1 as [_ <-]. by rewrite Hw.
Qed.
Lemma crash_inv start m m' : machine_inv start m -> calm_event Crash m = true ->
  machine_step Crash m = Some m' -> machine_inv start m'.
Proof using.
  intros (Hk & Ht & Han & Htk & Hq & Hd & Hr & Hex & Htc & Hmu) Hc [= <-].
  apply negb_true_iff in Hc. do 2 (split; [done|]). split; [intros _; by apply Han|].
  split; [by repeat constructor|]. split; [done|]. split; [done|]. split; [done|]. split; [|done].
  intros [|i] [|j] a b Hij; cbn; done.
Qed.
Lemma guarded_run_now ok es m m' : guarded_run ok es m = Some m' -> calm m = true.
Proof using. destruct es; cbn; by destruct (calm m). Qed.
Lemma event_inv start e m m' : machine_inv start m -> event_ok e -> calm m = true ->
  calm_event e m = true -> machine_step e m = Some m' -> calm m' = true ->
  exists start', machine_inv start' m'.
Proof.
  intros Hm He Hc Hce Hs Hc'.
  destruct e; [exists start; by eapply start_inv|by eapply run_inv|exists start; by eapply crash_inv].
Qed.
(** What every event of a guarded run keeps, the run keeps. *)
Lemma guarded_run_ind ok (P : Machine -> Prop) es m m' :
  (forall e m, ok e m = true -> calm_event e m = true) ->
  (forall start e m m', machine_inv start m -> calm m = true -> ok e m = true ->
     machine_step e m = Some m' -> P m -> P m') ->
  Forall event_ok es -> (exists start, machine_inv start m) -> P m ->
  guarded_run ok es m = Some m' -> (exists start, machine_inv start m') /\ P m'.
Proof.
  intros Hok HP Hes. revert m. induction Hes as [|e es He _ IH]; intros m Hm Hp; cbn.
  { destruct (calm m); [|done]. by intros [= <-]. }
  destruct (calm m && ok e m) eqn:Ec; [|done]. apply andb_true_iff in Ec as [Hc Hce].
  destruct (machine_step e m) as [m1|] eqn:Es; [|done]. cbn [mbind option_bind]. intros Hr.
  pose proof (guarded_run_now _ _ _ _ Hr) as Hc1. destruct Hm as [start Hm].
  apply (IH m1); [eapply event_inv; by eauto|by eapply HP|done].
Qed.
Lemma calm_run_inv es m m' : (exists start, machine_inv start m) -> Forall event_ok es ->
  calm_run es m = Some m' -> exists start, machine_inv start m'.
Proof.
  intros Hm Hes Hr.
  by destruct (guarded_run_ind calm_event (fun _ => True) es m m') as [? _].
Qed.
Lemma booted_inv s : store_inv master s -> exists start, machine_inv start (booted s).
Proof.
  intros (Hk & Hh & Htc & Hmu & Hq & Hd). destruct (honest_inv master _ Hh) as (start & Ht & Han).
  exists start. repeat (split; [done|]). split; [by repeat constructor|]. split; [done|].
  split; [done|]. split; [done|]. split; [|done]. intros [|i] [|j] a b Hij; cbn; done.
Qed.

Lemma machine_chains start m : machine_inv start m -> existsb mid_rotation (m_tasks m) = false ->
  chains_inv master (sh_store (m_shared m)).
Proof.
  intros (Hk & Ht & Han & _ & _ & Hd & _ & _ & Htc & Hmu) Hmid.
  split; [done|]. split; [|done]. exists start. auto.
Qed.
End WithParams.


#[local] Existing Instances toy_crypto toy_codec toy_hmac_laws toy_codec_v toy_store_codec toy_store_laws.
(** Two appends, a verification during which the drain thread inserts, a rotation that cannot read
    the first remaining row and during which another append waits, and a crash. *)
Definition plain : Outside := mkOutside None "now" "2025-06-01" 0 1 Written true None.
Definition aged (second : Z) : Outside := mkOutside None "now" "2026-06-01" 0 second Written true (Some [1]%Z).
Definition failing (f : Failure) (o : Outside) : Outside :=
  mkOutside (Some f) (o_now o) (o_cutoff o) (o_bytes o) (o_second o) (o_archive o) (o_written o) (o_rowids o).
Definition sample_run : list Event :=
  [Start (AppendHigh (sample_event "a" "al") 1); Start (AppendLow (sample_event "b" "bob") 1);
   Run 1 plain; Run 2 plain; Run 0 plain; Run 0 plain; Start (VerCp None); Run 3 plain; Run 3 plain;
   Run 0 plain; Run 3 plain; Run 3 plain; Run 1 (aged 1); Run 1 (aged 1); Run 1 (aged 1); Run 1 (aged 1);
   Start (AppendHigh (sample_event "c" "cat") 1); Run 1 (failing Swallowed (aged 1)); Run 1 (aged 1);
   Run 4 plain;
   Run 1 (aged 1); Crash; Start (VerCp (Some "default"));  Run 1 plain; Run 1 plain; Run 1 plain;
   Run 1 plain].
Lemma sample_run_ok : Forall event_ok sample_run.
Proof. by repeat constructor. Qed.
End ThreadsSpec.
