(* ===== verification/ThreadsKeep.v ===== *)
(** * No event is lost between the threads

    Where an audit event can be while the threads of the store move it: in the table, in an
    archive file, in the queue, in the dead-letter file, in the hands of a thread; and that
    every interleaving within the discipline keeps every event somewhere. *)
From S2P Require Import Prelude Core Pattern Rules Tokens Chain ChainSpec Actions Ledger LedgerSpec Threads ThreadsSpec.

Module ThreadsKeep.
Import Tokens Chain ChainSpec Actions ActionsSpec Ledger LedgerSpec Threads ThreadsSpec.

(** An event without its links. *)
Definition strip (ev : AuditEvent) : AuditEvent := link_event ev "" "".
Definition row_content (r : AuditRow) : AuditEvent := strip (r_event r).
(** The table and the archive files. *)
Definition stored (x : Shared) : list AuditEvent :=
  row_content <$> (audit_rows (audit (sh_store x)) ++ (map_to_list (sh_files x) ≫= snd)).

Section WithParams.
Context `{HmacLaws, RowCodec, VerdictCodec, StoreCodecLaws}.
Context (master : string).
#[local] Set Default Proof Using "All".

Definition line_event (line : string) : option AuditEvent := d ← dead_of_line line; d_event d.
Definition dead_events (x : Shared) : list AuditEvent := omap line_event (dead_letter (sh_store x)).
(** The events a thread has taken and not yet put down. *)
Fixpoint in_hand (t : Task) : list AuditEvent :=
  match t with
  | SpoolRead ev _ _ next => ev :: in_hand next
  | SpoolWrite line next => option_list (line_event line) ++ in_hand next
  | DrainFill evs | Drain _ evs => evs
  | _ => []
  end.
Definition around (x : Shared) (hands : list AuditEvent) : list AuditEvent :=
  stored x ++ (strip <$> low_queue (sh_store x)) ++ (strip <$> dead_events x) ++ (strip <$> hands).
Definition kept (m : Machine) : list AuditEvent := around (m_shared m) (m_tasks m ≫= in_hand).

(** No crash, no failure the discipline excludes, the files can be written, and archives have
    names of their own. *)
Definition lossless (e : Event) (m : Machine) : bool :=
  match e with
  | Start _ => true
  | Run _ o =>
      calm_event e m && o_written o && negb (match o_archive o with WriteFailed => true | _ => false end)
      && bool_decide (sh_files (m_shared m) !! o_second o = None)
  | Crash => false
  end.

(** What a rotation and a reimport have secured before they delete. *)
Definition task_kept (x : Shared) (t : Task) : Prop :=
  match t with
  | RotDelete rows => exists second, sh_files x !! second = Some rows
  | ReimpWait evs => dead_events x = evs
  | ReimpImport _ evs =>
      exists imported, dead_events x = imported ++ evs /\ strip <$> imported ⊆ stored x
  | ReimpClear => strip <$> dead_events x ⊆ stored x
  | _ => True
  end.
Definition keeps (x : Shared) (t : Task) (x' : Shared) (t' : Task) : Prop :=
  stored x ⊆ stored x' /\ around x (in_hand t) ⊆ around x' (in_hand t') /\
  sh_files x ⊆ sh_files x' /\ (spools t = false -> dead_events x' = dead_events x) /\
  task_kept x' t'.

Lemma keeps_frame x t x' t' u : keeps x t x' t' -> spools t && spools u = false ->
  task_kept x u -> task_kept x' u.
Proof.
  intros (Hs & _ & Hf & Hd & _) Hu. destruct u; cbn [task_kept spools] in *; try done;
    rewrite ?andb_true_r in Hu; try (rewrite (Hd Hu)).
  - intros [second Hl]. exists second. by eapply lookup_weaken.
  - done.
  - intros (imported & ? & ?). exists imported. split; [done|set_solver].
  - set_solver.
Qed.

(** Same table, files and dead letters: only the queue and the hands matter. *)
Lemma keeps_same x t x' t' : audit (sh_store x') = audit (sh_store x) -> sh_files x' = sh_files x ->
  dead_letter (sh_store x') = dead_letter (sh_store x) ->
  low_queue (sh_store x) ++ in_hand t ⊆ low_queue (sh_store x') ++ in_hand t' ->
  task_kept x' t' -> keeps x t x' t'.
Proof.
  intros Ea Ef Ed Hq Hk. unfold keeps, around, stored, dead_events. rewrite Ea, Ef, Ed.
  split; [done|]. split; [set_solver|done].
Qed.
(** An insertion: the inserted event may leave the hands. *)
Lemma keeps_insert x t ev kv db' x' t' :
  insert_audit_event ev master kv (audit (sh_store x)) = Ok db' ->
  sh_store x' = with_actions (actions (sh_store x')) (with_audit db' (sh_store x)) ->
  sh_files x' = sh_files x -> in_hand t ⊆ ev :: in_hand t' ->
  (strip ev ∈ stored x' -> task_kept x' t') -> keeps x t x' t'.
Proof.
  intros (r & Hr & _ & He)%insert_rows Es Ef Hh Hk.
  assert (Hst : stored x ⊆ stored x' /\ strip ev ∈ stored x').
  { unfold stored. rewrite Es, Ef. cbn. rewrite Hr. split; [set_solver|].
    apply list_elem_of_fmap. exists r. split; [done|set_solver]. }
  destruct Hst as [Hst Hev]. split; [done|]. split;
    [|split; [by rewrite Ef|]; split; [intros _; unfold dead_events; by rewrite Es|by auto]].
  unfold around, dead_events. rewrite Es. cbn. intros e. rewrite !elem_of_app.
  intros [?|[?|[?|He']]]; auto. apply list_elem_of_fmap in He' as (y & -> & Hy).
  apply Hh, elem_of_cons in Hy as [->|Hy]; [by auto|]. right. right. right.
  apply list_elem_of_fmap. eauto.
Qed.


Lemma filed x second rows r : sh_files x !! second = Some rows -> r ∈ rows -> row_content r ∈ stored x.
Proof.
  intros Hl Hr. unfold stored. apply list_elem_of_fmap. exists r. split; [done|].
  apply elem_of_app. right. apply list_elem_of_bind. exists (second, rows). split; [done|].
  by apply elem_of_map_to_list.
Qed.
Lemma check_dead_events expected lines evs : check_dead master expected lines = Ok evs ->
  omap line_event lines = evs.
Proof.
  revert expected evs. induction lines as [|line lines IH]; intros expected evs; cbn [check_dead].
  { by intros [= <-]. }
  cbn [omap list_omap]. unfold line_event at 1. destruct (dead_of_line line) as [d|]; [|done].
  destruct (negb _); [done|]. cbn [mbind option_bind]. destruct (d_event d) as [ev|]; [|done].
  destruct (negb _); [done|]. destruct (check_dead _ _ lines) eqn:E; [|done]. cbn.
  intros [= <-]. f_equal. by eapply IH.
Qed.

Section Steps.
Context (wfree rfree : bool) (start : string) (o : Outside) (x x' : Shared).
Context (Hkey : key (toks (sh_store x)) = master).
Context (Htab : table_ok master start (audit_rows (audit (sh_store x)))).
Context (Hw : o_written o = true) (Ha : o_archive o <> WriteFailed).
Context (Hfresh : sh_files x !! o_second o = None).

Definition step_keeps (t : Task) : Prop := forall t',
  task_ok master start (audit (sh_store x)) (dead_letter (sh_store x)) t -> task_kept x t ->
  step_sound o wfree rfree t x = Some (x', t') -> keeps x t x' t'.

Lemma keeps_append ev kv : step_keeps (AppendHigh ev kv) /\ step_keeps (AppendLow ev kv).
Proof.
  split; intros t' _ _; cbn_step; rewrite ?Hkey.
  - destruct wfree; [|done].
    destruct (insert_audit_event _ _ _ _) eqn:E; intros [= <- <-]; [eapply keeps_insert; try done; cbn; set_solver|by apply keeps_same].
  - destruct (negb _); [intros [= <- <-]; apply keeps_same; try done; cbn; set_solver|].
    destruct (Nat.leb _ _); intros [= <- <-]; apply keeps_same; try done; cbn; set_solver.
Qed.
Lemma keeps_spool ev why kv next line :
  step_keeps (SpoolRead ev why kv next) /\ step_keeps (SpoolWrite line next).
Proof.
  split; intros t' Hok _; cbn_step; intros [= <- <-].
  - apply keeps_same; try done. cbn [in_hand]. unfold line_event, dead_line.
    rewrite dead_line_roundtrip. done.
  - rewrite Hw. split; [done|]. split.
    + unfold around, dead_events. cbn. rewrite omap_app. cbn.
      destruct (line_event line); cbn; set_solver.
    + split; [done|]. split; [done|]. destruct Hok as [_ Hn]. by destruct next.
Qed.
Lemma keeps_drain kv evs : step_keeps DrainWait /\ step_keeps (DrainFill evs) /\ step_keeps (Drain kv evs).
Proof.
  split; [|split]; intros t' _ _; cbn_step.
  - destruct (low_queue _) as [|ev q] eqn:Eq; [done|]. intros [= <- <-].
    apply keeps_same; try done. rewrite Eq. cbn. set_solver.
  - destruct (low_queue _) as [|ev q] eqn:Eq; intros [= <- <-]; [by apply keeps_same|].
    apply keeps_same; try done; [|by destruct (bool_decide _)]. rewrite Eq.
    destruct (bool_decide _); cbn; set_solver.
  - destruct evs as [|ev evs]; [intros [= <- <-]; by apply keeps_same|]. rewrite Hkey.
    destruct (insert_audit_event _ _ _ _) eqn:E; intros [= <- <-]; [eapply keeps_insert; try done; cbn; set_solver|by apply keeps_same].
Qed.
Lemma keeps_file rows : step_keeps (RotFile rows).
Proof.
  intros t' _ _. cbn_step. destruct (o_archive o) eqn:Eo; [intros [= <- <-]; by apply keeps_same|done|].
  intros [= <- <-].
  assert (Hf : sh_files x ⊆ <[o_second o := rows]> (sh_files x)) by (by apply insert_subseteq).
  assert (Hs : stored x ⊆ stored (mkShared (sh_store x) (<[o_second o := rows]> (sh_files x)) (sh_reports x))).
  { unfold stored. cbn. rewrite map_to_list_insert by done. cbn. set_solver. }
  split; [done|]. split; [unfold around, dead_events; cbn; set_solver|].
  split; [done|]. split; [done|]. exists (o_second o). cbn. by rewrite lookup_insert_eq.
Qed.
Lemma keeps_delete rows : step_keeps (RotDelete rows).
Proof.
  intros t' (Hne & left & Hrows) [second Hl]. cbn_step. destruct wfree; [|done]. intros [= <- <-].
  assert (Hs : stored x ⊆ stored (put_audit (delete_range (range_of rows).1 (range_of rows).2
                                    (audit (sh_store x))) x)).
  { destruct rows as [|first rest]; [done|]. pose proof Htab as (_ & _ & Hasc & _). rewrite Hrows in Hasc.
    intros e (r & -> & [Hr|Hr]%elem_of_app)%list_elem_of_fmap;
      [|unfold stored; apply list_elem_of_fmap; exists r; split; [done|set_solver]].
    rewrite Hrows in Hr. apply elem_of_app in Hr as [Hr|Hr].
    - by apply (filed _ second (first :: rest)).
    - unfold stored. apply list_elem_of_fmap. exists r. split; [done|]. apply elem_of_app. left.
      cbn. by rewrite Hrows, rowid_range. }
  split; [done|]. split; [unfold around, dead_events; cbn; set_solver|]. done.
Qed.
Lemma keeps_vacuum : step_keeps RotVacuum.
Proof.
  intros t' _ _. cbn_step. destruct wfree; [|done].
  destruct (o_rowids o) as [ids|]; [|intros [= <- <-]; by apply keeps_same].
  destruct (vacuum ids _) as [db'|] eqn:E; [|done]. cbn. intros [= <- <-].
  apply vacuum_renumbered in E as (HF & _).
  assert (Hs : stored x = stored (put_audit db' x)).
  { unfold stored. cbn. rewrite !fmap_app. f_equal. unfold row_content. clear -HF.
    induction HF as [|a b ? ? (He & _) _ IH]; [done|]. cbn. by rewrite He, IH. }
  unfold keeps, around, dead_events. rewrite <- Hs. cbn. done.
Qed.
Lemma keeps_mark rows cp : step_keeps (RotFirst rows) /\ step_keeps (RotMark cp).
Proof.
  split; intros t' _ _; cbn_step.
  - destruct (tail_row rows (o_now o)). intros [= <- <-]. by apply keeps_same.
  - intros [= <- <-]. by unfold keeps, around, dead_events.
Qed.
Lemma keeps_select limit : step_keeps RotCount /\ step_keeps (RotSelect limit).
Proof.
  split; intros t' _ _; cbn_step.
  - destruct rfree; [|done]. intros [= <- <-]. apply keeps_same; try done; by destruct (_ && _).
  - intros [= <- <-]. apply keeps_same; try done; by destruct (take limit _).
Qed.
Lemma keeps_verify tenant c cp rid from rows rep :
  step_keeps (VerCp tenant) /\ step_keeps (VerRow tenant c) /\ step_keeps (VerHash tenant c rid) /\
  step_keeps (VerRows tenant cp from) /\ step_keeps (VerCount tenant cp from rows) /\
  step_keeps (VerMark cp rep).
Proof.
  refine (conj _ (conj _ (conj _ (conj _ (conj _ _))))); intros t' _ _; cbn_step.
  - destruct rfree; [|done]. intros [= <- <-]. apply keeps_same; try done; repeat case_match; done.
  - intros [= <- <-]. apply keeps_same; try done; repeat case_match; done.
  - intros [= <- <-]. by apply keeps_same.
  - intros [= <- <-]. by apply keeps_same.
  - intros [= <- <-]. by apply keeps_same.
  - destruct cp as [c'|]; [|intros [= <- <-]; by apply keeps_same].
    destruct wfree; [|done]. intros [= <- <-]. by unfold keeps, around, dead_events.
Qed.
Lemma keeps_reimport kv evs : step_keeps ReimpRead /\ step_keeps (ReimpWait evs) /\
  step_keeps (ReimpImport kv evs) /\ step_keeps ReimpClear.
Proof.
  split; [|split; [|split]]; intros t' _ Hk; cbn_step.
  - destruct (dead_letter (sh_store x)) as [|line lines] eqn:Ed; [intros [= <- <-]; by apply keeps_same|].
    rewrite Hkey. destruct (check_dead _ _ _) as [evs'|] eqn:E; intros [= <- <-]; [|by apply keeps_same].
    apply keeps_same; try done. cbn. unfold dead_events. rewrite Ed. by eapply check_dead_events.
  - destruct wfree; [|done]. intros [= <- <-]. apply keeps_same; try done. exists []. split; [done|]. apply list_subseteq_nil.
  - destruct Hk as (imported & Hd & Hi). destruct evs as [|ev evs].
    { intros [= <- <-]. apply keeps_same; try done. cbn. by rewrite Hd, app_nil_r. }
    rewrite Hkey. destruct (insert_audit_event _ _ _ _) eqn:E; intros [= <- <-]; [|by apply keeps_same].
    eapply keeps_insert; try done; [apply list_subseteq_nil|]. intros Hev. exists (imported ++ [ev]).
    assert (Hmono : stored x ⊆ stored (put_audit a x)).
    { apply insert_rows in E as (r & Hr & _ & _). unfold stored. cbn. rewrite Hr. set_solver. }
    split; [unfold dead_events in *; cbn; by rewrite Hd, <- app_assoc|].
    rewrite fmap_app. intros e [?|?]%elem_of_app; set_solver.
  - rewrite Hw. intros [= <- <-]. cbn in Hk. split; [done|].
    split; [unfold around, dead_events in *; cbn; set_solver|]. done.
Qed.
Lemma keeps_others uuid time now id approved by_ tenant kv : step_keeps Done /\
  step_keeps (Confirm uuid time now id approved by_ tenant kv) /\ step_keeps (RotateKey now).
Proof.
  split; [done|]. split; intros t' _ _; cbn_step; [|intros [= <- <-]; by apply keeps_same].
  destruct wfree; [|done]. rewrite Hkey.
  destruct (confirm_atomic _ _ _ _ _ _ _ _ _ _) as [[a db'] [v|e]] eqn:E; intros [= <- <-].
  - apply confirm_ok_inv in E as (? & ? & ? & _ & _ & _ & _ & _ & _ & _ & _ & Hins & [= -> ->]).
    eapply keeps_insert; try done. cbn. set_solver.
  - apply confirm_err_same in E. injection E as -> ->. by apply keeps_same.
Qed.
Lemma keeps_sound t : step_keeps t.
Proof.
  destruct t; first
    [ by apply (keeps_append ev kv)
    | by apply (keeps_spool ev why kv t "") | by apply (keeps_spool (sample_event "" "") "" 0 t line)
    | by apply (keeps_drain 0 []) | by apply (keeps_drain 0 buf) | by apply (keeps_drain kv batch)
    | by apply (keeps_select 0) | by apply (keeps_select limit) | by apply keeps_file
    | by apply keeps_delete | by apply (keeps_mark rows (mkCheckpoint "" "" None None))
    | by apply (keeps_mark [] cp) | by apply keeps_vacuum
    | by apply (keeps_reimport 0 []) | by apply (keeps_reimport 0 evs) | by apply (keeps_reimport kv evs)
    | by apply (keeps_others uuid time now id approved by_ tenant kv)
    | by apply (keeps_others "" "" now "" false "" "" 0)
    | by apply (keeps_others "" "" 0 "" false "" "" 0) | idtac ].
  all: pose (rep0 := mkVerification 0 0 0 0 false None 0); pose (c0 := mkCheckpoint "" "" None None).
  - by apply (keeps_verify tenant c0 None 0 None [] rep0).
  - by apply (keeps_verify tenant c None 0 None [] rep0).
  - by apply (keeps_verify tenant c None rowid None [] rep0).
  - by apply (keeps_verify tenant c0 cp 0 start0 [] rep0).
  - by apply (keeps_verify tenant c0 cp 0 start0 rows rep0).
  - by apply (keeps_verify None c0 cp 0 None [] report).
Qed.
Lemma keeps_all t t' :
  task_ok master start (audit (sh_store x)) (dead_letter (sh_store x)) t -> task_kept x t ->
  calm_fault (o_fault o) t = true -> step_task o wfree rfree t x = Some (x', t') -> keeps x t x' t'.
Proof.
  intros Hok Hk Hf. unfold step_task. destruct (o_fault o) as [[e|]|]; [| |by apply keeps_sound].
  - destruct t; cbn [step_raised negb]; try done; try (by apply keeps_sound).
    all: repeat case_match; try done; try (by apply keeps_sound); intros [= <- <-].
    all: by apply keeps_same.
  - destruct t; cbn [step_swallowed]; try done; try (by apply keeps_sound).
    1, 3: case_match; [by apply keeps_sound|done].
    destruct (tail_row rows (o_now o)). intros [= <- <-]. by apply keeps_same.
Qed.
End Steps.

(** ** All threads *)

Lemma around_mono x h h' : h ⊆ h' -> around x h ⊆ around x h'.
Proof. unfold around. set_solver. Qed.
Definition keep_inv (m : Machine) : Prop := Forall (task_kept (m_shared m)) (m_tasks m).

Lemma run_keeps start m i o m' : machine_inv master start m -> calm m = true ->
  lossless (Run i o) m = true -> machine_step (Run i o) m = Some m' ->
  keep_inv m -> keep_inv m' /\ kept m ⊆ kept m'.
Proof.
  intros (Hk & Ht & _ & Htk & _) Hc Hl Hs Hki. cbn in Hs, Hl.
  apply andb_true_iff in Hl as [[[Hfa Hw]%andb_true_iff Ha]%andb_true_iff Hfresh%bool_decide_eq_true].
  cbn in Hfa. destruct (m_tasks m !! i) as [t|] eqn:Hi; [|done]. cbn [mbind option_bind] in Hs.
  destruct (step_task _ _ _ _ _) as [[x' t']|] eqn:Est; [|done]. cbn in Hs. injection Hs as <-.
  unfold keep_inv in *. rewrite Forall_lookup in Htk, Hki.
  assert (Hkeep : keeps (m_shared m) t x' t').
  { eapply (keeps_all _ _ start o); [done|done|done| |done|by eapply Htk|by eapply Hki|exact Hfa|exact Est].
    by destruct (o_archive o). }
  unfold calm in Hc. apply andb_true_iff in Hc as [[_ Hsp]%andb_true_iff _].
  apply at_most_one_exclusive in Hsp. cbn [m_tasks m_shared].
  assert (Hlt : i < length (m_tasks m)) by (by eapply lookup_lt_Some). split.
  - apply Forall_lookup. intros j u [(-> & -> & _)|[Hij Hj]]%list_lookup_insert_Some.
    + by destruct Hkeep as (_ & _ & _ & _ & ?).
    + eapply keeps_frame; [exact Hkeep|by eapply Hsp|by eapply Hki].
  - destruct Hkeep as (_ & Haround & _). unfold kept. cbn [m_shared m_tasks].
    assert (Hin : around x' (in_hand t') ⊆ around x' (<[i := t']> (m_tasks m) ≫= in_hand)).
    { apply around_mono. intros e He. apply list_elem_of_bind. exists t'. split; [done|].
      apply list_elem_of_lookup. exists i. by apply list_lookup_insert_eq. }
    intros e He. unfold around in He. rewrite !elem_of_app in He.
    assert (Hcase : e ∈ around (m_shared m) (in_hand t) \/
      exists j u, i <> j /\ m_tasks m !! j = Some u /\ e ∈ strip <$> in_hand u).
    { unfold around. rewrite !elem_of_app. destruct He as [?|[?|[?|He]]]; auto.
      apply list_elem_of_fmap in He as (y & -> & (u & Hy & [j Hj]%list_elem_of_lookup)%list_elem_of_bind).
      destruct (decide (i = j)) as [<-|Hij].
      - left. rewrite Hi in Hj. injection Hj as ->. right. right. right. apply list_elem_of_fmap. eauto.
      - right. exists j, u. split; [done|]. split; [done|]. apply list_elem_of_fmap. eauto. }
    destruct Hcase as [Hc|(j & u & Hij & Hj & Hu)]; [by apply Hin, Haround|].
    apply list_elem_of_fmap in Hu as (y & -> & Hy). unfold around. rewrite !elem_of_app.
    right. right. right. apply list_elem_of_fmap. exists y. split; [done|].
    apply list_elem_of_bind. exists u. split; [done|]. apply list_elem_of_lookup. exists j.
    by rewrite list_lookup_insert_ne.
Qed.
Lemma start_keeps m t m' : machine_step (Start t) m = Some m' -> keep_inv m ->
  keep_inv m' /\ kept m ⊆ kept m'.
Proof.
  cbn. destruct (initial t) eqn:Ei; [|done]. intros [= <-] Hk. split.
  - apply Forall_app. split; [done|]. constructor; [by destruct t|constructor].
  - apply around_mono. cbn. rewrite bind_app. set_solver.
Qed.
Lemma event_keeps start e m m' : machine_inv master start m -> calm m = true ->
  lossless e m = true -> machine_step e m = Some m' -> keep_inv m ->
  keep_inv m' /\ kept m ⊆ kept m'.
Proof. destruct e; intros ? ? ? ? ?; [by eapply start_keeps|by eapply run_keeps|done]. Qed.
Lemma lossless_calm e m : lossless e m = true -> calm_event e m = true.
Proof. destruct e; try done. cbn. rewrite !andb_true_iff. by intros [[[? _] _] _]. Qed.
Lemma lossless_run es m m' : Forall event_ok es -> (exists start, machine_inv master start m) ->
  keep_inv m -> guarded_run lossless es m = Some m' ->
  (exists start, machine_inv master start m') /\ keep_inv m' /\ kept m ⊆ kept m'.
Proof.
  intros Hes Hm Hk Hr.
  apply (guarded_run_ind master lossless (fun m' => keep_inv m' /\ kept m ⊆ kept m') es m m'); try done.
  - apply lossless_calm.
  - intros start e m1 m2 Hm1 Hc Hl Hs [Hk1 Hsub].
    destruct (event_keeps start e m1 m2) as [? ?]; [done..|]. split; [done|]. by etrans.
Qed.

(** An append that is not refused puts its event somewhere. *)
Lemma append_accepted start m i o m' ev kv : machine_inv master start m ->
  machine_step (Run i o) m = Some m' -> 
  (m_tasks m !! i = Some (AppendHigh ev kv) /\ o_fault o = None /\
   existsb (fun r => String.eqb (audit_id (r_event r)) (audit_id ev))
     (audit_rows (audit (sh_store (m_shared m)))) = false) \/
  m_tasks m !! i = Some (AppendLow ev kv) -> strip ev ∈ kept m'.
Proof.
  intros (Hk & _) Hs Hcase. cbn in Hs.
  assert (Hhand : forall x' t', ev ∈ low_queue (sh_store x') ++ in_hand t' \/ strip ev ∈ stored x' ->
    m_tasks m !! i <> None -> m' = mkMachine x' (<[i := t']> (m_tasks m)) -> strip ev ∈ kept m').
  { intros x' t' Hev Hi ->. unfold kept, around. cbn [m_shared m_tasks]. rewrite !elem_of_app, !list_elem_of_fmap.
    rewrite elem_of_app in Hev. destruct Hev as [[Hev|Hev]|Hev]; [eauto| |eauto].
    right. right. right. exists ev. split; [done|]. apply list_elem_of_bind. exists t'. split; [done|].
    apply list_elem_of_lookup. exists i. apply list_lookup_insert_eq.
    destruct (m_tasks m !! i) eqn:E; [by eapply lookup_lt_Some|done]. }
  unfold step_task in Hs. destruct Hcase as [(Hi & Hf & Hnew)|Hi]; rewrite Hi in *; cbn [mbind option_bind] in Hs.
  - rewrite Hf in Hs. cbn_step in Hs. destruct (free _ _ _); [|done]. cbn [negb] in Hs.
    destruct (insert_audit_event _ _ _ _) as [db'|e] eqn:E;
      [|unfold insert_audit_event, insert_audit_event_tx in E; by rewrite Hnew in E].
    cbn in Hs. injection Hs as <-. eapply Hhand; [|done|reflexivity]. right.
    apply insert_rows in E as (r & Hr & _ & He). unfold stored. cbn. rewrite Hr.
    apply list_elem_of_fmap. exists r. split; [done|set_solver].
  - destruct (o_fault o) as [[]|]; cbn [step_raised step_swallowed] in Hs; cbn_step in Hs;
      (destruct (negb _); [|destruct (Nat.leb _ _)]); cbn in Hs; injection Hs as <-;
      (eapply Hhand; [|done|reflexivity]); left; cbn; set_solver.
Qed.

End WithParams.


#[local] Existing Instances toy_crypto toy_codec toy_hmac_laws toy_codec_v toy_store_codec toy_store_laws.
(** The event of a high-risk append survives the rotation that follows. *)
Definition start_run : list Event := [Start (AppendHigh (sample_event "a" "al") 1)].
Definition rest_run : list Event :=
  [Run 1 (aged 1); Run 1 (aged 1); Run 1 (aged 1); Run 1 (aged 1); Run 1 (aged 2); Run 1 (aged 2); Run 1 (aged 2)].
End ThreadsKeep.
