(* ===== verification/ThreadsAlone.v ===== *)
(** * Threads alone, and threads that meet

    Each operation of the store, run without interruption, does what its sequential definition
    says; and the interleavings outside the discipline of [ThreadsSpec] that forge a false
    alarm, break a chain or lose rows. *)
From S2P Require Import Prelude Core Pattern Rules Tokens Chain ChainSpec Actions Ledger LedgerSpec Threads ThreadsSpec ThreadsKeep.

Module ThreadsAlone.
Import Tokens Chain ChainSpec Actions ActionsSpec Ledger LedgerSpec Threads ThreadsSpec ThreadsKeep.

Section WithParams.
Context `{HmacLaws, RowCodec, VerdictCodec, StoreCodecLaws}.
#[local] Set Default Proof Using "All".

(** Statements that do not fail. *)
Class Sound (o : Outside) : Prop := sound : o_fault o = None.

(** [n] steps of a thread that has the store to itself. *)
Fixpoint alone (n : nat) (o : Outside) (t : Task) (x : Shared) : option (Shared * Task) :=
  match n with
  | 0 => Some (x, t)
  | S n' => '(x1, t1) ← step_task o true true t x; alone n' o t1 x1
  end.
(** The thread [t] comes to rest as [t'], having done to the store what [s'] says. *)
Definition ends (o : Outside) (t : Task) (x : Shared) (t' : Task) (x' : Shared) : Prop :=
  exists n, alone n o t x = Some (x', t').
Lemma ends_refl o t x : ends o t x t x.
Proof. by exists 0. Qed.
Lemma ends_step o `{HS : !Sound o} t x t1 x1 t' x' : step_sound o true true t x = Some (x1, t1) ->
  ends o t1 x1 t' x' -> ends o t x t' x'.
Proof. intros Hs [n Hn]. exists (S n). cbn [alone]. unfold step_task. by rewrite sound, Hs. Qed.

(** *** Retention *)
Lemma with_audit_same s : with_audit (audit s) s = s.
Proof. by destruct s. Qed.
Lemma put_store_same x : put_store (sh_store x) x = x.
Proof. by destruct x. Qed.
Lemma rotation_alone o `{!Sound o} x : o_rowids o = None ->
  let '(db', rows) := rotate_old_rows (o_cutoff o) (o_now o) (o_bytes o) (o_archive o)
                        (audit (sh_store x)) in
  exists files, ends o RotCount x Done (mkShared (with_audit db' (sh_store x)) files (sh_reports x)) /\
    (rows <> [] -> files !! o_second o = Some rows).
Proof.
  intros Hn. unfold rotate_old_rows. cbv zeta.
  set (aged := length _). set (small := Z.ltb _ _).
  destruct (Nat.eqb aged 0 && small) eqn:Ec.
  { exists (sh_files x). split; [|done]. rewrite with_audit_same. eapply (ends_step o).
    - cbn_step. fold aged small. rewrite Ec. reflexivity.
    - destruct x. apply ends_refl. }
  set (limit := if Nat.ltb 0 aged then aged else _).
  assert (Hsel : forall t' x', ends o (RotSelect limit) x t' x' -> ends o RotCount x t' x').
  { intros t' x' He. eapply (ends_step o); [|exact He]. cbn_step. fold aged small limit.
    by rewrite Ec. }
  destruct (take limit _) as [|first rest] eqn:Et.
  { exists (sh_files x). split; [|done]. rewrite with_audit_same. apply Hsel. eapply (ends_step o).
    - cbn_step. rewrite Et. reflexivity.
    - destruct x. apply ends_refl. }
  assert (Hfile : forall t' x', ends o (RotFile (first :: rest)) x t' x' -> ends o RotCount x t' x').
  { intros t' x' He. apply Hsel. eapply (ends_step o); [|exact He]. cbn_step. by rewrite Et. }
  assert (Hrest : forall files, exists x1, ends o (RotDelete (first :: rest)) x1 Done
    (mkShared (with_audit (write_checkpoint
       (rotated_checkpoint (audit_rows (delete_range (r_rowid first) (r_rowid (List.last rest first))
           (audit (sh_store x))))
          (audit_id (row_to_event (o_now o) (List.last rest first)))
          (event_hash (row_to_event (o_now o) (List.last rest first))))
       (delete_range (r_rowid first) (r_rowid (List.last rest first)) (audit (sh_store x)))) (sh_store x))
       files (sh_reports x)) /\ x1 = mkShared (sh_store x) files (sh_reports x)).
  { intros files. eexists. split; [|reflexivity]. do 4 (eapply (ends_step o); [cbn; rewrite ?Hn; reflexivity|]).
    apply ends_refl. }
  destruct (o_archive o) eqn:Eo.
  - exists (sh_files x). split; [|done]. rewrite with_audit_same. apply Hfile. eapply (ends_step o).
    + cbn_step. rewrite Eo. reflexivity.
    + destruct x. apply ends_refl.
  - destruct (Hrest (<[o_second o := []]> (sh_files x))) as (x1 & He & ->).
    eexists. split; [|done]. apply Hfile. eapply (ends_step o); [|exact He]. cbn_step. by rewrite Eo.
  - destruct (Hrest (<[o_second o := first :: rest]> (sh_files x))) as (x1 & He & ->).
    eexists. split; [|intros _; apply lookup_insert_eq]. apply Hfile. eapply (ends_step o); [|exact He].
    cbn_step. by rewrite Eo.
Qed.

(** *** Verification *)
Lemma anchor_alone o `{!Sound o} tenant x : ascending (audit_rows (audit (sh_store x))) -> forall t' x',
  ends o (VerRows tenant (read_checkpoint (audit (sh_store x))) (scan_anchor (audit (sh_store x)))) x t' x' ->
  ends o (VerCp tenant) x t' x'.
Proof.
  intros Ha t' x' He. eapply (ends_step o); [reflexivity|]. revert He. unfold scan_anchor.
  destruct (read_checkpoint _) as [c|] eqn:Ec; [|done]. cbn [mbind option_bind].
  destruct (str_empty _); [done|]. intros He. eapply (ends_step o); [reflexivity|]. revert He.
  destruct (rowid_of_audit _ _) as [r|] eqn:Er; cbn [mbind option_bind]; [|done]. intros He.
  eapply (ends_step o); [reflexivity|]. apply rowid_of_audit_in in Er. by rewrite find_rowid.
Qed.
Lemma verification_alone o `{!Sound o} tenant x : ascending (audit_rows (audit (sh_store x))) ->
  let '(db', rep) := verify_chain (toks (sh_store x)) tenant (o_now o) (audit (sh_store x)) in
  ends o (VerCp tenant) x Done
    (mkShared (with_audit db' (sh_store x)) (sh_files x) (rep :: sh_reports x)).
Proof.
  intros Ha. unfold verify_chain. cbv zeta. apply (anchor_alone o); [done|].
  set (db := audit (sh_store x)). fold (scanned db).
  eapply (ends_step o); [cbn_step; fold db; fold (scanned db); reflexivity|].
  eapply (ends_step o); [cbn_step; fold db; reflexivity|].
  fold (scan_rows (toks (sh_store x)) tenant (o_now o) (read_checkpoint db) (scan_anchor db) (scanned db)).
  set (v := scan_rows _ _ _ _ _ _). unfold scan_checkpoint, scan_report.
  assert (Htot : match scan_anchor db with Some _ => count_scope tenant (audit_rows db)
                 | None => count_scope tenant (scanned db) end = count_scope tenant (audit_rows db)).
  { unfold scanned. by destruct (scan_anchor db). }
  rewrite Htot. destruct (negb (v_tampered v) && _).
  - eapply (ends_step o); [reflexivity|]. apply ends_refl.
  - eapply (ends_step o); [reflexivity|]. subst db. rewrite with_audit_same. apply ends_refl.
Qed.

(** *** Appends and the drain thread *)
Lemma retention_alone o `{!Sound o} x : o_rowids o = None -> exists x', ends o RotCount x Done x' /\
  sh_store x' = enforce_retention (mkRetention (o_cutoff o) (o_now o) (o_bytes o) (o_archive o)) (sh_store x).
Proof.
  intros Hn. pose proof (rotation_alone o x Hn) as Hr. unfold enforce_retention. cbn.
  destruct (rotate_old_rows _ _ _ _ _) as [db' rows]. destruct Hr as (files & He & _). by eexists.
Qed.
Lemma spool_alone o `{!Sound o} ev why next x t' x' :
  ends o next (put_store (spool_dead_letter (o_written o) ev why (sh_store x)) x) t' x' ->
  ends o (SpoolRead ev why (current_version (toks (sh_store x))) next) x t' x'.
Proof.
  intros He. eapply (ends_step o); [reflexivity|]. eapply (ends_step o); [reflexivity|].
  unfold spool_dead_letter, dead_line in *. destruct (o_written o); [exact He|].
  by rewrite put_store_same in He.
Qed.
Lemma append_alone o `{!Sound o} u t tn v raw who x : o_rowids o = None ->
  let ev := evaluate_event u t tn v raw who in
  let kv := current_version (toks (sh_store x)) in
  let rt := mkRetention (o_cutoff o) (o_now o) (o_bytes o) (o_archive o) in
  exists x', ends o (if high_risk v then AppendHigh ev kv else AppendLow ev kv) x Done x' /\
    sh_store x' = (append_event u t tn v raw who (o_written o) rt (sh_store x)).1.
Proof.
  intros Hn. cbv zeta. unfold append_event.
  assert (Hret : forall t0 x1, (forall t' x', ends o RotCount x1 t' x' -> ends o t0 x t' x') ->
    exists x', ends o t0 x Done x' /\ sh_store x' =
      enforce_retention (mkRetention (o_cutoff o) (o_now o) (o_bytes o) (o_archive o)) (sh_store x1)).
  { intros t0 x1 Hstep. destruct (retention_alone o x1 Hn) as (x' & He & Hx'). eauto. }
  destruct (high_risk v).
  - destruct (insert_audit_event _ _ _ _) as [db'|e] eqn:E.
    + apply (Hret _ (put_audit db' x)). intros t' x' He.
      eapply (ends_step o); [cbn_step; rewrite E; reflexivity|exact He].
    + exists x. split; [|done]. eapply (ends_step o); [cbn_step; rewrite E; reflexivity|apply ends_refl].
  - destruct (negb (drain_alive _)) eqn:Ed; [|destruct (Nat.leb QUEUE_CAP _) eqn:Ef].
    + apply (Hret _ (put_store _ x)). intros t' x' He.
      eapply (ends_step o); [cbn_step; rewrite Ed; reflexivity|]. by apply (spool_alone o).
    + apply (Hret _ (put_store _ x)). intros t' x' He.
      eapply (ends_step o); [cbn_step; rewrite Ed, Ef; reflexivity|]. by apply (spool_alone o).
    + apply (Hret _ (put_store _ x)). intros t' x' He.
      eapply (ends_step o); [cbn_step; rewrite Ed, Ef; reflexivity|]. exact He.
Qed.
(** What the drain thread does with one event, and with the events it took. *)
Definition deliver (ok : bool) (s : Store) (ev : AuditEvent) : Store :=
  match insert_audit_event ev (key (toks s)) (current_version (toks s)) (audit s) with
  | Ok db => with_audit db s
  | Err e => spool_dead_letter ok ev (sql_error_text e) s
  end.
Lemma deliver_queue ok q s ev : deliver ok (with_queue q s) ev = with_queue q (deliver ok s ev).
Proof.
  unfold deliver, spool_dead_letter. cbn. destruct (insert_audit_event _ _ _ _); [done|]. by destruct ok.
Qed.
Lemma delivers_queue ok q evs s :
  foldl (deliver ok) (with_queue q s) evs = with_queue q (foldl (deliver ok) s evs).
Proof. revert s. induction evs as [|ev evs IH]; intros s; cbn; [done|]. by rewrite deliver_queue, IH. Qed.
Lemma deliver_toks ok s ev : toks (deliver ok s ev) = toks s.
Proof.
  unfold deliver, spool_dead_letter. destruct (insert_audit_event _ _ _ _); [done|]. by destruct ok.
Qed.
Lemma drain_iter ok k s : k <= length (low_queue s) ->
  Nat.iter k (drain_one ok) s
  = with_queue (drop k (low_queue s)) (foldl (deliver ok) s (take k (low_queue s))).
Proof.
  revert s. induction k as [|k IH]; intros s Hk.
  { cbn. rewrite drop_0. by destruct s. }
  rewrite Nat.iter_succ_r. destruct (low_queue s) as [|ev q] eqn:Eq; [cbn in Hk; lia|].
  assert (Ed : drain_one ok s = with_queue q (deliver ok s ev)).
  { rewrite <- deliver_queue. unfold drain_one. by rewrite Eq. }
  rewrite Ed, IH by (cbn in *; lia). cbn. by rewrite delivers_queue.
Qed.
Lemma batch_alone o `{!Sound o} evs x :
  ends o (Drain (current_version (toks (sh_store x))) evs) x DrainWait
    (put_store (foldl (deliver (o_written o)) (sh_store x) evs) x).
Proof.
  revert x. induction evs as [|ev evs IH]; intros x; cbn [foldl].
  { eapply (ends_step o); [reflexivity|]. rewrite put_store_same. apply ends_refl. }
  specialize (IH (put_store (deliver (o_written o) (sh_store x) ev) x)). cbn [put_store sh_store] in IH.
  rewrite deliver_toks in IH. unfold deliver in IH at 1 2. unfold deliver at 2. unfold deliver at 1 in IH.
  destruct (insert_audit_event _ _ _ _) as [db'|e] eqn:E.
  - eapply (ends_step o); [cbn_step; rewrite E; reflexivity|]. exact IH.
  - eapply (ends_step o); [cbn_step; rewrite E; reflexivity|]. by apply (spool_alone o).
Qed.
Lemma fill_alone o `{!Sound o} buf x t' x' : length buf < DRAIN_BATCH ->
  let k := Nat.min (DRAIN_BATCH - length buf) (length (low_queue (sh_store x))) in
  ends o (Drain (current_version (toks (sh_store x))) (buf ++ take k (low_queue (sh_store x))))
    (put_store (with_queue (drop k (low_queue (sh_store x))) (sh_store x)) x) t' x' ->
  ends o (DrainFill buf) x t' x'.
Proof.
  remember (low_queue (sh_store x)) as q eqn:Eq. revert buf x Eq.
  induction q as [|ev q IH]; intros buf x Eq Hlt k He; subst k.
  { rewrite Nat.min_0_r, take_nil, drop_nil, app_nil_r in He.
    eapply (ends_step o); [cbn_step; rewrite <- Eq; reflexivity|].
    replace (put_store (with_queue [] (sh_store x)) x) with x in He; [exact He|].
    destruct x as [[] ? ?]. cbn in *. by subst. }
  eapply (ends_step o); [cbn_step; rewrite <- Eq; reflexivity|].
  assert (Hb : length (buf ++ [ev]) = S (length buf)) by (rewrite length_app; cbn; lia).
  destruct (bool_decide (DRAIN_BATCH <= length (buf ++ [ev]))) eqn:Ef.
  - apply bool_decide_eq_true in Ef. replace (Nat.min _ _) with 1 in He by (cbn [length]; lia).
    cbn [take drop] in He. by rewrite take_0, drop_0 in He.
  - apply bool_decide_eq_false in Ef.
    apply (IH (buf ++ [ev]) (put_store (with_queue q (sh_store x)) x)); [done|lia|].
    replace (Nat.min (DRAIN_BATCH - length buf) (length (ev :: q)))
      with (S (Nat.min (DRAIN_BATCH - length (buf ++ [ev])) (length q))) in He by (cbn [length]; lia).
    cbn [take drop] in He. by rewrite <- app_assoc.
Qed.
(** The drain thread takes up to a batch and delivers it: as many turns of [drain_one]. *)
Lemma drain_alone o `{!Sound o} x : low_queue (sh_store x) <> [] ->
  let k := Nat.min DRAIN_BATCH (length (low_queue (sh_store x))) in
  ends o DrainWait x DrainWait (put_store (Nat.iter k (drain_one (o_written o)) (sh_store x)) x).
Proof.
  intros Hq. cbv zeta. rewrite drain_iter by lia. remember (low_queue (sh_store x)) as q eqn:Eq.
  destruct q as [|ev q]; [done|].
  eapply (ends_step o); [cbn_step; rewrite <- Eq; reflexivity|].
  assert (Hc : 1 < DRAIN_BATCH) by (unfold DRAIN_BATCH; lia).
  apply (fill_alone o); [cbn [length]; lia|]. cbn [put_store sh_store with_queue low_queue toks].
  replace (Nat.min DRAIN_BATCH (length (ev :: q))) with (S (Nat.min (DRAIN_BATCH - length [ev]) (length q)))
    by (cbn [length]; lia).
  cbn [take drop app]. set (k := Nat.min _ _).
  pose proof (batch_alone o (ev :: take k q)
    (put_store (with_queue (drop k q) (sh_store x)) x)) as Hb.
  cbn [put_store sh_store] in Hb. rewrite delivers_queue in Hb. exact Hb.
Qed.

(** *** Reimport *)
Lemma import_alone o `{!Sound o} kv evs x :
  match import_events (key (toks (sh_store x))) kv evs (audit (sh_store x)) with
  | (db, Ok _) => ends o (ReimpImport kv evs) x ReimpClear (put_audit db x)
  | (db, Err _) => ends o (ReimpImport kv evs) x Done (put_audit db x)
  end.
Proof.
  revert x. induction evs as [|ev evs IH]; intros x; cbn [import_events].
  { eapply (ends_step o); [reflexivity|]. unfold put_audit. rewrite with_audit_same, put_store_same. apply ends_refl. }
  destruct (insert_audit_event _ _ _ _) as [db'|e] eqn:E.
  - specialize (IH (put_audit db' x)). cbn [put_audit put_store sh_store with_audit toks audit] in IH.
    destruct (import_events _ _ _ db') as [db [[]|e]];
      (eapply (ends_step o); [cbn_step; rewrite E; reflexivity|exact IH]).
  - eapply (ends_step o); [cbn_step; rewrite E; reflexivity|]. unfold put_audit.
    rewrite with_audit_same, put_store_same. apply ends_refl.
Qed.
Lemma ends_trans o t x t1 x1 t' x' : ends o t x t1 x1 -> ends o t1 x1 t' x' -> ends o t x t' x'.
Proof.
  intros [n Hn] He. revert t x Hn. induction n as [|n IH]; intros t x Hn; cbn in Hn.
  { by injection Hn as -> ->. }
  destruct (step_task _ _ _ _ _) as [[x2 t2]|] eqn:E; [|done]. cbn in Hn. destruct (IH t2 x2 Hn) as [k Hk].
  exists (S k). cbn [alone]. by rewrite E.
Qed.
Lemma reimport_alone o `{!Sound o} x : o_written o = true ->
  ends o ReimpRead x Done (put_store (reimport_dead_letter (sh_store x)).1 x).
Proof.
  intros Hw. unfold reimport_dead_letter. eapply (ends_step o); [reflexivity|].
  destruct (dead_letter (sh_store x)) as [|line lines]; [cbn; rewrite put_store_same; apply ends_refl|].
  destruct (check_dead _ _ _) as [evs|e]; [|cbn [fst]; rewrite put_store_same; apply ends_refl].
  eapply (ends_step o); [reflexivity|].
  pose proof (import_alone o (current_version (toks (sh_store x))) evs x) as Hi.
  destruct (import_events _ _ _ _) as [db [[]|e]]; [|exact Hi].
  eapply ends_trans; [exact Hi|]. eapply (ends_step o); [cbn_step; rewrite Hw; reflexivity|]. apply ends_refl.
Qed.

(** *** All operations *)

(** The thread that runs an operation of the sequential store, and what it must meet outside. *)
Definition task_of (op : store_op) (s : Store) : option Task :=
  let kv := current_version (toks s) in
  match op with
  | SAppend u t tn v raw who _ _ =>
      let ev := evaluate_event u t tn v raw who in
      Some (if high_risk v then AppendHigh ev kv else AppendLow ev kv)
  | SReimport => Some ReimpRead
  | SVerify tenant _ => Some (VerCp tenant)
  | SConfirm u t now id a b tn => Some (Confirm u t now id a b tn kv)
  | SRotateKey now => Some (RotateKey now)
  | _ => None
  end.
Definition meets (op : store_op) (o : Outside) : Prop :=
  match op with
  | SAppend _ _ _ _ _ _ ok rt =>
      o_written o = ok /\ o_rowids o = None /\
      rt = mkRetention (o_cutoff o) (o_now o) (o_bytes o) (o_archive o)
  | SReimport => o_written o = true
  | SVerify _ now => o_now o = now
  | _ => True
  end.
Lemma verify_all_store tenant now s :
  (verify_all_chains tenant now s).1 = with_audit (verify_chain (toks s) tenant now (audit s)).1 s.
Proof. unfold verify_all_chains. by destruct (verify_chain _ _ _ _). Qed.
Lemma op_alone op t o `{!Sound o} x : task_of op (sh_store x) = Some t -> meets op o ->
  ascending (audit_rows (audit (sh_store x))) ->
  exists x', ends o t x Done x' /\ sh_store x' = run_store op (sh_store x).
Proof.
  intros Ht Hm Ha. destruct op; cbn in Ht; try done; injection Ht as <-; cbn [meets run_store] in *.
  - destruct Hm as (<- & Hn & ->). by apply (append_alone o).
  - eexists. split; [by apply (reimport_alone o)|done].
  - rewrite verify_all_store. pose proof (verification_alone o tenant x Ha) as Hv. rewrite Hm in Hv.
    destruct (verify_chain _ _ _ _) as [db' rep]. eexists. split; [exact Hv|done].
  - destruct (confirm_atomic _ _ _ _ _ _ _ _ _ _) as [ab r] eqn:E. eexists.
    split; [eapply (ends_step o); [cbn_step; rewrite E; reflexivity|apply ends_refl]|done].
  - eexists. split; [eapply (ends_step o); [reflexivity|apply ends_refl]|]. done.
Qed.
End WithParams.


#[local] Existing Instances toy_crypto toy_codec toy_hmac_laws toy_codec_v toy_store_codec toy_store_laws.
(** *** Examples *)
Definition insert_all (ids : list string) (s : Store) : Store :=
  with_audit (foldl (fun db id => toy_insert (sample_event id "al") db) (audit s) ids) s.
Definition table_of (ids : list string) : Store := insert_all ids (new_store toy_tokens).
Definition shared_of (s : Store) : Shared := mkShared s ∅ [].

(** What a run leaves: the ids in the table and in the archives, those kept anywhere, and whether
    the reports of the verifications on the way found tampering. *)
Definition ids_of (rows : list AuditRow) : list string := (fun r => audit_id (r_event r)) <$> rows.
Definition outcome_of_run (es : list Event) (s : Store) : option (list string * list string * list bool) :=
  (fun m => (ids_of (audit_rows (audit (sh_store (m_shared m)))), audit_id <$> kept m,
             tampered <$> sh_reports (m_shared m))) <$> machine_run es (booted s).
(** Only rows that [cut] precedes are aged. *)
Definition late_event (id : string) : AuditEvent :=
  mkEvent id "2026-07-01T00:00:00+00:00" "evaluate" "default" "al" "ls" "read" "{}" None false "allowed" "" "".
Definition at_second (n : Z) : Outside := mkOutside None "now" "2026-06-01" 0 n Written true None.
Definition runs (i n : nat) (o : Outside) : list Event := replicate n (Run i o).

(** Two rotations that overlap delete rows that are in no archive: the second deletes by the
    rowids it read, which the rows inserted after the first rotation have taken over. *)
Lemma overlapping_rotations_lose_rows :
  let before := [Start RotCount; Start RotCount] ++ runs 1 3 (at_second 1) ++ runs 2 3 (at_second 2)
                ++ runs 1 4 (at_second 3) ++ [Start (AppendHigh (late_event "c") 1); Run 3 plain] in
  outcome_of_run before (table_of ["a"; "b"])
    = Some (["c"], ["c"; "a"; "b"; "a"; "b"], []) /\
  outcome_of_run (before ++ [Run 2 (at_second 3)]) (table_of ["a"; "b"])
    = Some ([], ["a"; "b"; "a"; "b"], []).
Proof. vm_compute. done. Qed.

(** An aged row and a recent one. *)
Definition mixed : Store := with_audit (toy_insert (late_event "c") (audit (table_of ["a"]))) (new_store toy_tokens).
(** Nobody has touched a row in any of these; the last verification reports tampering:
    a verification between the deletion of a rotation and its checkpoint, *)
Lemma verification_during_rotation_alarms :
  outcome_of_run ([Start RotCount] ++ runs 1 4 (at_second 1) ++ [Start (VerCp None)] ++ runs 2 4 plain) mixed
  = Some (["c"], ["c"; "a"], [true]).
Proof. vm_compute. done. Qed.
(** a crash between the two, which are not one transaction, *)
Lemma crash_during_rotation_alarms :
  outcome_of_run ([Start RotCount] ++ runs 1 4 (at_second 1) ++ [Crash; Start (VerCp None)] ++ runs 1 4 plain) mixed
  = Some (["c"], ["c"; "a"], [true]).
Proof. vm_compute. done. Qed.
(** a verification that writes its checkpoint after a rotation has archived the row it names
    (the first verification is clean, every later one is not), *)
Lemma stale_checkpoint_alarms :
  outcome_of_run ([Start RotCount] ++ runs 1 2 (at_second 1) ++ [Start (VerCp None)] ++ runs 2 3 plain
      ++ [Start (AppendHigh (late_event "d") 1); Run 3 plain] ++ runs 1 4 (at_second 1)
      ++ [Run 2 plain; Start (VerCp None)] ++ runs 4 5 plain) (table_of ["a"])
  = Some (["d"], ["d"; "a"], [true; false]).
Proof. vm_compute. done. Qed.
(** and an event drained into the table that a rotation has emptied and not yet marked. *)
Lemma drain_during_rotation_alarms :
  outcome_of_run ([Start (AppendLow (late_event "c") 1); Run 1 plain; Run 0 plain; Run 0 plain]
      ++ runs 1 5 (at_second 1) ++ [Run 0 plain] ++ runs 1 2 plain ++ [Start (VerCp None)] ++ runs 2 4 plain)
    (table_of ["a"])
  = Some (["c"], ["c"; "a"], [true]).
Proof. vm_compute. done. Qed.

(** So does a rotation whose checkpoint cannot be written, *)
Lemma unwritten_checkpoint_alarms :
  outcome_of_run ([Start RotCount] ++ runs 1 5 (at_second 1) ++ [Run 1 (failing (Raised "disk I/O error") plain)]
      ++ runs 1 1 plain ++ [Start (VerCp None)] ++ runs 2 4 plain) mixed
  = Some (["c"], ["c"; "a"], [true]).
Proof. vm_compute. done. Qed.
(** a verification that cannot read the checkpoint of a rotated table and takes it for absent, *)
Lemma swallowed_checkpoint_alarms :
  outcome_of_run ([Start RotCount] ++ runs 1 7 (at_second 1) ++ [Start (VerCp None); Run 2 (failing Swallowed plain)]
      ++ runs 2 3 plain) mixed
  = Some (["c"], ["c"; "a"], [true]).
Proof. vm_compute. done. Qed.
(** and an append that cannot read the last row and starts a new chain beside the old one. *)
Lemma swallowed_tail_forks :
  outcome_of_run [Start (AppendHigh (late_event "b") 1); Run 1 (failing Swallowed plain); Start (VerCp None);
      Run 2 plain; Run 2 plain; Run 2 plain; Run 2 plain] (table_of ["a"])
  = Some (["a"; "b"], ["a"; "b"], [true]).
Proof. vm_compute. done. Qed.

(** A store whose drain thread is gone, so that low-risk events go to the dead-letter file. *)
Definition spooling : Store := run_store SDrainExit (new_store toy_tokens).
Definition spool_two (between : list Event) : list Event :=
  [Start (AppendLow (late_event "a") 1); Start (AppendLow (late_event "b") 1); Run 1 plain; Run 2 plain]
  ++ between.
(** Two spools that read the file before either writes fork its chain: verification reports
    tampering and no line can be imported any more. *)
Lemma overlapping_spools_fork :
  match machine_run (spool_two [Run 1 plain; Run 2 plain; Run 1 plain; Run 2 plain]) (booted spooling) with
  | Some m =>
      let s := sh_store (m_shared m) in
      length (dead_letter s) = 2 /\ tampered (verify_dead_letter s) = true /\
      reimport_dead_letter s = (s, Err (Conversion "dead-letter prev_hmac chain broken"))
  | None => False
  end.
Proof. vm_compute. done. Qed.
(** An event spooled while a reimport is under way is erased with the lines it imported. *)
Lemma spool_during_reimport_lost :
  outcome_of_run (spool_two ([Run 1 plain; Run 1 plain; Start ReimpRead] ++ runs 3 4 plain
      ++ [Run 2 plain; Run 2 plain; Run 3 plain])) spooling
  = Some (["a"], ["a"], []).
Proof. vm_compute. done. Qed.
End ThreadsAlone.
