(* ===== verification/ThreadsRest.v ===== *)
(** * The threads of the store come to rest

    While any thread has something to do, one of them can take a step: whoever holds the writing
    connection waits for nothing, and whoever holds the reading connection waits for the writing
    one at most.  And a measure of two numbers, the work with events of low severity and the steps
    the other calls have left, falls with every step, so that without new calls every schedule
    ends, whatever its steps meet and whichever statements fail. *)
From S2P Require Import Prelude Core Pattern Rules Tokens Chain Actions Ledger Threads ThreadsSpec.

Module ThreadsRest.
Import Tokens Chain Actions Ledger Threads ThreadsSpec.

(** *** Waiting *)

Definition needs_writer (t : Task) : bool :=
  match t with
  | AppendHigh _ _ | RotDelete _ | RotVacuum | VerMark (Some _) _ | ReimpWait _
  | Confirm _ _ _ _ _ _ _ _ => true
  | _ => false
  end.
Definition needs_reader (t : Task) : bool := match t with RotCount | VerCp _ => true | _ => false end.
(** A thread that has nothing to do. *)
Definition idle (s : Store) (t : Task) : Prop := t = Done \/ t = DrainWait /\ low_queue s = [].
Definition at_rest (m : Machine) : Prop := Forall (idle (sh_store (m_shared m))) (m_tasks m).

Lemma holder_runs t : holds_writer t = true -> needs_writer t = false /\ needs_reader t = false /\ t <> Done /\ t <> DrainWait.
Proof. by destruct t. Qed.
Lemma reader_runs t : holds_reader t = true -> needs_reader t = false /\ t <> Done /\ t <> DrainWait.
Proof. by destruct t. Qed.

Section WithParams.
Context `{Crypto, RowCodec, VerdictCodec, StoreCodec}.

(** A thread that does not step waits for a lock or has nothing to do. *)
Lemma step_waits wfree rfree t x : step_task plain wfree rfree t x = None ->
  idle (sh_store x) t \/ needs_writer t = true /\ wfree = false \/ needs_reader t = true /\ rfree = false.
Proof.
  unfold step_task. cbn [plain o_fault]. unfold idle.
  destruct t; cbn_step; cbn [plain o_archive o_rowids o_written]; try (by auto).
  all: try (destruct wfree; cbn [negb]; [|by auto]).
  all: try (destruct rfree; cbn [negb]; [|by auto]).
  all: repeat case_match; try done; auto.
  destruct wfree; [done|by auto].
Qed.

Lemma run_steps m i t : m_tasks m !! i = Some t ->
  step_task plain (free holds_writer i (m_tasks m)) (free holds_reader i (m_tasks m)) t (m_shared m) <> None ->
  exists m', machine_step (Run i plain) m = Some m'.
Proof.
  intros Hi. cbn [machine_step]. rewrite Hi. cbn [mbind option_bind].
  destruct (step_task _ _ _ _ _) as [[x1 t1]|]; [by eexists|done].
Qed.
Lemma free_other holds i ts : free holds i ts = false ->
  exists j b, i <> j /\ ts !! j = Some b /\ holds b = true.
Proof.
  intros Hf. apply existsb_other. destruct (existsb holds (delete i ts)) eqn:E; [done|].
  unfold free in Hf. assert (Ht : forallb (fun t => negb (holds t)) (delete i ts) = true); [|congruence].
  apply forallb_forall. intros t Hin. apply negb_true_iff. rewrite existsb_false in E. by apply E.
Qed.
(** Whoever holds the writer can go on, *)
Lemma writer_steps m i t : m_tasks m !! i = Some t -> holds_writer t = true ->
  exists m', machine_step (Run i plain) m = Some m'.
Proof.
  intros Hi Hw. apply (run_steps m i t Hi). intros Hs. apply step_waits in Hs.
  destruct (holder_runs t Hw) as (Hn & Hr & Hd & Hq). unfold idle in Hs. rewrite Hn, Hr in Hs. naive_solver.
Qed.
(** so whoever waits for the writer is not waiting for ever, *)
Lemma waiting_writer m i t : m_tasks m !! i = Some t -> free holds_writer i (m_tasks m) = false ->
  exists j m', machine_step (Run j plain) m = Some m'.
Proof. intros Hi (j & b & _ & Hj & Hb)%free_other. exists j. by eapply writer_steps. Qed.
(** and neither is whoever waits for the reader. *)
Lemma waiting_reader m i t : m_tasks m !! i = Some t -> free holds_reader i (m_tasks m) = false ->
  exists j m', machine_step (Run j plain) m = Some m'.
Proof.
  intros Hi (j & b & _ & Hj & Hb)%free_other. destruct (reader_runs b Hb) as (Hr & Hd & Hq).
  destruct (step_task plain (free holds_writer j (m_tasks m)) (free holds_reader j (m_tasks m)) b (m_shared m))
    eqn:Es; [exists j; apply (run_steps m j b Hj); by rewrite Es|].
  apply step_waits in Es. unfold idle in Es. rewrite Hr in Es.
  destruct Es as [[?|[? _]]|[[_ Hf]|[? _]]]; [done|done| |done]. by eapply waiting_writer.
Qed.
#[global] Instance idle_dec s t : Decision (idle s t).
Proof.
  unfold idle. destruct t; try (by right; naive_solver); [by left; left|].
  destruct (low_queue s); [left|right]; naive_solver.
Defined.
(** No deadlock: while any thread has something to do, one of them takes a step. *)
Lemma progress m : at_rest m \/ exists i m', machine_step (Run i plain) m = Some m'.
Proof.
  destruct (decide (at_rest m)) as [|Hall]; [by left|right].
  apply not_Forall_Exists, Exists_exists in Hall as (t & [i Hi]%list_elem_of_lookup & Ht); [|apply _].
  destruct (step_task plain (free holds_writer i (m_tasks m)) (free holds_reader i (m_tasks m)) t (m_shared m))
    eqn:Es; [exists i; apply (run_steps m i t Hi); by rewrite Es|].
  apply step_waits in Es as [?|[[_ Hf]|[_ Hf]]]; [done|by eapply waiting_writer|by eapply waiting_reader].
Qed.
(** A machine at rest takes no step, whatever it meets. *)
Lemma rest_stops m i o : at_rest m -> machine_step (Run i o) m = None.
Proof.
  intros Hr. cbn. destruct (m_tasks m !! i) as [t|] eqn:Hi; [|done]. cbn.
  eapply Forall_lookup_1 in Hr; [|done]. unfold step_task.
  destruct Hr as [->|[-> Hq]]; destruct (o_fault o) as [[]|]; cbn; by rewrite ?Hq.
Qed.

(** *** Termination *)

(** The work that threads and queue have with the events of low severity; *)
Fixpoint low_work (t : Task) : nat :=
  match t with
  | AppendLow _ _ => 7
  | DrainFill buf => 3 * length buf + 2
  | Drain _ batch => 3 * length batch + 1
  | SpoolRead _ _ _ next => 2 + low_work next
  | SpoolWrite _ next => 1 + low_work next
  | _ => 0
  end.
(** the steps the other threads have left, with [n] lines in the dead-letter file. *)
Definition steps_left (n : nat) (t : Task) : nat :=
  match t with
  | AppendHigh _ _ => 8
  | RotCount => 7 | RotSelect _ => 6 | RotFile _ => 5 | RotDelete _ => 4 | RotFirst _ => 3
  | RotMark _ => 2 | RotVacuum => 1
  | VerCp _ => 6 | VerRow _ _ => 5 | VerHash _ _ _ => 4 | VerRows _ _ _ => 3 | VerCount _ _ _ _ => 2
  | VerMark _ _ => 1
  | ReimpRead => 4 + n | ReimpWait evs => 3 + length evs | ReimpImport _ evs => 2 + length evs
  | ReimpClear => 1
  | Confirm _ _ _ _ _ _ _ _ | RotateKey _ => 1
  | _ => 0
  end.
Definition queue_work (x : Shared) : nat := 6 * length (low_queue (sh_store x)).
Definition dead_lines_left (x : Shared) : nat := length (dead_letter (sh_store x)).

Lemma check_dead_length master h lines evs : check_dead master h lines = Ok evs -> length evs = length lines.
Proof.
  revert h evs. induction lines as [|l lines IH]; intros h evs; cbn [check_dead]; [by intros [= <-]|].
  repeat case_match; try done. destruct (check_dead _ _ lines) as [evs'|] eqn:Hc; [|done].
  intros [= <-]. cbn. f_equal. by eapply IH.
Qed.
(** Every step, failing or not, has less of the first work or as much of it and fewer steps left. *)
Definition drops (t t' : Task) (x x' : Shared) : Prop :=
  let a := low_work t + queue_work x in
  let a' := low_work t' + queue_work x' in
  a' < a \/ a' = a /\ dead_lines_left x' <= dead_lines_left x /\
             steps_left (dead_lines_left x') t' < steps_left (dead_lines_left x) t.
#[local] Ltac drop_cases :=
  repeat case_match; try done; intros E;
  repeat match goal with F : check_dead _ _ _ = Ok _ |- _ => apply check_dead_length in F end;
  simplify_option_eq;
  repeat match goal with
    | F : low_queue _ = _ |- _ => apply (f_equal length) in F
    | F : dead_letter _ = _ |- _ => apply (f_equal length) in F
    end; cbn in *; rewrite ?length_app; cbn in *; lia.
Lemma sound_drops o wfree rfree t x x' t' :
  step_sound o wfree rfree t x = Some (x', t') -> drops t t' x x'.
Proof. unfold drops, queue_work, dead_lines_left. destruct t; cbn_step; drop_cases. Qed.
Lemma raised_drops e o wfree rfree t x x' t' :
  step_raised e o wfree rfree t x = Some (x', t') -> drops t t' x x'.
Proof.
  destruct t; cbn [step_raised]; try apply sound_drops; unfold drops, queue_work, dead_lines_left.
  all: repeat case_match; subst; try (by apply sound_drops); drop_cases.
Qed.
Lemma swallowed_drops o wfree rfree t x x' t' :
  step_swallowed o wfree rfree t x = Some (x', t') -> drops t t' x x'.
Proof.
  destruct t; cbn [step_swallowed]; try apply sound_drops; unfold drops, queue_work, dead_lines_left.
  all: repeat case_match; subst; try (by apply sound_drops); drop_cases.
Qed.
Lemma task_drops o wfree rfree t x x' t' :
  step_task o wfree rfree t x = Some (x', t') -> drops t t' x x'.
Proof.
  unfold step_task. destruct (o_fault o) as [[e|]|];
    [apply raised_drops|apply swallowed_drops|apply sound_drops].
Qed.

Definition total_work (m : Machine) : nat := sum_list_with low_work (m_tasks m) + queue_work (m_shared m).
Definition total_left (m : Machine) : nat :=
  sum_list_with (steps_left (dead_lines_left (m_shared m))) (m_tasks m).
(** One step of some thread, whatever it meets. *)
Definition runs_to (m m' : Machine) : Prop := exists i o, machine_step (Run i o) m = Some m'.
Lemma run_drops m m' : runs_to m m' ->
  total_work m' < total_work m \/ total_work m' = total_work m /\ total_left m' < total_left m.
Proof.
  intros (i & o & E). cbn [machine_step] in E. destruct (m_tasks m !! i) as [t|] eqn:Hi; [|done].
  cbn [mbind option_bind] in E. destruct (step_task _ _ _ _ _) as [[x' t']|] eqn:Es; [|done].
  injection E as <-. apply task_drops in Es. unfold drops, total_work, total_left in *. cbn [m_tasks m_shared].
  pose proof (sum_insert low_work _ i t t' Hi).
  pose proof (sum_insert (steps_left (dead_lines_left x')) _ i t t' Hi).
  destruct Es as [?|(? & Hle & Hlt)]; [left; lia|right]. split; [lia|].
  assert (Hm : forall u, steps_left (dead_lines_left x') u <= steps_left (dead_lines_left (m_shared m)) u)
    by (intros []; cbn; lia).
  pose proof (sum_delete (steps_left (dead_lines_left x')) _ i t Hi).
  pose proof (sum_delete (steps_left (dead_lines_left (m_shared m))) _ i t Hi).
  pose proof (sum_le _ _ (delete i (m_tasks m)) Hm). lia.
Qed.

(** [C28] The threads of the store come to rest.  Without new calls every schedule ends, whatever
    each step meets outside and whichever statements of SQL fail; and a machine none of whose threads
    can take a step is one whose calls have all returned and whose drain thread waits at an empty
    queue, so that no two threads wait for each other's locks: the two mutexes of the connections are
    never taken in opposite orders. *)
Theorem threads_come_to_rest (m : Machine) :
  Acc (flip runs_to) m /\ (at_rest m <-> (forall m', ~ runs_to m m')).
Proof.
  split.
  - remember (total_work m) as a eqn:Ha. revert m Ha.
    induction a as [a IHa] using lt_wf_ind. intros m. remember (total_left m) as b eqn:Hb. revert m Hb.
    induction b as [b IHb] using lt_wf_ind. intros m -> ->. constructor. intros m' Hr.
    destruct (run_drops m m' Hr) as [Hlt|[He Hlt]]; [by eapply IHa|by eapply IHb].
  - split; [intros Hr m' (i & o & E); by rewrite rest_stops in E|intros Hn].
    destruct (progress m) as [?|(i & m' & E)]; [done|]. exfalso. eapply (Hn m'). by exists i, plain.
Qed.
End WithParams.
End ThreadsRest.
