(* ===== verification/Files.v ===== *)
(** * Files of the store (fg-store/src/lib.rs)

    Where [AuditStore::open] and the operations of the store put files, and the permissions they
    give them.  A path is the list of its components.  SQLite is the class [SqliteFiles]; the
    outcome of [set_permissions], which the code ignores, and the process's umask are arguments. *)
From S2P Require Import Prelude.

(** An entry of the file system. *)
Record Inode : Type := mkInode { n_dir : bool; n_mode : Z }.
Notation Path := (list string).
Notation Fs := (gmap (list string) Inode).

Module Files.

(** *** Paths *)

(** [Path::parent] *)
Definition parent (p : Path) : option Path := match p with [] => None | _ => Some (removelast p) end.
(** [Path::with_file_name] *)
Definition with_file_name (p : Path) (n : string) : Path := (removelast p ++ [n])%list.
Definition last_name (p : Path) : string := List.last p "".
(** [OsString::push] on a whole path *)
Definition push_suffix (p : Path) (s : string) : Path := with_file_name p (last_name p +:+ s).
(** The name up to its last dot; a name with no dot or only a leading one is kept whole. *)
Fixpoint last_dot (i : nat) (s : string) : option nat :=
  match s with
  | "" => None
  | String c s' =>
      match last_dot (S i) s' with
      | Some j => Some j
      | None => if Ascii.eqb c "." then Some i else None
      end
  end.
Definition file_stem (n : string) : string :=
  match last_dot 0 n with Some (S i) => String.substring 0 (S i) n | _ => n end.
(** [Path::with_extension] *)
Definition with_extension (p : Path) (e : string) : Path :=
  with_file_name p (file_stem (last_name p) +:+ "." +:+ e).

(** *** Directories, files and their modes *)

Definition DIR_MODE : Z := 448.
Definition FILE_MODE : Z := 384.
Definition masked (umask mode : Z) : Z := Z.ldiff mode umask.
(** [std::fs::set_permissions] *)
Definition set_permissions (ok : bool) (mode : Z) (p : Path) (fs : Fs) : Fs :=
  if ok then alter (fun n => mkInode (n_dir n) mode) p fs else fs.
Definition ensure (n : Inode) (p : Path) (fs : Fs) : Fs :=
  match fs !! p with Some _ => fs | None => <[p := n]> fs end.
(** [create_dir_all]: every missing directory on the way, unless something else is there *)
Fixpoint prefixes (acc p : Path) : list Path :=
  match p with [] => [] | c :: p' => (acc ++ [c])%list :: prefixes (acc ++ [c]) p' end.
Definition blocked (fs : Fs) (p : Path) : bool :=
  match fs !! p with Some n => negb (n_dir n) | None => false end.
Definition create_dir_all (umask : Z) (p : Path) (fs : Fs) : option Fs :=
  if existsb (blocked fs) (prefixes [] p) then None
  else Some (foldl (fun fs q => ensure (mkInode true (masked umask 511)) q fs) fs (prefixes [] p)).
(** Opening for writing creates what is missing. *)
Definition open_create (umask : Z) (p : Path) (fs : Fs) : Fs :=
  ensure (mkInode false (masked umask 438)) p fs.

(** *** The databases *)

Definition db_files (db : Path) : list Path := [db; push_suffix db "-wal"; push_suffix db "-shm"].
(** [harden_db_perms] *)
Definition harden_db_perms (ok : bool) (db : Path) (fs : Fs) : Fs :=
  foldl (fun fs p => match fs !! p with Some _ => set_permissions ok FILE_MODE p fs | None => fs end)
    fs (db_files db).
Definition token_db (db : Path) : Path := with_file_name db "token.db".
Definition action_db (db : Path) : Path := with_file_name db "action.db".
Definition dead_letter_path (db : Path) : Path := with_extension db "deadletter".
(** [resolve_archive_dir], given the variable that overrides it *)
Definition resolve_archive_dir (env : option Path) (db : Path) : Path :=
  match env with
  | Some d => d
  | None => (default ["."] (parent db) ++ ["audit-archive"])%list
  end.
End Files.

(** What SQLite does to the files of a database at some moment. *)
Class SqliteFiles : Type := sqlite_touch : nat -> Path -> Fs -> Fs.
(** SQLite creates the database if it is missing and keeps to it and its two companions; it
    changes no permissions and does not remove the database, and a companion it creates gets the
    permissions of the database. *)
Class SqliteFilesLaws `{SqliteFiles} : Prop := {
  sqlite_frame k p fs q : q ∉ Files.db_files p -> sqlite_touch k p fs !! q = fs !! q;
  sqlite_creates k p fs : is_Some (sqlite_touch k p fs !! p);
  sqlite_main k p fs n : fs !! p = Some n -> sqlite_touch k p fs !! p = Some n;
  sqlite_modes k p fs q n : sqlite_touch k p fs !! q = Some n ->
    fs !! q = Some n \/ fs !! q = None /\
    (q = p \/ exists d, sqlite_touch k p fs !! p = Some d /\ n_mode n = n_mode d)
}.

Module FilesOpen.
Import Files.

Section WithParams.
Context `{SqliteFiles}.

(** The file side of [AuditStore::open], in its order: the directory, the connections, the
    permissions, the connection for reading.  [ok] tells which [set_permissions] succeed. *)
Definition make_dir (ok : bool) (umask : Z) (db : Path) (fs : Fs) : option Fs :=
  match parent db with
  | Some d => fs ← create_dir_all umask d fs; Some (set_permissions ok DIR_MODE d fs)
  | None => Some fs
  end.
Definition open_connections (db : Path) (fs : Fs) : Fs :=
  let fs := sqlite_touch 0 db fs in
  let fs := sqlite_touch 1 db fs in
  let fs := sqlite_touch 2 (action_db db) fs in
  let fs := sqlite_touch 3 db fs in
  let fs := sqlite_touch 4 (token_db db) fs in
  sqlite_touch 5 (action_db db) fs.
Definition harden_all (ok : bool) (db : Path) (fs : Fs) : Fs :=
  harden_db_perms ok (action_db db) (harden_db_perms ok (token_db db) (harden_db_perms ok db fs)).
Definition open_files (ok : bool) (umask : Z) (db : Path) (fs : Fs) : option Fs :=
  fs ← make_dir ok umask db fs;
  Some (sqlite_touch 6 db (harden_all ok db (open_connections db fs))).

(** What the running store does to files: SQLite at work on one of the databases; an event
    spooled to the dead-letter file; a rotation writing an archive; a reimport emptying the
    dead-letter file, which it has read before. *)
Inductive FileOp : Type :=
| Use (k : nat) (p : Path)
| SpoolFile
| ArchiveFile (name : string)
| ClearDead.
Definition archive_path (env : option Path) (db : Path) (name : string) : Path :=
  (resolve_archive_dir env db ++ [name])%list.
Definition file_step (ok : bool) (umask : Z) (env : option Path) (db : Path) (op : FileOp) (fs : Fs) : Fs :=
  match op with
  | Use k p => if bool_decide (p ∈ [db; token_db db; action_db db]) then sqlite_touch k p fs else fs
  | SpoolFile =>
      set_permissions ok FILE_MODE (dead_letter_path db) (open_create umask (dead_letter_path db) fs)
  | ArchiveFile name =>
      let p := archive_path env db name in
      match create_dir_all umask (resolve_archive_dir env db) fs with
      | Some fs => set_permissions ok FILE_MODE p (open_create umask p fs)
      | None => fs
      end
  | ClearDead => match fs !! dead_letter_path db with
                 | Some _ => open_create umask (dead_letter_path db) fs
                 | None => fs
                 end
  end.
End WithParams.
End FilesOpen.

(** ** Properties of the permissions *)
Module FilesSpec.
Import Files FilesOpen.

(** What exists at a path is for the owner only. *)
Definition private (fs : Fs) (q : Path) : Prop := forall n, fs !! q = Some n -> n_mode n = FILE_MODE.
Definition databases (db : Path) : list Path := [db; token_db db; action_db db].
Definition database_files (db : Path) : list Path := databases db ≫= db_files.

Lemma set_permissions_private mode p q fs : private fs q -> mode = FILE_MODE \/ q <> p ->
  private (set_permissions true mode p fs) q.
Proof.
  intros Hq Hm n. cbn [set_permissions]. destruct (decide (q = p)) as [->|Hne].
  - rewrite lookup_alter_eq. destruct Hm as [->|]; [|done]. destruct (fs !! p); [|done]. by intros [= <-].
  - rewrite lookup_alter_ne by done. apply Hq.
Qed.
Lemma set_permissions_at p fs : private (set_permissions true FILE_MODE p fs) p.
Proof. intros n. cbn [set_permissions]. rewrite lookup_alter_eq. destruct (fs !! p); [|done]. by intros [= <-]. Qed.
Lemma set_permissions_exists ok mode p q fs : is_Some (fs !! q) -> is_Some (set_permissions ok mode p fs !! q).
Proof.
  destruct ok; [|done]. cbn [set_permissions]. destruct (decide (q = p)) as [->|Hne].
  - rewrite lookup_alter_eq. intros [n ->]. by eexists.
  - by rewrite lookup_alter_ne.
Qed.
Lemma ensure_other n p q fs : q <> p -> ensure n p fs !! q = fs !! q.
Proof. unfold ensure. destruct (fs !! p); [done|]. intros. by apply lookup_insert_ne. Qed.
Lemma ensure_exists n p q fs : is_Some (fs !! q) \/ q = p -> is_Some (ensure n p fs !! q).
Proof.
  unfold ensure. destruct (fs !! p) eqn:E; [intros [Hq| ->]; [done|by eexists]|].
  intros [Hq| ->]; [|rewrite lookup_insert_eq; by eexists].
  destruct (decide (q = p)) as [->|Hne]; [rewrite lookup_insert_eq; by eexists|by rewrite lookup_insert_ne].
Qed.
Lemma write_private umask p q fs : private fs q \/ q = p ->
  private (set_permissions true FILE_MODE p (open_create umask p fs)) q.
Proof.
  intros Hq. destruct (decide (q = p)) as [->|Hne]; [apply set_permissions_at|].
  destruct Hq as [Hq|]; [|done]. apply set_permissions_private; [|by left].
  intros n. unfold open_create. rewrite ensure_other by done. apply Hq.
Qed.

Lemma prefixes_length acc p q : q ∈ prefixes acc p -> length q <= length acc + length p.
Proof.
  revert acc. induction p as [|c p IH]; intros acc Hq; cbn in Hq; [by apply elem_of_nil in Hq|].
  apply list_elem_of_In in Hq as [<-|Hq]; [rewrite length_app; cbn; lia|].
  apply list_elem_of_In, IH in Hq. rewrite length_app in Hq. cbn in Hq |- *. lia.
Qed.
Lemma prefixes_last acc p : p <> [] -> (acc ++ p)%list ∈ prefixes acc p.
Proof.
  revert acc. induction p as [|c p IH]; intros acc Hp; [done|]. cbn [prefixes].
  destruct p as [|c' p]; [apply list_elem_of_In; by left|].
  apply list_elem_of_In. right. apply list_elem_of_In.
  replace (acc ++ c :: c' :: p)%list with ((acc ++ [c]) ++ c' :: p)%list by by rewrite <- app_assoc.
  by apply IH.
Qed.
Lemma create_dir_all_other umask p fs fs' q : create_dir_all umask p fs = Some fs' ->
  q ∉ prefixes [] p -> fs' !! q = fs !! q.
Proof.
  unfold create_dir_all. destruct (existsb _ _); [done|]. intros [= <-]. generalize (prefixes [] p) as ps. intros ps.
  revert fs. induction ps as [|r ps IH]; intros fs Hq; cbn; [done|].
  apply not_elem_of_cons in Hq as [Hr Hq]. rewrite IH by done. by apply ensure_other.
Qed.
Lemma create_dir_all_exists umask p fs fs' q : create_dir_all umask p fs = Some fs' ->
  is_Some (fs !! q) \/ q ∈ prefixes [] p -> is_Some (fs' !! q).
Proof.
  unfold create_dir_all. destruct (existsb _ _); [done|]. intros [= <-].
  generalize (prefixes [] p) as ps. intros ps. revert fs.
  induction ps as [|r ps IH]; intros fs Hin; cbn; [destruct Hin as [|Hin]; [done|by apply elem_of_nil in Hin]|].
  apply IH. destruct Hin as [Hin|Hin]; [left; apply ensure_exists; by left|].
  apply elem_of_cons in Hin as [->|Hin]; [left; apply ensure_exists; by right|by right].
Qed.

Lemma harden_step (q r : Path) (fs : Fs) : private fs q \/ q = r ->
  private (match fs !! r with Some _ => set_permissions true FILE_MODE r fs | None => fs end) q.
Proof.
  intros Hq. destruct (fs !! r) eqn:E.
  - destruct Hq as [Hq| ->]; [apply set_permissions_private; [done|by left]|apply set_permissions_at].
  - destruct Hq as [Hq| ->]; [done|]. intros n En. congruence.
Qed.
Lemma harden_private q db fs : private fs q \/ q ∈ db_files db -> private (harden_db_perms true db fs) q.
Proof.
  unfold harden_db_perms. generalize (db_files db) as ps. intros ps. revert fs.
  induction ps as [|r ps IH]; intros fs Hq; cbn; [destruct Hq as [|Hq]; [done|by apply elem_of_nil in Hq]|].
  apply IH. destruct Hq as [Hq|Hq]; [left; apply harden_step; by left|].
  apply elem_of_cons in Hq as [->|Hq]; [left; apply harden_step; by right|by right].
Qed.
Lemma harden_other ok q db fs : q ∉ db_files db -> harden_db_perms ok db fs !! q = fs !! q.
Proof.
  unfold harden_db_perms. generalize (db_files db) as ps. intros ps. revert fs.
  induction ps as [|r ps IH]; intros fs Hq; cbn; [done|]. apply not_elem_of_cons in Hq as [Hr Hq].
  rewrite IH by done. destruct (fs !! r); [|done]. destruct ok; [|done]. by apply lookup_alter_ne.
Qed.
Lemma harden_exists ok q db fs : is_Some (fs !! q) -> is_Some (harden_db_perms ok db fs !! q).
Proof.
  unfold harden_db_perms. generalize (db_files db) as ps. intros ps. revert fs.
  induction ps as [|r ps IH]; intros fs Hq; cbn; [done|]. apply IH. destruct (fs !! r); [|done].
  by apply set_permissions_exists.
Qed.

Section WithLaws.
Context `{HS : SqliteFiles, HL : !SqliteFilesLaws}.

Lemma touch_private k p q fs : is_Some (fs !! p) -> private fs p -> private fs q ->
  private (sqlite_touch k p fs) q.
Proof using HL.
  intros [d Hd] Hp Hq n En. pose proof (sqlite_main k p fs d Hd) as Hmain.
  destruct (sqlite_modes k p fs q n En) as [E|[E [->|(d' & Ed & ->)]]]; [by apply Hq|congruence|].
  assert (d' = d) as -> by congruence. by apply Hp.
Qed.
Lemma touch_exists k p q fs : is_Some (fs !! q) -> q = p \/ q ∉ db_files p ->
  is_Some (sqlite_touch k p fs !! q).
Proof using HL. intros Hq [->|Hne]; [apply sqlite_creates|by rewrite sqlite_frame]. Qed.

(** The store of the daemon: its database is [guard.db] in some directory. *)
Context (dir : Path) (umask : Z) (env : option Path).
Let db : Path := (dir ++ ["guard.db"])%list.

Lemma beside n : with_file_name db n = (dir ++ [n])%list.
Proof. unfold with_file_name, db. by rewrite removelast_last. Qed.
Lemma beside_inj n m : (dir ++ [n])%list = (dir ++ [m])%list <-> n = m.
Proof. split; [|by intros ->]. intros E. apply app_inj_tail in E. by destruct E. Qed.
Lemma files_beside n : db_files (dir ++ [n])
  = [dir ++ [n]; dir ++ [n +:+ "-wal"]; dir ++ [n +:+ "-shm"]]%list.
Proof.
  unfold db_files, push_suffix, with_file_name, last_name. by rewrite removelast_last, List.last_last.
Qed.
Lemma databases_beside : databases db = [dir ++ ["guard.db"]; dir ++ ["token.db"]; dir ++ ["action.db"]]%list.
Proof. unfold databases, token_db, action_db. by rewrite !beside. Qed.
Lemma dead_beside : dead_letter_path db = (dir ++ ["guard.deadletter"])%list.
Proof.
  unfold dead_letter_path, with_extension. rewrite beside. unfold last_name, db. by rewrite List.last_last.
Qed.
(** No database is a companion of another. *)
Lemma databases_apart p q : p ∈ databases db -> q ∈ databases db -> q = p \/ q ∉ db_files p.
Proof.
  rewrite databases_beside. intros Hp%list_elem_of_In Hq%list_elem_of_In.
  assert (Hn : exists n m, p = (dir ++ [n])%list /\ q = (dir ++ [m])%list /\
            (m = n \/ m <> n +:+ "-wal" /\ m <> n +:+ "-shm")).
  { cbn in Hp, Hq.
    destruct Hp as [<-|[<-|[<-|[]]]]; destruct Hq as [<-|[<-|[<-|[]]]];
      eexists _, _; (split; [reflexivity|]); (split; [reflexivity|]); (by left) || (by right; split). }
  destruct Hn as (n & m & -> & -> & Hnm). destruct Hnm as [->|[Hw Hs]]; [by left|].
  destruct (decide (m = n)) as [->|Hne]; [by left|right]. rewrite files_beside.
  intros Hin%list_elem_of_In. cbn in Hin. rewrite !beside_inj in Hin. destruct Hin as [E|[E|[E|[]]]]; congruence.
Qed.

(** What holds while the store is open, for a path [q] whose file is private. *)
Definition open_inv (fs : Fs) : Prop :=
  (forall p, p ∈ databases db -> is_Some (fs !! p)) /\ forall q, q ∈ database_files db -> private fs q.

Lemma database_file p q : p ∈ databases db -> q ∈ db_files p -> q ∈ database_files db.
Proof. intros Hp Hq. apply list_elem_of_bind. by exists p. Qed.
Lemma open_database fs p : open_inv fs -> p ∈ databases db -> is_Some (fs !! p) /\ private fs p.
Proof.
  intros [He Hp] Hin. split; [by apply He|]. apply Hp, (database_file p); [done|]. apply list_elem_of_In. by left.
Qed.
Lemma touch_keeps k p fs q : open_inv fs -> p ∈ databases db -> private fs q ->
  open_inv (sqlite_touch k p fs) /\ private (sqlite_touch k p fs) q.
Proof using HL.
  intros Hi Hp Hq. destruct (open_database fs p Hi Hp) as [Hex Hpr]. destruct Hi as [He Hf].
  split; [|by apply touch_private]. split; [|intros r Hr; apply touch_private; auto].
  intros r Hr. apply touch_exists; [by apply He|by apply databases_apart].
Qed.
Lemma all_exist_touch k p fs : p ∈ databases db -> forall q, q ∈ databases db ->
  is_Some (fs !! q) \/ q = p -> is_Some (sqlite_touch k p fs !! q).
Proof using HL.
  intros Hp q Hq [He| ->]; [|apply sqlite_creates]. apply touch_exists; [done|by apply databases_apart].
Qed.
Lemma connections_exist fs q : q ∈ databases db -> is_Some (open_connections db fs !! q).
Proof using HL.
  intros Hq. assert (Hd : db ∈ databases db /\ token_db db ∈ databases db /\ action_db db ∈ databases db).
  { split; [|split]; apply list_elem_of_In; cbn; auto. }
  destruct Hd as (Hd & Ht & Ha). unfold open_connections. pose proof Hq as Hq'.
  apply list_elem_of_In in Hq. destruct Hq as [<-|[<-|[<-|[]]]].
  all: repeat (apply all_exist_touch; [done|done|]; first [by right|left]).
Qed.
Lemma harden_all_private q fs : private fs q \/ q ∈ database_files db -> private (harden_all true db fs) q.
Proof.
  intros Hq. unfold harden_all. apply harden_private. destruct Hq as [Hq|Hq].
  { left. apply harden_private. left. apply harden_private. by left. }
  apply list_elem_of_bind in Hq as (p & Hq & Hp). apply list_elem_of_In in Hp. destruct Hp as [<-|[<-|[<-|[]]]].
  - left. apply harden_private. left. apply harden_private. by right.
  - left. apply harden_private. by right.
  - by right.
Qed.
Lemma harden_all_exists q fs : is_Some (fs !! q) -> is_Some (harden_all true db fs !! q).
Proof. intros Hq. unfold harden_all. by repeat apply harden_exists. Qed.

Lemma outside_databases q : q ∉ database_files db -> forall p, p ∈ databases db -> q ∉ db_files p.
Proof. intros Hq p Hp Hin. by apply Hq, (database_file p). Qed.
(** Opening leaves every other entry alone. *)
Lemma connections_other fs q : q ∉ database_files db ->
  sqlite_touch 6 db (harden_all true db (open_connections db fs)) !! q = fs !! q.
Proof using HL.
  intros Hq. pose proof (outside_databases q Hq) as Ho.
  assert (Hd : (q ∉ db_files db) /\ (q ∉ db_files (token_db db)) /\ q ∉ db_files (action_db db))
    by (split; [|split]; apply Ho, list_elem_of_In; cbn; auto).
  destruct Hd as (Hd & Ht & Ha). rewrite sqlite_frame by done. unfold harden_all. rewrite !harden_other by done.
  unfold open_connections. by rewrite !sqlite_frame.
Qed.
Lemma dir_parent : parent db = Some dir.
Proof. unfold parent, db. rewrite removelast_last. by destruct dir. Qed.

Lemma opened fs fs' : open_files true umask db fs = Some fs' ->
  open_inv fs' /\ (forall q, q ∉ database_files db -> q <> dir -> q ∉ prefixes [] dir -> fs' !! q = fs !! q).
Proof using HL.
  unfold open_files, make_dir. rewrite dir_parent.
  destruct (create_dir_all umask dir fs) as [fs1|] eqn:E1; [|done]. cbn [mbind option_bind]. intros [= <-]. split.
  - set (fs2 := harden_all true db _). assert (Hi : open_inv fs2).
    { split; [intros p Hp; by apply harden_all_exists, connections_exist|].
      intros q Hq. apply harden_all_private. by right. }
    assert (Hdb : db ∈ databases db) by (apply list_elem_of_In; by left).
    apply (touch_keeps 6 db fs2 db Hi Hdb). by apply open_database.
  - intros q Hq Hd Hp. rewrite connections_other by done. cbn [set_permissions].
    rewrite <- (create_dir_all_other umask dir fs fs1 q E1 Hp). by apply lookup_alter_ne.
Qed.

(** The files of the store beside the databases: none of them lies on the way to the archives. *)
Definition kept_file (q : Path) : Prop :=
  q ∈ database_files db \/ q = dead_letter_path db \/ exists name, q = archive_path env db name.
Definition apart : Prop := forall q, q ∈ prefixes [] (resolve_archive_dir env db) ->
  q ∉ dead_letter_path db :: database_files db.
Lemma kept_apart q : apart -> kept_file q -> q ∉ prefixes [] (resolve_archive_dir env db).
Proof.
  intros Hap Hq Hin. pose proof (Hap q Hin) as Hout. destruct Hq as [Hq|[->|[name ->]]].
  - apply Hout, elem_of_cons. by right.
  - apply Hout, elem_of_cons. by left.
  - apply prefixes_length in Hin. unfold archive_path in Hin. rewrite length_app in Hin. cbn in Hin. lia.
Qed.

Lemma file_step_keeps op fs q : apart -> open_inv fs -> kept_file q ->
  private fs q \/ op = SpoolFile /\ q = dead_letter_path db ->
  private (file_step true umask env db op fs) q.
Proof using HL.
  intros Hap Hi Hk Hq. destruct op as [k p| |name|]; cbn [file_step].
  - destruct Hq as [Hq|[? _]]; [|done]. case_bool_decide as Hp; [|done]. by apply (touch_keeps k p fs q).
  - apply write_private. destruct Hq as [Hq|[_ ->]]; auto.
  - destruct Hq as [Hq|[? _]]; [|done]. destruct (create_dir_all _ _ fs) as [fs1|] eqn:E; [|done].
    apply write_private. left. intros n. rewrite (create_dir_all_other _ _ _ _ _ E) by by apply kept_apart. apply Hq.
  - destruct Hq as [Hq|[? _]]; [|done]. destruct (fs !! dead_letter_path db) eqn:E; [|done].
    unfold open_create, ensure. by rewrite E.
Qed.
Lemma file_step_inv op fs : apart -> open_inv fs -> open_inv (file_step true umask env db op fs).
Proof using HL.
  intros Hap Hi. pose proof Hi as [He Hf]. split.
  - intros p Hp. pose proof (He p Hp) as Hex. destruct op as [k r| |name|]; cbn [file_step].
    + case_bool_decide; [|done]. apply all_exist_touch; auto.
    + apply set_permissions_exists, ensure_exists. by left.
    + destruct (create_dir_all _ _ fs) as [fs1|] eqn:E; [|done].
      apply set_permissions_exists, ensure_exists. left. eapply create_dir_all_exists; [exact E|by left].
    + destruct (fs !! dead_letter_path db); [|done]. apply ensure_exists. by left.
  - intros q Hq. apply file_step_keeps; auto. by left.
Qed.
Lemma files_run ops fs q : apart -> open_inv fs -> kept_file q ->
  private fs q \/ SpoolFile ∈ ops /\ q = dead_letter_path db ->
  open_inv (foldl (fun fs op => file_step true umask env db op fs) fs ops) /\
  private (foldl (fun fs op => file_step true umask env db op fs) fs ops) q.
Proof using HL.
  intros Hap. revert fs. induction ops as [|op ops IH]; intros fs Hi Hk Hq; cbn.
  { destruct Hq as [Hq|[Hin _]]; [done|by apply elem_of_nil in Hin]. }
  apply IH; [by apply file_step_inv|done|]. destruct Hq as [Hq|[Hin ->]].
  - left. apply file_step_keeps; auto.
  - apply elem_of_cons in Hin as [<-|Hin]; [left; apply file_step_keeps; auto|by right].
Qed.
Lemma opened_dir fs fs' : open_files true umask db fs = Some fs' -> dir <> [] ->
  exists n, fs' !! dir = Some n /\ n_mode n = DIR_MODE.
Proof using HL.
  unfold open_files, make_dir. rewrite dir_parent.
  destruct (create_dir_all umask dir fs) as [fs1|] eqn:E1; [|done]. cbn [mbind option_bind]. intros [= <-] Hd.
  rewrite connections_other.
  - cbn [set_permissions]. rewrite lookup_alter_eq.
    destruct (create_dir_all_exists _ _ _ _ dir E1) as [n ->]; [right; by apply (prefixes_last [])|]. by eexists.
  - intros Hin. apply list_elem_of_bind in Hin as (p & Hq & Hp). rewrite databases_beside in Hp.
    assert (Hlen : length dir = length dir + 1); [|lia]. apply list_elem_of_In in Hp, Hq.
    destruct Hp as [<-|[<-|[<-|[]]]]; rewrite files_beside in Hq;
      destruct Hq as [E|[E|[E|[]]]]; apply (f_equal length) in E; rewrite length_app in E; cbn in E; lia.
Qed.
End WithLaws.

(** [C36] The files of the store are for their owner only.  When the permissions can be set, the
    directory is closed and every file of the three databases is private once the store is open,
    and stays so whatever SQLite, spooling, rotations and reimports then do, whatever the umask
    and the permissions before; the dead-letter file and the archives stay private once they are,
    and the dead-letter file is from the first event spooled. *)
Theorem store_files_private `{SqliteFilesLaws} dir umask env fs fs' ops
  (Hap : apart dir env) (Hopen : open_files true umask (dir ++ ["guard.db"]) fs = Some fs') :
  let db := (dir ++ ["guard.db"])%list in
  let fs2 := foldl (fun fs op => file_step true umask env db op fs) fs' ops in
  (dir <> [] -> exists n, fs' !! dir = Some n /\ n_mode n = DIR_MODE) /\
  (forall q n, q ∈ database_files db -> fs2 !! q = Some n -> n_mode n = FILE_MODE) /\
  (forall q, kept_file dir env q -> private fs' q -> private fs2 q) /\
  (SpoolFile ∈ ops -> private fs2 (dead_letter_path db)).
Proof.
  cbv zeta. destruct (opened dir umask fs fs' Hopen) as [Hi _]. split; [by eapply opened_dir|].
  pose proof (fun q => files_run dir umask env ops fs' q Hap Hi) as Hrun. split; [|split].
  - intros q n Hq. apply Hrun; [by left|]. left. by apply Hi.
  - intros q Hq Hp. apply Hrun; auto.
  - intros Hin. apply Hrun; [right; by left|]. auto.
Qed.

(** *** An instance *)

(** A SQLite that opens the database and keeps both companions. *)
Definition toy_touch (p : Path) (fs : Fs) : Fs :=
  let n := default (mkInode false 420) (fs !! p) in
  ensure n (push_suffix p "-shm") (ensure n (push_suffix p "-wal") (ensure n p fs)).
#[local] Instance toy_sqlite : SqliteFiles := fun _ => toy_touch.
Lemma ensure_modes n p q fs m : ensure n p fs !! q = Some m ->
  fs !! q = Some m \/ fs !! q = None /\ q = p /\ m = n.
Proof.
  unfold ensure. destruct (fs !! p) eqn:E; [by left|]. destruct (decide (q = p)) as [->|Hne].
  - rewrite lookup_insert_eq. intros [= <-]. by right.
  - rewrite lookup_insert_ne by done. by left.
Qed.
Lemma ensure_keeps n p q m fs : fs !! q = Some m -> ensure n p fs !! q = Some m.
Proof.
  unfold ensure. destruct (fs !! p) eqn:E; [done|]. intros Hq. rewrite lookup_insert_ne; [done|congruence].
Qed.
Lemma toy_main p fs : toy_touch p fs !! p = Some (default (mkInode false 420) (fs !! p)).
Proof.
  unfold toy_touch. do 2 apply ensure_keeps. unfold ensure. destruct (fs !! p) eqn:E; [done|]. apply lookup_insert_eq.
Qed.
#[local] Instance toy_sqlite_laws : SqliteFilesLaws.
Proof.
  split; unfold sqlite_touch, toy_sqlite.
  - intros _ p fs q Hq. unfold db_files in Hq. rewrite !not_elem_of_cons in Hq. destruct Hq as (Hp & Hw & Hs & _).
    unfold toy_touch. by rewrite !ensure_other.
  - intros _ p fs. rewrite toy_main. by eexists.
  - intros _ p fs n Hn. by rewrite toy_main, Hn.
  - intros _ p fs q n Hq. rewrite toy_main. unfold toy_touch in Hq.
    destruct (fs !! q) as [m|] eqn:Efs.
    { left. by rewrite (ensure_keeps _ _ _ m) in Hq by by do 2 apply ensure_keeps. }
    right. split; [done|]. right. eexists. split; [done|]. f_equal.
    do 3 (apply ensure_modes in Hq as [Hq|(_ & _ & ->)]; [|done]). congruence.
Qed.

Definition loose : Fs := <[["home"; "guard.db"] := mkInode false 420]> ∅.
Definition opened_home : Fs := default ∅ (open_files true 18 ["home"; "guard.db"] loose).
Definition some_ops : list FileOp :=
  [SpoolFile; Use 9 ["home"; "token.db"]; ArchiveFile "audit-1.ndjson"; ClearDead].
Lemma store_files_private_witness :
  let fs2 := foldl (fun fs op => file_step true 18 None ["home"; "guard.db"] op fs) opened_home some_ops in
  n_mode <$> fs2 !! ["home"; "guard.db-wal"] = Some FILE_MODE /\
  private fs2 ["home"; "guard.deadletter"].
Proof.
  destruct (store_files_private ["home"] 18 None loose opened_home some_ops) as (_ & _ & _ & Hs).
  - intros q Hq%list_elem_of_In Hin%list_elem_of_In. vm_compute in Hq, Hin.
    decompose [or] Hq; decompose [or] Hin; subst; try done; congruence.
  - unfold opened_home. cbn [app].
    assert (E : match open_files true 18 ["home"; "guard.db"] loose with Some _ => true | None => false end = true)
      by (vm_compute; reflexivity).
    destruct (open_files _ _ _ _); [reflexivity|discriminate E].
  - split; [vm_compute; reflexivity|]. apply Hs, elem_of_cons. by left.
Defined.
End FilesSpec.
