(* ===== verification/Wire.v ===== *)
(** * The JSON forms of the program's types (the derives of serde)

    Field names, order, renaming and defaults as the derive attributes of fg-core, fg-rules,
    fg-redact and fg-store give them.  A [_doc] is what [serde_json::to_string] prints, in the
    order of the declaration; a [_value] is what [to_value] builds.  From them come the codecs
    the stores are parameterised by. *)
From S2P Require Import Prelude Json Core Pattern Rules Redact Tokens Chain ChainSpec Actions.
From S2P Require Import Ledger.

Module Wire.
Import Json Rules Redact Chain Ledger.

(** *** Enums *)

Definition risk_name (r : RiskLevel) : string :=
  match r with L1 => "l1" | L2 => "l2" | L3 => "l3" | L4 => "l4" end.
Definition action_name (a : SafetyAction) : string :=
  match a with Allow => "allow" | Preview => "preview" | Core.Redact => "redact" | Block => "block" end.
Definition stage_name (s : CheckStage) : string :=
  match s with Regex => "regex" | Ast => "ast" | Core.Semantic => "semantic" end.
Definition scope_name (s : RuleScope) : string :=
  match s with
  | Command => "command" | Content => "content" | Network => "network" | Filesystem => "filesystem"
  end.
Definition tag_name (t : ValidatorTag) : string :=
  match t with
  | TagNone => "none" | Ipv4 => "ipv4" | AwsSecret => "aws_secret" | Luhn => "luhn"
  | Phone => "phone" | IdCard => "id_card"
  end.
(** The variant of a list whose name is the decoded one. *)
Definition of_name {A} (name : A -> string) (all : list A) (v : Value) : option A :=
  s ← variant v; List.find (fun a => String.eqb (name a) s) all.
Definition risk_of : Value -> option RiskLevel := of_name risk_name [L1; L2; L3; L4].
Definition action_of : Value -> option SafetyAction :=
  of_name action_name [Allow; Preview; Core.Redact; Block].
Definition stage_of : Value -> option CheckStage :=
  of_name stage_name [Regex; Ast; Core.Semantic].
Definition scope_of : Value -> option RuleScope :=
  of_name scope_name [Command; Content; Network; Filesystem].

(** *** Rules *)

Definition rule_entries (r : GuardRule) : list (string * Value) :=
  [("name", Str (name r)); ("pattern", Str (pattern r)); ("stage", Str (stage_name (r_stage r)));
   ("action", Str (action_name (r_action r))); ("risk_level", Str (risk_name (r_risk r)));
   ("reason", Str (r_reason r)); ("scope", Str (scope_name (scope r)))].
Definition rule_doc (r : GuardRule) : Value := Obj (rule_entries r).
Definition rule_value (r : GuardRule) : Value := obj (rule_entries r).
Definition rule_names : list string :=
  ["name"; "pattern"; "stage"; "action"; "risk_level"; "reason"; "scope"].
Definition rule_of_value (v : Value) : option GuardRule :=
  fs ← struct_fields rule_names v;
  match fs with
  | [f1; f2; f3; f4; f5; f6; f7] =>
      n ← req as_str f1; p ← req as_str f2; st ← req stage_of f3; a ← req action_of f4;
      rk ← req risk_of f5; w ← req as_str f6; sc ← req scope_of f7;
      Some (mkRule n p st a rk w sc)
  | _ => None
  end.

(** *** Verdicts *)

(** The hint is left out when it is absent. *)
Definition verdict_entries (v : GuardVerdict) : list (string * Value) :=
  [("action", Str (action_name (action v))); ("risk_level", Str (risk_name (risk_level v)));
   ("reason", Str (reason v)); ("stage", Str (stage_name (stage v)));
   ("requires_approval", Bool (requires_approval v));
   ("redacted_content", opt_value Str (redacted_content v));
   ("seatbelt_required", Bool (seatbelt_required v));
   ("action_id", opt_value Str (action_id v)); ("verdict_epoch", u64_value (verdict_epoch v));
   ("verdict_ttl_secs", u64_value (verdict_ttl_secs v));
   ("inferred_category", Str (inferred_category v))]
  ++ match category_hint v with Some h => [("category_hint", Str h)] | None => [] end.
Definition verdict_doc (v : GuardVerdict) : Value := Obj (verdict_entries v).
Definition verdict_value (v : GuardVerdict) : Value := obj (verdict_entries v).
Definition verdict_names : list string :=
  ["action"; "risk_level"; "reason"; "stage"; "requires_approval"; "redacted_content";
   "seatbelt_required"; "action_id"; "verdict_epoch"; "verdict_ttl_secs"; "inferred_category";
   "category_hint"].
Section WithRows.
Context `{RowCodec}.

Definition uuid_of (v : Value) : option string := s ← as_str v; parse_uuid s.
Definition verdict_of_value (v : Value) : option GuardVerdict :=
  fs ← struct_fields verdict_names v;
  match fs with
  | [f1; f2; f3; f4; f5; f6; f7; f8; f9; f10; f11; f12] =>
      a ← req action_of f1; rk ← req risk_of f2; w ← req as_str f3; st ← req stage_of f4;
      ap ← req as_bool f5; rc ← opt as_str f6; sb ← req as_bool f7; id ← opt uuid_of f8;
      ep ← req as_u64 f9; ttl ← req u32_of f10; cat ← req as_str f11;
      h ← dflt None (of_option as_str) f12;
      Some (mkVerdict a rk w st ap rc sb id ep ttl cat h)
  | _ => None
  end.

(** The verdicts the Rust type has: its integers fit and its id is the text of a UUID. *)
Definition verdict_wf (v : GuardVerdict) : Prop :=
  u64_fits (verdict_epoch v) /\ (0 <= verdict_ttl_secs v < 2 ^ 32)%Z /\
  match action_id v with Some id => parse_uuid id = Some id | None => True end.

End WithRows.

(** *** Records of the audit store *)

Definition tcc_record_value (now : string) `{RowCodec} (r : TccRow) : Value :=
  obj [("audit_id", Str (default NIL_UUID (parse_uuid (tcc_id r))));
       ("ts", Str (default now (parse_ts (tcc_ts r)))); ("permission", Str (permission r));
       ("requester", Str (tcc_requester r)); ("result", Str (tcc_result r));
       ("reason", Str (tcc_reason r))].
(** [ChainVerification] and [SubChainVerification] *)
Definition chain_value (c : ChainVerification) : Value :=
  obj [("total_rows", usize_value (total_rows c)); ("unhashed_rows", usize_value (unhashed_rows c));
       ("verified_links", usize_value (verified_links c));
       ("broken_links", usize_value (broken_links c)); ("tampered", Bool (tampered c));
       ("first_broken_at", opt_value usize_value (first_broken_at c));
       ("key_version_unknown_rows", usize_value (key_version_unknown_rows c))].
Definition all_chains_value (a : AllChainsVerification) : Value :=
  obj [("audit", chain_value (a_audit a)); ("tcc", chain_value (a_tcc a));
       ("rules", chain_value (a_rules a)); ("dead_letter", chain_value (a_dead a));
       ("tampered", Bool (a_tampered a)); ("key_loss", Bool (a_key_loss a))].

(** *** Codecs *)

(** [to_string] and [from_str] on [GuardVerdict] and on [GuardRule]. *)
Definition json_verdict_codec `{JsonText, RowCodec} : VerdictCodec := {|
  verdict_to_json v := json_text (verdict_doc v);
  verdict_of_json s := ok_or "verdict json" (json_parse s ≫= verdict_of_value)
|}.
Definition rule_json `{JsonText} (r : GuardRule) : string := json_text (rule_doc r).
Definition rule_unjson `{JsonText} (s : string) : option GuardRule := json_parse s ≫= rule_of_value.

End Wire.

(** ** Round trips *)
Module WireSpec.
Import Json JsonFacts Rules Redact Chain Wire.

(** Looking up the fields of a struct in the map built from its entries. *)
Lemma count_key_NoDup k es : NoDup (es.*1) -> count_key k es <= 1.
Proof.
  unfold count_key. induction es as [|[k1 v1] es IH]; cbn; [lia|]. intros [Hni Hnd]%NoDup_cons.
  destruct (String.eqb_spec k k1) as [->|]; [|auto]. cbn.
  assert (List.filter (fun e => String.eqb k1 e.1) es = []) as ->; [|cbn; lia].
  clear IH Hnd. induction es as [|[k2 v2] es IH]; cbn; [done|]. cbn in Hni.
  destruct (String.eqb_spec k1 k2) as [->|]; [exfalso; apply Hni; by left|].
  apply IH. intros Hin. apply Hni. by right.
Qed.
Lemma struct_fields_NoDup names es : NoDup (es.*1) ->
  struct_fields names (Obj es) =
  Some (List.map (fun n => match lookup_key n es with Some v => Found v | None => Missing end) names).
Proof.
  intros Hnd. unfold struct_fields. rewrite (proj2 (existsb_false _ _)); [done|]. intros n _.
  apply Nat.ltb_ge. by apply count_key_NoDup.
Qed.
Lemma struct_fields_obj names es : NoDup (es.*1) ->
  struct_fields names (obj es) = struct_fields names (Obj es).
Proof.
  intros Hnd. unfold obj. rewrite !struct_fields_NoDup; [|done|apply keys_sorted_NoDup, map_of_sorted].
  f_equal. apply map_ext. intros n. rewrite lookup_map_of.
  by rewrite (lookup_key_perm n es (reverse es)) by (done || by rewrite reverse_Permutation).
Qed.

Lemma risk_of_name r : risk_of (Str (risk_name r)) = Some r.
Proof. by destruct r. Qed.
Lemma action_of_name a : action_of (Str (action_name a)) = Some a.
Proof. by destruct a. Qed.
Lemma stage_of_name s : stage_of (Str (stage_name s)) = Some s.
Proof. by destruct s. Qed.
Lemma scope_of_name s : scope_of (Str (scope_name s)) = Some s.
Proof. by destruct s. Qed.
Lemma of_option_value {A} (f : Value -> option A) (g : A -> Value) o :
  (forall a, o = Some a -> f (g a) = Some a /\ g a <> Null) -> of_option f (opt_value g o) = Some o.
Proof.
  destruct o as [a|]; [|done]. intros H. destruct (H a eq_refl) as [E Hn]. cbn. unfold of_option.
  destruct (g a); try done; by rewrite E.
Qed.

Lemma rule_doc_roundtrip r : rule_of_value (rule_doc r) = Some r.
Proof. destruct r as [n p [] [] [] w []]; reflexivity. Qed.
Lemma rule_value_roundtrip r : rule_of_value (rule_value r) = Some r.
Proof.
  unfold rule_of_value, rule_value. rewrite struct_fields_obj; [apply rule_doc_roundtrip|].
  apply (bool_decide_unpack _). reflexivity.
Qed.

Section WithRows.
Context `{RowCodec}.

Lemma verdict_entries_NoDup v : NoDup ((verdict_entries v).*1).
Proof. apply (bool_decide_unpack _). destruct v as [? ? ? ? ? ? ? ? ? ? ? []]; reflexivity. Qed.
Lemma verdict_doc_roundtrip v : verdict_wf v -> verdict_of_value (verdict_doc v) = Some v.
Proof.
  intros (_ & Httl & Hid). destruct v as [a rk w st ap rc sb id ep ttl cat h].
  cbn [action_id verdict_ttl_secs] in *.
  unfold verdict_of_value, verdict_doc.
  rewrite struct_fields_NoDup by apply verdict_entries_NoDup.
  destruct h as [h|]; cbn -[risk_of action_of stage_of uuid_of Z.ltb Z.pow];
    rewrite action_of_name, risk_of_name, stage_of_name; cbn -[uuid_of Z.ltb Z.pow];
    (destruct rc; cbn -[uuid_of Z.ltb Z.pow]; destruct id; cbn -[Z.ltb Z.pow]; rewrite ?Hid;
     cbn -[Z.ltb Z.pow]; rewrite (proj2 (Z.ltb_lt _ _)) by lia; reflexivity).
Qed.
Lemma verdict_value_roundtrip v : verdict_wf v -> verdict_of_value (verdict_value v) = Some v.
Proof.
  intros Hwf. rewrite <- (verdict_doc_roundtrip v Hwf). unfold verdict_of_value, verdict_value.
  by rewrite struct_fields_obj by apply verdict_entries_NoDup.
Qed.

Lemma verdict_entries_printable d v : verdict_wf v ->
  forallb (fun e => printable d e.2) (verdict_entries v) = true.
Proof.
  intros (Hep & Httl & _). assert (Httl' : u64_fits (verdict_ttl_secs v)) by (split; lia).
  pose proof (number_ok_u64 _ Hep) as E1. pose proof (number_ok_u64 _ Httl') as E2.
  unfold verdict_entries, u64_value. rewrite forallb_app.
  cbn [forallb printable snd]. rewrite E1, E2.
  destruct v as [a rk w st ap [rc|] sb [id|] ep ttl cat [h|]]; done.
Qed.
Lemma verdict_value_normal v : normal (verdict_value v) = true.
Proof.
  apply normal_obj. destruct v as [a rk w st ap [rc|] sb [id|] ep ttl cat [h|]]; done.
Qed.
End WithRows.

End WireSpec.
