(* ===== verification/Engine.v ===== *)
(** * The audit engine (fg-audit-engine/src/lib.rs)

    The component that ties the others together: it evaluates content into a verdict, keeps
    the verdicts that need a decision, redacts and reveals, confirms, answers audit events,
    and changes the rules on disk and in memory.  The clock, the new UUIDs and nonces, and
    the SQL statements that fail are arguments. *)
From S2P Require Import Prelude Core Pattern Tokenizer Semantic Rules Redact Tokens Chain Actions.
From S2P Require Import Ledger.

Module Engine.
Import Tokenizer Rules Redact Tokens Chain Actions Ledger.

(** How a call can fail: by a panic of the code, or with an error. *)
Inductive Failure : Type :=
| Panicked
| Failed (e : GuardError).

(** [GuardError]'s and [RuleError]'s [Display] where the engine prints them. *)
Definition engine_error_text (msg : string) : string := "rule engine internal failure: " +:+ msg.
Definition rule_error_text (e : RuleError) : string :=
  match e with
  | RegexError m => "regex compile failed: " +:+ m
  | NotFound n => "rule not found: " +:+ n
  | Duplicate n => "duplicate rule name: " +:+ n
  end.

(** *** Verdict fields *)
Definition set_action (a : SafetyAction) (v : GuardVerdict) : GuardVerdict :=
  mkVerdict a (risk_level v) (reason v) (stage v) (requires_approval v) (redacted_content v)
    (seatbelt_required v) (action_id v) (verdict_epoch v) (verdict_ttl_secs v)
    (inferred_category v) (category_hint v).
Definition set_risk (r : RiskLevel) (v : GuardVerdict) : GuardVerdict :=
  mkVerdict (action v) r (reason v) (stage v) (requires_approval v) (redacted_content v)
    (seatbelt_required v) (action_id v) (verdict_epoch v) (verdict_ttl_secs v)
    (inferred_category v) (category_hint v).
Definition set_redacted (c : option string) (v : GuardVerdict) : GuardVerdict :=
  mkVerdict (action v) (risk_level v) (reason v) (stage v) (requires_approval v) c
    (seatbelt_required v) (action_id v) (verdict_epoch v) (verdict_ttl_secs v)
    (inferred_category v) (category_hint v).
Definition set_action_id (i : option string) (v : GuardVerdict) : GuardVerdict :=
  mkVerdict (action v) (risk_level v) (reason v) (stage v) (requires_approval v)
    (redacted_content v) (seatbelt_required v) i (verdict_epoch v) (verdict_ttl_secs v)
    (inferred_category v) (category_hint v).
Definition set_category (c : string) (v : GuardVerdict) : GuardVerdict :=
  mkVerdict (action v) (risk_level v) (reason v) (stage v) (requires_approval v)
    (redacted_content v) (seatbelt_required v) (action_id v) (verdict_epoch v)
    (verdict_ttl_secs v) c (category_hint v).
Definition set_hint (h : option string) (v : GuardVerdict) : GuardVerdict :=
  mkVerdict (action v) (risk_level v) (reason v) (stage v) (requires_approval v)
    (redacted_content v) (seatbelt_required v) (action_id v) (verdict_epoch v)
    (verdict_ttl_secs v) (inferred_category v) h.

(** [hint_risk_floor] *)
Definition hint_risk_floor (hint : string) : option RiskLevel :=
  if mem_str hint ["shell_exec"; "network"; "file_write"] then Some L2 else None.

(** The part of [evaluate] that takes the caller's hint into account. *)
Definition apply_hint (hint : option string) (v : GuardVerdict) : GuardVerdict :=
  let v := set_hint hint v in
  match hint ≫= hint_risk_floor with
  | Some floor_risk =>
      if risk_gtb floor_risk (risk_level v) then
        let v := set_risk floor_risk v in
        if bool_decide (action v = Allow) then set_action Redact v else v
      else v
  | None => v
  end.
(** The part of [evaluate] that takes sensitive content into account. *)
Definition apply_redaction (redacted : string) (hit_count : nat) (v : GuardVerdict)
  : GuardVerdict :=
  if Nat.ltb 0 hit_count then
    let v := if bool_decide (action v = Allow) then set_risk L2 (set_action Redact v) else v in
    set_redacted (Some redacted) v
  else v.
Definition needs_decision (v : GuardVerdict) : bool :=
  requires_approval v || bool_decide (action v = Block).

(** [str::replace] for a pattern that is not empty; [skip] counts the bytes of an
    occurrence still to be passed over. *)
Fixpoint replace_go (pat to : string) (skip : nat) (s : string) : string :=
  match s with
  | EmptyString => ""
  | String c s' =>
      match skip with
      | S k => replace_go pat to k s'
      | 0 => if String.prefix pat s then to +:+ replace_go pat to (String.length pat - 1) s'
             else String c (replace_go pat to 0 s')
      end
  end.
Definition str_replace (pat to s : string) : string := replace_go pat to 0 s.

Record RedactResult : Type := mkRedactResult {
  rr_content : string;
  token_map_id : option string
}.
Record AuditDecision : Type := mkDecision {
  decision : string;
  d_reason : string;
  d_risk : nat;
  d_audit_id : string;
  d_trigger : string
}.

(** New ids of the rows of the mutation chain a call may write, in order, and the time. *)
Record MutIds : Type := mkMutIds { mut_id : nat -> string; mut_time : string }.

Section WithParams.
Context `{RegexEngine, ShellEnv, Grammars, Crypto, RowCodec, VerdictCodec, StoreCodec}.

Record AuditEngine : Type := mkEngine {
  e_rules : Inner;
  e_redactor : Redactor;
  e_store : Store
}.
Definition with_rules_store (r : Inner) (s : Store) (g : AuditEngine) : AuditEngine :=
  mkEngine r (e_redactor g) s.
Definition with_store (s : Store) (g : AuditEngine) : AuditEngine :=
  with_rules_store (e_rules g) s g.

(** [AuditEngine::new]: an empty or missing rule set is seeded with the default one.
    [f i] is the fault of the [i]-th rule's statements, [fe] that of the epoch's. *)
Fixpoint seed_rules (ids : MutIds) (f : nat -> Fault) (i : nat) (rs : list GuardRule) (s : Store)
  : Store * result GuardError () :=
  match rs with
  | [] => (s, Ok ())
  | r :: rs' =>
      match save_rule (f i) (mut_id ids i) (mut_time ids) r s with
      | (s', Err e) => (s', Err (Engine ("seed rule persist failed: " +:+ e)))
      | (s', Ok _) => seed_rules ids f (S i) rs' s'
      end
  end.
Definition boot_rules (ids : MutIds) (f : nat -> Fault) (fe : Fault) (s : Store)
  : Store * result GuardError RuleSet :=
  match load_rules s with
  | Err e => (s, Err (Engine e))
  | Ok o =>
      let persisted := o ≫= fun rs => match rs_rules rs with [] => None | _ => Some rs end in
      match persisted with
      | Some rs => (s, Ok rs)
      | None =>
          let rs := default_ruleset in
          match seed_rules ids f 0 (rs_rules rs) s with
          | (s', Err e) => (s', Err e)
          | (s', Ok _) =>
              match save_epoch fe (mut_id ids (length (rs_rules rs))) (mut_time ids)
                      (rs_epoch rs) s' with
              | (s'', Err e) => (s'', Err (Engine ("seed epoch persist failed: " +:+ e)))
              | (s'', Ok _) => (s'', Ok rs)
              end
          end
      end
  end.
Definition engine_open (ids : MutIds) (f : nat -> Fault) (fe : Fault) (s : Store)
  : Store * result GuardError AuditEngine :=
  match boot_rules ids f fe s with
  | (s', Err e) => (s', Err e)
  | (s', Ok rs) =>
      (s', inner ← map_err (fun e => Engine (rule_error_text e)) (engine_new rs);
           rd ← map_err Engine redactor_new;
           mret (mkEngine inner rd s'))
  end.

(** [AuditEngine::evaluate]; [uuid] is the new action id, [now] the clock and [put_fault]
    the error of storing the pending action, if it fails. *)
Definition evaluate (uuid : string) (now : Z) (put_fault : option string) (content : string)
    (caller_epoch : Z) (tenant : string) (ct : ContentType) (hint : option string)
    (g : AuditEngine) : AuditEngine * result Failure GuardVerdict :=
  match check_epoch caller_epoch (e_rules g) with
  | Err e => (g, Err (Failed e))
  | Ok _ =>
      match evaluate_full_typed content ct (e_rules g) with
      | Err Panic => (g, Err Panicked)
      | Ok hits =>
          let v := apply_hint hint (verdict_from_hits hits (epoch (e_rules g))) in
          let v := set_category (match hits with
                                 | [] => infer_category content
                                 | _ => infer_category_from_hits hits
                                 end) v in
          match redact_counted (e_redactor g) content with
          | Err Panic => (g, Err Panicked)
          | Ok (redacted, hit_count) =>
              let v := apply_redaction redacted hit_count v in
              if needs_decision v then
                let v := set_action_id (Some uuid) v in
                match put_fault with
                | Some e => (g, Err (Failed (Engine ("pending action persist failed: " +:+ e))))
                | None =>
                    (with_store (with_actions (put now v tenant (actions (e_store g))) (e_store g)) g,
                     Ok v)
                end
              else (g, Ok v)
          end
      end
  end.

(** [redact_tenant]; a token that cannot be stored is logged and skipped. *)
Fixpoint put_tokens (rnd : nat -> string) (now : Z) (tenant : string) (i : nat)
    (ms : list ReversibleMatch) (t : TokenStore) : TokenStore :=
  match ms with
  | [] => t
  | m :: ms' =>
      put_tokens rnd now tenant (S i) ms'
        (put_tenant (rnd i) now (token_id m) (original m) tenant t).1
  end.
Definition redact_tenant (fresh rnd : nat -> string) (now : Z) (content : string)
    (reversible : bool) (tenant : string) (g : AuditEngine)
  : AuditEngine * result panic RedactResult :=
  let t := (Tokens.evict_expired now (toks (e_store g))).1 in
  let g := with_store (with_toks t (e_store g)) g in
  if reversible then
    match redact_reversible fresh (e_redactor g) content with
    | Err p => (g, Err p)
    | Ok (redacted, matches) =>
        (with_store (with_toks (put_tokens rnd now tenant 0 matches t) (e_store g)) g,
         Ok (mkRedactResult redacted (token_id <$> head matches)))
    end
  else (g, out ← redact_irreversible (e_redactor g) content; mret (mkRedactResult out None)).

(** [reveal_tenant]: one placeholder, then the loop.  On a panic the token stays marked as
    in flight. *)
Definition placeholder_text (kind token_id : string) : string :=
  "[REDACTED:" +:+ kind +:+ "#" +:+ token_id +:+ "]".
Definition reveal_one (now : Z) (tenant : string) (p : string * string)
    (st : TokenStore * string) : TokenStore * result panic string :=
  let '(kind, tid) := p in
  let '(t, restored) := st in
  let '(t, got) := get_tenant now tid tenant (set_in_flight tid true t) in
  match got with
  | Ok original =>
      (set_in_flight tid false t, Ok (str_replace (placeholder_text kind tid) original restored))
  | Err _ =>
      match slice_to 8 tid with
      | Err p => (t, Err p)
      | Ok short =>
          (set_in_flight tid false t,
           Ok (str_replace (placeholder_text kind tid)
                 ("[REDACTED:unrecoverable#" +:+ short +:+ "]") restored))
      end
  end.
Fixpoint reveal_loop (now : Z) (tenant : string) (ps : list (string * string))
    (st : TokenStore * string) : TokenStore * result panic string :=
  match ps with
  | [] => (st.1, Ok st.2)
  | p :: ps' =>
      match reveal_one now tenant p st with
      | (t, Err e) => (t, Err e)
      | (t, Ok s) => reveal_loop now tenant ps' (t, s)
      end
  end.
Definition reveal_tenant (now : Z) (content tenant : string) (g : AuditEngine)
  : AuditEngine * result panic string :=
  let t := (Tokens.evict_expired now (toks (e_store g))).1 in
  let '(t', res) :=
    match extract_placeholders content with
    | Err p => (t, Err p)
    | Ok ps => reveal_loop now tenant ps (t, content)
    end in
  (with_store (with_toks t' (e_store g)) g, res).

(** [confirm]: eviction, then the atomic confirmation.  The error is the
    [ActionError] itself, before the engine turns it into the text of a
    [GuardError::Engine]. *)
Definition confirm (uuid time : string) (now : Z) (id : string) (approved : bool)
    (approved_by tenant : string) (g : AuditEngine)
  : AuditEngine * result ActionError GuardVerdict :=
  let s := e_store g in
  let t := (Actions.evict_expired now (actions s)).1 in
  let '((t', db), res) := confirm_atomic uuid time now id approved approved_by tenant
                            (key (toks s)) (current_version (toks s)) (t, audit s) in
  (with_store (with_actions t' (with_audit db s)) g, res).

(** [audit_event]; [payload] is the text of the JSON value, [None] for null.  The text of a
    failing append has the prefix only, without the message of the SQL error. *)
Definition audit_content (event_type target_path target_agent node_id : string)
    (payload : option string) : string :=
  let nl := String (ascii_of_nat 10) "" in
  let head := target_path +:+ nl +:+ event_type +:+ nl +:+ target_agent +:+ nl +:+ node_id in
  let text := default "" payload in
  if str_empty text then head else head +:+ nl +:+ text.
Definition decision_of (v : GuardVerdict) : string :=
  match action v with
  | Block => "block"
  | _ => if requires_approval v then "challenge" else "pass"
  end.
Definition audit_event (uuid : string) (now : Z) (put_fault : option string)
    (ev_id ev_time : string) (spool_ok : bool) (rt : Retention)
    (trigger event_type target_path target_agent : string) (payload : option string)
    (node_id tenant who : string) (g : AuditEngine) : AuditEngine * result Failure AuditDecision :=
  let content := audit_content event_type target_path target_agent node_id payload in
  match evaluate uuid now put_fault content 0 tenant Text None g with
  | (g', Err e) => (g', Err e)
  | (g', Ok v) =>
      match append_event ev_id ev_time tenant v (default "" (redacted_content v)) who spool_ok rt
              (e_store g') with
      | (s, Err _) => (with_store s g', Err (Failed (Engine "audit append failed")))
      | (s, Ok ev) =>
          (with_store s g',
           Ok (mkDecision (decision_of v) (reason v) (rank (risk_level v)) (audit_id ev) trigger))
      end
  end.

(** [persist] *)
Definition persist (f : Fault) (uuid time : string) (e : Z) (s : Store)
  : Store * result GuardError () :=
  let '(s', r) := save_epoch f uuid time e s in (s', map_err Engine r).
Definition epoch_persist_failed (e : GuardError) : RuleError :=
  NotFound ("epoch persist failed: " +:+
            match e with Engine m => engine_error_text m | _ => "" end).

(** [add_rule]; [f1], [f2] and [f3] are the faults of writing the rule, of removing it
    again and of writing the epoch. *)
Definition add_rule (ids : MutIds) (f1 f2 f3 : Fault) (r : GuardRule) (g : AuditEngine)
  : AuditEngine * result RuleError Z :=
  match save_rule f1 (mut_id ids 0) (mut_time ids) r (e_store g) with
  | (s, Err e) => (with_store s g, Err (NotFound ("persist failed: " +:+ e)))
  | (s, Ok _) =>
      match add r (e_rules g) with
      | (_, Err e) =>
          (with_store (delete_rule f2 (mut_id ids 1) (mut_time ids) (name r) s).1 g, Err e)
      | (inner, Ok e) =>
          match persist f3 (mut_id ids 1) (mut_time ids) e s with
          | (s, Err err) =>
              (with_rules_store (remove (name r) inner).1
                 (delete_rule f2 (mut_id ids 2) (mut_time ids) (name r) s).1 g,
               Err (epoch_persist_failed err))
          | (s, Ok _) => (with_rules_store inner s g, Ok e)
          end
      end
  end.

(** [update_rule]; [f2] is the fault of removing the old name, [f4] that of the rollback. *)
Definition update_rule (ids : MutIds) (f1 f2 f3 f4 : Fault) (n : string) (r : GuardRule)
    (g : AuditEngine) : AuditEngine * result RuleError Z :=
  match save_rule f1 (mut_id ids 0) (mut_time ids) r (e_store g) with
  | (s, Err e) => (with_store s g, Err (NotFound ("persist failed: " +:+ e)))
  | (s, Ok _) =>
      let renamed := negb (String.eqb n (name r)) in
      let s := if renamed then (delete_rule f2 (mut_id ids 1) (mut_time ids) n s).1 else s in
      match update n r (e_rules g) with
      | (_, Err e) =>
          (with_store (if renamed
                       then (delete_rule f4 (mut_id ids 2) (mut_time ids) (name r) s).1 else s) g,
           Err e)
      | (inner, Ok e) =>
          match persist f3 (mut_id ids 2) (mut_time ids) e s with
          | (s, Err err) => (with_rules_store inner s g, Err (epoch_persist_failed err))
          | (s, Ok _) => (with_rules_store inner s g, Ok e)
          end
      end
  end.

(** [remove_rule] *)
Definition remove_rule (ids : MutIds) (f1 f2 : Fault) (n : string) (g : AuditEngine)
  : AuditEngine * result RuleError Z :=
  match delete_rule f1 (mut_id ids 0) (mut_time ids) n (e_store g) with
  | (s, Err e) => (with_store s g, Err (NotFound ("persist failed: " +:+ e)))
  | (s, Ok _) =>
      match remove n (e_rules g) with
      | (_, Err e) => (with_store s g, Err e)
      | (inner, Ok e) =>
          match persist f2 (mut_id ids 1) (mut_time ids) e s with
          | (s, Err err) => (with_rules_store inner s g, Err (epoch_persist_failed err))
          | (s, Ok _) => (with_rules_store inner s g, Ok e)
          end
      end
  end.

(** [report_tcc] *)
Definition report_tcc (uuid time perm who res why : string) (g : AuditEngine)
  : AuditEngine * string :=
  (with_store (report_tcc_event uuid time perm who res why (e_store g)) g, uuid).

End WithParams.
End Engine.
