(* ===== verification/EngineSpec.v ===== *)
(** * Properties of the audit engine

    What an evaluation decides and keeps, the effect of the caller's hint, the way from an
    evaluation to its confirmation, isolation of tenants when text is revealed, and the
    agreement of the rules on disk with the rules in memory. *)
From S2P Require Import Prelude Core Pattern Tokenizer Semantic Rules Redact Tokens Chain ChainSpec.
From S2P Require Import Actions Ledger LedgerSpec Engine.

Module EngineSpec.
Import Tokenizer Rules RulesSpec Redact Tokens Chain Actions Ledger Engine.

(** ** Evaluation *)

(** Some hit of the list blocks. *)
Definition some_block (hits : list RuleHit) : Prop :=
  exists h, In h hits /\ r_action (rule h) = Block.
(** The least risk a hint asks for, as a rank. *)
Definition floor_rank (hint : string) : nat := default 0 (rank <$> hint_risk_floor hint).

Section Evaluate.
Context `{RegexEngine, ShellEnv, Grammars, Crypto, RowCodec, VerdictCodec, StoreCodec}.

(** The caller's epoch is given and is not the engine's. *)
Definition stale (ce : Z) (g : AuditEngine) : Prop := ce <> 0%Z /\ ce <> epoch (e_rules g).
(** No audit row has the id. *)
Definition fresh_audit_id (id : string) (g : AuditEngine) : Prop :=
  ~ In id ((fun r => audit_id (r_event r)) <$> audit_rows (audit (e_store g))).
(** The verdict before an action id is given. *)
Definition category_for (content : string) (hits : list RuleHit) : string :=
  match hits with [] => infer_category content | _ => infer_category_from_hits hits end.
Definition base_verdict (hits : list RuleHit) (e : Z) (content redacted : string) (n : nat)
    (hint : option string) : GuardVerdict :=
  apply_redaction redacted n
    (set_category (category_for content hits) (apply_hint hint (verdict_from_hits hits e))).

Lemma check_epoch_ok ce g : check_epoch ce g = Ok () <-> ce = 0%Z \/ ce = epoch g.
Proof.
  unfold check_epoch. destruct (Z.eqb_spec ce 0) as [->|]; cbn [negb andb]; [split; auto|].
  destruct (Z.eqb_spec ce (epoch g)) as [->|]; cbn [negb]; split; (auto || done || tauto).
Qed.

Lemma evaluate_ok_inv uuid now pf content ce tenant ct hint g g' v :
  evaluate uuid now pf content ce tenant ct hint g = (g', Ok v) ->
  exists hits red n, (ce = 0%Z \/ ce = epoch (e_rules g)) /\
    evaluate_full_typed content ct (e_rules g) = Ok hits /\
    redact_counted (e_redactor g) content = Ok (red, n) /\
    let v0 := base_verdict hits (epoch (e_rules g)) content red n hint in
    if needs_decision v0 then
      pf = None /\ v = set_action_id (Some uuid) v0 /\
      g' = with_store (with_actions (put now v tenant (actions (e_store g))) (e_store g)) g
    else v = v0 /\ g' = g.
Proof.
  unfold evaluate. intros E.
  destruct (check_epoch ce (e_rules g)) as [[]|] eqn:Ec; [|done]. apply check_epoch_ok in Ec.
  destruct (evaluate_full_typed content ct (e_rules g)) as [hits|[]] eqn:Eh; [|done].
  cbv zeta in E. destruct (redact_counted (e_redactor g) content) as [[red n]|[]] eqn:Er; [|done].
  exists hits, red, n. split; [done|]. split; [done|]. split; [done|].
  cbv zeta. unfold base_verdict, category_for.
  destruct (needs_decision _); [|by injection E as <- <-].
  destruct pf; [done|]. by injection E as <- <-.
Qed.

(** What the two adjustments do to action, risk and approval. *)
Lemma apply_hint_action hint v :
  action (apply_hint hint v) = action v \/ action v = Allow /\ action (apply_hint hint v) = Redact.
Proof.
  unfold apply_hint. repeat case_match; cbn; auto.
  right. split; [|done]. by eapply bool_decide_eq_true_1.
Qed.
Lemma apply_redaction_action red n v :
  action (apply_redaction red n v) = action v \/
  action v = Allow /\ action (apply_redaction red n v) = Redact.
Proof.
  unfold apply_redaction. repeat case_match; cbn; auto.
  right. split; [|done]. by eapply bool_decide_eq_true_1.
Qed.
Lemma base_action hits e content red n hint :
  let v := base_verdict hits e content red n hint in
  (action v = Block <-> action (verdict_from_hits hits e) = Block) /\
  severity (action (verdict_from_hits hits e)) <= severity (action v).
Proof.
  cbv zeta. unfold base_verdict.
  destruct (apply_redaction_action red n (set_category (category_for content hits)
              (apply_hint hint (verdict_from_hits hits e)))) as [->|[E ->]];
    cbn [set_category action] in *;
    destruct (apply_hint_action hint (verdict_from_hits hits e)) as [E'|[E' E'']];
    rewrite ?E', ?E'' in *; try rewrite E; cbn; (split; [|lia]); split; congruence.
Qed.
Lemma base_kept hits e content red n hint :
  let v := base_verdict hits e content red n hint in
  let w := verdict_from_hits hits e in
  requires_approval v = requires_approval w /\ seatbelt_required v = seatbelt_required w /\
  verdict_epoch v = e /\ action_id v = None /\ reason v = reason w /\ category_hint v = hint /\
  inferred_category v = category_for content hits /\
  redacted_content v = (if Nat.ltb 0 n then Some red else None).
Proof.
  cbv zeta. unfold base_verdict, apply_redaction, apply_hint.
  assert (Hw : verdict_epoch (verdict_from_hits hits e) = e /\
               action_id (verdict_from_hits hits e) = None /\
               redacted_content (verdict_from_hits hits e) = None)
    by (unfold verdict_from_hits; by destruct (max_by _ _)).
  destruct Hw as (? & ? & ?). by repeat case_match.
Qed.
Lemma verdict_block hits e :
  action (verdict_from_hits hits e) = Block <-> some_block hits.
Proof.
  split.
  - unfold verdict_from_hits. destruct (max_by hit_cmp3 hits) as [m|] eqn:E; [|done].
    cbn. intros Hb. exists m. by apply top_hit_spec in E as [? _].
  - intros (h & Hh & Hb). by destruct (block_dominates hits e h Hh Hb).
Qed.
Lemma base_hint hits e content red n hint :
  let v1 := base_verdict hits e content red n (Some hint) in
  let v2 := base_verdict hits e content red n None in
  rank (risk_level v1)
  = Nat.max (rank (risk_level v2)) (floor_rank hint) /\
  severity (action v2) <= severity (action v1).
Proof.
  cbv zeta. unfold base_verdict, apply_redaction, apply_hint, floor_rank, hint_risk_floor.
  cbn [mbind option_bind]. generalize (category_for content hits) as c. intros c.
  destruct (verdict_from_hits hits e) as [a r ? ? ? ? ? ? ? ? ? ?].
  destruct (mem_str hint _), (Nat.ltb 0 n), a, r; (split; [vm_compute; reflexivity|vm_compute; lia]).
Qed.
Lemma evaluate_ok_verdict uuid now pf content ce tenant ct hint g g' v :
  evaluate uuid now pf content ce tenant ct hint g = (g', Ok v) ->
  exists hits red n, evaluate_full_typed content ct (e_rules g) = Ok hits /\
    redact_counted (e_redactor g) content = Ok (red, n) /\
    let v0 := base_verdict hits (epoch (e_rules g)) content red n hint in
    v = set_action_id (if needs_decision v0 then Some uuid else None) v0.
Proof.
  intros (hits & red & n & _ & Hh & Hr & Hv)%evaluate_ok_inv. exists hits, red, n.
  split; [done|]. split; [done|]. cbv zeta in *.
  destruct (base_kept hits (epoch (e_rules g)) content red n hint) as (_ & _ & _ & Hi & _).
  destruct (needs_decision _); [by destruct Hv as (_ & -> & _)|]. destruct Hv as [-> _].
  destruct (base_verdict _ _ _ _ _ _). cbn in *. by subst.
Qed.
End Evaluate.

(** [C1] What an evaluation that returns has decided: the caller's epoch was current (or not
    given); the action is Block exactly when some rule, token or semantic hit blocks; the
    action is never weaker than the hits alone give; approval is asked for exactly when the
    hits ask; redacted content is attached exactly when something sensitive was found; and a
    verdict that blocks or needs approval has an action id under which its row is stored for
    the tenant, unconsumed, while any other verdict leaves the engine as it was. *)
Theorem evaluate_decides `{RegexEngine, ShellEnv, Grammars, Crypto, RowCodec, VerdictCodec, StoreCodec}
    uuid now pf content ce tenant ct hint g g' v
  (Hrun : evaluate uuid now pf content ce tenant ct hint g = (g', Ok v)) :
  exists hits red n,
    evaluate_full_typed content ct (e_rules g) = Ok hits /\
    redact_counted (e_redactor g) content = Ok (red, n) /\
    (ce = 0%Z \/ ce = epoch (e_rules g)) /\ verdict_epoch v = epoch (e_rules g) /\
    (action v = Block <-> some_block hits) /\
    severity (action (verdict_from_hits hits (epoch (e_rules g)))) <= severity (action v) /\
    requires_approval v = requires_approval (verdict_from_hits hits (epoch (e_rules g))) /\
    redacted_content v = (if Nat.ltb 0 n then Some red else None) /\
    (if requires_approval v || bool_decide (action v = Block) then
       action_id v = Some uuid /\ e_rules g' = e_rules g /\
       actions (e_store g') = <[uuid := mkPending (verdict_to_json v) (risk_code (risk_level v)) now 0
                                          ACTION_TTL_SECS tenant]> (actions (e_store g))
     else action_id v = None /\ g' = g).
Proof.
  apply evaluate_ok_inv in Hrun as (hits & red & n & Hce & Hh & Hr & Hv). cbv zeta in Hv.
  exists hits, red, n. do 3 (split; [done|]).
  destruct (base_action hits (epoch (e_rules g)) content red n hint) as [Hb Hs].
  destruct (base_kept hits (epoch (e_rules g)) content red n hint) as (Ha & _ & He & Hi & _ & _ & _ & Hrc).
  rewrite verdict_block in Hb. unfold needs_decision in Hv.
  set (v0 := base_verdict _ _ _ _ _ _) in *.
  destruct (requires_approval v0 || bool_decide (action v0 = Block)) eqn:En.
  - destruct Hv as (-> & -> & ->). cbn. rewrite En. by repeat split; try apply Hb.
  - destruct Hv as [-> ->]. rewrite En. by repeat split; try apply Hb.
Qed.

(** An evaluation fails closed: a stale epoch is refused before anything is scanned, and
    when the pending action cannot be stored no verdict is handed out and the engine is
    unchanged. *)
Theorem evaluate_fails_closed `{RegexEngine, ShellEnv, Grammars, Crypto, RowCodec, VerdictCodec, StoreCodec}
    uuid now pf content ce tenant ct hint g g' e
  (Hrun : evaluate uuid now pf content ce tenant ct hint g = (g', Err e)) :
  g' = g /\
  (e = Failed (StaleEpoch ce (epoch (e_rules g))) /\ stale ce g \/
   e = Panicked \/
   exists m, pf = Some m /\ e = Failed (Core.Engine ("pending action persist failed: " +:+ m))).
Proof.
  unfold evaluate in Hrun. destruct (check_epoch ce (e_rules g)) as [[]|x] eqn:Ec.
  - destruct (evaluate_full_typed _ _ _) as [hits|[]]; [|injection Hrun as <- <-; auto].
    cbv zeta in Hrun. destruct (redact_counted _ _) as [[red n]|[]]; [|injection Hrun as <- <-; auto].
    destruct (needs_decision _); [|done]. destruct pf as [m|]; [|done]. injection Hrun as <- <-.
    split; [done|]. right. right. by exists m.
  - injection Hrun as <- <-. split; [done|]. left. unfold check_epoch in Ec.
    destruct (Z.eqb_spec ce 0), (Z.eqb_spec ce (epoch (e_rules g))); cbn in Ec; try done.
    by injection Ec as <-.
Qed.

(** A caller's hint can only raise the risk, and to L2 at most: the same evaluation with
    and without a hint gives the same Block decision, approval, reason and category, an
    action at least as severe, and the risk with the hint is the maximum of the risk
    without it and the hint's floor. *)
Theorem hint_only_raises `{RegexEngine, ShellEnv, Grammars, Crypto, RowCodec, VerdictCodec, StoreCodec}
    uuid now content ce tenant ct hint g g1 g2 v1 v2
  (Hwith : evaluate uuid now None content ce tenant ct (Some hint) g = (g1, Ok v1))
  (Hwithout : evaluate uuid now None content ce tenant ct None g = (g2, Ok v2)) :
  rank (risk_level v1)
  = Nat.max (rank (risk_level v2)) (floor_rank hint) /\
  severity (action v2) <= severity (action v1) /\ (action v1 = Block <-> action v2 = Block) /\
  requires_approval v1 = requires_approval v2 /\ reason v1 = reason v2 /\
  inferred_category v1 = inferred_category v2 /\ category_hint v1 = Some hint /\
  action_id v1 = action_id v2.
Proof.
  apply evaluate_ok_verdict in Hwith as (hits & red & n & Hh & Hr & ->).
  apply evaluate_ok_verdict in Hwithout as (hits' & red' & n' & Hh' & Hr' & ->).
  rewrite Hh in Hh'. rewrite Hr in Hr'. injection Hh' as <-. injection Hr' as <- <-.
  set (e := epoch (e_rules g)).
  destruct (base_action hits e content red n (Some hint)) as [Hb1 _].
  destruct (base_action hits e content red n None) as [Hb2 _].
  destruct (base_kept hits e content red n (Some hint)) as (Ha1 & _ & _ & _ & Hre1 & Hh1 & Hc1 & _).
  destruct (base_kept hits e content red n None) as (Ha2 & _ & _ & _ & Hre2 & _ & Hc2 & _).
  destruct (base_hint hits e content red n hint) as [Hrisk Hsev].
  cbn [set_action_id risk_level action requires_approval reason inferred_category category_hint action_id].
  split; [exact Hrisk|]. split; [exact Hsev|].
  split; [by rewrite Hb1, Hb2|]. split; [by rewrite Ha1, Ha2|]. split; [by rewrite Hre1, Hre2|].
  split; [by rewrite Hc1, Hc2|]. split; [done|].
  unfold needs_decision. rewrite Ha1, Ha2. by rewrite (bool_decide_ext _ _ (iff_trans Hb1 (iff_sym Hb2))).
Qed.

(** ** From evaluation to confirmation *)
Lemma evict_keeps now t id r : t !! id = Some r -> action_expired now r = false ->
  (Actions.evict_expired now t).1 !! id = Some r.
Proof. intros Hr He. cbn. by apply map_lookup_filter_Some. Qed.


(** ** Isolation of tenants when text is revealed *)
Section Reveal.
Context `{RegexEngine, Crypto}.

(** The tenant's own row under an id. *)
Definition own (tenant : string) (t : TokenStore) (id : string) : option TokenRow :=
  match tokens t !! id with
  | Some r => if String.eqb (t_tenant r) tenant then Some r else None
  | None => None
  end.
Definition same_view (tenant : string) (t1 t2 : TokenStore) : Prop :=
  key t1 = key t2 /\ forall id, own tenant t1 id = own tenant t2 id.

Lemma own_evict tenant now t id :
  own tenant (Tokens.evict_expired now t).1 id
  = match own tenant t id with
    | Some r => if evictable now r then None else Some r
    | None => None
    end.
Proof.
  unfold own. cbn [fst Tokens.evict_expired with_tokens tokens].
  destruct (tokens t !! id) as [r|] eqn:E.
  - destruct (evictable now r) eqn:Ee.
    + rewrite map_lookup_filter_None_2.
      * destruct (String.eqb (t_tenant r) tenant); by rewrite ?Ee.
      * right. intros r' Hr'. rewrite E in Hr'. injection Hr' as <-. cbn. by rewrite Ee.
    + rewrite (map_lookup_filter_Some_2 _ _ _ r) by done.
      destruct (String.eqb (t_tenant r) tenant); by rewrite ?Ee.
  - by rewrite map_lookup_filter_None_2 by (by left).
Qed.
Lemma own_flight tenant id b t id' :
  own tenant (set_in_flight id b t) id'
  = if String.eqb id id' then set_flight b <$> own tenant t id' else own tenant t id'.
Proof.
  unfold own. cbn [set_in_flight with_tokens tokens]. destruct (String.eqb_spec id id') as [->|Hne].
  - rewrite lookup_alter_eq. destruct (tokens t !! id') as [r|]; [|done]. cbn.
    by destruct (String.eqb (t_tenant r) tenant).
  - by rewrite lookup_alter_ne.
Qed.
(** A lookup reads only the tenant's own row, and changes only that. *)
Lemma get_tenant_own now id tenant t1 t2 : same_view tenant t1 t2 ->
  (get_tenant now id tenant t1).2 = (get_tenant now id tenant t2).2 /\
  same_view tenant (get_tenant now id tenant t1).1 (get_tenant now id tenant t2).1.
Proof.
  intros [Hk Ho]. pose proof (Ho id) as Hid. unfold get_tenant.
  assert (Hdel : forall t id', own tenant (with_tokens (delete_idle id) t) id'
    = if String.eqb id id' then match own tenant t id' with
                                | Some r => if in_flight r then Some r else None
                                | None => None end
      else own tenant t id').
  { intros t id'. unfold own. cbn [with_tokens tokens]. unfold delete_idle.
    destruct (String.eqb_spec id id') as [<-|Hne];
      (destruct (tokens t !! id) as [r|] eqn:E; [destruct (in_flight r) eqn:Ef|]);
      rewrite ?lookup_delete_eq, ?lookup_delete_ne, ?E by done; try done;
      try (by destruct (String.eqb (t_tenant r) tenant); rewrite ?Ef). }
  unfold own in Hid.
  destruct (tokens t1 !! id) as [r1|], (tokens t2 !! id) as [r2|];
    repeat match goal with
    | |- context [String.eqb (t_tenant ?r) tenant] =>
        destruct (String.eqb (t_tenant r) tenant); cbn [negb]
    end; try (injection Hid as ->); try discriminate Hid; try (by repeat split).
  destruct (Z.ltb _ now); [|rewrite Hk; by repeat split].
  split; [done|]. split; [done|]. intros id'. cbn [fst]. by rewrite !Hdel, Ho.
Qed.
Lemma same_view_flight tenant id b t1 t2 : same_view tenant t1 t2 ->
  same_view tenant (set_in_flight id b t1) (set_in_flight id b t2).
Proof. intros [Hk Ho]. split; [done|]. intros id'. by rewrite !own_flight, Ho. Qed.
Lemma same_view_evict tenant now t1 t2 : same_view tenant t1 t2 ->
  same_view tenant (Tokens.evict_expired now t1).1 (Tokens.evict_expired now t2).1.
Proof. intros [Hk Ho]. split; [done|]. intros id. by rewrite !own_evict, Ho. Qed.

Lemma reveal_one_view now tenant p t1 t2 text : same_view tenant t1 t2 ->
  (reveal_one now tenant p (t1, text)).2 = (reveal_one now tenant p (t2, text)).2 /\
  same_view tenant (reveal_one now tenant p (t1, text)).1 (reveal_one now tenant p (t2, text)).1.
Proof.
  intros Hv. destruct p as [kind tid]. cbn [reveal_one].
  destruct (get_tenant_own now tid tenant _ _ (same_view_flight tenant tid true t1 t2 Hv)) as [Hr Hs].
  destruct (get_tenant now tid tenant (set_in_flight tid true t1)) as [u1 got1].
  destruct (get_tenant now tid tenant (set_in_flight tid true t2)) as [u2 got2].
  cbn in Hr, Hs. subst got2. destruct got1; [|destruct (slice_to 8 tid)];
    split; (done || by apply same_view_flight).
Qed.
Lemma reveal_loop_view now tenant ps t1 t2 text : same_view tenant t1 t2 ->
  (reveal_loop now tenant ps (t1, text)).2 = (reveal_loop now tenant ps (t2, text)).2 /\
  same_view tenant (reveal_loop now tenant ps (t1, text)).1 (reveal_loop now tenant ps (t2, text)).1.
Proof.
  revert t1 t2 text. induction ps as [|p ps IH]; intros t1 t2 text Hv; [done|]. cbn [reveal_loop].
  destruct (reveal_one_view now tenant p t1 t2 text Hv) as [Hr Hs].
  destruct (reveal_one now tenant p (t1, text)) as [u1 o1], (reveal_one now tenant p (t2, text)) as [u2 o2].
  cbn in Hr, Hs. subst o2. destruct o1; [by apply IH|done].
Qed.
End Reveal.

(** Revealing text never uses another tenant's tokens: the text a tenant gets back
    depends only on its own rows, so it is the same for any two stores with the same key in
    which the tenant's own tokens agree, whatever tokens the other tenants have. *)
Lemma reveal_isolated `{RegexEngine, ShellEnv, Grammars, Crypto, RowCodec, VerdictCodec, StoreCodec}
    now content tenant (g1 g2 : AuditEngine)
  (Hview : same_view tenant (toks (e_store g1)) (toks (e_store g2))) :
  (reveal_tenant now content tenant g1).2 = (reveal_tenant now content tenant g2).2 /\
  same_view tenant (toks (e_store (reveal_tenant now content tenant g1).1))
    (toks (e_store (reveal_tenant now content tenant g2).1)).
Proof.
  unfold reveal_tenant. pose proof (same_view_evict tenant now _ _ Hview) as Hv.
  destruct (extract_placeholders content) as [ps|]; [|done].
  destruct (reveal_loop_view now tenant ps _ _ content Hv) as [Hr Hs].
  destruct (reveal_loop now tenant ps (_, content)) as [u1 o1], (reveal_loop now tenant ps (_, content)) as [u2 o2].
  done.
Qed.

(** ** The rules on disk and in memory *)
Section Disk.
Context `{RegexEngine, ShellEnv, Grammars, Crypto, RowCodec, VerdictCodec, StoreCodecLaws}.

Definition rule_entry (r : GuardRule) : string * string := (name r, rule_to_json r).
Definition table_of (rs : list GuardRule) : gmap string string := list_to_map (rule_entry <$> rs).
(** The store holds exactly the rules and the epoch of the engine in memory. *)
Definition disk_sync (g : AuditEngine) : Prop :=
  engine_wf (e_rules g) /\ names_unique (e_rules g) /\
  rules_table (e_store g) = table_of (rules (e_rules g)) /\
  rule_epoch (e_store g) = Some (epoch (e_rules g)).

Lemma entry_names rs : (rule_entry <$> rs).*1 = name <$> rs.
Proof. by rewrite <- list_fmap_compose. Qed.
Lemma table_perm rs1 rs2 : NoDup (name <$> rs1) -> rs1 ≡ₚ rs2 -> table_of rs1 = table_of rs2.
Proof.
  intros Hn Hp. apply list_to_map_proper; [by rewrite entry_names|by rewrite Hp].
Qed.
Lemma table_cons r rs : table_of (r :: rs) = <[name r := rule_to_json r]> (table_of rs).
Proof. done. Qed.
Lemma table_fresh n rs : ~ In n (name <$> rs) -> table_of rs !! n = None.
Proof. intros Hn. apply not_elem_of_list_to_map_1. by rewrite entry_names, list_elem_of_In. Qed.

Lemma save_rule_ok f u t r s s' : save_rule f u t r s = (s', Ok ()) ->
  rules_table s' = <[name r := rule_to_json r]> (rules_table s) /\ rule_epoch s' = rule_epoch s.
Proof. unfold save_rule, two_steps. destruct f; intros E; by inversion E. Qed.
Lemma delete_rule_ok f u t n s : f <> FailWrite ->
  rules_table (delete_rule f u t n s).1 = delete n (rules_table s) /\
  rule_epoch (delete_rule f u t n s).1 = rule_epoch s.
Proof. by destruct f. Qed.
Lemma persist_ok f u t e s s' : persist f u t e s = (s', Ok ()) ->
  rules_table s' = rules_table s /\ rule_epoch s' = Some e.
Proof. unfold persist, save_epoch, two_steps. destruct f; intros E; by inversion E. Qed.

(** Successful changes of the rules; a rename goes to a name that is free and its removal
    of the old row is not refused by the database. *)
Inductive rule_change (g : AuditEngine) : AuditEngine -> Prop :=
| change_add ids f1 f2 f3 r g' e : add_rule ids f1 f2 f3 r g = (g', Ok e) -> rule_change g g'
| change_update ids f1 f2 f3 f4 n r g' e : update_rule ids f1 f2 f3 f4 n r g = (g', Ok e) ->
    name r = n \/ (~ In (name r) (name <$> rules (e_rules g)) /\ f2 <> FailWrite) -> rule_change g g'
| change_remove ids f1 f2 n g' e : remove_rule ids f1 f2 n g = (g', Ok e) -> rule_change g g'.

Lemma add_sync ids f1 f2 f3 r g g' e : disk_sync g -> add_rule ids f1 f2 f3 r g = (g', Ok e) ->
  disk_sync g'.
Proof.
  intros (Hwf & Hu & Ht & He) E. unfold add_rule in E.
  pose proof (apply_mutation_step (MAdd r) (e_rules g) Hwf) as [Hwf' Hst].
  pose proof (names_unique_preserved (e_rules g) (MAdd r) Hu I) as Hu'. cbn [apply_mutation] in *.
  destruct (save_rule f1 _ _ r _) as [s1 [[]|]] eqn:E1; [|done]. apply save_rule_ok in E1 as [Ht1 He1].
  destruct (add r (e_rules g)) as [inner [ep|]] eqn:Ea; [|done].
  destruct (persist f3 _ _ ep s1) as [s2 [[]|]] eqn:E2; [|done]. apply persist_ok in E2 as [Ht2 He2].
  injection E as <- <-. cbn in *. split; [done|]. split; [done|].
  cbn [with_rules_store e_rules e_store]. destruct Hst as [_ Hst]. cbn [fst] in Hst. split; [|by rewrite He2, Hst].
  rewrite Ht2, Ht1, Ht, <- table_cons. unfold add in Ea. destruct (compile _); [|done].
  destruct (existsb _ _); [done|]. injection Ea as <- _. cbn [rules] in *.
  symmetry. apply table_perm; [exact Hu'|]. by rewrite Permutation_app_comm.
Qed.
Lemma remove_sync ids f1 f2 n g g' e : disk_sync g -> remove_rule ids f1 f2 n g = (g', Ok e) ->
  disk_sync g'.
Proof.
  intros (Hwf & Hu & Ht & He) E. unfold remove_rule in E.
  pose proof (apply_mutation_step (MRemove n) (e_rules g) Hwf) as [Hwf' Hst].
  pose proof (names_unique_preserved (e_rules g) (MRemove n) Hu I) as Hu'. cbn [apply_mutation] in *.
  assert (Hf : f1 <> FailWrite) by (intros ->; done).
  destruct (delete_rule_ok f1 (mut_id ids 0) (mut_time ids) n (e_store g) Hf) as [Ht1 He1].
  destruct (delete_rule f1 _ _ n _) as [s1 [[]|]]; [|done]. cbn in Ht1, He1.
  destruct (remove n (e_rules g)) as [inner [ep|]] eqn:Ea; [|done].
  destruct (persist f2 _ _ ep s1) as [s2 [[]|]] eqn:E2; [|done]. apply persist_ok in E2 as [Ht2 He2].
  injection E as <- <-. split; [done|]. split; [done|].
  cbn [with_rules_store e_rules e_store]. destruct Hst as [_ Hst]. cbn [fst] in Hst. split; [|by rewrite He2, Hst].
  rewrite Ht2, Ht1, Ht. unfold remove in Ea. destruct (position n _) as [i|] eqn:Ep; [|done].
  injection Ea as <- _. cbn [rules fst] in *. apply position_lookup in Ep as (r & Hr & <-).
  pose proof (delete_Permutation _ _ _ Hr) as Hp.
  rewrite (table_perm _ _ Hu Hp), table_cons. apply delete_insert_id, table_fresh.
  unfold names_unique in Hu. rewrite Hp in Hu. cbn in Hu. apply NoDup_cons in Hu as [Hn _].
  by rewrite <- list_elem_of_In.
Qed.
Lemma update_sync ids f1 f2 f3 f4 n r g g' e : disk_sync g ->
  update_rule ids f1 f2 f3 f4 n r g = (g', Ok e) ->
  name r = n \/ (~ In (name r) (name <$> rules (e_rules g)) /\ f2 <> FailWrite) -> disk_sync g'.
Proof.
  intros (Hwf & Hu & Ht & He) E Hname. unfold update_rule in E.
  pose proof (apply_mutation_step (MUpdate n r) (e_rules g) Hwf) as [Hwf' Hst].
  assert (Hu' : names_unique (update n r (e_rules g)).1)
    by (apply (names_unique_preserved (e_rules g) (MUpdate n r) Hu); tauto).
  cbn [apply_mutation] in *.
  destruct (save_rule f1 _ _ r _) as [s1 [[]|]] eqn:E1; [|done]. apply save_rule_ok in E1 as [Ht1 He1].
  cbv zeta in E. set (s1' := if negb _ then _ else s1) in E.
  destruct (update n r (e_rules g)) as [inner [ep|]] eqn:Ea; [|done].
  destruct (persist f3 _ _ ep s1') as [s2 [[]|]] eqn:E2; [|done]. apply persist_ok in E2 as [Ht2 He2].
  injection E as <- <-. split; [done|]. split; [done|].
  cbn [with_rules_store e_rules e_store]. destruct Hst as [_ Hst]. cbn [fst] in Hst. split; [|by rewrite He2, Hst].
  rewrite Ht2. unfold update in Ea. destruct (compile _) as [re|]; [|done].
  destruct (position n _) as [i|] eqn:Ep; [|done]. injection Ea as <- _. cbn [rules fst] in *.
  apply position_lookup in Ep as (old & Hold & <-).
  pose proof (delete_Permutation _ _ _ Hold) as Hp.
  assert (Hp' : <[i := r]> (rules (e_rules g)) ≡ₚ r :: delete i (rules (e_rules g))).
  { rewrite (delete_Permutation (<[i := r]> (rules (e_rules g))) i r).
    - by rewrite delete_insert_list.
    - apply list_lookup_insert_eq. by apply lookup_lt_Some in Hold. }
  assert (Hfresh : table_of (delete i (rules (e_rules g))) !! name old = None).
  { apply table_fresh. unfold names_unique in Hu. rewrite Hp in Hu. cbn in Hu.
    apply NoDup_cons in Hu as [Hn _]. by rewrite <- list_elem_of_In. }
  unfold names_unique in Hu'. cbn [rules fst] in Hu'. rewrite (table_perm _ _ Hu' Hp'), table_cons.
  rewrite (table_perm _ _ Hu Hp), table_cons in Ht. subst s1'.
  destruct (String.eqb_spec (name old) (name r)) as [Heq|Hne]; cbn [negb].
  - by rewrite Ht1, Ht, Heq, insert_insert_eq.
  - destruct Hname as [?|[_ Hf]]; [congruence|].
    destruct (delete_rule_ok f2 (mut_id ids 1) (mut_time ids) (name old) s1 Hf) as [-> _].
    rewrite Ht1, Ht, delete_insert_ne by done. by rewrite delete_insert_id.
Qed.
Lemma change_sync g g' : disk_sync g -> rule_change g g' -> disk_sync g'.
Proof.
  intros Hs [ids f1 f2 f3 r g'' e E|ids f1 f2 f3 f4 n r g'' e E Hn|ids f1 f2 n g'' e E];
    [by eapply add_sync|by eapply update_sync|by eapply remove_sync].
Qed.

(** Loading what [disk_sync] describes. *)
Lemma parse_rules_json rs : parse_rules (rule_to_json <$> rs) = Ok rs.
Proof using All.
  induction rs as [|r rs IH]; [done|]. cbn. rewrite rule_json_roundtrip. cbn. by rewrite IH.
Qed.
Lemma load_synced rs s : NoDup (name <$> rs) -> rules_table s = table_of rs ->
  exists rs', rs' ≡ₚ rs /\ parse_rules (snd <$> merge_sort name_le (map_to_list (rules_table s))) = Ok rs'.
Proof using All.
  intros Hn Ht. assert (Hp : merge_sort name_le (map_to_list (rules_table s)) ≡ₚ rule_entry <$> rs).
  { rewrite merge_sort_Permutation, Ht. apply map_to_list_to_map. by rewrite entry_names. }
  apply Permutation_map_inv in Hp as (rs' & -> & Hp).
  exists rs'. split; [by symmetry|].
  change (map rule_entry rs') with (rule_entry <$> rs').
  rewrite <- list_fmap_compose. apply parse_rules_json.
Qed.
Lemma compile_all_total rs : (forall r, In r rs -> exists re, regex_new (pattern r) = Ok re) ->
  exists cs, compile_all rs = Ok cs.
Proof.
  induction rs as [|r rs IH]; intros Hc; [by exists []|]. cbn.
  destruct (Hc r) as [re Hre]; [by left|]. apply compile_ok in Hre. rewrite Hre. cbn.
  destruct IH as [cs ->]; [intros; apply Hc; by right|]. by eexists.
Qed.
End Disk.


(** ** Audit events *)

(** The answer to an audit event: "block" exactly when some regular expression rule
    blocks the text built from the event's fields, "challenge" exactly when none blocks and
    the hits ask for approval; the audit id is the one of the appended event and the trigger
    is echoed; and before "block" is answered the event's row was appended to the audit table
    and the action was stored. *)
Theorem audit_event_decides `{RegexEngine, ShellEnv, Grammars, HmacLaws, RowCodec, VerdictCodec, StoreCodec}
    uuid now pf ev_id ev_time ok rt trigger ty path agent payload node tenant who g g' d
  (Hrun : audit_event uuid now pf ev_id ev_time ok rt trigger ty path agent payload node tenant who g
          = (g', Ok d)) :
  let hits := Rules.evaluate (audit_content ty path agent node payload) (e_rules g) in
  let blocked := some_block hits in
  (decision d = "block" <-> blocked) /\
  (decision d = "challenge" <->
     ~ blocked /\ requires_approval (verdict_from_hits hits (epoch (e_rules g))) = true) /\
  d_audit_id d = ev_id /\ d_trigger d = trigger /\
  (decision d = "block" -> is_Some (actions (e_store g') !! uuid) /\
     exists db r, audit_rows db = audit_rows (audit (e_store g)) ++ [r] /\
       audit_id (r_event r) = ev_id /\
       audit (e_store g') = (rotate_old_rows (r_cutoff rt) (r_now rt) (r_bytes rt) (r_outcome rt) db).1).
Proof.
  cbv zeta. unfold audit_event in Hrun.
  destruct (Engine.evaluate _ _ _ _ _ _ _ _ g) as [g1 [v|]] eqn:Ee; [|done].
  apply evaluate_ok_inv in Ee as (hits & red & n & _ & Hh & _ & Hv).
  change (Ok (E := panic) (Rules.evaluate (audit_content ty path agent node payload) (e_rules g) ++ []) = Ok hits) in Hh.
  rewrite app_nil_r in Hh. injection Hh as <-.
  set (hits := Rules.evaluate _ _) in *. cbv zeta in Hv.
  destruct (base_action hits (epoch (e_rules g)) (audit_content ty path agent node payload) red n None) as [Hb _].
  destruct (base_kept hits (epoch (e_rules g)) (audit_content ty path agent node payload) red n None) as (Ha & _).
  rewrite verdict_block in Hb. set (v0 := base_verdict _ _ _ _ _ _) in *.
  assert (Hva : action v = action v0 /\ requires_approval v = requires_approval v0 /\
    audit (e_store g1) = audit (e_store g) /\
    (action v = Block -> is_Some (actions (e_store g1) !! uuid))).
  { unfold needs_decision in Hv. destruct (requires_approval v0 || _) eqn:En.
    - destruct Hv as (_ & -> & ->). repeat split. intros _. cbn. rewrite lookup_insert_eq. by eexists.
    - destruct Hv as [-> ->]. repeat split. intros E. rewrite E, bool_decide_true, orb_true_r in En; done. }
  destruct Hva as (Hact & Happ & Haud & Hpend). rewrite <- Hact in Hb. rewrite <- Ha, <- Happ.
  clear Hv. unfold append_event in Hrun.
  assert (Hdec : (decision_of v = "block" <-> action v = Block) /\
    (decision_of v = "challenge" <-> action v <> Block /\ requires_approval v = true)).
  { unfold decision_of. by destruct (action v), (requires_approval v); cbn; repeat split; intros; try done; destruct_and?. }
  destruct Hdec as [Hd1 Hd2].
  destruct (high_risk v) eqn:Ehr.
  - destruct (insert_audit_event _ _ _ _) as [db|] eqn:Ei; [|done]. injection Hrun as <- <-. cbn [decision d_audit_id d_trigger].
    rewrite Hd1, Hd2, Hb. split; [done|]. split; [done|]. split; [done|]. split; [done|].
    intros Hbl. split; [by apply Hpend, Hb|].
    apply LedgerSpec.insert_ok_row in Ei as (r & Hr & Hl). exists db, r. rewrite Haud in Hr.
    split; [done|]. split; [|done]. by apply (f_equal audit_id) in Hl.
  - injection Hrun as <- <-. cbn [decision d_audit_id d_trigger].
    rewrite Hd1, Hd2, Hb. split; [done|]. split; [done|]. split; [done|]. split; [done|].
    intros Hbl. exfalso. unfold high_risk in Ehr.
    rewrite (bool_decide_true (action v = Block)), orb_true_r in Ehr; [done|by apply Hb].
Qed.

(** ** Concrete runs *)
#[local] Existing Instances sample_regex sample_env sample_grammars ChainSpec.toy_crypto
  ChainSpec.toy_codec ChainSpec.toy_hmac_laws LedgerSpec.toy_store_codec LedgerSpec.toy_store_laws.

(** A codec of verdicts for the examples. *)
Definition verdict_parts (v : GuardVerdict) :=
  ([reason v; inferred_category v],
   ([LedgerSpec.enum_of LedgerSpec.safety_actions (action v);
     LedgerSpec.enum_of LedgerSpec.risks (risk_level v);
     LedgerSpec.enum_of LedgerSpec.stages (stage v)],
    ((requires_approval v, seatbelt_required v), ([redacted_content v; action_id v; category_hint v],
     [verdict_epoch v; verdict_ttl_secs v])))).
Definition verdict_join (x : list string * (list nat * ((bool * bool) * (list (option string) * list Z))))
  : option GuardVerdict :=
  match x with
  | ([w; c], ([a; r; st], ((ap, sb), ([red; id; h], [e; ttl])))) =>
      a ← LedgerSpec.safety_actions !! a; r ← LedgerSpec.risks !! r; st ← LedgerSpec.stages !! st;
      Some (mkVerdict a r w st ap red sb id e ttl c h)
  | _ => None
  end.
#[local] Instance full_verdict_codec : VerdictCodec := {|
  verdict_to_json v := LedgerSpec.pos_text (encode (verdict_parts v));
  verdict_of_json s :=
    ok_or "parse error" (p ← LedgerSpec.text_pos s; x ← decode p; verdict_join x)
|}.
#[local] Instance full_verdict_laws : VerdictCodecLaws.
Proof.
  split. intros v. cbn [verdict_of_json verdict_to_json full_verdict_codec].
  rewrite LedgerSpec.text_pos_text. cbn [mbind option_bind]. rewrite decode_encode.
  by destruct v as [[] [] ? [] ? ? ? ? ? ? ? ?].
Qed.

(** An engine with the two sample rules and one of L3, in memory and on disk. *)
Definition demo_rules : list GuardRule :=
  [sample_rule "a" "rm -rf" Block L4; sample_rule "b" "curl" Preview L3].
Definition demo_store : Store :=
  with_epoch (Some 5%Z) (with_rules (table_of demo_rules) (LedgerSpec.new_store ChainSpec.toy_tokens)).
Definition demo : AuditEngine :=
  mkEngine (mkInner demo_rules [Some "rm -rf"; Some "curl"] 5) [] demo_store.
Definition demo_ids : MutIds := mkMutIds (fun i => "m") "now".

Lemma evaluate_decides_witness :
  exists v, (Engine.evaluate "u1" 100 None "rm -rf /" 5 "acme" Json None demo).2 = Ok v /\
    action v = Block /\ action_id v = Some "u1".
Proof.
  destruct (Engine.evaluate "u1" 100 None "rm -rf /" 5 "acme" Json None demo) as [g' res] eqn:E.
  assert (Hres : exists v, res = Ok v /\ action v = Block)
    by (apply (f_equal snd) in E; vm_compute in E; subst res; eexists; split; reflexivity).
  destruct Hres as (v & -> & Hb). exists v. split; [reflexivity|]. split; [exact Hb|].
  destruct (evaluate_decides "u1" 100 None "rm -rf /" 5 "acme" Json None demo g' v E)
    as (hits & red & n & _ & _ & _ & _ & _ & _ & _ & _ & Hid).
  rewrite Hb, bool_decide_true, orb_true_r in Hid by reflexivity. exact (proj1 Hid).
Defined.
Lemma evaluate_fails_closed_witness :
  (Engine.evaluate "u1" 100 (Some "disk full") "rm -rf /" 5 "acme" Json None demo).1 = demo.
Proof.
  destruct (Engine.evaluate "u1" 100 (Some "disk full") "rm -rf /" 5 "acme" Json None demo) as [g' res] eqn:E.
  assert (Hres : exists e, res = Err e)
    by (apply (f_equal snd) in E; vm_compute in E; subst res; eexists; reflexivity).
  destruct Hres as (e & ->).
  exact (proj1 (evaluate_fails_closed "u1" 100 (Some "disk full") "rm -rf /" 5 "acme" Json None demo g' e E)).
Defined.
Lemma hint_only_raises_witness :
  exists v1 v2, (Engine.evaluate "u1" 100 None "ls" 0 "acme" Json (Some "network") demo).2 = Ok v1 /\
    (Engine.evaluate "u1" 100 None "ls" 0 "acme" Json None demo).2 = Ok v2 /\
    rank (risk_level v1) = Nat.max (rank (risk_level v2)) 1.
Proof.
  destruct (Engine.evaluate "u1" 100 None "ls" 0 "acme" Json (Some "network") demo) as [g1 r1] eqn:E1.
  destruct (Engine.evaluate "u1" 100 None "ls" 0 "acme" Json None demo) as [g2 r2] eqn:E2.
  assert (H1 : exists v, r1 = Ok v)
    by (apply (f_equal snd) in E1; vm_compute in E1; subst r1; eexists; reflexivity).
  assert (H2 : exists v, r2 = Ok v)
    by (apply (f_equal snd) in E2; vm_compute in E2; subst r2; eexists; reflexivity).
  destruct H1 as [v1 ->], H2 as [v2 ->]. exists v1, v2. split; [reflexivity|]. split; [reflexivity|].
  exact (proj1 (hint_only_raises "u1" 100 "ls" 0 "acme" Json "network" demo g1 g2 v1 v2 E1 E2)).
Defined.
Lemma demo_sync : disk_sync demo.
Proof.
  split; [|split; [|split; reflexivity]].
  - repeat constructor; by eexists.
  - apply (bool_decide_unpack _). vm_compute. exact I.
Qed.
Lemma demo_redactor : exists rd, redactor_new = Ok rd.
Proof.
  destruct redactor_new as [rd|e] eqn:E; [by exists rd|]. exfalso. revert E.
  assert (Hb : forall ds, (forallb (fun d => negb (String.eqb d.1.1.2 "(")) ds = true) ->
            build_patterns ds <> Err e).
  { intros ds. induction ds as [|[[[n p] v] tag] ds IH]; intros Hd; [done|]. cbn in Hd. boolp.
    cbn. rewrite (proj2 (String.eqb_neq p "(")) by done. cbn.
    destruct (build_patterns ds); [done|]. cbn. intros [= ->]. by apply IH. }
  apply Hb. vm_compute. reflexivity.
Qed.
Lemma audit_event_decides_witness :
  exists d, (audit_event "u1" 100 None "e1" "now" true LedgerSpec.toy_retention "t1" "open" "rm -rf /" "agent"
               None "n1" "acme" "al" demo).2 = Ok d /\ decision d = "block" /\ d_audit_id d = "e1".
Proof.
  destruct (audit_event "u1" 100 None "e1" "now" true LedgerSpec.toy_retention "t1" "open" "rm -rf /" "agent"
               None "n1" "acme" "al" demo) as [g' res] eqn:E.
  assert (Hres : exists d, res = Ok d /\ decision d = "block")
    by (apply (f_equal snd) in E; vm_compute in E; subst res; eexists; split; reflexivity).
  destruct Hres as (d & -> & Hd). exists d. split; [reflexivity|]. split; [exact Hd|].
  apply (audit_event_decides _ _ _ _ _ _ _ _ _ _ _ _ _ _ _ _ _ _ E).
Defined.

(** ** Where the engine does not do what its comments say *)

(** Sensitive content lowers the risk of an Allow rule at L3 or L4 to L2, although the
    verdict still needs approval; the audit row of the verdict then takes the queue instead
    of the synchronous path. *)
Lemma sensitive_lowers_risk :
  let v := base_verdict [sample_hit Allow L3] 1 "text" "[REDACTED:email]" 1 None in
  let w := base_verdict [sample_hit Allow L3] 1 "text" "text" 0 None in
  requires_approval v = true /\ risk_level v = L2 /\ high_risk v = false /\
  risk_level w = L3 /\ high_risk w = true.
Proof. vm_compute. auto. Qed.
(** Adding a rule whose name is taken is refused, but the rollback has removed the rule of
    that name from disk: it is gone at the next start. *)
Lemma duplicate_add_deletes_stored_rule :
  let '(g, res) := add_rule demo_ids NoFault NoFault NoFault (sample_rule "a" "x" Allow L1) demo in
  res = Err (Duplicate "a") /\ rules (e_rules g) = demo_rules /\
  rules_table (e_store g) !! "a" = None.
Proof. vm_compute. auto. Qed.
(** An update to an expression that does not compile is refused, but stays on disk: the
    engine does not start any more. *)
Lemma bad_update_blocks_start :
  let '(g, res) := update_rule demo_ids NoFault NoFault NoFault NoFault "a" (sample_rule "a" "(" Block L4) demo in
  res = Err (RegexError "unclosed group") /\ rules (e_rules g) = demo_rules /\
  (engine_open demo_ids (fun _ => NoFault) NoFault (e_store g)).2
  = Err (Core.Engine "regex compile failed: unclosed group").
Proof. vm_compute. auto. Qed.
(** Updating a rule that does not exist is refused, but removes the stored rule that has the
    name of the new one. *)
Lemma failed_rename_deletes_stored_rule :
  let '(g, res) := update_rule demo_ids NoFault NoFault NoFault NoFault "nope" (sample_rule "a" "x" Block L4) demo in
  res = Err (NotFound "nope") /\ rules (e_rules g) = demo_rules /\
  rules_table (e_store g) !! "a" = None.
Proof. vm_compute. auto. Qed.
(** When the epoch cannot be written, the addition is undone in memory by a removal, which
    counts two epochs in memory and none on disk. *)
Lemma failed_epoch_splits_epochs :
  let '(g, res) := add_rule demo_ids NoFault NoFault FailWrite (sample_rule "c" "x" Allow L1) demo in
  (exists m, res = Err (NotFound m)) /\ rules (e_rules g) = demo_rules /\
  epoch (e_rules g) = 7%Z /\ rule_epoch (e_store g) = Some 5%Z.
Proof. vm_compute. eauto. Qed.
(** A placeholder whose token is shorter than eight bytes and unknown makes reveal panic,
    since the fallback text slices the token at eight. *)
Lemma short_token_panics :
  (reveal_one 0 "acme" ("email", "tok_abc") (ChainSpec.toy_tokens, "[REDACTED:email#tok_abc]")).2
  = Err Panic.
Proof. vm_compute. reflexivity. Qed.
End EngineSpec.
