(* ===== verification/RuleThreads.v ===== *)
(** * Threads of the engine (fg-audit-engine/src/lib.rs, fg-ipc/src/lib.rs)

    Evaluations and changes of the rules as concurrent requests run them.  An evaluation takes
    the lock of the rules three times (the check of the epoch, the scan, the epoch it stamps); a
    change checks the caller's epoch in the request handler and then holds the orchestration
    lock over its writes to disk and memory. *)
From S2P Require Import Prelude Core Pattern Tokenizer Semantic Rules Redact Tokens Chain Actions.
From S2P Require Import Ledger Engine.

Module RuleThreads.
Import Tokenizer Rules Redact Tokens Chain Actions Ledger Engine.

(** The arguments of an evaluation and of a change of the rules. *)
Record Job : Type := mkJob {
  j_uuid : string;
  j_now : Z;
  j_fault : option string;
  j_content : string;
  j_epoch : Z;
  j_tenant : string;
  j_type : ContentType;
  j_hint : option string
}.
Inductive Change : Type :=
| CAdd (r : GuardRule)
| CUpdate (n : string) (r : GuardRule)
| CRemove (n : string).
Record Call : Type := mkCall {
  c_ids : MutIds;
  c_f1 : Fault;
  c_f2 : Fault;
  c_f3 : Fault;
  c_f4 : Fault;
  c_change : Change
}.

Section WithParams.
Context `{RegexEngine, ShellEnv, Grammars, Crypto, RowCodec, VerdictCodec, StoreCodec}.

(** A change run at once. *)
Definition run_change (c : Call) (g : AuditEngine) : AuditEngine * result RuleError Z :=
  match c_change c with
  | CAdd r => add_rule (c_ids c) (c_f1 c) (c_f2 c) (c_f3 c) r g
  | CUpdate n r => update_rule (c_ids c) (c_f1 c) (c_f2 c) (c_f3 c) (c_f4 c) n r g
  | CRemove n => remove_rule (c_ids c) (c_f1 c) (c_f2 c) n g
  end.

(** Where a request is. *)
Inductive RTask : Type :=
(* [evaluate] *)
| EvCheck (j : Job)
| EvHits (j : Job)
| EvEpoch (j : Job) (hits : list RuleHit)
| EvPut (j : Job) (v : GuardVerdict)
| EvEnd (j : Job) (r : result Failure GuardVerdict)
(* the handlers of [guard.rule.add], [update] and [remove]: the check, then the change *)
| AdCheck (caller_epoch : Z) (c : Call)
| AdRefused (e : GuardError)
| AdLock (c : Call)
| AdSave (c : Call)
| AdOld (c : Call)
| AdMem (c : Call)
| AdUndo (c : Call) (e : RuleError)
| AdPersist (c : Call) (e : Z)
| AdUndoDisk (c : Call) (err : RuleError)
| AdUndoMem (c : Call) (err : RuleError)
| AdEnd (r : result RuleError Z).

Definition r_initial (t : RTask) : bool :=
  match t with EvCheck _ | AdCheck _ _ => true | _ => false end.
(** The requests that hold [rule_orch_lock]. *)
Definition holds_orch (t : RTask) : bool :=
  match t with
  | AdSave _ | AdOld _ | AdMem _ | AdUndo _ _ | AdPersist _ _ | AdUndoDisk _ _ | AdUndoMem _ _ => true
  | _ => false
  end.

(** The verdict of [evaluate] from the hits and the epoch, before it is stored. *)
Definition build_verdict (j : Job) (hits : list RuleHit) (e : Z) (redacted : string) (n : nat)
  : GuardVerdict :=
  apply_redaction redacted n
    (set_category (match hits with
                   | [] => infer_category (j_content j)
                   | _ => infer_category_from_hits hits
                   end) (apply_hint (j_hint j) (verdict_from_hits hits e))).

Definition renames (n : string) (r : GuardRule) : bool := negb (String.eqb n (name r)).
Definition persist_failed (e : string) : RuleError := NotFound ("persist failed: " +:+ e).

(** [evaluate]: the epoch is checked, the content scanned and the epoch read again, each under a
    lock of the rules of its own; then the pending action is stored. *)
Definition step_evaluate (t : RTask) (g : AuditEngine) : option (AuditEngine * RTask) :=
  let s := e_store g in
  match t with
  | EvCheck j =>
      Some (g, match check_epoch (j_epoch j) (e_rules g) with
               | Err e => EvEnd j (Err (Failed e))
               | Ok _ => EvHits j
               end)
  | EvHits j =>
      Some (g, match evaluate_full_typed (j_content j) (j_type j) (e_rules g) with
               | Err Panic => EvEnd j (Err Panicked)
               | Ok hits => EvEpoch j hits
               end)
  | EvEpoch j hits =>
      let e := epoch (e_rules g) in
      Some (g, match redact_counted (e_redactor g) (j_content j) with
               | Err Panic => EvEnd j (Err Panicked)
               | Ok (redacted, n) =>
                   let v := build_verdict j hits e redacted n in
                   if needs_decision v then EvPut j (set_action_id (Some (j_uuid j)) v)
                   else EvEnd j (Ok v)
               end)
  | EvPut j v =>
      match j_fault j with
      | Some e => Some (g, EvEnd j (Err (Failed (Core.Engine ("pending action persist failed: " +:+ e)))))
      | None =>
          Some (with_store (with_actions (put (j_now j) v (j_tenant j) (actions s)) s) g, EvEnd j (Ok v))
      end
  | _ => None
  end.

(** [add_rule], [update_rule] and [remove_rule] after they took [rule_orch_lock]. *)
Definition step_add (c : Call) (r : GuardRule) (t : RTask) (g : AuditEngine)
  : option (AuditEngine * RTask) :=
  let s := e_store g in
  let id := mut_id (c_ids c) in
  let time := mut_time (c_ids c) in
  match t with
  | AdSave _ =>
      match save_rule (c_f1 c) (id 0) time r s with
      | (s', Err e) => Some (with_store s' g, AdEnd (Err (persist_failed e)))
      | (s', Ok _) => Some (with_store s' g, AdMem c)
      end
  | AdMem _ =>
      match add r (e_rules g) with
      | (_, Err e) => Some (g, AdUndo c e)
      | (inner, Ok e) => Some (with_rules_store inner s g, AdPersist c e)
      end
  | AdUndo _ e => Some (with_store (delete_rule (c_f2 c) (id 1) time (name r) s).1 g, AdEnd (Err e))
  | AdPersist _ e =>
      match persist (c_f3 c) (id 1) time e s with
      | (s', Ok _) => Some (with_store s' g, AdEnd (Ok e))
      | (s', Err err) => Some (with_store s' g, AdUndoDisk c (epoch_persist_failed err))
      end
  | AdUndoDisk _ err =>
      Some (with_store (delete_rule (c_f2 c) (id 2) time (name r) s).1 g, AdUndoMem c err)
  | AdUndoMem _ err => Some (with_rules_store (remove (name r) (e_rules g)).1 s g, AdEnd (Err err))
  | _ => None
  end.
Definition step_update (c : Call) (n : string) (r : GuardRule) (t : RTask) (g : AuditEngine)
  : option (AuditEngine * RTask) :=
  let s := e_store g in
  let id := mut_id (c_ids c) in
  let time := mut_time (c_ids c) in
  match t with
  | AdSave _ =>
      match save_rule (c_f1 c) (id 0) time r s with
      | (s', Err e) => Some (with_store s' g, AdEnd (Err (persist_failed e)))
      | (s', Ok _) => Some (with_store s' g, if renames n r then AdOld c else AdMem c)
      end
  | AdOld _ => Some (with_store (delete_rule (c_f2 c) (id 1) time n s).1 g, AdMem c)
  | AdMem _ =>
      match update n r (e_rules g) with
      | (_, Err e) => Some (g, if renames n r then AdUndo c e else AdEnd (Err e))
      | (inner, Ok e) => Some (with_rules_store inner s g, AdPersist c e)
      end
  | AdUndo _ e => Some (with_store (delete_rule (c_f4 c) (id 2) time (name r) s).1 g, AdEnd (Err e))
  | AdPersist _ e =>
      match persist (c_f3 c) (id 2) time e s with
      | (s', Ok _) => Some (with_store s' g, AdEnd (Ok e))
      | (s', Err err) => Some (with_store s' g, AdEnd (Err (epoch_persist_failed err)))
      end
  | _ => None
  end.
Definition step_remove (c : Call) (n : string) (t : RTask) (g : AuditEngine)
  : option (AuditEngine * RTask) :=
  let s := e_store g in
  let id := mut_id (c_ids c) in
  let time := mut_time (c_ids c) in
  match t with
  | AdSave _ =>
      match delete_rule (c_f1 c) (id 0) time n s with
      | (s', Err e) => Some (with_store s' g, AdEnd (Err (persist_failed e)))
      | (s', Ok _) => Some (with_store s' g, AdMem c)
      end
  | AdMem _ =>
      match remove n (e_rules g) with
      | (_, Err e) => Some (g, AdEnd (Err e))
      | (inner, Ok e) => Some (with_rules_store inner s g, AdPersist c e)
      end
  | AdPersist _ e =>
      match persist (c_f2 c) (id 1) time e s with
      | (s', Ok _) => Some (with_store s' g, AdEnd (Ok e))
      | (s', Err err) => Some (with_store s' g, AdEnd (Err (epoch_persist_failed err)))
      end
  | _ => None
  end.
Definition step_change (c : Call) (t : RTask) (g : AuditEngine) : option (AuditEngine * RTask) :=
  match c_change c with
  | CAdd r => step_add c r t g
  | CUpdate n r => step_update c n r t g
  | CRemove n => step_remove c n t g
  end.

(** One step of a request: [None] when it waits for the lock or is over. *)
Definition step_rtask (orch_free : bool) (t : RTask) (g : AuditEngine) : option (AuditEngine * RTask) :=
  match t with
  | EvCheck _ | EvHits _ | EvEpoch _ _ | EvPut _ _ => step_evaluate t g
  | EvEnd _ _ | AdRefused _ | AdEnd _ => None
  | AdCheck ce c =>
      Some (g, match check_epoch ce (e_rules g) with Err e => AdRefused e | Ok _ => AdLock c end)
  | AdLock c => if orch_free then Some (g, AdSave c) else None
  | AdSave c | AdOld c | AdMem c | AdUndo c _ | AdPersist c _ | AdUndoDisk c _ | AdUndoMem c _ =>
      step_change c t g
  end.

(** Everything else that happens to the store: all of it but the rules, their epoch and chain and
    the keys may change. *)
Definition graft (other s : Store) : Store :=
  mkStoreAll (audit other) (actions other) (toks s) (tcc_events other) (rule_mutations s)
    (rules_table s) (rule_epoch s) (tenant_bindings other) (dead_letter other) (low_queue other)
    (drain_alive other).

(** The requests under way; beside them, what has happened: the rule sets there have been, the
    changes in the order they took the lock, the results of those that are over (newest first). *)
Record RMachine : Type := mkRMachine {
  rm_engine : AuditEngine;
  rm_tasks : list RTask;
  rm_past : list Inner;
  rm_log : list Call;
  rm_results : list (result RuleError Z)
}.
Inductive REvent : Type :=
| RStart (t : RTask)
| RRun (i : nat)
| RElsewhere (other : Store).
Definition orch_free (ts : list RTask) : bool := forallb (fun t => negb (holds_orch t)) ts.
Definition logged (t t' : RTask) (log : list Call) : list Call :=
  match t, t' with AdLock _, AdSave c => c :: log | _, _ => log end.
Definition recorded (t' : RTask) (rs : list (result RuleError Z)) : list (result RuleError Z) :=
  match t' with AdEnd r => r :: rs | _ => rs end.
Definition rmachine_step (e : REvent) (m : RMachine) : option RMachine :=
  let g := rm_engine m in
  match e with
  | RStart t =>
      if r_initial t
      then Some (mkRMachine g (rm_tasks m ++ [t]) (rm_past m) (rm_log m) (rm_results m)) else None
  | RRun i =>
      t ← rm_tasks m !! i;
      '(g', t') ← step_rtask (orch_free (rm_tasks m)) t g;
      Some (mkRMachine g' (<[i := t']> (rm_tasks m)) (e_rules g' :: rm_past m) (logged t t' (rm_log m))
              (recorded t' (rm_results m)))
  | RElsewhere other =>
      Some (mkRMachine (with_store (graft other (e_store g)) g) (rm_tasks m) (rm_past m) (rm_log m)
              (rm_results m))
  end.
Fixpoint rmachine_run (es : list REvent) (m : RMachine) : option RMachine :=
  match es with [] => Some m | e :: es' => m' ← rmachine_step e m; rmachine_run es' m' end.
Definition r_booted (g : AuditEngine) : RMachine := mkRMachine g [] [e_rules g] [] [].

End WithParams.

(** The step of a request whose place is known. *)
Tactic Notation "cbn_rstep" :=
  cbn [step_rtask step_evaluate step_change step_add step_update step_remove c_change c_ids c_f1 c_f2
       c_f3 c_f4 e_store e_rules].
Tactic Notation "cbn_rstep" "in" hyp(E) :=
  cbn [step_rtask step_evaluate step_change step_add step_update step_remove c_change c_ids c_f1 c_f2
       c_f3 c_f4 e_store e_rules] in E.
End RuleThreads.
