(* ===== verification/RuleThreadsSpec.v ===== *)
(** * Properties of the engine's threads

    Changes of the rules are serialized, whatever runs beside them; an evaluation is that of the
    rules of one moment, stamped with the epoch of a later one; and what the check of the
    caller's epoch does not protect. *)
From S2P Require Import Prelude Core Pattern Tokenizer Semantic Rules Redact Tokens Chain ChainSpec Actions.
From S2P Require Import Ledger LedgerSpec Engine EngineSpec RuleThreads.

Module RuleThreadsSpec.
Import Tokenizer Rules RulesSpec Redact Tokens Chain Actions Ledger Engine EngineSpec RuleThreads.

Section WithParams.
Context `{RegexEngine, ShellEnv, Grammars, Crypto, RowCodec, VerdictCodec, StoreCodecLaws}.
#[local] Set Default Proof Using "All".

(** ** Changes are serialized *)

(** The engine with the rest of its store from elsewhere. *)
Definition engine_graft (other : Store) (g : AuditEngine) : AuditEngine :=
  with_store (graft other (e_store g)) g.
(** The part of the engine that the rules are: in memory, on disk, their chain and the keys. *)
Definition blank : Store := mkStoreAll (mkDb [] None) ∅ (mkStore ∅ ∅ "" 0) [] [] ∅ None ∅ [] [] true.
Definition rule_part (g : AuditEngine) : AuditEngine := engine_graft blank g.
(** The changes one after the other, newest first in the list, and their results. *)
Fixpoint serial (log : list Call) (g : AuditEngine) : AuditEngine * list (result RuleError Z) :=
  match log with
  | [] => (g, [])
  | c :: log' =>
      let '(g', rs) := serial log' g in
      let '(g'', r) := run_change c g' in (g'', r :: rs)
  end.

(** A change under way run to its end. *)
Fixpoint finish (n : nat) (t : RTask) (g : AuditEngine) : option (AuditEngine * result RuleError Z) :=
  match t with
  | AdEnd r => Some (g, r)
  | _ => match n with
         | 0 => None
         | S n' => '(g', t') ← step_rtask true t g; finish n' t' g'
         end
  end.
Lemma finish_S n t g : (forall r, t <> AdEnd r) ->
  finish (S n) t g = ('(g', t') ← step_rtask true t g; finish n t' g').
Proof. destruct t; cbn [finish]; try done. intros Hr. by destruct (Hr r). Qed.
Lemma finish_end n r g : finish n (AdEnd r) g = Some (g, r).
Proof. by destruct n. Qed.
Ltac reduce :=
  cbn_rstep; cbn [mbind option_bind fst snd e_store e_rules e_redactor with_store with_rules_store].
Ltac next := reduce; rewrite ?finish_end; try (rewrite finish_S by done); reduce.
Lemma finish_change c g : finish 6 (AdSave c) g = Some (run_change c g).
Proof.
  destruct g as [inner rd s]. unfold run_change.
  destruct c as [ids f1 f2 f3 f4 [r|n r|n]]; next; unfold add_rule, update_rule, remove_rule, renames;
    cbn [e_store e_rules].
  - destruct (save_rule _ _ _ _ _) as [s1 [[]|e]]; next; [|done].
    destruct (add r inner) as [inner' [e|e]]; next; [|by next].
    destruct (persist _ _ _ _ _) as [s2 [[]|e2]]; next; [done|]. next. by next.
  - destruct (save_rule _ _ _ _ _) as [s1 [[]|e]]; next; [|done].
    destruct (negb (String.eqb n (name r))) eqn:En; next; [next|]; unfold renames; rewrite ?En;
      (destruct (update n r inner) as [inner' [e|e]]; next; [|try done; by next]);
      destruct (persist _ _ _ _ _) as [s2 [[]|e2]]; next; done.
  - destruct (delete_rule _ _ _ _ _) as [s1 [[]|e]]; next; [|done].
    destruct (remove n inner) as [inner' [e|e]]; next; [|done].
    destruct (persist _ _ _ _ _) as [s2 [[]|e2]]; next; done.
Qed.
(** A step of a change neither sees nor touches the rest of the store. *)
Lemma step_graft other t g g' t' : holds_orch t = true -> step_rtask true t g = Some (g', t') ->
  step_rtask true t (engine_graft other g) = Some (engine_graft other g', t') /\
  (holds_orch t' = true \/ exists r, t' = AdEnd r).
Proof.
  destruct g as [inner rd s]. destruct t; try done; intros _;
    destruct c as [ids f1 f2 f3 f4 [r|n r|n]]; cbn_rstep; try done.
  all: unfold save_rule, delete_rule, persist, save_epoch, two_steps; cbn [engine_graft with_store with_rules_store e_store e_rules e_redactor].
  all: repeat match goal with
       | |- context [add ?r ?g] => destruct (add r g) as [? [?|?]]
       | |- context [update ?n ?r ?g] => destruct (update n r g) as [? [?|?]]
       | |- context [remove ?n ?g] => destruct (remove n g) as [? [?|?]]
       | |- context [renames ?n ?r] => destruct (renames n r)
       end.
  all: try destruct f1; try destruct f2; try destruct f3; try destruct f4; cbn.
  all: intros [= <- <-]; split; first done; eauto.
Qed.

Lemma graft_graft o1 o2 g : engine_graft o1 (engine_graft o2 g) = engine_graft o1 g.
Proof. done. Qed.
Lemma finish_graft other n t g g' r : holds_orch t = true \/ (exists r, t = AdEnd r) ->
  finish n t g = Some (g', r) -> finish n t (engine_graft other g) = Some (engine_graft other g', r).
Proof.
  revert t g. induction n as [|n IH]; intros t g [Ht|[r' ->]].
  - by destruct t.
  - rewrite !finish_end. by intros [= <- <-].
  - assert (Hne : forall r, t <> AdEnd r) by (intros ? ->; done). rewrite !finish_S by done.
    destruct (step_rtask true t g) as [[g1 t1]|] eqn:E; [|done]. cbn [mbind option_bind].
    destruct (step_graft other t g g1 t1 Ht E) as [-> Ht1]. cbn [mbind option_bind]. by apply IH.
  - rewrite !finish_end. by intros [= <- <-].
Qed.
Lemma change_rule_part c g g' r : run_change c g = (g', r) ->
  run_change c (rule_part g) = (rule_part g', r).
Proof.
  intros E. pose proof (finish_change c g) as Hf. rewrite E in Hf.
  apply (finish_graft blank) in Hf; [|by left]. rewrite finish_change in Hf. by injection Hf.
Qed.

Definition serial_inv (g0 : AuditEngine) (m : RMachine) : Prop :=
  exclusive holds_orch (rm_tasks m) /\
  match decide (orch_free (rm_tasks m) = true) with
  | left _ => rule_part (rm_engine m) = rule_part (serial (rm_log m) g0).1 /\
              rm_results m = (serial (rm_log m) g0).2
  | right _ =>
      exists c log, rm_log m = c :: log /\ rm_results m = (serial log g0).2 /\
      exists i t n g' r, rm_tasks m !! i = Some t /\ holds_orch t = true /\
        run_change c (serial log g0).1 = (g', r) /\
        finish n t (rule_part (rm_engine m)) = Some (rule_part g', r)
  end.

Lemma orch_free_spec ts : orch_free ts = true <-> forall i t, ts !! i = Some t -> holds_orch t = false.
Proof.
  unfold orch_free. rewrite forallb_forall. split.
  - intros Hf i t Hi. apply negb_true_iff, Hf. by apply list_elem_of_In, list_elem_of_lookup_2 with i.
  - intros Hf t [i Hi]%list_elem_of_In%list_elem_of_lookup. apply negb_true_iff. by eapply Hf.
Qed.
Lemma orch_taken ts i t : ts !! i = Some t -> holds_orch t = true -> orch_free ts <> true.
Proof. intros Hi Ht Hf. rewrite orch_free_spec in Hf. by rewrite (Hf i t Hi) in Ht. Qed.
(** A request that does not hold the lock changes nothing of the rules; it can take the lock. *)
Lemma step_outside b t g g' t' : holds_orch t = false -> step_rtask b t g = Some (g', t') ->
  rule_part g' = rule_part g /\
  ((exists c, t = AdLock c /\ t' = AdSave c /\ b = true) \/
   (holds_orch t' = false /\ (forall rs, recorded t' rs = rs) /\ forall log, logged t t' log = log)).
Proof.
  destruct t; try done; intros _; cbn_rstep.
  - intros [= <- <-]. split; [done|]. right. by destruct (check_epoch _ _).
  - intros [= <- <-]. split; [done|]. right. by destruct (evaluate_full_typed _ _ _) as [|[]].
  - intros [= <- <-]. split; [done|]. right. destruct (redact_counted _ _) as [[red k]|[]]; [|done].
    by destruct (needs_decision _).
  - destruct (j_fault j); intros [= <- <-]; (split; [done|]); by right.
  - intros [= <- <-]. split; [done|]. right. by destruct (check_epoch _ _).
  - destruct b; [|done]. intros [= <- <-]. split; [done|]. left. by exists c.
Qed.
Lemma step_holder b t g g' t' : holds_orch t = true -> step_rtask b t g = Some (g', t') ->
  step_rtask true t g = Some (g', t').
Proof. by destruct t. Qed.

Section Step.
Context (g0 : AuditEngine) (m : RMachine) (i : nat) (t t' : RTask) (g' : AuditEngine).
Context (Hinv : serial_inv g0 m) (Hi : rm_tasks m !! i = Some t).
Context (Est : step_rtask (orch_free (rm_tasks m)) t (rm_engine m) = Some (g', t')).
Let m' : RMachine :=
  mkRMachine g' (<[i := t']> (rm_tasks m)) (e_rules g' :: rm_past m) (logged t t' (rm_log m))
    (recorded t' (rm_results m)).

Lemma moved : rm_tasks m' !! i = Some t'.
Proof. apply list_lookup_insert_eq. by eapply lookup_lt_Some. Qed.
(** The request that holds the lock goes on, or ends and gives the lock back. *)
Lemma serial_holder : holds_orch t = true -> serial_inv g0 m'.
Proof.
  intros Eh. destruct Hinv as [Hex Hin].
  assert (Hothers : forall j u, i <> j -> rm_tasks m !! j = Some u -> holds_orch u = false).
  { intros j u Hij Hj. specialize (Hex i j t u Hij Hi Hj). by rewrite Eh in Hex. }
  split; [apply exclusive_insert; [done|]; intros j u Hij Hj; by rewrite (Hothers j u Hij Hj), andb_false_r|].
  destruct (decide (orch_free (rm_tasks m) = true)) as [Hf|_]; [by apply (orch_taken _ i t) in Hf|].
  destruct Hin as (c & log & Hlog & Hres & k & u & n & g1 & r & Hk & Hu & Hrun & Hfin).
  assert (k = i) as ->.
  { destruct (decide (k = i)); [done|]. specialize (Hothers k u). rewrite Hothers in Hu; [done|auto|done]. }
  rewrite Hi in Hk. injection Hk as <-. pose proof (step_holder _ _ _ _ _ Eh Est) as Est1.
  destruct (step_graft blank t _ _ _ Eh Est1) as [Est' Ht']. destruct n as [|n]; [by destruct t|].
  rewrite finish_S in Hfin by (intros ? ->; done). unfold rule_part in Hfin at 1.
  rewrite Est' in Hfin. cbn [mbind option_bind] in Hfin.
  assert (Hlg : forall l, logged t t' l = l) by (by destruct t).
  cbn [m' rm_log rm_results rm_engine]. rewrite Hlg. pose proof moved as Hmv. destruct Ht' as [Ht'|[r' Hr']].
  - destruct (decide _) as [Hf|_]; [by apply (orch_taken _ i t') in Hf|].
    exists c, log. split; [done|]. split; [by destruct t'|]. by exists i, t', n, g1, r.
  - rewrite Hr', finish_end in Hfin. apply (inj Some), pair_eq in Hfin as [Hg <-].
    destruct (decide _) as [_|Hf].
    + rewrite Hr', Hlog. cbn [serial]. destruct (serial log g0) as [gs rs]. cbn [fst] in Hrun.
      rewrite Hrun. cbn [fst snd recorded]. rewrite Hres. done.
    + destruct Hf. apply orch_free_spec. intros j u [(-> & <- & _)|[Hij Hj]]%list_lookup_insert_Some;
        [by rewrite Hr'|by eapply Hothers].
Qed.
(** The others leave the rules alone, or take the lock when it is free. *)
Lemma serial_outside : holds_orch t = false -> serial_inv g0 m'.
Proof.
  intros Eh. destruct Hinv as [Hex Hin].
  destruct (step_outside _ _ _ _ _ Eh Est) as [Hg [(c & Ht & Ht' & Hf)|(Ht' & Hrec & Hlg)]].
  - split.
    { apply exclusive_insert; [done|]. intros j u Hij Hj. rewrite orch_free_spec in Hf.
      by rewrite (Hf j u Hj), andb_false_r. }
    destruct (decide (orch_free (rm_tasks m) = true)) as [_|?]; [|done]. destruct Hin as [Hpart Hres].
    pose proof moved as Hmv. rewrite Ht' in Hmv.
    destruct (decide _) as [Hf'|_]; [by apply (orch_taken _ i (AdSave c)) in Hf'|].
    destruct (run_change c (serial (rm_log m) g0).1) as [g1 r] eqn:Hrun.
    exists c, (rm_log m). cbn [m' rm_log rm_results rm_engine]. rewrite Ht, Ht'. split; [done|]. split; [done|].
    exists i, (AdSave c), 6, g1, r. do 3 (split; [done|]).
    rewrite finish_change, Hg, Hpart. f_equal. by apply change_rule_part.
  - split; [apply exclusive_insert; [done|]; intros j u Hij Hj; by rewrite Ht'|].
    cbn [m' rm_log rm_results rm_engine]. rewrite Hlg, Hrec, Hg.
    assert (Hsame : orch_free (rm_tasks m') = true <-> orch_free (rm_tasks m) = true).
    { rewrite !orch_free_spec. split; intros Hf j u Hj.
      - destruct (decide (i = j)) as [->|Hij]; [congruence|]. apply (Hf j u). by apply list_lookup_insert_Some; auto.
      - apply list_lookup_insert_Some in Hj as [(-> & <- & _)|[Hij Hj]]; [done|by eapply Hf]. }
    destruct (decide (orch_free (rm_tasks m) = true)) as [Hf|Hf], (decide _) as [Hf'|Hf'];
      [done|by destruct Hf'; apply Hsame|by destruct Hf; apply Hsame|].
    destruct Hin as (c & log & Hlog & Hres & k & u & n & g1 & r & Hk & Hu & Hrun & Hfin).
    exists c, log. split; [done|]. split; [done|]. exists k, u, n, g1, r. split; [|done].
    apply list_lookup_insert_Some. right. split; [|done]. intros ->. rewrite Hi in Hk. injection Hk as ->. congruence.
Qed.
End Step.

Lemma serial_event g0 e m m' : serial_inv g0 m -> rmachine_step e m = Some m' -> serial_inv g0 m'.
Proof.
  intros Hinv. destruct e as [t|i|other]; cbn [rmachine_step].
  - destruct (r_initial t) eqn:Et; [|done]. intros [= <-]. destruct Hinv as [Hex Hin].
    assert (Ht : holds_orch t = false) by (by destruct t).
    assert (Hf : orch_free (rm_tasks m ++ [t]) = orch_free (rm_tasks m)).
    { unfold orch_free. rewrite forallb_app. cbn. by rewrite Ht, andb_true_r. }
    split.
    + intros i j a b Hij [Ha|[_ Ha]]%lookup_app_Some [Hb|[_ Hb]]%lookup_app_Some; cbn [rm_tasks] in *;
        [by eapply (Hex i j)|..];
        repeat match goal with H : [t] !! _ = Some _ |- _ => apply list_lookup_singleton_Some in H as [_ <-] end;
        by rewrite Ht, ?andb_false_r.
    + cbn [rm_tasks rm_engine rm_log rm_results]. rewrite Hf.
      destruct (decide _) as [_|_]; [done|]. destruct Hin as (c & log & ? & ? & k & u & n & g1 & r & Hk & ?).
      exists c, log. split; [done|]. split; [done|]. exists k, u, n, g1, r. split; [|done].
      by apply lookup_app_l_Some.
  - destruct (rm_tasks m !! i) as [t|] eqn:Hi; [|done]. cbn [mbind option_bind].
    destruct (step_rtask _ t _) as [[g' t']|] eqn:Est; [|done]. cbn [mbind option_bind]. intros [= <-].
    destruct (holds_orch t) eqn:Eh; [by eapply serial_holder|by eapply serial_outside].
  - by intros [= <-].
Qed.
Lemma serial_events g0 es m m' : serial_inv g0 m -> rmachine_run es m = Some m' -> serial_inv g0 m'.
Proof.
  revert m. induction es as [|e es IH]; intros m Hm; cbn; [by intros [= <-]|].
  destruct (rmachine_step e m) as [m1|] eqn:E; [|done]. cbn. apply IH. by eapply serial_event.
Qed.

(** ** The moments of an evaluation *)

(** The rules of one moment with the epoch of another. *)
Definition stamped (r1 r2 : Inner) : Inner := mkInner (rules r1) (compiled r1) (epoch r2).
(** What the uninterrupted evaluation of a job gives. *)
Definition evaluated (rd : Redactor) (fault : option string) (j : Job) (inner : Inner)
  : result Failure GuardVerdict :=
  (Engine.evaluate (j_uuid j) (j_now j) fault (j_content j) 0 (j_tenant j) (j_type j) (j_hint j)
     (mkEngine inner rd blank)).2.
Definition passed (j : Job) (r : Inner) : Prop := check_epoch (j_epoch j) r = Ok ().
Definition eval_inv (rd : Redactor) (past : list Inner) (t : RTask) : Prop :=
  match t with
  | EvHits j => exists r0, [r0] `sublist_of` past /\ passed j r0
  | EvEpoch j hits => exists r0 r1, [r1; r0] `sublist_of` past /\ passed j r0 /\
      evaluate_full_typed (j_content j) (j_type j) r1 = Ok hits
  | EvPut j v => exists r0 r1 r2, [r2; r1; r0] `sublist_of` past /\ passed j r0 /\
      evaluated rd None j (stamped r1 r2) = Ok v
  | EvEnd j (Ok v) => exists r0 r1 r2, [r2; r1; r0] `sublist_of` past /\ passed j r0 /\
      evaluated rd (j_fault j) j (stamped r1 r2) = Ok v
  | _ => True
  end.
Lemma eval_inv_past rd r past t : eval_inv rd past t -> eval_inv rd (r :: past) t.
Proof.
  destruct t; cbn [eval_inv]; try done.
  - intros (r0 & ? & ?). exists r0. split; [by apply sublist_cons|done].
  - intros (r0 & r1 & ? & ?). exists r0, r1. split; [by apply sublist_cons|done].
  - intros (r0 & r1 & r2 & ? & ?). exists r0, r1, r2. split; [by apply sublist_cons|done].
  - destruct r0; [|done]. intros (r0 & r1 & r2 & ? & ?). exists r0, r1, r2. split; [by apply sublist_cons|done].
Qed.
(** The scan depends on the rules, not on their epoch. *)
Lemma full_typed_stamped content ct r1 r2 :
  evaluate_full_typed content ct (stamped r1 r2) = evaluate_full_typed content ct r1.
Proof. done. Qed.
Lemma evaluated_stamped rd fault j r1 r2 hits red n :
  evaluate_full_typed (j_content j) (j_type j) r1 = Ok hits -> redact_counted rd (j_content j) = Ok (red, n) ->
  evaluated rd fault j (stamped r1 r2)
  = (let v := build_verdict j hits (epoch r2) red n in
     if needs_decision v then
       match fault with
       | Some e => Err (Failed (Core.Engine ("pending action persist failed: " +:+ e)))
       | None => Ok (set_action_id (Some (j_uuid j)) v)
       end
     else Ok v).
Proof.
  intros Hh Hr. unfold evaluated, Engine.evaluate. cbn [check_epoch Z.eqb negb andb e_rules e_redactor].
  rewrite full_typed_stamped, Hh, Hr. cbv zeta. unfold build_verdict.
  destruct (needs_decision _); [|done]. by destruct fault.
Qed.
Lemma eval_step rd past b t g g' t' : e_redactor g = rd -> eval_inv rd past t ->
  step_rtask b t g = Some (g', t') -> eval_inv rd (e_rules g' :: past) t' /\ e_redactor g' = rd.
Proof.
  intros Hrd Hok Hs. assert (Hred : e_redactor g' = rd).
  { destruct t; cbn_rstep in Hs; unfold step_change in Hs; repeat (case_match; cbn_rstep in Hs); by simplify_eq. }
  split; [|done]. clear Hred. destruct t; cbn_rstep in Hs.
  1: { injection Hs as <- <-. destruct (check_epoch _ _) as [[]|e] eqn:E; [|done].
       exists (e_rules g). split; [|done]. apply sublist_skip, sublist_nil_l. }
  1: { injection Hs as <- <-. destruct (evaluate_full_typed _ _ _) as [hits|[]] eqn:E; [|done].
       destruct Hok as (r0 & ? & ?). exists r0, (e_rules g). split; [by apply sublist_skip|done]. }
  1: { injection Hs as <- <-. destruct Hok as (r0 & r1 & Hsub & Hp & Hh).
       destruct (redact_counted _ _) as [[red n]|[]] eqn:E; [|done]. rewrite Hrd in E.
       pose proof (fun fault => evaluated_stamped rd fault j r1 (e_rules g) hits red n Hh E) as Hev.
       cbv zeta in *. destruct (needs_decision _) eqn:En; exists r0, r1, (e_rules g);
         (split; [by apply sublist_skip|]); (split; [done|]); by rewrite Hev, ?En. }
  1: { destruct Hok as (r0 & r1 & r2 & Hsub & Hp & Hev). destruct (j_fault j) eqn:Ej; injection Hs as <- <-; [done|].
       exists r0, r1, r2. split; [by apply sublist_cons|]. split; [done|]. by rewrite Ej. }
  all: unfold step_change in Hs; repeat (case_match; cbn_rstep in Hs); simplify_eq; done.
Qed.
Definition moments_inv (rd : Redactor) (m : RMachine) : Prop :=
  e_redactor (rm_engine m) = rd /\ Forall (eval_inv rd (rm_past m)) (rm_tasks m).
Lemma moments_event rd e m m' : moments_inv rd m -> rmachine_step e m = Some m' -> moments_inv rd m'.
Proof.
  intros [Hrd Hf]. destruct e as [t|i|other]; cbn [rmachine_step].
  - destruct (r_initial t) eqn:Et; [|done]. intros [= <-]. split; [done|].
    apply Forall_app. split; [done|]. constructor; [by destruct t|constructor].
  - destruct (rm_tasks m !! i) as [t|] eqn:Hi; [|done]. cbn [mbind option_bind].
    destruct (step_rtask _ t _) as [[g' t']|] eqn:Est; [|done]. cbn [mbind option_bind]. intros [= <-].
    rewrite Forall_lookup in Hf.
    destruct (eval_step rd (rm_past m) _ t _ g' t' Hrd (Hf i t Hi) Est) as [Ht' Hrd'].
    split; [done|]. cbn [rm_past rm_tasks]. apply Forall_lookup.
    intros j u [(-> & -> & _)|[Hij Hj]]%list_lookup_insert_Some; [done|]. by eapply eval_inv_past, Hf.
  - by intros [= <-].
Qed.
Lemma moments_events rd es m m' : moments_inv rd m -> rmachine_run es m = Some m' -> moments_inv rd m'.
Proof.
  revert m. induction es as [|e es IH]; intros m Hm; cbn; [by intros [= <-]|].
  destruct (rmachine_step e m) as [m1|] eqn:E; [|done]. cbn. apply IH. by eapply moments_event.
Qed.

Lemma disk_sync_part g g' : rule_part g = rule_part g' -> disk_sync g -> disk_sync g'.
Proof.
  intros E (Hwf & Hu & Ht & He). injection E as E1 _ _ _ E2 E3. unfold disk_sync.
  by rewrite <- E1, <- E2, <- E3.
Qed.
End WithParams.

(** [C16] Rule changes are serialized whatever runs beside them: however the steps of additions,
    updates and removals (with failing SQL statements and their rollbacks), of evaluations and of
    everything else in the store interleave, whenever no change is under way the rules in memory,
    on disk, their epochs and their mutation chain are exactly what the changes give when run one
    after the other in the order they took the lock, each with the same result; so disk and memory
    agree at every such moment if the changes were successful ones. *)
Theorem rule_changes_serial `{RegexEngine, ShellEnv, Grammars, Crypto, RowCodec, VerdictCodec, StoreCodecLaws}
  g es m (Hrun : rmachine_run es (r_booted g) = Some m) (Hfree : orch_free (rm_tasks m) = true) :
  rule_part (rm_engine m) = rule_part (serial (rm_log m) g).1 /\
  rm_results m = (serial (rm_log m) g).2 /\
  (disk_sync g -> rtc rule_change g (serial (rm_log m) g).1 -> disk_sync (rm_engine m)).
Proof.
  assert (Hm : serial_inv g m).
  { eapply serial_events; [|exact Hrun]. split; [by intros [|i] j a b|].
    by destruct (decide _) as [_|[]]. }
  destruct Hm as [_ Hm]. destruct (decide _) as [_|?]; [|done]. destruct Hm as [Hp Hr].
  split; [done|]. split; [done|]. intros Hs Hc. apply (disk_sync_part _ _ (eq_sym Hp)).
  clear -Hs Hc. induction Hc as [|a b c Hab _ IH]; [done|]. by eapply IH, change_sync.
Qed.

(** [C17] An evaluation that overlaps with rule changes is still the evaluation of one rule set:
    its verdict is what the uninterrupted evaluation gives on the rules [r1] of a single moment
    between its start and its end, stamped with the epoch of a moment [r2] not before it; and the
    caller's epoch was zero or the current one at a moment [r0] not after it. *)
Theorem evaluation_of_one_moment `{RegexEngine, ShellEnv, Grammars, Crypto, RowCodec, VerdictCodec, StoreCodecLaws}
  g es m i j v (Hrun : rmachine_run es (r_booted g) = Some m)
  (Hend : rm_tasks m !! i = Some (EvEnd j (Ok v))) :
  exists r0 r1 r2, [r2; r1; r0] `sublist_of` rm_past m /\
    (j_epoch j = 0%Z \/ j_epoch j = epoch r0) /\
    (Engine.evaluate (j_uuid j) (j_now j) (j_fault j) (j_content j) 0 (j_tenant j) (j_type j) (j_hint j)
       (mkEngine (stamped r1 r2) (e_redactor g) blank)).2 = Ok v /\
    verdict_epoch v = epoch r2.
Proof.
  assert (Hm : moments_inv (e_redactor g) m) by (by eapply moments_events; [|exact Hrun]).
  destruct Hm as [_ Hm]. rewrite Forall_lookup in Hm.
  destruct (Hm i _ Hend) as (r0 & r1 & r2 & Hsub & Hp & Hev). exists r0, r1, r2.
  split; [done|]. split; [by apply check_epoch_ok|]. split; [done|].
  unfold evaluated in Hev. destruct (Engine.evaluate _ _ _ _ _ _ _ _ _) as [g' res] eqn:E. cbn in Hev. subst res.
  apply evaluate_ok_verdict in E as (hits & red & n & _ & _ & ->).
  by destruct (base_kept hits (epoch r2) (j_content j) red n (j_hint j)) as (_ & _ & He & _).
Qed.

#[local] Existing Instances sample_regex sample_env sample_grammars ChainSpec.toy_crypto
  ChainSpec.toy_codec LedgerSpec.toy_store_codec LedgerSpec.toy_store_laws full_verdict_codec.
(** *** Examples *)
Definition demo_call (c : Change) : Call := mkCall demo_ids NoFault NoFault NoFault NoFault c.
Definition demo_job (content : string) : Job := mkJob "u1" 100 None content 5 "acme" Json None.
Definition run_n (i n : nat) : list REvent := replicate n (RRun i).
(** An addition and a removal whose steps alternate with each other and with an evaluation; the
    removal waits until the addition is over. *)
Definition two_changes : list REvent :=
  [RStart (AdCheck 5 (demo_call (CAdd (sample_rule "c" "ls" Block L4))));
   RStart (AdCheck 5 (demo_call (CRemove "a"))); RStart (EvCheck (demo_job "ls"));
   RRun 0; RRun 1; RRun 0; RRun 2; RRun 0; RRun 2; RRun 0; RRun 2; RRun 0] ++ run_n 1 4.
Lemma rule_changes_serial_witness :
  match rmachine_run two_changes (r_booted demo) with
  | Some m => rm_results m = [Ok 7%Z; Ok 6%Z] /\
              rule_part (rm_engine m) = rule_part (serial (rm_log m) demo).1
  | None => False
  end.
Proof.
  destruct (rmachine_run two_changes (r_booted demo)) as [m|] eqn:E; [|vm_compute in E; discriminate E].
  split; [vm_compute in E; injection E as <-; reflexivity|].
  apply (rule_changes_serial demo two_changes m E). vm_compute in E. injection E as <-. reflexivity.
Defined.
(** The evaluation scanned before the rule that blocks [ls] was there, and carries the epoch of
    the rule set that has it. *)
Definition verdict_at (i : nat) (m : RMachine) : option (SafetyAction * Z) :=
  match rm_tasks m !! i with Some (EvEnd _ (Ok v)) => Some (action v, verdict_epoch v) | _ => None end.
Lemma evaluation_of_one_moment_witness :
  match rmachine_run two_changes (r_booted demo) with
  | Some m => exists r0 r1 r2, [r2; r1; r0] `sublist_of` rm_past m /\ epoch r2 = 6%Z
  | None => False
  end.
Proof.
  destruct (rmachine_run two_changes (r_booted demo)) as [m|] eqn:E; [|vm_compute in E; discriminate E].
  assert (Hv : exists v, rm_tasks m !! 2 = Some (EvEnd (demo_job "ls") (Ok v)) /\ verdict_epoch v = 6%Z)
    by (vm_compute in E; injection E as <-; eexists; split; reflexivity).
  destruct Hv as (v & Hv & He).
  destruct (evaluation_of_one_moment demo two_changes m 2 (demo_job "ls") v E Hv)
    as (r0 & r1 & r2 & Hs & _ & _ & Hep).
  exists r0, r1, r2. split; [exact Hs|]. rewrite <- Hep. exact He.
Defined.

(** ** What the epoch does not protect *)

(** A verdict can carry an epoch whose rules block its content: a client that keeps verdicts by
    their epoch takes "allowed" for the answer of the new rules. *)
Lemma verdict_of_newer_epoch :
  verdict_at 2 <$> rmachine_run two_changes (r_booted demo) = Some (Some (Allow, 6%Z)) /\
  let g := (serial [demo_call (CAdd (sample_rule "c" "ls" Block L4))] demo).1 in
  match (Engine.evaluate "u2" 100 None "ls" 6 "acme" Json None g).2 with
  | Ok v => action v = Block /\ verdict_epoch v = 6%Z
  | Err _ => False
  end.
Proof. vm_compute. done. Qed.
(** Two administrators who read the rules at the same epoch both change them: the handler checks
    the caller's epoch before it takes the lock, so the second change is not refused although the
    first has moved the epoch. *)
Lemma stale_change_accepted :
  rm_results <$> rmachine_run two_changes (r_booted demo) = Some [Ok 7%Z; Ok 6%Z].
Proof. vm_compute. done. Qed.
End RuleThreadsSpec.
