(* ===== verification/Auth.v ===== *)
(** * Authentication (fg-ipc/src/authorizer.rs, fg-peercred/src/lib.rs, fg-store/src/secret_store.rs)

    Who is at the other end of a connection, which methods that peer may call, and where the
    shared secret of the daemon comes from.  The system calls, the environment and the
    Keychain are arguments. *)
From S2P Require Import Prelude Core Tokens Ledger.

(** The trait [TenantLookup]: the tenants a uid is bound to. *)
Class TenantLookup (T : Type) : Type := lookup_tenants : T -> Z -> list string.
#[global] Instance store_lookup : TenantLookup Ledger.Store :=
  fun s uid => Ledger.tenants_for_uid uid s.

Module Auth.
Import Tokens.

(** *** Peer credentials *)

Inductive PeerUid : Type :=
| Resolved (uid : Z)
| SyscallFail
| Unsupported.
Definition resolved (p : PeerUid) : option Z :=
  match p with Resolved u => Some u | _ => None end.
Definition is_syscall_fail (p : PeerUid) : bool :=
  match p with SyscallFail => true | _ => false end.
(** [peer_uid] on the platform it is compiled for, given the uid [getpeereid] or [SO_PEERCRED]
    reported, if the call succeeded *)
Inductive TargetOs : Type := MacOs | Linux | OtherOs.
Definition peer_uid (os : TargetOs) (reported : option Z) : PeerUid :=
  match os with
  | MacOs | Linux => match reported with Some u => Resolved u | None => SyscallFail end
  | OtherOs => Unsupported
  end.
Definition U32_MAX : Z := 2 ^ 32 - 1.

(** [peer_allowed] *)
Definition peer_allowed (peer : PeerUid) (our_uid : Z) (allow_root : bool) : bool :=
  match peer with
  | Resolved uid => if allow_root && Z.eqb uid 0 then true else Z.eqb uid our_uid
  | SyscallFail | Unsupported => false
  end.

Record CallerIdentity : Type := mkIdentity {
  uid : Z;
  auth_ok : bool;
  is_admin : bool;
  tenants : list string
}.
(** [CallerIdentity::tenant_allowed] *)
Definition tenant_allowed (tenant : string) (i : CallerIdentity) : bool :=
  if is_admin i then true else mem_str tenant (tenants i).

(** [PeerAuthorizer::resolve_identity] *)
Definition resolve_identity `{TenantLookup T} (t : T) (peer : PeerUid) (our_uid : Z)
  : CallerIdentity :=
  if peer_allowed peer our_uid true then
    let u := default our_uid (resolved peer) in
    let admin := Z.eqb u 0 in
    mkIdentity u true admin (if admin then [] else lookup_tenants t u)
  else mkIdentity (default U32_MAX (resolved peer)) false false [].

(** *** The shared secret of a request *)

(** [constant_time_eq]: the accumulator is a [u8]. *)
Definition u8 (n : N) : N := (n mod 256)%N.
Definition byte_or_0 (l : list ascii) (i : nat) : N := from_option N_of_ascii 0%N (l !! i).
Definition ct_step (a b : list ascii) (acc : N) (i : nat) : N :=
  N.lor acc (N.lxor (byte_or_0 a i) (byte_or_0 b i)).
Definition constant_time_eq (a b : list ascii) : bool :=
  let acc := u8 (N.lxor (N.of_nat (length a)) (N.of_nat (length b))) in
  N.eqb (foldl (ct_step a b) acc (seq 0 (Nat.max (length a) (length b)))) 0.

Inductive AuthDecision : Type := AuthAllow | DenyPeercred | DenySecret.
#[global] Instance AuthDecision_eq_dec : EqDecision AuthDecision.
Proof. solve_decision. Defined.

(** [AuthDecision::deny_resp]: the code and the message of the error response. *)
Definition deny_resp (d : AuthDecision) : option (Z * string) :=
  match d with
  | AuthAllow => None
  | DenyPeercred => Some ((-32001)%Z, "unauthorized: peercred denied")
  | DenySecret => Some ((-32001)%Z, "unauthorized: secret denied")
  end.

(** [PeerAuthorizer::authorize_method] *)
Definition PING : string := "guard.ping".
Definition authorize_method (shared_secret : option string) (i : CallerIdentity)
    (method : string) (provided : option string) : AuthDecision :=
  if negb (auth_ok i) && negb (String.eqb method PING) then DenyPeercred
  else if negb (String.eqb method PING) then
    match shared_secret with
    | None => AuthAllow
    | Some expected =>
        match provided with
        | Some p => if constant_time_eq (bytes p) (bytes expected) then AuthAllow else DenySecret
        | None => DenySecret
        end
    end
  else AuthAllow.

(** *** The source of the secret *)

Inductive SharedSecretSource : Type := SKeychain | SEnvDebug | SEnvInsecure | SNone.
Definition resolve_shared_secret (debug allow_insecure env_present : bool) : SharedSecretSource :=
  if env_present && (debug || allow_insecure) then (if debug then SEnvDebug else SEnvInsecure)
  else SKeychain.

(** The process environment and the platform. *)
Record SecretEnv : Type := mkSecretEnv {
  s_debug : bool;
  s_macos : bool;
  env_secret : option string;
  env_allow_insecure : option string;
  env_allow_no_secret : option string;
  s_store : string -> result string ();
  s_random : string
}.
(** A flag variable is set to 1 or true. *)
Definition flag_set (o : option string) : bool :=
  match o with
  | Some v => String.eqb v "1" || String.eqb (to_ascii_lowercase v) "true"
  | None => false
  end.
Definition env_present (e : SecretEnv) : bool := bool_decide (is_Some (env_secret e)).

(** [keychain_secret_get], both platforms; [kc] is the Keychain's entry. *)
Definition keychain_secret_get (e : SecretEnv) (kc : option string) : result string (option string) :=
  if negb (s_macos e) then Ok None
  else match kc with
  | Some v => if utf8_valid v then Ok (if str_empty v then None else Some v)
              else Err "shared secret not utf8"
  | None => Ok None
  end.
(** [generate_shared_secret] *)
Definition generate_shared_secret (e : SecretEnv) : string := hex_encode (s_random e).
Definition env_value (e : SecretEnv) : option string :=
  v ← env_secret e; if str_empty v then None else Some v.

(** [load_shared_secret]: the secret and its source, and the Keychain afterwards. *)
Definition load_shared_secret (e : SecretEnv) (kc : option string)
  : (option string * SharedSecretSource) * option string :=
  if flag_set (env_allow_no_secret e) && negb (env_present e) then ((None, SNone), kc)
  else if s_debug e then
    if env_present e then ((env_value e, SEnvDebug), kc) else ((None, SNone), kc)
  else match resolve_shared_secret false (flag_set (env_allow_insecure e)) (env_present e) with
  | SKeychain =>
      match keychain_secret_get e kc with
      | Ok (Some s) => ((Some s, SKeychain), kc)
      | Ok None =>
          if env_present e then ((None, SNone), kc)
          else if s_macos e then
            let new := generate_shared_secret e in
            match s_store e new with
            | Ok _ => ((Some new, SKeychain), Some new)
            | Err _ => ((None, SNone), kc)
            end
          else ((None, SNone), kc)
      | Err _ => ((None, SNone), kc)
      end
  | SEnvDebug => ((env_value e, SEnvDebug), kc)
  | SEnvInsecure => ((env_value e, SEnvInsecure), kc)
  | SNone => ((None, SNone), kc)
  end.

(** [require_shared_secret_for_release] *)
Definition require_shared_secret_for_release (e : SecretEnv) (kc : option string)
  : result string () :=
  if s_debug e then Ok ()
  else if flag_set (env_allow_no_secret e) then Ok ()
  else if env_present e && flag_set (env_allow_insecure e) then Ok ()
  else match keychain_secret_get e kc with
  | Ok (Some _) => Ok ()
  | _ => Err "refusing to start: shared secret not found in Keychain or env"
  end.
End Auth.

(** ** Properties of authentication *)
Module AuthSpec.
Import Tokens Auth.

(** *** The comparison of secrets *)

Definition NUL : ascii := ascii_of_nat 0.

Lemma u8_lxor_zero a b : u8 (N.lxor a b) = 0%N <-> (a mod 256 = b mod 256)%N.
Proof.
  unfold u8. change 256%N with (2 ^ 8)%N. rewrite <- !N.land_ones. split.
  - intros E. apply N.bits_inj. intros i. apply (f_equal (fun n => N.testbit n i)) in E.
    rewrite !N.land_spec, N.lxor_spec, N.bits_0 in *.
    destruct (N.testbit a i), (N.testbit b i), (N.testbit (N.ones 8) i); cbn in *; congruence.
  - intros E. apply N.bits_inj. intros i. apply (f_equal (fun n => N.testbit n i)) in E.
    rewrite !N.land_spec, N.lxor_spec, N.bits_0 in *.
    destruct (N.testbit a i), (N.testbit b i), (N.testbit (N.ones 8) i); cbn in *; congruence.
Qed.
Lemma lor_zero a b : N.lor a b = 0%N <-> a = 0%N /\ b = 0%N.
Proof. split; [apply N.lor_eq_0_iff|by intros [-> ->]]. Qed.
Lemma ct_fold_zero a b acc l :
  foldl (ct_step a b) acc l = 0%N <->
  acc = 0%N /\ forall i, In i l -> byte_or_0 a i = byte_or_0 b i.
Proof.
  revert acc. induction l as [|i l IH]; intros acc; cbn [foldl].
  - split; [by intros ->|by intros [-> _]].
  - rewrite IH. unfold ct_step at 1. rewrite lor_zero, N.lxor_eq_0_iff. split.
    + intros [[-> Hi] Hl]. split; [done|]. intros j [<-|Hj]; auto.
    + intros [-> Hl]. split; [split; [done|apply Hl; by left]|intros j Hj; apply Hl; by right].
Qed.
Lemma constant_time_eq_bytes a b : constant_time_eq a b = true <->
  (N.of_nat (length a) mod 256 = N.of_nat (length b) mod 256)%N /\
  forall i, i < Nat.max (length a) (length b) -> byte_or_0 a i = byte_or_0 b i.
Proof.
  unfold constant_time_eq. rewrite N.eqb_eq, ct_fold_zero, u8_lxor_zero. split; intros [H1 H2]; (split; [done|]).
  - intros i Hi. apply H2, in_seq. lia.
  - intros i Hi%in_seq. apply H2. lia.
Qed.
Lemma byte_or_0_nul (c : ascii) : N_of_ascii c = 0%N -> c = NUL.
Proof. intros E. rewrite <- (ascii_N_embedding c), E. done. Qed.

(** A longer list that agrees with a shorter one padded by zero bytes is that list followed
    by zero bytes. *)
Lemma padded a b : length b <= length a ->
  (forall i, i < length a -> byte_or_0 a i = byte_or_0 b i) ->
  a = b ++ replicate (length a - length b) NUL.
Proof.
  intros Hlen Hi. apply list_eq. intros i. unfold byte_or_0 in Hi.
  destruct (decide (i < length a)) as [Hia|Hia].
  2: { rewrite !lookup_ge_None_2; [done| |lia]. rewrite length_app, length_replicate. lia. }
  specialize (Hi i Hia). destruct (lookup_lt_is_Some_2 a i Hia) as [x Hx]. rewrite Hx in Hi |- *. cbn in Hi.
  destruct (decide (i < length b)) as [Hib|Hib].
  - destruct (lookup_lt_is_Some_2 b i Hib) as [y Hy]. rewrite Hy in Hi. cbn in Hi.
    rewrite lookup_app_l, Hy by done. f_equal. by rewrite <- (ascii_N_embedding x), Hi, ascii_N_embedding.
  - rewrite (lookup_ge_None_2 b i) in Hi by lia. cbn in Hi.
    rewrite lookup_app_r by lia. symmetry. apply lookup_replicate. split; [by apply byte_or_0_nul|lia].
Qed.
Lemma lengths_mod la lb : lb <= la ->
  (N.of_nat la mod 256 = N.of_nat lb mod 256)%N -> exists k, la - lb = 256 * k.
Proof.
  intros Hle E. exists (N.to_nat ((N.of_nat la - N.of_nat lb) / 256)).
  pose proof (N.div_mod (N.of_nat la) 256 ltac:(lia)). pose proof (N.div_mod (N.of_nat lb) 256 ltac:(lia)).
  assert (Hd : (N.of_nat la - N.of_nat lb = 256 * (N.of_nat la / 256 - N.of_nat lb / 256))%N) by lia.
  rewrite Hd, N.mul_comm, N.div_mul by lia. lia.
Qed.
Lemma constant_time_eq_pad a k :
  constant_time_eq (a ++ replicate (256 * k) NUL) a = true.
Proof.
  apply constant_time_eq_bytes. rewrite length_app, length_replicate. split.
  - rewrite Nat2N.inj_add, Nat2N.inj_mul, N.mul_comm. apply N.Div0.mod_add.
  - intros i Hi. unfold byte_or_0. destruct (decide (i < length a)); [by rewrite lookup_app_l|].
    rewrite lookup_app_r by lia. rewrite lookup_replicate_2 by lia. by rewrite (lookup_ge_None_2 a) by lia.
Qed.
Lemma constant_time_eq_sym a b : constant_time_eq a b = constant_time_eq b a.
Proof.
  apply eq_true_iff_eq. rewrite !constant_time_eq_bytes.
  split; intros [E Hi]; (split; [done|]); intros i ?; symmetry; apply Hi; lia.
Qed.

(** What the comparison of secrets accepts: exactly the equal strings, and the strings
    of which one is the other followed by a multiple of 256 zero bytes (the difference of
    the lengths is folded into a single byte). *)
Theorem constant_time_eq_spec a b :
  constant_time_eq a b = true <->
  exists k, a = b ++ replicate (256 * k) NUL \/ b = a ++ replicate (256 * k) NUL.
Proof.
  split.
  - intros [Hm Hi]%constant_time_eq_bytes. destruct (le_ge_dec (length b) (length a)) as [Hle|Hle].
    + destruct (lengths_mod _ _ Hle Hm) as [k Hk]. exists k. left. rewrite <- Hk.
      apply padded; [done|]. intros i ?. apply Hi. lia.
    + destruct (lengths_mod _ _ Hle (eq_sym Hm)) as [k Hk]. exists k. right. rewrite <- Hk.
      apply padded; [lia|]. intros i ?. symmetry. apply Hi. lia.
  - intros [k [-> | ->]]; [apply constant_time_eq_pad|].
    rewrite constant_time_eq_sym. apply constant_time_eq_pad.
Qed.

(** *** Who may call what *)

Lemma authorize_allow secret i method provided :
  authorize_method secret i method provided = AuthAllow <->
  method = PING \/
  (auth_ok i = true /\
   forall s, secret = Some s -> exists p, provided = Some p /\ constant_time_eq (bytes p) (bytes s) = true).
Proof.
  unfold authorize_method. destruct (String.eqb_spec method PING) as [->|Hne].
  - cbn [negb]. rewrite andb_false_r. split; auto.
  - destruct (auth_ok i); cbn [negb andb].
    + destruct secret as [s|].
      * destruct provided as [p|].
        -- destruct (constant_time_eq (bytes p) (bytes s)) eqn:E; split.
           ++ intros _. right. split; [done|]. intros ? [= <-]. by exists p.
           ++ done.
           ++ done.
           ++ intros [?|[_ Hp]]; [done|]. destruct (Hp s eq_refl) as (p' & [= <-] & ?). congruence.
        -- split; [done|]. intros [?|[_ Hp]]; [done|]. by destruct (Hp s eq_refl) as (p' & ? & _).
      * split; [intros _; right; by split|done].
    + split; [done|]. intros [?|[? _]]; done.
Qed.


Lemma keychain_nonempty e kc s : keychain_secret_get e kc = Ok (Some s) -> s <> "".
Proof.
  unfold keychain_secret_get. destruct (negb (s_macos e)); [done|]. destruct kc as [v|]; [|done].
  destruct (utf8_valid v); [|done]. destruct (str_empty v) eqn:E; [done|]. intros [= <-] ->. done.
Qed.
(** A release build never runs without a secret by accident: when the start-up gate passes and
    the flag that waives the secret is not set, the secret loaded afterwards is not empty (if
    the variable for it is not set to nothing). *)
Lemma release_has_secret e kc : s_debug e = false -> flag_set (env_allow_no_secret e) = false ->
  env_secret e <> Some "" -> require_shared_secret_for_release e kc = Ok () ->
  exists s, (load_shared_secret e kc).1.1 = Some s /\ s <> "".
Proof.
  intros Hrel Hflag Henv Hgate.
  unfold require_shared_secret_for_release, load_shared_secret in *. rewrite Hrel, Hflag in *.
  cbn [andb] in *. unfold resolve_shared_secret, env_present, env_value in *.
  destruct (env_secret e) as [v|] eqn:Ev; cbn in *; [destruct (flag_set (env_allow_insecure e)) eqn:Ef; cbn in *|].
  - destruct v as [|c v]; [done|]. by exists (String c v).
  - destruct (keychain_secret_get e kc) as [[s|]|] eqn:Ek; cbn in *; try done.
    exists s. split; [done|]. by eapply keychain_nonempty.
  - destruct (keychain_secret_get e kc) as [[s|]|] eqn:Ek; cbn in *; try done.
    exists s. split; [done|]. by eapply keychain_nonempty.
Qed.
Definition mac_env (secret insecure : option string) : SecretEnv :=
  mkSecretEnv false true secret insecure None (fun _ => Ok ()) "0123456789abcdef0123456789abcdef".
(** *** Where the code does not do what its comments say *)

(** With the variable set to nothing and the flag for secrets from the environment, a
    release build passes the gate and runs without checking a secret. *)
Lemma empty_env_secret_passes_gate :
  let e := mac_env (Some "") (Some "1") in
  let '((secret, _), kc) := load_shared_secret e None in
  secret = None /\ require_shared_secret_for_release e kc = Ok () /\
  authorize_method secret (mkIdentity 501 true false []) "guard.reveal" None = AuthAllow.
Proof. vm_compute. auto. Qed.
(** The secret a release build would make at its first start is never made: the gate comes
    first and refuses. *)
Lemma first_start_refused :
  let e := mac_env None None in
  require_shared_secret_for_release e None = Err "refusing to start: shared secret not found in Keychain or env" /\
  is_Some (load_shared_secret e None).1.1.
Proof. split; [reflexivity|]. vm_compute. by eexists. Qed.
(** A wrong secret of the right form is accepted: the daemon's own followed by 256 zero
    bytes. *)
Lemma padded_secret_accepted :
  let s := "secret" in
  let wrong := of_bytes (bytes s ++ replicate 256 NUL) in
  wrong <> s /\
  authorize_method (Some s) (mkIdentity 501 true false []) "guard.reveal" (Some wrong) = AuthAllow.
Proof. split; [discriminate|vm_compute; reflexivity]. Qed.
End AuthSpec.
