(* ===== verification/Cluster.v ===== *)
(** * The cluster consumer (crate fg-cluster)

    Keys derived from the cluster token, the canonical JSON that is signed, the MAC, the
    verification of a chain segment fetched from another node, and the HTTP client.  HKDF and
    SHA-256 are the class [ClusterHash], the crate hex the class [HexCodec]; HMAC is the one of
    [Crypto].  The HTTP exchange is an argument: a function from requests to outcomes. *)
From stdpp Require Import pretty sorting.
From S2P Require Import Prelude Json Core Pattern Tokens Chain ChainSpec Actions Ledger.

Class ClusterHash : Type := {
  (** HKDF-SHA256 without salt, 32 bytes of output: secret, info *)
  hkdf_sha256 : string -> string -> string;
  sha256 : string -> string
}.
Class HexCodec : Type := {
  hex_enc : string -> string;
  hex_dec : string -> option string
}.
Class HexLaws `{HexCodec} : Prop := {
  hex_roundtrip s : hex_dec (hex_enc s) = Some s;
  hex_enc_empty s : hex_enc s = "" -> s = ""
}.

Module Cluster.
Import Json Ledger.

(** *** Keys and MACs (key.rs) *)

Definition AUDIT_CHAIN_INFO : string := "fusion-multinode-audit-chain-v1".
Definition RULE_EPOCH_INFO : string := "fusion-multinode-rule-epoch-v1".
Definition CONFIRM_RELAY_INFO : string := "fusion-multinode-confirm-relay-v1".

(** *** Records and messages (lib.rs) *)

Record AuditChainRecord : Type := mkRecord {
  c_ts : string;
  c_actor : string;
  c_action : string;
  c_path : string;
  c_method : string;
  c_node_id : string;
  c_result : string;
  c_detail : string;
  c_seq : option Z;
  c_prev_hash : option string;
  c_mac : option string
}.
#[global] Instance AuditChainRecord_eq_dec : EqDecision AuditChainRecord.
Proof. solve_decision. Defined.
Definition record_entries (r : AuditChainRecord) : list (string * Value) :=
  [("ts", Str (c_ts r)); ("actor", Str (c_actor r)); ("action", Str (c_action r));
   ("path", Str (c_path r)); ("method", Str (c_method r)); ("node_id", Str (c_node_id r));
   ("result", Str (c_result r)); ("detail", Str (c_detail r));
   ("seq", opt_value u64_value (c_seq r)); ("prev_hash", opt_value Str (c_prev_hash r));
   ("mac", opt_value Str (c_mac r))].
Definition record_value (r : AuditChainRecord) : Value := obj (record_entries r).
Definition record_names : list string :=
  ["ts"; "actor"; "action"; "path"; "method"; "node_id"; "result"; "detail"; "seq"; "prev_hash";
   "mac"].
Definition record_of_value (v : Value) : option AuditChainRecord :=
  fs ← struct_fields record_names v;
  match fs with
  | [f1; f2; f3; f4; f5; f6; f7; f8; f9; f10; f11] =>
      ts ← req as_str f1; actor ← req as_str f2; act ← req as_str f3;
      path ← dflt "" as_str f4; meth ← dflt "" as_str f5; node ← dflt "" as_str f6;
      res ← dflt "" as_str f7; det ← dflt "" as_str f8; sq ← dflt None (of_option as_u64) f9;
      prev ← dflt None (of_option as_str) f10; mac ← dflt None (of_option as_str) f11;
      Some (mkRecord ts actor act path meth node res det sq prev mac)
  | _ => None
  end.

Record AuditChainResponse : Type := mkChainResp {
  cr_node_id : string;
  cr_records : list AuditChainRecord;
  cr_fetched_at : string;
  cr_truncated : bool
}.
Definition chain_resp_of_value (v : Value) : option AuditChainResponse :=
  fs ← struct_fields ["node_id"; "records"; "fetched_at"; "truncated"] v;
  match fs with
  | [f1; f2; f3; f4] =>
      n ← req as_str f1; rs ← req (of_vec record_of_value) f2; at_ ← req as_str f3;
      t ← dflt false as_bool f4; Some (mkChainResp n rs at_ t)
  | _ => None
  end.
Record RuleEpochResponse : Type := mkEpochResp { er_epoch : Z; er_advanced_at : string }.
Definition epoch_resp_of_value (v : Value) : option RuleEpochResponse :=
  fs ← struct_fields ["epoch"; "advanced_at"] v;
  match fs with
  | [f1; f2] => e ← req as_u64 f1; a ← dflt "" as_str f2; Some (mkEpochResp e a)
  | _ => None
  end.
(** [ConfirmPayload], and [ConfirmRelayRequest], which adds the MAC. *)
Definition confirm_entries (confirm_id node_id action : string) (epoch : Z) (ts : string)
  : list (string * Value) :=
  [("confirm_id", Str confirm_id); ("node_id", Str node_id); ("action", Str action);
   ("epoch", u64_value epoch); ("ts", Str ts)].
Record ConfirmRelayResponse : Type := mkRelayResp {
  rl_status : string;
  rl_confirm_id : string;
  rl_node_id : string;
  rl_reason : string;
  rl_epoch : Z
}.
Definition relay_resp_of_value (v : Value) : option ConfirmRelayResponse :=
  fs ← struct_fields ["status"; "confirm_id"; "node_id"; "reason"; "epoch"] v;
  match fs with
  | [f1; f2; f3; f4; f5] =>
      s ← req as_str f1; c ← dflt "" as_str f2; n ← dflt "" as_str f3; w ← dflt "" as_str f4;
      e ← dflt 0%Z as_u64 f5; Some (mkRelayResp s c n w e)
  | _ => None
  end.
Definition relay_resp_value (r : ConfirmRelayResponse) : Value :=
  obj [("status", Str (rl_status r)); ("confirm_id", Str (rl_confirm_id r));
       ("node_id", Str (rl_node_id r)); ("reason", Str (rl_reason r));
       ("epoch", u64_value (rl_epoch r))].
Record ConfirmListResponse : Type := mkListResp { cl_confirms : list Value; cl_count : Z }.
Definition list_resp_of_value (v : Value) : option ConfirmListResponse :=
  fs ← struct_fields ["confirms"; "count"] v;
  match fs with
  | [f1; f2] =>
      l ← req (of_vec (fun v => Some (normalize v))) f1; n ← dflt 0%Z as_u64 f2;
      Some (mkListResp l n)
  | _ => None
  end.
Definition list_resp_value (r : ConfirmListResponse) : Value :=
  obj [("confirms", Arr (cl_confirms r)); ("count", u64_value (cl_count r))].

(** *** Verification of a segment (verify.rs) *)

Record ChainVerifyResult : Type := mkSegment {
  sg_node_id : string;
  sg_total : nat;
  sg_verified : nat;
  sg_broken : nat;
  sg_baseline : nat;
  sg_tampered : bool;
  sg_first_broken : option nat
}.
Definition segment_value (r : ChainVerifyResult) : Value :=
  obj [("node_id", Str (sg_node_id r)); ("total_records", usize_value (sg_total r));
       ("verified_links", usize_value (sg_verified r)); ("broken_links", usize_value (sg_broken r));
       ("baseline_records", usize_value (sg_baseline r)); ("tampered", Bool (sg_tampered r));
       ("first_broken_at", opt_value usize_value (sg_first_broken r))].
(** [is_baseline] *)
Definition is_baseline (r : AuditChainRecord) : bool :=
  match c_seq r, c_prev_hash r, c_mac r with Some _, Some _, Some _ => false | _, _, _ => true end.

(** The variables of the loop. *)
Record SegState : Type := mkSeg {
  sv_index : nat;
  sv_verified : nat;
  sv_broken : nat;
  sv_baseline : nat;
  sv_tampered : bool;
  sv_first : option nat;
  sv_prev : option string
}.
Definition seg_init : SegState := mkSeg 0 0 0 0 false None None.
Definition seg_baseline (s : SegState) : SegState :=
  mkSeg (S (sv_index s)) (sv_verified s) (sv_broken s) (S (sv_baseline s)) (sv_tampered s)
    (sv_first s) None.
Definition seg_broken (s : SegState) : SegState :=
  mkSeg (S (sv_index s)) (sv_verified s) (S (sv_broken s)) (sv_baseline s) true
    (match sv_first s with None => Some (sv_index s) | f => f end) None.
Definition seg_linked (hash : string) (s : SegState) : SegState :=
  mkSeg (S (sv_index s)) (S (sv_verified s)) (sv_broken s) (sv_baseline s) (sv_tampered s)
    (sv_first s) (Some hash).

(** *** The client (client.rs) *)

Record ClusterConfig : Type := mkConfig {
  master_host : string;
  master_port : Z;
  cluster_token : string
}.
(** [str::parse::<u16>]: an optional plus sign and decimal digits. *)
Fixpoint digits_Z (s : string) (acc : Z) : option Z :=
  match s with
  | EmptyString => Some acc
  | String a s' =>
      if in_range a 48 57 then digits_Z s' (acc * 10 + (Z.of_nat (nat_of_ascii a) - 48)) else None
  end.
Definition parse_u16 (s : string) : option Z :=
  let ds := default s (strip_prefix "+" s) in
  if str_empty ds then None else n ← digits_Z ds 0; if Z.ltb n (2 ^ 16) then Some n else None.
(** [ClusterConfig::from_env]; the three variables are arguments. *)
Definition from_env (token host port : option string) : option ClusterConfig :=
  t ← token;
  if str_empty t then None
  else Some (mkConfig (default "127.0.0.1" host) (default 11450%Z (port ≫= parse_u16)) t).

Inductive ClusterError : Type :=
| Transport (msg : string)
| HttpStatus (status : Z) (body : string)
| Decode (msg : string).
(** [Display] *)
Definition cluster_error_text (e : ClusterError) : string :=
  match e with
  | Transport m => "cluster transport: " +:+ m
  | HttpStatus s b => "cluster HTTP " +:+ pretty s +:+ ": " +:+ b
  | Decode m => "cluster response decode: " +:+ m
  end.

Record HttpRequest : Type := mkHttp {
  h_method : string;
  h_url : string;
  h_auth : string;
  h_body : option Value
}.
(** What sending a request comes to: an error of the transport, a response whose body
    cannot be read, or a response. *)
Inductive HttpOutcome : Type :=
| SendFailed (msg : string)
| BodyFailed (msg : string)
| Responded (status : Z) (body : string).

Section WithParams.
Context `{JsonText, Crypto, ClusterHash, HexCodec}.

(** [hkdf_derive] and the three keys *)
Definition hkdf_derive (secret info : string) : string := hkdf_sha256 secret info.
Definition derive_audit_chain_key (token : string) : string := hkdf_derive token AUDIT_CHAIN_INFO.
Definition derive_rule_epoch_key (token : string) : string := hkdf_derive token RULE_EPOCH_INFO.
Definition derive_confirm_relay_key (token : string) : string := hkdf_derive token CONFIRM_RELAY_INFO.
(** [mac_payload] and [verify_mac]; HMAC accepts keys of every length. *)
Definition mac_payload (key canonical : string) : string := hex_enc (hmac key canonical).
Definition verify_mac (key canonical mac_hex : string) : bool :=
  if str_empty mac_hex then false
  else String.eqb (hmac key canonical) (default "" (hex_dec mac_hex)).
(** [serialize_sorted]: the keys of the top level sorted, their values inserted in that order *)
Definition ordered (es : list (string * Value)) : list (string * Value) :=
  foldl (fun m k => match lookup_key k es with Some v => map_insert k v m | None => m end)
    [] (merge_sort str_le (es.*1)).
Definition canonical_json (payload : Value) : string :=
  match payload with Obj es => json_text (Obj (ordered es)) | other => json_text other end.

(** [chain_payload] and [canonical_full] *)
Definition chain_payload (r : AuditChainRecord) : string :=
  canonical_json (match record_value r with Obj es => Obj (map_remove "mac" es) | v => v end).
Definition canonical_full (r : AuditChainRecord) : string := canonical_json (record_value r).
Definition record_hash (r : AuditChainRecord) : string := hex_enc (sha256 (canonical_full r)).

(** One iteration of the loop of [verify_chain_segment]. *)
Definition mac_ok (chain_key : string) (r : AuditChainRecord) : bool :=
  match c_mac r with Some m => verify_mac chain_key (chain_payload r) m | None => false end.
Definition verify_record (chain_key : string) (s : SegState) (r : AuditChainRecord) : SegState :=
  if is_baseline r then seg_baseline s
  else if negb (mac_ok chain_key r) then seg_broken s
  else match sv_prev s with
  | Some expected =>
      let actual := default "" (c_prev_hash r) in
      if str_empty actual then seg_linked (record_hash r) s
      else if negb (String.eqb actual expected) then seg_broken s
      else seg_linked (record_hash r) s
  | None => seg_linked (record_hash r) s
  end.
Definition verify_chain_segment (node_id : string) (records : list AuditChainRecord)
    (chain_key : string) : ChainVerifyResult :=
  let s := foldl (verify_record chain_key) seg_init records in
  mkSegment node_id (length records) (sv_verified s) (sv_broken s) (sv_baseline s)
    (sv_tampered s) (sv_first s).

(** [url], [auth_header] and [decode_resp]; an error of [send], which every call maps to
    [Transport] with its own label before it decodes, is taken here. *)
Definition url (cfg : ClusterConfig) (path : string) : string :=
  "http://" +:+ master_host cfg +:+ ":" +:+ pretty (master_port cfg) +:+ path.
Definition auth_header (cfg : ClusterConfig) : string := "Bearer " +:+ cluster_token cfg.
Definition decode_resp {A} (decode : Value -> option A) (what : string) (o : HttpOutcome)
  : result ClusterError A :=
  match o with
  | SendFailed m => Err (Transport (what +:+ ": " +:+ m))
  | BodyFailed m => Err (Decode ("read body: " +:+ m))
  | Responded status body =>
      if negb (Z.leb 200 status && Z.ltb status 300) then Err (HttpStatus status body)
      else ok_or (Decode "decode: ") (json_parse body ≫= decode)
  end.

Section WithHttp.
Context (http : HttpRequest -> HttpOutcome) (cfg : ClusterConfig).

Definition fetch_audit_chain (since_seq : Z) : result ClusterError AuditChainResponse :=
  decode_resp chain_resp_of_value "GET audit/chain"
    (http (mkHttp "GET" (url cfg "/api/v1/audit/chain" +:+ "?since_seq=" +:+ pretty since_seq)
             (auth_header cfg) None)).
Definition get_rule_epoch : result ClusterError RuleEpochResponse :=
  decode_resp epoch_resp_of_value "GET rules/epoch"
    (http (mkHttp "GET" (url cfg "/api/v1/rules/epoch") (auth_header cfg) None)).
Definition advance_rule_epoch (reason : string) : result ClusterError RuleEpochResponse :=
  decode_resp epoch_resp_of_value "POST epoch/advance"
    (http (mkHttp "POST" (url cfg "/api/v1/rules/epoch/advance") (auth_header cfg)
             (Some (Obj [("reason", Str reason)])))).
(** The request of [relay_confirm], signed, and the call. *)
Definition relay_request (confirm_id node_id action : string) (epoch : Z) (ts : string)
  : HttpRequest :=
  let payload := confirm_entries confirm_id node_id action epoch ts in
  let mac := mac_payload (derive_confirm_relay_key (cluster_token cfg))
               (canonical_json (obj payload)) in
  mkHttp "POST" (url cfg "/api/confirm") (auth_header cfg)
    (Some (Obj (payload ++ [("mac", Str mac)]))).
Definition relay_confirm (confirm_id node_id action : string) (epoch : Z) (ts : string)
  : result ClusterError ConfirmRelayResponse :=
  decode_resp relay_resp_of_value "POST confirm"
    (http (relay_request confirm_id node_id action epoch ts)).
Definition list_confirms (epoch : option Z) : result ClusterError ConfirmListResponse :=
  let u := match epoch with
           | Some e => url cfg "/api/v1/confirms" +:+ "?epoch=" +:+ pretty e
           | None => url cfg "/api/v1/confirms"
           end in
  decode_resp list_resp_of_value "GET confirms" (http (mkHttp "GET" u (auth_header cfg) None)).
End WithHttp.

End WithParams.
End Cluster.
