(* ===== verification/ClusterSpec.v ===== *)
(** * Properties of the cluster consumer

    The canonical JSON depends on the members only; the MAC check accepts exactly the digest;
    the verification of a segment is compared with a declarative description of genuine
    segments; a relayed confirmation verifies at the receiver. *)
From stdpp Require Import pretty sorting.
From S2P Require Import Prelude Json Core Pattern Tokens Chain ChainSpec Actions Ledger LedgerSpec.
From S2P Require Import Cluster.

Module ClusterSpec.
Import Json JsonFacts Ledger Cluster.

(** *** Canonical JSON *)

Lemma ordered_fold es ks m k :
  lookup_key k (foldl (fun m k => match lookup_key k es with Some v => map_insert k v m | None => m end)
                  m ks) =
  if mem_str k ks then (match lookup_key k es with Some v => Some v | None => lookup_key k m end)
  else lookup_key k m.
Proof.
  revert m. induction ks as [|k1 ks IH]; intros m; [done|]. cbn [foldl]. rewrite IH. cbn [mem_str existsb].
  destruct (String.eqb_spec k k1) as [->|Hne]; cbn [orb].
  - destruct (lookup_key k1 es) as [v|] eqn:E; [|by destruct (mem_str k1 ks)].
    rewrite lookup_map_insert, String.eqb_refl. by destruct (mem_str k1 ks).
  - assert (lookup_key k (match lookup_key k1 es with Some v => map_insert k1 v m | None => m end)
            = lookup_key k m) as ->; [|done].
    destruct (lookup_key k1 es); [|done]. rewrite lookup_map_insert.
    by rewrite (proj2 (String.eqb_neq _ _) Hne).
Qed.
Lemma lookup_ordered k es : lookup_key k (ordered es) = lookup_key k es.
Proof.
  unfold ordered. rewrite ordered_fold. cbn [lookup_key].
  destruct (mem_str k (merge_sort str_le es.*1)) eqn:E; [by destruct (lookup_key k es)|].
  apply mem_str_not_In in E. symmetry. apply lookup_key_None. contradict E.
  eapply Permutation_in; [symmetry; apply merge_sort_Permutation|done].
Qed.
Lemma ordered_sorted es : keys_sorted (ordered es) = true.
Proof.
  unfold ordered. assert (keys_sorted [] = true) as Hs by done. revert Hs. generalize (@nil (string * Value)).
  induction (merge_sort str_le es.*1) as [|k ks IH]; intros m Hm; [done|]. cbn [foldl]. apply IH.
  destruct (lookup_key k es); [by apply map_insert_sorted|done].
Qed.
Lemma ordered_map_of es : NoDup (es.*1) -> ordered es = map_of es.
Proof.
  intros Hnd. apply sorted_lookup_eq; [apply ordered_sorted|apply map_of_sorted|]. intros k.
  rewrite lookup_ordered, lookup_map_of. apply lookup_key_perm; [done|]. by rewrite reverse_Permutation.
Qed.
Lemma In_lookup_key k v es : NoDup (es.*1) -> In (k, v) es <-> lookup_key k es = Some v.
Proof. intros Hnd. split; [by apply lookup_key_NoDup|apply lookup_key_In]. Qed.
Lemma same_lookup_perm es1 es2 : NoDup (es1.*1) -> NoDup (es2.*1) ->
  (forall k, lookup_key k es1 = lookup_key k es2) -> es1 ≡ₚ es2.
Proof.
  intros H1 H2 Heq. apply NoDup_Permutation; [by eapply NoDup_fmap_1|by eapply NoDup_fmap_1|].
  intros [k v]. rewrite !list_elem_of_In, !In_lookup_key by done. by rewrite Heq.
Qed.

Section WithParams.
Context `{JsonText, Crypto, ClusterHash, HexCodec}.

Lemma canonical_json_obj es : NoDup (es.*1) -> canonical_json (Obj es) = json_text (obj es).
Proof. intros Hnd. unfold canonical_json, obj. by rewrite ordered_map_of. Qed.

Lemma canonical_json_map es : canonical_json (obj es) = json_text (obj es).
Proof.
  unfold obj. rewrite canonical_json_obj by apply keys_sorted_NoDup, map_of_sorted. unfold obj.
  by rewrite (map_of_id (map_of es)) by apply map_of_sorted.
Qed.

(** Two objects have the same canonical text exactly when they have the same members,
    in whatever order the members were inserted. *)
Theorem canonical_json_faithful {HL : JsonTextLaws} es1 es2
  (Hnd1 : NoDup (es1.*1)) (Hnd2 : NoDup (es2.*1))
  (Hp1 : printable DEPTH_LIMIT (Obj es1) = true) (Hp2 : printable DEPTH_LIMIT (Obj es2) = true) :
  canonical_json (Obj es1) = canonical_json (Obj es2) <-> es1 ≡ₚ es2.
Proof.
  rewrite !canonical_json_obj by done. split.
  - intros E. apply (f_equal json_parse) in E.
    rewrite !json_roundtrip in E; [|by apply printable_obj..]. injection E as E.
    apply same_lookup_perm; [done..|]. intros k.
    rewrite <- (lookup_ordered k es1), <- (lookup_ordered k es2), !ordered_map_of by done. by rewrite E.
  - intros E. unfold obj. by rewrite (map_of_perm _ _ Hnd1 E).
Qed.

(** *** MACs *)

Lemma verify_mac_iff {HL : HmacLaws} k c m :
  verify_mac k c m = true <-> m <> "" /\ hex_dec m = Some (hmac k c).
Proof.
  unfold verify_mac. destruct m as [|a m]; cbn [str_empty]; [by split; [|intros []]|].
  rewrite String.eqb_eq. split.
  - intros E. split; [done|]. destruct (hex_dec (String a m)) as [d|]; cbn in E; [by subst|].
    pose proof (hmac_length k c) as Hl. by rewrite E in Hl.
  - intros [_ ->]. done.
Qed.
Lemma verify_mac_payload {HL : HmacLaws} {HX : HexLaws} k c : verify_mac k c (mac_payload k c) = true.
Proof.
  apply verify_mac_iff. split; [|apply hex_roundtrip]. intros E. apply hex_enc_empty in E.
  pose proof (hmac_length k c) as Hl. by rewrite E in Hl.
Qed.

(** *** Segments *)

(** A record that the verification accepts after the record [prev]. *)
Definition genuine (key : string) (prev : option AuditChainRecord) (r : AuditChainRecord) : Prop :=
  is_baseline r = true \/
  (mac_ok key r = true /\
   match prev with
   | Some p => is_baseline p = true \/ c_prev_hash r = Some "" \/ c_prev_hash r = Some (record_hash p)
   | None => True
   end).
Fixpoint segment_ok (key : string) (prev : option AuditChainRecord) (rs : list AuditChainRecord)
  : Prop :=
  match rs with
  | [] => True
  | r :: rs' => genuine key prev r /\ segment_ok key (Some r) rs'
  end.
(** The hash the next record must link to. *)
Definition anchor (prev : option AuditChainRecord) : option string :=
  match prev with Some p => if is_baseline p then None else Some (record_hash p) | None => None end.

Lemma seg_tampered_mono key rs s :
  sv_tampered s = true -> sv_tampered (foldl (verify_record key) s rs) = true.
Proof.
  revert s. induction rs as [|r rs IH]; intros s Hs; [done|]. apply IH. unfold verify_record.
  repeat case_match; done.
Qed.
Lemma not_baseline_prev r : is_baseline r = false -> exists h, c_prev_hash r = Some h.
Proof. unfold is_baseline. repeat case_match; try done. eauto. Qed.
(** One step either keeps the flag and moves the anchor, or raises the flag. *)
Lemma verify_record_step key s prev r : sv_tampered s = false -> sv_prev s = anchor prev ->
  let s' := verify_record key s r in
  (genuine key prev r /\ sv_tampered s' = false /\ sv_prev s' = anchor (Some r)) \/
  (~ genuine key prev r /\ sv_tampered s' = true).
Proof.
  intros Ht Hp. unfold verify_record, genuine, anchor.
  destruct (is_baseline r) eqn:Eb; [left; split; [by left|done]|].
  destruct (mac_ok key r) eqn:Em; cbn [negb].
  2: { right. split; [|done]. intros [?|[? _]]; done. }
  destruct (not_baseline_prev r Eb) as [h Eh]. rewrite Eh, Hp. unfold anchor. cbn [from_option id].
  destruct prev as [p|]; [|left; split; [by right|done]].
  destruct (is_baseline p) eqn:Ebp; [left; split; [right; split; [done|by left]|done]|].
  destruct h as [|a h]; cbn [str_empty]; [left; split; [right; auto|done]|].
  destruct (String.eqb_spec (String a h) (record_hash p)) as [E|E]; cbn [negb].
  - left. split; [|done]. right. split; [done|]. right. right. by rewrite E.
  - right. split; [|done]. intros [?|[_ [?|[?|?]]]]; congruence.
Qed.
Lemma segment_scan key s prev rs : sv_tampered s = false -> sv_prev s = anchor prev ->
  sv_tampered (foldl (verify_record key) s rs) = false <-> segment_ok key prev rs.
Proof.
  revert s prev. induction rs as [|r rs IH]; intros s prev Ht Hp; [by cbn|]. cbn [foldl segment_ok].
  destruct (verify_record_step key s prev r Ht Hp) as [(Hg & Ht' & Hp')|[Hg Ht']].
  - rewrite (IH _ (Some r)) by done. tauto.
  - rewrite (seg_tampered_mono _ _ _ Ht'). split; [done|]. by intros [? _].
Qed.


(** What the loop variables mean. *)
Definition seg_inv (s : SegState) : Prop :=
  sv_verified s + sv_broken s + sv_baseline s = sv_index s /\
  sv_tampered s = Nat.ltb 0 (sv_broken s) /\
  match sv_first s with
  | Some i => sv_tampered s = true /\ i < sv_index s
  | None => sv_tampered s = false
  end.
Lemma seg_steps_inv s h : seg_inv s ->
  seg_inv (seg_baseline s) /\ seg_inv (seg_broken s) /\ seg_inv (seg_linked h s).
Proof.
  destruct s as [i v b bl t f pv]. unfold seg_inv. cbn. intros (Hsum & -> & Hf).
  destruct f as [j|]; [destruct Hf as [Hf Hj]; rewrite Hf|rewrite Hf]; repeat split; try done; lia.
Qed.
Lemma verify_record_inv key s r : seg_inv s ->
  seg_inv (verify_record key s r) /\ sv_index (verify_record key s r) = S (sv_index s).
Proof.
  intros Hs. destruct (seg_steps_inv s (record_hash r) Hs) as (H1' & H2' & H3').
  unfold verify_record. repeat case_match; done.
Qed.
Lemma segment_inv key rs :
  seg_inv (foldl (verify_record key) seg_init rs) /\
  sv_index (foldl (verify_record key) seg_init rs) = length rs.
Proof.
  induction rs as [|r rs [IH Hi]] using rev_ind; [done|]. rewrite foldl_snoc, length_app. cbn [length].
  destruct (verify_record_inv key _ r IH) as [Hinv E]. split; [done|]. rewrite E, Hi. lia.
Qed.
Lemma segment_first key rs i :
  sv_first (foldl (verify_record key) seg_init rs) = Some i ->
  sv_tampered (foldl (verify_record key) seg_init (take i rs)) = false /\
  sv_tampered (foldl (verify_record key) seg_init (take (S i) rs)) = true.
Proof.
  induction rs as [|r rs IH] using rev_ind; [done|]. rewrite foldl_snoc.
  destruct (segment_inv key rs) as [(Hsum & Ht & Hf) Hi].
  set (s := foldl (verify_record key) seg_init rs) in *.
  destruct (sv_first s) as [j|] eqn:Ef.
  - destruct Hf as [_ Hj]. intros E.
    assert (j = i) as ->.
    { unfold verify_record, seg_baseline, seg_broken, seg_linked in E.
      repeat case_match; cbn in E; rewrite ?Ef in E; congruence. }
    rewrite !take_app_le by lia. by apply IH.
  - intros E. assert (i = length rs /\ sv_tampered (verify_record key s r) = true) as [-> Hb].
    { unfold verify_record, seg_baseline, seg_broken, seg_linked in *.
      repeat case_match; cbn in *; rewrite ?Ef in E; try congruence; split; congruence. }
    rewrite take_app_length, (take_ge (rs ++ [r])) by (rewrite length_app; cbn; lia).
    rewrite foldl_snoc. done.
Qed.

(** The report of a segment is consistent: the counters add up to the number of records,
    the segment is reported as tampered exactly when a link is counted as broken, and the index
    of the first break is that of the first record that is not genuine. *)
Theorem segment_report node key rs :
  let r := verify_chain_segment node rs key in
  sg_total r = length rs /\ sg_verified r + sg_broken r + sg_baseline r = sg_total r /\
  (sg_tampered r = true <-> 0 < sg_broken r) /\
  (sg_tampered r = true <-> is_Some (sg_first_broken r)) /\
  (forall i, sg_first_broken r = Some i ->
     segment_ok key None (take i rs) /\ ~ segment_ok key None (take (S i) rs)).
Proof.
  cbn -[take]. destruct (segment_inv key rs) as [(Hsum & Ht & Hf) Hi].
  split; [done|]. split; [lia|]. split; [rewrite Ht; apply Nat.ltb_lt|]. split.
  - destruct (sv_first _); [split; [eauto|tauto]|]. rewrite Hf. by split; [|intros []].
  - intros i [E1 E2]%segment_first. split; [by apply (segment_scan key seg_init None)|].
    rewrite <- (segment_scan key seg_init None) by done. congruence.
Qed.

(** *** What a clean segment pins down *)

(** Every record after the first links to its predecessor, and none is a baseline. *)
Definition strict (rs : list AuditChainRecord) : Prop :=
  Forall (fun r => is_baseline r = false) rs /\
  Forall (fun r => c_prev_hash r <> Some "") (tail rs).

Lemma segment_ok_snoc key prev rs r :
  segment_ok key prev (rs ++ [r]) <->
  segment_ok key prev rs /\ genuine key (match last rs with Some p => Some p | None => prev end) r.
Proof.
  revert prev. induction rs as [|x rs IH]; intros prev; [cbn; tauto|]. cbn [app segment_ok].
  rewrite IH, last_cons. destruct (last rs); tauto.
Qed.
Lemma strict_snoc rs r p : last rs = Some p -> strict (rs ++ [r]) ->
  strict rs /\ is_baseline r = false /\ is_baseline p = false /\ c_prev_hash r <> Some "".
Proof.
  intros Hl [Hb Ht]. apply Forall_app in Hb as [Hb Hr]. destruct rs as [|x rs]; [done|].
  cbn [tail app] in Ht. apply Forall_app in Ht as [Ht1 Ht2]. rewrite Forall_singleton in Hr, Ht2.
  split; [done|]. split; [done|]. split; [|done].
  apply last_Some in Hl as [l' E]. rewrite E in Hb. rewrite Forall_app, Forall_singleton in Hb. tauto.
Qed.
Lemma genuine_strict key p r : is_baseline p = false -> is_baseline r = false ->
  c_prev_hash r <> Some "" -> genuine key (Some p) r -> c_prev_hash r = Some (record_hash p).
Proof. intros H1' H2' H3' [?|[_ [?|[?|?]]]]; congruence. Qed.


(** *** Relayed confirmations *)

(** What the receiver checks: the MAC of the members without the MAC itself. *)
Definition relay_accepts (token : string) (body : Value) : bool :=
  match body with
  | Obj es =>
      match lookup_key "mac" es with
      | Some (Str m) =>
          verify_mac (derive_confirm_relay_key token) (canonical_json (Obj (map_remove "mac" es))) m
      | _ => false
      end
  | _ => false
  end.
(** The request that relays a confirmation carries the five fields it was asked to relay
    and a MAC that a holder of the same token accepts; the token itself is in the header only. *)
Theorem relay_request_verifies {HL : HmacLaws} {HX : HexLaws} cfg cid node act epoch ts :
  exists es, h_body (relay_request cfg cid node act epoch ts) = Some (Obj es) /\
  map_remove "mac" es = confirm_entries cid node act epoch ts /\
  relay_accepts (cluster_token cfg) (Obj es) = true.
Proof.
  eexists. split; [reflexivity|]. split; [reflexivity|].
  unfold relay_accepts. cbn [app confirm_entries lookup_key map_remove List.filter negb String.eqb
    Ascii.eqb Bool.eqb fst snd].
  fold (confirm_entries cid node act epoch ts). rewrite canonical_json_map, canonical_json_obj.
  - apply verify_mac_payload.
  - apply (bool_decide_unpack _). reflexivity.
Qed.

End WithParams.

(** *** Examples *)

#[local] Existing Instances ChainSpec.toy_crypto ChainSpec.toy_hmac_laws.
#[local] Instance toy_hash : ClusterHash := {| hkdf_sha256 s i := s +:+ i; sha256 s := hmac "" s |}.
#[local] Instance toy_hex : HexCodec := {| hex_enc s := s; hex_dec s := Some s |}.
#[local] Instance toy_hex_laws : HexLaws.
Proof. by split. Qed.

(** A printer that is enough to compute with. *)
Fixpoint plain (v : Value) : string :=
  match v with
  | Null => "null"
  | Bool b => if b then "true" else "false"
  | Num (PosInt n) | Num (NegInt n) | Num (Float n) => pretty n
  | Str s => "'" +:+ s +:+ "'"
  | Arr l => "[" +:+ str_concat "," (List.map plain l) +:+ "]"
  | Obj es => "{" +:+ str_concat "," (List.map (fun e => e.1 +:+ ":" +:+ plain e.2) es) +:+ "}"
  end.
#[local] Instance plain_text : JsonText := {| json_text := plain; json_parse _ := None |}.

Definition toy_config : ClusterConfig := mkConfig "127.0.0.1" 11450 "tok".
Definition toy_key : string := derive_audit_chain_key "tok".
(** What a node writes: a record with its sequence number and link, then its MAC. *)
Definition sign (r : AuditChainRecord) : AuditChainRecord :=
  mkRecord (c_ts r) (c_actor r) (c_action r) (c_path r) (c_method r) (c_node_id r) (c_result r)
    (c_detail r) (c_seq r) (c_prev_hash r) (Some (mac_payload toy_key (chain_payload r))).
Definition toy_record (act : string) (seq : Z) (prev : string) : AuditChainRecord :=
  sign (mkRecord "t" "a" act "" "" "n1" "ok" "" (Some seq) (Some prev) None).
Definition rec0 : AuditChainRecord := toy_record "a0" 1 "".
Definition rec1 : AuditChainRecord := toy_record "a1" 2 (record_hash rec0).
Definition rec2 : AuditChainRecord := toy_record "a2" 3 (record_hash rec1).
(** A record with its MAC taken away. *)
Definition stripped (r : AuditChainRecord) : AuditChainRecord :=
  mkRecord (c_ts r) (c_actor r) (c_action r) (c_path r) (c_method r) (c_node_id r) (c_result r)
    (c_detail r) (c_seq r) (c_prev_hash r) None.

Lemma clean_segment_example : verify_chain_segment "n1" [rec0; rec1; rec2] toy_key =
  mkSegment "n1" 3 3 0 0 false None.
Proof. vm_compute. reflexivity. Qed.
Lemma altered_segment_example :
  verify_chain_segment "n1" [rec0; rec2; rec1] toy_key = mkSegment "n1" 3 2 1 0 true (Some 1).
Proof. vm_compute. reflexivity. Qed.

Lemma canonical_json_faithful_witness :
  @canonical_json JsonToy.toy_text (Obj [("b", Bool true); ("a", Null)]) =
  @canonical_json JsonToy.toy_text (Obj [("a", Null); ("b", Bool true)]) <->
  [("b", Bool true); ("a", Null)] ≡ₚ [("a", Null); ("b", Bool true)].
Proof.
  apply (@canonical_json_faithful JsonToy.toy_text JsonToy.toy_text_laws
           [("b", Bool true); ("a", Null)] [("a", Null); ("b", Bool true)]);
    [apply (bool_decide_unpack _); reflexivity | apply (bool_decide_unpack _); reflexivity
    | reflexivity | reflexivity].
Defined.
Lemma relay_request_verifies_witness :
  exists es, h_body (relay_request toy_config "c1" "n1" "allow" 5 "t") = Some (Obj es) /\
  map_remove "mac" es = confirm_entries "c1" "n1" "allow" 5 "t" /\
  relay_accepts (cluster_token toy_config) (Obj es) = true.
Proof. apply (relay_request_verifies toy_config "c1" "n1" "allow" 5 "t"). Defined.

(** A record without its MAC is a baseline, and the record after a baseline is not checked
    against anything before it: [rec1] is altered and [rec0] is missing, unnoticed. *)
Lemma stripped_mac_hides_tampering :
  let forged := mkRecord "t" "mallory" "other" "" "" "n1" "ok" "" (Some 2%Z)
                  (Some (record_hash rec0)) None in
  sg_tampered (verify_chain_segment "n1" [forged; rec2] toy_key) = false /\
  sg_tampered (verify_chain_segment "n1" [rec0; stripped rec1; rec2] toy_key) = false.
Proof. vm_compute. done. Qed.
(** The first record of a chain is accepted again anywhere in it, and the sequence numbers
    are not compared. *)
Lemma first_record_replayed :
  verify_chain_segment "n1" [rec0; rec1; rec0; rec1] toy_key = mkSegment "n1" 4 4 0 0 false None.
Proof. vm_compute. reflexivity. Qed.

End ClusterSpec.
