(* ===== verification/Listing.v ===== *)
(** * Reading and keeping the audit table (fg-store/src/lib.rs)

    Queries with filters and a cursor, pages, the listing of TCC events, archive files with
    their expiry, and the schema migration.  What is used of SQLite beyond tables is the class
    [SqlFunctions]; the formatting and parsing of the time stamp in a file name is the class
    [StampFormat]. *)
From stdpp Require Import sorting.
From S2P Require Import Prelude Json Core Pattern Tokenizer Rules Tokens Chain ChainSpec Actions.
From S2P Require Import Ledger Wire.

Class SqlFunctions : Type := {
  (** [json_extract(text, '$.risk_level')]: an error on malformed JSON, [None] when the
      result is not a text *)
  extract_risk : string -> result string (option string);
  (** the rows of [ORDER BY key DESC], with ties in the order SQLite leaves them *)
  order_desc : forall {A}, (A -> string) -> list A -> list A
}.
Class StampFormat : Type := {
  (** [format("%Y%m%dT%H%M%S")] of a time in seconds, and its parser *)
  stamp : Z -> string;
  parse_stamp : string -> option Z
}.

Module Listing.
Import Json Chain Ledger Wire.

Record AuditListFilter : Type := mkFilter {
  f_tenant : option string;
  f_since : option string;
  f_until : option string;
  f_event_type : option string;
  f_level_min : option string;
  f_cursor_ts : option string;
  f_cursor_id : option string;
  f_limit : nat
}.
Record AuditRecord : Type := mkAuditRecord {
  ar_id : string;
  ar_ts : string;
  ar_tenant : string;
  ar_verdict : GuardVerdict;
  ar_content : string
}.
Record AuditListPage : Type := mkPage {
  records : list AuditRecord;
  next_cursor : option string;
  has_more : bool
}.

(** *** Comparison of texts and the order of a page *)

Definition str_ge (a b : string) : bool :=
  match String.compare a b with Lt => false | _ => true end.
(** [(ts, audit_id)] in the order of SQLite's [BINARY] collation. *)
Definition key_cmp (a b : string * string) : comparison :=
  match String.compare a.1 b.1 with Eq => String.compare a.2 b.2 | c => c end.
Definition row_key (r : AuditRow) : string * string := (ts (r_event r), audit_id (r_event r)).
(** [ORDER BY ts DESC, audit_id DESC] *)
Definition row_ge (a b : AuditRow) : Prop := key_cmp (row_key a) (row_key b) <> Lt.
#[global] Instance row_ge_dec : RelDecision row_ge.
Proof. intros a b. unfold row_ge. apply _. Defined.

Definition opt_test {A} (p : A -> bool) (o : option A) : bool :=
  match o with Some a => p a | None => true end.
(** The conditions before the one on the level, and the one on the cursor. *)
Definition passes (f : AuditListFilter) (e : AuditEvent) : bool :=
  opt_test (String.eqb (tenant_id e)) (f_tenant f) &&
  opt_test (fun s => str_ge (ts e) s) (f_since f) &&
  opt_test (fun s => str_ge s (ts e)) (f_until f) &&
  opt_test (String.eqb (event_type e)) (f_event_type f).
Definition below (f : AuditListFilter) (r : AuditRow) : bool :=
  match f_cursor_ts f, f_cursor_id f with
  | Some ct, Some cid => bool_decide (key_cmp (row_key r) (ct, cid) = Lt)
  | _, _ => true
  end.

Definition US : ascii := ascii_of_nat 31.
(** How the server reads a cursor: two non-empty texts around the first separator, or none. *)
Definition parse_cursor (cursor : option string) : option string * option string :=
  match cursor with
  | Some c =>
      match str_find US c with
      | Some i =>
          match str_take i c, str_drop (S i) c with
          | String _ _ as t, (String _ _ as id) => (Some t, Some id)
          | _, _ => (None, None)
          end
      | None => (None, None)
      end
  | None => (None, None)
  end.

(** *** Archive files *)

Definition RETENTION_SECS : Z := 180 * 24 * 3600.
(** The archive directory: the content of each file. *)
Abbreviation ArchiveDir := (gmap string string).

(** *** Schema *)

Abbreviation Schema := (gmap string (list string)).
Definition has_column (s : Schema) (table col : string) : bool :=
  match s !! table with Some cols => mem_str col cols | None => false end.
(** [ALTER TABLE ... ADD COLUMN] *)
Definition add_column (table col : string) (s : Schema) : result string Schema :=
  match s !! table with
  | None => Err ("no such table: " +:+ table)
  | Some cols =>
      if mem_str col cols then Err ("duplicate column name: " +:+ col)
      else Ok (<[table := cols ++ [col]]> s)
  end.
Definition ensure_column (table col : string) (s : Schema) : result string Schema :=
  if has_column s table col then Ok s else add_column table col s.
Definition MIGRATIONS : list (string * string) :=
  [("audit_events", "prev_hash"); ("audit_events", "event_hash"); ("tcc_events", "prev_hash");
   ("tcc_events", "event_hash"); ("audit_events", "key_version"); ("tcc_events", "key_version");
   ("rule_mutations", "key_version")].
Fixpoint migrate (ms : list (string * string)) (s : Schema) : result string Schema :=
  match ms with
  | [] => Ok s
  | (t, c) :: ms' => s' ← ensure_column t c s; migrate ms' s'
  end.
(** [migrate_audit_chain] *)
Definition migrate_audit_chain : Schema -> result string Schema := migrate MIGRATIONS.
(** [drop_legacy_split_tables]; [droppable] is whether dropping a table succeeds. *)
Definition drop_legacy_split_tables (droppable : string -> bool) (s : Schema) : Schema :=
  foldl (fun s t => if droppable t then delete t s else s) s
    ["pending_actions"; "tokens"; "key_versions"].

Section WithParams.
Context `{RowCodec, VerdictCodec, ShellEnv, SqlFunctions}.

(** [event_to_record] *)
Definition event_to_record (e : AuditEvent) : option AuditRecord :=
  v ← result_ok (verdict_of_json (verdict_json e));
  Some (mkAuditRecord (audit_id e) (ts e) (tenant_id e) v (ev_action e)).

(** [list_events]: the newest first, of one tenant or of all. *)
Definition list_events (now : string) (tenant : option string) (limit : nat) (db : AuditDb)
  : list AuditEvent :=
  row_to_event now <$>
    take limit (order_desc (fun r => ts (r_event r))
                  (List.filter (fun r => in_scope tenant (tenant_id (r_event r))) (audit_rows db))).
(** [list_by_tenant] and [list] *)
Definition list_by_tenant (now tenant : string) (limit : nat) (db : AuditDb) : list AuditRecord :=
  omap event_to_record (list_events now (Some tenant) limit db).
Definition list_all (now : string) (limit : nat) (db : AuditDb) : list AuditRecord :=
  omap event_to_record (list_events now None limit db).

(** [json_extract(verdict_json, '$.risk_level') >= ?]; the bound is put into lower case. *)
Definition level_passes (f : AuditListFilter) (e : AuditEvent) : result string bool :=
  match f_level_min f with
  | None => Ok true
  | Some lm =>
      o ← extract_risk (verdict_json e);
      mret (match o with Some l => str_ge l (to_lowercase lm) | None => false end)
  end.
(** The rows the query selects; the conditions are evaluated from left to right. *)
Fixpoint select_rows (f : AuditListFilter) (rows : list AuditRow) : result string (list AuditRow) :=
  match rows with
  | [] => mret []
  | r :: rows' =>
      keep ← (if passes f (r_event r) then level_passes f (r_event r) else mret false);
      sel ← select_rows f rows';
      mret (if (keep : bool) && below f r then r :: sel else sel)
  end.
(** [list_events_filtered]: one row more than the limit. *)
Definition list_events_filtered (now : string) (f : AuditListFilter) (db : AuditDb)
  : result string (list AuditEvent) :=
  sel ← select_rows f (audit_rows db);
  mret (row_to_event now <$> take (S (f_limit f)) (merge_sort row_ge sel)).
(** [list_filtered_page] *)
Definition list_filtered_page (now : string) (f : AuditListFilter) (db : AuditDb) : AuditListPage :=
  match list_events_filtered now f db with
  | Err _ => mkPage [] None false
  | Ok events =>
      let more := Nat.ltb (f_limit f) (length events) in
      let ret := if more then take (f_limit f) events else events in
      mkPage (omap event_to_record ret)
        (if more then (fun e => ts e +:+ String US (audit_id e)) <$> last ret else None)
        more
  end.

(** [list_tcc_events] *)
Definition list_tcc_events (limit : nat) (s : Store) : list TccRow :=
  take limit (order_desc tcc_ts (tcc_events s)).

(** [append_confirm_event] *)
Definition append_confirm_event `{Crypto} (uuid time tenant : string) (v : GuardVerdict)
    (approver out : string) (s : Store) : Store * result SqlError AuditEvent :=
  let ev := mkEvent uuid time "confirm" tenant approver (inferred_category v)
              (inferred_category v) (verdict_to_json v) (Some approver) (seatbelt_required v)
              out "" "" in
  match insert_audit_event ev (Tokens.key (toks s)) (Tokens.current_version (toks s)) (audit s) with
  | Err e => (s, Err e)
  | Ok db => (with_audit db s, Ok ev)
  end.

End WithParams.

Section WithFiles.
Context `{JsonText, RowCodec, StampFormat}.

(** [archive_events_to_ndjson] *)
Definition archive_value (ev : AuditEvent) (kv : Z) : Value :=
  obj [("audit_id", Str (audit_id ev)); ("ts", Str (ts ev)); ("event_type", Str (event_type ev));
       ("tenant_id", Str (tenant_id ev)); ("requester", Str (requester ev));
       ("action", Str (ev_action ev)); ("inferred_category", Str (ev_category ev));
       ("verdict_json", Str (verdict_json ev)); ("approved_by", opt_value Str (approved_by ev));
       ("seatbelt_required", Bool (ev_seatbelt ev)); ("outcome", Str (outcome ev));
       ("prev_hash", Str (prev_hash ev)); ("event_hash", Str (event_hash ev));
       ("key_version", i64_value kv)].
Definition NL : string := String (ascii_of_nat 10) "".
Fixpoint archive_events_to_ndjson (now : string) (rows : list AuditRow) : string :=
  match rows with
  | [] => ""
  | r :: rows' =>
      json_text (archive_value (row_to_event now r) (r_key_version r)) +:+ NL +:+
      archive_events_to_ndjson now rows'
  end.
Definition archive_name (t : Z) : string := "audit-" +:+ stamp t +:+ ".ndjson".

(** [rotate_old_rows] with the file it writes at second [t]: opening truncates the file, and
    [written] is what of the text reached it when the write fails.  The file is
    opened exactly when rows are deleted afterwards. *)
Definition rotate_files (t : Z) (cutoff now : string) (db_bytes : Z) (out : ArchiveOutcome)
    (written : string) (st : AuditDb * ArchiveDir) : AuditDb * ArchiveDir :=
  let '(db', rows) := rotate_old_rows cutoff now db_bytes out st.1 in
  (db',
   if Nat.eqb (length (audit_rows db')) (length (audit_rows st.1)) then st.2
   else <[archive_name t := match out with
                            | Written => archive_events_to_ndjson now rows
                            | _ => written
                            end]> st.2).

(** [prune_expired_archives]: one file, then the directory; [removable] is whether a file can
    be deleted.  The slice of the name is checked as Rust checks it. *)
Definition expired_archive (now : Z) (name : string) : result panic bool :=
  if negb (starts_with "audit-" name) || negb (ends_with ".ndjson" name) then Ok false
  else
    stem ← slice 6 (String.length name - 7) name;
    mret (match parse_stamp stem with Some t => Z.ltb t (now - RETENTION_SECS) | None => false end).
Fixpoint prune_entries (now : Z) (removable : string -> bool) (entries : list (string * string))
  : result panic (ArchiveDir * nat) :=
  match entries with
  | [] => mret (∅, 0)
  | (name, content) :: es =>
      gone ← expired_archive now name;
      '(dir, n) ← prune_entries now removable es;
      mret (if (gone : bool) && removable name then (dir, S n) else (<[name := content]> dir, n))
  end.
Definition prune_expired_archives (now : Z) (removable : string -> bool) (dir : ArchiveDir)
  : result panic (ArchiveDir * nat) := prune_entries now removable (map_to_list dir).

(** [AuditStore::enforce_retention] with the archive directory *)
Definition retention_cycle (t : Z) (removable : string -> bool) (cutoff now : string)
    (db_bytes : Z) (out : ArchiveOutcome) (written : string) (st : AuditDb * ArchiveDir)
  : result panic (AuditDb * ArchiveDir) :=
  '(dir, _) ← prune_expired_archives t removable st.2;
  mret (rotate_files t cutoff now db_bytes out written (st.1, dir)).

End WithFiles.
End Listing.
