(* ===== verification/ListingSpec.v ===== *)
(** * Properties of listing, archives and migration

    Following the cursor from page to page yields every selected row once, newest first; an
    archive file can be read back and expiry removes exactly the old archives; the migration
    adds the missing columns and is idempotent. *)
From stdpp Require Import sorting.
From S2P Require Import Prelude Json Core Pattern Tokenizer Rules Tokens Chain ChainSpec Actions.
From S2P Require Import Ledger LedgerSpec Wire Listing Cluster ClusterSpec.

Module ListingSpec.
Import Json JsonFacts Chain Ledger Wire Listing.

(** *** The order of rows *)

Lemma key_cmp_refl a : key_cmp a a = Eq.
Proof. unfold key_cmp. by rewrite !compare_refl. Qed.
Lemma key_cmp_eq a b : key_cmp a b = Eq -> a = b.
Proof.
  destruct a as [a1 a2], b as [b1 b2]. unfold key_cmp. cbn.
  destruct (String.compare a1 b1) eqn:E1; [|done..]. intros E2.
  apply String.compare_eq_iff in E1, E2. by subst.
Qed.
Lemma key_cmp_antisym a b : key_cmp a b = CompOpp (key_cmp b a).
Proof.
  unfold key_cmp. rewrite (String.compare_antisym a.1 b.1), (String.compare_antisym a.2 b.2).
  by destruct (String.compare b.1 a.1).
Qed.
Lemma key_cmp_lt_trans a b c : key_cmp a b = Lt -> key_cmp b c = Lt -> key_cmp a c = Lt.
Proof.
  unfold key_cmp. destruct (String.compare a.1 b.1) eqn:E1; [| |done];
    (destruct (String.compare b.1 c.1) eqn:E2; [| |done]); intros H1 H2.
  - apply String.compare_eq_iff in E1, E2. rewrite E1, E2, compare_refl. eauto using compare_lt_trans.
  - apply String.compare_eq_iff in E1. by rewrite E1, E2.
  - apply String.compare_eq_iff in E2. by rewrite <- E2, E1.
  - by rewrite (compare_lt_trans _ _ _ E1 E2).
Qed.
Lemma key_cmp_gt a b : key_cmp a b = Gt <-> key_cmp b a = Lt.
Proof. rewrite (key_cmp_antisym a b). destruct (key_cmp b a); cbn; done. Qed.
#[local] Instance row_ge_total : Total row_ge.
Proof.
  intros a b. unfold row_ge. rewrite (key_cmp_antisym (row_key b)).
  destruct (key_cmp (row_key a) (row_key b)); cbn; [by left|by right|by left].
Qed.
#[local] Instance row_ge_trans : Transitive row_ge.
Proof.
  intros a b c. unfold row_ge. intros H1 H2 H3.
  destruct (key_cmp (row_key a) (row_key b)) eqn:E1; [|done|].
  - apply key_cmp_eq in E1. congruence.
  - destruct (key_cmp (row_key b) (row_key c)) eqn:E2; [|done|].
    + apply key_cmp_eq in E2. rewrite E2 in E1. congruence.
    + apply key_cmp_gt in E1, E2. pose proof (key_cmp_lt_trans _ _ _ E2 E1) as E.
      apply key_cmp_gt in E. congruence.
Qed.

Lemma filter_true {A} (p : A -> bool) l : (forall x, In x l -> p x = true) -> List.filter p l = l.
Proof.
  induction l as [|x l IH]; intros Hp; cbn; [done|]. rewrite (Hp x) by (by left).
  f_equal. apply IH. intros y Hy. apply Hp. by right.
Qed.
(** In a list sorted by distinct keys, the rows below one row are those after it. *)
Lemma filter_below_drop (l : list AuditRow) i r :
  StronglySorted row_ge l -> NoDup (row_key <$> l) -> l !! i = Some r ->
  List.filter (fun x => bool_decide (key_cmp (row_key x) (row_key r) = Lt)) l = drop (S i) l.
Proof.
  revert i. induction l as [|x l IH]; intros i Hs Hnd Hi; [done|].
  apply StronglySorted_inv in Hs as [Hs Hx]. cbn in Hnd. apply NoDup_cons in Hnd as [Hni Hnd].
  destruct i as [|i]; cbn in Hi |- *.
  - injection Hi as ->. rewrite key_cmp_refl, bool_decide_false, drop_0 by done. clear IH Hs.
    apply filter_true. intros y Hy. apply bool_decide_eq_true. rewrite Forall_forall in Hx.
    apply list_elem_of_In in Hy as Hy'. specialize (Hx y Hy'). unfold row_ge in Hx.
    destruct (key_cmp (row_key r) (row_key y)) eqn:E; [|done|by apply key_cmp_gt].
    apply key_cmp_eq in E. exfalso. apply Hni. rewrite E. by apply list_elem_of_fmap_2.
  - rewrite bool_decide_false; [by apply IH|]. rewrite Forall_forall in Hx.
    apply Hx. by eapply list_elem_of_lookup_2.
Qed.

Section WithParams.
Context `{RowCodec, VerdictCodec, ShellEnv, SqlFunctions}.

(** *** What a query selects *)

Definition risk_readable (db : AuditDb) : Prop :=
  forall r, In r (audit_rows db) -> exists o, extract_risk (verdict_json (r_event r)) = Ok o.
Definition level_ok (f : AuditListFilter) (e : AuditEvent) : bool :=
  match level_passes f e with Ok b => b | Err _ => false end.
Definition matching (f : AuditListFilter) (r : AuditRow) : bool :=
  passes f (r_event r) && level_ok f (r_event r).

Lemma select_rows_ok f rows :
  (forall r, In r rows -> exists o, extract_risk (verdict_json (r_event r)) = Ok o) ->
  select_rows f rows = Ok (List.filter (fun r => matching f r && below f r) rows).
Proof.
  induction rows as [|r rows IH]; intros Hr; [done|]. cbn.
  rewrite IH by (intros; apply Hr; by right).
  destruct (Hr r (or_introl eq_refl)) as [o Eo].
  unfold matching, level_ok, level_passes. destruct (passes f (r_event r)); cbn; [|done].
  destruct (f_level_min f); cbn; [rewrite Eo; cbn|]; done.
Qed.

Definition set_cursor (ct cid : option string) (f : AuditListFilter) : AuditListFilter :=
  mkFilter (f_tenant f) (f_since f) (f_until f) (f_event_type f) (f_level_min f) ct cid (f_limit f).
(** All rows a filter selects, newest first, whatever its cursor. *)
Definition selection (f : AuditListFilter) (db : AuditDb) : list AuditRow :=
  merge_sort row_ge (List.filter (matching f) (audit_rows db)).

(** Rows as the daemon writes them: canonical times and ids, and ids that are unique. *)
Definition listable_row (r : AuditRow) : Prop :=
  parse_ts (ts (r_event r)) = Some (ts (r_event r)) /\
  parse_uuid (audit_id (r_event r)) = Some (audit_id (r_event r)) /\
  ts (r_event r) <> "" /\ audit_id (r_event r) <> "" /\ str_has US (ts (r_event r)) = false.
Definition listable (db : AuditDb) : Prop :=
  Forall listable_row (audit_rows db) /\ NoDup ((fun r => audit_id (r_event r)) <$> audit_rows db).

Lemma matching_cursor ct cid f r : matching (set_cursor ct cid f) r = matching f r.
Proof. done. Qed.
Lemma selection_perm f db : selection f db ≡ₚ List.filter (matching f) (audit_rows db).
Proof. apply merge_sort_Permutation. Qed.
Lemma filter_sublist {A} (p : A -> bool) l : List.filter p l `sublist_of` l.
Proof. induction l as [|x l IH]; cbn; [constructor|]. destruct (p x); by constructor. Qed.
Lemma selection_keys f db : listable db -> NoDup (row_key <$> selection f db).
Proof.
  intros [_ Hnd]. apply (NoDup_fmap_1 snd). rewrite <- list_fmap_compose.
  change (snd ∘ row_key) with (fun r => audit_id (r_event r)).
  rewrite selection_perm. eapply sublist_NoDup; [done|]. apply fmap_sublist, filter_sublist.
Qed.
Lemma selection_listable f db r : listable db -> In r (selection f db) -> listable_row r.
Proof.
  intros [Hl _] Hin. rewrite Forall_forall in Hl. apply Hl, list_elem_of_In.
  apply (Permutation_in _ (selection_perm f db)) in Hin. apply filter_In in Hin. tauto.
Qed.

(** The position a filter's cursor stands for in the selection of [f0]. *)
Definition at_position (f0 : AuditListFilter) (db : AuditDb) (i : nat) (f : AuditListFilter) : Prop :=
  match i with
  | 0 => f = set_cursor None None f0
  | S j => exists r, selection f0 db !! j = Some r /\
             f = set_cursor (Some (ts (r_event r))) (Some (audit_id (r_event r))) f0
  end.

Lemma filter_andb {A} (p q : A -> bool) l :
  List.filter (fun x => p x && q x) l = List.filter q (List.filter p l).
Proof. induction l as [|x l IH]; cbn; [done|]. destruct (p x), (q x) eqn:E; cbn; rewrite ?E, IH; done. Qed.
Lemma filter_perm {A} (p : A -> bool) l1 l2 : l1 ≡ₚ l2 -> List.filter p l1 ≡ₚ List.filter p l2.
Proof.
  induction 1 as [|x l1 l2 _ IH|x y l|l1 l2 l3 _ IH1 _ IH2]; cbn.
  - done.
  - by destruct (p x); [constructor|].
  - destruct (p x), (p y); try done. apply Permutation_swap.
  - by etrans.
Qed.
Lemma sorted_drop (l : list AuditRow) i : StronglySorted row_ge l -> StronglySorted row_ge (drop i l).
Proof.
  revert i. induction l as [|x l IH]; intros [|i] Hs; try done. apply StronglySorted_inv in Hs as [Hs _].
  by apply IH.
Qed.
Lemma selection_sorted f db : StronglySorted row_ge (selection f db).
Proof. apply StronglySorted_merge_sort; apply _. Qed.

(** The rows of a query with a cursor are the rest of the selection. *)
Lemma selected_at f0 db i f : listable db -> at_position f0 db i f ->
  merge_sort row_ge (List.filter (fun r => matching f r && below f r) (audit_rows db)) =
  drop i (selection f0 db).
Proof.
  intros Hl Hat. rewrite filter_andb. destruct i as [|j]; cbn in Hat.
  - subst f. rewrite drop_0. unfold selection. f_equal. cbn.
    by apply filter_true.
  - destruct Hat as (r & Hj & ->).
    assert (Hperm : List.filter (below (set_cursor (Some (ts (r_event r))) (Some (audit_id (r_event r))) f0))
        (List.filter (matching f0) (audit_rows db)) ≡ₚ drop (S j) (selection f0 db)).
    { rewrite <- (filter_below_drop _ _ r); [|apply selection_sorted|by apply selection_keys|done].
      apply filter_perm. symmetry. apply selection_perm. }
    apply (StronglySorted_unique_strong row_ge).
    + intros x1 x2 X1 X2 R1 R2. rewrite merge_sort_Permutation, Hperm in X1.
      apply (subseteq_drop (S j)), list_elem_of_lookup_1 in X1 as [i1 E1].
      apply (subseteq_drop (S j)), list_elem_of_lookup_1 in X2 as [i2 E2].
      assert (Hk : row_key x1 = row_key x2).
      { unfold row_ge in R1, R2. rewrite key_cmp_antisym in R2.
        destruct (key_cmp (row_key x1) (row_key x2)) eqn:E; [by apply key_cmp_eq in E|done|done]. }
      pose proof (selection_keys f0 db Hl) as Hnd. rewrite NoDup_alt in Hnd.
      rewrite (Hnd i1 i2 (row_key x1)) in E1; [congruence| |].
      * by rewrite list_lookup_fmap, E1.
      * rewrite list_lookup_fmap, E2. cbn. by rewrite Hk.
    + apply StronglySorted_merge_sort; apply _.
    + apply sorted_drop, selection_sorted.
    + by rewrite merge_sort_Permutation.
Qed.

(** *** Walking the pages *)

Lemma str_find_app c t i : str_has c t = false -> str_find c (t +:+ String c i) = Some (String.length t).
Proof.
  induction t as [|a t IH]; cbn [str_has].
  - intros _. change ("" +:+ String c i) with (String c i). cbn. by rewrite Ascii.eqb_refl.
  - intros [Ha Ht]%orb_false_iff. rewrite str_app_cons. cbn [str_find]. rewrite Ha, (IH Ht). done.
Qed.
Lemma cursor_roundtrip t i : t <> "" -> i <> "" -> str_has US t = false ->
  parse_cursor (Some (t +:+ String US i)) = (Some t, Some i).
Proof.
  intros Ht Hi Hus. unfold parse_cursor. rewrite (str_find_app _ _ _ Hus).
  assert (str_take (String.length t) (t +:+ String US i) = t) as ->.
  { unfold str_take. rewrite bytes_app, <- length_bytes, take_app_length. apply of_bytes_bytes. }
  assert (str_drop (S (String.length t)) (t +:+ String US i) = i) as ->.
  { unfold str_drop. rewrite bytes_app, <- length_bytes, drop_app_ge by lia.
    replace (S (length (bytes t)) - length (bytes t)) with 1 by lia. apply of_bytes_bytes. }
  by destruct t, i.
Qed.

(** A client that follows the cursor, at most [fuel] pages. *)
Fixpoint walk (fuel : nat) (now : string) (f : AuditListFilter) (db : AuditDb) : list AuditRecord :=
  match fuel with
  | 0 => []
  | S fuel' =>
      let p := list_filtered_page now f db in
      records p ++
      if has_more p then
        let '(ct, cid) := parse_cursor (next_cursor p) in walk fuel' now (set_cursor ct cid f) db
      else []
  end.

Lemma limit_at f0 db i f : at_position f0 db i f -> f_limit f = f_limit f0.
Proof. destruct i; [by intros ->|]. by intros (r & _ & ->). Qed.
Lemma list_filtered_at now f0 db i f : listable db -> risk_readable db -> at_position f0 db i f ->
  list_events_filtered now f db =
  Ok (row_to_event now <$> take (S (f_limit f0)) (drop i (selection f0 db))).
Proof.
  intros Hl Hr Hat. unfold list_events_filtered. rewrite select_rows_ok by done. cbn [mbind result_bind mret result_ret].
  by rewrite (selected_at f0 db i f Hl Hat), (limit_at _ _ _ _ Hat).
Qed.
Lemma row_to_event_listable now r : listable_row r ->
  ts (row_to_event now r) = ts (r_event r) /\ audit_id (row_to_event now r) = audit_id (r_event r).
Proof. intros (E1 & E2 & _). cbn. by rewrite E1, E2. Qed.

(** A page has the next rows of the selection, and its cursor stands after them. *)
Lemma page_at now f0 db i f : 0 < f_limit f0 -> listable db -> risk_readable db -> at_position f0 db i f ->
  let L := selection f0 db in
  let p := list_filtered_page now f db in
  records p = omap event_to_record (row_to_event now <$> take (f_limit f0) (drop i L)) /\
  has_more p = Nat.ltb (f_limit f0) (length L - i) /\
  (has_more p = true -> exists ct cid, parse_cursor (next_cursor p) = (ct, cid) /\
     at_position f0 db (i + f_limit f0) (set_cursor ct cid f)).
Proof.
  intros Hpos Hl Hr Hat. cbn zeta. set (L := selection f0 db). unfold list_filtered_page.
  rewrite (list_filtered_at now f0 db i f Hl Hr Hat), (limit_at _ _ _ _ Hat). fold L.
  rewrite length_fmap, length_take, length_drop.
  assert (Hmore : Nat.ltb (f_limit f0) (S (f_limit f0) `min` (length L - i)) =
                  Nat.ltb (f_limit f0) (length L - i)).
  { apply eq_iff_eq_true. rewrite !Nat.ltb_lt. lia. }
  rewrite Hmore. cbn [records has_more next_cursor].
  destruct (Nat.ltb_spec (f_limit f0) (length L - i)) as [Hlt|Hge].
  - rewrite <- fmap_take, take_take, Nat.min_l by lia. split; [done|]. split; [done|]. intros _.
    destruct (lookup_lt_is_Some_2 L (i + f_limit f0 - 1)) as [r Er]; [lia|].
    rewrite fmap_last. assert (last (take (f_limit f0) (drop i L)) = Some r) as ->.
    { rewrite last_lookup, length_take, length_drop, Nat.min_l by lia.
      rewrite lookup_take_lt by lia. rewrite lookup_drop. rewrite <- Er. f_equal. lia. }
    cbn [fmap option_fmap option_map].
    assert (Hrow : listable_row r).
    { eapply selection_listable; [done|]. apply list_elem_of_In. by eapply list_elem_of_lookup_2. }
    destruct (row_to_event_listable now r Hrow) as [-> ->].
    exists (Some (ts (r_event r))), (Some (audit_id (r_event r))). split.
    + apply cursor_roundtrip; apply Hrow.
    + destruct (i + f_limit f0) as [|k] eqn:Ek; [lia|]. exists r. split.
      * rewrite <- Er. f_equal. lia.
      * destruct i; [by cbn in Hat; subst f|]. by destruct Hat as (r' & _ & ->).
  - rewrite !take_ge by (rewrite ?length_drop; lia). done.
Qed.

Lemma walk_at fuel now f0 db i f : 0 < f_limit f0 -> listable db -> risk_readable db ->
  at_position f0 db i f -> length (selection f0 db) - i < fuel ->
  walk fuel now f db = omap event_to_record (row_to_event now <$> drop i (selection f0 db)).
Proof.
  intros Hpos Hl Hr. revert i f. induction fuel as [|fuel IH]; intros i f Hat Hf; [lia|]. cbn [walk].
  destruct (page_at now f0 db i f Hpos Hl Hr Hat) as (-> & Hmore & Hnext). rewrite Hmore in *.
  destruct (Nat.ltb_spec (f_limit f0) (length (selection f0 db) - i)) as [Hlt|Hge].
  - destruct (Hnext eq_refl) as (ct & cid & -> & Hat'). rewrite (IH _ _ Hat') by lia.
    rewrite <- omap_app, <- fmap_app, <- drop_drop, take_drop. done.
  - rewrite app_nil_r, take_ge; [done|]. rewrite length_drop. lia.
Qed.

(** [C21] Following the cursors from the first page returns every record the filter selects
    exactly once and in order, newest first; as many pages as there are rows are enough. *)
Theorem pagination_complete now f db (Hpos : 0 < f_limit f) (Hl : listable db) (Hr : risk_readable db)
  (fuel : nat) (Hfuel : length (audit_rows db) < fuel) :
  walk fuel now (set_cursor None None f) db =
  omap event_to_record (row_to_event now <$> selection f db) /\
  StronglySorted row_ge (selection f db) /\
  (forall r, In r (selection f db) <-> In r (audit_rows db) /\ matching f r = true).
Proof.
  split; [|split; [apply selection_sorted|]].
  - rewrite (walk_at fuel now f db 0) by (done || (rewrite selection_perm;
      eapply Nat.le_lt_trans; [|done]; rewrite Nat.sub_0_r; apply sublist_length, filter_sublist)).
    by rewrite drop_0.
  - intros r. rewrite <- filter_In. split; apply Permutation_in; [|symmetry]; apply selection_perm.
Qed.

(** A record of a listing belongs to the tenant that was asked for. *)
Lemma listing_tenant now f db t rec : f_tenant f = Some t ->
  In rec (records (list_filtered_page now f db)) -> ar_tenant rec = t.
Proof.
  intros Ht. unfold list_filtered_page, list_events_filtered.
  destruct (select_rows f (audit_rows db)) as [sel|e] eqn:Esel; [|done]. cbn -[take].
  intros Hin. apply list_elem_of_In, list_elem_of_omap in Hin as (e & He & Hrec).
  assert (Hrow : exists r, In r sel /\ e = row_to_event now r).
  { case_match; [apply (subseteq_take (f_limit f)) in He|];
      apply list_elem_of_fmap in He as (r & -> & Hr); apply (subseteq_take (S (f_limit f))) in Hr;
      rewrite merge_sort_Permutation in Hr; exists r; split; [by apply list_elem_of_In|done
      |by apply list_elem_of_In|done]. }
  destruct Hrow as (r & Hr & ->).
  unfold event_to_record in Hrec. cbn in Hrec. destruct (verdict_of_json _); cbn in Hrec; [|done].
  injection Hrec as <-. cbn. clear He. revert sel Esel Hr.
  induction (audit_rows db) as [|x rows IH]; intros sel Esel Hr; cbn in Esel; [by injection Esel as <-|].
  destruct (passes f (r_event x)) eqn:Ep; cbn in Esel.
  2: { destruct (select_rows f rows) as [sel'|] eqn:E'; [|done]. injection Esel as <-. by eapply IH. }
  destruct (level_passes f (r_event x)) as [b|]; [|done]. cbn in Esel.
  destruct (select_rows f rows) as [sel'|] eqn:E'; [|done]. cbn in Esel. injection Esel as <-.
  destruct (b && below f x); [destruct Hr as [->|Hr]|]; [|by eapply IH|by eapply IH].
  unfold passes in Ep. rewrite Ht in Ep. cbn in Ep. boolp. done.
Qed.

End WithParams.

(** *** Archive files *)

Lemma str_rev_app a b : str_rev (a +:+ b) = str_rev b +:+ str_rev a.
Proof. unfold str_rev. by rewrite bytes_app, reverse_app, of_bytes_app. Qed.
Lemma str_rev_involutive s : str_rev (str_rev s) = s.
Proof. unfold str_rev. by rewrite bytes_of_bytes, reverse_involutive, of_bytes_bytes. Qed.
Lemma ends_with_spec p s : ends_with p s = true <-> exists t, s = t +:+ p.
Proof.
  unfold ends_with. rewrite prefix_app. split; intros [t E].
  - exists (str_rev t). rewrite <- (str_rev_involutive s), E, str_rev_app. by rewrite str_rev_involutive.
  - exists (str_rev t). by rewrite E, str_rev_app.
Qed.
Lemma utf8_tail_boundary p t : forallb (fun a => in_range a 0 127) (bytes p) = true ->
  Tokens.utf8_valid (p +:+ t) = true ->
  forall a, head (bytes t) = Some a -> is_continuation a = false.
Proof.
  unfold Tokens.utf8_valid. rewrite <- length_bytes, bytes_app, length_app.
  induction (bytes p) as [|x l IH]; cbn [forallb app length Nat.add]; intros Hp Hv a Ha.
  - destruct (bytes t) as [|b l']; [done|]. injection Ha as ->. cbn in Hv.
    unfold is_continuation, in_range in *.
    destruct (Nat.leb_spec 128 (nat_of_ascii a)), (Nat.ltb_spec (nat_of_ascii a) 192); try done.
    exfalso.
    assert (Hr : forall lo hi, (hi < 128 \/ 192 <= lo) ->
      Nat.leb lo (nat_of_ascii a) && Nat.leb (nat_of_ascii a) hi = false).
    { intros lo hi Hlh. apply andb_false_iff. rewrite !Nat.leb_gt. lia. }
    rewrite !Hr in Hv by lia. rewrite (proj2 (Nat.leb_gt (nat_of_ascii a) 127)) in Hv by lia.
    destruct l' as [|? [|? [|? ?]]]; done.
  - apply andb_true_iff in Hp as [Hx Hp]. cbn in Hv. unfold in_range in *. cbn in Hx.
    rewrite Hx in Hv. eauto.
Qed.
(** The name of an archive splits into its three parts. *)
Lemma archive_name_split name :
  starts_with "audit-" name = true -> ends_with ".ndjson" name = true ->
  exists stem, name = "audit-" +:+ stem +:+ ".ndjson".
Proof.
  intros [t Et]%prefix_app [u Eu]%ends_with_spec. subst name.
  destruct (decide (7 <= String.length t)) as [Hlen|Hlen].
  - apply (f_equal (fun s => drop 6 (bytes s))) in Eu as E. rewrite bytes_app in E.
    change (drop 6 (bytes "audit-" ++ bytes t)) with (bytes t) in E. rewrite bytes_app in E.
    apply (f_equal bytes) in Eu as El. rewrite !bytes_app in El. apply (f_equal length) in El.
    rewrite !length_app, !length_bytes in El. cbn in El.
    rewrite drop_app_le in E by (rewrite length_bytes; lia).
    exists (of_bytes (drop 6 (bytes u))). f_equal. apply bytes_inj.
    by rewrite bytes_app, bytes_of_bytes.
  - exfalso. apply (f_equal bytes) in Eu. rewrite !bytes_app in Eu.
    apply (f_equal length) in Eu as El. rewrite !length_app, !length_bytes in El. cbn in El.
    apply (f_equal (fun l => l !! String.length u)) in Eu.
    rewrite (lookup_app_r (bytes u)) in Eu by (rewrite length_bytes; lia).
    rewrite length_bytes, Nat.sub_diag in Eu.
    rewrite lookup_app_l in Eu by (cbn; lia).
    destruct (String.length u) as [|[|[|[|[|[|n]]]]]]; [done..|lia].
Qed.

Section WithFiles.
Context `{JsonText, RowCodec, StampFormat}.

(** The slice of an archive's name is its stamp. *)
Lemma archive_slice stem : Tokens.utf8_valid ("audit-" +:+ stem +:+ ".ndjson") = true ->
  slice 6 (String.length ("audit-" +:+ stem +:+ ".ndjson") - 7) ("audit-" +:+ stem +:+ ".ndjson") =
  Ok stem.
Proof.
  intros Hv. unfold slice.
  assert (Hlen : String.length ("audit-" +:+ stem +:+ ".ndjson") = 6 + String.length stem + 7).
  { rewrite <- !length_bytes, !bytes_app, !length_app. cbn. lia. }
  rewrite Hlen.
  assert (is_char_boundary 6 ("audit-" +:+ stem +:+ ".ndjson") = true) as ->.
  { apply is_char_boundary_spec. split; [lia|]. intros a Ha.
    eapply (utf8_tail_boundary "audit-" (stem +:+ ".ndjson")); [reflexivity|done|].
    rewrite bytes_app, lookup_app_r in Ha by (cbn; lia). cbn in Ha.
    by destruct (bytes (stem +:+ ".ndjson")). }
  assert (is_char_boundary (6 + String.length stem + 7 - 7) ("audit-" +:+ stem +:+ ".ndjson") = true) as ->.
  { apply is_char_boundary_spec. split; [lia|]. intros a Ha.
    rewrite !bytes_app, app_assoc, lookup_app_r in Ha by (rewrite length_app, !length_bytes; cbn; lia).
    rewrite length_app, !length_bytes in Ha. change (String.length "audit-") with 6 in Ha.
    replace (6 + String.length stem + 7 - 7 - (6 + String.length stem)) with 0 in Ha by lia.
    by injection Ha as <-. }
  rewrite (proj2 (Nat.leb_le _ _)) by lia. cbn [andb]. f_equal. apply bytes_inj. unfold str_slice.
  rewrite bytes_of_bytes, bytes_app.
  change (drop 6 (bytes "audit-" ++ bytes (stem +:+ ".ndjson"))) with (bytes (stem +:+ ".ndjson")).
  rewrite bytes_app. replace (6 + String.length stem + 7 - 7 - 6) with (length (bytes stem))
    by (rewrite length_bytes; lia). apply take_app_length.
Qed.

(** The names of archives that are past their time. *)
Definition old_archive (now : Z) (name : string) : Prop :=
  exists stem t, name = "audit-" +:+ stem +:+ ".ndjson" /\ parse_stamp stem = Some t /\
  (t < now - RETENTION_SECS)%Z.
(** The decision on one file does not panic on the names a directory can have. *)
Lemma expired_archive_ok now name : Tokens.utf8_valid name = true ->
  exists b, expired_archive now name = Ok b /\ (b = true <-> old_archive now name).
Proof.
  intros Hv. unfold expired_archive, old_archive.
  destruct (starts_with "audit-" name) eqn:E1, (ends_with ".ndjson" name) eqn:E2; cbn [negb orb].
  2-4: exists false; split; [done|]; split; [done|]; intros (stem & t & -> & _);
    first [rewrite (proj2 (prefix_app _ _)) in E1; [done|by eexists]
          |rewrite (proj2 (ends_with_spec ".ndjson" _)) in E2; [done|]; exists ("audit-" +:+ stem);
           by rewrite str_app_assoc].
  destruct (archive_name_split name E1 E2) as [stem ->]. rewrite archive_slice by done.
  cbn [mbind result_bind mret result_ret].
  assert (Hinj : forall stem', "audit-" +:+ stem +:+ ".ndjson" = "audit-" +:+ stem' +:+ ".ndjson" -> stem = stem').
  { intros stem' E. apply (f_equal bytes) in E. rewrite !bytes_app in E.
    by apply app_inv_head, app_inv_tail, bytes_inj in E. }
  eexists. split; [reflexivity|]. destruct (parse_stamp stem) as [t|] eqn:Et.
  - rewrite Z.ltb_lt. split; [intros; by exists stem, t|].
    intros (stem' & t' & <-%Hinj & Et' & Hlt). congruence.
  - split; [done|]. intros (stem' & t' & <-%Hinj & Et' & Hlt). congruence.
Qed.

Lemma prune_entries_spec now removable entries :
  NoDup (entries.*1) -> Forall (fun e => Tokens.utf8_valid e.1 = true) entries ->
  exists dir n, prune_entries now removable entries = Ok (dir, n) /\
  (forall name content, dir !! name = Some content <->
     In (name, content) entries /\ ~ (old_archive now name /\ removable name = true)) /\
  n + size dir = length entries.
Proof.
  induction entries as [|[name content] es IH]; intros Hnd Hv.
  { exists ∅, 0. split; [done|]. split; [|by rewrite map_size_empty]. intros n c. rewrite lookup_empty.
    split; [done|]. by intros [[] _]. }
  cbn in Hnd. apply NoDup_cons in Hnd as [Hni Hnd]. apply Forall_cons in Hv as [Hv1 Hv]. cbn in Hv1.
  destruct (IH Hnd Hv) as (dir & n & E & Hdir & Hn).
  destruct (expired_archive_ok now name Hv1) as (b & Eb & Hb). cbn [prune_entries]. rewrite Eb, E.
  cbn [mbind result_bind mret result_ret].
  assert (Hnone : dir !! name = None).
  { apply eq_None_not_Some. intros [c Hc]. apply Hdir in Hc as [Hin _]. apply Hni.
    apply list_elem_of_fmap. exists (name, c). split; [done|]. by apply list_elem_of_In. }
  destruct (b && removable name) eqn:Egone.
  - apply andb_true_iff in Egone as [-> Hrm]. exists dir, (S n). split; [done|]. split; [|cbn; lia].
    intros k c. rewrite Hdir. cbn. split; [tauto|]. intros [[[= <- <-]|Hin] Hno]; [|done].
    exfalso. apply Hno. by rewrite <- Hb.
  - exists (<[name := content]> dir), n. split; [done|].
    split; [|rewrite map_size_insert_None by done; cbn; lia]. intros k c. cbn.
    destruct (decide (k = name)) as [->|Hne].
    + rewrite lookup_insert_eq. split.
      * intros [= <-]. split; [by left|]. rewrite <- Hb. intros [-> Hrm]. by rewrite Hrm in Egone.
      * intros [[[= ->]|Hin] _]; [done|]. exfalso. apply Hni. apply list_elem_of_fmap.
        exists (name, c). split; [done|]. by apply list_elem_of_In.
    + rewrite lookup_insert_ne, Hdir by done. split; [tauto|]. intros [[[= -> ->]|Hin] Hno]; done.
Qed.

(** Expiry does not panic, whatever the names of the files are; it removes exactly the
    archives whose stamp is more than 180 days old, as far as the system lets it, and reports
    their number. *)
Theorem archive_expiry now removable (dir : ArchiveDir)
  (Hv : forall name, is_Some (dir !! name) -> Tokens.utf8_valid name = true) :
  exists dir' n, prune_expired_archives now removable dir = Ok (dir', n) /\
  (forall name content, dir' !! name = Some content <->
     dir !! name = Some content /\ ~ (old_archive now name /\ removable name = true)) /\
  n + size dir' = size dir.
Proof.
  destruct (prune_entries_spec now removable (map_to_list dir)) as (dir' & n & E & Hdir & Hn).
  - apply NoDup_fst_map_to_list.
  - apply Forall_forall. intros [name c] Hin%elem_of_map_to_list. apply Hv. by exists c.
  - exists dir', n. split; [done|]. split; [|by rewrite Hn, length_map_to_list].
    intros name c. by rewrite Hdir, <- list_elem_of_In, elem_of_map_to_list.
Qed.

(** *** Reading an archive back *)

Definition archive_event_of (v : Value) : option (AuditEvent * Z) :=
  id ← get "audit_id" v ≫= as_str; t ← get "ts" v ≫= as_str; et ← get "event_type" v ≫= as_str;
  te ← get "tenant_id" v ≫= as_str; rq ← get "requester" v ≫= as_str;
  ac ← get "action" v ≫= as_str; ca ← get "inferred_category" v ≫= as_str;
  vj ← get "verdict_json" v ≫= as_str; ab ← get "approved_by" v ≫= of_option as_str;
  sb ← get "seatbelt_required" v ≫= as_bool; ou ← get "outcome" v ≫= as_str;
  ph ← get "prev_hash" v ≫= as_str; eh ← get "event_hash" v ≫= as_str;
  kv ← get "key_version" v ≫= as_i64;
  Some (mkEvent id t et te rq ac ca vj ab sb ou ph eh, kv).
Definition read_line (l : string) : option (AuditEvent * Z) :=
  v ← json_parse l; archive_event_of (normalize v).
Definition read_archive (text : string) : option (list (AuditEvent * Z)) :=
  let ls := str_split (ascii_of_nat 10) text in
  JsonToy.opt_list (read_line <$> take (length ls - 1) ls).

Lemma str_split_line c a b : str_has c a = false ->
  str_split c (a +:+ String c b) = a :: str_split c b.
Proof.
  induction a as [|x a IH]; cbn [str_has].
  - intros _. change ("" +:+ String c b) with (String c b). cbn. by rewrite Ascii.eqb_refl.
  - intros [Hx Ha]%orb_false_iff. rewrite str_app_cons. cbn [str_split]. by rewrite Hx, (IH Ha).
Qed.
Lemma str_split_cons c s : exists x l, str_split c s = x :: l.
Proof. destruct s as [|a s]; cbn; [eauto|]. destruct (Ascii.eqb a c); [eauto|]. case_match; eauto. Qed.
Lemma i64_value_ok kv : (- 2 ^ 63 <= kv < 2 ^ 63)%Z ->
  as_i64 (i64_value kv) = Some kv /\ (forall d, printable d (i64_value kv) = true).
Proof.
  intros [H1' H2']. unfold i64_value. destruct (Z.ltb_spec kv 0) as [Hlt|Hge]; cbn -[Z.pow].
  - split; [done|]. intros _. rewrite (proj2 (Z.leb_le _ _)) by lia. by apply Z.ltb_lt.
  - rewrite (proj2 (Z.ltb_lt kv _)) by lia. split; [done|]. intros _.
    rewrite (proj2 (Z.leb_le 0 kv)) by lia. cbn. apply Z.ltb_lt. lia.
Qed.
Lemma archive_value_roundtrip ev kv : (- 2 ^ 63 <= kv < 2 ^ 63)%Z ->
  archive_event_of (archive_value ev kv) = Some (ev, kv).
Proof.
  intros Hkv. destruct (i64_value_ok kv Hkv) as [E _]. unfold archive_event_of, archive_value.
  rewrite !get_obj by (apply (bool_decide_unpack _); reflexivity).
  destruct ev as [? ? ? ? ? ? ? ? [ab|] ? ? ? ?]; cbn -[i64_value as_i64]; rewrite E; done.
Qed.
Lemma read_line_ok {HL : JsonTextLaws} ev kv : (- 2 ^ 63 <= kv < 2 ^ 63)%Z ->
  read_line (json_text (archive_value ev kv)) = Some (ev, kv).
Proof.
  intros Hkv. destruct (i64_value_ok kv Hkv) as [_ Hp]. unfold read_line.
  rewrite json_roundtrip.
  - cbn [mbind option_bind]. rewrite normalize_normal; [by apply archive_value_roundtrip|].
    apply normal_obj. cbn [forallb normal snd]. unfold i64_value. by destruct (approved_by ev).
  - apply printable_obj. cbn [forallb printable snd]. rewrite Hp. by destruct (approved_by ev).
Qed.

(** The text of an archive can be read back: it gives the events and key versions of the
    archived rows, in order. *)
Theorem archive_roundtrip {HL : JsonTextLaws} now rows
  (Hkv : Forall (fun r => - 2 ^ 63 <= r_key_version r < 2 ^ 63)%Z rows) :
  read_archive (archive_events_to_ndjson now rows) =
  Some ((fun r => (row_to_event now r, r_key_version r)) <$> rows).
Proof.
  unfold read_archive. induction Hkv as [|r rows Hr _ IH]; [done|]. cbn [archive_events_to_ndjson].
  change (NL +:+ archive_events_to_ndjson now rows) with
    (String (ascii_of_nat 10) (archive_events_to_ndjson now rows)).
  rewrite str_split_line by apply json_one_line. cbn [length].
  destruct (str_split_cons (ascii_of_nat 10) (archive_events_to_ndjson now rows)) as (x & l & E).
  rewrite E in *. cbn [length] in *. replace (S (S (length l)) - 1) with (S (length l)) by lia.
  replace (S (length l) - 1) with (length l) in IH by lia.
  rewrite firstn_cons, !fmap_cons. cbn [JsonToy.opt_list]. rewrite read_line_ok by done.
  cbn [mbind option_bind]. unfold fmap, list_fmap in *. by rewrite IH.
Qed.

(** Rotation deletes exactly the rows it hands to the archive. *)
Lemma rotate_old_rows_split cutoff now bytes db db' rows : ChainSpec.ascending (audit_rows db) ->
  rotate_old_rows cutoff now bytes Written db = (db', rows) -> audit_rows db = rows ++ audit_rows db'.
Proof.
  intros Ha. unfold rotate_old_rows. cbv zeta. destruct (_ && _); [by intros [= <- <-]|].
  set (n := if _ : bool then _ else _). pose proof (take_drop n (audit_rows db)) as Hsplit.
  destruct (take n (audit_rows db)) as [|first rest]; [by intros [= <- <-]|].
  set (left := drop n (audit_rows db)) in *. clearbody left n. intros [= <- <-]. cbn [write_checkpoint audit_rows]. rewrite <- Hsplit in Ha |- *.
  by rewrite ChainSpec.rowid_range.
Qed.

(** A rotation that can write its file loses no row: each row is afterwards in the table
    or in an archive that can be read back, and the other archives are as they were. *)
Theorem rotation_keeps_rows {HL : JsonTextLaws} t cutoff now bytes text db dir db' dir'
  (Ha : ChainSpec.ascending (audit_rows db))
  (Hkv : Forall (fun r => - 2 ^ 63 <= r_key_version r < 2 ^ 63)%Z (audit_rows db))
  (Hrot : rotate_files t cutoff now bytes Written text (db, dir) = (db', dir')) :
  (forall r, In r (audit_rows db) -> In r (audit_rows db') \/
     exists file evs, dir' !! archive_name t = Some file /\ read_archive file = Some evs /\
       In (row_to_event now r, r_key_version r) evs) /\
  (forall name, name <> archive_name t -> dir' !! name = dir !! name).
Proof.
  unfold rotate_files in Hrot. cbn [fst snd] in Hrot.
  destruct (rotate_old_rows cutoff now bytes Written db) as [db2 rows] eqn:E. injection Hrot as <- <-.
  pose proof (rotate_old_rows_split _ _ _ _ _ _ Ha E) as Hsplit. rewrite Hsplit in Hkv |- *.
  apply Forall_app in Hkv as [Hkv _]. rewrite length_app. split.
  - intros r [Hr|Hr]%in_app_or; [right|by left].
    destruct (Nat.eqb_spec (length (audit_rows db2)) (length rows + length (audit_rows db2))) as [El|_].
    { destruct rows; [done|cbn in El; lia]. }
    eexists _, _. split; [apply lookup_insert_eq|]. split; [by apply archive_roundtrip|].
    apply list_elem_of_In, list_elem_of_fmap. exists r. split; [done|]. by apply list_elem_of_In.
  - intros name Hne. case_match; [done|]. by rewrite lookup_insert_ne.
Qed.

End WithFiles.

(** *** Migration *)

Definition has_tables (s : Schema) : Prop := Forall (fun m => is_Some (s !! m.1)) MIGRATIONS.
(** Columns are only added, after the existing ones, in existing tables. *)
Definition extends (s s' : Schema) : Prop :=
  forall t, match s !! t with
            | Some cols => exists more, s' !! t = Some (cols ++ more)
            | None => s' !! t = None
            end.
Lemma extends_refl s : extends s s.
Proof. intros t. destruct (s !! t) as [cols|]; [exists []; by rewrite app_nil_r|done]. Qed.
Lemma extends_trans s1 s2 s3 : extends s1 s2 -> extends s2 s3 -> extends s1 s3.
Proof.
  intros E1 E2 t. specialize (E1 t). specialize (E2 t). destruct (s1 !! t) as [cols|].
  - destruct E1 as [m1 E1]. rewrite E1 in E2. destruct E2 as [m2 ->]. exists (m1 ++ m2). by rewrite app_assoc.
  - by rewrite E1 in E2.
Qed.
Lemma mem_str_app x l1 l2 : mem_str x (l1 ++ l2) = mem_str x l1 || mem_str x l2.
Proof. apply existsb_app. Qed.
Lemma has_column_extends s s' t c : extends s s' -> has_column s t c = true -> has_column s' t c = true.
Proof.
  intros E. unfold has_column. specialize (E t). destruct (s !! t) as [cols|]; [|done].
  destruct E as [more ->]. rewrite mem_str_app. intros ->. done.
Qed.
Lemma ensure_column_ok s t c : is_Some (s !! t) ->
  exists s', ensure_column t c s = Ok s' /\ extends s s' /\ has_column s' t c = true.
Proof.
  intros [cols Ht]. unfold ensure_column. destruct (has_column s t c) eqn:E.
  { exists s. split; [done|]. split; [apply extends_refl|done]. }
  unfold add_column, has_column in *. rewrite Ht in *. rewrite E.
  exists (<[t := cols ++ [c]]> s). split; [done|]. split.
  - intros t'. destruct (decide (t' = t)) as [->|Hne].
    + rewrite Ht, lookup_insert_eq. by exists [c].
    + rewrite lookup_insert_ne by done. apply extends_refl.
  - rewrite lookup_insert_eq, mem_str_app. cbn. rewrite String.eqb_refl. apply orb_true_r.
Qed.
Lemma migrate_ok ms s : Forall (fun m => is_Some (s !! m.1)) ms ->
  exists s', migrate ms s = Ok s' /\ extends s s' /\
  Forall (fun m => has_column s' m.1 m.2 = true) ms.
Proof.
  revert s. induction ms as [|[t c] ms IH]; intros s Hs; [exists s; split; [done|]; split; [apply extends_refl|done]|].
  apply Forall_cons in Hs as [Ht Hs]. destruct (ensure_column_ok s t c Ht) as (s1 & E1 & Hext & Hc).
  destruct (IH s1) as (s2 & E2 & Hext2 & Hc2).
  { eapply Forall_impl; [done|]. intros [t' c'] [cols Hcols]. cbn in *. specialize (Hext t').
    rewrite Hcols in Hext. destruct Hext as [more ->]. eauto. }
  exists s2. cbn. rewrite E1. cbn. split; [done|]. split; [by eapply extends_trans|].
  apply Forall_cons. split; [by eapply has_column_extends|done].
Qed.
Lemma migrate_noop ms s : Forall (fun m => has_column s m.1 m.2 = true) ms -> migrate ms s = Ok s.
Proof.
  induction ms as [|[t c] ms IH]; [done|]. intros [Hc Hms]%Forall_cons. cbn in *.
  unfold ensure_column. rewrite Hc. by apply IH.
Qed.

(** Migrating a database that has the tables adds the missing chain columns, keeps every
    existing column in its place, and migrating again changes nothing. *)
Theorem migration_idempotent s (Hs : has_tables s) :
  exists s', migrate_audit_chain s = Ok s' /\ extends s s' /\
  Forall (fun m => has_column s' m.1 m.2 = true) MIGRATIONS /\ migrate_audit_chain s' = Ok s'.
Proof.
  destruct (migrate_ok MIGRATIONS s Hs) as (s' & E & Hext & Hc). exists s'.
  repeat split; try done. by apply migrate_noop.
Qed.

(** *** Examples *)

#[local] Existing Instances ChainSpec.toy_codec ActionsSpec.toy_codec_v ClusterSpec.plain_text.
#[local] Instance toy_sql : SqlFunctions := {|
  extract_risk s := Ok (if str_empty s then None else Some "l2"); order_desc A key l := l |}.
#[local] Instance toy_shell : ShellEnv := {|
  env_home := None; shell_split s := Ok [s]; redirect_captures _ := []; to_lowercase s := s |}.
#[local] Instance toy_stamp : StampFormat := {|
  stamp t := if Z.eqb t 0 then "20260101T000000" else "20260902T000000";
  parse_stamp s := if String.eqb s "20260101T000000" then Some 0%Z else None |}.

Definition list_row (id t : string) (rowid : Z) : AuditRow :=
  mkRow (mkEvent id t "evaluate" "acme" "al" "ls" "clean" "v" None false "allowed" "" "") 0 1 rowid.
Definition list_db : AuditDb :=
  mkDb [list_row "a" "2026-01-01" 1; list_row "b" "2026-01-02" 2; list_row "c" "2026-01-02" 3] None.
Definition list_filter : AuditListFilter :=
  mkFilter (Some "acme") None None None (Some "l2") None None 2.

Lemma pagination_complete_witness :
  exists out, walk 4 "now" (set_cursor None None list_filter) list_db =
    omap event_to_record (row_to_event "now" <$> out) /\ StronglySorted row_ge out.
Proof.
  exists (selection list_filter list_db).
  assert (Hl : listable list_db).
  { split; [|apply (bool_decide_unpack _); reflexivity]. repeat constructor; done. }
  assert (Hr : risk_readable list_db) by (intros r _; eexists; reflexivity).
  destruct (pagination_complete "now" list_filter list_db ltac:(cbn; lia) Hl Hr 4 ltac:(cbn; lia))
    as (E & Hs & _).
  by split.
Defined.
Lemma archive_expiry_witness :
  exists dir' n,
  prune_expired_archives RETENTION_SECS (fun _ => true) {[ archive_name 0 := "x"; "notes" := "y" ]} =
    Ok (dir', n) /\
  (forall name content, dir' !! name = Some content <->
     ({[ archive_name 0 := "x"; "notes" := "y" ]} : ArchiveDir) !! name = Some content /\
     ~ (old_archive RETENTION_SECS name /\ true = true)) /\
  n + size dir' = size ({[ archive_name 0 := "x"; "notes" := "y" ]} : ArchiveDir).
Proof.
  apply (archive_expiry RETENTION_SECS (fun _ => true) {[ archive_name 0 := "x"; "notes" := "y" ]}).
  intros name [c Hc]. apply lookup_insert_Some in Hc as [[<- _]|[_ [<- _]%lookup_singleton_Some]]; reflexivity.
Defined.
Lemma archive_roundtrip_witness :
  @read_archive JsonToy.toy_text
    (@archive_events_to_ndjson JsonToy.toy_text _ "now" (audit_rows list_db)) =
  Some ((fun r => (row_to_event "now" r, r_key_version r)) <$> audit_rows list_db).
Proof.
  apply (@archive_roundtrip JsonToy.toy_text _ JsonToy.toy_text_laws).
  repeat constructor; cbn; lia.
Defined.
Lemma rotation_keeps_rows_witness :
  exists db' dir', @rotate_files JsonToy.toy_text _ _ 7 "2026-01-02" "now" 0 Written "" (list_db, ∅) =
    (db', dir') /\
  (forall r, In r (audit_rows list_db) -> In r (audit_rows db') \/
     exists file evs, dir' !! archive_name 7 = Some file /\ @read_archive JsonToy.toy_text file = Some evs /\
       In (row_to_event "now" r, r_key_version r) evs).
Proof.
  destruct (@rotate_files JsonToy.toy_text _ _ 7 "2026-01-02" "now" 0 Written "" (list_db, ∅))
    as [db' dir'] eqn:E.
  exists db', dir'. split; [done|].
  apply (@rotation_keeps_rows JsonToy.toy_text _ _ JsonToy.toy_text_laws 7 "2026-01-02" "now" 0 ""
           list_db ∅ db' dir'); [| |done].
  - split; repeat constructor; cbn; lia.
  - repeat constructor; cbn; lia.
Defined.
Lemma migration_idempotent_witness :
  exists s', migrate_audit_chain {[ "audit_events" := ["audit_id"]; "tcc_events" := ["audit_id"; "prev_hash"];
                                    "rule_mutations" := ["mutation_id"] ]} = Ok s' /\
  migrate_audit_chain s' = Ok s'.
Proof.
  destruct (migration_idempotent {[ "audit_events" := ["audit_id"]; "tcc_events" := ["audit_id"; "prev_hash"];
                                    "rule_mutations" := ["mutation_id"] ]}) as (s' & E & _ & _ & E2).
  - repeat constructor; eexists; reflexivity.
  - exists s'. by split.
Defined.

(** Two rotations within one second write the same file: the second one truncates the archive
    of the first, whose rows are then nowhere. *)
Definition rotate_twice : AuditDb * ArchiveDir :=
  rotate_files 7 "2027" "now" 0 Written ""
    (mkDb [list_row "z" "2026-02-01" 9] None,
     (rotate_files 7 "2027" "now" 0 Written "" (list_db, ∅)).2).
Lemma second_rotation_overwrites :
  audit_rows (rotate_files 7 "2027" "now" 0 Written "" (list_db, ∅)).1 = [] /\
  audit_rows rotate_twice.1 = [] /\
  rotate_twice.2 = {[ archive_name 7 := archive_events_to_ndjson "now" [list_row "z" "2026-02-01" 9] ]}.
Proof. vm_compute. done. Qed.
(** A bound with the suffix Z is compared as text with times that end in a numeric offset, so
    that the events of the second it names are left out. *)
Lemma zulu_bound_skips_second :
  str_ge "2026-08-28T12:00:00.500+00:00" "2026-08-28T12:00:00Z" = false.
Proof. reflexivity. Qed.

End ListingSpec.
