(* ===== verification/Platform.v ===== *)
(** * Platform services (crates fg-tcc, fg-es and the two bridges)

    The names of the TCC services, the status list, and the monitor of Endpoint Security
    events.  What the platform answers is an argument: the foreign functions of the bridges
    return an integer, and a build is a stub or not. *)
From S2P Require Import Prelude Json.

Module Platform.
Import Json.

(** *** TCC *)

Inductive TccService : Type :=
| Accessibility | ScreenRecording | FullDiskAccess | Microphone | Camera | AppleEvents.
#[global] Instance TccService_eq_dec : EqDecision TccService.
Proof. solve_decision. Defined.
(** [TccService::as_str] and [TccService::parse] *)
Definition tcc_as_str (s : TccService) : string :=
  match s with
  | Accessibility => "accessibility"
  | ScreenRecording => "screen_capture"
  | FullDiskAccess => "full_disk_access"
  | Microphone => "microphone"
  | Camera => "camera"
  | AppleEvents => "apple_events"
  end.
Definition tcc_parse (s : string) : option TccService :=
  if String.eqb s "accessibility" then Some Accessibility
  else if String.eqb s "screen_capture" || String.eqb s "screen_recording" then Some ScreenRecording
  else if String.eqb s "full_disk_access" then Some FullDiskAccess
  else if String.eqb s "microphone" then Some Microphone
  else if String.eqb s "camera" then Some Camera
  else if String.eqb s "apple_events" then Some AppleEvents
  else None.
(** The derived name of a variant on the wire. *)
Definition tcc_wire_name (s : TccService) : string :=
  match s with
  | Accessibility => "Accessibility" | ScreenRecording => "ScreenRecording"
  | FullDiskAccess => "FullDiskAccess" | Microphone => "Microphone" | Camera => "Camera"
  | AppleEvents => "AppleEvents"
  end.
Record TccStatus : Type := mkTccStatus {
  tcc_service : TccService;
  tcc_authorized : bool;
  tcc_source : string
}.
(** The bridge: the integer each foreign function returns, and the kind of build. *)
Record TccBridge : Type := mkTccBridge {
  tcc_ffi : TccService -> Z;
  tcc_stub : bool
}.
(** [accessibility], [screen_capture] and the other functions of fg-tcc-bridge *)
Definition bridge_status (b : TccBridge) (s : TccService) : bool := Z.eqb (tcc_ffi b s) 1.
(** [query_status] *)
Definition query_status (b : TccBridge) : list TccStatus :=
  let source := if tcc_stub b then "tccutil:stub" else "swift-bridge:live" in
  ((fun s => mkTccStatus s (bridge_status b s) source) <$>
     [Accessibility; ScreenRecording; FullDiskAccess; Microphone; Camera]) ++
  [mkTccStatus AppleEvents (bridge_status b AppleEvents)
     (if tcc_stub b then "tccutil:stub" else "apple-events:unknown")].
Definition tcc_status_value (s : TccStatus) : Value :=
  obj [("service", Str (tcc_wire_name (tcc_service s))); ("authorized", Bool (tcc_authorized s));
       ("source", Str (tcc_source s))].

(** *** Endpoint Security *)

Inductive EsEventKind : Type := Exec | FileWrite | Rename | Unlink | SocketOpen.
#[global] Instance EsEventKind_eq_dec : EqDecision EsEventKind.
Proof. solve_decision. Defined.
(** [EsEventKind::as_str] and [EsEventKind::parse] *)
Definition es_as_str (k : EsEventKind) : string :=
  match k with
  | Exec => "exec" | FileWrite => "file_write" | Rename => "rename" | Unlink => "unlink"
  | SocketOpen => "socket_open"
  end.
Definition es_parse (s : string) : option EsEventKind :=
  if String.eqb s "exec" then Some Exec
  else if String.eqb s "file_write" then Some FileWrite
  else if String.eqb s "rename" then Some Rename
  else if String.eqb s "unlink" then Some Unlink
  else if String.eqb s "socket_open" then Some SocketOpen
  else None.
Definition es_wire_name (k : EsEventKind) : string :=
  match k with
  | Exec => "Exec" | FileWrite => "FileWrite" | Rename => "Rename" | Unlink => "Unlink"
  | SocketOpen => "SocketOpen"
  end.
Record EsEvent : Type := mkEsEvent {
  es_kind : EsEventKind;
  es_pid : Z;
  es_process : string;
  es_target : string;
  es_ts : Z
}.
Inductive EsMonitorState : Type := Active | Degraded | Inactive.
Record EsStatus : Type := mkEsStatus {
  es_state : EsMonitorState;
  es_source : string;
  es_entitlement : bool;
  es_subscribed : list EsEventKind
}.
(** [EsStatus::degraded] *)
Definition degraded : EsStatus := mkEsStatus Degraded "es-bridge:stub" false [].
Record EsMonitor : Type := mkMonitor { es_kinds : list EsEventKind; es_active : bool }.

(** [EsMonitor::new], [start], [stop], [status] and [monitor_events]; [stub] is what
    [fg_es_bridge::is_stub] answers. *)
Definition monitor_new (kinds : list EsEventKind) : EsMonitor := mkMonitor kinds false.
Definition live_status (st : EsMonitorState) (kinds : list EsEventKind) : EsStatus :=
  mkEsStatus st "es-bridge:live" true kinds.
Definition monitor_start (stub : bool) (m : EsMonitor) : EsMonitor * EsStatus :=
  if stub then (m, degraded)
  else (mkMonitor (es_kinds m) true, live_status Active (es_kinds m)).
Definition monitor_stop (m : EsMonitor) : EsMonitor := mkMonitor (es_kinds m) false.
Definition monitor_status (stub : bool) (m : EsMonitor) : EsStatus :=
  if stub then degraded
  else if es_active m then live_status Active (es_kinds m) else live_status Inactive [].
Definition monitor_events (stub : bool) (m : EsMonitor) : list EsEvent := if stub then [] else [].
(** [default_kinds] *)
Definition default_kinds : list EsEventKind := [Exec; FileWrite; Rename; Unlink; SocketOpen].
(** [AuditEngine::es_status] and [es_events] *)
Definition engine_es_status (stub : bool) : EsStatus :=
  (monitor_start stub (monitor_new default_kinds)).2.
Definition engine_es_events (stub : bool) : list EsEvent :=
  monitor_events stub (monitor_new default_kinds).

Definition es_state_name (s : EsMonitorState) : string :=
  match s with Active => "active" | Degraded => "degraded" | Inactive => "inactive" end.
Definition es_status_value (s : EsStatus) : Value :=
  obj [("state", Str (es_state_name (es_state s))); ("source", Str (es_source s));
       ("entitlement", Bool (es_entitlement s));
       ("subscribed", Arr ((fun k => Str (es_wire_name k)) <$> es_subscribed s))].
Definition es_event_value (e : EsEvent) : Value :=
  obj [("kind", Str (es_wire_name (es_kind e))); ("pid", u64_value (es_pid e));
       ("process", Str (es_process e)); ("target", Str (es_target e)); ("ts", i64_value (es_ts e))].
End Platform.

(** ** Properties *)
Module PlatformSpec.
Import Platform.

Lemma tcc_parse_as_str s : tcc_parse (tcc_as_str s) = Some s.
Proof. by destruct s. Qed.
Lemma es_parse_as_str k : es_parse (es_as_str k) = Some k.
Proof. by destruct k. Qed.
(** The names [tcc_parse] accepts, and for which service. *)
Lemma tcc_parse_spec n s : tcc_parse n = Some s <->
  n = tcc_as_str s \/ (n = "screen_recording" /\ s = ScreenRecording).
Proof.
  split.
  - unfold tcc_parse. intros E. repeat (case_match; [boolp; simplify_eq; auto|]); try done.
    all: repeat match goal with H : (_ || _)%bool = true |- _ => apply orb_true_iff in H as [H|H] end;
      boolp; simplify_eq; auto.
  - intros [->|[-> ->]]; [apply tcc_parse_as_str|done].
Qed.

(** *** The monitor *)

Inductive mon_op : Type := OStart | OStop.
Definition mon_step (stub : bool) (m : EsMonitor) (o : mon_op) : EsMonitor :=
  match o with OStart => (monitor_start stub m).1 | OStop => monitor_stop m end.
Lemma mon_kinds stub ops m : es_kinds (foldl (mon_step stub) m ops) = es_kinds m.
Proof.
  revert m. induction ops as [|o ops IH]; intros m; [done|]. cbn. rewrite IH. by destruct o, stub.
Qed.

(** Whatever the sequence of starts and stops, the reported status is truthful: a stub
    build is always degraded and has no entitlement and no subscription, and a live build is
    active with all its kinds exactly when the last operation was a start. *)
Theorem monitor_truthful stub kinds ops :
  let st := monitor_status stub (foldl (mon_step stub) (monitor_new kinds) ops) in
  if stub then st = degraded
  else match last ops with
       | Some OStart => es_state st = Active /\ es_subscribed st = kinds
       | _ => es_state st = Inactive /\ es_subscribed st = []
       end.
Proof.
  destruct stub; [done|]. cbn zeta. destruct ops as [|o ops _] using rev_ind; [done|].
  rewrite last_snoc, foldl_snoc. pose proof (mon_kinds false ops (monitor_new kinds)) as Hk.
  destruct o; cbn; [|done]. by rewrite Hk.
Qed.

(** The service names of the status list are not the names a report has to use. *)
Lemma status_names_not_reportable s : tcc_parse (tcc_wire_name s) = None.
Proof. by destruct s. Qed.
End PlatformSpec.
