(* ===== verification/Ipc.v ===== *)
(** * The JSON-RPC server (fg-ipc/src/lib.rs)

    Parameters of a request, one definition per method handler, their dispatch by name, the
    codes and messages of errors, the way a request takes from a line of bytes to a response
    line, and the loop of a connection.  The clock, new ids, faults of SQL statements, the
    platform, the environment and the HTTP exchange of one call are the record [World]; what
    the semaphores, the timeout and the runtime do is the record [Sched]. *)
From stdpp Require Import pretty.
From S2P Require Import Prelude Json Core Pattern Tokenizer Semantic Rules Redact Tokens Chain.
From S2P Require Import Actions Ledger Engine Auth Wire Cluster Listing Platform.

Module Ipc.
Import Json.

Definition DEFAULT_TENANT : string := "default".
Definition MAX_LINE_BYTES : nat := N.to_nat (1024 * 1024).

(** *** Lines *)

Definition FRAMING_BYTE : ascii := ascii_of_nat 10.
(** [take(n).read_until(FRAMING_BYTE)]: the bytes read, and the rest of the stream *)
Fixpoint read_until (n : nat) (l : list ascii) : list ascii * list ascii :=
  match n, l with
  | S n', a :: l' =>
      if Ascii.eqb a FRAMING_BYTE then ([a], l')
      else let '(x, r) := read_until n' l' in (a :: x, r)
  | _, _ => ([], l)
  end.
(** The loop that pops framing bytes off the end. *)
Fixpoint pop_framing (rev_line : list ascii) : list ascii :=
  match rev_line with
  | a :: l => if Ascii.eqb a FRAMING_BYTE then pop_framing l else rev_line
  | [] => []
  end.
Definition strip_framing (line : list ascii) : list ascii := reverse (pop_framing (reverse line)).

(** [String::from_utf8_lossy]: how many bytes a valid character at the front has, or how many
    bytes of an invalid one are replaced. *)
Inductive Chunk : Type := Valid (n : nat) | Invalid (n : nat).
Definition second_ok (a b : ascii) : bool :=
  if byte_eqb a 224 then in_range b 160 191
  else if byte_eqb a 237 then in_range b 128 159
  else if byte_eqb a 240 then in_range b 144 191
  else if byte_eqb a 244 then in_range b 128 143
  else Tokens.cont b.
Definition cont_at (n : nat) (l : list ascii) : bool :=
  match l !! n with Some b => Tokens.cont b | None => false end.
Definition front_chunk (l : list ascii) : Chunk :=
  match l with
  | [] => Valid 0
  | a :: l1 =>
      let second := match l1 with b :: _ => second_ok a b | [] => false end in
      if in_range a 0 127 then Valid 1
      else if in_range a 194 223 then (if second then Valid 2 else Invalid 1)
      else if in_range a 224 239 then
        (if negb second then Invalid 1 else if cont_at 2 l then Valid 3 else Invalid 2)
      else if in_range a 240 244 then
        (if negb second then Invalid 1 else if negb (cont_at 2 l) then Invalid 2
         else if cont_at 3 l then Valid 4 else Invalid 3)
      else Invalid 1
  end.
Definition REPLACEMENT : list ascii := [ascii_of_nat 239; ascii_of_nat 191; ascii_of_nat 189].
Fixpoint lossy_go (fuel : nat) (l : list ascii) : list ascii :=
  match fuel, l with
  | S fuel', _ :: _ =>
      match front_chunk l with
      | Valid n => take n l ++ lossy_go fuel' (drop n l)
      | Invalid n => REPLACEMENT ++ lossy_go fuel' (drop n l)
      end
  | _, _ => []
  end.
Definition from_utf8_lossy (l : list ascii) : string := of_bytes (lossy_go (length l) l).

(** [reject_conn]: the frame sent when no connection slot is free.  The framing byte is
    printed as the number it is. *)
Definition reject_frame (code : Z) (msg : string) : string :=
  let q := Redact.DQ in
  "{" +:+ q +:+ "jsonrpc" +:+ q +:+ ":" +:+ q +:+ "2.0" +:+ q +:+ "," +:+ q +:+ "id" +:+ q +:+ ":null," +:+
  q +:+ "error" +:+ q +:+ ":{" +:+ q +:+ "code" +:+ q +:+ ":" +:+ pretty code +:+ "," +:+ q +:+ "message" +:+
  q +:+ ":" +:+ q +:+ msg +:+ q +:+ "}}" +:+ pretty (nat_of_ascii FRAMING_BYTE).

(** *** Parameters *)

Definition param {A} (conv : Value -> option A) (p : Value) (name : string) (idx : nat)
  : option A :=
  match p with
  | Obj _ => get name p ≫= conv
  | Arr _ => get_index idx p ≫= conv
  | _ => None
  end.
(** [s_param], [b_param], [u_param] and [v_param] *)
Definition s_param : Value -> string -> nat -> option string := param as_str.
Definition b_param : Value -> string -> nat -> option bool := param as_bool.
Definition u_param : Value -> string -> nat -> option Z := param as_u64.
Definition v_param : Value -> string -> nat -> option Value := param Some.

(** [cap_limit] *)
Definition AUDIT_LIST_LIMIT_CAP : Z := 10000.
Definition cap_limit (n : Z) : nat := Z.to_nat (Z.min (Z.max n 1) AUDIT_LIST_LIMIT_CAP).
(** [truncate_field]: characters, not bytes *)
Definition truncate_field (s : string) (max : nat) : string :=
  let cs := utf8_chars (bytes s) in
  if Nat.leb (length cs) max then s else of_bytes (mjoin (take max cs)).

(** *** Errors *)

(** [err_code] and [err_wire_msg] *)
Definition err_code (e : GuardError) : Z :=
  match e with
  | Unauthorized _ => -32001
  | Forbidden => -32001
  | RateLimited => -32002
  | StaleEpoch _ _ => -32003
  | Core.Engine _ => -32010
  | InvalidParams => -32602
  | MethodNotFound => -32601
  | InvalidRequest => -32600
  | Io _ | Serde _ => -32603
  end.
Definition err_wire_msg (e : GuardError) : string :=
  match e with
  | Unauthorized _ => "unauthorized"
  | RateLimited => "rate limited"
  | StaleEpoch caller guard => "stale epoch: caller=" +:+ pretty caller +:+ " guard=" +:+ pretty guard
  | InvalidParams => "invalid params"
  | MethodNotFound => "method not found"
  | Forbidden => "unauthorized"
  | InvalidRequest => "invalid request: jsonrpc must be 2.0"
  | Core.Engine _ => "guard engine error"
  | Serde _ => "serialization error"
  | Io _ => "io error"
  end.
(** [is_slow_method] *)
Definition is_slow_method (method : string) : bool :=
  mem_str method ["guard.audit.verify"; "guard.cluster.audit.fetch"; "guard.cluster.epoch.sync";
                  "guard.cluster.confirm.relay"; "guard.cluster.confirm.list"].
(** [ActionError]'s [Display] *)
Definition action_error_text (e : Actions.ActionError) : string :=
  match e with
  | Actions.ANotFound i => "action not found: " +:+ i
  | Actions.AExpired i => "action expired: " +:+ i
  | Actions.Consumed i => "action already consumed: " +:+ i
  | Actions.AbsoluteBlock i => "L4 absolute block has no confirm path: " +:+ i
  | Actions.CrossTenant s c =>
      "cross-tenant confirm denied: action tenant " +:+ s +:+ ", caller " +:+ c
  | Actions.RiskTampered s j =>
      "risk column tampered: stored " +:+ pretty s +:+ ", verdict_json " +:+ j
  | Actions.AuditFailed e => "audit persist failed: " +:+ Ledger.sql_error_text e
  | Actions.ASerde m => "serde error: " +:+ m
  end.

(** *** Requests *)

Record RpcRequest : Type := mkRequest {
  jsonrpc : string;
  rq_id : Value;
  rq_method : string;
  params : Value
}.
(** The derived decoder; the members that stay values are normalised. *)
Definition request_of_doc (v : Value) : option RpcRequest :=
  fs ← struct_fields ["jsonrpc"; "id"; "method"; "params"] v;
  match fs with
  | [f1; f2; f3; f4] =>
      j ← req as_str f1; i ← req (fun v => Some (normalize v)) f2; m ← req as_str f3;
      p ← req (fun v => Some (normalize v)) f4; Some (mkRequest j i m p)
  | _ => None
  end.
(** [extract_secret] *)
Definition extract_secret (r : RpcRequest) : option string := get "secret" (params r) ≫= as_str.

(** What one call sees of the world outside. *)
Record World : Type := mkWorld {
  w_uuid : string;
  w_ev_id : string;
  w_now : Z;
  w_time : string;
  w_put_fault : option string;
  w_spool_ok : bool;
  w_retention : Ledger.Retention;
  w_fresh : nat -> string;
  w_rnd : nat -> string;
  w_ids : Engine.MutIds;
  w_faults : nat -> Ledger.Fault;
  w_version : string;
  w_tcc : Platform.TccBridge;
  w_es_stub : bool;
  w_env_token : option string;
  w_env_host : option string;
  w_env_port : option string;
  w_client_fault : option string;
  w_http : Cluster.HttpRequest -> Cluster.HttpOutcome
}.

(** What the runtime does with a request: whether the permits come in time, whether the timeout
    passes before the handler ends, and whether the response is written (it is not when the
    peer is gone or the deadline of the connection passes meanwhile). *)
Record Sched : Type := mkSched {
  slow_permit : bool;
  req_permit : bool;
  timed_out : bool;
  written : bool
}.

Definition deny_tenant : Engine.Failure := Engine.Failed (Unauthorized "tenant not authorized for caller").
Definition invalid : Engine.Failure := Engine.Failed InvalidParams.
Definition engine_err (m : string) : Engine.Failure := Engine.Failed (Core.Engine m).

Section WithParams.
Context `{RegexEngine, ShellEnv, Grammars, Crypto, RowCodec, VerdictCodec, StoreCodec}.
Context `{SqlFunctions, JsonText, ClusterHash, HexCodec}.

(** A handler: the state after it and the value or failure. *)
Definition Reply : Type := Engine.AuditEngine * result Engine.Failure Value.
Definition fail (f : Engine.Failure) (g : Engine.AuditEngine) : Reply := (g, Err f).
(** A method that works for one tenant runs only for a caller who may act for it. *)
Definition for_tenant (i : Auth.CallerIdentity) (tenant : string) (g : Engine.AuditEngine)
    (k : Reply) : Reply :=
  if negb (Auth.tenant_allowed tenant i) then fail deny_tenant g else k.
Definition tenant_param (p : Value) (idx : nat) : string :=
  default DEFAULT_TENANT (s_param p "tenant_id" idx).

Definition h_ping (w : World) (g : Engine.AuditEngine) : Reply :=
  (g, Ok (obj [("pong", Bool true); ("version", Str (w_version w));
               ("rules_epoch", u64_value (Rules.epoch (Engine.e_rules g)))])).

Definition h_evaluate (w : World) (i : Auth.CallerIdentity) (p : Value) (g : Engine.AuditEngine)
  : Reply :=
  match s_param p "content" 0 with
  | None => fail invalid g
  | Some content =>
      let requester := default "unknown" (s_param p "requester" 3) in
      let tenant := tenant_param p 2 in
      for_tenant i tenant g
        (let epoch := default 0%Z (u_param p "caller_epoch" 1) in
         let ct := content_type_parse (default "shell" (s_param p "content_type" 5)) in
         let hint := s_param p "category_hint" 6 in
         match Engine.evaluate (w_uuid w) (w_now w) (w_put_fault w) content epoch tenant ct hint g with
         | (g', Err e) => (g', Err e)
         | (g', Ok v) =>
             match Ledger.append_event (w_ev_id w) (w_time w) tenant v
                     (default "" (redacted_content v)) requester (w_spool_ok w) (w_retention w)
                     (Engine.e_store g') with
             | (s, Err e) =>
                 if Ledger.high_risk v
                 then fail (engine_err ("high-risk audit persist failed: " +:+ Ledger.sql_error_text e))
                        (Engine.with_store s g')
                 else (Engine.with_store s g', Ok (Wire.verdict_value v))
             | (s, Ok _) => (Engine.with_store s g', Ok (Wire.verdict_value v))
             end
         end)
  end.

Definition decision_value (d : Engine.AuditDecision) : Value :=
  obj [("decision", Str (Engine.decision d)); ("reason", Str (Engine.d_reason d));
       ("risk_level", usize_value (Engine.d_risk d)); ("audit_id", Str (Engine.d_audit_id d));
       ("trigger_id", Str (Engine.d_trigger d))].
Definition h_audit (w : World) (i : Auth.CallerIdentity) (p : Value) (g : Engine.AuditEngine) : Reply :=
  match s_param p "trigger_id" 0 with
  | None => fail invalid g
  | Some trigger =>
      let event_type := default "" (s_param p "event_type" 1) in
      let target_path := default "" (s_param p "target_path" 2) in
      let target_agent := default "" (s_param p "target_agent" 3) in
      let payload := default Null (v_param p "payload" 4) in
      let node := default "" (s_param p "node_id" 5) in
      let tenant := tenant_param p 6 in
      for_tenant i tenant g
        (let '(g', r) := Engine.audit_event (w_uuid w) (w_now w) (w_put_fault w) (w_ev_id w)
                           (w_time w) (w_spool_ok w) (w_retention w) trigger event_type target_path
                           target_agent (match payload with Null => None | v => Some (json_text v) end)
                           node tenant target_agent g in
         (g', d ← r; mret (decision_value d)))
  end.

Definition h_audit_result (p : Value) (g : Engine.AuditEngine) : Reply :=
  match s_param p "audit_id" 0 with
  | None => fail invalid g
  | Some id =>
      (g, Ok (obj [("received", Bool true); ("audit_id", Str id);
                   ("trigger_id", Str (default "" (s_param p "trigger_id" 1)))]))
  end.

Definition h_rule_list (g : Engine.AuditEngine) : Reply :=
  let rs := Rules.engine_list (Engine.e_rules g) in
  (g, Ok (obj [("rules", Arr (Wire.rule_value <$> Rules.rs_rules rs));
               ("epoch", u64_value (Rules.rs_epoch rs))])).

(** The gate of the three methods that change rules: an administrator with a current epoch. *)
Definition for_admin (i : Auth.CallerIdentity) (p : Value) (g : Engine.AuditEngine) (k : Reply)
  : Reply :=
  if negb (Auth.is_admin i) then fail (Engine.Failed Forbidden) g
  else match Rules.check_epoch (default 0%Z (u_param p "caller_epoch" 0)) (Engine.e_rules g) with
  | Err e => fail (Engine.Failed e) g
  | Ok _ => k
  end.
Definition epoch_reply (x : Engine.AuditEngine * result Rules.RuleError Z) : Reply :=
  (x.1, match x.2 with
        | Ok e => Ok (obj [("new_epoch", u64_value e)])
        | Err e => Err (engine_err (Engine.rule_error_text e))
        end).
Definition h_rule_add (w : World) (i : Auth.CallerIdentity) (p : Value) (g : Engine.AuditEngine)
  : Reply :=
  for_admin i p g
    (match Wire.rule_of_value (default Null (v_param p "rule" 1)) with
     | None => fail invalid g
     | Some r => epoch_reply (Engine.add_rule (w_ids w) (w_faults w 0) (w_faults w 1) (w_faults w 2) r g)
     end).
Definition h_rule_update (w : World) (i : Auth.CallerIdentity) (p : Value) (g : Engine.AuditEngine)
  : Reply :=
  for_admin i p g
    (match s_param p "name" 1 with
     | None => fail invalid g
     | Some n =>
         match Wire.rule_of_value (default Null (v_param p "rule" 2)) with
         | None => fail invalid g
         | Some r => epoch_reply (Engine.update_rule (w_ids w) (w_faults w 0) (w_faults w 1)
                                    (w_faults w 2) (w_faults w 3) n r g)
         end
     end).
Definition h_rule_remove (w : World) (i : Auth.CallerIdentity) (p : Value) (g : Engine.AuditEngine)
  : Reply :=
  for_admin i p g
    (match s_param p "name" 1 with
     | None => fail invalid g
     | Some n => epoch_reply (Engine.remove_rule (w_ids w) (w_faults w 0) (w_faults w 1) n g)
     end).

(** A panic of the engine, as a failure of the call. *)
Definition no_panic {A} (r : result panic A) : result Engine.Failure A :=
  map_err (fun _ => Engine.Panicked) r.
Definition h_redact (w : World) (i : Auth.CallerIdentity) (p : Value) (g : Engine.AuditEngine) : Reply :=
  match s_param p "content" 0 with
  | None => fail invalid g
  | Some content =>
      let reversible := default false (b_param p "reversible" 1) in
      let tenant := tenant_param p 2 in
      for_tenant i tenant g
        (let '(g', r) := Engine.redact_tenant (w_fresh w) (w_rnd w) (w_now w) content reversible
                           tenant g in
         (g', x ← no_panic r;
              mret (obj [("redacted_content", Str (Engine.rr_content x));
                         ("token_map_id", opt_value Str (Engine.token_map_id x))])))
  end.
Definition h_patterns_dump (g : Engine.AuditEngine) : Reply :=
  (g, Ok (obj [("patterns",
     Arr ((fun d => obj [("name", Str d.1.1); ("regex", Str d.1.2); ("validator", Str (Wire.tag_name d.2))])
            <$> Redact.pattern_defs (Engine.e_redactor g)))])).
Definition h_reveal (w : World) (i : Auth.CallerIdentity) (p : Value) (g : Engine.AuditEngine) : Reply :=
  match s_param p "content" 0 with
  | None => fail invalid g
  | Some content =>
      let tenant := tenant_param p 2 in
      for_tenant i tenant g
        (let '(g', r) := Engine.reveal_tenant (w_now w) content tenant g in
         (g', x ← no_panic r; mret (obj [("content", Str x)])))
  end.
Definition h_confirm (w : World) (i : Auth.CallerIdentity) (p : Value) (g : Engine.AuditEngine) : Reply :=
  match s_param p "action_id" 0 with
  | None => fail invalid g
  | Some id =>
      let approved := default false (b_param p "approved" 1) in
      let approver := default "unknown" (s_param p "approved_by" 2) in
      let tenant := tenant_param p 3 in
      for_tenant i tenant g
        (let '(g', r) := Engine.confirm (w_ev_id w) (w_time w) (w_now w) id approved approver tenant g in
         (g', v ← map_err (fun e => engine_err (action_error_text e)) r;
              mret (obj [("verdict", Wire.verdict_value v)])))
  end.

Definition h_tcc_status (w : World) (g : Engine.AuditEngine) : Reply :=
  (g, Ok (obj [("statuses", Arr (Platform.tcc_status_value <$> Platform.query_status (w_tcc w)))])).
Definition h_tcc_report (w : World) (p : Value) (g : Engine.AuditEngine) : Reply :=
  match s_param p "permission" 0 with
  | None => fail invalid g
  | Some perm =>
      match Platform.tcc_parse perm with
      | None => fail invalid g
      | Some _ =>
          let requester := truncate_field (default "unknown" (s_param p "requester" 1)) 1024 in
          let res := truncate_field (default "unknown" (s_param p "result" 2)) 1024 in
          let why := truncate_field (default "" (s_param p "reason" 3)) 1024 in
          let '(g', id) := Engine.report_tcc (w_ev_id w) (w_time w) perm requester res why g in
          (g', Ok (obj [("audit_id", Str id)]))
      end
  end.
Definition h_tcc_events (w : World) (p : Value) (g : Engine.AuditEngine) : Reply :=
  let limit := cap_limit (default 50%Z (u_param p "limit" 0)) in
  (g, Ok (obj [("events", Arr (Wire.tcc_record_value (w_time w) <$>
                                 Listing.list_tcc_events limit (Engine.e_store g)))])).

Definition record_value (r : Listing.AuditRecord) : Value :=
  obj [("id", Str (Listing.ar_id r)); ("ts", Str (Listing.ar_ts r));
       ("tenant_id", Str (Listing.ar_tenant r)); ("verdict", Wire.verdict_value (Listing.ar_verdict r));
       ("raw_content_redacted", Str (Listing.ar_content r))].
Definition list_filter_of (p : Value) (tenant : string) : Listing.AuditListFilter :=
  let '(ct, cid) := Listing.parse_cursor (s_param p "cursor" 6) in
  Listing.mkFilter (Some tenant) (s_param p "since" 2) (s_param p "until" 3) (s_param p "event_type" 4)
    (to_lowercase <$> s_param p "level_min" 5) ct cid
    (cap_limit (default 50%Z (u_param p "limit" 0))).
Definition h_audit_list (w : World) (i : Auth.CallerIdentity) (p : Value) (g : Engine.AuditEngine)
  : Reply :=
  let tenant := tenant_param p 1 in
  for_tenant i tenant g
    (let page := Listing.list_filtered_page (w_time w) (list_filter_of p tenant)
                   (Ledger.audit (Engine.e_store g)) in
     (g, Ok (obj [("records", Arr (record_value <$> Listing.records page));
                  ("next_cursor", opt_value Str (Listing.next_cursor page));
                  ("has_more", Bool (Listing.has_more page))]))).

(** The scope of a verification: what an administrator asks for, else a tenant of the caller. *)
Definition verify_scope (i : Auth.CallerIdentity) (wire : option string)
  : result Engine.Failure (option string) :=
  if Auth.is_admin i then Ok wire
  else match wire with
  | Some t => if negb (Auth.tenant_allowed t i) then Err deny_tenant else Ok (Some t)
  | None => Ok (head (Auth.tenants i))
  end.
Definition h_audit_verify (w : World) (i : Auth.CallerIdentity) (p : Value) (g : Engine.AuditEngine)
  : Reply :=
  match verify_scope i (s_param p "tenant_id" 0) with
  | Err f => fail f g
  | Ok scope =>
      let '(s, v) := Ledger.verify_all_chains scope (w_time w) (Engine.e_store g) in
      (Engine.with_store s g, Ok (Wire.all_chains_value v))
  end.

Definition h_es_status (w : World) (g : Engine.AuditEngine) : Reply :=
  (g, Ok (Platform.es_status_value (Platform.engine_es_status (w_es_stub w)))).
Definition h_es_events (w : World) (g : Engine.AuditEngine) : Reply :=
  (g, Ok (obj [("events", Arr (Platform.es_event_value <$> Platform.engine_es_events (w_es_stub w)))])).

(** *** Cluster methods *)

(** [cluster_cfg_or_err], and [ClusterClient::new] *)
Definition cluster_cfg_or_err (w : World) : result Engine.Failure Cluster.ClusterConfig :=
  ok_or (engine_err "cluster not configured: FUSION_GUARD_CLUSTER_TOKEN env 未设 (单节点模式, 跨节点原语不可用)")
    (Cluster.from_env (w_env_token w) (w_env_host w) (w_env_port w)).
Definition cluster_client (w : World) : result Engine.Failure Cluster.ClusterConfig :=
  cfg ← cluster_cfg_or_err w;
  match w_client_fault w with
  | Some m => Err (engine_err ("cluster client: cluster transport: reqwest build: " +:+ m))
  | None => Ok cfg
  end.
Definition cluster_failed {A} (what : string) (r : result Cluster.ClusterError A)
  : result Engine.Failure A :=
  map_err (fun e => engine_err (what +:+ ": " +:+ Cluster.cluster_error_text e)) r.
Definition h_cluster_fetch (w : World) (p : Value) (g : Engine.AuditEngine) : Reply :=
  (g, cfg ← cluster_client w;
      resp ← cluster_failed "cluster audit fetch"
               (Cluster.fetch_audit_chain (w_http w) cfg (default 0%Z (u_param p "since_seq" 0)));
      mret (obj [("node_id", Str (Cluster.cr_node_id resp));
                 ("fetched_at", Str (Cluster.cr_fetched_at resp));
                 ("records", Arr (Cluster.record_value <$> Cluster.cr_records resp));
                 ("verify", Cluster.segment_value
                    (Cluster.verify_chain_segment (Cluster.cr_node_id resp) (Cluster.cr_records resp)
                       (Cluster.derive_audit_chain_key (Cluster.cluster_token cfg))))])).
(** The comparison of the local epoch with the one of the cluster. *)
Definition reconcile (w : World) (cfg : Cluster.ClusterConfig) (local cluster : Z)
  : string * option Z :=
  if Z.ltb cluster local then
    match Cluster.advance_rule_epoch (w_http w) cfg "guard local epoch ahead" with
    | Ok r => ("advanced_cluster", Some (Cluster.er_epoch r))
    | Err _ => ("advance_failed", None)
    end
  else if Z.ltb local cluster then ("local_behind", None)
  else ("in_sync", None).
Definition h_cluster_epoch (w : World) (g : Engine.AuditEngine) : Reply :=
  (g, cfg ← cluster_client w;
      ce ← cluster_failed "cluster epoch get" (Cluster.get_rule_epoch (w_http w) cfg);
      let local := Rules.epoch (Engine.e_rules g) in
      let '(action, advanced) := reconcile w cfg local (Cluster.er_epoch ce) in
      mret (obj [("local_epoch", u64_value local); ("cluster_epoch", u64_value (Cluster.er_epoch ce));
                 ("advanced_at", Str (Cluster.er_advanced_at ce)); ("action", Str action);
                 ("advanced_to", opt_value u64_value advanced)])).
Definition h_cluster_relay (w : World) (p : Value) (g : Engine.AuditEngine) : Reply :=
  (g, cfg ← cluster_client w;
      cid ← ok_or invalid (s_param p "confirm_id" 0);
      node ← ok_or invalid (s_param p "node_id" 1);
      act ← ok_or invalid (s_param p "action" 2);
      ep ← ok_or invalid (u_param p "epoch" 3);
      t ← ok_or invalid (s_param p "ts" 4);
      r ← cluster_failed "cluster confirm relay" (Cluster.relay_confirm (w_http w) cfg cid node act ep t);
      mret (Cluster.relay_resp_value r)).
Definition h_cluster_list (w : World) (p : Value) (g : Engine.AuditEngine) : Reply :=
  (g, cfg ← cluster_client w;
      r ← cluster_failed "cluster confirm list"
            (Cluster.list_confirms (w_http w) cfg (u_param p "epoch" 0));
      mret (Cluster.list_resp_value r)).

(** *** Dispatch by name *)

(** [handle_method] *)
Definition handle_method (w : World) (i : Auth.CallerIdentity) (method : string) (p : Value)
    (g : Engine.AuditEngine) : Reply :=
  let on := String.eqb method in
  if on "guard.ping" then h_ping w g
  else if on "guard.evaluate" then h_evaluate w i p g
  else if on "guard.audit" then h_audit w i p g
  else if on "guard.audit_result" then h_audit_result p g
  else if on "guard.rule.list" then h_rule_list g
  else if on "guard.rules.dump" then h_rule_list g
  else if on "guard.rule.add" then h_rule_add w i p g
  else if on "guard.rule.update" then h_rule_update w i p g
  else if on "guard.rule.remove" then h_rule_remove w i p g
  else if on "guard.redact" then h_redact w i p g
  else if on "guard.redact.patterns.dump" then h_patterns_dump g
  else if on "guard.reveal" then h_reveal w i p g
  else if on "guard.confirm" then h_confirm w i p g
  else if on "guard.tcc.status" then h_tcc_status w g
  else if on "guard.tcc.report" then h_tcc_report w p g
  else if on "guard.tcc.events" then h_tcc_events w p g
  else if on "guard.audit.list" then h_audit_list w i p g
  else if on "guard.audit.verify" then h_audit_verify w i p g
  else if on "guard.es.status" then h_es_status w g
  else if on "guard.es.events" then h_es_events w g
  else if on "guard.cluster.audit.fetch" then h_cluster_fetch w p g
  else if on "guard.cluster.epoch.sync" then h_cluster_epoch w g
  else if on "guard.cluster.confirm.relay" then h_cluster_relay w p g
  else if on "guard.cluster.confirm.list" then h_cluster_list w p g
  else fail (Engine.Failed MethodNotFound) g.

(** *** Responses *)

(** [ok_resp_bytes] and [err_resp_bytes]: the derived form of [RpcResponse], whose
    serialisation cannot fail, and the framing byte. *)
Definition response (id result error : Value) : Value :=
  Obj [("jsonrpc", Str "2.0"); ("id", id); ("result", result); ("error", error)].
Definition frame (doc : Value) : string := json_text doc +:+ String (ascii_of_nat 10) "".
Definition error_value (code : Z) (msg : string) : Value :=
  Obj [("code", i64_value code); ("message", Str msg)].
Definition ok_resp (id result : Value) : Value := response id result Null.
Definition err_resp (id : Value) (code : Z) (msg : string) : Value :=
  response id Null (error_value code msg).

(** [dispatch_arc] up to the document of the response.  A panic of the handler ends its thread,
    so that the join fails; after a timeout the handler still runs to its end. *)
Definition run_handler (w : World) (sc : Sched) (i : Auth.CallerIdentity) (r : RpcRequest)
    (g : Engine.AuditEngine) : Engine.AuditEngine * Value :=
  let '(g', res) := handle_method w i (rq_method r) (params r) g in
  (g', if timed_out sc then err_resp (rq_id r) (-32010) "guard request timeout"
       else match res with
       | Ok v => ok_resp (rq_id r) v
       | Err (Engine.Failed e) => err_resp (rq_id r) (err_code e) (err_wire_msg e)
       | Err Engine.Panicked =>
           let e := Core.Engine "blocking task join failed" in
           err_resp (rq_id r) (err_code e) (err_wire_msg e)
       end).
Definition dispatch_request (w : World) (sc : Sched) (secret : option string)
    (i : Auth.CallerIdentity) (r : RpcRequest) (g : Engine.AuditEngine) : Engine.AuditEngine * Value :=
  if negb (String.eqb (jsonrpc r) "2.0")
  then (g, err_resp (rq_id r) (-32600)
             ("invalid request: jsonrpc must be " +:+ Redact.DQ +:+ "2.0" +:+ Redact.DQ))
  else match Auth.deny_resp (Auth.authorize_method secret i (rq_method r) (extract_secret r)) with
  | Some (code, msg) => (g, err_resp (rq_id r) code msg)
  | None =>
      if is_slow_method (rq_method r) && negb (slow_permit sc)
      then (g, err_resp (rq_id r) (-32002) "guard rate limited")
      else if negb (req_permit sc) then (g, err_resp (rq_id r) (-32002) "guard rate limited")
      else run_handler w sc i r g
  end.
Definition dispatch_arc (w : World) (sc : Sched) (secret : option string) (i : Auth.CallerIdentity)
    (line : string) (g : Engine.AuditEngine) : Engine.AuditEngine * string :=
  match json_parse line ≫= request_of_doc with
  | None => (g, frame (err_resp Null (-32700) "parse error"))
  | Some r => let '(g', doc) := dispatch_request w sc secret i r g in (g', frame doc)
  end.

(** *** Connections *)

(** [conn_loop]: [env k] is what the [k]-th request meets.  The stream is what the peer sends
    until it closes its side or the deadline passes; the fuel is its length, and every iteration
    consumes a byte. *)
Inductive ConnEnd : Type := Closed | TooLarge | NotWritten.
Fixpoint conn_loop (fuel : nat) (env : nat -> World * Sched) (k : nat) (secret : option string)
    (i : Auth.CallerIdentity) (input : list ascii) (g : Engine.AuditEngine)
  : Engine.AuditEngine * string * ConnEnd :=
  match fuel with
  | 0 => (g, "", Closed)
  | S fuel' =>
      let '(line, rest) := read_until (S MAX_LINE_BYTES) input in
      match line with
      | [] => (g, "", Closed)
      | _ =>
          if Nat.ltb MAX_LINE_BYTES (length line) then (g, "", TooLarge)
          else
            let '(w, sc) := env k in
            let '(g', out) := dispatch_arc w sc secret i (from_utf8_lossy (strip_framing line)) g in
            if negb (written sc) then (g', "", NotWritten)
            else
              let '(g'', outs, e) := conn_loop fuel' env (S k) secret i rest g' in
              (g'', out +:+ outs, e)
      end
  end.
(** [handle_conn]: the identity is resolved once, when the connection is accepted. *)
Definition handle_conn (env : nat -> World * Sched) (secret : option string) (peer : Auth.PeerUid)
    (our_uid : Z) (input : list ascii) (g : Engine.AuditEngine)
  : Engine.AuditEngine * string * ConnEnd :=
  conn_loop (S (length input)) env 0 secret
    (Auth.resolve_identity (Engine.e_store g) peer our_uid) input g.

End WithParams.
End Ipc.
