(* ===== verification/IpcSpec.v ===== *)
(** * Properties of the JSON-RPC server (Ipc.v)

    What a request can do to the state, as a step relation between engines: every method is a
    sequence of such steps, so that what all steps keep, every connection keeps.  On top of it
    who can change what over the socket, what a caller can learn, and what is written back. *)
From stdpp Require Import relations pretty.
From S2P Require Import Prelude Json Core Pattern Tokenizer Semantic Rules Redact Tokens Chain.
From S2P Require Import ChainSpec Actions Ledger LedgerSpec Engine EngineSpec Auth Wire Cluster.
From S2P Require Import ClusterSpec Listing ListingSpec Platform Ipc.

Module IpcSpec.
Import Json Ledger Engine Auth Ipc.

Section Effects.
Context `{RegexEngine, ShellEnv, Grammars, Crypto, RowCodec, VerdictCodec, StoreCodec}.
Context `{SqlFunctions, JsonText, ClusterHash, HexCodec}.

(** One change of the state by a call in world [w] for caller [i]. *)
Inductive effect (w : World) (i : CallerIdentity) : AuditEngine -> AuditEngine -> Prop :=
| eff_evaluate content ep tenant ct hint g (_ : tenant_allowed tenant i = true) :
    effect w i g (evaluate (w_uuid w) (w_now w) (w_put_fault w) content ep tenant ct hint g).1
| eff_append tenant v raw who g (_ : tenant_allowed tenant i = true) :
    effect w i g (with_store (append_event (w_ev_id w) (w_time w) tenant v raw who (w_spool_ok w)
                                (w_retention w) (e_store g)).1 g)
| eff_add r g (_ : is_admin i = true) :
    effect w i g (add_rule (w_ids w) (w_faults w 0) (w_faults w 1) (w_faults w 2) r g).1
| eff_update n r g (_ : is_admin i = true) :
    effect w i g (update_rule (w_ids w) (w_faults w 0) (w_faults w 1) (w_faults w 2) (w_faults w 3) n r g).1
| eff_remove n g (_ : is_admin i = true) :
    effect w i g (remove_rule (w_ids w) (w_faults w 0) (w_faults w 1) n g).1
| eff_redact content rev tenant g (_ : tenant_allowed tenant i = true) :
    effect w i g (redact_tenant (w_fresh w) (w_rnd w) (w_now w) content rev tenant g).1
| eff_reveal content tenant g (_ : tenant_allowed tenant i = true) :
    effect w i g (reveal_tenant (w_now w) content tenant g).1
| eff_confirm id approved by_ tenant g (_ : tenant_allowed tenant i = true) :
    effect w i g (confirm (w_ev_id w) (w_time w) (w_now w) id approved by_ tenant g).1
| eff_tcc perm who res why g :
    effect w i g (report_tcc (w_ev_id w) (w_time w) perm who res why g).1
| eff_verify scope g :
    effect w i g (with_store (verify_all_chains scope (w_time w) (e_store g)).1 g).
Abbreviation effects w i := (rtc (effect w i)).

(** The gates. *)
Lemma for_tenant_effects w i tenant g k :
  (tenant_allowed tenant i = true -> effects w i g k.1) -> effects w i g (for_tenant i tenant g k).1.
Proof. unfold for_tenant. destruct (tenant_allowed tenant i); cbn; [auto|intros _; apply rtc_refl]. Qed.
Lemma for_admin_effects w i p g k :
  (is_admin i = true -> effects w i g k.1) -> effects w i g (for_admin i p g k).1.
Proof.
  unfold for_admin. destruct (is_admin i); cbn; [|intros _; apply rtc_refl].
  destruct (Rules.check_epoch _ _); cbn; [auto|intros _; apply rtc_refl].
Qed.
Lemma evaluate_effects w i p g : effects w i g (h_evaluate w i p g).1.
Proof.
  unfold h_evaluate. destruct (s_param p "content" 0) as [content|]; [|apply rtc_refl]. cbv zeta.
  apply for_tenant_effects. intros Ht.
  set (ep := default 0%Z _). set (ct := content_type_parse _). set (hint := s_param p "category_hint" 6).
  pose proof (eff_evaluate w i content ep _ ct hint g Ht) as He.
  destruct (evaluate _ _ _ _ _ _ _ _ g) as [g1 [v|e]]; cbn in He; [|by apply rtc_once].
  eapply rtc_l; [exact He|]. clear He. apply rtc_once.
  pose proof (eff_append w i _ v (default "" (redacted_content v)) (default "unknown" (s_param p "requester" 3))
                g1 Ht) as Ha.
  destruct (append_event _ _ _ _ _ _ _ _ _) as [s [ev|e]]; cbn in Ha; [done|].
  destruct (high_risk v); done.
Qed.
Lemma audit_effects w i p g : effects w i g (h_audit w i p g).1.
Proof.
  unfold h_audit. destruct (s_param p "trigger_id" 0) as [trig|]; [|apply rtc_refl]. cbv zeta.
  apply for_tenant_effects. intros Ht. unfold audit_event.
  set (content := audit_content _ _ _ _ _). set (who := default "" (s_param p "target_agent" 3)).
  pose proof (eff_evaluate w i content 0 _ Text None g Ht) as He.
  destruct (evaluate _ _ _ _ _ _ _ _ g) as [g1 [v|e]]; cbn in He; [|by apply rtc_once].
  eapply rtc_l; [exact He|]. clear He. apply rtc_once.
  pose proof (eff_append w i _ v (default "" (redacted_content v)) who g1 Ht) as Ha.
  by destruct (append_event _ _ _ _ _ _ _ _ _) as [s [ev|e]].
Qed.
Lemma rule_effects w i p g :
  effects w i g (h_rule_add w i p g).1 /\ effects w i g (h_rule_update w i p g).1 /\
  effects w i g (h_rule_remove w i p g).1.
Proof.
  unfold h_rule_add, h_rule_update, h_rule_remove, epoch_reply.
  split; [|split]; apply for_admin_effects; intros Ha; repeat case_match; cbn; try apply rtc_refl;
    apply rtc_once; by constructor.
Qed.
Lemma token_effects w i p g :
  effects w i g (h_redact w i p g).1 /\ effects w i g (h_reveal w i p g).1 /\
  effects w i g (h_confirm w i p g).1.
Proof.
  unfold h_redact, h_reveal, h_confirm. split; [|split];
    (destruct (s_param p _ 0) as [x|]; [|apply rtc_refl]; cbv zeta; apply for_tenant_effects; intros Ht).
  - pose proof (eff_redact w i x (default false (b_param p "reversible" 1)) _ g Ht) as He.
    destruct (redact_tenant _ _ _ _ _ _ g). by apply rtc_once.
  - pose proof (eff_reveal w i x _ g Ht) as He. destruct (reveal_tenant _ _ _ g). by apply rtc_once.
  - pose proof (eff_confirm w i x (default false (b_param p "approved" 1))
                  (default "unknown" (s_param p "approved_by" 2)) _ g Ht) as He.
    destruct (confirm _ _ _ _ _ _ _ g). by apply rtc_once.
Qed.
Lemma other_effects w i p g :
  effects w i g (h_tcc_report w p g).1 /\ effects w i g (h_audit_verify w i p g).1.
Proof.
  unfold h_tcc_report, h_audit_verify. split.
  - destruct (s_param p _ 0) as [perm|]; [|apply rtc_refl]. destruct (Platform.tcc_parse perm); [|apply rtc_refl].
    apply rtc_once. apply (eff_tcc w i).
  - destruct (verify_scope _ _) as [scope|]; [|apply rtc_refl].
    pose proof (eff_verify w i scope g) as He. destruct (verify_all_chains _ _ _). by apply rtc_once.
Qed.
(** A method that only reads. *)
Lemma read_effects w i p g :
  (h_ping w g).1 = g /\ (h_audit_result p g).1 = g /\ (h_rule_list g).1 = g /\ (h_patterns_dump g).1 = g /\
  (h_tcc_status w g).1 = g /\ (h_tcc_events w p g).1 = g /\ (h_audit_list w i p g).1 = g /\
  (h_es_status w g).1 = g /\ (h_es_events w g).1 = g /\ (h_cluster_fetch w p g).1 = g /\
  (h_cluster_epoch w g).1 = g /\ (h_cluster_relay w p g).1 = g /\ (h_cluster_list w p g).1 = g.
Proof.
  unfold h_audit_result, h_audit_list, for_tenant. cbv zeta.
  repeat split; repeat case_match; done.
Qed.

(** Every method is a sequence of effects. *)
Lemma method_effects w i m p g : effects w i g (handle_method w i m p g).1.
Proof.
  destruct (read_effects w i p g) as (R1 & R2 & R3 & R4 & R5 & R6 & R7 & R8 & R9 & R10 & R11 & R12 & R13).
  destruct (rule_effects w i p g) as (U1 & U2 & U3). destruct (token_effects w i p g) as (T1 & T2 & T3).
  destruct (other_effects w i p g) as [O1 O2].
  pose proof (evaluate_effects w i p g). pose proof (audit_effects w i p g).
  unfold handle_method. cbv zeta.
  repeat match goal with
  | |- rtc _ _ (if ?b then _ else _).1 => destruct b; [first [assumption | rewrite ?R1, ?R2, ?R3, ?R4, ?R5, ?R6, ?R7, ?R8, ?R9, ?R10, ?R11, ?R12, ?R13; apply rtc_refl]|]
  end.
  apply rtc_refl.
Qed.
Lemma request_effects w sc secret i r g : effects w i g (dispatch_request w sc secret i r g).1.
Proof.
  unfold dispatch_request, run_handler. pose proof (method_effects w i (rq_method r) (params r) g) as He.
  destruct (negb _); [apply rtc_refl|]. destruct (deny_resp _) as [[]|]; [apply rtc_refl|].
  destruct (_ && _); [apply rtc_refl|]. destruct (negb _); [apply rtc_refl|].
  by destruct (handle_method _ _ _ _ _).
Qed.
Lemma dispatch_effects w sc secret i line g : effects w i g (dispatch_arc w sc secret i line g).1.
Proof.
  unfold dispatch_arc. destruct (_ ≫= _) as [r|]; [|apply rtc_refl].
  pose proof (request_effects w sc secret i r g). by destruct (dispatch_request w sc secret i r g).
Qed.

(** A relation that every effect keeps, every connection keeps. *)
Definition conn_state (x : AuditEngine * string * ConnEnd) : AuditEngine := x.1.1.
Lemma conn_loop_keeps (P : AuditEngine -> Prop) env secret i fuel k input g :
  (forall k g g', effect (env k).1 i g g' -> P g -> P g') -> P g ->
  P (conn_state (conn_loop fuel env k secret i input g)).
Proof.
  intros Heff. revert k input g. induction fuel as [|fuel IH]; intros k input g Hg; [done|].
  cbn [conn_loop]. destruct (read_until _ input) as [line rest]. destruct line as [|a line]; [done|].
  destruct (Nat.ltb _ _); [done|]. specialize (Heff k). destruct (env k) as [w sc]. cbn in Heff.
  pose proof (dispatch_effects w sc secret i (from_utf8_lossy (strip_framing (a :: line))) g) as He.
  destruct (dispatch_arc _ _ _ _ _ g) as [g1 out]. cbn in He.
  assert (Hg1 : P g1) by (clear -He Heff Hg; induction He; eauto).
  destruct (negb (written sc)); [done|]. specialize (IH (S k) rest g1 Hg1).
  by destruct (conn_loop fuel env (S k) secret i rest g1) as [[g2 outs] e].
Qed.

(** *** Rules *)

(** The rules in memory and everything stored about them. *)
Definition rules_view (g : AuditEngine) :=
  (e_rules g, rules_table (e_store g), rule_epoch (e_store g), rule_mutations (e_store g)).
Lemma evaluate_store uuid now pf content ep tenant ct hint g :
  let g' := (evaluate uuid now pf content ep tenant ct hint g).1 in
  g' = g \/ exists v, action_id v = Some uuid /\
    g' = with_store (with_actions (Actions.put now v tenant (actions (e_store g))) (e_store g)) g.
Proof.
  cbv zeta. unfold evaluate. destruct (Rules.check_epoch _ _); [|by left].
  destruct (Rules.evaluate_full_typed _ _ _) as [hits|[]]; [|by left]. cbv zeta.
  destruct (Redact.redact_counted _ _) as [[red n]|[]]; [|by left].
  destruct (needs_decision _); [|by left]. destruct pf; [by left|]. right. eexists.
  split; [|reflexivity]. done.
Qed.
Lemma evaluate_decided uuid now pf content ep tenant ct hint g g1 v :
  evaluate uuid now pf content ep tenant ct hint g = (g1, Ok v) ->
  audit (e_store g1) = audit (e_store g) /\
  (needs_decision v = true -> action_id v = Some uuid /\
     exists row, actions (e_store g1) !! uuid = Some row /\ Actions.p_tenant row = tenant /\
       Actions.p_json row = verdict_to_json v).
Proof.
  unfold evaluate. destruct (Rules.check_epoch _ _); [|done].
  destruct (Rules.evaluate_full_typed _ _ _) as [hits|[]]; [|done]. cbv zeta.
  destruct (Redact.redact_counted _ _) as [[red n]|[]]; [|done].
  destruct (needs_decision _) eqn:En; [destruct pf; [done|]|]; intros E; injection E as <- <-; (split; [done|]).
  - intros _. split; [done|]. cbn. rewrite lookup_insert_eq. by eexists.
  - congruence.
Qed.
Lemma append_store uuid time tenant v raw who ok rt s :
  let s' := (append_event uuid time tenant v raw who ok rt s).1 in
  actions s' = actions s /\ toks s' = toks s /\ tcc_events s' = tcc_events s /\
  rule_mutations s' = rule_mutations s /\ rules_table s' = rules_table s /\
  rule_epoch s' = rule_epoch s /\ tenant_bindings s' = tenant_bindings s.
Proof.
  cbv zeta. unfold append_event, spool_dead_letter, enforce_retention. cbv zeta.
  repeat case_match; by repeat split.
Qed.
Lemma effect_rules w i g g' : is_admin i = false -> effect w i g g' -> rules_view g' = rules_view g.
Proof.
  intros Ha He. destruct He; try congruence; unfold rules_view.
  - destruct (evaluate_store (w_uuid w) (w_now w) (w_put_fault w) content ep tenant ct hint g)
      as [->|(v & _ & ->)]; done.
  - destruct (append_store (w_ev_id w) (w_time w) tenant v raw who (w_spool_ok w) (w_retention w) (e_store g))
      as (_ & _ & _ & E1 & E2 & E3 & _). cbn. by rewrite E1, E2, E3.
  - unfold redact_tenant. cbv zeta. repeat case_match; done.
  - unfold reveal_tenant. cbv zeta. repeat case_match; done.
  - unfold confirm. cbv zeta. repeat case_match; done.
  - done.
  - unfold verify_all_chains. by destruct (Chain.verify_chain _ _ _ _).
Qed.

(** *** Pending actions *)

Lemma rule_change_frame w r n g :
  actions (e_store (add_rule (w_ids w) (w_faults w 0) (w_faults w 1) (w_faults w 2) r g).1)
    = actions (e_store g) /\
  actions (e_store (update_rule (w_ids w) (w_faults w 0) (w_faults w 1) (w_faults w 2) (w_faults w 3) n r g).1)
    = actions (e_store g).
Proof.
  unfold add_rule, update_rule, persist, save_rule, save_epoch, delete_rule, two_steps.
  cbv zeta. split; repeat case_match; simplify_eq; done.
Qed.
(** The only ways a call touches the pending actions. *)
Lemma effect_actions w i g g' : effect w i g g' ->
  let t := actions (e_store g) in let t' := actions (e_store g') in
  t' = t \/
  (exists v tenant, action_id v = Some (w_uuid w) /\ t' = Actions.put (w_now w) v tenant t) \/
  (exists uuid time id approved by_ tenant m kv, tenant_allowed tenant i = true /\
     t' = (Actions.confirm_atomic uuid time (w_now w) id approved by_ tenant m kv
             ((Actions.evict_expired (w_now w) t).1, audit (e_store g))).1.1).
Proof.
  intros He. cbv zeta. destruct He.
  - destruct (evaluate_store (w_uuid w) (w_now w) (w_put_fault w) content ep tenant ct hint g)
      as [->|(v & Hv & ->)]; [by left|]. right. left. by exists v, tenant.
  - left. by destruct (append_store (w_ev_id w) (w_time w) tenant v raw who (w_spool_ok w) (w_retention w)
                        (e_store g)) as (E & _).
  - left. by destruct (rule_change_frame w r "" g).
  - left. by destruct (rule_change_frame w r n g).
  - left. unfold remove_rule, persist, save_epoch, delete_rule, two_steps. repeat case_match; simplify_eq; done.
  - left. unfold redact_tenant. cbv zeta. repeat case_match; done.
  - left. unfold reveal_tenant. cbv zeta. repeat case_match; done.
  - right. right. unfold confirm. cbv zeta.
    exists (w_ev_id w), (w_time w), id, approved, by_, tenant, (Tokens.key (toks (e_store g))),
      (Tokens.current_version (toks (e_store g))). split; [done|].
    by destruct (Actions.confirm_atomic _ _ _ _ _ _ _ _ _ _) as [[t' db] res].
  - by left.
  - left. unfold verify_all_chains. by destruct (Chain.verify_chain _ _ _ _).
Qed.
(** What holds of the row of an action, and confirming keeps, stays true until the id is
    stored anew. *)
Lemma effect_row w i id (P : Actions.PendingRow -> Prop) g g' : (forall r, P r -> P (Actions.consume r)) -> w_uuid w <> id ->
  effect w i g g' -> (forall r, actions (e_store g) !! id = Some r -> P r) ->
  forall r, actions (e_store g') !! id = Some r -> P r.
Proof.
  intros Hc Hu He Hr.
  destruct (effect_actions _ _ _ _ He) as [->|[(v & tenant & Hv & ->)|(u & t & id' & a & b & tn & m & kv & _ & ->)]];
    [done| |].
  - apply (ActionsSpec.run_op_row_all id P (ActionsSpec.OpPut (w_now w) v tenant)
             (actions (e_store g), audit (e_store g))); [done| |done].
    intros ? ? ? [= <- <- <-]. congruence.
  - apply (ActionsSpec.run_op_row_all id P (ActionsSpec.OpConfirm u t (w_now w) id' a b tn m kv)
             ((Actions.evict_expired (w_now w) (actions (e_store g))).1, audit (e_store g))); [done|done|].
    by apply (ActionsSpec.run_op_row_all id P (ActionsSpec.OpEvict (w_now w))
             (actions (e_store g), audit (e_store g))).
Qed.
(** A live action of a tenant the caller may not act for. *)
Lemma effect_foreign w i id r g g' : tenant_allowed (Actions.p_tenant r) i = false -> w_uuid w <> id ->
  Actions.action_expired (w_now w) r = false -> effect w i g g' ->
  actions (e_store g) !! id = Some r -> actions (e_store g') !! id = Some r.
Proof.
  intros Hf Hu Hx He Hr.
  destruct (effect_actions _ _ _ _ He) as [->|[(v & tenant & Hv & ->)|(u & t & id' & a & b & tn & m & kv & Ha & ->)]];
    [done| |].
  - unfold Actions.put. rewrite Hv. by rewrite lookup_insert_ne.
  - pose proof (EngineSpec.evict_keeps _ _ _ _ Hr Hx) as Hk.
    destruct (Actions.confirm_atomic _ _ _ _ _ _ _ _ _ _) as [st' [v'|e]] eqn:Ec.
    + apply ActionsSpec.confirm_ok_inv in Ec as (r0 & v & db & Hr0 & _ & _ & _ & Ht & _ & _ & _ & _ & ->).
      cbn in *. destruct (decide (id' = id)) as [->|Hne]; [|by rewrite lookup_insert_ne].
      rewrite Hk in Hr0. injection Hr0 as <-. congruence.
    + apply ActionsSpec.confirm_err_same in Ec as ->. done.
Qed.
End Effects.

(** [C3] Only root changes rules over the socket: whatever bytes a peer with another uid sends
    on a connection, and whatever the runtime does meanwhile, the rules in memory, the stored
    rules, the stored epoch and the log of rule mutations are afterwards what they were. *)
Theorem rules_only_by_root `{RegexEngine, ShellEnv, Grammars, Crypto, RowCodec, VerdictCodec, StoreCodec}
    `{SqlFunctions, JsonText, ClusterHash, HexCodec} env secret peer our input g
  (Hpeer : peer <> Resolved 0) :
  rules_view (conn_state (handle_conn env secret peer our input g)) = rules_view g.
Proof.
  assert (Ha : is_admin (resolve_identity (e_store g) peer our) = false).
  { unfold resolve_identity, peer_allowed. destruct peer as [u| |]; [|done..]. cbn.
    destruct (Z.eqb_spec u 0) as [->|Hu]; [done|]. destruct (Z.eqb_spec u our); [|done]. cbn.
    by rewrite ?(proj2 (Z.eqb_neq u 0) Hu). }
  unfold handle_conn. apply (conn_loop_keeps (fun g' => rules_view g' = rules_view g)); [|done].
  intros k g1 g2 He <-. by eapply effect_rules.
Qed.

(** [C11] A peer that is neither root nor the daemon's own user gets nothing done: every
    connection of it leaves the state exactly as it was, and the bytes it is sent are the same
    for any two states with the same rule epoch, so that the epoch (which ping reports) is all
    it can learn. *)
Theorem stranger_inert `{RegexEngine, ShellEnv, Grammars, Crypto, RowCodec, VerdictCodec, StoreCodec}
    `{SqlFunctions, JsonText, ClusterHash, HexCodec} env secret peer our input g g2
  (Hpeer : forall u, peer = Resolved u -> u <> 0%Z /\ u <> our)
  (Hep : Rules.epoch (e_rules g2) = Rules.epoch (e_rules g)) :
  let '(g', out, e) := handle_conn env secret peer our input g in
  g' = g /\ handle_conn env secret peer our input g2 = (g2, out, e).
Proof.
  assert (Hi : forall s : Store, resolve_identity s peer our
                       = mkIdentity (default U32_MAX (resolved peer)) false false []).
  { intros s. unfold resolve_identity, peer_allowed. destruct peer as [u| |]; [|done..]. cbn.
    destruct (Hpeer u eq_refl) as [Hu0 Hu1].
    by rewrite (proj2 (Z.eqb_neq u 0) Hu0), (proj2 (Z.eqb_neq u our) Hu1). }
  unfold handle_conn. rewrite !Hi. set (i := mkIdentity _ _ _ _).
  assert (Hd : forall w sc line, exists out, dispatch_arc w sc secret i line g = (g, out) /\
                 dispatch_arc w sc secret i line g2 = (g2, out)).
  { intros w sc line. unfold dispatch_arc. destruct (_ ≫= _) as [r|]; [|by eexists].
    unfold dispatch_request, authorize_method. cbn [auth_ok i negb andb].
    destruct (negb (String.eqb (jsonrpc r) "2.0")); [by eexists|].
    destruct (String.eqb_spec (rq_method r) PING) as [Hm|_]; [|by eexists]. cbn [negb deny_resp].
    destruct (_ && _); [by eexists|]. destruct (negb _); [by eexists|].
    unfold run_handler. rewrite Hm. unfold handle_method, h_ping. cbn -[obj]. rewrite Hep. by eexists. }
  clearbody i. clear Hi Hpeer Hep.
  generalize (S (length input)) as fuel. intros fuel. revert input. generalize 0 as k.
  induction fuel as [|fuel IH]; intros k input; [done|]. cbn [conn_loop].
  destruct (read_until _ input) as [line rest]. destruct line as [|a line]; [done|].
  destruct (Nat.ltb _ _); [done|]. destruct (env k) as [w sc].
  destruct (Hd w sc (from_utf8_lossy (strip_framing (a :: line)))) as (out & -> & ->).
  destruct (negb (written sc)); [done|]. specialize (IH (S k) rest).
  destruct (conn_loop fuel env (S k) secret i rest g) as [[g' outs] e]. by destruct IH as [-> ->].
Qed.

(** [C12] A connection cannot decide for another tenant: a pending action of a tenant its caller
    is not bound to is still there, unchanged, after anything the caller sends, as long as it
    does not expire meanwhile and no new action gets its id. *)
Theorem foreign_action_untouched
    `{RegexEngine, ShellEnv, Grammars, Crypto, RowCodec, VerdictCodec, StoreCodec}
    `{SqlFunctions, JsonText, ClusterHash, HexCodec} env secret peer our input g id r
  (Hr : actions (e_store g) !! id = Some r)
  (Hf : tenant_allowed (Actions.p_tenant r) (resolve_identity (e_store g) peer our) = false)
  (Henv : forall k, w_uuid (env k).1 <> id /\ Actions.action_expired (w_now (env k).1) r = false) :
  actions (e_store (conn_state (handle_conn env secret peer our input g))) !! id = Some r.
Proof.
  unfold handle_conn. apply (conn_loop_keeps (fun g' => actions (e_store g') !! id = Some r)); [|done].
  intros k g1 g2 He. destruct (Henv k). by eapply effect_foreign.
Qed.

(** *** Decisions *)

(** One request of anybody, at some point of the daemon's life. *)
Record Call : Type := mkCall {
  c_world : World;
  c_sched : Sched;
  c_caller : CallerIdentity;
  c_line : string
}.
Section Calls.
Context `{RegexEngine, ShellEnv, Grammars, Crypto, RowCodec, VerdictCodec, StoreCodec}.
Context `{SqlFunctions, JsonText, ClusterHash, HexCodec}.
Definition serve_calls (secret : option string) (cs : list Call) (g : AuditEngine) : AuditEngine :=
  foldl (fun g c => (dispatch_arc (c_world c) (c_sched c) secret (c_caller c) (c_line c) g).1) g cs.
Lemma serve_calls_keep (P : AuditEngine -> Prop) secret cs g :
  (forall c g g', In c cs -> effect (c_world c) (c_caller c) g g' -> P g -> P g') -> P g ->
  P (serve_calls secret cs g).
Proof.
  revert g. induction cs as [|c cs IH]; intros g Hk Hg; [done|]. cbn. apply IH; [intros; eapply Hk; [by right|done..]|].
  pose proof (dispatch_effects (c_world c) (c_sched c) secret (c_caller c) (c_line c) g) as He.
  assert (Hc : forall g g', effect (c_world c) (c_caller c) g g' -> P g -> P g')
    by (intros; eapply Hk; [by left|done..]).
  clear -He Hc Hg. induction He; eauto.
Qed.
(** A request for a decision that is answered with a result took the decision. *)
Lemma confirm_answered w sc secret i r g g' id v : rq_method r = "guard.confirm" ->
  s_param (params r) "action_id" 0 = Some id ->
  dispatch_request w sc secret i r g = (g', ok_resp (rq_id r) v) ->
  exists approved by_ tenant v', tenant_allowed tenant i = true /\
    confirm (w_ev_id w) (w_time w) (w_now w) id approved by_ tenant g = (g', Ok v').
Proof.
  intros Hm Hid. unfold dispatch_request, run_handler. rewrite Hm.
  destruct (negb _); [done|]. destruct (deny_resp _) as [[]|]; [done|].
  destruct (_ && _); [done|]. destruct (negb _); [done|].
  change (handle_method w i "guard.confirm" (params r) g) with (h_confirm w i (params r) g).
  unfold h_confirm. rewrite Hid. cbv zeta. unfold for_tenant.
  destruct (tenant_allowed _ i) eqn:Ht; cbn -[obj]; [|by destruct (timed_out sc)].
  destruct (confirm _ _ _ _ _ _ _ g) as [g1 [v'|e]] eqn:Ec; cbn -[obj]; destruct (timed_out sc); intros E; try done.
  injection E as <- <-. by do 4 eexists.
Qed.
Lemma confirm_consumes uuid time now id approved by_ tenant g g' v' :
  confirm uuid time now id approved by_ tenant g = (g', Ok v') ->
  (forall r, actions (e_store g') !! id = Some r -> Actions.p_consumed r = 1%Z) /\
  exists r, actions (e_store g) !! id = Some r /\ Actions.p_consumed r = 0%Z.
Proof.
  unfold confirm. cbv zeta.
  destruct (Actions.confirm_atomic _ _ _ _ _ _ _ _ _ _) as [[t' db] [v|e]] eqn:Ec; intros E; [|done].
  injection E as <- <-.
  apply ActionsSpec.confirm_ok_inv in Ec as (r0 & v0 & db' & Hr0 & _ & _ & _ & _ & Hc0 & _ & _ & _ & [= -> ->]).
  split.
  - intros r. cbn. rewrite lookup_insert_eq. by intros [= <-].
  - cbn in Hr0. apply map_lookup_filter_Some in Hr0 as [Hr0 _]. by exists r0.
Qed.
End Calls.

(** [C4] One decision per action, over the wire: after a request to confirm an action was
    answered with a result, no request to confirm the same action is ever answered with a
    result again, whoever sends it, and whatever requests of whichever callers come in between
    (as long as no new action is given the same id). *)
Theorem wire_confirm_once
    `{RegexEngine, ShellEnv, Grammars, Crypto, RowCodec, VerdictCodec, StoreCodec}
    `{SqlFunctions, JsonText, ClusterHash, HexCodec} secret id g
    w sc i r g1 v cs w2 sc2 i2 r2 g2 v2
  (Hm : rq_method r = "guard.confirm" /\ s_param (params r) "action_id" 0 = Some id)
  (Hfirst : dispatch_request w sc secret i r g = (g1, ok_resp (rq_id r) v))
  (Hcs : Forall (fun c => w_uuid (c_world c) <> id) cs)
  (Hm2 : rq_method r2 = "guard.confirm" /\ s_param (params r2) "action_id" 0 = Some id) :
  dispatch_request w2 sc2 secret i2 r2 (serve_calls secret cs g1) <> (g2, ok_resp (rq_id r2) v2).
Proof.
  intros Hsecond. destruct Hm as [Hm Hid], Hm2 as [Hm2 Hid2].
  apply (confirm_answered _ _ _ _ _ _ _ id) in Hfirst as (a & b & t & v1 & _ & Hc%confirm_consumes); [|done..].
  apply (confirm_answered _ _ _ _ _ _ _ id) in Hsecond as (a2 & b2 & t2 & v3 & _ & Hc2%confirm_consumes); [|done..].
  destruct Hc2 as (_ & r' & Hr' & H0'). destruct Hc as [Hc _].
  assert (Hall : forall r, actions (e_store (serve_calls secret cs g1)) !! id = Some r -> Actions.p_consumed r = 1%Z).
  { apply (serve_calls_keep (fun g => forall r, actions (e_store g) !! id = Some r -> Actions.p_consumed r = 1%Z));
      [|done]. intros c g3 g4 Hin He. rewrite Forall_forall in Hcs. apply list_elem_of_In, Hcs in Hin.
    by apply (effect_row (c_world c) (c_caller c) id (fun r => Actions.p_consumed r = 1%Z)). }
  apply Hall in Hr'. congruence.
Qed.

(** *** Lines *)

(** Bytes that are UTF-8 are read as they are. *)
Lemma second_ok_two a b : in_range a 194 223 = true -> second_ok a b = Tokens.cont b.
Proof.
  unfold second_ok, byte_eqb, in_range. intros. boolp.
  by repeat match goal with |- context [Nat.eqb ?x ?k] => destruct (Nat.eqb_spec x k); [lia|] end.
Qed.
Lemma second_ok_three a b : in_range a 224 239 = true ->
  second_ok a b = if byte_eqb a 224 then in_range b 160 191
                  else if byte_eqb a 237 then in_range b 128 159 else Tokens.cont b.
Proof.
  unfold second_ok, byte_eqb. unfold in_range at 1. intros. boolp.
  destruct (Nat.eqb _ 224); [done|]. destruct (Nat.eqb _ 237); [done|].
  by repeat match goal with |- context [Nat.eqb ?x ?k] => destruct (Nat.eqb_spec x k); [lia|] end.
Qed.
Lemma second_ok_four a b : in_range a 240 244 = true ->
  second_ok a b = if byte_eqb a 240 then in_range b 144 191
                  else if byte_eqb a 244 then in_range b 128 143 else Tokens.cont b.
Proof.
  unfold second_ok, byte_eqb. unfold in_range at 1. intros. boolp.
  destruct (Nat.eqb_spec (nat_of_ascii a) 224); [lia|]. by destruct (Nat.eqb_spec (nat_of_ascii a) 237); [lia|].
Qed.
Lemma lossy_go_valid fuel l : Tokens.utf8_go fuel l = true -> lossy_go fuel l = l.
Proof.
  revert l. induction fuel as [|fuel IH]; intros l Hv; [by destruct l|].
  destruct l as [|a l1]; [done|]. cbn [Tokens.utf8_go] in Hv. cbn [lossy_go front_chunk].
  destruct (in_range a 0 127) eqn:E0; [cbn; by rewrite drop_0, IH|].
  destruct l1 as [|b l2]; [done|]. destruct (in_range a 194 223) eqn:E1.
  { boolp. rewrite second_ok_two by done. rewrite_bool. cbn. by rewrite drop_0, IH. }
  destruct l2 as [|c l3]; [done|]. destruct (in_range a 224 239) eqn:E2.
  { rewrite <- second_ok_three in Hv by done. boolp. rewrite_bool. cbn. rewrite_bool. cbn. by rewrite drop_0, IH. }
  destruct l3 as [|d l4]; [done|]. boolp. rewrite second_ok_four by done. rewrite_bool.
  cbn. rewrite_bool. cbn. rewrite_bool. cbn. by rewrite drop_0, IH.
Qed.
Lemma lossy_valid s : Tokens.utf8_valid s = true -> from_utf8_lossy (bytes s) = s.
Proof.
  intros Hv. unfold from_utf8_lossy. rewrite lossy_go_valid; [apply of_bytes_bytes|].
  by rewrite length_bytes.
Qed.

Lemma read_until_line n l rest : FRAMING_BYTE ∉ l -> length l < n ->
  read_until n (l ++ FRAMING_BYTE :: rest) = (l ++ [FRAMING_BYTE], rest).
Proof.
  revert n. induction l as [|a l IH]; intros [|n] Hl Hn; cbn in Hn; try lia; cbn [read_until app].
  - by rewrite Ascii.eqb_refl.
  - apply not_elem_of_cons in Hl as [Ha Hl].
    rewrite (proj2 (Ascii.eqb_neq a FRAMING_BYTE)) by congruence. rewrite IH by (done || lia). done.
Qed.
Lemma read_until_long n l : FRAMING_BYTE ∉ take n l -> n <= length l -> (read_until n l).1 = take n l.
Proof.
  revert l. induction n as [|n IH]; intros [|a l] Hl Hn; cbn in Hn; try lia; try done. cbn [read_until take] in *.
  apply not_elem_of_cons in Hl as [Ha Hl].
  rewrite (proj2 (Ascii.eqb_neq a FRAMING_BYTE)) by congruence.
  specialize (IH l Hl ltac:(lia)). destruct (read_until n l). cbn in *. by rewrite IH.
Qed.
Lemma strip_framing_line l : FRAMING_BYTE ∉ l -> strip_framing (l ++ [FRAMING_BYTE]) = l.
Proof.
  intros Hl. unfold strip_framing. rewrite reverse_app. cbn [reverse app rev_append].
  change (pop_framing (FRAMING_BYTE :: reverse l)) with (pop_framing (reverse l)).
  rewrite <- (reverse_involutive l) at 2. f_equal.
  destruct (reverse l) as [|a r] eqn:E; [done|]. cbn.
  rewrite (proj2 (Ascii.eqb_neq a FRAMING_BYTE)); [done|]. intros ->. apply Hl.
  rewrite <- (reverse_involutive l), E, reverse_cons. apply elem_of_app. right. by apply list_elem_of_singleton.
Qed.

Section Lines.
Context `{RegexEngine, ShellEnv, Grammars, Crypto, RowCodec, VerdictCodec, StoreCodec}.
Context `{SqlFunctions, JsonText, ClusterHash, HexCodec}.

(** The reference: the requests one after the other, each with its answer. *)
Fixpoint answer_lines (env : nat -> World * Sched) (k : nat) (secret : option string)
    (i : CallerIdentity) (lines : list string) (g : AuditEngine) : AuditEngine * list string :=
  match lines with
  | [] => (g, [])
  | line :: lines' =>
      let '(g', out) := dispatch_arc (env k).1 (env k).2 secret i line g in
      let '(g'', outs) := answer_lines env (S k) secret i lines' g' in
      (g'', out :: outs)
  end.
(** A request line as a client may send it, and the bytes of several. *)
Definition proper_line (line : string) : Prop :=
  (FRAMING_BYTE ∉ bytes line) /\ String.length line < MAX_LINE_BYTES /\ Tokens.utf8_valid line = true.
Definition framed (lines : list string) : list ascii :=
  mjoin ((fun l => (bytes l ++ [FRAMING_BYTE])%list) <$> lines).
(** What follows the last line: the peer closes, or a line that is too long begins. *)
Definition stream_end (rest : list ascii) : option ConnEnd :=
  match rest with
  | [] => Some Closed
  | _ => if Nat.ltb MAX_LINE_BYTES (length rest)
            && negb (bool_decide (FRAMING_BYTE ∈ take (S MAX_LINE_BYTES) rest))
         then Some TooLarge else None
  end.
Definition joined (outs : list string) : string := String.concat "" outs.
Lemma joined_cons o outs : joined (o :: outs) = o +:+ joined outs.
Proof. unfold joined. destruct outs as [|o' outs]; cbn; [by rewrite str_app_nil|done]. Qed.

Lemma conn_loop_end fuel env k secret i rest e g : stream_end rest = Some e -> 0 < fuel ->
  conn_loop fuel env k secret i rest g = (g, "", e).
Proof.
  intros He Hf. destruct fuel as [|fuel]; [lia|]. unfold stream_end in He. cbn [conn_loop].
  generalize dependent MAX_LINE_BYTES. intros M He.
  destruct rest as [|a rest]; [by injection He as <-|].
  destruct (Nat.ltb _ _) eqn:El; [|done]. cbn [andb] in He. apply Nat.ltb_lt in El.
  case_bool_decide as Hin; [done|]. injection He as <-.
  pose proof (read_until_long (S M) (a :: rest) Hin El) as Hr.
  destruct (read_until _ _) as [line rest']. cbn [fst] in Hr. subst line. cbn [take].
  assert (Hlen : length (a :: take M rest) = S M)
    by (cbn [length] in *; rewrite length_take; lia).
  by rewrite Hlen, (proj2 (Nat.ltb_lt _ _)) by lia.
Qed.
Lemma conn_loop_lines fuel env k secret i lines rest e g :
  (forall j, written (env j).2 = true) -> Forall proper_line lines -> stream_end rest = Some e ->
  length (framed lines ++ rest) < fuel ->
  conn_loop fuel env k secret i (framed lines ++ rest) g
  = let '(g', outs) := answer_lines env k secret i lines g in (g', joined outs, e).
Proof.
  intros Hw Hl He. revert fuel k g. induction Hl as [|line lines (Hn & Hlen & Hv) _ IH]; intros fuel k g Hf.
  { apply conn_loop_end; [done|lia]. }
  destruct fuel as [|fuel]; [lia|]. unfold framed in *. cbn [conn_loop fmap list_fmap mjoin list_join] in *.
  rewrite <- !app_assoc in *. cbn [app] in *.
  assert (Hb : length (bytes line) < S MAX_LINE_BYTES)
    by (rewrite length_bytes; apply Nat.lt_lt_succ_r, Hlen).
  assert (Hb' : length (bytes line ++ [FRAMING_BYTE]) <= MAX_LINE_BYTES)
    by (rewrite length_app, Nat.add_1_r; apply Nat.lt_succ_r in Hb; rewrite length_bytes in *; exact Hlen).
  rewrite (read_until_line _ _ _ Hn Hb). clear Hb Hlen.
  destruct (bytes line ++ [FRAMING_BYTE]) as [|x line'] eqn:El; [by destruct (bytes line)|]. rewrite <- El in Hb' |- *.
  rewrite strip_framing_line, lossy_valid by done.
  rewrite (proj2 (Nat.ltb_ge _ _) Hb'). clear Hb'.
  cbn [answer_lines]. pose proof (Hw k) as Hwk. destruct (env k) as [w sc]. cbn in Hwk |- *.
  destruct (dispatch_arc w sc secret i line g) as [g1 out]. rewrite Hwk. cbn [negb].
  rewrite IH by (rewrite length_app in Hf; apply Nat.succ_lt_mono;
                 eapply Nat.le_lt_trans; [apply (Nat.le_add_l _ (length (bytes line)))|exact Hf]).
  destruct (answer_lines env (S k) secret i lines g1) as [g2 outs]. by rewrite joined_cons.
Qed.
Lemma answer_line_form {HL : JsonTextLaws} w sc secret i line g :
  exists t, (dispatch_arc w sc secret i line g).2 = t +:+ String FRAMING_BYTE "" /\ str_has FRAMING_BYTE t = false.
Proof.
  unfold dispatch_arc. destruct (_ ≫= _) as [r|]; [destruct (dispatch_request _ _ _ _ _ _) as [g' doc]|];
    (eexists; split; [reflexivity|apply json_one_line]).
Qed.
End Lines.

(** [C19] A connection is its request lines, one after the other: on a stream of lines (each
    UTF-8 and within the size limit) the loop ends, dispatches exactly those lines in order,
    each on the state the one before left, and writes exactly one response line for each; a
    line that is too long ends the connection unanswered, with the lines before it served. *)
Theorem connection_serves_lines
    `{RegexEngine, ShellEnv, Grammars, Crypto, RowCodec, VerdictCodec, StoreCodec}
    `{SqlFunctions, HJ : JsonText, ClusterHash, HexCodec} {HL : JsonTextLaws}
    env secret peer our lines rest e g
  (Hw : forall j, written (env j).2 = true) (Hl : Forall proper_line lines)
  (He : stream_end rest = Some e) :
  let i := resolve_identity (e_store g) peer our in
  let '(g', outs) := answer_lines env 0 secret i lines g in
  handle_conn env secret peer our (framed lines ++ rest) g = (g', joined outs, e) /\
  length outs = length lines /\
  Forall (fun o => exists t, o = t +:+ String FRAMING_BYTE "" /\ str_has FRAMING_BYTE t = false) outs.
Proof.
  cbv zeta. unfold handle_conn. rewrite (conn_loop_lines _ _ _ _ _ _ _ e) by (done || apply Nat.lt_succ_diag_r). set (i := resolve_identity _ _ _).
  assert (Ho : forall k, let '(_, outs) := answer_lines env k secret i lines g in length outs = length lines /\
    Forall (fun o => exists t, o = t +:+ String FRAMING_BYTE "" /\ str_has FRAMING_BYTE t = false) outs).
  { clearbody i. clear -HL. revert g. induction lines as [|line lines IH]; intros g k; [done|]. cbn [answer_lines].
    pose proof (answer_line_form (env k).1 (env k).2 secret i line g) as Hf.
    destruct (dispatch_arc _ _ _ _ _ g) as [g1 out]. specialize (IH g1 (S k)).
    destruct (answer_lines env (S k) secret i lines g1) as [g2 outs]. destruct IH as [E Hall].
    split; [cbn; by rewrite E|]. by constructor. }
  specialize (Ho 0). by destruct (answer_lines env 0 secret i lines g) as [g' outs].
Qed.

(** *** What a request is answered *)

(** Every error a client can see, but for a stale epoch with its two numbers. *)
Definition WIRE_ERRORS : list (Z * string) :=
  [((-32600)%Z, "invalid request: jsonrpc must be " +:+ Redact.DQ +:+ "2.0" +:+ Redact.DQ);
   ((-32001)%Z, "unauthorized: peercred denied"); ((-32001)%Z, "unauthorized: secret denied");
   ((-32002)%Z, "guard rate limited"); ((-32010)%Z, "guard request timeout");
   ((-32001)%Z, "unauthorized"); ((-32002)%Z, "rate limited"); ((-32010)%Z, "guard engine error");
   ((-32602)%Z, "invalid params"); ((-32601)%Z, "method not found");
   ((-32600)%Z, "invalid request: jsonrpc must be 2.0"); ((-32603)%Z, "io error");
   ((-32603)%Z, "serialization error")].
Definition stale_text (caller guard : Z) : string := err_wire_msg (StaleEpoch caller guard).
Lemma wire_error_known e : (err_code e, err_wire_msg e) ∈ WIRE_ERRORS \/
  exists a b, e = StaleEpoch a b.
Proof.
  destruct e; first [left; apply (bool_decide_unpack _); reflexivity | right; do 2 eexists; reflexivity].
Qed.

(** A request is stopped before its method runs. *)
Definition stopped (sc : Sched) (secret : option string) (i : CallerIdentity) (r : RpcRequest) : bool :=
  negb (String.eqb (jsonrpc r) "2.0")
  || negb (bool_decide (authorize_method secret i (rq_method r) (extract_secret r) = AuthAllow))
  || (is_slow_method (rq_method r) && negb (slow_permit sc)) || negb (req_permit sc).


(** *** What a caller can read *)

Lemma select_rows_scope `{ShellEnv, SqlFunctions} f t (p : string -> bool) rows : Listing.f_tenant f = Some t -> p t = true ->
  Listing.select_rows f rows
  = Listing.select_rows f (List.filter (fun r => p (Chain.tenant_id (Chain.r_event r))) rows).
Proof.
  intros Ht Hp. induction rows as [|r rows IH]; [done|]. cbn [List.filter].
  destruct (p (Chain.tenant_id (Chain.r_event r))) eqn:Er; cbn [Listing.select_rows]; [by rewrite IH|].
  assert (Hpass : Listing.passes f (Chain.r_event r) = false).
  { unfold Listing.passes. rewrite Ht. cbn [Listing.opt_test].
    destruct (String.eqb_spec (Chain.tenant_id (Chain.r_event r)) t) as [E|]; [congruence|done]. }
  rewrite Hpass. cbn. rewrite <- IH. by destruct (Listing.select_rows f rows).
Qed.
(** Two states that agree on what belongs to the tenants of a caller. *)
Definition same_scope `{RegexEngine, Crypto} (i : CallerIdentity) (g1 g2 : AuditEngine) : Prop :=
  List.filter (fun r => tenant_allowed (Chain.tenant_id (Chain.r_event r)) i) (Chain.audit_rows (audit (e_store g1)))
  = List.filter (fun r => tenant_allowed (Chain.tenant_id (Chain.r_event r)) i) (Chain.audit_rows (audit (e_store g2)))
  /\ forall t, tenant_allowed t i = true ->
       EngineSpec.same_view t (toks (e_store g1)) (toks (e_store g2)).
Lemma audit_list_scope `{RegexEngine, ShellEnv, RowCodec, VerdictCodec, SqlFunctions, Crypto} w i p g1 g2 : same_scope i g1 g2 ->
  (h_audit_list w i p g1).2 = (h_audit_list w i p g2).2.
Proof.
  intros [Hr _]. unfold h_audit_list. cbv zeta. unfold for_tenant.
  destruct (tenant_allowed (tenant_param p 1) i) eqn:Ht; [|done]. cbn [negb snd].
  assert (Hp : forall g, Listing.list_events_filtered (w_time w) (list_filter_of p (tenant_param p 1)) (audit (e_store g))
     = (sel ← Listing.select_rows (list_filter_of p (tenant_param p 1))
                (List.filter (fun r => tenant_allowed (Chain.tenant_id (Chain.r_event r)) i)
                   (Chain.audit_rows (audit (e_store g))));
        mret (Chain.row_to_event (w_time w) <$>
                take (S (Listing.f_limit (list_filter_of p (tenant_param p 1)))) (merge_sort Listing.row_ge sel)))).
  { intros g. unfold Listing.list_events_filtered.
    rewrite (select_rows_scope _ (tenant_param p 1) (fun t => tenant_allowed t i)); [done| |done].
    unfold list_filter_of. by destruct (Listing.parse_cursor _). }
  unfold Listing.list_filtered_page. by rewrite !Hp, Hr.
Qed.
Lemma reveal_scope `{RegexEngine, ShellEnv, Grammars, Crypto, RowCodec, VerdictCodec, StoreCodec} w i p g1 g2 :
  same_scope i g1 g2 -> (h_reveal w i p g1).2 = (h_reveal w i p g2).2.
Proof.
  intros [_ Hv]. unfold h_reveal. destruct (s_param p "content" 0) as [content|]; [|done]. cbv zeta.
  unfold for_tenant. destruct (tenant_allowed _ i) eqn:Ht; [|done]. cbn [negb].
  destruct (EngineSpec.reveal_isolated (w_now w) content _ g1 g2 (Hv _ Ht)) as [E _].
  destruct (reveal_tenant _ _ _ g1), (reveal_tenant _ _ _ g2). cbn in E. by subst.
Qed.

(** [C20] What a caller reads of the audit log and of redacted text depends only on its own
    tenants: the answers to a listing and to a reveal are the same in any two states that agree
    on the audit rows and the tokens of the tenants the caller is bound to. *)
Theorem reads_isolated
    `{RegexEngine, ShellEnv, Grammars, Crypto, RowCodec, VerdictCodec, StoreCodec}
    `{SqlFunctions, JsonText, ClusterHash, HexCodec} w sc secret i r g1 g2
  (Hm : rq_method r = "guard.audit.list" \/ rq_method r = "guard.reveal")
  (Hs : same_scope i g1 g2) :
  (dispatch_request w sc secret i r g1).2 = (dispatch_request w sc secret i r g2).2.
Proof.
  unfold dispatch_request. destruct (negb _); [done|]. destruct (deny_resp _) as [[]|]; [done|].
  destruct (_ && _); [done|]. destruct (negb _); [done|]. unfold run_handler.
  assert (E : (handle_method w i (rq_method r) (params r) g1).2 = (handle_method w i (rq_method r) (params r) g2).2).
  { destruct Hm as [-> | ->]; [by apply audit_list_scope|by apply reveal_scope]. }
  destruct (handle_method w i (rq_method r) (params r) g1), (handle_method w i (rq_method r) (params r) g2).
  cbn in E. by subst.
Qed.

(** *** Evaluations *)


(** *** Types *)

Section Types.
Context `{RegexEngine, ShellEnv, Grammars, Crypto, RowCodec, VerdictCodec, StoreCodec}.
Context `{SqlFunctions, JsonText, ClusterHash, HexCodec}.

Lemma u64_add_fits a b : u64_fits (u64_add a b).
Proof. unfold u64_fits, u64_add. by apply Z.mod_pos_bound. Qed.
Lemma rules_epoch_fits r n inner : u64_fits (Rules.epoch inner) ->
  u64_fits (Rules.epoch (Rules.add r inner).1) /\ u64_fits (Rules.epoch (Rules.update n r inner).1) /\
  u64_fits (Rules.epoch (Rules.remove n inner).1).
Proof.
  intros Hf. unfold Rules.add, Rules.update, Rules.remove.
  split; [|split]; repeat case_match; cbn; try done; apply u64_add_fits.
Qed.
Lemma effect_epoch w i g g' : effect w i g g' -> u64_fits (Rules.epoch (e_rules g)) ->
  u64_fits (Rules.epoch (e_rules g')).
Proof.
  intros He Hf. destruct (decide (is_admin i = true)) as [Ha|Ha].
  2: { apply not_true_iff_false in Ha. pose proof (effect_rules w i g g' Ha He) as E.
       unfold rules_view in E. by injection E as -> _. }
  destruct He.
  - destruct (evaluate_store (w_uuid w) (w_now w) (w_put_fault w) content ep tenant ct hint g)
      as [->|(v & _ & ->)]; done.
  - done.
  - unfold add_rule. destruct (rules_epoch_fits r "" (e_rules g) Hf) as (Hadd & _ & _).
    destruct (save_rule _ _ _ _ _) as [s [[]|]]; [|done].
    destruct (Rules.add r (e_rules g)) as [inner [e|]]; [|done]. cbn in Hadd.
    destruct (persist _ _ _ _ _) as [s' [[]|]]; [done|]. by apply (rules_epoch_fits r (Rules.name r) inner).
  - unfold update_rule. destruct (rules_epoch_fits r n (e_rules g) Hf) as (_ & Hup & _).
    destruct (save_rule _ _ _ _ _) as [s [[]|]]; [|done]. cbv zeta.
    destruct (Rules.update n r (e_rules g)) as [inner [e|]]; [|done]. cbn in Hup.
    by destruct (persist _ _ _ _ _) as [s' [[]|]].
  - unfold remove_rule.
    assert (Hrm : u64_fits (Rules.epoch (Rules.remove n (e_rules g)).1))
      by (unfold Rules.remove; repeat case_match; cbn; try done; apply u64_add_fits).
    destruct (delete_rule _ _ _ _ _) as [s [[]|]]; [|done].
    destruct (Rules.remove n (e_rules g)) as [inner [e|]]; [|done].
    by destruct (persist _ _ _ _ _) as [s' [[]|]].
  - unfold redact_tenant. cbv zeta. by repeat case_match.
  - unfold reveal_tenant. cbv zeta. by repeat case_match.
  - unfold confirm. cbv zeta. by repeat case_match.
  - done.
  - unfold verify_all_chains. by destruct (Chain.verify_chain _ _ _ _).
Qed.
Lemma evaluate_wf uuid now pf content ep tenant ct hint g g' v : u64_fits (Rules.epoch (e_rules g)) ->
  parse_uuid uuid = Some uuid -> evaluate uuid now pf content ep tenant ct hint g = (g', Ok v) -> Wire.verdict_wf v.
Proof.
  intros Hep Hid Hrun.
  apply EngineSpec.evaluate_ok_inv in Hrun as (hits & red & n & _ & _ & _ & Hv). cbv zeta in Hv.
  set (v0 := EngineSpec.base_verdict _ _ _ _ _ _) in *.
  assert (H0' : verdict_epoch v0 = Rules.epoch (e_rules g) /\ verdict_ttl_secs v0 = 30%Z /\ action_id v0 = None).
  { unfold v0, EngineSpec.base_verdict, apply_redaction, apply_hint, Rules.verdict_from_hits. by repeat case_match. }
  destruct H0' as (E1 & E2 & E3). unfold Wire.verdict_wf.
  destruct (needs_decision v0); [destruct Hv as (_ & -> & _)|destruct Hv as [-> _]]; cbn; rewrite E1, E2, ?E3;
    (split; [done|split; [lia|done]]).
Qed.
End Types.

(** [C32] Every verdict fits the types of the wire: in an engine whose epoch is a 64-bit number,
    after any requests of any callers, the epoch is still one, and the verdict of an evaluation
    has only numbers of their widths and a well-formed id; so its JSON text is read back as the
    very same verdict. *)
Theorem verdicts_typed `{RegexEngine, ShellEnv, Grammars, Crypto, RowCodec, VerdictCodec, StoreCodec}
    `{SqlFunctions, HJ : JsonText, HL : !JsonTextLaws, ClusterHash, HexCodec} secret cs g
    uuid now pf content ep tenant ct hint g' v
  (Hep : u64_fits (Rules.epoch (e_rules g))) (Hid : parse_uuid uuid = Some uuid)
  (Hrun : evaluate uuid now pf content ep tenant ct hint (serve_calls secret cs g) = (g', Ok v)) :
  Wire.verdict_wf v /\ u64_fits (Rules.epoch (e_rules g')) /\
  json_parse (json_text (Wire.verdict_doc v)) ≫= Wire.verdict_of_value = Some v.
Proof.
  assert (Hf : u64_fits (Rules.epoch (e_rules (serve_calls secret cs g)))).
  { apply (serve_calls_keep (fun g => u64_fits (Rules.epoch (e_rules g)))); [|done].
    intros c g1 g2 _ He. by apply (effect_epoch _ _ _ _ He). }
  pose proof (evaluate_wf _ _ _ _ _ _ _ _ _ _ _ Hf Hid Hrun) as Hwf. split; [done|]. split.
  - pose proof (evaluate_store uuid now pf content ep tenant ct hint (serve_calls secret cs g)) as Hs.
    rewrite Hrun in Hs. cbn [fst] in Hs. destruct Hs as [->|(v' & _ & ->)]; done.
  - rewrite json_roundtrip by (by apply (WireSpec.verdict_entries_printable 126 v)).
    by apply WireSpec.verdict_doc_roundtrip.
Qed.

(** *** Examples *)

#[local] Existing Instances RulesSpec.sample_regex Tokenizer.sample_env RulesSpec.sample_grammars ChainSpec.toy_crypto
  ChainSpec.toy_codec
  ChainSpec.toy_hmac_laws LedgerSpec.toy_store_codec LedgerSpec.toy_store_laws EngineSpec.full_verdict_codec
  ListingSpec.toy_sql JsonToy.toy_text JsonToy.toy_text_laws ClusterSpec.toy_hash ClusterSpec.toy_hex.

Definition toy_world (uuid : string) (now : Z) : World :=
  mkWorld uuid ("ev-" +:+ uuid) now "now" None true LedgerSpec.toy_retention (fun _ => "tok") (fun _ => "n")
    EngineSpec.demo_ids (fun _ => NoFault) "0.1.0" (Platform.mkTccBridge (fun _ => 0%Z) true) true None None None
    None (fun _ => Cluster.SendFailed "off").
Definition on_time : Sched := mkSched true true false true.
Definition toy_env : nat -> World * Sched := fun k => (toy_world ("u" +:+ pretty k) 1010, on_time).
Definition own_user : CallerIdentity := mkIdentity 501 true false ["acme"].
Definition request (method : string) (p : list (string * Value)) : RpcRequest :=
  mkRequest "2.0" (u64_value 7) method (obj p).
Definition request_line (r : RpcRequest) : string :=
  json_text (Obj [("jsonrpc", Str (jsonrpc r)); ("id", rq_id r); ("method", Str (rq_method r)); ("params", params r)]).

(** The daemon's user asks for the removal of a rule. *)
Lemma rules_only_by_root_witness :
  rules_view (conn_state (handle_conn toy_env None (Resolved 501) 501
     (framed [request_line (request "guard.rule.remove" [("name", Str "a")])]) EngineSpec.demo))
  = rules_view EngineSpec.demo.
Proof. apply rules_only_by_root. discriminate. Defined.

Lemma stranger_inert_witness :
  let '(g', out, e) := handle_conn toy_env None (Resolved 777) 501
     (framed [request_line (request "guard.reveal" [("content", Str "x")])]) EngineSpec.demo in
  g' = EngineSpec.demo.
Proof.
  pose proof (stranger_inert toy_env None (Resolved 777) 501
    (framed [request_line (request "guard.reveal" [("content", Str "x")])]) EngineSpec.demo EngineSpec.demo) as Hs.
  destruct (handle_conn _ _ _ _ _ _) as [[g' out] e].
  apply Hs; [intros u [= <-]; lia|reflexivity].
Defined.

Definition waiting (tenant : string) : AuditEngine :=
  with_store (with_actions {[ "act-1" := Actions.mkPending (verdict_to_json (ActionsSpec.toy_verdict L3 "rule")) 2
                                           1000 0 30 tenant ]} EngineSpec.demo_store) EngineSpec.demo.
Lemma foreign_action_untouched_witness :
  is_Some (actions (e_store (conn_state (handle_conn toy_env None (Resolved 501) 501
     (framed [request_line (request "guard.confirm" [("action_id", Str "act-1"); ("tenant_id", Str "rival")])])
     (waiting "rival")))) !! "act-1").
Proof.
  eexists. apply (foreign_action_untouched toy_env None (Resolved 501) 501 _ (waiting "rival")).
  - vm_compute. reflexivity.
  - vm_compute. reflexivity.
  - intros k. split; [discriminate|vm_compute; reflexivity].
Defined.

Definition confirm_request : RpcRequest :=
  request "guard.confirm" [("action_id", Str "act-1"); ("approved", Bool true); ("tenant_id", Str "acme")].
Lemma wire_confirm_once_witness :
  exists g1 v, dispatch_request (toy_world "u1" 1010) on_time None own_user confirm_request (waiting "acme")
      = (g1, ok_resp (u64_value 7) v) /\
    forall g2 v2, dispatch_request (toy_world "u2" 1011) on_time None own_user confirm_request g1
      <> (g2, ok_resp (u64_value 7) v2).
Proof.
  destruct (dispatch_request (toy_world "u1" 1010) on_time None own_user confirm_request (waiting "acme"))
    as [g1 d] eqn:E.
  assert (Hd : exists v, d = ok_resp (rq_id confirm_request) v)
    by (apply (f_equal snd) in E; vm_compute in E; subst d; eexists; reflexivity).
  destruct Hd as [v ->]. exists g1, v. split; [reflexivity|]. intros g2 v2.
  apply (wire_confirm_once None "act-1" (waiting "acme") (toy_world "u1" 1010) on_time own_user
           confirm_request g1 v []
           (toy_world "u2" 1011) on_time own_user confirm_request g2 v2);
    [split; vm_compute; reflexivity|exact E|constructor|split; vm_compute; reflexivity].
Defined.

Lemma toy_line_proper s : s = "x" \/ s = "y" -> proper_line s.
Proof.
  intros [-> | ->]; (split; [apply (bool_decide_unpack _); reflexivity|split; [|reflexivity]]);
    unfold MAX_LINE_BYTES; cbn [String.length]; lia.
Qed.
Lemma connection_serves_lines_witness :
  exists g' outs, length outs = 2 /\
    handle_conn toy_env None (Resolved 501) 501 (framed ["x"; "y"]) (waiting "acme") = (g', joined outs, Closed).
Proof.
  pose proof (connection_serves_lines toy_env None (Resolved 501) 501 ["x"; "y"] [] Closed (waiting "acme")) as Hc.
  assert (Hl : Forall proper_line ["x"; "y"]) by (rewrite !Forall_cons; auto using toy_line_proper).
  specialize (Hc (fun _ => eq_refl) Hl eq_refl). cbv zeta in Hc. rewrite app_nil_r in Hc.
  destruct (answer_lines _ _ _ _ _ _) as [g' outs]. exists g', outs.
  split; [exact (proj1 (proj2 Hc))|exact (proj1 Hc)].
Defined.

Definition listed (other : string) : AuditEngine :=
  with_store (with_audit (Chain.mkDb [ListingSpec.list_row "a" "2026-01-01" 1;
    Chain.mkRow (Chain.mkEvent "b" "2026-01-02" "evaluate" "rival" "al" other "clean" "v" None false "allowed" "" "")
      0 1 2] None) EngineSpec.demo_store) EngineSpec.demo.
Lemma reads_isolated_witness :
  (dispatch_request (toy_world "u1" 10) on_time None own_user
     (request "guard.audit.list" [("tenant_id", Str "acme")]) (listed "x")).2
  = (dispatch_request (toy_world "u1" 10) on_time None own_user
     (request "guard.audit.list" [("tenant_id", Str "acme")]) (listed "y")).2.
Proof.
  apply reads_isolated; [by left|]. split; [vm_compute; reflexivity|]. intros t Ht. by split.
Defined.


Lemma verdicts_typed_witness :
  exists g' v, evaluate "u9" 10 None "rm -rf /" 0 "acme" Core.Json None (serve_calls None [] EngineSpec.demo)
      = (g', Ok v) /\ Wire.verdict_wf v.
Proof.
  destruct (evaluate "u9" 10 None "rm -rf /" 0 "acme" Core.Json None (serve_calls None [] EngineSpec.demo))
    as [g' [v|f]] eqn:E; [|vm_compute in E; discriminate E].
  exists g', v. split; [reflexivity|].
  apply (verdicts_typed None [] EngineSpec.demo "u9" 10 None "rm -rf /" 0 "acme" Core.Json None g' v);
    [split; vm_compute; congruence|reflexivity|exact E].
Defined.

(** *** Where the code does not do what its comments say *)

(** A caller bound to no tenant verifies all tenants, as only an administrator should. *)
Lemma unbound_verifies_globally :
  tenant_allowed "acme" (mkIdentity 501 true false []) = false /\
  verify_scope (mkIdentity 501 true false []) None = Ok None.
Proof. done. Qed.
(** With positional parameters no secret can be presented. *)
Lemma positional_secret_denied l m s : m <> PING ->
  authorize_method (Some s) own_user m (extract_secret (mkRequest "2.0" Null m (Arr l))) = DenySecret.
Proof. intros Hm. unfold authorize_method. by rewrite (proj2 (String.eqb_neq m PING) Hm). Qed.
(** A request without a version is a parse error, not an invalid request. *)
Lemma missing_version_not_a_request m p :
  request_of_doc (Obj [("id", Null); ("method", Str m); ("params", p)]) = None.
Proof. done. Qed.
(** Without a cluster the code of a cluster method is the one of any failure. *)
Lemma unconfigured_cluster_code :
  (dispatch_request (toy_world "u1" 10) on_time None own_user (request "guard.cluster.audit.fetch" [])
     EngineSpec.demo).2 = err_resp (u64_value 7) (-32010) "guard engine error".
Proof. vm_compute. reflexivity. Qed.
(** The frame for a refused connection has no framing byte. *)
Lemma reject_frame_unterminated :
  str_has FRAMING_BYTE (reject_frame (-32010) "guard connection limit reached") = false.
Proof. vm_compute. reflexivity. Qed.
(** A request that was answered as failed by the timeout still takes the decision. *)
Lemma timeout_still_decides :
  let '(g', doc) := dispatch_request (toy_world "u1" 1010) (mkSched true true true true) None own_user
                      confirm_request (waiting "acme") in
  doc = err_resp (u64_value 7) (-32010) "guard request timeout" /\
  (Actions.p_consumed <$> actions (e_store g') !! "act-1") = Some 1%Z /\
  length (Chain.audit_rows (audit (e_store g'))) = 1.
Proof. vm_compute. auto. Qed.
End IpcSpec.
