(* ===== verification/Limits.v ===== *)
(** * The limits on concurrency (fg-ipc/src/lib.rs)

    The three semaphores of the server as a state machine: accepted connections, the request of
    each connection on its way through the permits, and the blocking tasks that go on after
    their request was given up.  Every point at which a future is suspended or dropped is an
    event; the scheduler chooses among the events that are enabled. *)
From stdpp Require Import list_numbers.
From S2P Require Import Prelude.

Module Limits.

Definition MAX_CONNECTIONS : nat := 64.
Definition MAX_CONCURRENT_REQS : nat := 16.
Definition MAX_CONCURRENT_SLOW : nat := 4.

(** Where the request of a connection is: [Reading] between requests, then waiting for the
    slow permit, for the request permit, then running; the flag is [is_slow]. *)
Inductive Phase : Type :=
| Reading
| WaitSlow
| WaitReq (slow : bool)
| Running (slow : bool).

Record Server : Type := mkServer {
  conn_free : nat;
  slow_free : nat;
  req_free : nat;
  conns : list Phase;
  (** tasks of [spawn_blocking] whose request is no longer waited for *)
  orphans : list bool
}.
(** [IpcServer::new] *)
Definition server_new : Server :=
  mkServer MAX_CONNECTIONS MAX_CONCURRENT_SLOW MAX_CONCURRENT_REQS [] [].

(** The permits a phase holds: [_slow_permit] and [_permit] live until the function returns. *)
Definition holds_slow (p : Phase) : nat :=
  match p with WaitReq true | Running true => 1 | _ => 0 end.
Definition holds_req (p : Phase) : nat := match p with Running _ => 1 | _ => 0 end.
(** The blocking task a phase leaves behind when its future is dropped. *)
Definition leaves (p : Phase) : list bool := match p with Running b => [b] | _ => [] end.

Inductive Event : Type :=
| Accept                        (* [serve]: a connection comes in *)
| Request (i : nat) (slow : bool) (* a request passes authorisation *)
| GetSlow (i : nat)
| SlowTimeout (i : nat)
| GetReq (i : nat)
| ReqTimeout (i : nat)
| Finish (i : nat)              (* the task ends and its response is written *)
| Timeout (i : nat)             (* the two seconds pass *)
| Close (i : nat)               (* the peer closes, an error, or the deadline *)
| TaskEnd (i : nat).            (* a task given up before ends *)

(** Connection [i] goes from the phase it is in to [p], giving back what it no longer holds. *)
Definition to_phase (i : nat) (p : Phase) (s : Server) : Server :=
  match conns s !! i with
  | Some q =>
      mkServer (conn_free s) (slow_free s + holds_slow q - holds_slow p)
        (req_free s + holds_req q - holds_req p) (<[i := p]> (conns s)) (orphans s)
  | None => s
  end.
Definition orphan (l : list bool) (s : Server) : Server :=
  mkServer (conn_free s) (slow_free s) (req_free s) (conns s) (l ++ orphans s).

(** One event, when it is enabled. *)
Definition step (e : Event) (s : Server) : option Server :=
  match e with
  | Accept =>
      match conn_free s with
      | S n => Some (mkServer n (slow_free s) (req_free s) (Reading :: conns s) (orphans s))
      | 0 => Some s
      end
  | Request i slow =>
      match conns s !! i with
      | Some Reading => Some (to_phase i (if slow then WaitSlow else WaitReq false) s)
      | _ => None
      end
  | GetSlow i =>
      match conns s !! i, slow_free s with
      | Some WaitSlow, S _ => Some (to_phase i (WaitReq true) s)
      | _, _ => None
      end
  | SlowTimeout i =>
      match conns s !! i with Some WaitSlow => Some (to_phase i Reading s) | _ => None end
  | GetReq i =>
      match conns s !! i, req_free s with
      | Some (WaitReq b), S _ => Some (to_phase i (Running b) s)
      | _, _ => None
      end
  | ReqTimeout i =>
      match conns s !! i with Some (WaitReq _) => Some (to_phase i Reading s) | _ => None end
  | Finish i =>
      match conns s !! i with Some (Running _) => Some (to_phase i Reading s) | _ => None end
  | Timeout i =>
      match conns s !! i with
      | Some (Running b) => Some (orphan [b] (to_phase i Reading s))
      | _ => None
      end
  | Close i =>
      match conns s !! i with
      | Some p =>
          Some (mkServer (S (conn_free s)) (slow_free s + holds_slow p) (req_free s + holds_req p)
                  (delete i (conns s)) (leaves p ++ orphans s))
      | None => None
      end
  | TaskEnd i =>
      match orphans s !! i with
      | Some _ => Some (mkServer (conn_free s) (slow_free s) (req_free s) (conns s) (delete i (orphans s)))
      | None => None
      end
  end.
Fixpoint run (es : list Event) (s : Server) : option Server :=
  match es with [] => Some s | e :: es' => s' ← step e s; run es' s' end.
(** The blocking tasks that run a slow method. *)
Definition slow_tasks (s : Server) : nat :=
  length (List.filter (fun b => b) (mjoin (leaves <$> conns s) ++ orphans s)).

(** ** Permits are neither lost nor made *)

Definition held (f : Phase -> nat) (s : Server) : nat := sum_list_with f (conns s).
Definition conserved (s : Server) : Prop :=
  conn_free s + length (conns s) = MAX_CONNECTIONS /\
  slow_free s + held holds_slow s = MAX_CONCURRENT_SLOW /\
  req_free s + held holds_req s = MAX_CONCURRENT_REQS.

Lemma to_phase_conserved i p q s : conserved s -> conns s !! i = Some q ->
  holds_slow p <= slow_free s + holds_slow q -> holds_req p <= req_free s + holds_req q ->
  conserved (to_phase i p s).
Proof.
  intros (Hc & Hs & Hr) Hi Hps Hpr. unfold to_phase. rewrite Hi. unfold conserved, held in *. cbn.
  rewrite length_insert. pose proof (sum_insert holds_slow _ _ _ p Hi). pose proof (sum_insert holds_req _ _ _ p Hi).
  lia.
Qed.
Lemma step_conserved e s s' : conserved s -> step e s = Some s' -> conserved s'.
Proof.
  intros Hs. destruct e; cbn [step]; intros E.
  - destruct (conn_free s) as [|n] eqn:En; injection E as <-; [done|].
    destruct Hs as (Hc & Hsl & Hr). unfold conserved, held in *. cbn. lia.
  - destruct (conns s !! i) as [[]|] eqn:Ei; try done. injection E as <-.
    eapply to_phase_conserved; [done..| |]; destruct slow; cbn; lia.
  - destruct (conns s !! i) as [[]|] eqn:Ei; try done. destruct (slow_free s) eqn:Ef; [done|]. injection E as <-.
    eapply to_phase_conserved; [done..| |]; cbn; lia.
  - destruct (conns s !! i) as [[]|] eqn:Ei; try done. injection E as <-.
    eapply to_phase_conserved; [done..| |]; cbn; lia.
  - destruct (conns s !! i) as [[]|] eqn:Ei; try done. destruct (req_free s) eqn:Ef; [done|]. injection E as <-.
    eapply to_phase_conserved; [done..| |]; destruct slow; cbn; lia.
  - destruct (conns s !! i) as [[]|] eqn:Ei; try done. injection E as <-.
    eapply to_phase_conserved; [done..| |]; destruct slow; cbn; lia.
  - destruct (conns s !! i) as [[]|] eqn:Ei; try done. injection E as <-.
    eapply to_phase_conserved; [done..| |]; destruct slow; cbn; lia.
  - destruct (conns s !! i) as [[]|] eqn:Ei; try done. injection E as <-.
    apply (to_phase_conserved i Reading (Running slow)); [done..| |]; destruct slow; cbn; lia.
  - destruct (conns s !! i) as [p|] eqn:Ei; [|done]. injection E as <-.
    destruct Hs as (Hc & Hsl & Hr). unfold conserved, held in *. cbn.
    rewrite length_delete by done. rewrite (sum_delete holds_slow _ _ _ Ei) in Hsl.
    rewrite (sum_delete holds_req _ _ _ Ei) in Hr. pose proof (lookup_lt_Some _ _ _ Ei). lia.
  - destruct (orphans s !! i); [|done]. injection E as <-. exact Hs.
Qed.
Lemma run_conserved es s s' : conserved s -> run es s = Some s' -> conserved s'.
Proof.
  revert s. induction es as [|e es IH]; cbn; intros s Hs; [by intros [= <-]|].
  destruct (step e s) as [s1|] eqn:E; [|done]. cbn. apply IH. by eapply step_conserved.
Qed.

(** Running requests of each kind. *)
Definition runs (slow : bool) (p : Phase) : nat :=
  match p with Running b => if eqb b slow then 1 else 0 | _ => 0 end.


(** *** Where the code does not do what its comments say

    The slow permit is to be held until the task really ends, and so to bound the slow tasks.
    It is given back at the time-out, so that a single connection can pile up any number. *)
Lemma slow_tasks_unbounded n : exists es s, run es server_new = Some s /\ slow_tasks s = n.
Proof.
  assert (Hn : forall n, exists es s, run es server_new = Some s /\ conns s = [Reading] /\
            slow_free s = MAX_CONCURRENT_SLOW /\ req_free s = MAX_CONCURRENT_REQS /\
            orphans s = replicate n true).
  { clear n. intros n. induction n as [|n (es & s & Hrun & Hc & Hs & Hr & Ho)].
    - exists [Accept]. eexists. by repeat split.
    - exists (es ++ [Request 0 true; GetSlow 0; GetReq 0; Timeout 0]).
      exists (mkServer (conn_free s) MAX_CONCURRENT_SLOW MAX_CONCURRENT_REQS [Reading] (replicate (S n) true)).
      split; [|done].
      assert (Happ : forall es1 es2 s0 s1, run es1 s0 = Some s1 -> run (es1 ++ es2) s0 = run es2 s1).
      { induction es1 as [|e es1 IH]; cbn; intros es2 s0 s1; [by intros [= <-]|].
        destruct (step e s0); [|done]. cbn. apply IH. }
      rewrite (Happ _ _ _ _ Hrun). destruct s as [c sf rf cs os]. cbn in *. subst. reflexivity. }
  destruct (Hn n) as (es & s & Hrun & Hc & _ & _ & Ho). exists es, s. split; [done|].
  unfold slow_tasks. rewrite Hc, Ho. cbn. clear. induction n as [|n IH]; cbn; congruence.
Qed.
End Limits.
