(* ===== verification/Client.v ===== *)
(** * The client of the Python bindings (fg-pyo3/src/lib.rs)

    The synchronous client that keeps a connection, its one retry, and the methods that build
    parameters and decode results.  The socket is the class [Transport]; Python's objects are
    the type [PyObj] and its exceptions [PyErr]. *)
From stdpp Require Import pretty.
From S2P Require Import Prelude Json Core Pattern Rules Tokens Chain Wire Ipc.

(** A socket: connecting, writing all bytes, reading a line of at most some bytes, closing. *)
Class Transport (T : Type) : Type := {
  t_connect : T -> T * result string ();
  t_write : list ascii -> T -> T * result string ();
  t_read : nat -> T -> T * result string (list ascii);
  t_drop : T -> T
}.

Module Client.
Import Json.

Definition DEFAULT_SOCK : string := "/tmp/fusion-guard.sock".
Record RpcError : Type := mkRpcError { code : Z; message : string }.
Record UdsClient : Type := mkClient { sock : string; shared_secret : option string }.
(** The persistent stream, the counter of ids and the other end. *)
Record ClientState (T : Type) : Type := mkState { conn : bool; next_id : Z; net : T }.
Arguments mkState {T} _ _ _.
Arguments conn {T} _.
Arguments next_id {T} _.
Arguments net {T} _.

(** [as i32] *)
Definition as_i32 (n : Z) : Z := ((n + 2 ^ 31) mod 2 ^ 32 - 2 ^ 31)%Z.

(** What [call_once] makes of a response document. *)
Definition response_result (resp : Value) : result RpcError Value :=
  match get "error" resp with
  | Some (Obj err) =>
      Err (mkRpcError (as_i32 (default (-32603)%Z (lookup_key "code" err ≫= as_i64)))
                      (default "unknown error" (lookup_key "message" err ≫= as_str)))
  | _ => ok_or (mkRpcError (-32603) "missing result") (get "result" resp)
  end.
(** [params] with the secret, for every method but ping *)
Definition with_secret (c : UdsClient) (method : string) (params : Value) : Value :=
  if String.eqb method "guard.ping" then params
  else match shared_secret c, params with
  | Some s, Obj es => Obj (map_insert "secret" (Str s) es)
  | _, _ => params
  end.
Definition request_doc (id : Z) (method : string) (params : Value) : Value :=
  obj [("jsonrpc", Str "2.0"); ("id", u64_value id); ("method", Str method); ("params", params)].

Section WithNet.
Context `{JsonText} {T : Type} `{Transport T}.

Definition with_net (n : T) (st : ClientState T) : ClientState T := mkState (conn st) (next_id st) n.
(** [*guard = None] *)
Definition clear (st : ClientState T) : ClientState T := mkState false (next_id st) (t_drop (net st)).
Definition rpc_fail {A} (c : Z) (m : string) : result RpcError A := Err (mkRpcError c m).

(** [serde_json::from_slice], to a value *)
Definition parse_bytes (l : list ascii) : option Value :=
  let s := of_bytes l in if Tokens.utf8_valid s then normalize <$> json_parse s else None.

(** [UdsClient::call_once] *)
Definition call_once (c : UdsClient) (req : list ascii) (st : ClientState T)
  : ClientState T * result RpcError Value :=
  let '(st, connected) :=
    if conn st then (st, Ok ())
    else match t_connect (net st) with
         | (n, Err e) => (with_net n st, rpc_fail (-32010) ("connect " +:+ sock c +:+ ": " +:+ e))
         | (n, Ok _) => (mkState true (next_id st) n, Ok ())
         end in
  match connected with
  | Err e => (st, Err e)
  | Ok _ =>
      match t_write req (net st) with
      | (n, Err e) => (clear (with_net n st), rpc_fail (-32010) ("write: " +:+ e))
      | (n, Ok _) =>
          match t_read (S Ipc.MAX_LINE_BYTES) n with
          | (n, Err e) => (clear (with_net n st), rpc_fail (-32010) ("read: " +:+ e))
          | (n, Ok buf) =>
              let st := with_net n st in
              if Nat.ltb Ipc.MAX_LINE_BYTES (length buf)
              then (clear st, rpc_fail (-32600) "response too large")
              else match Ipc.strip_framing buf with
              | [] => (clear st, rpc_fail (-32010) "empty response")
              | line =>
                  (st, resp ← ok_or (mkRpcError (-32700) "parse resp: ") (parse_bytes line);
                       response_result resp)
              end
          end
      end
  end.
(** [UdsClient::call]: one retry, on any error of the first attempt. *)
Definition call (c : UdsClient) (method : string) (params : Value) (st : ClientState T)
  : ClientState T * result RpcError Value :=
  let req := request_doc (next_id st) method (with_secret c method params) in
  let st := mkState (conn st) (u64_add (next_id st) 1) (net st) in
  let bytes := (bytes (json_text req) ++ [Ipc.FRAMING_BYTE])%list in
  if Nat.ltb Ipc.MAX_LINE_BYTES (length bytes) then (st, rpc_fail (-32600) "request too large")
  else match call_once c bytes st with
  | (st', Ok v) => (st', Ok v)
  | (st', Err _) => call_once c bytes st'
  end.
End WithNet.

(** *** What Python sees *)

Inductive PyErr : Type :=
| PyRuntimeError (m : string)
| PyValueError (m : string).
(** [map_rpc_err] *)
Definition map_rpc_err (e : RpcError) : PyErr :=
  let c := code e in
  PyRuntimeError
    (if Z.eqb c (-32003) then "stale epoch: " +:+ message e
     else if Z.eqb c (-32002) then "rate limited: " +:+ message e
     else if Z.eqb c (-32001) then "unauthorized: " +:+ message e
     else "guard error [" +:+ pretty c +:+ "]: " +:+ message e).

Record PyGuardVerdict : Type := mkPyVerdict {
  py_action : string;
  py_risk_level : string;
  py_reason : string;
  py_stage : string;
  py_requires_approval : bool;
  py_redacted_content : option string;
  py_seatbelt_required : bool;
  py_action_id : option string;
  py_verdict_epoch : Z;
  py_verdict_ttl_secs : Z;
  py_inferred_category : string;
  py_category_hint : option string
}.
(** [PyGuardVerdict::from], with [serde_str] *)
Definition py_verdict (v : GuardVerdict) : PyGuardVerdict :=
  mkPyVerdict (Wire.action_name (action v)) (Wire.risk_name (risk_level v)) (reason v)
    (Wire.stage_name (stage v)) (requires_approval v) (redacted_content v) (seatbelt_required v)
    (action_id v) (verdict_epoch v) (verdict_ttl_secs v) (inferred_category v) (category_hint v).
Record PyGuardRule : Type := mkPyRule {
  pr_name : string;
  pr_pattern : string;
  pr_stage : string;
  pr_action : string;
  pr_risk_level : string;
  pr_reason : string;
  pr_scope : string
}.
Record PyChainVerification : Type := mkPyChain {
  pc_total_rows : Z;
  pc_unhashed_rows : Z;
  pc_verified_links : Z;
  pc_broken_links : Z;
  pc_tampered : bool;
  pc_first_broken_at : option Z
}.
Record PyAllChains : Type := mkPyAll {
  pa_audit : PyChainVerification;
  pa_tcc : PyChainVerification;
  pa_rules : PyChainVerification;
  pa_dead_letter : PyChainVerification;
  pa_tampered : bool
}.

(** [value_to_obj] *)
Unset Elimination Schemes.
Inductive PyObj : Type :=
| PyNone
| PyBool (b : bool)
| PyInt (n : Z)
| PyFloat (bits : Z)
| PyStr (s : string)
| PyList (l : list PyObj)
| PyDict (es : list (string * PyObj)).
Set Elimination Schemes.
Definition number_to_obj (n : Number) : PyObj :=
  match as_i64 (Num n) with
  | Some i => PyInt i
  | None => match as_u64 (Num n) with
            | Some u => PyInt u
            | None => match n with Float b => PyFloat b | PosInt b | NegInt b => PyInt b end
            end
  end.
Fixpoint value_to_obj (v : Value) : PyObj :=
  match v with
  | Null => PyNone
  | Bool b => PyBool b
  | Num n => number_to_obj n
  | Str s => PyStr s
  | Arr l => PyList (List.map value_to_obj l)
  | Obj es => PyDict (List.map (fun e => (e.1, value_to_obj e.2)) es)
  end.

(** [to_dict] *)
Definition opt_obj (o : option string) : PyObj := match o with Some s => PyStr s | None => PyNone end.
Definition to_dict (v : PyGuardVerdict) : PyObj :=
  PyDict
    [("action", PyStr (py_action v)); ("risk_level", PyStr (py_risk_level v));
     ("reason", PyStr (py_reason v)); ("stage", PyStr (py_stage v));
     ("requires_approval", PyBool (py_requires_approval v));
     ("redacted_content", opt_obj (py_redacted_content v));
     ("seatbelt_required", PyBool (py_seatbelt_required v)); ("action_id", opt_obj (py_action_id v));
     ("verdict_epoch", PyInt (py_verdict_epoch v)); ("verdict_ttl_secs", PyInt (py_verdict_ttl_secs v));
     ("inferred_category", PyStr (py_inferred_category v)); ("category_hint", opt_obj (py_category_hint v))].
(** The texts of [__repr__]; Rust writes a [bool] as [true] or [false]. *)
Definition bool_text (b : bool) : string := if b then "true" else "false".
Definition verdict_repr (v : PyGuardVerdict) : string :=
  "GuardVerdict(action=" +:+ py_action v +:+ ", risk=" +:+ py_risk_level v +:+ ", category="
    +:+ py_inferred_category v +:+ ", seatbelt=" +:+ bool_text (py_seatbelt_required v) +:+ ")".
Definition rule_repr (r : PyGuardRule) : string :=
  "GuardRule(name=" +:+ pr_name r +:+ ", action=" +:+ pr_action r +:+ ", risk=" +:+ pr_risk_level r +:+ ")".
Definition redact_repr (r : string * option string) : string :=
  "RedactResult(token_map_id=" +:+ default "None" r.2 +:+ ")".
Definition chain_repr (c : PyChainVerification) : string :=
  "ChainVerification(rows=" +:+ pretty (pc_total_rows c) +:+ ", verified=" +:+ pretty (pc_verified_links c)
    +:+ ", broken=" +:+ pretty (pc_broken_links c) +:+ ", tampered=" +:+ bool_text (pc_tampered c) +:+ ")".
Definition all_chains_repr (a : PyAllChains) : string :=
  "AllChainsVerification(tampered=" +:+ bool_text (pa_tampered a) +:+ ", audit.tampered="
    +:+ bool_text (pc_tampered (pa_audit a)) +:+ ", tcc.tampered=" +:+ bool_text (pc_tampered (pa_tcc a))
    +:+ ", rules.tampered=" +:+ bool_text (pc_tampered (pa_rules a)) +:+ ", dead_letter.tampered="
    +:+ bool_text (pc_tampered (pa_dead_letter a)) +:+ ")".

(** [parse_verdict] and [parse_rule]; the text of a decoding error has its prefix only. *)
Definition parse_verdict `{RowCodec} (v : Value) : result PyErr PyGuardVerdict :=
  x ← ok_or (PyValueError "verdict decode: ") (Wire.verdict_of_value v); mret (py_verdict x).
Definition str_or (d k : string) (v : Value) : string := default d (get k v ≫= as_str).
Definition parse_rule (v : Value) : PyGuardRule :=
  mkPyRule (str_or "" "name" v) (str_or "" "pattern" v) (str_or "regex" "stage" v)
    (str_or "allow" "action" v) (str_or "l1" "risk_level" v) (str_or "" "reason" v)
    (str_or "command" "scope" v).
(** [parse_sub] of [audit_verify] *)
Definition parse_sub (res : Value) (label : string) : result PyErr PyChainVerification :=
  let missing k := PyValueError (label +:+ " missing '" +:+ k +:+ "'") in
  sub ← ok_or (PyValueError ("audit.verify response missing '" +:+ label +:+ "' subchain")) (get label res);
  let get_u64 k := ok_or (missing k) (get k sub ≫= as_u64) in
  t ← ok_or (missing "tampered") (get "tampered" sub ≫= as_bool);
  n ← get_u64 "total_rows"; u ← get_u64 "unhashed_rows"; vl ← get_u64 "verified_links";
  bl ← get_u64 "broken_links";
  mret (mkPyChain n u vl bl t (get "first_broken_at" sub ≫= as_u64)).
(** What [tcc_status] and [tcc_events] take for the elements of a member. *)
Definition array_or_empty (k : string) (v : Value) : list Value :=
  match default (Arr []) (get k v) with Arr l => l | _ => [] end.

(** What [list_rules] takes for the rules: a missing member is an empty list. *)
Definition rules_array (v : Value) : result PyErr (list Value) :=
  match get "rules" v with
  | Some (Arr l) => Ok l
  | Some _ => Err (PyValueError "rule.list 'rules' not array")
  | None => Ok []
  end.

(** What the methods make of a result. *)
Definition decode_rules (v : Value) : result PyErr (list PyGuardRule * Z) :=
  ep ← ok_or (PyValueError "rule.list response missing 'epoch'") (get "epoch" v ≫= as_u64);
  arr ← rules_array v;
  mret (List.map parse_rule arr, ep).
Definition decode_redact (v : Value) : result PyErr (string * option string) :=
  r ← ok_or (PyValueError "redact response missing 'redacted_content'")
        (get "redacted_content" v ≫= as_str);
  mret (r, get "token_map_id" v ≫= as_str).
Definition decode_reveal (v : Value) : result PyErr string :=
  ok_or (PyValueError "reveal response missing 'content'") (get "content" v ≫= as_str).
Definition decode_confirm `{RowCodec} (v : Value) : result PyErr PyGuardVerdict :=
  x ← ok_or (PyValueError "confirm response missing 'verdict'") (get "verdict" v); parse_verdict x.
Definition decode_chains (v : Value) : result PyErr PyAllChains :=
  t ← ok_or (PyValueError "audit.verify response missing 'tampered'") (get "tampered" v ≫= as_bool);
  a ← parse_sub v "audit"; tc ← parse_sub v "tcc"; r ← parse_sub v "rules";
  d ← parse_sub v "dead_letter";
  mret (mkPyAll a tc r d t).

(** [PyGuardClient::new] *)
Definition client_new (sock_path secret env_sock env_secret : option string) : UdsClient :=
  mkClient (default DEFAULT_SOCK (match sock_path with Some p => Some p | None => env_sock end))
    (match (match secret with Some s => Some s | None => env_secret end) with
     | Some s => if str_empty s then None else Some s
     | None => None
     end).

(** Parameters of a call: the members every call has, then those that were given. *)
Definition given (k : string) (o : option string) : list (string * Value) :=
  match o with Some s => [(k, Str s)] | None => [] end.
Definition evaluate_params (content : string) (epoch : Z) (tenant requester : option string)
    (content_type : string) (hint : option string) : Value :=
  obj ([("action", Str "evaluate"); ("content", Str content); ("caller_epoch", u64_value epoch);
        ("content_type", Str content_type)]
       ++ given "tenant_id" tenant ++ given "requester" requester ++ given "category_hint" hint).
Definition confirm_params (action_id : string) (approved : bool) (by_ tenant : option string) : Value :=
  obj ([("action_id", Str action_id); ("approved", Bool approved)]
       ++ given "approved_by" by_ ++ given "tenant_id" tenant).

Section Methods.
Context `{JsonText, RowCodec} {T : Type} `{Transport T} (c : UdsClient).

(** A call and what is made of its result. *)
Definition py_call {A} (method : string) (params : Value) (k : Value -> result PyErr A)
    (st : ClientState T) : ClientState T * result PyErr A :=
  let '(st', r) := call c method params st in (st', v ← map_err map_rpc_err r; k v).

Definition ping : ClientState T -> ClientState T * result PyErr PyObj :=
  py_call "guard.ping" (obj []) (fun v => Ok (value_to_obj v)).
Definition py_evaluate (content : string) (epoch : Z) (tenant requester : option string)
    (content_type : string) (hint : option string)
  : ClientState T -> ClientState T * result PyErr PyGuardVerdict :=
  py_call "guard.evaluate" (evaluate_params content epoch tenant requester content_type hint)
    parse_verdict.
Definition list_rules : ClientState T -> ClientState T * result PyErr (list PyGuardRule * Z) :=
  py_call "guard.rule.list" (obj [])
    decode_rules.
Definition py_redact (content : string) (reversible : bool)
  : ClientState T -> ClientState T * result PyErr (string * option string) :=
  py_call "guard.redact" (obj [("content", Str content); ("reversible", Bool reversible)])
    decode_redact.
Definition py_reveal (content token_map_id : string)
  : ClientState T -> ClientState T * result PyErr string :=
  py_call "guard.reveal" (obj [("content", Str content); ("token_map_id", Str token_map_id)])
    decode_reveal.
Definition py_confirm (action_id : string) (approved : bool) (by_ tenant : option string)
  : ClientState T -> ClientState T * result PyErr PyGuardVerdict :=
  py_call "guard.confirm" (confirm_params action_id approved by_ tenant)
    decode_confirm.
Definition tcc_status : ClientState T -> ClientState T * result PyErr (list PyObj) :=
  py_call "guard.tcc.status" (obj [])
    (fun v => Ok (value_to_obj <$> array_or_empty "statuses" v)).
Definition tcc_events (limit : Z) : ClientState T -> ClientState T * result PyErr (list PyObj) :=
  py_call "guard.tcc.events" (obj [("limit", u64_value limit)])
    (fun v => Ok (value_to_obj <$> array_or_empty "events" v)).
Definition audit_verify : ClientState T -> ClientState T * result PyErr PyAllChains :=
  py_call "guard.audit.verify" (obj []) decode_chains.
End Methods.
End Client.
