(* ===== verification/ClientSpec.v ===== *)
(** * Properties of the Python client (Client.v) and of the way from a call to the engine

    The client's transport is instantiated by a connection to the server of Ipc.v, so that a
    call of the client is related to the method it names. *)
From stdpp Require Import pretty.
From S2P Require Import Prelude Json Core Pattern Tokenizer Semantic Rules Redact Tokens Chain.
From S2P Require Import ChainSpec Actions Ledger LedgerSpec Engine EngineSpec Auth Wire Cluster.
From S2P Require Import ClusterSpec Listing ListingSpec Platform Ipc IpcSpec Client.

Module ClientSpec.
Import Json JsonFacts WireSpec Ledger Engine Auth Ipc Client.


Section Loopback.
Context `{RegexEngine, ShellEnv, Grammars, Crypto, RowCodec, VerdictCodec, StoreCodec}.
Context `{SqlFunctions, JsonText, ClusterHash, HexCodec}.
(** A connection to the server: its state, how many requests it has served, and the bytes it
    has written that were not read yet. *)
Record Loop : Type := mkLoop {
  l_engine : AuditEngine;
  l_served : nat;
  l_unread : list ascii
}.

Context (env : nat -> World * Sched) (secret : option string) (i : CallerIdentity).

#[local] Instance loopback : Transport Loop := {|
  t_connect l := (mkLoop (l_engine l) (l_served l) [], Ok ());
  t_write req l :=
    let '(g', out) := dispatch_arc (env (l_served l)).1 (env (l_served l)).2 secret i
                        (from_utf8_lossy (strip_framing req)) (l_engine l) in
    (mkLoop g' (S (l_served l)) (l_unread l ++ bytes out), Ok ());
  t_read n l := let '(line, rest) := read_until n (l_unread l) in
                (mkLoop (l_engine l) (l_served l) rest, Ok line);
  t_drop l := mkLoop (l_engine l) (l_served l) []
|}.

(** The reference: the method itself, its failures as the client sees them. *)
Definition attempt (k : nat) (m : string) (p : Value) (g : AuditEngine)
  : AuditEngine * result RpcError Value :=
  let '(g', r) := handle_method (env k).1 i m p g in
  (g', map_err (fun f => let e := match f with
                                  | Failed e => e
                                  | Panicked => Core.Engine "blocking task join failed"
                                  end in
                         mkRpcError (err_code e) (err_wire_msg e)) r).

(** A document that reaches the other end: within the limits of the printer and of a line. *)
Definition deliverable (doc : Value) : Prop :=
  printable DEPTH_LIMIT doc = true /\ IpcSpec.proper_line (json_text doc).

Lemma normal_insert k v es : normal (Obj es) = true -> normal v = true ->
  normal (Obj (map_insert k v es)) = true.
Proof.
  cbn [normal]. intros [Hs Hn]%andb_true_iff Hv. apply andb_true_iff. split; [by apply map_insert_sorted|].
  apply forallb_forall. intros e He. apply in_map_insert in He as [->|He]; [done|].
  rewrite forallb_forall in Hn. by apply Hn.
Qed.
Lemma with_secret_normal c m p : normal p = true -> normal (with_secret c m p) = true.
Proof.
  intros Hp. unfold with_secret. destruct (String.eqb m _); [done|].
  destruct (shared_secret c), p; try done. by apply normal_insert.
Qed.
(** The server reads the request the client wrote. *)
Lemma request_read {HL : JsonTextLaws} id m p : normal p = true -> printable DEPTH_LIMIT (request_doc id m p) = true ->
  json_parse (json_text (request_doc id m p)) ≫= request_of_doc = Some (mkRequest "2.0" (u64_value id) m p).
Proof.
  intros Hp Hpr. rewrite json_roundtrip by done. cbn [mbind option_bind]. unfold request_of_doc, request_doc.
  rewrite struct_fields_obj by (apply (bool_decide_unpack _); reflexivity).
  cbn -[normalize]. by rewrite (normalize_normal p Hp).
Qed.
(** The client reads the response the server wrote. *)
Lemma response_read {HL : JsonTextLaws} id res err : printable DEPTH_LIMIT (response id res err) = true ->
  normal res = true -> normal err = true -> Tokens.utf8_valid (json_text (response id res err)) = true ->
  exists doc, parse_bytes (bytes (json_text (response id res err))) = Some doc /\
    get "result" doc = Some res /\ get "error" doc = Some err.
Proof.
  intros Hp Hr He Hv. unfold parse_bytes. rewrite of_bytes_bytes, Hv, json_roundtrip by done.
  eexists. split; [reflexivity|]. unfold response. cbn [normalize List.map fst snd].
  rewrite !get_obj by (apply (bool_decide_unpack _); reflexivity). cbn.
  by rewrite !normalize_normal.
Qed.
Lemma error_value_normal code msg : normal (error_value code msg) = true.
Proof. done. Qed.
Lemma error_value_code e : response_result (Obj [("error", error_value (err_code e) (err_wire_msg e))])
  = Err (mkRpcError (err_code e) (err_wire_msg e)).
Proof. by destruct e. Qed.

(** The response to request [id], whatever came of it. *)
Definition reply_doc (id : Z) (r : result RpcError Value) : Value :=
  match r with
  | Ok v => ok_resp (u64_value id) v
  | Err e => err_resp (u64_value id) (code e) (message e)
  end.
(** What an attempt needs of the runtime and of its answer. *)
Definition in_time (k : nat) : Prop :=
  slow_permit (env k).2 = true /\ req_permit (env k).2 = true /\ timed_out (env k).2 = false.
Definition answerable (id : Z) (r : result RpcError Value) : Prop :=
  deliverable (reply_doc id r) /\ forall v, r = Ok v -> normal v = true.

Lemma attempt_dispatched {HL : JsonTextLaws} k id m p g : normal p = true ->
  printable DEPTH_LIMIT (request_doc id m p) = true -> in_time k ->
  authorize_method secret i m (get "secret" p ≫= as_str) = AuthAllow ->
  dispatch_arc (env k).1 (env k).2 secret i (json_text (request_doc id m p)) g
  = ((attempt k m p g).1, frame (reply_doc id (attempt k m p g).2)).
Proof.
  intros Hp Hpr (Hs & Hq & Ht) Ha. unfold dispatch_arc. rewrite request_read by done.
  unfold dispatch_request, extract_secret, run_handler, attempt. cbn [jsonrpc rq_method params rq_id].
  rewrite Ha, Hs, Hq, Ht. cbn [String.eqb negb deny_resp]. rewrite andb_false_r. cbn [negb].
  destruct (handle_method _ i m p g) as [g' [v|[|e]]]; done.
Qed.
Lemma reply_result {HL : JsonTextLaws} k id m p g : let r := (attempt k m p g).2 in answerable id r ->
  ok_or (mkRpcError (-32700) "parse resp: ") (parse_bytes (bytes (json_text (reply_doc id r)))) ≫= response_result
  = r.
Proof.
  cbv zeta. unfold attempt. destruct (handle_method _ i m p g) as [g' [v|f]]; cbn [map_err snd].
  - intros [[Hpr (_ & _ & Hv)] Hn].
    destruct (response_read (u64_value id) v Null) as (doc & Hd & Hres & Herr); [done|by apply Hn|done|done|].
    cbn [reply_doc]. unfold ok_resp. rewrite Hd. cbn [ok_or mbind result_bind]. unfold response_result. by rewrite Herr, Hres.
  - set (e := match f with Panicked => _ | Failed e => e end). intros [[Hpr (_ & _ & Hv)] _].
    destruct (response_read (u64_value id) Null (error_value (err_code e) (err_wire_msg e)))
      as (doc & Hd & Hres & Herr); [done|done|apply error_value_normal|done|].
    cbn [reply_doc code message err_resp]. unfold err_resp. rewrite Hd. cbn [ok_or mbind result_bind].
    unfold response_result. rewrite Herr. apply error_value_code.
Qed.
Lemma call_once_attempt {HL : JsonTextLaws} c conn0 nid k id m p g :
  normal p = true -> deliverable (request_doc id m p) -> in_time k ->
  authorize_method secret i m (get "secret" p ≫= as_str) = AuthAllow ->
  answerable id (attempt k m p g).2 ->
  call_once c (bytes (json_text (request_doc id m p)) ++ [FRAMING_BYTE]) (mkState conn0 nid (mkLoop g k []))
  = (mkState true nid (mkLoop (attempt k m p g).1 (S k) []), (attempt k m p g).2).
Proof.
  intros Hp [Hpr (Hnl & Hlen & Hv)] Hin Ha Hans.
  assert (Hst : forall (f : ClientState Loop * result RpcError () -> ClientState Loop * result RpcError Value),
    f (if conn0 then (mkState conn0 nid (mkLoop g k []), Ok ())
       else (mkState true nid (mkLoop g k []), Ok ())) = f (mkState true nid (mkLoop g k []), Ok ()))
    by (by destruct conn0).
  unfold call_once. cbn [conn net t_connect loopback next_id l_engine l_served].
  rewrite (Hst (fun x => let '(st, connected) := x in _)). clear Hst.
  cbn [t_write loopback net l_served l_engine l_unread]. rewrite IpcSpec.strip_framing_line, IpcSpec.lossy_valid by done.
  rewrite attempt_dispatched by done. cbn [app]. set (r := (attempt k m p g).2) in *.
  cbn [t_read loopback l_unread]. unfold frame. rewrite bytes_app.
  pose proof Hans as [[_ (Hnl' & Hlen' & _)] _]. rewrite <- length_bytes in Hlen'.
  change (bytes (String (ascii_of_nat 10) "")) with [FRAMING_BYTE].
  rewrite (IpcSpec.read_until_line _ _ [] Hnl' (Nat.lt_lt_succ_r _ _ Hlen')).
  rewrite (proj2 (Nat.ltb_ge MAX_LINE_BYTES _)) by (rewrite length_app, Nat.add_1_r; exact Hlen').
  rewrite IpcSpec.strip_framing_line by done. clear Hlen' Hlen.
  destruct (bytes (json_text (reply_doc id r))) as [|b bs] eqn:Eb.
  { exfalso. apply (json_nonempty (reply_doc id r)). by rewrite <- (of_bytes_bytes (json_text _)), Eb. }
  rewrite <- Eb. unfold with_net. cbn [conn next_id l_engine l_served]. f_equal. by apply reply_result.
Qed.

(** A client with the daemon's secret is let in. *)
Lemma secret_presented c m es : shared_secret c = secret -> auth_ok i = true ->
  authorize_method secret i m (get "secret" (with_secret c m (Obj es)) ≫= as_str) = AuthAllow.
Proof.
  intros Hc Hi. apply AuthSpec.authorize_allow. unfold with_secret.
  destruct (String.eqb_spec m "guard.ping") as [->|Hm]; [by left|]. right. split; [done|].
  intros s Hs. rewrite Hc, Hs. exists s. cbn [get]. rewrite lookup_map_insert, String.eqb_refl. split; [done|].
  by apply AuthSpec.constant_time_eq_bytes.
Qed.
Definition request_bytes (id : Z) (m : string) (p : Value) : list ascii :=
  (bytes (json_text (request_doc id m p)) ++ [FRAMING_BYTE])%list.
Lemma call_first {HL : JsonTextLaws} c conn0 id k m es g :
  let p := with_secret c m (Obj es) in
  shared_secret c = secret -> auth_ok i = true -> normal (Obj es) = true ->
  deliverable (request_doc id m p) -> in_time k -> answerable id (attempt k m p g).2 ->
  call c m (Obj es) (mkState conn0 id (mkLoop g k []))
  = match attempt k m p g with
    | (g1, Ok v) => (mkState true (u64_add id 1) (mkLoop g1 (S k) []), Ok v)
    | (g1, Err _) =>
        call_once c (request_bytes id m p) (mkState true (u64_add id 1) (mkLoop g1 (S k) []))
    end.
Proof.
  cbv zeta. intros Hc Hi Hn Hreq Hk Hans. pose proof (secret_presented c m es Hc Hi) as Ha.
  apply (with_secret_normal c m) in Hn. set (p := with_secret c m (Obj es)) in *. unfold call.
  cbn [next_id conn net]. fold p. pose proof Hreq as (_ & _ & Hlen & _). rewrite <- length_bytes in Hlen.
  rewrite (proj2 (Nat.ltb_ge MAX_LINE_BYTES _)) by (rewrite length_app, Nat.add_1_r; exact Hlen). clear Hlen.
  rewrite (call_once_attempt c conn0 _ k id m p g Hn Hreq Hk Ha Hans).
  by destruct (attempt k m p g) as [g1 [v|e]].
Qed.
End Loopback.
#[local] Existing Instance loopback.

(** The text of an evaluation loses nothing. *)
Lemma py_verdict_inj v1 v2 : py_verdict v1 = py_verdict v2 -> v1 = v2.
Proof.
  destruct v1 as [a1 r1 w1 s1 ? ? ? ? ? ? ? ?], v2 as [a2 r2 w2 s2 ? ? ? ? ? ? ? ?]. unfold py_verdict. cbn.
  intros E. injection E as Ea Er -> Es -> -> -> -> -> -> -> ->.
  assert (a1 = a2) as -> by (destruct a1, a2; done). assert (r1 = r2) as -> by (destruct r1, r2; done).
  assert (s1 = s2) as -> by (destruct s1, s2; done). done.
Qed.
Lemma to_dict_inj v1 v2 : to_dict v1 = to_dict v2 -> v1 = v2.
Proof.
  assert (Ho : forall o1 o2, opt_obj o1 = opt_obj o2 -> o1 = o2) by (intros [?|] [?|]; cbn; congruence).
  destruct v1, v2. unfold to_dict. cbn. intros E. injection E as -> -> -> -> -> E1 -> E2 -> -> -> E3.
  apply Ho in E1, E2, E3. by subst.
Qed.

(** What Python sees of a verification. *)
Definition py_chain (c : Chain.ChainVerification) : PyChainVerification :=
  mkPyChain (Z.of_nat (Chain.total_rows c)) (Z.of_nat (Chain.unhashed_rows c))
    (Z.of_nat (Chain.verified_links c)) (Z.of_nat (Chain.broken_links c)) (Chain.tampered c)
    (Z.of_nat <$> Chain.first_broken_at c).
Lemma parse_sub_chain res label c : get label res = Some (Wire.chain_value c) ->
  parse_sub res label = Ok (py_chain c).
Proof.
  intros E. unfold parse_sub. rewrite E. cbn [ok_or mbind result_bind]. unfold Wire.chain_value.
  rewrite !get_obj by (apply (bool_decide_unpack _); reflexivity). cbn.
  unfold py_chain. by destruct (Chain.first_broken_at c).
Qed.
Lemma decode_chains_value a : decode_chains (Wire.all_chains_value a)
  = Ok (mkPyAll (py_chain (a_audit a)) (py_chain (a_tcc a)) (py_chain (a_rules a)) (py_chain (a_dead a))
          (a_tampered a)).
Proof.
  unfold decode_chains, Wire.all_chains_value.
  rewrite get_obj by (apply (bool_decide_unpack _); reflexivity). cbn [get lookup_key String.eqb mbind option_bind].
  cbn -[parse_sub obj].
  by rewrite (parse_sub_chain _ "audit" (a_audit a)), (parse_sub_chain _ "tcc" (a_tcc a)),
    (parse_sub_chain _ "rules" (a_rules a)), (parse_sub_chain _ "dead_letter" (a_dead a))
    by (rewrite get_obj by (apply (bool_decide_unpack _); reflexivity); reflexivity).
Qed.


(** [C33] Python sees the verdict of the engine: when the server's method answers an evaluation
    with a verdict, the Python method returns that verdict field by field, with every
    enumeration under its wire name, and different verdicts are seen as different, also by their
    dictionaries. *)
Theorem python_sees_verdict
    `{RegexEngine, ShellEnv, Grammars, Crypto, RowCodec, VerdictCodec, StoreCodec}
    `{SqlFunctions, HJ : JsonText, HL : !JsonTextLaws, ClusterHash, HexCodec}
    env secret i c conn0 id k g g' v content ep tenant who ct hint
  (Hc : shared_secret c = secret /\ auth_ok i = true)
  (Hreq : deliverable (request_doc id "guard.evaluate"
            (with_secret c "guard.evaluate" (evaluate_params content ep tenant who ct hint))))
  (Hk : in_time env k) (Hwf : Wire.verdict_wf v)
  (Hrun : handle_method (env k).1 i "guard.evaluate"
            (with_secret c "guard.evaluate" (evaluate_params content ep tenant who ct hint)) g
          = (g', Ok (Wire.verdict_value v)))
  (Hline : deliverable (ok_resp (u64_value id) (Wire.verdict_value v))) :
  py_evaluate (H1 := loopback env secret i) c content ep tenant who ct hint
    (mkState conn0 id (mkLoop g k []))
  = (mkState true (u64_add id 1) (mkLoop g' (S k) []), Ok (py_verdict v)) /\
  (forall v2, to_dict (py_verdict v2) = to_dict (py_verdict v) -> v2 = v).
Proof.
  split; [|intros v2 E; by apply py_verdict_inj, to_dict_inj]. destruct Hc as [Hc Hi].
  assert (Hn : normal (evaluate_params content ep tenant who ct hint) = true)
    by (apply normal_obj; by destruct tenant, who, hint).
  unfold py_evaluate, py_call. change (evaluate_params content ep tenant who ct hint) with
    (Obj (match evaluate_params content ep tenant who ct hint with Obj es => es | _ => [] end)) in *.
  assert (Hat : attempt env i k "guard.evaluate" _ g = (g', Ok (Wire.verdict_value v)))
    by (unfold attempt; by rewrite Hrun).
  rewrite (call_first env secret i) by
    (done || (rewrite Hat; split; [done|intros ? [= <-]; apply verdict_value_normal])).
  rewrite Hat. cbn [map_err mbind result_bind]. unfold parse_verdict.
  by rewrite (verdict_value_roundtrip v Hwf).
Qed.

(** *** Examples *)

#[local] Existing Instances RulesSpec.sample_regex Tokenizer.sample_env RulesSpec.sample_grammars ChainSpec.toy_crypto
  ChainSpec.toy_codec ChainSpec.toy_hmac_laws LedgerSpec.toy_store_codec EngineSpec.full_verdict_codec
  ListingSpec.toy_sql JsonToy.toy_text JsonToy.toy_text_laws ClusterSpec.toy_hash ClusterSpec.toy_hex.

Lemma bits_ascii p : forallb (fun a => in_range a 0 127) (bytes (JsonToy.bits_text p)) = true.
Proof. induction p; cbn; auto. Qed.
Lemma ascii_utf8 fuel l : forallb (fun a => in_range a 0 127) l = true -> length l <= fuel ->
  Tokens.utf8_go fuel l = true.
Proof.
  revert l. induction fuel as [|fuel IH]; intros [|a l] Ha Hl; try done; cbn [length] in Hl; [lia|].
  cbn [forallb] in Ha. apply andb_true_iff in Ha as [Ha Hall]. cbn [Tokens.utf8_go]. rewrite Ha.
  apply IH; [done|lia].
Qed.
Lemma toy_deliverable v (n : N) : printable DEPTH_LIMIT v = true ->
  N.of_nat (String.length (json_text v)) = n -> (n < 1048576)%N -> deliverable v.
Proof.
  intros Hp Hn Hlt. split; [done|]. split; [|split].
  - rewrite list_elem_of_In. intros Hin. pose proof (json_one_line v : str_has FRAMING_BYTE (json_text v) = false) as E.
    assert (Hhas : str_has FRAMING_BYTE (json_text v) = true); [|congruence]. clear -Hin.
    induction (json_text v) as [|a t IH]; [done|]. cbn in *. destruct Hin as [->|Hin]; [by rewrite Ascii.eqb_refl|].
    rewrite (IH Hin). apply orb_true_r.
  - unfold MAX_LINE_BYTES. lia.
  - unfold Tokens.utf8_valid. apply ascii_utf8; [|by rewrite length_bytes].
    cbn [json_text JsonToy.toy_text]. cbn. apply bits_ascii.
Qed.

Definition py_client : UdsClient := client_new None None None (Some "s3").
Definition daemon_secret : option string := Some "s3".
Lemma python_sees_verdict_witness :
  exists st v, py_evaluate (H1 := loopback IpcSpec.toy_env daemon_secret IpcSpec.own_user) py_client "rm -rf /" 0
      (Some "acme") None "json" None (mkState false 1 (mkLoop EngineSpec.demo 0 [])) = (st, Ok v) /\
    py_action v = "block" /\ py_risk_level v = "l4".
Proof.
  destruct (handle_method (IpcSpec.toy_env 0).1 IpcSpec.own_user "guard.evaluate"
    (with_secret py_client "guard.evaluate" (evaluate_params "rm -rf /" 0 (Some "acme") None "json" None))
    EngineSpec.demo) as [g' res] eqn:E.
  assert (Hres : exists v, res = Ok (Wire.verdict_value v) /\ action v = Block /\ risk_level v = L4 /\
             Wire.verdict_wf v /\ deliverable (ok_resp (u64_value 1) (Wire.verdict_value v))).
  { pose proof (f_equal snd E) as E2. vm_compute in E2. subst res.
    exists (mkVerdict Block L4 "why" Regex false None true (Some "u0") 5 30 "shell_exec" None). split; [vm_compute; reflexivity|].
    split; [reflexivity|]. split; [reflexivity|]. split; [repeat split; vm_compute; congruence|].
    eapply toy_deliverable; [reflexivity|vm_compute; reflexivity|reflexivity]. }
  destruct Hres as (v & -> & Ha & Hr & Hwf & Hd).
  destruct (python_sees_verdict IpcSpec.toy_env daemon_secret IpcSpec.own_user py_client false 1 0 EngineSpec.demo g' v
              "rm -rf /" 0 (Some "acme") None "json" None) as [Hpy _].
  - split; reflexivity.
  - eapply toy_deliverable; [reflexivity|vm_compute; reflexivity|reflexivity].
  - repeat split.
  - exact Hwf.
  - exact E.
  - exact Hd.
  - eexists _, _. split; [exact Hpy|]. cbn. rewrite Ha, Hr. split; reflexivity.
Defined.

(** *** Where the code does not do what its comments say *)

(** The report Python sees does not mirror the server's: whether keys were lost is dropped. *)
Lemma key_loss_invisible a t : let a' := mkAll (a_audit a) (a_tcc a) (a_rules a) (a_dead a) (a_tampered a) t in
  decode_chains (Wire.all_chains_value a') = decode_chains (Wire.all_chains_value a).
Proof. cbv zeta. by rewrite !decode_chains_value. Qed.
(** The retry is for errors of the connection.  A request that the server answers with an error
    is sent again as well, and one that timed out there is then carried out twice: two pending
    actions and two audit rows for one call. *)
Definition slow_first : nat -> World * Sched :=
  fun k => ((IpcSpec.toy_env k).1, mkSched true true (Nat.eqb k 0) true).
Lemma retry_runs_twice :
  let '(st, r) := py_evaluate (H1 := loopback slow_first daemon_secret IpcSpec.own_user) py_client "rm -rf /" 0
                    (Some "acme") None "json" None (mkState false 1 (mkLoop EngineSpec.demo 0 [])) in
  let s := e_store (l_engine (net st)) in
  (exists v, r = Ok v) /\ size (actions s) = 2 /\ length (Chain.audit_rows (audit s)) = 2.
Proof. vm_compute. split; [eexists; reflexivity|split; reflexivity]. Qed.
End ClientSpec.
