(* ===== verification/Daemon.v ===== *)
(** * The daemon (fg-bin/src/main.rs, and opening of the store and the socket)

    From the command line to a listening server, in the order of [run_server], and what is left
    on disk when it stops.  The environment, the Keychain, the file system and failing system
    calls are arguments. *)
From S2P Require Import Prelude Json Core Pattern Tokenizer Semantic Rules Redact Tokens Chain.
From S2P Require Import Actions Ledger Engine Auth Wire Ipc Client.

Module Daemon.
Import Tokens Chain Ledger Engine Auth.

(** [Path::join] of a relative name *)
Definition join (base name : string) : string := base +:+ "/" +:+ name.
(** [log_dir], [data_dir] and the paths made from the latter *)
Definition home_or_dot (home : option string) : string := default "." home.
Definition log_dir (env_log home : option string) : string :=
  match env_log with
  | Some d => d
  | None => join (join (home_or_dot home) ".fusion-guard") "logs"
  end.
Definition data_dir (env_data home : option string) : string :=
  match env_data with
  | Some d => d
  | None => join (home_or_dot home) ".fusion-guard"
  end.
Definition db_path (env_data home : option string) : string := join (data_dir env_data home) "guard.db".

(** [DEFAULT_SOCK] of the server, and the commands *)
Definition DEFAULT_SOCK : string := "/tmp/fusion-guard.sock".
Inductive Cmd : Type :=
| Start (sock : string) (insecure_env_key insecure_secret_env : bool)
| Ping (sock : string).

(** *** What survives the process *)

(** The tables of the three databases and the dead-letter file. *)
Record Disk : Type := mkDisk {
  dk_audit : AuditDb;
  dk_actions : Actions.ActionTable;
  dk_tokens : gmap string TokenRow;
  dk_key_versions : gmap Z KeyVersion;
  dk_tcc : list TccRow;
  dk_mutations : list MutationRow;
  dk_rules : gmap string string;
  dk_epoch : option Z;
  dk_bindings : gset (Z * string);
  dk_dead : list string
}.
Definition to_disk (s : Store) : Disk :=
  mkDisk (audit s) (actions s) (tokens (toks s)) (key_versions (toks s)) (tcc_events s)
    (rule_mutations s) (rules_table s) (rule_epoch s) (tenant_bindings s) (dead_letter s).

Inductive StartError : Type :=
| SecretGate (m : string)
| StoreIo (m : string)
| KeyFailed (e : TokenError)
| EngineFailed (e : GuardError).

(** *** The socket *)

(** What is at the path of the socket. *)
Inductive PathEntry : Type := Absent | RegularFile | SocketFile | Symlink | Directory.
(** [remove_file] unlinks everything but a directory, if permissions allow it. *)
Definition remove_file (may_unlink : bool) (p : PathEntry) : PathEntry :=
  match p with
  | Directory => Directory
  | _ => if may_unlink then Absent else p
  end.
(** [serve] up to the accept loop: the mode of the socket it listens on. *)
Definition serve_start (may_unlink : bool) (p : PathEntry) (bind_fault chmod_fault : option string)
  : result string Z :=
  match remove_file may_unlink p with
  | Absent =>
      match bind_fault, chmod_fault with
      | Some m, _ => Err m
      | None, Some m => Err m
      | None, None => Ok (6 * 64)%Z
      end
  | _ => Err "socket path occupied by non-removable entity (dir/symlink squat, A5)"
  end.

Section WithParams.
Context `{RegexEngine, ShellEnv, Grammars, Crypto, RowCodec, VerdictCodec, StoreCodec}.

(** [AuditStore::open]: a new master key is minted only when there is no audit row; the queue
    starts empty with its thread running.  [fault] is an error of the file system or of SQL. *)
Definition open_store (fault : option string) (e : KeyEnv) (d : Disk) : result StartError Store :=
  match fault with
  | Some m => Err (StoreIo m)
  | None =>
      let audit_has_rows := match audit_rows (dk_audit d) with [] => false | _ => true end in
      tk ← map_err KeyFailed (open_checked e (dk_tokens d) (dk_key_versions d) (negb audit_has_rows));
      mret (mkStoreAll (dk_audit d) (dk_actions d) tk (dk_tcc d) (dk_mutations d) (dk_rules d)
              (dk_epoch d) (dk_bindings d) (dk_dead d) [] true)
  end.

(** The two flags of [Cmd::Start], which set environment variables. *)
Definition with_env_key_flag (flag : bool) (e : KeyEnv) : KeyEnv :=
  if flag then mkKeyEnv (is_debug e) (Some "1") (env_token_key e) (is_macos e) (keychain_entry e)
                 (keychain_store e) (random_key e) else e.
Definition with_secret_flag (flag : bool) (e : SecretEnv) : SecretEnv :=
  if flag then mkSecretEnv (s_debug e) (s_macos e) (env_secret e) (Some "1") (env_allow_no_secret e)
                 (s_store e) (s_random e) else e.

(** What the process sees of the system while it starts. *)
Record StartEnv : Type := mkStartEnv {
  st_keys : KeyEnv;
  st_secrets : SecretEnv;
  st_keychain_secret : option string;
  st_uid : Z;
  st_fault : option string;
  st_ids : MutIds;
  st_seed_faults : nat -> Fault;
  st_epoch_fault : Fault;
  st_bind_ok : bool;
  st_may_unlink : bool;
  st_path : PathEntry;
  st_sock_faults : option string * option string
}.
(** The running process.  An error of [serve] ends its task only: the process waits for a
    signal all the same. *)
Record Running : Type := mkRunning {
  rn_engine : AuditEngine;
  rn_secret : option string;
  rn_socket : result string Z
}.

(** [IpcServer::new]: the daemon's uid is bound to the default tenant, and the secret loaded. *)
Definition ipc_server_new (bind_ok : bool) (uid : Z) (se : SecretEnv) (kc : option string)
    (g : AuditEngine) : AuditEngine * option string :=
  (if bind_ok then with_store (bind_tenant uid Ipc.DEFAULT_TENANT (e_store g)) g else g,
   (load_shared_secret se kc).1.1).

(** [run_server] up to the wait for a signal; the disk is what is there afterwards. *)
Definition run_server (insecure_env_key insecure_secret_env : bool) (e : StartEnv) (d : Disk)
  : Disk * result StartError Running :=
  let ke := with_env_key_flag insecure_env_key (st_keys e) in
  let se := with_secret_flag insecure_secret_env (st_secrets e) in
  match require_shared_secret_for_release se (st_keychain_secret e) with
  | Err m => (d, Err (SecretGate m))
  | Ok _ =>
      match open_store (st_fault e) ke d with
      | Err x => (d, Err x)
      | Ok s =>
          match engine_open (st_ids e) (st_seed_faults e) (st_epoch_fault e) s with
          | (s', Err x) => (to_disk s', Err (EngineFailed x))
          | (_, Ok g) =>
              let '(g', secret) := ipc_server_new (st_bind_ok e) (st_uid e) se (st_keychain_secret e) g in
              (to_disk (e_store g'),
               Ok (mkRunning g' secret
                     (serve_start (st_may_unlink e) (st_path e) (st_sock_faults e).1 (st_sock_faults e).2)))
          end
      end
  end.

(** [run_ping]: the document it prints.  [exchange] writes the request and reads a line; a trailing
    line feed is white space to [serde_json::from_slice]. *)
Definition ping_request `{JsonText} : list ascii :=
  (bytes (json_text (Client.request_doc 1 "guard.ping" (Json.obj []))) ++ [Ipc.FRAMING_BYTE])%list.
Definition run_ping `{JsonText} (connect : result string ()) (exchange : list ascii -> result string (list ascii))
  : result string Json.Value :=
  _ ← connect;
  resp ← exchange ping_request;
  ok_or "parse" (Client.parse_bytes (Ipc.strip_framing resp)).

(** [async_main]: what a command starts, given what the process sees when it uses a socket *)
Definition async_main `{JsonText} (env : string -> StartEnv) (connect : string -> result string ())
    (exchange : string -> list ascii -> result string (list ascii)) (cmd : option Cmd)
    (d : Disk) : Disk * (result StartError Running + result string Json.Value) :=
  let serve sock k s := let '(d', r) := run_server k s (env sock) d in (d', inl r) in
  match cmd with
  | Some (Start sock k s) => serve sock k s
  | Some (Ping sock) => (d, inr (run_ping (connect sock) (exchange sock)))
  | None => serve DEFAULT_SOCK false false
  end.

(** The end of [run_server]: after a signal the drain thread has half a second, in which it takes
    some number of events from the queue, and the process exits. *)
Definition stop (turns : nat) (spool_ok : bool) (s : Store) : Disk :=
  to_disk (Nat.iter turns (drain_one spool_ok) s).
End WithParams.
End Daemon.
