(* ===== verification/DaemonSpec.v ===== *)
(** * Properties of the daemon's life (Daemon.v)

    What a daemon that started offers, and what a stop and a new start keep of its state. *)
From stdpp Require Import relations.
From S2P Require Import Prelude Json Core Pattern Tokenizer Semantic Rules Redact Tokens Chain.
From S2P Require Import ChainSpec Actions Ledger LedgerSpec Engine EngineSpec Auth Wire Cluster.
From S2P Require Import ClusterSpec Listing ListingSpec Platform Ipc IpcSpec Client ClientSpec Daemon.

Module DaemonSpec.
Import Rules Redact Tokens Chain Ledger Engine Auth Ipc IpcSpec Daemon.

(** *** Key versions *)

(** What a new start reads of the keys. *)
Definition key_view (s : Store) := (key_versions (toks s), key (toks s), current_version (toks s)).
Definition settled `{Crypto} (s : Store) : Prop :=
  is_Some (key_versions (toks s) !! 1%Z) /\
  backfill_key_anchors (key (toks s)) (key_versions (toks s)) = key_versions (toks s) /\
  current_version (toks s) = max_key_version (key_versions (toks s)).

Section Keys.
Context `{RegexEngine, ShellEnv, Grammars, Crypto, RowCodec, VerdictCodec, StoreCodec}.
Context `{SqlFunctions, JsonText, ClusterHash, HexCodec}.

Lemma backfill_idemp k kvs : backfill_key_anchors k (backfill_key_anchors k kvs) = backfill_key_anchors k kvs.
Proof.
  apply map_eq. intros v. rewrite !TokensSpec.backfill_keeps_anchors.
  by destruct (kvs !! v) as [[t [a|]]|].
Qed.
Lemma backfill_is_Some k (kvs : gmap Z KeyVersion) v :
  is_Some (kvs !! v) -> is_Some (backfill_key_anchors k kvs !! v).
Proof. intros [x E]. unfold backfill_key_anchors, KeyVersion in *. rewrite map_lookup_imap, E. by eexists. Qed.
Lemma seeded (kvs : gmap Z KeyVersion) x :
  is_Some (match kvs !! 1%Z with Some _ => kvs | None => <[1%Z := x]> kvs end !! 1%Z).
Proof. destruct (kvs !! 1%Z) eqn:E; [by rewrite E|]. rewrite lookup_insert_eq. by eexists. Qed.
Lemma open_settled fault e d s : open_store fault e d = Ok s -> settled s.
Proof.
  unfold open_store. destruct fault; [done|]. cbv zeta. unfold open_checked. cbv zeta.
  destruct (load_or_create_key _ _) as [k|]; [|done]. cbn. intros E. injection E as <-.
  split; [|split; [apply backfill_idemp|done]]. apply backfill_is_Some, seeded.
Qed.
Lemma settled_view s s' : key_view s' = key_view s -> settled s -> settled s'.
Proof. intros E. injection E as E1 E2 E3. unfold settled. by rewrite E1, E2, E3. Qed.

Lemma put_tokens_keys rnd now tenant n ms t : let t' := put_tokens rnd now tenant n ms t in
  key_versions t' = key_versions t /\ key t' = key t /\ current_version t' = current_version t.
Proof.
  cbv zeta. revert n t. induction ms as [|m ms IH]; intros n t; cbn [put_tokens]; [done|].
  destruct (IH (S n) (put_tenant (rnd n) now (Redact.token_id m) (Redact.original m) tenant t).1) as (-> & -> & ->).
  unfold put_tenant. by destruct (aes_encrypt _ _ _).
Qed.
Lemma get_tenant_keys now id tenant t : let t' := (get_tenant now id tenant t).1 in
  key_versions t' = key_versions t /\ key t' = key t /\ current_version t' = current_version t.
Proof. cbv zeta. unfold get_tenant. by repeat case_match. Qed.
Lemma reveal_loop_keys now tenant ps t text : let t' := (reveal_loop now tenant ps (t, text)).1 in
  key_versions t' = key_versions t /\ key t' = key t /\ current_version t' = current_version t.
Proof.
  cbv zeta. revert t text. induction ps as [|[kind tid] ps IH]; intros t text; cbn [reveal_loop]; [done|].
  unfold reveal_one.
  destruct (get_tenant_keys now tid tenant (set_in_flight tid true t)) as (E1 & E2 & E3).
  destruct (get_tenant now tid tenant (set_in_flight tid true t)) as [t1 got]. cbn in E1, E2, E3.
  destruct got as [o|]; [|destruct (slice_to 8 tid)]; [| |by repeat split];
    (match goal with |- context [reveal_loop now tenant ps (?t2, ?s2)] => destruct (IH t2 s2) as (-> & -> & ->) end;
     by repeat split).
Qed.
Lemma rule_change_keys w r n g :
  toks (e_store (add_rule (w_ids w) (w_faults w 0) (w_faults w 1) (w_faults w 2) r g).1) = toks (e_store g) /\
  toks (e_store (update_rule (w_ids w) (w_faults w 0) (w_faults w 1) (w_faults w 2) (w_faults w 3) n r g).1)
    = toks (e_store g).
Proof.
  unfold add_rule, update_rule, persist, save_rule, save_epoch, delete_rule, two_steps.
  cbv zeta. split; repeat case_match; simplify_eq; done.
Qed.
Lemma effect_keys w i g g' : effect w i g g' -> key_view (e_store g') = key_view (e_store g).
Proof.
  intros He. destruct He; unfold key_view.
  - destruct (evaluate_store (w_uuid w) (w_now w) (w_put_fault w) content ep tenant ct hint g)
      as [->|(v & _ & ->)]; done.
  - destruct (append_store (w_ev_id w) (w_time w) tenant v raw who (w_spool_ok w) (w_retention w) (e_store g))
      as (_ & E & _). cbn. by rewrite E.
  - by destruct (rule_change_keys w r "" g) as [-> _].
  - by destruct (rule_change_keys w r n g) as [_ ->].
  - unfold remove_rule, persist, save_epoch, delete_rule, two_steps. repeat case_match; simplify_eq; done.
  - unfold redact_tenant. cbv zeta. destruct rev; [|done]. destruct (redact_reversible _ _ _) as [[red ms]|]; [|done].
    cbn. destruct (put_tokens_keys (w_rnd w) (w_now w) tenant 0 ms
                     (Tokens.evict_expired (w_now w) (toks (e_store g))).1) as (E1 & E2 & E3).
    cbn in E1, E2, E3. by rewrite E1, E2, E3.
  - unfold reveal_tenant. cbv zeta. destruct (extract_placeholders content) as [ps|]; [|done].
    destruct (reveal_loop_keys (w_now w) tenant ps (Tokens.evict_expired (w_now w) (toks (e_store g))).1 content)
      as (E1 & E2 & E3).
    destruct (reveal_loop (w_now w) tenant ps _) as [t' res]. cbn in E1, E2, E3 |- *. by rewrite E1, E2, E3.
  - unfold confirm. cbv zeta. repeat case_match; done.
  - done.
  - unfold verify_all_chains. by destruct (Chain.verify_chain _ _ _ _).
Qed.

(** One step of a running daemon: a call of anybody, or one of its two threads. *)
Inductive daemon_step : AuditEngine -> AuditEngine -> Prop :=
| step_call w i g g' (_ : effect w i g g') : daemon_step g g'
| step_drain ok g : daemon_step g (with_store (drain_one ok (e_store g)) g)
| step_retention rt g : daemon_step g (with_store (enforce_retention rt (e_store g)) g).
Lemma daemon_step_keys g g' : daemon_step g g' -> key_view (e_store g') = key_view (e_store g).
Proof.
  intros [w i g1 g2 He|ok g1|rt g1]; [by eapply effect_keys| |done].
  unfold drain_one, spool_dead_letter. repeat case_match; done.
Qed.
Lemma daemon_life_keys g g' : rtc daemon_step g g' -> key_view (e_store g') = key_view (e_store g).
Proof. induction 1 as [|g1 g2 g3 Hs _ IH]; [done|]. rewrite IH. by apply daemon_step_keys. Qed.
End Keys.

(** The state a new start finds: all of it but the queue, which lives in memory. *)
Definition reopened (s : Store) : Store :=
  mkStoreAll (audit s) (actions s) (toks s) (tcc_events s) (rule_mutations s) (rules_table s)
    (rule_epoch s) (tenant_bindings s) (dead_letter s) [] true.

Lemma daemon_drains `{RegexEngine, ShellEnv, Grammars, Crypto, RowCodec, VerdictCodec, StoreCodec}
    `{SqlFunctions, JsonText, ClusterHash, HexCodec} turns ok g :
  rtc daemon_step g (with_store (Nat.iter turns (drain_one ok) (e_store g)) g).
Proof.
  induction turns as [|n IH]; [by destruct g|]. eapply rtc_r; [exact IH|]. cbn [Nat.iter nat_rect].
  match goal with |- daemon_step ?g1 _ => exact (step_drain ok g1) end.
Qed.

(** [C25] What a stop and a new start keep: a store that was opened, served any calls, drained
    its queue and rotated its rows, is given some turns of the drain thread when the daemon stops
    and is opened again from what is on disk with the same master key, is the same store in all
    its tables, its tokens, key versions and dead letters; only the events still in the queue
    after these turns are gone. *)
Theorem restart_keeps_state
    `{RegexEngine, ShellEnv, Grammars, Crypto, RowCodec, VerdictCodec, StoreCodec}
    `{SqlFunctions, JsonText, ClusterHash, HexCodec} fault e d s g g' e2 turns ok
  (Hopen : open_store fault e d = Ok s) (Hg : e_store g = s) (Hlife : rtc daemon_step g g')
  (Hkey : forall mint, load_or_create_key e2 mint = Ok (key (toks s))) :
  open_store None e2 (stop turns ok (e_store g'))
  = Ok (reopened (Nat.iter turns (drain_one ok) (e_store g'))).
Proof.
  unfold stop. assert (Hlife' : rtc daemon_step g (with_store (Nat.iter turns (drain_one ok) (e_store g')) g'))
    by (etrans; [exact Hlife|apply daemon_drains]).
  change (Nat.iter turns (drain_one ok) (e_store g')) with
    (e_store (with_store (Nat.iter turns (drain_one ok) (e_store g')) g')).
  revert Hlife'. generalize (with_store (Nat.iter turns (drain_one ok) (e_store g')) g') as g2.
  clear Hlife g'. intros g' Hlife. apply open_settled in Hopen. rewrite <- Hg in Hopen.
  pose proof (daemon_life_keys g g' Hlife) as Hv. pose proof (settled_view _ _ Hv Hopen) as (H1' & Hb & Hm).
  injection Hv as _ Hk _. rewrite Hg in Hk. rewrite <- Hk in Hkey.
  unfold open_store. cbv zeta. unfold open_checked. cbv zeta. rewrite Hkey. cbn.
  destruct H1' as [kv E1]. rewrite E1. cbn. rewrite Hb, <- Hm. unfold reopened.
  by destruct (toks (e_store g')).
Qed.

(** *** Ping *)

(** The first line a connection answers. *)
Definition first_line (out : string) : list ascii := (read_until (S (length (bytes out))) (bytes out)).1.
(** Whoever pings a daemon that answers in time is told its version and the epoch of its rules, and
    has changed nothing. *)
Lemma ping_answered
    `{RegexEngine, ShellEnv, Grammars, Crypto, RowCodec, VerdictCodec, StoreCodec}
    `{SqlFunctions, HJ : JsonText, HL : !JsonTextLaws, ClusterHash, HexCodec} env secret peer our g
  (Hw : forall j, written (env j).2 = true) (Hin : ClientSpec.in_time env 0)
  (Hreq : ClientSpec.deliverable (Client.request_doc 1 "guard.ping" (Json.obj [])))
  (Hans : ClientSpec.deliverable (ok_resp (Json.u64_value 1) (Json.obj
     [("pong", Json.Bool true); ("version", Json.Str (w_version (env 0).1));
      ("rules_epoch", Json.u64_value (epoch (e_rules g)))]))) :
  exists out v, handle_conn env secret peer our ping_request g = (g, out, Closed) /\
    run_ping (Ok ()) (fun _ => Ok (first_line out)) = Ok v /\
    Client.response_result v = Ok (Json.obj
      [("pong", Json.Bool true); ("version", Json.Str (w_version (env 0).1));
       ("rules_epoch", Json.u64_value (epoch (e_rules g)))]).
Proof.
  set (i := resolve_identity (e_store g) peer our). set (doc := Client.request_doc 1 "guard.ping" (Json.obj [])) in *.
  set (val := Json.obj [("pong", _); _; _]) in *. pose proof Hreq as [Hpr Hline].
  assert (Hat : ClientSpec.attempt env i 0 "guard.ping" (Json.obj []) g = (g, Ok val)) by reflexivity.
  pose proof (conn_loop_lines (S (length ping_request)) env 0 secret i [json_text doc] [] Closed g Hw) as Hc.
  rewrite app_nil_r in Hc. unfold framed in Hc. cbn [fmap list_fmap mjoin list_join answer_lines] in Hc.
  rewrite app_nil_r in Hc.
  rewrite (ClientSpec.attempt_dispatched env secret i 0 1 "guard.ping" (Json.obj []) g) in Hc
    by (done || (apply AuthSpec.authorize_allow; by left)).
  rewrite Hat in Hc. cbn [fst snd joined String.concat] in Hc.
  exists (frame (ClientSpec.reply_doc 1 (Ok val))).
  pose proof (ClientSpec.reply_result env i 0 1 "guard.ping" (Json.obj []) g) as Hrep. cbv zeta in Hrep.
  rewrite Hat in Hrep. cbn [snd] in Hrep.
  assert (Hn : ClientSpec.answerable 1 (Ok val)) by (split; [exact Hans|]; intros v E; injection E as <-; reflexivity).
  specialize (Hrep Hn).
  destruct (Client.parse_bytes _) as [v|] eqn:Ev; [|done]. exists v.
  split; [apply Hc; [by constructor|done|apply Nat.lt_succ_diag_r]|]. split; [|exact Hrep].
  unfold run_ping, first_line, frame. cbn [mbind result_bind]. rewrite bytes_app.
  destruct Hans as [_ (Hnl & _)]. change (bytes (String (ascii_of_nat 10) "")) with [FRAMING_BYTE].
  rewrite (read_until_line _ _ []); [|exact Hnl|rewrite length_app; cbn; lia]. cbn [fst].
  rewrite strip_framing_line by exact Hnl. by rewrite Ev.
Qed.

(** *** Starting *)

Section Start.
Context `{RegexEngine, ShellEnv, Grammars, Crypto, RowCodec, VerdictCodec, StoreCodec}.

Lemma two_steps_frame f g1 g2 (s : Store) :
  (forall s, audit (g1 s) = audit s /\ toks (g1 s) = toks s) ->
  (forall s, audit (g2 s) = audit s /\ toks (g2 s) = toks s) ->
  audit (two_steps f g1 g2 s).1 = audit s /\ toks (two_steps f g1 g2 s).1 = toks s.
Proof.
  intros G1 G2. unfold two_steps. destruct f; cbn; [|done|apply G1].
  destruct (G1 s) as [E1 E2], (G2 (g1 s)) as [-> ->]. done.
Qed.
Lemma seed_frame ids f n rs s : let s' := (seed_rules ids f n rs s).1 in audit s' = audit s /\ toks s' = toks s.
Proof.
  cbv zeta. revert n s. induction rs as [|r rs IH]; intros n s; [done|]. cbn [seed_rules].
  assert (Hf : audit (save_rule (f n) (mut_id ids n) (mut_time ids) r s).1 = audit s /\
               toks (save_rule (f n) (mut_id ids n) (mut_time ids) r s).1 = toks s)
    by (by apply two_steps_frame).
  destruct (save_rule _ _ _ _ s) as [s1 [[]|]]; [|done]. destruct Hf as [E1 E2]. cbn in E1, E2.
  destruct (IH (S n) s1) as [-> ->]. done.
Qed.
(** An engine that opens has rules, and its store differs only in the rules. *)
Lemma engine_open_ok ids f fe s s' g : engine_open ids f fe s = (s', Ok g) ->
  rules (e_rules g) <> [] /\ audit (e_store g) = audit s /\ toks (e_store g) = toks s.
Proof.
  unfold engine_open. destruct (boot_rules ids f fe s) as [s1 [rs|]] eqn:Eb; [|done].
  assert (Hb : rs_rules rs <> [] /\ audit s1 = audit s /\ toks s1 = toks s).
  { unfold boot_rules in Eb. destruct (load_rules s) as [o|]; [|done]. cbv zeta in Eb.
    destruct (o ≫= _) as [rs0|] eqn:Eo.
    - injection Eb as <- <-. destruct o as [rs1|]; [|done]. cbn in Eo. by destruct (rs_rules rs1) eqn:Er; simplify_eq; rewrite ?Er.
    - pose proof (seed_frame ids f 0 (rs_rules default_ruleset) s) as [E1 E2].
      destruct (seed_rules _ _ _ _ s) as [s2 [[]|]]; [|done]. cbn in E1, E2.
      assert (Hf : forall u, audit (save_epoch fe u (mut_time ids) (rs_epoch default_ruleset) s2).1 = audit s2 /\
               toks (save_epoch fe u (mut_time ids) (rs_epoch default_ruleset) s2).1 = toks s2)
        by (intros u; by apply two_steps_frame).
      specialize (Hf (mut_id ids (length (rs_rules default_ruleset)))).
      destruct (save_epoch _ _ _ _ s2) as [s3 [[]|]]; [|done]. injection Eb as <- <-. cbn in Hf.
      destruct Hf as [-> ->]. done. }
  destruct Hb as (Hne & Ha & Ht). unfold engine_new. intros E. injection E as <- E.
  destruct (compile_all (rs_rules rs)) as [cs|]; [|done]. cbn [map_err mbind result_bind mret result_ret] in E.
  destruct redactor_new as [rd|er]; cbn [map_err mbind result_bind mret result_ret] in E; [|done]. by injection E as <-.
Qed.
Lemma bound_tenant uid t s : In t (tenants_for_uid uid (bind_tenant uid t s)).
Proof.
  unfold tenants_for_uid. apply list_elem_of_In. rewrite merge_sort_Permutation.
  apply list_elem_of_fmap. exists (uid, t). split; [done|]. apply list_elem_of_filter. split; [done|].
  apply elem_of_elements. cbn. set_solver.
Qed.
Lemma opened_key e d s : open_store None e d = Ok s -> audit_rows (dk_audit d) <> [] -> env_token_key e = None ->
  keychain_entry e = Some (key (toks s)) /\ audit s = dk_audit d.
Proof.
  unfold open_store. cbv zeta. intros E Hrows Henv. destruct (audit_rows (dk_audit d)) as [|r rows]; [done|].
  unfold open_checked, load_or_create_key in E. cbv zeta in E. rewrite Henv in E. cbn [negb andb] in E.
  unfold resolve_key_source in E. cbn in E. unfold load_keychain_or_err in E.
  destruct (negb (is_macos e)); [done|]. destruct (keychain_entry e) as [k|]; [|done].
  destruct (Nat.eqb (String.length k) KEY_LEN); [|done]. cbn in E. by injection E as <-.
Qed.
End Start.


(** *** Examples *)

#[local] Existing Instances RulesSpec.sample_regex Tokenizer.sample_env RulesSpec.sample_grammars ChainSpec.toy_crypto
  ChainSpec.toy_codec LedgerSpec.toy_store_codec EngineSpec.full_verdict_codec
  ListingSpec.toy_sql JsonToy.toy_text ClusterSpec.toy_hash ClusterSpec.toy_hex.

Definition toy_key : string := "0123456789abcdef0123456789abcdef".
Definition mac_keys (entry : option string) : KeyEnv :=
  mkKeyEnv false None None true entry (fun _ => Ok ()) toy_key.
Definition start_env (entry kc : option string) (p : PathEntry) : StartEnv :=
  mkStartEnv (mac_keys entry) (AuthSpec.mac_env None None) kc 501 None EngineSpec.demo_ids (fun _ => NoFault) NoFault
    true true p (None, None).
Definition new_disk : Disk := mkDisk (mkDb [] None) ∅ ∅ ∅ [] [] ∅ None ∅ [].


Lemma restart_keeps_state_witness :
  exists s, open_store None (mac_keys None) new_disk = Ok s /\
    open_store None (mac_keys (Some toy_key)) (stop 1 true (report_tcc_event "t1" "now" "camera" "app" "denied" "why" s))
    = Ok (reopened (drain_one true (report_tcc_event "t1" "now" "camera" "app" "denied" "why" s))).
Proof.
  destruct (open_store None (mac_keys None) new_disk) as [s|] eqn:E; [|discriminate E]. exists s. split; [reflexivity|].
  pose (g := mkEngine (e_rules EngineSpec.demo) (e_redactor EngineSpec.demo) s).
  apply (restart_keeps_state None (mac_keys None) new_disk s g
    (report_tcc "t1" "now" "camera" "app" "denied" "why" g).1 (mac_keys (Some toy_key)) 1 true E eq_refl).
  - apply rtc_once, (step_call (mkWorld "u" "t1" 0 "now" None true LedgerSpec.toy_retention (fun _ => "") (fun _ => "")
      EngineSpec.demo_ids (fun _ => NoFault) "0" (Platform.mkTccBridge (fun _ => 0%Z) true) true None None None None
      (fun _ => Cluster.SendFailed "")) own_user), eff_tcc.
  - intros mint. vm_compute in E. injection E as <-. vm_compute. reflexivity.
Defined.

(** *** Where the code does not do what its comments say *)

(** A daemon whose socket path is taken goes on without listening. *)
Lemma occupied_path_keeps_running :
  exists d' r m, run_server false false (start_env None (Some "s3") Directory) new_disk = (d', Ok r) /\
    rn_socket r = Err m.
Proof.
  destruct (run_server false false (start_env None (Some "s3") Directory) new_disk) as [d' res] eqn:E.
  destruct EngineSpec.demo_redactor as [rd Hrd]. unfold run_server, engine_open in E. rewrite Hrd in E.
  vm_compute in E. injection E as <- <-. do 3 eexists. split; reflexivity.
Qed.
End DaemonSpec.
